(* ===== verification/_CoqProject ===== *)
-Q . S2P
Prelude.v
GoStrings.v
Netip.v
Call.v
EventBus.v
Registration.v
MemoryStore.v
RegistrationTheory.v
Dtmf.v
Rtp.v
PortAlloc.v
Sdp.v
MediaEndpoint.v
MediaRtcp.v
MediaSession.v
MediaWorkers.v
Auth.v
MysqlStore.v
CallRecords.v
Registrar.v
B2buaEngine.v
B2buaSession.v
B2buaHandlers.v
B2buaMailbox.v
SipMessages.v
EndToEnd.v
App.v
Service.v
Process.v
SpikeSipgo.v
SpikeEcho.v
SpikePion.v
TestServer.v
