(* ===== verification/Prelude.v ===== *)
(** * AixvoLinkPBX: verification development (root file and prelude)

    AixvoLinkPBX is a SIP private branch exchange in Go: phones register with
    digest authentication, call each other through a back-to-back user agent
    (B2BUA), and their audio is relayed by an anchored media engine.  This
    library models the program's own logic (the packages under [src/internal],
    the commands and the experiments under [src/spikes]) as executable Rocq
    definitions and step relations, and proves the properties that make them
    correct.

    ** The parts and where they are modelled

    - [Call.v]: [core/call], the call state machine and its actor.  Module
      [System] models [Actor.Transition]: client goroutines, the bounded mailbox
      and the run loop, interleaved.
    - [EventBus.v]: [event/call_bus.go], the bounded event queue and its consumer,
      which takes an event and calls the writer in two steps; its media instance ([event/media_bus.go]) is at the end of [MediaSession.v].
    - [Registration.v], [MemoryStore.v], [RegistrationTheory.v]:
      [core/registration] and [platform/memory/registration_store.go].  The
      manager runs on a class [Store]; class [StoreLaws] says what a store
      promises over an abstract finite map; the in-memory store is an instance.
    - [Auth.v]: [sip/auth/digest.go] and [platform/memory/credential_store.go].
    - [Registrar.v]: [sip/registrar/handler.go], the REGISTER transaction on top
      of [Auth.v] and [Registration.v].
    - [Sdp.v]: [sip/sdp/audio.go], parsing, negotiation and building.
    - [Dtmf.v], [Rtp.v]: [media/dtmf] and [media/rtp], the RFC 4733 payload, RTP
      rewriting and receiver statistics on 16-, 32- and 64-bit integers and IEEE
      floats.
    - [PortAlloc.v]: [media/portalloc], RTP/RTCP port pairs over a model of UDP
      sockets; module [Concurrent] interleaves acquisitions and releases, one channel
      operation, socket call or counter update at a time.
    - [MediaEndpoint.v], [MediaRtcp.v], [MediaSession.v], [MediaWorkers.v]:
      [media/session], one leg's endpoint and the forwarding loop (on read events,
      and on timed arrivals with the deadline re-armed every round), RTCP, the
      session with its factory, summaries and report loop, and the session's five
      workers interleaved.
    - [MysqlStore.v], [CallRecords.v]: [platform/mysql/store.go], its SQL statements
      as functions on tables; and the call records that result from the events a
      call's actor publishes.
    - [B2buaEngine.v], [B2buaSession.v], [B2buaHandlers.v]: [sip/b2bua].  Module
      [Admission]: call slots and dialog tables shared by all goroutines; module
      [ReInvite]: a session's pending re-INVITE; [B2buaSession.v]: the goroutine
      of one call from INVITE to release; [B2buaHandlers.v]: the handlers that
      start calls and pass in-dialog requests to them; [B2buaMailbox.v]: any
      number of these handlers and a call's goroutine as one system over the
      session's command channel; [SipMessages.v]: the messages they send and the
      routing of requests to handlers.
    - [EndToEnd.v]: the REGISTER handler, the registration policy, the admission
      of INVITEs and the outbound INVITE put together, with other work on the store
      in between, over a class [BindingStore] that the in-memory store and, with a
      binary collation, the MySQL store discharge.
    - [App.v], [Service.v], [Process.v]: [app/app.go] and [cmd/aixvolinkpbx/main.go].  [App.v] has
      the configuration, [New], which calls the components' constructors, and the
      command; [Service.v] has [App.Run] and its goroutines as a step relation on
      top of [B2buaEngine.Admission], where a listener ends because its socket was
      closed or, as a step of its own kind, by a failure; [Process.v] has the command's group: the
      consumers of the two buses and the application as one system.
    - [SpikeSipgo.v], [SpikeEcho.v], [SpikePion.v]: the programs under [spikes],
      small servers that try out the SIP, RTP and WebRTC libraries: a SIP server
      with its two listeners, an RTP echo, and an HTTP service that owns WebRTC
      peers; [TestServer.v]: [test/sipp/server], which runs the application for
      the SIPp tests.
    - [Prelude.v] (this file), [GoStrings.v], [Netip.v]: machine words, Go errors
      and contexts, times, and the parts of [strings], [strconv] and [net/netip]
      the program uses.

    A SIP request reaches [Registrar.Handle] or [B2buaHandlers.handleInvite]; the
    latter asks [Registration.List] for the caller and starts
    [B2buaSession.run], which asks [Registration.Resolve] for the callee, gets a
    session from [MediaSession.Factory_New] (two leases of [PortAlloc]),
    negotiates with [Sdp], drives the call's [Call] actor, and is found again by
    in-dialog requests through [B2buaEngine.Admission].  The actor's events go to
    [EventBus], whose consumer writes them with [MysqlStore.mysql_WriteCallEvent].

    ** How code becomes definitions

    An integer of width w is a [Z]; every operation that can overflow is followed
    by a wrap function ([u8] ... [i64]).  Go errors are values of [error], with
    wrapping and [errors.Is]; a fallible function returns [result] or an option.
    A mutable object is a record passed and returned.  What a function gets from
    its surroundings (clock, random bytes, system calls, context, other
    libraries) is an argument.  State shared by goroutines under a mutex or over
    channels is a step relation whose steps are the code's critical sections and
    channel operations; properties of it hold in every reachable state.

    Code that is not in the repository is a parameter: UUIDs, [slices.SortFunc]
    (with its documented specification), HMAC-SHA256, MD5 and [icholy/digest]
    (classes [Crypto], [CryptoLaws], [DigestLib]), pion's SDP, RTP and RTCP wire
    formats (classes [SdpCodec], [RtpCodec], [RtcpCodec]), errgroup (classes
    [ErrGroup], [ErrGroupLaws], its documentation), the MySQL server's text
    comparison, stored precision and row order (class [SqlServer]), sipgo's URIs,
    header names and parameters (class [SipLib]), and sipgo's dialogs, whose
    outcomes are part of a call's [Surroundings].  [SqlLaws] assumes that no two
    contacts have the same SHA-256 hash; [SqlPrecision] that the server and its
    driver move a time by at most a fixed precision (a microsecond for DATETIME(6)).

    ** What is proved

    - Calls ([Call.v], [EventBus.v]): the published events of a call are a path
      of the transition table with increasing sequence numbers; each request is
      applied at most once; cancellation terminates a call; the bus is FIFO and stops
      at the first write that fails.
    - Registration: [Apply] registers, unregisters, is atomic in its failures and
      respects the limit; [Resolve] picks the preferred device; expiry is
      invisible; only the authenticated owner changes a registration; every
      REGISTER is answered once.
    - Authentication: nonces live exactly their lifetime, no authentication is
      accepted twice, the right password is always let in.
    - Storage: with a binary collation the MySQL store implements a finite map of
      bindings, and keeps the binding limit; a call's record is the summary of the
      events written, and agrees with the call's actor as far as writes succeeded.
    - Media: ports are conserved in every interleaving, sessions are set up all
      or nothing and closed once, whenever that is; injected packets have no effect
      on what is relayed from a pinned leg; the relayed streams are continuous in every interleaving of a session's
      workers, which all end once the session is stopped; loss, reports and round-trip times
      are exact within stated bounds; SDP that is built parses back, negotiation
      meets its specification.
    - B2BUA: one call's actions refine a small protocol machine (at most one
      final response, BYE only on confirmed dialogs, media freed, the callee's dialog closed); a success
      response carries the answer negotiated with the callee's own description; in a cooperative
      surrounding the caller always gets a final response; slots and dialog
      tables are consistent; only registered phones start calls; a relayed request
      carries no header of the other leg's dialog.
    - B2BUA, composed: with any number of in-dialog requests at the same time a
      call still follows the protocol machine and handles their commands in the order
      of its mailbox, every request gets a final response from its handler or the
      session, and a hang-up in the mailbox ends the call; a phone that has registered
      can call, and calls for it go where it registered from, until its time is over
      and whatever is done to other bindings.
    - Application: [New] accepts exactly the configurations every component can work
      with; [Run] closes its sockets, so it ends in a bounded number of steps, in
      order, and returns nil exactly after a clean stop; the command starts only valid services, its
      process ends in a bounded number of steps after a signal or a failure, the
      store is closed last, and success means that no write failed.
    - Spikes: the WebRTC service loses no connection and keeps its limit in every
      interleaving, [Close] releases them all, and every run ends; the echo sends
      back exactly what it received and wrote without error, and ends exactly when it
      should; the SIP server's [Run]
      returns after its goroutines, with its sockets closed.

    Some of the theorems named in no claim show where the code departs from what it means to
    do, each on a concrete run (for instance [ringing_after_early_media],
    [jitter_timestamp_wrap], [replay_race]).

    ** Fuel and bounds

    Loops over channels, sockets and timers recurse on the list of events they
    receive, and a result says whether the loop has returned.
    [PortAlloc.acquire_loop] recurses on the pool's capacity, as the code's loop
    does.  Two definitions take fuel: [PortAlloc.fill] gets the length of the port
    range, more than its iterations (lemma [fill_pairs] shows it produces every
    pair), and [Netip.parseIPv6_loop] one round per 16-bit group of an address.
    Bounds that theorems assume (fewer than 2^64 events, a plausible clock, RTCP
    delays that fit their field) are hypotheses.

    ** What is not modelled

    Logging; the parsing of command-line flags, whose result [App.Main.run] gets; the
    bytes of SIP, SDP, RTP and RTCP messages, which libraries read and write; the
    preemption of a media worker in the middle of a round (its accesses to shared
    fields are atomic one by one, and a round is one step); SIP retransmissions,
    which sipgo's transactions absorb.

    ** Plan

    Next: [B2buaMailbox.v] for all sessions of an engine at the same time; the
    remaining theorems on registrations over [BindingStore] instead of [StoreLaws]. *)

From stdpp Require Export prelude gmap list strings fin_maps fin_map_dom.
From Stdlib Require Export ZArith Lia Sorting.Sorted.

#[global] Open Scope Z_scope.

(** ** Machine integers

    A Go integer of width [w] is a [Z]; every operation that can overflow is
    followed by one of these wrap functions. *)

Definition u8 (z : Z) : Z := z mod 2 ^ 8.
Definition u16 (z : Z) : Z := z mod 2 ^ 16.
Definition u32 (z : Z) : Z := z mod 2 ^ 32.
Definition u64 (z : Z) : Z := z mod 2 ^ 64.

Definition i16 (z : Z) : Z := (z + 2 ^ 15) mod 2 ^ 16 - 2 ^ 15.
Definition i32 (z : Z) : Z := (z + 2 ^ 31) mod 2 ^ 32 - 2 ^ 31.
Definition i64 (z : Z) : Z := (z + 2 ^ 63) mod 2 ^ 64 - 2 ^ 63.

Definition is_u8 (z : Z) : Prop := 0 <= z < 2 ^ 8.
Definition is_u16 (z : Z) : Prop := 0 <= z < 2 ^ 16.
Definition is_u32 (z : Z) : Prop := 0 <= z < 2 ^ 32.
Definition is_u64 (z : Z) : Prop := 0 <= z < 2 ^ 64.
Definition is_i64 (z : Z) : Prop := - 2 ^ 63 <= z < 2 ^ 63.

(** The hint database of the development: range facts and list lemmas that
    close the routine side conditions. *)
Create HintDb pbx discriminated.

(** [wrap] turns the wrap functions into [mod] and lets [lia] finish. *)
Ltac unfold_words :=
  unfold u8, u16, u32, u64, i16, i32, i64,
         is_u8, is_u16, is_u32, is_u64, is_i64 in *.
Ltac word_lia := unfold_words; Z.div_mod_to_equations; lia.

Lemma u8_range z : is_u8 (u8 z).
Proof. word_lia. Qed.
Lemma u16_range z : is_u16 (u16 z).
Proof. word_lia. Qed.
Lemma u32_range z : is_u32 (u32 z).
Proof. word_lia. Qed.
Lemma u64_range z : is_u64 (u64 z).
Proof. word_lia. Qed.
Lemma i64_range z : is_i64 (i64 z).
Proof. word_lia. Qed.
#[export] Hint Resolve u8_range u16_range u32_range u64_range i64_range : pbx.

Lemma u16_id z : is_u16 z -> u16 z = z.
Proof. intros; apply Z.mod_small; auto. Qed.
Lemma u32_id z : is_u32 z -> u32 z = z.
Proof. intros; apply Z.mod_small; auto. Qed.
Lemma u64_id z : is_u64 z -> u64 z = z.
Proof. intros; apply Z.mod_small; auto. Qed.
Lemma i64_id z : is_i64 z -> i64 z = z.
Proof. intros. word_lia. Qed.

(** Bytes are few enough to check a boolean property on all of them. *)
Lemma u8_forall (P : Z -> bool) :
  forallb P (seqZ 0 256) = true -> forall v, is_u8 v -> P v = true.
Proof.
  rewrite forallb_forall. intros HP v Hv. apply HP, list_elem_of_In, elem_of_seqZ.
  unfold is_u8 in Hv. lia.
Qed.

(** Bits that do not overlap can be added. *)
Lemma lor_shiftl a b n : 0 <= n -> 0 <= a < 2 ^ n -> Z.lor a (Z.shiftl b n) = a + b * 2 ^ n.
Proof.
  intros Hn Ha. rewrite <- Z.shiftl_mul_pow2 by done.
  assert (Hd : Z.land a (Z.shiftl b n) = 0).
  { apply Z.bits_inj'. intros i Hi. rewrite Z.land_spec, Z.bits_0.
    destruct (Z.ltb_spec i n); [rewrite Z.shiftl_spec_low by done; apply andb_false_r|].
    rewrite <- (Z.mod_small a (2 ^ n)) by done. rewrite Z.mod_pow2_bits_high by lia. done. }
  rewrite Z.add_nocarry_lxor by done. symmetry. by apply Z.lxor_lor.
Qed.

(** ** Big-endian integers

    [be_uint] is [binary.BigEndian.Uint16/32/64] of a slice of that length,
    [be_put n] the corresponding [PutUint]. *)
Definition be_uint (bytes : list Z) : Z :=
  foldl (fun acc b => Z.lor (Z.shiftl acc 8) b) 0 bytes.

Fixpoint be_put (n : nat) (v : Z) : list Z :=
  match n with
  | O => []
  | S m => u8 (Z.shiftr v (8 * Z.of_nat m)) :: be_put m v
  end.

Lemma be_uint_step acc b : is_u8 b -> Z.lor (Z.shiftl acc 8) b = acc * 256 + b.
Proof. intros Hb. rewrite Z.lor_comm, (lor_shiftl b acc 8) by done. lia. Qed.

Lemma be_uint_foldl bytes : Forall is_u8 bytes -> forall acc,
  foldl (fun acc b => Z.lor (Z.shiftl acc 8) b) acc bytes
  = acc * 256 ^ Z.of_nat (length bytes) + be_uint bytes.
Proof.
  unfold be_uint. induction 1 as [|b bytes Hb _ IH]; intros acc; [cbn; lia|].
  cbn [foldl length]. rewrite IH, (IH (Z.lor _ _)), !be_uint_step by done.
  rewrite Nat2Z.inj_succ, Z.pow_succ_r by lia. lia.
Qed.

Lemma be_uint_cons b bytes : is_u8 b -> Forall is_u8 bytes ->
  be_uint (b :: bytes) = b * 256 ^ Z.of_nat (length bytes) + be_uint bytes.
Proof.
  intros Hb Hbs. unfold be_uint at 1. cbn [foldl].
  rewrite be_uint_step, be_uint_foldl by done. done.
Qed.

Lemma be_uint_range bytes : Forall is_u8 bytes -> 0 <= be_uint bytes < 256 ^ Z.of_nat (length bytes).
Proof.
  induction 1 as [|b bytes Hb Hbs IH]; [cbn; lia|]. rewrite be_uint_cons by done.
  cbn [length]. rewrite Nat2Z.inj_succ, Z.pow_succ_r by lia. unfold is_u8 in Hb. nia.
Qed.

Lemma be_put_bytes n v : Forall is_u8 (be_put n v).
Proof. induction n; cbn; constructor; auto using u8_range. Qed.

Lemma length_be_put n v : length (be_put n v) = n.
Proof. induction n; cbn; auto. Qed.

Lemma be_uint_put n v : be_uint (be_put n v) = v mod 256 ^ Z.of_nat n.
Proof.
  induction n as [|n IH]; [cbn; by rewrite Z.mod_1_r|]. cbn [be_put].
  rewrite be_uint_cons by auto using u8_range, be_put_bytes.
  rewrite IH, length_be_put, Nat2Z.inj_succ, Z.pow_succ_r by lia.
  rewrite Z.shiftr_div_pow2, Z.pow_mul_r by lia. change (2 ^ 8) with 256. unfold u8.
  assert (0 < 256 ^ Z.of_nat n) by (apply Z.pow_pos_nonneg; lia).
  rewrite (Z.mul_comm 256), Z.rem_mul_r by lia. change (2 ^ 8) with 256. lia.
Qed.
#[export] Hint Resolve be_put_bytes : pbx.

(** ** Go errors

    An [errors.New] value is a [Sentinel]; [fmt.Errorf] with [%w] verbs and
    [errors.Join] build [Errorf] with the wrapped errors.  [errors_Is] is
    [errors.Is] for a sentinel target. *)

#[warnings="-register-all"]
Inductive error : Type :=
| Sentinel (name : string)
| Errorf (msg : string) (wrapped : list error).

Fixpoint errors_Is (err : error) (target : string) : bool :=
  match err with
  | Sentinel name => String.eqb name target
  | Errorf _ wrapped => existsb (fun e => errors_Is e target) wrapped
  end.

(** An [error] result that may be nil, tested against a sentinel. *)
Definition errors_Is_opt (err : option error) (target : string) : bool :=
  match err with Some e => errors_Is e target | None => false end.

(** [errors.Join]: nil arguments are dropped; nil when all are nil. *)
Definition errors_Join (errs : list (option error)) : option error :=
  match omap id errs with
  | [] => None
  | es => Some (Errorf "" es)
  end.

Lemma errors_Join_None l : errors_Join l = None <-> omap id l = [].
Proof. unfold errors_Join. by destruct (omap id l). Qed.

(** Joining more errors to a result that is nil exactly when none was noted. *)
Lemma join_faults (e : option error) errs fs : (e = None <-> fs = []) -> errors_Join (e :: errs) = None <-> fs ++ omap id errs = [].
Proof. intros He. rewrite errors_Join_None, app_nil. destruct e; cbn; naive_solver. Qed.

Definition context_Canceled : error := Sentinel "context canceled".
Definition context_DeadlineExceeded : error := Sentinel "context deadline exceeded".

(** A context, seen by one operation: the value of [ctx.Err()]. *)
Definition Context := option error.

(** ** Results: a Go pair [(value, error)] *)

Inductive result (A : Type) : Type :=
| Ok (a : A)
| Err (e : error).
Arguments Ok {A} a.
Arguments Err {A} e.

#[export] Instance result_ret : MRet result := fun A a => Ok a.
#[export] Instance result_bind : MBind result := fun A B f m =>
  match m with Ok a => f a | Err e => Err e end.

(** [if err != nil { return fmt.Errorf("msg: %w", err) }] *)
Definition wrap_err {A} (msg : string) (m : result A) : result A :=
  match m with Ok a => Ok a | Err e => Err (Errorf msg [e]) end.

(** [if cond { return fmt.Errorf(msg) }] *)
Definition guard_err (bad : bool) (msg : string) : result () :=
  if bad then Err (Errorf msg []) else Ok ().

Definition is_Ok {A} (m : result A) : bool :=
  match m with Ok _ => true | Err _ => false end.

Lemma result_bind_Ok {A B} (m : result A) (f : A -> result B) b :
  m ≫= f = Ok b <-> exists a, m = Ok a /\ f a = Ok b.
Proof. destruct m; cbn; split; [eauto | intros (? & [= ->] & ?); done | done | intros (? & ? & ?); done]. Qed.

(** An error built by [fmt.Errorf] without [%w]: it wraps nothing. *)
Definition plain_error (e : error) : Prop := exists msg, e = Errorf msg [].

Lemma guard_err_plain bad msg e : guard_err bad msg = Err e -> plain_error e.
Proof. unfold guard_err. destruct bad; [intros [= <-]; by eexists | done]. Qed.

Lemma guard_bind_plain {A} bad msg (k : () -> result A) e :
  (forall e, k () = Err e -> plain_error e) ->
  (guard_err bad msg ≫= k) = Err e -> plain_error e.
Proof. unfold guard_err. destruct bad; cbn; [intros _ [= <-]; by eexists | auto]. Qed.

Lemma guard_err_Ok bad msg u : guard_err bad msg = Ok u <-> bad = false.
Proof. unfold guard_err. destruct u, bad; done. Qed.

Lemma guard_bind_Ok {A} bad msg (k : () -> result A) a :
  (guard_err bad msg ≫= k) = Ok a <-> bad = false /\ k () = Ok a.
Proof. unfold guard_err. destruct bad; cbn; intuition done. Qed.

Lemma plain_not_Is e target : plain_error e -> errors_Is e target = false.
Proof. intros [msg ->]. done. Qed.
#[export] Hint Resolve guard_err_plain guard_bind_plain plain_not_Is : pbx.

(** ** Go time

    A [time.Time] is the number of nanoseconds since the Unix epoch as an
    unbounded [Z]; the zero [time.Time] is January 1 of year 1.  A
    [time.Duration] is an int64 number of nanoseconds. *)

Definition Time := Z.
Definition Duration := Z.

Definition Nanosecond : Duration := 1.
Definition Microsecond : Duration := 1000.
Definition Millisecond : Duration := 1000000.
Definition Second : Duration := 1000000000.
Definition Minute : Duration := 60 * Second.

Definition unixToInternal : Z := 62135596800.
Definition zeroTime : Time := - unixToInternal * Second.

Definition IsZero (t : Time) : bool := t =? zeroTime.
Definition After (t u : Time) : bool := u <? t.
Definition time_Add (t : Time) (d : Duration) : Time := t + d.
(** [t.Sub(u)] saturates at the extreme durations. *)
Definition time_Sub (t u : Time) : Duration :=
  Z.max (- 2 ^ 63) (Z.min (2 ^ 63 - 1) (t - u)).
Definition time_Compare (t u : Time) : Z :=
  match t ?= u with Lt => -1 | Eq => 0 | Gt => 1 end.
(** [t.Unix()] and [t.Nanosecond()] split an instant at the second. *)
Definition Unix (t : Time) : Z := t / Second.
Definition NanosecondOf (t : Time) : Z := t mod Second.
(** [t.UnixNano()] is an int64 and wraps outside the years 1678..2262. *)
Definition UnixNano (t : Time) : Z := i64 t.
(** [time.Unix(sec, 0)]: the internal second count is an int64. *)
Definition time_Unix (sec : Z) : Time := (i64 (sec + unixToInternal) - unixToInternal) * Second.
(** [time.Unix(0, nsec)] *)
Definition time_UnixNano (nsec : Z) : Time := nsec.

(** Go's integer division truncates toward zero. *)
Definition go_div (a b : Z) : Z := Z.quot a b.

(** ** Case-analysis tactics *)

(** Destruct the scrutinee of a match or conditional, keeping the equation. *)
Ltac case_any :=
  match goal with
  | |- context [match ?x with _ => _ end] =>
      lazymatch x with context [match _ with _ => _ end] => fail | _ => destruct x eqn:? end
  | H : context [match ?x with _ => _ end] |- _ =>
      lazymatch x with context [match _ with _ => _ end] => fail | _ => destruct x eqn:? end
  end.

(** Turn boolean comparison hypotheses into propositions. *)
Ltac bool_prop :=
  repeat match goal with
  | H : (_ && _)%bool = true |- _ => apply andb_true_iff in H; destruct H
  | H : (_ || _)%bool = false |- _ => apply orb_false_iff in H; destruct H
  | H : (_ && _)%bool = false |- _ => apply andb_false_iff in H
  | H : (_ || _)%bool = true |- _ => apply orb_true_iff in H
  | H : negb _ = true |- _ => apply negb_true_iff in H
  | H : negb _ = false |- _ => apply negb_false_iff in H
  | H : bool_decide _ = true |- _ => apply bool_decide_eq_true in H
  | H : bool_decide _ = false |- _ => apply bool_decide_eq_false in H
  | H : Z.eqb _ _ = true |- _ => apply Z.eqb_eq in H
  | H : Z.eqb _ _ = false |- _ => apply Z.eqb_neq in H
  | H : Z.ltb _ _ = true |- _ => apply Z.ltb_lt in H
  | H : Z.ltb _ _ = false |- _ => apply Z.ltb_ge in H
  | H : Z.leb _ _ = true |- _ => apply Z.leb_le in H
  | H : Z.leb _ _ = false |- _ => apply Z.leb_gt in H
  | H : String.eqb _ _ = true |- _ => apply String.eqb_eq in H
  | H : String.eqb _ _ = false |- _ => apply String.eqb_neq in H
  end.

(** ** List lemmas shared by the components *)

(** Replacing one element of a list changes the concatenation of images only
    in that element's share. *)
Lemma concat_insert_perm {A B} (f : A -> list B) (l : list A) i x :
  l !! i = Some x ->
  exists rest, concat (f <$> l) ≡ₚ f x ++ rest /\
    forall y, concat (f <$> <[i := y]> l) ≡ₚ f y ++ rest.
Proof.
  intros Hi. exists (concat (f <$> take i l) ++ concat (f <$> drop (S i) l)).
  assert (Hlt : (i < length l)%nat) by eauto using lookup_lt_Some.
  split.
  - rewrite <- (take_drop_middle l i x Hi) at 1.
    rewrite fmap_app, fmap_cons, concat_app; cbn.
    by rewrite Permutation_app_swap_app.
  - intros y. rewrite insert_take_drop by done.
    rewrite fmap_app, fmap_cons, concat_app; cbn.
    by rewrite Permutation_app_swap_app.
Qed.

(** The same for integer sums. *)
Definition sum_list (l : list Z) : Z := foldr Z.add 0 l.

Lemma sum_list_app l k : sum_list (l ++ k) = sum_list l + sum_list k.
Proof. unfold sum_list. induction l as [|x l IH]; cbn; [done | rewrite IH; lia]. Qed.

Lemma sum_list_insert {A} (f : A -> Z) (l : list A) i x y :
  l !! i = Some x ->
  sum_list (f <$> <[i := y]> l) = sum_list (f <$> l) - f x + f y.
Proof.
  unfold sum_list.
  revert i; induction l as [|z l IH]; intros [|i]; csimpl; try done.
  - intros [= ->]; lia.
  - intros H. rewrite (IH _ H). lia.
Qed.

(** ** Labelled traces

    Executions of a step relation whose labels tell which steps count. *)
Section Traces.
Context {L S : Type} (step : L -> S -> S -> Prop) (counts : L -> bool).

Inductive trace : list L -> S -> S -> Prop :=
| trace_nil s : trace [] s s
| trace_cons l ls s1 s2 s3 : step l s1 s2 -> trace ls s2 s3 -> trace (l :: ls) s1 s3.

Definition counted_steps (ls : list L) : nat := length (List.filter counts ls).

(** A measure that every counted step lowers bounds their number. *)
Lemma trace_measure (inv : S -> Prop) (m : S -> nat) :
  (forall l s s', inv s -> step l s s' -> inv s' /\ (m s' + (if counts l then 1 else 0) <= m s)%nat) ->
  forall ls s s', trace ls s s' -> inv s -> inv s' /\ (counted_steps ls + m s' <= m s)%nat.
Proof.
  intros Hm ls s s'. induction 1 as [s|l ls s1 s2 s3 Hs _ IH]; intros Hi; [done|].
  destruct (Hm _ _ _ Hi Hs) as [Hi2 Hle]. destruct (IH Hi2) as [Hi3 Hle3]. split; [done|].
  unfold counted_steps in *. cbn. destruct (counts l); cbn; lia.
Qed.

End Traces.

(** Running an executable step function along a list of events gives a trace. *)
Fixpoint schedule {E S} (f : E -> S -> option S) (es : list E) (s : S) : option S :=
  match es with [] => Some s | e :: rest => f e s ≫= schedule f rest end.

Lemma schedule_trace {E S} (f : E -> S -> option S) es : forall s s',
  schedule f es s = Some s' -> trace (fun e s s' => f e s = Some s') es s s'.
Proof.
  induction es as [|e es IH]; cbn; intros s s' H.
  - injection H as <-. constructor.
  - apply bind_Some in H as (s1 & He & Hs). econstructor; [exact He | by apply IH].
Qed.
