(* ===== verification/GoStrings.v ===== *)
(** * Go strings

    The functions of Go's [strings] and [strconv] the program uses, on byte
    strings.  [ToUpper], [ToLower] and [EqualFold] treat ASCII letters; other
    bytes are left as they are (Go maps non-ASCII letters too; no such letter
    has an upper case that occurs in a keyword the program compares with). *)

From Stdlib Require Import Strings.Ascii DecimalString DecimalN Decimal.
From S2P Require Import Prelude.

Definition code (c : ascii) : Z := Z.of_N (N_of_ascii c).
Definition chr (z : Z) : ascii := ascii_of_N (Z.to_N z).

Definition map_chars (f : ascii -> ascii) : string -> string :=
  fix go s := match s with EmptyString => EmptyString | String c s => String (f c) (go s) end.

Definition upper_char (c : ascii) : ascii :=
  if (97 <=? code c) && (code c <=? 122) then chr (code c - 32) else c.
Definition lower_char (c : ascii) : ascii :=
  if (65 <=? code c) && (code c <=? 90) then chr (code c + 32) else c.

Definition ToUpper : string -> string := map_chars upper_char.
Definition ToLower : string -> string := map_chars lower_char.
Definition EqualFold (s t : string) : bool := String.eqb (ToLower s) (ToLower t).

Fixpoint all_chars (P : ascii -> bool) (s : string) : bool :=
  match s with EmptyString => true | String c s => P c && all_chars P s end.

(** ** Splitting *)

Definition prepend (c : ascii) (parts : list string) : list string :=
  match parts with [] => [String c ""] | p :: ps => String c p :: ps end.

(** [strings.Split(s, sep)] for a one-byte separator. *)
Fixpoint Split (s : string) (sep : ascii) : list string :=
  match s with
  | EmptyString => [""%string]
  | String c s => if Ascii.eqb c sep then ""%string :: Split s sep else prepend c (Split s sep)
  end.

Fixpoint Join (parts : list string) (sep : string) : string :=
  match parts with
  | [] => ""
  | [p] => p
  | p :: ps => (p +:+ sep +:+ Join ps sep)%string
  end.

(** ** White space

    [space_len s] is the length of the white-space character at the head of [s]
    ([unicode.IsSpace] of its first rune), 0 when there is none. *)
Definition is_ascii_space (c : ascii) : bool :=
  let z := code c in ((9 <=? z) && (z <=? 13)) || (z =? 32).

Definition space_len (s : string) : nat :=
  match s with
  | String a s1 =>
      if is_ascii_space a then 1%nat else
      match s1 with
      | String b s2 =>
          if (code a =? 194) && ((code b =? 133) || (code b =? 160)) then 2%nat else
          match s2 with
          | String c _ =>
              let '(x, y, z) := (code a, code b, code c) in
              if ((x =? 225) && (y =? 154) && (z =? 128))
                 || ((x =? 226) && (y =? 128) && (((128 <=? z) && (z <=? 138)) || (z =? 168) || (z =? 169) || (z =? 175)))
                 || ((x =? 226) && (y =? 129) && (z =? 159))
                 || ((x =? 227) && (y =? 128) && (z =? 128))
              then 3%nat else 0%nat
          | _ => 0%nat
          end
      | _ => 0%nat
      end
  | _ => 0%nat
  end.

(** The pieces between white space, empty ones included; [skip] bytes of a
    white-space character are still to be passed over. *)
Fixpoint pieces (skip : nat) (s : string) : list string :=
  match s with
  | EmptyString => [""%string]
  | String c s' =>
      match skip with
      | S k => pieces k s'
      | O => match space_len s with
             | O => prepend c (pieces 0 s')
             | S k => ""%string :: pieces k s'
             end
      end
  end.

(** [strings.Fields] *)
Definition Fields (s : string) : list string :=
  filter (fun p => p <> ""%string) (pieces 0 s).

(** [strings.TrimSpace]: leading white space, then trailing. *)
Fixpoint trim_left (skip : nat) (s : string) : string :=
  match s with
  | EmptyString => ""
  | String _ s' =>
      match skip with
      | S k => trim_left k s'
      | O => match space_len s with O => s | S k => trim_left k s' end
      end
  end.

Definition all_space (s : string) : bool := match Fields s with [] => true | _ => false end.

(** The bytes of a multi-byte white-space character that follow its first byte
    are part of it, so a suffix is dropped from a character boundary on. *)
Fixpoint trim_right (s : string) : string :=
  match s with
  | EmptyString => ""
  | String c s' => if negb (space_len s =? 0)%nat && all_space s then "" else String c (trim_right s')
  end.

Definition TrimSpace (s : string) : string := trim_right (trim_left 0 s).

(** ** Numbers *)

(** [strconv.Itoa] *)
Definition Itoa (z : Z) : string :=
  if z <? 0 then ("-" +:+ NilZero.string_of_uint (N.to_uint (Z.to_N (- z))))%string
  else NilZero.string_of_uint (N.to_uint (Z.to_N z)).

(** [strconv.ParseUint(s, 10, bits)]: digits only, not empty, below [2^bits]. *)
Definition ParseUint (s : string) (bits : Z) : option Z :=
  match NilZero.uint_of_string s with
  | None => None
  | Some d => let v := Z.of_N (N.of_uint d) in if v <? 2 ^ bits then Some v else None
  end.

(** [strconv.ParseInt(s, 10, bits)]: an optional sign, then digits. *)
Definition ParseInt (s : string) (bits : Z) : option Z :=
  let '(neg, digits) :=
    match s with
    | String c s' => if Ascii.eqb c "-" then (true, s') else if Ascii.eqb c "+" then (false, s') else (false, s)
    | _ => (false, s)
    end in
  match NilZero.uint_of_string digits with
  | None => None
  | Some d =>
      let v := Z.of_N (N.of_uint d) in
      if neg then (if v <=? 2 ^ (bits - 1) then Some (- v) else None)
      else (if v <? 2 ^ (bits - 1) then Some v else None)
  end.

Lemma ParseUint_range s bits v : ParseUint s bits = Some v -> 0 <= v < 2 ^ bits.
Proof.
  unfold ParseUint. destruct (NilZero.uint_of_string s); [|done]. destruct (Z.ltb_spec (Z.of_N (N.of_uint u)) (2 ^ bits)); [|done].
  intros [= <-]. lia.
Qed.

Lemma ParseInt_range s bits v : ParseInt s bits = Some v -> - 2 ^ (bits - 1) <= v < Z.max 1 (2 ^ (bits - 1)).
Proof.
  unfold ParseInt. destruct (match s with EmptyString => _ | String _ _ => _ end) as [neg digits].
  destruct (NilZero.uint_of_string digits) as [d|]; [|done]. cbv zeta. set (n := Z.of_N (N.of_uint d)).
  assert (0 <= n) by (subst n; lia). destruct neg.
  - destruct (Z.leb_spec n (2 ^ (bits - 1))); [|done]. intros [= <-]. lia.
  - destruct (Z.ltb_spec n (2 ^ (bits - 1))); [|done]. intros [= <-]. lia.
Qed.

Lemma uint_not_nil n : N.to_uint n <> Nil.
Proof.
  intros H. pose proof (Unsigned.of_to n) as Hn. rewrite H in Hn. cbn in Hn. subst n. done.
Qed.

Lemma ParseUint_Itoa z bits : 0 <= z < 2 ^ bits -> ParseUint (Itoa z) bits = Some z.
Proof.
  intros Hz. unfold ParseUint, Itoa. destruct (Z.ltb_spec z 0); [lia|].
  rewrite NilZero.usu by apply uint_not_nil. rewrite Unsigned.of_to, Z2N.id by lia.
  destruct (Z.ltb_spec z (2 ^ bits)); [done|lia].
Qed.

Definition is_digit (c : ascii) : bool := (48 <=? code c) && (code c <=? 57).

Lemma string_of_uint_digits d : all_chars is_digit (NilEmpty.string_of_uint d) = true.
Proof. induction d; cbn [NilEmpty.string_of_uint all_chars]; rewrite ?IHd; reflexivity. Qed.

Lemma Itoa_digits z : 0 <= z -> all_chars is_digit (Itoa z) = true /\ Itoa z <> ""%string.
Proof.
  intros Hz. unfold Itoa. destruct (Z.ltb_spec z 0); [lia|].
  pose proof (uint_not_nil (Z.to_N z)) as Hn.
  destruct (N.to_uint (Z.to_N z)) eqn:E; try done;
    (split; [exact (string_of_uint_digits _) | done]).
Qed.

(** ** Splitting text that has no separator *)

Lemma Split_none s sep : all_chars (fun c => negb (Ascii.eqb c sep)) s = true -> Split s sep = [s].
Proof.
  induction s as [|c s IH]; cbn [Split all_chars]; [done|]. intros H. bool_prop. by rewrite H, IH.
Qed.

Lemma Split_app a b sep : all_chars (fun c => negb (Ascii.eqb c sep)) a = true ->
  Split (a +:+ String sep b) sep = a :: Split b sep.
Proof.
  induction a as [|c a IH].
  - intros _. change (Split (String sep b) sep = [""%string] ++ Split b sep). cbn [Split]. by rewrite Ascii.eqb_refl.
  - change (String c a +:+ String sep b) with (String c (a +:+ String sep b)).
    cbn [Split all_chars]. intros H. bool_prop. by rewrite H, IH.
Qed.

(** Characters that can neither be nor start white space. *)
Definition solid (c : ascii) : bool := (33 <=? code c) && (code c <=? 126).

Lemma space_len_solid c s : solid c = true -> space_len (String c s) = 0%nat.
Proof.
  unfold solid. intros H. bool_prop. unfold space_len, is_ascii_space.
  repeat match goal with
  | |- context [?x =? ?y] => replace (x =? y) with false by (symmetry; apply Z.eqb_neq; lia)
  end.
  replace (code c <=? 13) with false by (symmetry; apply Z.leb_gt; lia).
  rewrite andb_false_r. cbn. repeat case_any; done.
Qed.

Lemma pieces_solid s : all_chars solid s = true -> pieces 0 s = [s].
Proof.
  induction s as [|c s IH]; [done|]. cbn [all_chars pieces]. intros H. bool_prop.
  rewrite space_len_solid by done. by rewrite IH.
Qed.

Lemma pieces_app a b : all_chars solid a = true -> pieces 0 (a +:+ String " " b) = a :: pieces 0 b.
Proof.
  induction a as [|c a IH]; [done|]. cbn [all_chars]. intros H. bool_prop.
  change (String c a +:+ String " " b) with (String c (a +:+ String " " b)). cbn [pieces].
  rewrite space_len_solid by done. by rewrite IH.
Qed.

Lemma Fields_solid s : all_chars solid s = true -> s <> ""%string -> Fields s = [s].
Proof. intros H Hne. unfold Fields. rewrite pieces_solid by done. by rewrite filter_cons_True. Qed.

Lemma Fields_pair a b : all_chars solid a = true -> all_chars solid b = true ->
  a <> ""%string -> b <> ""%string -> Fields (a +:+ String " " b) = [a; b].
Proof.
  intros Ha Hb Hane Hbne. unfold Fields. rewrite pieces_app, pieces_solid by done.
  by rewrite !filter_cons_True.
Qed.

Lemma all_chars_impl (P Q : ascii -> bool) s :
  (forall c, P c = true -> Q c = true) -> all_chars P s = true -> all_chars Q s = true.
Proof. intros HPQ. induction s; cbn; [done|]. intros H. bool_prop. apply andb_true_iff. auto. Qed.

Lemma digit_solid c : is_digit c = true -> solid c = true.
Proof. unfold is_digit, solid. intros H. bool_prop. apply andb_true_iff. split; apply Z.leb_le; lia. Qed.

Lemma Itoa_solid z : 0 <= z -> all_chars solid (Itoa z) = true.
Proof. intros Hz. eapply all_chars_impl; [apply digit_solid | by apply Itoa_digits]. Qed.

Lemma all_chars_app P a b : all_chars P (a +:+ b) = all_chars P a && all_chars P b.
Proof.
  induction a as [|c a IH]; [done|]. change (String c a +:+ b) with (String c (a +:+ b)).
  cbn [all_chars]. by rewrite IH, andb_assoc.
Qed.

Example fields_example : Fields "  97	opus/48000 " = ["97"; "opus/48000"]%string.
Proof. reflexivity. Qed.
Example split_example : Split "a//b" "/" = ["a"; ""; "b"]%string.
Proof. reflexivity. Qed.
Example trim_example : TrimSpace "  a b  " = "a b"%string.
Proof. reflexivity. Qed.

(** [strings.LastIndexByte] as a cut at the last occurrence. *)
Fixpoint cut_last (s : string) (sep : ascii) : option (string * string) :=
  match s with
  | EmptyString => None
  | String c s' =>
      match cut_last s' sep with
      | Some (a, b) => Some (String c a, b)
      | None => if Ascii.eqb c sep then Some (""%string, s') else None
      end
  end.

(** The first [n] bytes. *)
Fixpoint prefix_bytes (n : nat) (s : string) : string :=
  match n, s with
  | S n, String c s => String c (prefix_bytes n s)
  | _, _ => ""
  end.
