(* ===== verification/Netip.v ===== *)
(** * Network addresses

    The part of Go's [net/netip] the program uses: addresses, address/port
    pairs, their predicates, and the text form of addresses. *)

From Stdlib Require Import Strings.Ascii.
From S2P Require Import Prelude GoStrings.

(** The zero [Addr] is invalid; an IPv4 address is 32 bits, an IPv6 address
    128 bits with a zone. *)
Inductive Addr :=
| AddrZero
| Addr4 (bits : Z)
| Addr6 (bits : Z) (zone : string).

#[export] Instance Addr_eq_dec : EqDecision Addr.
Proof. solve_decision. Defined.

Definition Addr_IsValid (a : Addr) : bool :=
  match a with AddrZero => false | _ => true end.

Definition IsUnspecified (a : Addr) : bool :=
  bool_decide (a = Addr4 0) || bool_decide (a = Addr6 0 "").

Definition Is6 (a : Addr) : bool :=
  match a with Addr6 _ _ => true | _ => false end.

Record AddrPort := AddrPortFrom { ap_Addr : Addr; ap_Port : Z }.

#[export] Instance AddrPort_eq_dec : EqDecision AddrPort.
Proof. solve_decision. Defined.

Definition zeroAddrPort : AddrPort := AddrPortFrom AddrZero 0.
Definition AddrPort_IsValid (p : AddrPort) : bool := Addr_IsValid (ap_Addr p).

(** ** Text form *)

Definition octets (bits : Z) : list Z := be_put 4 bits.

Definition string4 (bits : Z) : string := Join (Itoa <$> octets bits) ".".

(** One octet: one to three digits, no leading zero, at most 255. *)
Definition parse_octet (s : string) : option Z :=
  match s with
  | String c (String _ _) => if Ascii.eqb c "0" then None else ParseUint s 8
  | _ => ParseUint s 8
  end.

(** [parseIPv4Fields] *)
Definition parseIPv4Fields (s : string) : option (list Z) :=
  let parts := Split s "." in
  if (length parts =? 4)%nat then mapM parse_octet parts else None.

Definition hex_value (c : ascii) : option Z :=
  let z := code c in
  if (48 <=? z) && (z <=? 57) then Some (z - 48)
  else if (97 <=? z) && (z <=? 102) then Some (z - 87)
  else if (65 <=? z) && (z <=? 70) then Some (z - 55)
  else None.

(** The hexadecimal digits at the head of [s] and what follows them. *)
Fixpoint hex_run (s : string) : list Z * string :=
  match s with
  | EmptyString => ([], s)
  | String c s' =>
      match hex_value c with
      | None => ([], s)
      | Some v => let '(ds, rest) := hex_run s' in (v :: ds, rest)
      end
  end.

Definition starts (c : ascii) (s : string) : bool :=
  match s with String c' _ => Ascii.eqb c' c | _ => false end.
Definition tail (s : string) : string := match s with String _ s => s | _ => s end.

(** The loop of [parseIPv6]: one field per round, at most eight rounds.  [ip]
    is what has been parsed, [ellipsis] the byte position of "::". *)
Fixpoint parseIPv6_loop (rounds : nat) (ip : list Z) (ellipsis : option nat) (s : string)
    : option (list Z * option nat * string) :=
  match rounds with
  | O => Some (ip, ellipsis, s)
  | S rounds =>
      if (16 <=? length ip)%nat then Some (ip, ellipsis, s) else
      let '(digits, rest) := hex_run s in
      if (4 <? length digits)%nat || (length digits =? 0)%nat then None else
      if starts "." rest then
        if match ellipsis with None => negb (length ip =? 12)%nat | Some _ => false end then None else
        if (16 <? length ip + 4)%nat then None else
        match parseIPv4Fields s with
        | None => None
        | Some fields => Some (ip ++ fields, ellipsis, ""%string)
        end
      else
        let acc := foldl (fun a d => a * 16 + d) 0 digits in
        let ip := ip ++ [acc / 256; acc mod 256] in
        match rest with
        | EmptyString => Some (ip, ellipsis, rest)
        | String c s' =>
            if negb (Ascii.eqb c ":") || String.eqb s' "" then None else
            if starts ":" s' then
              match ellipsis with
              | Some _ => None
              | None =>
                  if String.eqb (tail s') "" then Some (ip, Some (length ip), ""%string)
                  else parseIPv6_loop rounds ip (Some (length ip)) (tail s')
              end
            else parseIPv6_loop rounds ip ellipsis s'
        end
  end.

(** Split at the first occurrence of a byte. *)
Fixpoint cut (s : string) (sep : ascii) : option (string * string) :=
  match s with
  | EmptyString => None
  | String c s' =>
      if Ascii.eqb c sep then Some (""%string, s')
      else match cut s' sep with Some (a, b) => Some (String c a, b) | None => None end
  end.

(** [parseIPv6] *)
Definition parseIPv6 (input : string) : option Addr :=
  match match cut input "%" with
        | None => Some (input, ""%string)
        | Some (s, zone) => if String.eqb zone "" then None else Some (s, zone)
        end with
  | None => None
  | Some (s, zone) =>
      let leading := starts ":" s && starts ":" (tail s) in
      let s' := if leading then tail (tail s) else s in
      if leading && String.eqb s' "" then Some (Addr6 0 zone) else
      match parseIPv6_loop 9 [] (if leading then Some 0%nat else None) s' with
      | None => None
      | Some (ip, ellipsis, rest) =>
          if negb (String.eqb rest "") then None else
          match ellipsis with
          | None => if (length ip <? 16)%nat then None else Some (Addr6 (be_uint ip) zone)
          | Some e =>
              if (length ip <? 16)%nat
              then Some (Addr6 (be_uint (take e ip ++ replicate (16 - length ip) 0 ++ drop e ip)) zone)
              else None
          end
      end
  end.

(** The first of the bytes "." and ":" and "%" in [s] decides the family. *)
Fixpoint first_mark (s : string) : option ascii :=
  match s with
  | EmptyString => None
  | String c s => if Ascii.eqb c "." || Ascii.eqb c ":" || Ascii.eqb c "%" then Some c else first_mark s
  end.

(** [netip.ParseAddr] *)
Definition ParseAddr (s : string) : result Addr :=
  let failed := Errorf "ParseAddr" [] in
  match first_mark s with
  | Some c =>
      if Ascii.eqb c "." then
        match parseIPv4Fields s with Some fields => Ok (Addr4 (be_uint fields)) | None => Err failed end
      else if Ascii.eqb c ":" then
        match parseIPv6 s with Some a => Ok a | None => Err failed end
      else Err failed
  | None => Err failed
  end.

(** [Addr.String] *)
Definition hex_digit (d : Z) : ascii := chr (if d <? 10 then 48 + d else 87 + d).
Definition hex_digits (v : Z) : list Z := [v / 4096; v / 256 mod 16; v / 16 mod 16; v mod 16].
Definition append_hex (v : Z) : string :=
  let ds := hex_digits v in
  let n := if 4096 <=? v then 0%nat else if 256 <=? v then 1%nat else if 16 <=? v then 2%nat else 3%nat in
  foldr (fun d s => String (hex_digit d) s) ""%string (drop n ds).

Definition groups (bits : Z) : list Z :=
  (fun i => Z.shiftr bits (16 * (7 - Z.of_nat i)) mod 65536) <$> seq 0 8.

Fixpoint zero_run (gs : list Z) : nat :=
  match gs with g :: gs => if g =? 0 then S (zero_run gs) else 0%nat | [] => 0%nat end.

(** The longest run of at least two zero groups, the first among equals. *)
Definition longest_zeros (gs : list Z) : nat * nat :=
  foldl (fun '(start, len) i =>
    let l := zero_run (drop i gs) in if (2 <=? l)%nat && (len <? l)%nat then (i, l) else (start, len))
    (0%nat, 0%nat) (seq 0 8).

Definition string6 (bits : Z) : string :=
  let gs := groups bits in
  let '(start, len) := longest_zeros gs in
  if (len =? 0)%nat then Join (append_hex <$> gs) ":"
  else (Join (append_hex <$> take start gs) ":" +:+ "::" +:+ Join (append_hex <$> drop (start + len) gs) ":")%string.

Definition Addr_String (a : Addr) : string :=
  match a with
  | AddrZero => "invalid IP"
  | Addr4 bits => string4 bits
  | Addr6 bits zone =>
      ((if (Z.shiftr bits 32 =? 65535)%Z then "::ffff:" +:+ string4 (bits mod 2 ^ 32)%Z else string6 bits)
       +:+ (if String.eqb zone "" then "" else "%" +:+ zone))%string
  end.

(** [netip.ParseAddrPort]: brackets exactly around IPv6 addresses. *)
Definition last_char (s : string) : option ascii := String.get (String.length s - 1) s.

Definition ParseAddrPort (s : string) : result AddrPort :=
  let failed := Errorf "ParseAddrPort" [] in
  match cut_last s ":" with
  | None => Err failed
  | Some (ip, port) =>
      if String.eqb ip "" || String.eqb port "" then Err failed else
      let v6 := starts "[" ip in
      if v6 && ((String.length ip <? 2)%nat || negb (bool_decide (last_char ip = Some "]"%char))) then Err failed else
      let ip := if v6 then prefix_bytes (String.length ip - 2) (tail ip) else ip in
      match ParseUint port 16 with
      | None => Err failed
      | Some port16 =>
          a ← ParseAddr ip;
          if Bool.eqb v6 (Is6 a) then Ok (AddrPortFrom a port16) else Err failed
      end
  end.

(** [AddrPort.String] *)
Definition AddrPort_String (p : AddrPort) : string :=
  match ap_Addr p with
  | AddrZero => "invalid AddrPort"
  | Addr4 _ => (Addr_String (ap_Addr p) +:+ ":" +:+ Itoa (ap_Port p))%string
  | Addr6 _ _ => ("[" +:+ Addr_String (ap_Addr p) +:+ "]:" +:+ Itoa (ap_Port p))%string
  end.

Example parse_addrport :
  ParseAddrPort "[::1]:5060" = Ok (AddrPortFrom (Addr6 1 "") 5060) /\
  ParseAddrPort "10.0.0.1:5060" = Ok (AddrPortFrom (Addr4 167772161) 5060) /\
  is_Ok (ParseAddrPort "::1:5060") = false /\
  AddrPort_String (AddrPortFrom (Addr6 1 "") 5060) = "[::1]:5060"%string.
Proof. vm_compute. auto. Qed.

Example parse_v6 : ParseAddr "fe80::1:0:0:2%eth0" = Ok (Addr6 (0xfe80 * 2 ^ 112 + 1 * 2 ^ 48 + 2) "eth0").
Proof. vm_compute. reflexivity. Qed.
Example parse_v4in6 : ParseAddr "::ffff:10.0.0.1" = Ok (Addr6 (65535 * 2 ^ 32 + 10 * 2 ^ 24 + 1) "").
Proof. vm_compute. reflexivity. Qed.
Example string_v6 : Addr_String (Addr6 (0xfe80 * 2 ^ 112 + 1 * 2 ^ 48 + 2) "eth0") = "fe80::1:0:0:2%eth0"%string.
Proof. vm_compute. reflexivity. Qed.
Example parse_bad : ParseAddr "010.0.0.1" = Err (Errorf "ParseAddr" []) /\ ParseAddr "1:2:3:4:5:6:7:8:9" = Err (Errorf "ParseAddr" []).
Proof. split; vm_compute; reflexivity. Qed.

(** ** IPv4 text round trip *)

Lemma parse_octet_Itoa v : is_u8 v -> parse_octet (Itoa v) = Some v.
Proof.
  intros Hv. apply (bool_decide_eq_true (parse_octet (Itoa v) = Some v)).
  revert v Hv. apply (u8_forall (fun v => bool_decide (parse_octet (Itoa v) = Some v))).
  vm_compute. reflexivity.
Qed.

Definition not_dot (c : ascii) : bool := negb (Ascii.eqb c ".").

Lemma digit_not_mark c : is_digit c = true ->
  not_dot c = true /\ Ascii.eqb c "." || Ascii.eqb c ":" || Ascii.eqb c "%" = false.
Proof. destruct c as [[] [] [] [] [] [] [] []]; by vm_compute. Qed.

Lemma Itoa_not_dot v : 0 <= v -> all_chars not_dot (Itoa v) = true.
Proof. intros Hv. eapply all_chars_impl; [|by apply Itoa_digits]. intros c Hc. by apply digit_not_mark. Qed.

Lemma first_mark_digits a s : all_chars is_digit a = true -> first_mark (a +:+ s) = first_mark s.
Proof.
  induction a as [|c a IH]; [done|]. change (String c a +:+ s) with (String c (a +:+ s)).
  cbn [all_chars first_mark]. intros H. bool_prop. destruct (digit_not_mark c) as [_ ->]; auto.
Qed.

Lemma parseIPv4Fields_string a b c d :
  is_u8 a -> is_u8 b -> is_u8 c -> is_u8 d ->
  parseIPv4Fields (Join (Itoa <$> [a; b; c; d]) ".") = Some [a; b; c; d] /\
  first_mark (Join (Itoa <$> [a; b; c; d]) ".") = Some "."%char.
Proof.
  intros Ha Hb Hc Hd. cbn [fmap list_fmap Join].
  change ("." +:+ Itoa d)%string with (String "." (Itoa d)).
  set (s1 := (Itoa c +:+ String "." (Itoa d))%string).
  change ("." +:+ s1)%string with (String "." s1). set (s2 := (Itoa b +:+ String "." s1)%string).
  change ("." +:+ s2)%string with (String "." s2).
  assert (Hn : forall v, is_u8 v -> all_chars not_dot (Itoa v) = true)
    by (intros v Hv; apply Itoa_not_dot; apply Hv).
  split.
  - unfold parseIPv4Fields. rewrite Split_app by by apply Hn. unfold s2. rewrite Split_app by by apply Hn.
    unfold s1. rewrite Split_app, Split_none by by apply Hn. cbn [length Nat.eqb mapM].
    rewrite !parse_octet_Itoa by done. done.
  - rewrite first_mark_digits; [done | by apply Itoa_digits; apply Ha].
Qed.

(** Every IPv4 address reads back as itself. *)
Lemma ParseAddr_String4 bits : is_u32 bits -> ParseAddr (Addr_String (Addr4 bits)) = Ok (Addr4 bits).
Proof.
  intros Hb. cbn [Addr_String]. unfold string4, octets, ParseAddr. cbn [be_put].
  destruct (parseIPv4Fields_string (u8 (Z.shiftr bits (8 * Z.of_nat 3))) (u8 (Z.shiftr bits (8 * Z.of_nat 2)))
    (u8 (Z.shiftr bits (8 * Z.of_nat 1))) (u8 (Z.shiftr bits (8 * Z.of_nat 0)))) as [Hp Hm]; auto with pbx.
  rewrite Hm, Hp. change (Ascii.eqb "." ".") with true. cbv iota.
  change [_; _; _; _] with (be_put 4 bits). rewrite be_uint_put. do 2 f_equal.
  change (256 ^ Z.of_nat 4) with (2 ^ 32). by apply u32_id.
Qed.
