(* ===== verification/Call.v ===== *)
(** * The call actor

    Models [internal/core/call]: the business call record ([call.go]), its
    events ([event.go]) and the single-writer actor ([actor.go]).  The actor's
    run loop is an executable function of the scheduler's choices; the clients
    that submit transitions through the bounded mailbox are a step relation. *)

From S2P Require Import Prelude.

(** ** Data: [call.go] and [event.go] *)

Definition ID := string.
Definition LegID := string.
Definition TenantID := string.
Definition NodeID := string.
Definition State := string.
Definition Direction := string.

Definition StateNew : State := "new".
Definition StateRouting : State := "routing".
Definition StateRinging : State := "ringing".
Definition StateEarlyMedia : State := "early_media".
Definition StateAnswered : State := "answered".
Definition StateHeld : State := "held".
Definition StateTerminating : State := "terminating".
Definition StateTerminated : State := "terminated".
Definition StateFailed : State := "failed".

Definition DirectionInternal : Direction := "internal".

Record Call := mkCall {
  call_ID : ID;
  call_TenantID : TenantID;
  call_NodeID : NodeID;
  call_Direction : Direction;
  call_CallerLeg : LegID;
  call_CalleeLeg : LegID;
  call_State : State;
  call_StartedAt : Time;
  call_AnsweredAt : Time;
  call_EndedAt : Time;
  call_Cause : string;
}.

Definition Snapshot := Call.

(** [New]; [newV7 i] is the result of the [i]-th [uuid.NewV7] call. *)
Definition New (newV7 : nat -> result string) (tenantID : TenantID) (nodeID : NodeID)
    (now : Time) : result Call :=
  _ ← guard_err (String.eqb tenantID "") "tenant ID is required";
  _ ← guard_err (String.eqb nodeID "") "node ID is required";
  callID ← wrap_err "generate call ID" (newV7 0%nat);
  callerLegID ← wrap_err "generate caller leg ID" (newV7 1%nat);
  calleeLegID ← wrap_err "generate callee leg ID" (newV7 2%nat);
  Ok {| call_ID := callID; call_TenantID := tenantID; call_NodeID := nodeID;
        call_Direction := DirectionInternal; call_CallerLeg := callerLegID;
        call_CalleeLeg := calleeLegID; call_State := StateNew; call_StartedAt := now;
        call_AnsweredAt := zeroTime; call_EndedAt := zeroTime; call_Cause := "" |}.

Record Event := mkEvent {
  ev_Sequence : Z;
  ev_TenantID : TenantID;
  ev_CallID : ID;
  ev_LegID : LegID;
  ev_NodeID : NodeID;
  ev_CallerLeg : LegID;
  ev_CalleeLeg : LegID;
  ev_Direction : Direction;
  ev_OldState : State;
  ev_NewState : State;
  ev_Reason : string;
  ev_ProtocolEvent : string;
  ev_OccurredAt : Time;
}.

(** ** The transition table *)

Definition eqs (s t : State) : bool := String.eqb s t.

Definition allowedTransition (from to : State) : bool :=
  if eqs from StateNew then
    eqs to StateRouting || eqs to StateFailed || eqs to StateTerminating
  else if eqs from StateRouting then
    eqs to StateRinging || eqs to StateEarlyMedia || eqs to StateAnswered || eqs to StateFailed
      || eqs to StateTerminating
  else if eqs from StateRinging then
    eqs to StateEarlyMedia || eqs to StateAnswered || eqs to StateFailed || eqs to StateTerminating
  else if eqs from StateEarlyMedia then
    eqs to StateAnswered || eqs to StateFailed || eqs to StateTerminating
  else if eqs from StateAnswered then
    eqs to StateHeld || eqs to StateTerminating
  else if eqs from StateHeld then
    eqs to StateAnswered || eqs to StateTerminating
  else if eqs from StateTerminating then
    eqs to StateTerminated || eqs to StateFailed
  else false.

Definition isTerminal (state : State) : bool := eqs state StateTerminated || eqs state StateFailed.

(** ** The actor *)

Definition MaxMailboxCapacity : Z := 1024.

Definition ErrActorClosed : error := Sentinel "call actor closed".
Definition ErrInvalidTransition : string := "invalid call state transition".

(** The two interfaces the actor is built on, [Clock] and [Publisher], over
    one world [W] that both act on. *)
Class ActorEnv (W : Type) := {
  Now : W -> Time * W;
  Publish : Context -> Event -> W -> option error * W;
}.

Record Transition := mkTransition {
  tr_State : State;
  tr_LegID : LegID;
  tr_Reason : string;
  tr_ProtocolEvent : string;
}.

(** The fields of [Actor] that its goroutine owns; the mailbox and the done
    channel belong to [System] below. *)
Record Actor := mkActor {
  actor_call : Call;
  actor_snapshot : Snapshot;
  actor_sequence : Z;
}.

(** [NewActor]; publisher and clock are interfaces that may be nil. *)
Definition NewActor (mailboxCapacity : Z) (publisher_present clock_present : bool) (current : Call) : result Actor :=
  if (mailboxCapacity <=? 0) || (MaxMailboxCapacity <? mailboxCapacity) then
    Err (Errorf "mailbox capacity must be between 1 and 1024" [])
  else if negb publisher_present then Err (Errorf "event publisher is required" [])
  else if negb clock_present then Err (Errorf "clock is required" [])
  else Ok {| actor_call := current; actor_snapshot := current; actor_sequence := 0 |}.

Definition with_State (c : Call) (s : State) : Call :=
  mkCall (call_ID c) (call_TenantID c) (call_NodeID c) (call_Direction c) (call_CallerLeg c)
    (call_CalleeLeg c) s (call_StartedAt c) (call_AnsweredAt c) (call_EndedAt c) (call_Cause c).
Definition with_AnsweredAt (c : Call) (t : Time) : Call :=
  mkCall (call_ID c) (call_TenantID c) (call_NodeID c) (call_Direction c) (call_CallerLeg c)
    (call_CalleeLeg c) (call_State c) (call_StartedAt c) t (call_EndedAt c) (call_Cause c).
Definition with_Ended (c : Call) (t : Time) (cause : string) : Call :=
  mkCall (call_ID c) (call_TenantID c) (call_NodeID c) (call_Direction c) (call_CallerLeg c)
    (call_CalleeLeg c) (call_State c) (call_StartedAt c) (call_AnsweredAt c) t cause.

Section Actor.
Context {W : Type} `{ActorEnv W}.

Definition publish (ctx : Context) (protocolEvent reason : string) (oldState newState : State)
    (legID : LegID) (a : Actor) (w : W) : option error * Actor * W :=
  let sequence := u64 (actor_sequence a + 1) in
  let c := actor_call a in
  let '(now, w) := Now w in
  let event :=
    {| ev_Sequence := sequence; ev_TenantID := call_TenantID c; ev_CallID := call_ID c;
       ev_LegID := legID; ev_NodeID := call_NodeID c; ev_CallerLeg := call_CallerLeg c;
       ev_CalleeLeg := call_CalleeLeg c; ev_Direction := call_Direction c;
       ev_OldState := oldState; ev_NewState := newState; ev_Reason := reason;
       ev_ProtocolEvent := protocolEvent; ev_OccurredAt := now |} in
  let '(err, w) := Publish ctx event w in
  (err, {| actor_call := c; actor_snapshot := actor_snapshot a; actor_sequence := sequence |}, w).

Definition storeSnapshot (a : Actor) : Actor :=
  {| actor_call := actor_call a; actor_snapshot := actor_call a;
     actor_sequence := actor_sequence a |}.

Definition set_call (a : Actor) (c : Call) : Actor :=
  {| actor_call := c; actor_snapshot := actor_snapshot a; actor_sequence := actor_sequence a |}.

(** The new call record before publication: state, and the timestamps the
    target state sets. *)
Definition entered (c : Call) (transition : Transition) (now : Time) : Call :=
  let c := with_State c (tr_State transition) in
  let c := if eqs (tr_State transition) StateAnswered then with_AnsweredAt c now else c in
  if isTerminal (tr_State transition) then with_Ended c now (tr_Reason transition) else c.

Definition apply (ctx : Context) (transition : Transition) (a : Actor) (w : W)
    : option error * Actor * W :=
  let from := call_State (actor_call a) in
  if eqs (tr_State transition) from then (None, a, w)
  else if negb (allowedTransition from (tr_State transition)) then
    (Some (Errorf (from +:+ " to " +:+ tr_State transition) [Sentinel ErrInvalidTransition]), a, w)
  else
    let oldState := from in
    let '(now, w) := Now w in
    let a := set_call a (entered (actor_call a) transition now) in
    let '(err, a, w) :=
      publish ctx (tr_ProtocolEvent transition) (tr_Reason transition) oldState
        (tr_State transition) (tr_LegID transition) a w in
    match err with
    | Some e =>
        (Some (Errorf "publish call transition" [e]),
         set_call a (with_State (actor_call a) oldState), w)
    | None => (None, storeSnapshot a, w)
    end.

(** ** [Run]

    One element per iteration of the select: the branch the scheduler took,
    with what the context reports when the branch runs. *)
Inductive Choice :=
| CtxDone
| Command (ctx : Context) (transition : Transition).

Inductive Outcome :=
| Blocked                       (* waiting in the select *)
| Returned (err : option error).

Definition shutdown_transition (s : State) : Transition :=
  {| tr_State := s; tr_LegID := ""; tr_Reason := "context canceled"; tr_ProtocolEvent := "shutdown" |}.

Definition shutdown (a : Actor) (w : W) : option error * Actor * W :=
  if isTerminal (call_State (actor_call a)) then (None, a, w)
  else
    let '(err, a, w) := apply None (shutdown_transition StateTerminating) a w in
    match err with
    | Some e => (Some e, a, w)
    | None => apply None (shutdown_transition StateTerminated) a w
    end.

Fixpoint runLoop (choices : list Choice) (a : Actor) (w : W) : Outcome * Actor * W :=
  match choices with
  | [] => (Blocked, a, w)
  | CtxDone :: _ => let '(err, a, w) := shutdown a w in (Returned err, a, w)
  | Command ctx transition :: rest =>
      let '(err, a, w) := apply ctx transition a w in
      match err with
      | None => if isTerminal (call_State (actor_call a)) then (Returned None, a, w)
                else runLoop rest a w
      | Some _ => runLoop rest a w
      end
  end.

Definition Run (ctx : Context) (choices : list Choice) (a : Actor) (w : W) : Outcome * Actor * W :=
  let '(err, a, w) := publish ctx "created" "" (call_State (actor_call a)) "" "" a w in
  match err with
  | Some e => (Returned (Some (Errorf "publish initial call event" [e])), a, w)
  | None => runLoop choices a w
  end.

End Actor.

(** ** Lifecycle of the transition table *)

(** The phase of a state; only hold and resume stay within one phase. *)
Definition phase (s : State) : Z :=
  if eqs s StateNew then 0 else if eqs s StateRouting then 1
  else if eqs s StateRinging then 2 else if eqs s StateEarlyMedia then 3
  else if eqs s StateAnswered || eqs s StateHeld then 4
  else if eqs s StateTerminating then 5 else if isTerminal s then 6 else 7.

Definition knownStates : list State :=
  [StateNew; StateRouting; StateRinging; StateEarlyMedia; StateAnswered; StateHeld;
   StateTerminating; StateTerminated; StateFailed].

(** [state_cases] splits every [eqs] test on a state and closes the
    contradictory branches. *)
Ltac state_cases :=
  repeat match goal with
  | H : (if eqs ?x ?y then _ else _) = _ |- _ =>
      destruct (String.eqb_spec x y : reflect (x = y) (eqs x y)); subst; try discriminate
  | H : (_ || _)%bool = true |- _ => apply orb_true_iff in H; destruct H
  | H : eqs _ _ = true |- _ => apply String.eqb_eq in H; subst
  end; try discriminate.

Lemma allowed_known from to :
  allowedTransition from to = true -> from ∈ knownStates /\ to ∈ knownStates.
Proof.
  unfold allowedTransition. intros H. state_cases; vm_compute; split;
    repeat first [apply list_elem_of_here | apply list_elem_of_further].
Qed.

Lemma allowed_phase from to :
  allowedTransition from to = true ->
  phase from < phase to \/ (phase from = 4 /\ phase to = 4).
Proof. unfold allowedTransition. intros H. state_cases; vm_compute; auto. Qed.

Lemma terminal_no_exit from to : isTerminal from = true -> allowedTransition from to = false.
Proof. unfold isTerminal. intros H. state_cases; reflexivity. Qed.

Lemma terminal_allowed_from from to :
  allowedTransition from to = true -> isTerminal from = false.
Proof. intros H. destruct (isTerminal from) eqn:E; [|done]. by rewrite terminal_no_exit in H. Qed.

Lemma allowed_irrefl s : allowedTransition s s = false.
Proof.
  destruct (allowedTransition s s) eqn:E; [|done].
  unfold allowedTransition in E. state_cases.
Qed.

Lemma drainable s :
  s ∈ knownStates -> isTerminal s = false ->
  s = StateTerminating \/ allowedTransition s StateTerminating = true.
Proof.
  unfold knownStates. intros Hin Ht.
  repeat (apply elem_of_cons in Hin as [->|Hin]; [try discriminate; vm_compute; auto|]).
  by apply elem_of_nil in Hin.
Qed.

(** ** Case analysis of [apply] *)

Section ApplyCases.
Context {W : Type} `{ActorEnv W}.

Definition transition_event (c : Call) (sequence : Z) (t : Transition) (now : Time) : Event :=
  {| ev_Sequence := sequence; ev_TenantID := call_TenantID c; ev_CallID := call_ID c;
     ev_LegID := tr_LegID t; ev_NodeID := call_NodeID c; ev_CallerLeg := call_CallerLeg c;
     ev_CalleeLeg := call_CalleeLeg c; ev_Direction := call_Direction c;
     ev_OldState := call_State c; ev_NewState := tr_State t; ev_Reason := tr_Reason t;
     ev_ProtocolEvent := tr_ProtocolEvent t; ev_OccurredAt := now |}.

Inductive apply_case (ctx : Context) (t : Transition) (a : Actor) (w : W)
    : option error * Actor * W -> Prop :=
| apply_same :
    tr_State t = call_State (actor_call a) -> apply_case ctx t a w (None, a, w)
| apply_invalid e :
    tr_State t <> call_State (actor_call a) ->
    allowedTransition (call_State (actor_call a)) (tr_State t) = false ->
    errors_Is e ErrInvalidTransition = true ->
    apply_case ctx t a w (Some e, a, w)
| apply_ok now w1 occurred w2 w3 :
    allowedTransition (call_State (actor_call a)) (tr_State t) = true ->
    Now w = (now, w1) -> Now w1 = (occurred, w2) ->
    Publish ctx (transition_event (actor_call a) (u64 (actor_sequence a + 1)) t occurred) w2
      = (None, w3) ->
    apply_case ctx t a w
      (None, {| actor_call := entered (actor_call a) t now;
                actor_snapshot := entered (actor_call a) t now;
                actor_sequence := u64 (actor_sequence a + 1) |}, w3)
| apply_unpublished now w1 occurred w2 w3 e :
    allowedTransition (call_State (actor_call a)) (tr_State t) = true ->
    Now w = (now, w1) -> Now w1 = (occurred, w2) ->
    Publish ctx (transition_event (actor_call a) (u64 (actor_sequence a + 1)) t occurred) w2
      = (Some e, w3) ->
    apply_case ctx t a w
      (Some (Errorf "publish call transition" [e]),
       {| actor_call := with_State (entered (actor_call a) t now) (call_State (actor_call a));
          actor_snapshot := actor_snapshot a;
          actor_sequence := u64 (actor_sequence a + 1) |}, w3).

Lemma entered_ids c t now :
  call_ID (entered c t now) = call_ID c /\ call_TenantID (entered c t now) = call_TenantID c /\
  call_NodeID (entered c t now) = call_NodeID c /\
  call_Direction (entered c t now) = call_Direction c /\
  call_CallerLeg (entered c t now) = call_CallerLeg c /\
  call_CalleeLeg (entered c t now) = call_CalleeLeg c /\
  call_State (entered c t now) = tr_State t /\
  call_StartedAt (entered c t now) = call_StartedAt c.
Proof. unfold entered. destruct (eqs _ _), (isTerminal _); by split_and!. Qed.

Lemma entered_event c sequence t now occurred :
  {| ev_Sequence := sequence; ev_TenantID := call_TenantID (entered c t now);
     ev_CallID := call_ID (entered c t now); ev_LegID := tr_LegID t;
     ev_NodeID := call_NodeID (entered c t now); ev_CallerLeg := call_CallerLeg (entered c t now);
     ev_CalleeLeg := call_CalleeLeg (entered c t now);
     ev_Direction := call_Direction (entered c t now); ev_OldState := call_State c;
     ev_NewState := tr_State t; ev_Reason := tr_Reason t;
     ev_ProtocolEvent := tr_ProtocolEvent t; ev_OccurredAt := occurred |}
  = transition_event c sequence t occurred.
Proof.
  unfold transition_event.
  destruct (entered_ids c t now) as (-> & -> & -> & -> & -> & -> & _). reflexivity.
Qed.

Lemma apply_caseP ctx t a w : apply_case ctx t a w (apply ctx t a w).
Proof.
  unfold apply.
  destruct (String.eqb_spec (tr_State t) (call_State (actor_call a)) : reflect _ (eqs _ _))
    as [E|E].
  { by constructor. }
  destruct (allowedTransition _ _) eqn:Ha; cbn.
  - destruct (Now w) as [now w1] eqn:Hn. cbn.
    unfold publish; cbn. destruct (Now w1) as [occurred w2] eqn:Hn1.
    rewrite entered_event.
    destruct (Publish _ _ _) as [[e|] w3] eqn:Hp; cbn.
    + unfold set_call; cbn. by eapply apply_unpublished.
    + unfold storeSnapshot; cbn. by eapply apply_ok.
  - apply apply_invalid; auto.
Qed.

End ApplyCases.

(** ** The event log of a run

    [Traced W] is any environment with a ghost log of the events whose
    publication succeeded. *)

Section Trace.
Context {W : Type} `{ActorEnv W}.

#[export] Instance traced_env : ActorEnv (W * list Event) := {
  Now := fun '(w, log) => let '(t, w) := Now w in (t, (w, log));
  Publish := fun ctx e '(w, log) =>
    let '(err, w) := Publish ctx e w in
    (err, (w, match err with None => log ++ [e] | Some _ => log end));
}.

(** A log leads from one state to another when each event starts where the
    previous one ended and is allowed by the table. *)
Inductive chain (s : State) : list Event -> State -> Prop :=
| chain_nil : chain s [] s
| chain_snoc log t e :
    chain s log t -> ev_OldState e = t -> allowedTransition t (ev_NewState e) = true ->
    chain s (log ++ [e]) (ev_NewState e).

Definition same_call (c d : Call) : Prop :=
  call_ID c = call_ID d /\ call_TenantID c = call_TenantID d /\ call_NodeID c = call_NodeID d /\
  call_Direction c = call_Direction d /\
  call_CallerLeg c = call_CallerLeg d /\ call_CalleeLeg c = call_CalleeLeg d /\
  call_StartedAt c = call_StartedAt d.

Definition about (c : Call) (e : Event) : Prop :=
  ev_CallID e = call_ID c /\ ev_TenantID e = call_TenantID c /\ ev_NodeID e = call_NodeID c /\
  ev_CallerLeg e = call_CallerLeg c /\ ev_CalleeLeg e = call_CalleeLeg c.

(** What the log and the actor satisfy between two iterations of the loop. *)
Record log_inv (a0 : Actor) (log : list Event) (a : Actor) : Prop := {
  li_chain : chain (call_State (actor_call a0)) log (call_State (actor_call a));
  li_same : same_call (actor_call a) (actor_call a0);
  li_about : Forall (about (actor_call a0)) log;
  li_sorted : StronglySorted Z.lt (ev_Sequence <$> log);
  li_bound : Forall (fun e => actor_sequence a0 < ev_Sequence e <= actor_sequence a) log;
  li_seq : actor_sequence a0 <= actor_sequence a;
  li_snap : call_State (actor_snapshot a) = call_State (actor_call a);
}.

Lemma sorted_snoc (l : list Z) x :
  StronglySorted Z.lt l -> Forall (fun y => y < x) l -> StronglySorted Z.lt (l ++ [x]).
Proof.
  induction 1 as [|y l _ IH Hy]; cbn; intros Hx; repeat constructor; inversion Hx; subst; auto.
  apply Forall_app; auto.
Qed.

Lemma log_inv_skip a0 log a c s :
  log_inv a0 log a -> same_call c (actor_call a) -> call_State c = call_State (actor_call a) ->
  actor_sequence a <= s ->
  log_inv a0 log {| actor_call := c; actor_snapshot := actor_snapshot a; actor_sequence := s |}.
Proof.
  intros [] Hc Hs Hle; constructor; cbn; rewrite ?Hs; auto with lia.
  - unfold same_call in *; intuition congruence.
  - eapply Forall_impl; [eassumption|]. cbn. lia.
Qed.

Lemma log_inv_step a0 log a c e :
  log_inv a0 log a -> same_call c (actor_call a) -> about (actor_call a) e ->
  ev_Sequence e = actor_sequence a + 1 ->
  ev_OldState e = call_State (actor_call a) -> ev_NewState e = call_State c ->
  allowedTransition (ev_OldState e) (ev_NewState e) = true ->
  log_inv a0 (log ++ [e])
    {| actor_call := c; actor_snapshot := c; actor_sequence := actor_sequence a + 1 |}.
Proof.
  intros [Hch Hsame Hab Hsort Hb Hseq Hsnap] Hc He Hs Hold Hnew Hal; constructor; cbn; auto with lia.
  - rewrite <- Hnew. econstructor; eauto. by rewrite <- Hold.
  - unfold same_call in *; intuition congruence.
  - apply Forall_app; split; [done|]. repeat constructor; unfold about, same_call in *;
      intuition congruence.
  - rewrite fmap_app; cbn. apply sorted_snoc; [done|]. apply Forall_fmap.
    eapply Forall_impl; [eassumption|]. cbn. lia.
  - apply Forall_app; split; [eapply Forall_impl; [eassumption|]; cbn; lia|].
    repeat constructor; lia.
Qed.

Lemma same_call_entered c t now : same_call (entered c t now) c.
Proof. destruct (entered_ids c t now) as (?&?&?&?&?&?&?&?). by split_and!. Qed.

(** One [apply] keeps the invariant, uses at most one sequence number, and
    leaves the state unchanged when it reports an error. *)
Lemma apply_log_inv ctx t a0 a (w : W) pre log err a' w' full :
  log_inv a0 log a -> 0 <= actor_sequence a0 -> actor_sequence a + 1 < 2 ^ 64 ->
  apply ctx t a (w, pre ++ log) = (err, a', (w', full)) ->
  (exists log', full = pre ++ log' /\ log_inv a0 log' a') /\
  actor_sequence a' <= actor_sequence a + 1.
Proof.
  intros Hinv H0 Hlt Heq. pose proof (apply_caseP ctx t a (w, pre ++ log)) as Hc. rewrite Heq in Hc.
  pose proof (li_seq _ _ _ Hinv) as Hle.
  assert (Hu : u64 (actor_sequence a + 1) = actor_sequence a + 1) by (apply u64_id; word_lia).
  assert (Hids := same_call_entered (actor_call a) t).
  inversion Hc as [Hsame|e0 Hne Hf He|now w1 oc w2 w3 Hal Hn1 Hn2 Hp|now w1 oc w2 w3 e0 Hal Hn1 Hn2 Hp];
    subst; clear Hc; rewrite ?Hu in *.
  - eauto with lia.
  - eauto with lia.
  - cbn in *. repeat case_any; simplify_eq. split; [|cbn; lia].
    exists (log ++ [transition_event (actor_call a) (actor_sequence a + 1) t oc]).
    rewrite app_assoc. split; [done|].
    assert (Hst : call_State (entered (actor_call a) t now) = tr_State t) by apply entered_ids.
    eapply log_inv_step; cbn; eauto. by split_and!.
  - cbn in *. repeat case_any; simplify_eq. split; [|cbn; lia]. eexists; split; [done|].
    apply (log_inv_skip _ _ _ _ _ Hinv); cbn; auto with lia.
    specialize (Hids now). by destruct Hids as (?&?&?&?&?&?&?); split_and!.
Qed.

Lemma shutdown_log_inv a0 a (w : W) pre log err a' w' full :
  log_inv a0 log a -> 0 <= actor_sequence a0 -> actor_sequence a + 2 < 2 ^ 64 ->
  shutdown a (w, pre ++ log) = (err, a', (w', full)) ->
  exists log', full = pre ++ log' /\ log_inv a0 log' a'.
Proof.
  unfold shutdown. intros Hinv H0 Hlt. destruct (isTerminal _); [intros; simplify_eq; eauto|].
  destruct (apply _ _ a _) as [[err1 a1] [w1 full1]] eqn:E1.
  apply apply_log_inv with (a0 := a0) in E1 as ((log1 & -> & Hi1) & Hs1); auto with lia.
  destruct err1; [intros; simplify_eq; eauto|]. intros E2.
  apply apply_log_inv with (a0 := a0) in E2 as (Hi2 & _); auto with lia.
Qed.

Lemma runLoop_log_inv choices : forall a0 a (w : W) pre log out a' w' full,
  log_inv a0 log a -> 0 <= actor_sequence a0 ->
  actor_sequence a + Z.of_nat (length choices) + 1 < 2 ^ 64 ->
  runLoop choices a (w, pre ++ log) = (out, a', (w', full)) ->
  exists log', full = pre ++ log' /\ log_inv a0 log' a'.
Proof.
  induction choices as [|[|ctx t] rest IH]; intros a0 a w pre log out a' w' full Hinv H0 Hlt; cbn.
  - intros; simplify_eq; eauto.
  - destruct (shutdown _ _) as [[err1 a1] [w1 full1]] eqn:E1. intros; simplify_eq.
    eapply shutdown_log_inv; eauto. cbn in Hlt. lia.
  - destruct (apply _ _ a _) as [[err1 a1] [w1 full1]] eqn:E1.
    apply apply_log_inv with (a0 := a0) in E1 as ((log1 & -> & Hi1) & Hs1); auto;
      cbn in Hlt; try lia.
    destruct err1; [|destruct (isTerminal _); [intros; simplify_eq; eauto|]];
      apply IH; auto; lia.
Qed.

End Trace.

(** A recording environment: a clock that ticks and a publisher with a
    scripted list of failures. *)
Record Recorder := { rec_now : Time; rec_fail : list bool }.

#[export] Instance recorder_env : ActorEnv Recorder := {
  Now := fun r => (rec_now r, {| rec_now := rec_now r + Millisecond; rec_fail := rec_fail r |});
  Publish := fun ctx _ r =>
    (match ctx, rec_fail r with
     | Some e, _ => Some e
     | None, true :: _ => Some context_DeadlineExceeded
     | None, _ => None
     end, {| rec_now := rec_now r; rec_fail := tail (rec_fail r) |});
}.

(** A publisher that accepts everything. *)
Record Steady := SteadyClock { steady_now : Time }.

#[export] Instance steady_env : ActorEnv Steady := {
  Now := fun s => (steady_now s, SteadyClock (steady_now s + Millisecond));
  Publish := fun _ _ s => (None, s);
}.

Definition sample_call : Call :=
  mkCall "call-1" "tenant-1" "node-1" DirectionInternal "leg-a" "leg-b" StateNew Second
    zeroTime zeroTime "".
Definition sample_actor : Actor := mkActor sample_call sample_call 0.
Definition to_state (s : State) : Transition := mkTransition s "leg-a" "normal clearing" "200".
Definition full_call : list Choice :=
  map (fun s => Command None (to_state s))
    [StateRouting; StateRinging; StateEarlyMedia; StateAnswered; StateHeld; StateAnswered;
     StateRinging; StateTerminating; StateTerminated].

(** The log of a run, as the theorems below use it. *)
Lemma run_log_path {W} `{ActorEnv W} cap c ctx choices a (w : W) out a' w' log :
  NewActor cap true true c = Ok a ->
  Z.of_nat (length choices) + 2 < 2 ^ 64 ->
  Run ctx choices a (w, []) = (out, a', (w', log)) ->
  (log = [] /\ exists e, out = Returned (Some e)) \/
  exists created rest,
    log = created :: rest /\
    ev_ProtocolEvent created = "created" /\ ev_OldState created = call_State c /\ ev_NewState created = ""%string /\
    ev_Sequence created = 1 /\
    chain (call_State c) rest (call_State (actor_call a')) /\
    StronglySorted Z.lt (ev_Sequence <$> log) /\
    Forall (about c) log /\
    same_call (actor_call a') c /\
    call_State (actor_snapshot a') = call_State (actor_call a').
Proof.
  unfold NewActor, Run, publish. intros Hnew Hlen.
  destruct (_ || _); cbn [negb] in Hnew; simplify_eq. cbn.
  destruct (Now w) as [now w1]. destruct (Publish _ _ w1) as [[e|] w2].
  { intros; simplify_eq. eauto. }
  intros Hrun. right.
  change (u64 (0 + 1)) with 1 in Hrun.
  match type of Hrun with context [_ ++ [?e]] => set (created := e) in Hrun end.
  assert (Hinv : log_inv (mkActor c c 1) [] (mkActor c c 1)).
  { constructor; cbn; repeat constructor; lia. }
  eapply (runLoop_log_inv _ (mkActor c c 1) _ _ [created] []) in Hrun as (rest & -> & [Hch Hs Hab Hso Hb Hq Hsn]);
    [|exact Hinv|cbn; lia|cbn; lia].
  exists created, rest. split_and!; auto.
  - cbn. constructor; [done|]. apply Forall_fmap. eapply Forall_impl; [exact Hb|]. cbn. lia.
  - constructor; [|done]. by split_and!.
Qed.

(** Claim C3. Whatever the scheduler and the publisher do, the events the
    actor of a fresh call gets published are one "created" event, whose old state
    is the initial one and whose new state is empty, followed by a path in the
    transition table from the initial state to the actor's current state: every
    event starts in the state the previous one ended in, and is allowed.  Sequence
    numbers start at 1 and strictly increase, every event carries the call's
    identifiers, and the published snapshot always shows the current state.  Only a
    failed first publication leaves the log empty, and then [Run] returns an error. *)
Theorem run_event_log {W} `{ActorEnv W} cap c ctx choices a (w : W) out a' w' log :
  NewActor cap true true c = Ok a ->
  Z.of_nat (length choices) + 2 < 2 ^ 64 ->
  Run ctx choices a (w, []) = (out, a', (w', log)) ->
  (log = [] /\ exists e, out = Returned (Some e)) \/
  exists created rest,
    log = created :: rest /\
    ev_ProtocolEvent created = "created" /\ ev_OldState created = call_State c /\ ev_NewState created = ""%string /\
    ev_Sequence created = 1 /\
    chain (call_State c) rest (call_State (actor_call a')) /\
    StronglySorted Z.lt (ev_Sequence <$> log) /\
    Forall (about c) log /\
    same_call (actor_call a') c /\
    call_State (actor_snapshot a') = call_State (actor_call a').
Proof. apply run_log_path. Qed.

Lemma run_event_log_witness :
  exists out a' w' log,
    Run None full_call sample_actor ({| rec_now := 0; rec_fail := [] |}, []) = (out, a', (w', log))
    /\ length log = 9%nat /\
    ((log = [] /\ exists e, out = Returned (Some e)) \/
     exists created rest,
       log = created :: rest /\
       ev_ProtocolEvent created = "created" /\ ev_OldState created = call_State sample_call /\
       ev_NewState created = ""%string /\ ev_Sequence created = 1 /\
       chain (call_State sample_call) rest (call_State (actor_call a')) /\
       StronglySorted Z.lt (ev_Sequence <$> log) /\
       Forall (about sample_call) log /\
       same_call (actor_call a') sample_call /\
       call_State (actor_snapshot a') = call_State (actor_call a')).
Proof.
  do 4 eexists. split; [vm_compute; reflexivity|]. split; [reflexivity|].
  eapply (run_event_log 64 sample_call None full_call sample_actor {| rec_now := 0; rec_fail := [] |});
    vm_compute; reflexivity.
Defined.

(** ** Termination of the run loop *)

Section Termination.
Context {W : Type} `{ActorEnv W}.

Lemma apply_ok_state ctx t a (w : W) a' w' :
  apply ctx t a w = (None, a', w') -> call_State (actor_call a') = tr_State t.
Proof.
  intros E. pose proof (apply_caseP ctx t a w) as Hc. rewrite E in Hc.
  inversion Hc; subst; [done|]. cbn. apply entered_ids.
Qed.

Lemma apply_err_state ctx t a (w : W) e a' w' :
  apply ctx t a w = (Some e, a', w') ->
  call_State (actor_call a') = call_State (actor_call a) /\ actor_snapshot a' = actor_snapshot a.
Proof.
  intros E. pose proof (apply_caseP ctx t a w) as Hc. rewrite E in Hc.
  inversion Hc; subst; done.
Qed.

Lemma shutdown_ok_terminal a (w : W) a' w' :
  shutdown a w = (None, a', w') -> isTerminal (call_State (actor_call a')) = true.
Proof.
  unfold shutdown. destruct (isTerminal (call_State (actor_call a))) eqn:E;
    [by intros; simplify_eq|].
  destruct (apply _ _ a w) as [[[e|] a1] w1]; [done|].
  intros E2%apply_ok_state. by rewrite E2.
Qed.

Lemma runLoop_stops choices : forall a (w : W) out a' w',
  isTerminal (call_State (actor_call a)) = false ->
  runLoop choices a w = (out, a', w') ->
  (out = Returned None -> isTerminal (call_State (actor_call a')) = true) /\
  (out = Blocked -> isTerminal (call_State (actor_call a')) = false).
Proof.
  induction choices as [|[|c t] rest IH]; intros a w out a' w' Hlive; cbn.
  - intros; simplify_eq; done.
  - destruct (shutdown _ _) as [[err1 a1] w3] eqn:E. intros; simplify_eq. split; [|done].
    intros [= ->]. by eapply shutdown_ok_terminal.
  - destruct (apply _ _ a _) as [[[e|] a1] w3] eqn:E.
    + apply apply_err_state in E as [E _]. intros Hr. eapply IH; [|exact Hr]. by rewrite E.
    + destruct (isTerminal (call_State (actor_call a1))) eqn:Et; [intros; simplify_eq; done|].
      apply IH; auto.
Qed.

End Termination.

(** The actor goroutine stops exactly with its call: if [Run]
    returns without an error the call is in a terminal state, and while the
    loop is still waiting for input the call is not. *)
Theorem run_stops_with_call {W} `{ActorEnv W} ctx choices a (w : W) out a' w' :
  isTerminal (call_State (actor_call a)) = false ->
  Run ctx choices a w = (out, a', w') ->
  (out = Returned None -> isTerminal (call_State (actor_call a')) = true) /\
  (out = Blocked -> isTerminal (call_State (actor_call a')) = false).
Proof.
  unfold Run, publish. destruct (Now w) as [now w1]. cbn.
  destruct (Publish _ _ w1) as [[e|] w2]; [by intros; simplify_eq|].
  intros Hlive Hrun. by eapply runLoop_stops in Hrun.
Qed.

Lemma run_stops_with_call_witness :
  exists out a' w',
    Run None full_call sample_actor {| rec_now := 0; rec_fail := [false; true] |} = (out, a', w') /\
    (out = Returned None -> isTerminal (call_State (actor_call a')) = true) /\
    (out = Blocked -> isTerminal (call_State (actor_call a')) = false).
Proof.
  do 3 eexists. split; [vm_compute; reflexivity|].
  eapply (run_stops_with_call None full_call sample_actor {| rec_now := 0; rec_fail := [false; true] |});
    vm_compute; reflexivity.
Defined.

(** Claim C35. Cancellation always terminates a call whose events can be
    published: from every live state of the lifecycle, the shutdown branch of
    [Run] brings the call to "terminated" with cause "context canceled",
    stamps [EndedAt], and returns no error. *)
Theorem shutdown_terminates {W} `{ActorEnv W} (a : Actor) (w : W) rest :
  (forall e (v : W), fst (Publish None e v) = None) ->
  call_State (actor_call a) ∈ knownStates ->
  isTerminal (call_State (actor_call a)) = false ->
  exists a' w' v t,
    runLoop (CtxDone :: rest) a w = (Returned None, a', w') /\
    call_State (actor_call a') = StateTerminated /\
    call_Cause (actor_call a') = "context canceled" /\
    Now v = (call_EndedAt (actor_call a'), t) /\
    actor_snapshot a' = actor_call a'.
Proof.
  intros Hpub Hk Hlive. cbn. unfold shutdown. rewrite Hlive.
  assert (Hlast : forall b (u : W), call_State (actor_call b) = StateTerminating ->
    exists a' w' v t, apply None (shutdown_transition StateTerminated) b u = (None, a', w') /\
      call_State (actor_call a') = StateTerminated /\
      call_Cause (actor_call a') = "context canceled" /\
      Now v = (call_EndedAt (actor_call a'), t) /\ actor_snapshot a' = actor_call a').
  { intros b u Hb. pose proof (apply_caseP None (shutdown_transition StateTerminated) b u) as Hc.
    destruct (apply _ _ b u) as [[err b'] u'].
    inversion Hc as [Hs|e Hs Ha|now w1 oc w2 w3 Ha Hn1 Hn2 Hp|now w1 oc w2 w3 e Ha Hn1 Hn2 Hp];
      subst; rewrite Hb in *; try discriminate.
    - eexists _, _, u, w1. split_and!; [reflexivity|reflexivity|reflexivity| |reflexivity]. exact Hn1.
    - eapply (f_equal fst) in Hp. rewrite Hpub in Hp. done. }
  pose proof (apply_caseP None (shutdown_transition StateTerminating) a w) as Hc.
  destruct (apply _ _ a w) as [[err a1] w1] eqn:E1.
  assert (err = None) as ->.
  { inversion Hc as [Hs|e Hs Ha|now u1 oc u2 u3 Ha Hn1 Hn2 Hp|now u1 oc u2 u3 e Ha Hn1 Hn2 Hp];
      subst; try done.
    - destruct (drainable _ Hk Hlive) as [Hd|Hd]; [by rewrite Hd in Hs|].
      cbn in Ha. congruence.
    - eapply (f_equal fst) in Hp. rewrite Hpub in Hp. done. }
  destruct (Hlast a1 w1) as (a' & w' & v & t & E & ?); [by apply apply_ok_state in E1|].
  exists a', w', v, t. by rewrite E.
Qed.

Lemma shutdown_terminates_witness :
  exists a' w' v t,
    runLoop [CtxDone] (mkActor (with_State sample_call StateHeld) sample_call 4) (SteadyClock 7)
      = (Returned None, a', w') /\
    call_State (actor_call a') = StateTerminated /\
    call_Cause (actor_call a') = "context canceled" /\
    Now v = (call_EndedAt (actor_call a'), t) /\
    actor_snapshot a' = actor_call a'.
Proof.
  apply (shutdown_terminates (mkActor (with_State sample_call StateHeld) sample_call 4)
           (SteadyClock 7) []).
  - reflexivity.
  - apply (bool_decide_unpack _). vm_compute. exact I.
  - reflexivity.
Defined.

(** A transition whose event cannot be published is rolled back only
    in part: the state, the snapshot and the identifiers are those from
    before, but a terminal target leaves [EndedAt] and [Cause] of the live call
    record set (and an "answered" target leaves [AnsweredAt] set), so a later
    snapshot of a call that goes on shows an end time and a cause. *)
Theorem rollback_keeps_timestamps {W} `{ActorEnv W} ctx t a (w w1 : W) now e a' w' :
  Now w = (now, w1) ->
  allowedTransition (call_State (actor_call a)) (tr_State t) = true ->
  apply ctx t a w = (Some e, a', w') ->
  call_State (actor_call a') = call_State (actor_call a) /\
  actor_snapshot a' = actor_snapshot a /\
  same_call (actor_call a') (actor_call a) /\
  (isTerminal (tr_State t) = true ->
     call_EndedAt (actor_call a') = now /\ call_Cause (actor_call a') = tr_Reason t) /\
  (tr_State t = StateAnswered -> call_AnsweredAt (actor_call a') = now).
Proof.
  intros Hnow Hal E. pose proof (apply_caseP ctx t a w) as Hc. rewrite E in Hc.
  inversion Hc as [|e0 Hs Ha| |now' u1 oc u2 u3 e0 Ha Hn1 Hn2 Hp]; subst; [congruence|].
  rewrite Hnow in Hn1; simplify_eq. cbn. split_and!; auto.
  - destruct (same_call_entered (actor_call a) t now') as (?&?&?&?&?&?&?). by split_and!.
  - intros Ht. unfold entered. rewrite Ht. destruct (eqs _ _); auto.
  - intros Ht. unfold entered. rewrite Ht. reflexivity.
Qed.

Lemma rollback_keeps_timestamps_witness :
  let a := mkActor (with_State sample_call StateTerminating) sample_call 4 in
  exists e a' w',
    apply None (to_state StateTerminated) a {| rec_now := 9; rec_fail := [true] |}
      = (Some e, a', w') /\
    call_State (actor_call a') = StateTerminating /\
    call_EndedAt (actor_call a') = 9 /\ call_Cause (actor_call a') = "normal clearing".
Proof.
  intros a. do 3 eexists. split; [vm_compute; reflexivity|].
  edestruct (rollback_keeps_timestamps None (to_state StateTerminated) a
               {| rec_now := 9; rec_fail := [true] |}) as (H1 & _ & _ & H4 & _);
    [reflexivity|reflexivity|vm_compute; reflexivity|].
  destruct (H4 eq_refl) as [H5 H6]. split; [exact H1|]. split; [exact H5 | exact H6].
Defined.

(** ** Clients of the actor

    [Transition] submits a command to the bounded mailbox and waits for its
    result.  The actor goroutine, the mailbox and the waiting clients run
    concurrently; a step is one channel operation or one iteration of the
    actor.  [sys_log] is ghost state: the commands the actor has executed, in
    order, with their results. *)

Module System.

Inductive Client :=
| Submitting (t : Transition)              (* in the first select *)
| Waiting (t : Transition)                 (* in the second select *)
| Finished (t : Transition) (err : option error).

Section System.
Context {W : Type} `{ActorEnv W}.

Record sys := mkSys {
  sys_actor : Actor;
  sys_world : W;
  sys_mailbox : list (nat * Transition);
  sys_results : gmap nat (option error);   (* the buffered result channels *)
  sys_started : bool;                      (* the "created" event is published *)
  sys_done : bool;                         (* [a.done] is closed *)
  sys_clients : gmap nat Client;
  sys_log : list (nat * Transition * option error);
}.

Definition set_client (s : sys) (c : nat) (p : Client) : sys :=
  mkSys (sys_actor s) (sys_world s) (sys_mailbox s) (sys_results s) (sys_started s) (sys_done s)
    (<[c := p]> (sys_clients s)) (sys_log s).

Variable capacity : nat.

(** The clients, and the actor's goroutine, which starts with the initial event and
    ends if that cannot be published. *)
Inductive step : sys -> sys -> Prop :=
| step_created s ctx err a w :
    sys_started s = false -> sys_done s = false ->
    publish ctx "created" "" (call_State (actor_call (sys_actor s))) "" "" (sys_actor s) (sys_world s) = (err, a, w) ->
    step s (mkSys a w (sys_mailbox s) (sys_results s) true (match err with None => false | Some _ => true end)
              (sys_clients s) (sys_log s))
| step_send s c t :
    sys_clients s !! c = Some (Submitting t) -> (length (sys_mailbox s) < capacity)%nat ->
    step s (mkSys (sys_actor s) (sys_world s) (sys_mailbox s ++ [(c, t)]) (sys_results s)
              (sys_started s) (sys_done s) (<[c := Waiting t]> (sys_clients s)) (sys_log s))
| step_send_closed s c t :
    sys_clients s !! c = Some (Submitting t) -> sys_done s = true ->
    step s (set_client s c (Finished t (Some ErrActorClosed)))
| step_send_canceled s c t e :
    sys_clients s !! c = Some (Submitting t) -> e = context_Canceled \/ e = context_DeadlineExceeded ->
    step s (set_client s c (Finished t (Some e)))
| step_execute s c t m ctx err a w :
    sys_started s = true -> sys_done s = false -> sys_mailbox s = (c, t) :: m ->
    apply ctx t (sys_actor s) (sys_world s) = (err, a, w) ->
    step s (mkSys a w m (<[c := err]> (sys_results s)) true
              (match err with None => isTerminal (call_State (actor_call a)) | Some _ => false end)
              (sys_clients s) (sys_log s ++ [(c, t, err)]))
| step_shutdown s err a w :
    sys_started s = true -> sys_done s = false -> shutdown (sys_actor s) (sys_world s) = (err, a, w) ->
    step s (mkSys a w (sys_mailbox s) (sys_results s) true true (sys_clients s) (sys_log s))
| step_result s c t err :
    sys_clients s !! c = Some (Waiting t) -> sys_results s !! c = Some err ->
    step s (set_client s c (Finished t err))
| step_wait_closed s c t :
    sys_clients s !! c = Some (Waiting t) -> sys_done s = true ->
    step s (set_client s c (Finished t (Some ErrActorClosed)))
| step_wait_canceled s c t e :
    sys_clients s !! c = Some (Waiting t) -> e = context_Canceled \/ e = context_DeadlineExceeded ->
    step s (set_client s c (Finished t (Some e))).

Definition initial (s : sys) : Prop :=
  sys_mailbox s = [] /\ sys_results s = ∅ /\ sys_started s = false /\ sys_done s = false /\ sys_log s = [] /\
  forall c p, sys_clients s !! c = Some p -> exists t, p = Submitting t.

Definition queued (s : sys) : list nat := (fst <$> sys_mailbox s).
Definition executed (s : sys) : list nat := ((fun x => fst (fst x)) <$> sys_log s).

(** What every reachable configuration satisfies. *)
Record inv (s : sys) : Prop := {
  inv_capacity : (length (sys_mailbox s) <= capacity)%nat;
  inv_once : NoDup (executed s ++ queued s);
  inv_submitting : forall c t, sys_clients s !! c = Some (Submitting t) ->
    c ∉ executed s ++ queued s;
  inv_mine : forall c t, (c, t) ∈ sys_mailbox s ->
    match sys_clients s !! c with
    | Some (Waiting t') | Some (Finished t' (Some _)) => t' = t
    | _ => False
    end;
  inv_results : forall c err, sys_results s !! c = Some err -> exists t, (c, t, err) ∈ sys_log s;
  inv_logged : forall c t err, (c, t, err) ∈ sys_log s ->
    match sys_clients s !! c with
    | Some (Waiting t') | Some (Finished t' _) => t' = t
    | _ => False
    end;
  inv_finished : forall c t, sys_clients s !! c = Some (Finished t None) ->
    (c, t, None) ∈ sys_log s;
}.

Lemma executed_in s c t err : (c, t, err) ∈ sys_log s -> c ∈ executed s.
Proof. intros Hin. apply list_elem_of_fmap. by exists (c, t, err). Qed.

Lemma queued_in s c t : (c, t) ∈ sys_mailbox s -> c ∈ queued s.
Proof. intros Hin. apply list_elem_of_fmap. by exists (c, t). Qed.

(** A client leaves [Transition]: with an error at any time, with a nil error
    only after its command was executed without one. *)
Lemma finish_inv s c t err :
  inv s -> (sys_clients s !! c = Some (Submitting t) \/ sys_clients s !! c = Some (Waiting t)) ->
  (err = None -> (c, t, None) ∈ sys_log s) ->
  inv (set_client s c (Finished t err)).
Proof.
  intros [Hcap Honce Hsub Hmine Hres Hlog Hfin] Hold Herr. constructor; cbn; auto.
  - intros c' t'. rewrite lookup_insert_Some. intros [[_ [=]]|[_ ?]]; eauto.
  - intros c' t' Hin. rewrite lookup_insert. case_decide as E; [subst|by apply Hmine].
    specialize (Hmine _ _ Hin). destruct err as [e|].
    + by destruct Hold as [Ho|Ho]; rewrite Ho in Hmine.
    + specialize (Herr eq_refl). apply executed_in in Herr. apply queued_in in Hin.
      apply NoDup_app in Honce as (_ & Hd & _). by eapply Hd.
  - intros c' t' err' Hin. rewrite lookup_insert. case_decide as E; [subst|by eapply Hlog].
    specialize (Hlog _ _ _ Hin). by destruct Hold as [Ho|Ho]; rewrite Ho in Hlog.
  - intros c' t'. rewrite lookup_insert_Some. intros [[-> [= -> ->]]|[_ ?]]; eauto.
Qed.

Lemma send_inv s c t :
  inv s -> sys_clients s !! c = Some (Submitting t) -> (length (sys_mailbox s) < capacity)%nat ->
  inv (mkSys (sys_actor s) (sys_world s) (sys_mailbox s ++ [(c, t)]) (sys_results s)
         (sys_started s) (sys_done s) (<[c := Waiting t]> (sys_clients s)) (sys_log s)).
Proof.
  intros [Hcap Honce Hsub Hmine Hres Hlog Hfin] Hc Hlt. pose proof (Hsub _ _ Hc) as Hnew.
  unfold executed, queued in *. constructor; unfold executed, queued; cbn.
  - rewrite length_app; cbn; lia.
  - rewrite fmap_app, app_assoc; cbn. apply NoDup_app; split_and!; auto using NoDup_singleton.
    intros x Hx ->%list_elem_of_singleton. done.
  - intros c' t'. rewrite lookup_insert_Some. intros [[_ [=]]|[Hne Hc']].
    rewrite fmap_app, app_assoc; cbn. rewrite elem_of_app, list_elem_of_singleton.
    intros [Hin| ->]; [by eapply Hsub|done].
  - intros c' t'. rewrite elem_of_app, list_elem_of_singleton.
    intros [Hin|[= -> ->]]; rewrite lookup_insert; case_decide; subst; try done.
    + specialize (Hmine _ _ Hin). by rewrite Hc in Hmine.
    + by apply Hmine.
  - done.
  - intros c' t' err Hin. rewrite lookup_insert. case_decide; subst; [|by eapply Hlog].
    specialize (Hlog _ _ _ Hin). by rewrite Hc in Hlog.
  - intros c' t'. rewrite lookup_insert_Some. intros [[_ [=]]|[_ ?]]; eauto.
Qed.

Lemma execute_inv s c t m a w err st d :
  inv s -> sys_mailbox s = (c, t) :: m ->
  inv (mkSys a w m (<[c := err]> (sys_results s)) st d (sys_clients s) (sys_log s ++ [(c, t, err)])).
Proof.
  intros [Hcap Honce Hsub Hmine Hres Hlog Hfin] Hm.
  assert (Hsplit : forall l : list nat, (l ++ [c]) ++ (fst <$> m) = l ++ c :: (fst <$> m)).
  { intros l. by rewrite <- app_assoc. }
  pose proof (Hmine c t) as Hown. unfold executed, queued in *. rewrite Hm in *.
  constructor; unfold executed, queued; cbn; rewrite ?fmap_app; cbn; rewrite ?Hsplit; auto.
  - cbn in Hcap; lia.
  - intros c' t' Hin. apply Hmine. by apply elem_of_cons; right.
  - intros c' err'. rewrite lookup_insert_Some. intros [[-> ->]|[_ Hr]].
    + exists t. apply elem_of_app; right. by apply list_elem_of_singleton.
    + apply Hres in Hr as [t' Hr]. exists t'. apply elem_of_app; auto.
  - intros c' t' err'. rewrite elem_of_app, list_elem_of_singleton. intros [Hin|[= -> -> ->]].
    + by eapply Hlog.
    + specialize (Hown (list_elem_of_here _ _)).
      by destruct (sys_clients s !! c) as [[|t''|t'' [e|]]|].
  - intros c' t' Hc'. apply elem_of_app; eauto.
Qed.

Lemma mailbox_step_inv s s' : inv s -> step s s' -> inv s'.
Proof.
  intros Hi Hstep. destruct Hstep as [| | | | | |s c t err Hw Hr| |];
    eauto using send_inv, execute_inv.
  - destruct Hi; constructor; auto.
  - apply finish_inv; auto; done.
  - apply finish_inv; auto; done.
  - destruct Hi; constructor; auto.
  - apply finish_inv; auto. intros ->. destruct (inv_results _ Hi _ _ Hr) as [t' Hin].
    pose proof (inv_logged _ Hi _ _ _ Hin) as Ht. rewrite Hw in Ht. by subst.
  - apply finish_inv; auto; done.
  - apply finish_inv; auto; done.
Qed.

Lemma mailbox_initial_inv s : initial s -> inv s.
Proof.
  intros (Hm & Hr & Hst & Hd & Hl & Hc). constructor; unfold executed, queued; rewrite ?Hm, ?Hl, ?Hr; cbn.
  - lia.
  - constructor.
  - intros; by apply not_elem_of_nil.
  - intros c t Hin; by apply elem_of_nil in Hin.
  - done.
  - intros c t err Hin; by apply elem_of_nil in Hin.
  - intros c t Hf. by apply Hc in Hf as [? ?].
Qed.

Lemma mailbox_reachable_inv s s' : initial s -> rtc step s s' -> inv s'.
Proof. intros Hi Hr. apply mailbox_initial_inv in Hi. induction Hr; eauto using mailbox_step_inv. Qed.

End System.
Arguments mkSys {W}.

Definition start (a : Actor) (t : Transition) : sys (W := Steady) :=
  mkSys a (SteadyClock 0) [] ∅ false false {[0%nat := Submitting t]} [].

Lemma start_initial a t : initial (start a t).
Proof.
  split_and!; try done. intros c p. cbn. rewrite lookup_singleton_Some. intros [_ <-]. eauto.
Qed.

(** Claim C27. The mailbox gives every accepted command to the actor at most
    once and never holds more than its capacity; a client for which
    [Transition] returned nil had exactly its own transition executed
    successfully by the actor. *)
Theorem transition_exactly_once {W} `{ActorEnv W} capacity (s0 s : sys) :
  initial s0 -> rtc (step capacity) s0 s ->
  (length (sys_mailbox s) <= capacity)%nat /\
  NoDup (executed s ++ queued s) /\
  forall c t, sys_clients s !! c = Some (Finished t None) -> (c, t, None) ∈ sys_log s.
Proof.
  intros Hi Hr. apply (mailbox_reachable_inv capacity) in Hr; [|done]. destruct Hr; eauto.
Qed.

(** The run used by the two witnesses: one client moves a call that is being
    torn down to "terminated". *)
Definition ending_actor : Actor := mkActor (with_State sample_call StateTerminating) sample_call 4.
Definition ending_done (p : Client) : sys (W := Steady) :=
  let '(_, a, w) := publish None "created" "" StateTerminating "" "" ending_actor (SteadyClock 0) in
  let '(_, a, w) := apply None (to_state StateTerminated) a w in
  mkSys a w [] {[0%nat := None]} true true {[0%nat := p]} [(0%nat, to_state StateTerminated, None)].

Lemma ending_run :
  rtc (step 64) (start ending_actor (to_state StateTerminated))
    (ending_done (Waiting (to_state StateTerminated))).
Proof.
  eapply rtc_l; [eapply (step_send 64 _ 0 (to_state StateTerminated)); [reflexivity | cbn; lia]|].
  eapply rtc_l; [eapply (step_created 64 _ None); [reflexivity | reflexivity | vm_compute; reflexivity]|].
  eapply rtc_l; [eapply (step_execute 64 _ 0 (to_state StateTerminated) [] None);
                 [reflexivity | reflexivity | reflexivity | vm_compute; reflexivity]|].
  apply rtc_refl.
Qed.

Definition ending_finished : sys (W := Steady) :=
  set_client (ending_done (Waiting (to_state StateTerminated))) 0%nat
    (Finished (to_state StateTerminated) None).

Lemma transition_exactly_once_witness :
  (length (sys_mailbox ending_finished) <= 64)%nat /\
  NoDup (executed ending_finished ++ queued ending_finished) /\
  forall c t, sys_clients ending_finished !! c = Some (Finished t None) ->
    (c, t, None) ∈ sys_log ending_finished.
Proof.
  apply (transition_exactly_once 64 (start ending_actor (to_state StateTerminated))).
  - apply start_initial.
  - eapply rtc_r; [apply ending_run|].
    apply (step_result 64 _ 0 (to_state StateTerminated) None); reflexivity.
Defined.

(** The error of [Transition] is not the outcome of the transition:
    because the result and the closed done channel can both be ready in the
    second select, a client may be told that the actor is closed although its
    own transition to "terminated" was executed successfully. *)
Theorem transition_may_report_closed :
  exists s : sys (W := Steady),
    rtc (step 64) (start ending_actor (to_state StateTerminated)) s /\
    sys_log s = [(0%nat, to_state StateTerminated, None)] /\
    call_State (actor_call (sys_actor s)) = StateTerminated /\
    sys_clients s !! 0%nat = Some (Finished (to_state StateTerminated) (Some ErrActorClosed)).
Proof.
  exists (set_client (ending_done (Waiting (to_state StateTerminated))) 0%nat
            (Finished (to_state StateTerminated) (Some ErrActorClosed))).
  split_and!; try reflexivity.
  eapply rtc_r; [apply ending_run|].
  by apply (step_wait_closed 64 _ 0 (to_state StateTerminated)).
Qed.

End System.
