(* ===== verification/EventBus.v ===== *)
(** * The bounded event buses

    Models [internal/event/call_bus.go] and [internal/event/media_bus.go]: a
    buffered channel filled by publishers and drained by one consumer loop
    that hands every item to a writer and stops when the writer fails.  The two files are the same code over
    two item types; the bus is modelled once and instantiated for call events
    here and for media summaries in the media session's file. *)

From S2P Require Import Prelude Call.

Module Bus.
Section Bus.
Context {A W : Type}.

(** What the messages call an item: "call event" or "media summary". *)
Variable name : string.

(** The writer interface ([CallWriter], [MediaWriter]) over its own state. *)
Variable Write : Context -> A -> W -> option error * W.

Record bus := mkBus { bus_capacity : Z; bus_items : list A }.

Definition NewBus (capacity : Z) : result bus :=
  if capacity <=? 0 then Err (Errorf (name +:+ " capacity must be positive") [])
  else Ok {| bus_capacity := capacity; bus_items := [] |}.

(** The two branches of the publisher's select: the send (possible while the
    buffer has room) and the cancellation. *)
Definition send (a : A) (b : bus) : option bus :=
  if Z.of_nat (length (bus_items b)) <? bus_capacity b
  then Some {| bus_capacity := bus_capacity b; bus_items := bus_items b ++ [a] |}
  else None.

Inductive Publish (ctx : Context) (a : A) (b : bus) : option error * bus -> Prop :=
| publish_sent b' : send a b = Some b' -> Publish ctx a b (None, b')
| publish_canceled e : ctx = Some e -> Publish ctx a b (Some e, b).

(** Where the goroutine of [Run] is: at the select, in the call of the writer, or
    returned. *)
Inductive RunStatus := Running | Writing (a : A) | Stopped (err : option error).

(** The check before the loop. *)
Definition start_run (writer_present : bool) : RunStatus :=
  if writer_present then Running else Stopped (Some (Errorf (name +:+ " writer is required") [])).

(** What follows the call of the writer. *)
Definition after_write (err : option error) : RunStatus :=
  match err with
  | Some e => Stopped (Some (Errorf ("write " +:+ name) [e]))
  | None => Running
  end.

(** The next step of [Run], [None] while it is blocked and once it has returned.
    [prefer_done] is the choice of the select when both its cases are ready. *)
Definition consumer (ctx : Context) (prefer_done : bool) (st : RunStatus) (b : bus) (w : W) :
  option (RunStatus * bus * W) :=
  match st with
  | Running =>
      match bus_items b, ctx with
      | [], None => None
      | [], Some _ => Some (Stopped None, b, w)
      | a :: rest, None => Some (Writing a, mkBus (bus_capacity b) rest, w)
      | a :: rest, Some _ =>
          if prefer_done then Some (Stopped None, b, w) else Some (Writing a, mkBus (bus_capacity b) rest, w)
      end
  | Writing a => let '(err, w) := Write ctx a w in Some (after_write err, b, w)
  | Stopped _ => None
  end.

Definition Depth (b : bus) : nat := length (bus_items b).

(** Publishers and the consumer run concurrently.  Ghosts, in order: the items
    accepted, and the items the writer was called with, each with what it
    returned. *)
Record sys := mkSys {
  sys_bus : bus;
  sys_writer : W;
  sys_status : RunStatus;
  sent : list A;
  outcomes : list (A * option error);
}.

Definition called (ctx : Context) (s : sys) : list (A * option error) :=
  match sys_status s with
  | Writing a => [(a, (Write ctx a (sys_writer s)).1)]
  | _ => []
  end.

(** [ctx] is the context of [Run] at this step; each publisher has its own. *)
Inductive step (ctx : Context) : sys -> sys -> Prop :=
| step_publish publisherCtx a b' err s :
    Publish publisherCtx a (sys_bus s) (err, b') ->
    step ctx s (mkSys b' (sys_writer s) (sys_status s)
              (match err with None => sent s ++ [a] | Some _ => sent s end) (outcomes s))
| step_consumer prefer_done st b' w' s :
    consumer ctx prefer_done (sys_status s) (sys_bus s) (sys_writer s) = Some (st, b', w') ->
    step ctx s (mkSys b' w' st (sent s) (outcomes s ++ called ctx s)).

Definition any_step (s s' : sys) : Prop := exists ctx, step ctx s s'.

Definition initial (s : sys) : Prop :=
  exists capacity w b writer_present, NewBus capacity = Ok b /\ s = mkSys b w (start_run writer_present) [] [].

Definition in_hand (st : RunStatus) : list A := match st with Writing a => [a] | _ => [] end.
Definition written_ok (o : A * option error) : Prop := o.2 = None.

(** No call of the writer failed, or the last one did and [Run] returned its error. *)
Definition first_failure (log : list (A * option error)) (st : RunStatus) : Prop :=
  Forall written_ok log \/
  exists before a e, log = before ++ [(a, Some e)] /\ Forall written_ok before /\
    st = Stopped (Some (Errorf ("write " +:+ name) [e])).

Record inv (s : sys) : Prop := {
  inv_order : sent s = (outcomes s).*1 ++ in_hand (sys_status s) ++ bus_items (sys_bus s);
  inv_depth : Z.of_nat (Depth (sys_bus s)) <= bus_capacity (sys_bus s);
  inv_failure : first_failure (outcomes s) (sys_status s);
}.

Lemma consumer_inv ctx prefer_done st b' w' s : inv s ->
  consumer ctx prefer_done (sys_status s) (sys_bus s) (sys_writer s) = Some (st, b', w') ->
  inv (mkSys b' w' st (sent s) (outcomes s ++ called ctx s)).
Proof.
  intros [Ho Hd Hf] Hc. unfold called. destruct (sys_status s) as [|a|err] eqn:Es; cbn in Hc; [| |done].
  - destruct Hf as [Hf|(? & ? & ? & _ & _ & ?)]; [|done].
    destruct (bus_items (sys_bus s)) as [|a rest] eqn:Ei, ctx, prefer_done; simplify_eq; constructor; unfold Depth in *; cbn;
      rewrite ?Ei, ?app_nil_r in *; cbn in *; try done; try lia; by left.
  - destruct Hf as [Hf|(? & ? & ? & _ & _ & ?)]; [|done].
    destruct (Write ctx a (sys_writer s)) as [[e|] w1]; simplify_eq; constructor; cbn; try done;
      try (rewrite Ho, fmap_app, <- app_assoc; done).
    + right. by exists (outcomes s), a, e.
    + left. apply Forall_app. by repeat constructor.
Qed.

Lemma bus_step_inv ctx s s' : inv s -> step ctx s s' -> inv s'.
Proof.
  intros Hi Hs. destruct Hs as [publisherCtx a b' err s Hp|prefer_done st b' w' s Hc]; [|by eapply consumer_inv].
  destruct Hi as [Ho Hd Hf]. inversion Hp as [b1 Hsend|e He]; subst; [|by constructor].
  unfold send in Hsend. destruct (_ <? _) eqn:E; simplify_eq; bool_prop. constructor; unfold Depth; cbn; [|rewrite length_app; cbn; lia|done].
  by rewrite Ho, <- !app_assoc.
Qed.

Lemma bus_initial_inv s : initial s -> inv s.
Proof.
  intros (capacity & w & b & [] & Hb & ->); unfold NewBus in Hb; destruct (_ <=? _) eqn:E; simplify_eq; bool_prop;
    (constructor; unfold Depth, start_run; cbn; [done | lia | by left]).
Qed.

Lemma bus_reachable_inv s0 s : initial s0 -> rtc any_step s0 s -> inv s.
Proof.
  intros Hi%bus_initial_inv Hr. induction Hr as [|s1 s2 s3 [ctx Hs] _ IH]; eauto using bus_step_inv.
Qed.

(** Once the consumer has stopped nothing is written any more. *)
Definition stopped (s : sys) : bool := match sys_status s with Stopped _ => true | _ => false end.

Lemma stopped_step ctx s s' : step ctx s s' -> stopped s = true ->
  sys_status s' = sys_status s /\ outcomes s' = outcomes s /\ exists more, sent s' = sent s ++ more.
Proof.
  unfold stopped. intros Hs Hst. destruct Hs as [publisherCtx a b' err s Hp|prefer_done st b' w' s Hc]; cbn.
  - split_and!; [done..|]. destruct err; [exists []; by rewrite app_nil_r | by exists [a]].
  - by destruct (sys_status s).
Qed.

Lemma stopped_stable s s' : rtc any_step s s' -> stopped s = true ->
  outcomes s' = outcomes s /\ exists more, sent s' = sent s ++ more.
Proof.
  induction 1 as [s|s1 s2 s3 [ctx Hst] _ IH]; intros Hs; [split; [done|]; exists []; by rewrite app_nil_r|].
  destruct (stopped_step ctx _ _ Hst Hs) as (E & Hw & more & Hm).
  destruct IH as (Hw' & more' & Hm'); [unfold stopped in *; by rewrite E|].
  split; [congruence|]. exists (more ++ more'). by rewrite Hm', Hm, app_assoc.
Qed.

End Bus.
Arguments sys : clear implicits.
Arguments bus : clear implicits.
Arguments RunStatus : clear implicits.
End Bus.

(** ** The call event bus *)

Definition CallBus := Bus.bus Call.Event.
Definition NewCallBus : Z -> result CallBus := Bus.NewBus "call event".
Definition CallBus_Publish : Context -> Call.Event -> CallBus -> option error * CallBus -> Prop :=
  Bus.Publish.
Definition CallBus_Run {W} (WriteCallEvent : Context -> Call.Event -> W -> option error * W) :
  Context -> bool -> Bus.RunStatus Call.Event -> CallBus -> W -> option (Bus.RunStatus Call.Event * CallBus * W) :=
  Bus.consumer "call event" WriteCallEvent.
Definition CallBus_Depth : CallBus -> nat := Bus.Depth.

(** Claim C38. The call bus is a bounded queue with one consumer.  At any moment
    the accepted events are, in order, those the writer was called with, the one it
    is being called with, and those still queued, so none is dropped, duplicated or
    reordered; the queue never exceeds its capacity; at the select with an event
    queued the consumer can take the oldest one and never blocks.  A call of the
    writer that fails is the last one: [Run] has then returned that error, and every
    call before it succeeded. *)
Theorem call_bus_fifo {W} (WriteCallEvent : Context -> Call.Event -> W -> option error * W) s0 s :
  Bus.initial "call event" s0 -> rtc (Bus.any_step "call event" WriteCallEvent) s0 s ->
  Bus.sent s = (Bus.outcomes s).*1 ++ Bus.in_hand (Bus.sys_status s) ++ Bus.bus_items (Bus.sys_bus s) /\
  Z.of_nat (CallBus_Depth (Bus.sys_bus s)) <= Bus.bus_capacity (Bus.sys_bus s) /\
  (forall ctx a rest, Bus.sys_status s = Bus.Running -> Bus.bus_items (Bus.sys_bus s) = a :: rest ->
     CallBus_Run WriteCallEvent ctx false Bus.Running (Bus.sys_bus s) (Bus.sys_writer s)
     = Some (Bus.Writing a, Bus.mkBus (Bus.bus_capacity (Bus.sys_bus s)) rest, Bus.sys_writer s)) /\
  (forall before a e after, Bus.outcomes s = before ++ (a, Some e) :: after ->
     after = [] /\ Forall (fun o => o.2 = None) before /\
     Bus.sys_status s = Bus.Stopped (Some (Errorf "write call event" [e]))).
Proof.
  intros Hi Hr. destruct (Bus.bus_reachable_inv _ _ _ _ Hi Hr) as [Ho Hd Hf]. split_and!; [done|done|..].
  - intros ctx a rest _ Hi'. unfold CallBus_Run, Bus.consumer. rewrite Hi'. by destruct ctx.
  - intros before a e after E. destruct Hf as [Hf|(before' & a' & e' & E' & Hf & Hst)].
    { rewrite E in Hf. apply Forall_app in Hf as [_ Hf]. by apply Forall_cons in Hf as [? _]. }
    rewrite E' in E. destruct after as [|o after _] using rev_ind; [by apply app_inj_tail in E as [-> [= -> ->]]|].
    rewrite app_comm_cons, app_assoc in E. apply app_inj_tail in E as [-> _].
    apply Forall_app in Hf as [_ Hf]. by apply Forall_cons in Hf as [? _].
Qed.

(** A concrete run: the consumer is cancelled while the terminal event of a
    call is queued. *)
Definition terminal_event : Call.Event :=
  transition_event sample_call 2 (to_state StateTerminated) 5.
Definition accept_all : Context -> Call.Event -> unit -> option error * unit := fun _ _ u => (None, u).
Definition bus_1024 (items : list Call.Event) : CallBus := Bus.mkBus 1024 items.
Definition idle_bus : Bus.sys Call.Event unit := Bus.mkSys (bus_1024 []) tt Bus.Running [] [].
Definition cancelled_bus : Bus.sys Call.Event unit :=
  Bus.mkSys (bus_1024 [terminal_event]) tt (Bus.Stopped None) [terminal_event] [].

Lemma cancelled_bus_reachable :
  Bus.initial "call event" idle_bus /\ rtc (Bus.any_step "call event" accept_all) idle_bus cancelled_bus.
Proof.
  split; [by exists 1024, tt, (bus_1024 []), true|].
  eapply rtc_l; [exists (Some context_Canceled); by apply (Bus.step_consumer _ _ _ true (Bus.Stopped None) (bus_1024 []) tt)|].
  eapply rtc_l; [|apply rtc_refl]. exists (Some context_Canceled).
  eapply (Bus.step_publish _ accept_all _ None terminal_event (bus_1024 [terminal_event]) None).
  by constructor.
Qed.

(** Another: the writer refuses the first of two events. *)
Definition disk_full : error := Errorf "disk full" [].
Definition refuse : Context -> Call.Event -> unit -> option error * unit := fun _ _ u => (Some disk_full, u).
Definition failed_bus : Bus.sys Call.Event unit :=
  Bus.mkSys (bus_1024 [terminal_event]) tt (Bus.Stopped (Some (Errorf "write call event" [disk_full])))
    [terminal_event; terminal_event] [(terminal_event, Some disk_full)].

Lemma failed_bus_reachable : rtc (Bus.any_step "call event" refuse) idle_bus failed_bus.
Proof.
  eapply rtc_l; [exists None; by apply (Bus.step_publish _ refuse _ None terminal_event (bus_1024 [terminal_event]) None); constructor|].
  eapply rtc_l; [exists None; by apply (Bus.step_publish _ refuse _ None terminal_event (bus_1024 [terminal_event; terminal_event]) None); constructor|].
  eapply rtc_l; [exists None; by apply (Bus.step_consumer _ _ _ false (Bus.Writing terminal_event) (bus_1024 [terminal_event]) tt)|].
  eapply rtc_l; [|apply rtc_refl]. exists None.
  by apply (Bus.step_consumer _ refuse None false (Bus.Stopped (Some (Errorf "write call event" [disk_full]))) (bus_1024 [terminal_event]) tt).
Qed.

Lemma call_bus_fifo_witness :
  Bus.outcomes failed_bus = [(terminal_event, Some disk_full)] /\
  Bus.sys_status failed_bus = Bus.Stopped (Some (Errorf "write call event" [disk_full])) /\
  Z.of_nat (CallBus_Depth (Bus.sys_bus failed_bus)) <= 1024.
Proof.
  split; [reflexivity|].
  destruct (call_bus_fifo refuse _ _ (proj1 cancelled_bus_reachable) failed_bus_reachable) as (_ & Hd & _ & Hf).
  split; [|exact Hd]. destruct (Hf [] terminal_event disk_full [] eq_refl) as (_ & _ & Hs). exact Hs.
Defined.

(** Shutdown can lose terminal call events: the consumer returns nil
    on cancellation without draining, after which the bus still accepts the
    events the actors publish for their own shutdown, and no later step ever
    writes them. *)
Theorem shutdown_loses_events :
  rtc (Bus.any_step "call event" accept_all) idle_bus cancelled_bus /\
  forall s, rtc (Bus.any_step "call event" accept_all) cancelled_bus s ->
    terminal_event ∈ Bus.sent s /\ terminal_event ∉ (Bus.outcomes s).*1.
Proof.
  split; [apply cancelled_bus_reachable|]. intros s Hr.
  apply Bus.stopped_stable in Hr as (-> & more & ->); [|done]. split; [|by apply not_elem_of_nil].
  apply elem_of_app; left. by apply list_elem_of_here.
Qed.
