(* ===== verification/Registration.v ===== *)
(** * Registration policy

    Models [internal/core/registration]: bindings and their validation
    ([binding.go]) and the manager that applies lifecycle policy to a store
    ([manager.go]).  The store is an interface: its operations are the class
    [Store], what a store promises is the class [StoreLaws] over an abstract
    view (a finite map from keys to bindings).  The manager's theorems are
    proved against the laws; the in-memory store discharges them. *)

From Stdlib Require Import Floats.SpecFloat.
From S2P Require Import Prelude Netip.

(** ** [binding.go] *)

Definition ID := string.
Definition TenantID := string.
Definition AoR := string.
Definition Transport := string.

Definition TransportUDP : Transport := "udp".
Definition TransportTCP : Transport := "tcp".

Definition ErrBindingLimit : string := "registration binding limit reached".
Definition ErrNotFound : string := "registration not found".

(** A Go [float32] is an IEEE 754 binary32 value, NaN included. *)
Definition float32 := spec_float.
Definition f32_zero : float32 := S754_zero false.
Definition f32_one : float32 := S754_finite false 8388608 (-23).

Record Binding := mkBinding {
  b_ID : ID;
  b_TenantID : TenantID;
  b_AoR : AoR;
  b_Contact : string;
  b_RouteTarget : string;
  b_Transport : Transport;
  b_Received : AddrPort;
  b_UserAgent : string;
  b_Q : float32;
  b_ExpiresAt : Time;
  b_UpdatedAt : Time;
}.

Definition zeroBinding : Binding :=
  mkBinding "" "" "" "" "" "" zeroAddrPort "" f32_zero zeroTime zeroTime.

Definition Validate (b : Binding) (now : Time) : result () :=
  _ ← guard_err (String.eqb (b_ID b) "") "registration ID is required";
  _ ← guard_err (String.eqb (b_TenantID b) "") "tenant ID is required";
  _ ← guard_err (String.eqb (b_AoR b) "") "address of record is required";
  _ ← guard_err (String.eqb (b_Contact b) "") "contact is required";
  _ ← guard_err (String.eqb (b_RouteTarget b) "") "route target is required";
  _ ← guard_err (negb (String.eqb (b_Transport b) TransportUDP)
                 && negb (String.eqb (b_Transport b) TransportTCP)) "unsupported transport";
  _ ← guard_err (negb (AddrPort_IsValid (b_Received b))) "received address is required";
  _ ← guard_err (SFltb (b_Q b) f32_zero || SFltb f32_one (b_Q b)) "q value must be between 0 and 1";
  _ ← guard_err (negb (After (b_ExpiresAt b) now)) "expiration must be in the future";
  guard_err (IsZero (b_UpdatedAt b)) "updated time is required".

Lemma validate_err_plain b now e : Validate b now = Err e -> plain_error e.
Proof. unfold Validate. revert e. repeat (intros e; eapply guard_bind_plain; clear e). apply guard_err_plain. Qed.

(** ** The store interface *)

Class Store (S : Type) := {
  Upsert : Context -> Binding -> Z -> S -> option error * S;
  Delete : Context -> TenantID -> AoR -> string -> S -> option error * S;
  DeleteAll : Context -> TenantID -> AoR -> S -> option error * S;
  ListActive : Context -> TenantID -> AoR -> Time -> S -> result (list Binding);
  DeleteExpired : Context -> Time -> S -> result Z * S;
}.

(** ** [manager.go] *)

Record Request := mkRequest {
  r_TenantID : TenantID;
  r_AoR : AoR;
  r_Contact : string;
  r_RouteTarget : string;
  r_Transport : Transport;
  r_Received : AddrPort;
  r_UserAgent : string;
  r_Q : float32;
  r_Expires : Duration;
  r_MaxBindings : Z;
}.

(** The comparison function of [Resolve]: higher q first, then the most
    recently updated. *)
Definition preferred (left right : Binding) : Z :=
  if SFltb (b_Q right) (b_Q left) then -1
  else if SFltb (b_Q left) (b_Q right) then 1
  else time_Compare (b_UpdatedAt right) (b_UpdatedAt left).

(** [NewManager]'s checks; store and clock are pointers that may be nil. *)
Definition NewManager (store_present clock_present : bool) : result () :=
  _ ← guard_err (negb store_present) "registration store is required";
  guard_err (negb clock_present) "clock is required".

Section Manager.
Context {S : Type} `{Store S}.

(** [newV7] is the result of [uuid.NewV7], [now] of the manager's clock. *)
Definition Apply (newV7 : result string) (ctx : Context) (now : Time) (request : Request) (s : S)
    : result Binding * S :=
  if r_Expires request <? 0 then (Err (Errorf "expiration must not be negative" []), s)
  else if r_Expires request =? 0 then
    let '(err, s) :=
      if String.eqb (r_Contact request) "*"
      then DeleteAll ctx (r_TenantID request) (r_AoR request) s
      else Delete ctx (r_TenantID request) (r_AoR request) (r_Contact request) s in
    match err with
    | Some e => (Err e, s)
    | None => (Ok zeroBinding, s)
    end
  else if r_MaxBindings request <=? 0 then (Err (Errorf "max bindings must be positive" []), s)
  else if negb (AddrPort_IsValid (r_Received request)) then
    (Err (Errorf "received address is required" []), s)
  else match newV7 with
  | Err e => (Err (Errorf "generate registration ID" [e]), s)
  | Ok id =>
      let binding :=
        {| b_ID := id; b_TenantID := r_TenantID request; b_AoR := r_AoR request;
           b_Contact := r_Contact request; b_RouteTarget := r_RouteTarget request;
           b_Transport := r_Transport request; b_Received := r_Received request;
           b_UserAgent := r_UserAgent request; b_Q := r_Q request;
           b_ExpiresAt := time_Add now (r_Expires request); b_UpdatedAt := now |} in
      match Validate binding now with
      | Err e => (Err (Errorf "validate registration" [e]), s)
      | Ok _ =>
          match Upsert ctx binding (r_MaxBindings request) s with
          | (Some e, s) => (Err (Errorf "upsert registration" [e]), s)
          | (None, s) => (Ok binding, s)
          end
      end
  end.

Definition List (ctx : Context) (now : Time) (tenantID : TenantID) (aor : AoR) (s : S)
    : result (list Binding) :=
  wrap_err "list active registrations" (ListActive ctx tenantID aor now s).

(** [sort cmp] is [slices.SortFunc] for the comparison [cmp]. *)
Definition Resolve (sort : (Binding -> Binding -> Z) -> list Binding -> list Binding)
    (ctx : Context) (now : Time) (tenantID : TenantID) (aor : AoR) (s : S) : result Binding :=
  bindings ← wrap_err "list active registrations" (List ctx now tenantID aor s);
  match bindings with
  | [] => Err (Sentinel ErrNotFound)
  | b :: _ => Ok (hd b (sort preferred bindings))
  end.

Definition Expire (ctx : Context) (now : Time) (s : S) : result Z * S :=
  let '(r, s) := DeleteExpired ctx now s in
  (wrap_err "delete expired registrations" r, s).

Definition IsBindingLimit (err : option error) : bool := errors_Is_opt err ErrBindingLimit.

End Manager.

(** ** What a store promises *)

Definition bindingKey : Type := TenantID * AoR * string.
Definition key_of (b : Binding) : bindingKey := (b_TenantID b, b_AoR b, b_Contact b).

Definition belongs (tenantID : TenantID) (aor : AoR) (kb : bindingKey * Binding) : Prop :=
  kb.1.1 = (tenantID, aor).
Definition live (now : Time) (kb : bindingKey * Binding) : Prop := now < b_ExpiresAt kb.2.

#[export] Instance belongs_dec t a kb : Decision (belongs t a kb).
Proof. unfold belongs. apply _. Defined.
#[export] Instance live_dec now kb : Decision (live now kb).
Proof. unfold live. apply _. Defined.

(** The active bindings of one address of record in a view. *)
Definition active (tenantID : TenantID) (aor : AoR) (now : Time) (m : gmap bindingKey Binding)
    : gmap bindingKey Binding :=
  filter (fun kb => belongs tenantID aor kb /\ live now kb) m.

Class StoreLaws (S : Type) `{Store S} := {
  view : S -> gmap bindingKey Binding;
  (** an operation that reports an error changes nothing *)
  upsert_err ctx b n s e s' : Upsert ctx b n s = (Some e, s') -> view s' = view s;
  delete_err ctx t a c s e s' : Delete ctx t a c s = (Some e, s') -> view s' = view s;
  deleteAll_err ctx t a s e s' : DeleteAll ctx t a s = (Some e, s') -> view s' = view s;
  deleteExpired_err ctx now s e s' : DeleteExpired ctx now s = (Err e, s') -> view s' = view s;
  (** a stored binding replaces the one with its key; a new key needs room *)
  upsert_ok ctx b n s s' : Upsert ctx b n s = (None, s') ->
    view s' = <[key_of b := b]> (view s) /\
    (view s !! key_of b = None ->
       Z.of_nat (size (active (b_TenantID b) (b_AoR b) (b_UpdatedAt b) (view s))) < n);
  (** the limit error is reported only for a full address of record *)
  upsert_limit ctx b n s e s' : errors_Is_opt ctx ErrBindingLimit = false ->
    Upsert ctx b n s = (Some e, s') -> errors_Is e ErrBindingLimit = true ->
    n <= Z.of_nat (size (active (b_TenantID b) (b_AoR b) (b_UpdatedAt b) (view s)));
  delete_ok ctx t a c s s' : Delete ctx t a c s = (None, s') ->
    view s' = base.delete (t, a, c) (view s);
  deleteAll_ok ctx t a s s' : DeleteAll ctx t a s = (None, s') ->
    view s' = filter (fun kb => ~ belongs t a kb) (view s);
  listActive_ok ctx t a now s l : ListActive ctx t a now s = Ok l ->
    l ≡ₚ (map_to_list (active t a now (view s))).*2;
  deleteExpired_ok ctx now s n s' : DeleteExpired ctx now s = (Ok n, s') ->
    view s' = filter (live now) (view s) /\
    n = Z.of_nat (size (view s)) - Z.of_nat (size (view s'));
}.

(** ** The order of [Resolve] *)

(** A q value that is neither NaN nor negative nor infinite. *)
Definition q_ok (q : float32) : bool :=
  match q with S754_zero _ | S754_finite false _ _ => true | _ => false end.

(** The position of such a value in the float order, lexicographically. *)
Definition q_rank (q : float32) : Z * Z * Z :=
  match q with S754_finite _ m e => (1, e, Z.pos m) | _ => (0, 0, 0) end.

Definition rank_lt (x y : Z * Z * Z) : Prop :=
  let '(a, b, c) := x in let '(a', b', c') := y in
  a < a' \/ (a = a' /\ (b < b' \/ (b = b' /\ c < c'))).

(** [left] is strictly preferred to [right]. *)
Definition better (left right : Binding) : Prop :=
  rank_lt (q_rank (b_Q right)) (q_rank (b_Q left)) \/
  (q_rank (b_Q left) = q_rank (b_Q right) /\ b_UpdatedAt right < b_UpdatedAt left).

Lemma SFltb_rank x y :
  q_ok x = true -> q_ok y = true -> SFltb x y = true <-> rank_lt (q_rank x) (q_rank y).
Proof.
  destruct x as [sx|sx| |[] m e], y as [sy|sy| |[] m' e']; try done; intros _ _;
    unfold SFltb, SFcompare, q_rank, rank_lt; try (split; [done | lia]); try (split; [lia | done]).
  change (Pos.compare_cont Eq m m') with (Pos.compare m m').
  destruct (Z.compare_spec e e'), (Pos.compare_spec m m'); split; try done; lia.
Qed.

Lemma preferred_better x y :
  q_ok (b_Q x) = true -> q_ok (b_Q y) = true -> preferred x y < 0 <-> better x y.
Proof.
  intros Hx Hy. unfold preferred, better, time_Compare.
  pose proof (SFltb_rank _ _ Hx Hy) as Hxy. pose proof (SFltb_rank _ _ Hy Hx) as Hyx.
  destruct (q_rank (b_Q x)) as [[a b] c], (q_rank (b_Q y)) as [[a' b'] c']; cbn in *.
  destruct (SFltb (b_Q y) (b_Q x)); [split; [intros _; left; by apply Hyx | lia]|].
  destruct (SFltb (b_Q x) (b_Q y)).
  { assert (Hlt := proj1 Hxy eq_refl). split; [lia|]. intros [H|[[= -> -> ->] _]]; lia. }
  assert (Hn : ~ (a < a' \/ a = a' /\ (b < b' \/ b = b' /\ c < c'))) by (intros H; by apply Hxy in H).
  assert (Hm : ~ (a' < a \/ a' = a /\ (b' < b \/ b' = b /\ c' < c))) by (intros H; by apply Hyx in H).
  assert (a = a' /\ b = b' /\ c = c') as (-> & -> & ->) by lia.
  destruct (Z.compare_spec (b_UpdatedAt y) (b_UpdatedAt x)); split; try lia; auto.
Qed.

(** ** [slices.SortFunc]

    The documented contract: the result is a permutation of the slice, and it
    is in ascending order when the comparison is a strict weak order on its
    elements. *)
Definition strict_weak {A} (cmp : A -> A -> Z) (l : list A) : Prop :=
  (forall x, x ∈ l -> ~ cmp x x < 0) /\
  (forall x y z, x ∈ l -> y ∈ l -> z ∈ l -> cmp x y < 0 -> cmp y z < 0 -> cmp x z < 0) /\
  (forall x y z, x ∈ l -> y ∈ l -> z ∈ l ->
     ~ cmp x y < 0 -> ~ cmp y z < 0 -> ~ cmp x z < 0).

Definition SortFunc_spec {A} (sort : (A -> A -> Z) -> list A -> list A) : Prop :=
  forall cmp l, sort cmp l ≡ₚ l /\
    (strict_weak cmp l -> StronglySorted (fun x y => ~ cmp y x < 0) (sort cmp l)).

Lemma preferred_strict_weak l :
  Forall (fun b => q_ok (b_Q b) = true) l -> strict_weak preferred l.
Proof.
  rewrite Forall_forall. intros Hq. split_and!.
  - intros x Hx. rewrite preferred_better by auto. unfold better, rank_lt.
    destruct (q_rank (b_Q x)) as [[a b] c]. lia.
  - intros x y z Hx Hy Hz. rewrite !preferred_better by auto. unfold better, rank_lt.
    destruct (q_rank (b_Q x)) as [[a b] c], (q_rank (b_Q y)) as [[a' b'] c'],
      (q_rank (b_Q z)) as [[a'' b''] c''].
    intros [?|[[= -> -> ->] ?]] [?|[[= <- <- <-] ?]]; try (left; lia). right; split; auto; lia.
  - intros x y z Hx Hy Hz. rewrite !preferred_better by auto. unfold better, rank_lt.
    destruct (q_rank (b_Q x)) as [[a b] c], (q_rank (b_Q y)) as [[a' b'] c'],
      (q_rank (b_Q z)) as [[a'' b''] c''].
    intros Hxy Hyz [Hxz|[[= -> -> ->] Hxz]].
    + apply Hyz.
      destruct (decide (a'' = a' /\ b'' = b' /\ c'' = c')) as [(-> & -> & ->)|].
      * exfalso. apply Hxy. left. lia.
      * left. assert (~ (a' < a \/ a' = a /\ (b' < b \/ b' = b /\ c' < c))) by tauto. lia.
    + assert (~ (a' < a'' \/ a' = a'' /\ (b' < b'' \/ b' = b'' /\ c' < c''))) by tauto.
      assert (~ (a'' < a' \/ a'' = a' /\ (b'' < b' \/ b'' = b' /\ c'' < c'))) by tauto.
      assert (a' = a'' /\ b' = b'' /\ c' = c'') as (-> & -> & ->) by lia.
      assert (b_UpdatedAt y <= b_UpdatedAt z) by (apply Z.nlt_ge; intros ?; apply Hyz; auto).
      apply Hxy. right; split; auto; lia.
Qed.

(** Go's insertion sort, the algorithm [slices.SortFunc] uses for up to twelve
    elements; [insert_back] moves an element left past the elements of the
    reversed sorted prefix it compares below. *)
Fixpoint insert_back {A} (cmp : A -> A -> Z) (x : A) (rprefix : list A) : list A :=
  match rprefix with
  | [] => [x]
  | y :: r => if cmp x y <? 0 then y :: insert_back cmp x r else x :: rprefix
  end.
Definition insertionSort {A} (cmp : A -> A -> Z) (l : list A) : list A :=
  reverse (foldl (fun acc x => insert_back cmp x acc) [] l).

Lemma insert_back_perm {A} cmp (x : A) l : insert_back cmp x l ≡ₚ x :: l.
Proof.
  induction l as [|y l IH]; cbn; [done|]. destruct (_ <? _); [|done]. rewrite IH. apply perm_swap.
Qed.

Lemma insertionSort_foldl_perm {A} cmp (l acc : list A) :
  foldl (fun acc x => insert_back cmp x acc) acc l ≡ₚ acc ++ l.
Proof.
  revert acc; induction l as [|x l IH]; intros acc; cbn; [by rewrite app_nil_r|].
  rewrite IH, insert_back_perm; cbn. apply Permutation_middle.
Qed.

Lemma insert_back_sorted {A} (cmp : A -> A -> Z) x l :
  strict_weak cmp (x :: l) ->
  StronglySorted (fun x y => ~ cmp x y < 0) l ->
  StronglySorted (fun x y => ~ cmp x y < 0) (insert_back cmp x l).
Proof.
  induction l as [|y l IH]; intros (Hirr & Htr & Hneg) Hs; cbn; [repeat constructor|].
  apply StronglySorted_inv in Hs as [Hs Hy]. rewrite Forall_forall in Hy.
  assert (Hin : forall z, z ∈ l -> z ∈ x :: y :: l) by (intros; by do 2 apply list_elem_of_further).
  assert (Hx0 : x ∈ x :: y :: l) by apply list_elem_of_here.
  assert (Hy0 : y ∈ x :: y :: l) by (apply list_elem_of_further, list_elem_of_here).
  destruct (Z.ltb_spec (cmp x y) 0) as [Hlt|Hge].
  - constructor.
    + apply IH; [|done].
      assert (Hsub : forall z, z ∈ x :: l -> z ∈ x :: y :: l)
        by (intros z; rewrite !elem_of_cons; tauto).
      split_and!; [by auto | intros a b c ???; apply (Htr a b c); auto
                  | intros a b c ???; apply (Hneg a b c); auto].
    + apply Forall_forall. intros z. rewrite insert_back_perm, elem_of_cons. intros [->|Hz].
      * intros Hyx. apply (Hirr y Hy0). by eapply (Htr y x y).
      * by apply Hy.
  - repeat constructor; auto; [by apply Forall_forall|lia|].
    apply Forall_forall. intros z Hz. eapply (Hneg x y z); auto. lia.
Qed.

Lemma strict_weak_perm {A} (cmp : A -> A -> Z) l l' : l ≡ₚ l' -> strict_weak cmp l -> strict_weak cmp l'.
Proof. intros Hp. unfold strict_weak. by setoid_rewrite Hp. Qed.

Lemma strict_weak_app_l {A} (cmp : A -> A -> Z) l k : strict_weak cmp (l ++ k) -> strict_weak cmp l.
Proof.
  assert (Hin : forall z, z ∈ l -> z ∈ l ++ k) by (intros; apply elem_of_app; auto).
  intros (Hirr & Htr & Hneg).
  split_and!; [by auto | intros a b c ???; apply (Htr a b c); auto
              | intros a b c ???; apply (Hneg a b c); auto].
Qed.

Lemma insertionSort_foldl_sorted {A} (cmp : A -> A -> Z) l : forall acc,
  strict_weak cmp (acc ++ l) -> StronglySorted (fun x y => ~ cmp x y < 0) acc ->
  StronglySorted (fun x y => ~ cmp x y < 0) (foldl (fun acc x => insert_back cmp x acc) acc l).
Proof.
  induction l as [|x l IH]; intros acc Hw Hs; cbn; [done|].
  apply IH.
  - eapply strict_weak_perm; [|exact Hw]. rewrite insert_back_perm; cbn.
    symmetry. apply Permutation_middle.
  - apply insert_back_sorted; [|done]. eapply strict_weak_app_l.
    eapply strict_weak_perm; [|exact Hw]. symmetry; apply Permutation_middle.
Qed.

Lemma StronglySorted_reverse {A} (R : A -> A -> Prop) l :
  StronglySorted R l -> StronglySorted (fun x y => R y x) (reverse l).
Proof.
  induction 1 as [|x l Hs IH Hx]; [constructor|]. rewrite reverse_cons.
  revert IH Hx. rewrite <- (reverse_involutive l) at 2. generalize (reverse l). intros k Hk Hx.
  rewrite Forall_reverse in Hx. induction Hk as [|y k Hk IHk Hy]; cbn; [repeat constructor|].
  apply Forall_cons in Hx as [Hxy Hx]. constructor; [auto|]. apply Forall_app; auto.
Qed.

Lemma insertionSort_spec A : SortFunc_spec (@insertionSort A).
Proof.
  intros cmp l. unfold insertionSort. split.
  - by rewrite reverse_Permutation, insertionSort_foldl_perm.
  - intros Hw. apply (StronglySorted_reverse (fun x y => ~ cmp x y < 0)).
    apply insertionSort_foldl_sorted; [done|constructor].
Qed.

(** ** Views *)

Definition well_keyed (m : gmap bindingKey Binding) : Prop :=
  forall k b, m !! k = Some b -> key_of b = k.

Lemma active_lookup t a now m k b :
  active t a now m !! k = Some b <-> m !! k = Some b /\ k.1 = (t, a) /\ now < b_ExpiresAt b.
Proof. unfold active. rewrite map_lookup_filter_Some. unfold belongs, live. cbn. tauto. Qed.

(** The active bindings of an address of record ignore the others. *)
Lemma active_insert_other t a now m k b :
  k.1 <> (t, a) -> active t a now (<[k := b]> m) = active t a now m.
Proof.
  intros Hne. apply map_eq. intros k'. apply option_eq. intros b'. rewrite !active_lookup.
  rewrite lookup_insert_Some. split; [intros ([[<- <-]|[? ?]] & Hk & ?) | intros (? & Hk & ?)].
  - done.
  - done.
  - split_and!; auto. right. split; [congruence|done].
Qed.

Lemma active_insert_size t a now m k b :
  Z.of_nat (size (active t a now (<[k := b]> m))) <= Z.of_nat (size (active t a now m)) + 1.
Proof.
  assert (Hsub : active t a now (<[k := b]> m) ⊆ <[k := b]> (active t a now m)).
  { apply map_subseteq_spec. intros k' b'. rewrite active_lookup, !lookup_insert_Some, active_lookup.
    tauto. }
  etransitivity; [apply Nat2Z.inj_le, map_subseteq_size, Hsub|].
  destruct (active t a now m !! k) as [x|] eqn:E.
  - erewrite map_size_insert_Some by done. lia.
  - rewrite map_size_insert_None by done. lia.
Qed.

Section ManagerTheory.
Context {S : Type} `{StoreLaws S}.
Implicit Types s : S.

(** What [List] returns, in terms of the view. *)
Lemma list_elem ctx now t a s l b :
  List ctx now t a s = Ok l ->
  b ∈ l <-> exists k, view s !! k = Some b /\ k.1 = (t, a) /\ now < b_ExpiresAt b.
Proof.
  unfold List. destruct (ListActive _ _ _ _ _) as [l'|] eqn:E; [|done]. intros [= <-].
  rewrite (listActive_ok _ _ _ _ _ _ E). rewrite list_elem_of_fmap. split.
  - intros ([k b'] & -> & Hin%elem_of_map_to_list). exists k. by apply active_lookup in Hin.
  - intros (k & Hk). exists (k, b). split; [done|]. apply elem_of_map_to_list. by apply active_lookup.
Qed.

(** The outcomes of [Apply] on a request that is not a removal. *)
Lemma apply_register_ok id ctx now req s b s' :
  0 < r_Expires req -> Apply id ctx now req s = (Ok b, s') ->
  Upsert ctx b (r_MaxBindings req) s = (None, s') /\ Validate b now = Ok () /\
  key_of b = (r_TenantID req, r_AoR req, r_Contact req) /\
  b_ExpiresAt b = now + r_Expires req /\ b_UpdatedAt b = now.
Proof.
  unfold Apply. intros Hpos.
  destruct (Z.ltb_spec (r_Expires req) 0), (Z.eqb_spec (r_Expires req) 0); try lia.
  intros Heq. repeat case_any; simplify_eq. destruct a0. by split_and!.
Qed.

Lemma insert_well_keyed m b : well_keyed m -> well_keyed (<[key_of b := b]> m).
Proof. intros Hwk k b'. rewrite lookup_insert_Some. intros [[<- <-]|[_ ?]]; auto. Qed.

Lemma register_well_keyed id ctx now req s b s' :
  well_keyed (view s) -> 0 < r_Expires req -> Apply id ctx now req s = (Ok b, s') ->
  well_keyed (view s').
Proof.
  intros Hwk Hpos Happ. destruct (apply_register_ok _ _ _ _ _ _ _ Hpos Happ) as (Hup & _).
  destruct (upsert_ok _ _ _ _ _ Hup) as [-> _]. by apply insert_well_keyed.
Qed.

End ManagerTheory.
