(* ===== verification/MemoryStore.v ===== *)
(** * The in-memory stores

    Models [internal/platform/memory]: the registration store (an instance of
    the registration policy's [Store], with the proof that it keeps the
    store's laws) and the credential store. *)

From S2P Require Import Prelude Netip Registration.

Section RegistrationStore.

(** Go's map iteration order is unspecified: [range] is any enumeration of the
    map's entries. *)
Variable range : gmap bindingKey Binding -> list (bindingKey * Binding).

Record RegistrationStore := mkStore { bindings : gmap bindingKey Binding }.

Definition NewRegistrationStore : RegistrationStore := mkStore ∅.

(** The test of the counting loop in [Upsert] and of [ListActive]. *)
Definition counted (tenantID : TenantID) (aor : AoR) (now : Time) (kb : bindingKey * Binding) : bool :=
  String.eqb kb.1.1.1 tenantID && String.eqb kb.1.1.2 aor && After (b_ExpiresAt kb.2) now.

Definition memory_Upsert (ctx : Context) (binding : Binding) (maxBindings : Z)
    (s : RegistrationStore) : option error * RegistrationStore :=
  match ctx with
  | Some err => (Some err, s)
  | None =>
      let key := (b_TenantID binding, b_AoR binding, b_Contact binding) in
      let store := (None, mkStore (<[key := binding]> (bindings s))) in
      match bindings s !! key with
      | Some _ => store
      | None =>
          let activeCount :=
            foldl (fun n kb => if counted (b_TenantID binding) (b_AoR binding) (b_UpdatedAt binding) kb
                               then n + 1 else n) 0 (range (bindings s)) in
          if maxBindings <=? activeCount then (Some (Sentinel ErrBindingLimit), s) else store
      end
  end.

Definition memory_Delete (ctx : Context) (tenantID : TenantID) (aor : AoR) (contact : string)
    (s : RegistrationStore) : option error * RegistrationStore :=
  match ctx with
  | Some err => (Some err, s)
  | None => (None, mkStore (base.delete (tenantID, aor, contact) (bindings s)))
  end.

(** Deleting during iteration: every entry is visited, those of the address
    of record are removed. *)
Definition memory_DeleteAll (ctx : Context) (tenantID : TenantID) (aor : AoR)
    (s : RegistrationStore) : option error * RegistrationStore :=
  match ctx with
  | Some err => (Some err, s)
  | None =>
      (None, mkStore (foldl (fun m kb =>
         if String.eqb kb.1.1.1 tenantID && String.eqb kb.1.1.2 aor then base.delete kb.1 m else m)
         (bindings s) (range (bindings s))))
  end.

Definition memory_ListActive (ctx : Context) (tenantID : TenantID) (aor : AoR) (now : Time)
    (s : RegistrationStore) : result (list Binding) :=
  match ctx with
  | Some err => Err err
  | None => Ok (foldl (fun acc kb => if counted tenantID aor now kb then acc ++ [kb.2] else acc) []
                  (range (bindings s)))
  end.

Definition memory_DeleteExpired (ctx : Context) (now : Time) (s : RegistrationStore)
    : result Z * RegistrationStore :=
  match ctx with
  | Some err => (Err err, s)
  | None =>
      let '(m, deleted) :=
        foldl (fun '(m, n) kb => if negb (After (b_ExpiresAt kb.2) now)
                                 then (base.delete kb.1 m, n + 1) else (m, n))
          (bindings s, 0) (range (bindings s)) in
      (Ok deleted, mkStore m)
  end.

#[export] Instance memory_store : Store RegistrationStore := {
  Upsert := memory_Upsert;
  Delete := memory_Delete;
  DeleteAll := memory_DeleteAll;
  ListActive := memory_ListActive;
  DeleteExpired := memory_DeleteExpired;
}.

(** ** The loops as filters *)

Hypothesis range_perm : forall m, range m ≡ₚ map_to_list m.

Lemma counted_spec t a now kb :
  counted t a now kb = bool_decide (belongs t a kb /\ live now kb).
Proof.
  destruct kb as [[[t' a'] c'] b]. unfold counted, belongs, live, After; cbn.
  destruct (String.eqb_spec t' t), (String.eqb_spec a' a), (Z.ltb_spec now (b_ExpiresAt b));
    cbn; symmetry; first [apply bool_decide_eq_true_2 | apply bool_decide_eq_false_2];
    intuition (congruence || lia).
Qed.

Lemma foldl_count (P : bindingKey * Binding -> Prop) `{!forall x, Decision (P x)} f l n :
  (forall kb, f kb = bool_decide (P kb)) ->
  foldl (fun n kb => if f kb then n + 1 else n) n l = n + Z.of_nat (length (filter P l)).
Proof.
  intros Hf. revert n. induction l as [|kb l IH]; intros n; [cbn; lia|].
  rewrite filter_cons; cbn [foldl]. rewrite IH, Hf.
  case_bool_decide; case_decide; try done; csimpl; lia.
Qed.

Lemma foldl_collect (P : bindingKey * Binding -> Prop) `{!forall x, Decision (P x)} f l acc :
  (forall kb, f kb = bool_decide (P kb)) ->
  foldl (fun acc kb => if f kb then acc ++ [kb.2] else acc) acc l = acc ++ (filter P l).*2.
Proof.
  intros Hf. revert acc. induction l as [|kb l IH]; intros acc; [by rewrite app_nil_r|].
  rewrite filter_cons; cbn [foldl]. rewrite IH, Hf.
  case_bool_decide; case_decide; try done. by rewrite <- app_assoc.
Qed.

(** Enumerating a map and filtering is enumerating the filtered map. *)
Lemma filter_range (P : bindingKey * Binding -> Prop) `{!forall x, Decision (P x)} m :
  filter P (range m) ≡ₚ map_to_list (filter P m).
Proof.
  rewrite range_perm. apply NoDup_Permutation.
  - apply NoDup_filter, NoDup_map_to_list.
  - apply NoDup_map_to_list.
  - intros [k b]. rewrite list_elem_of_filter, !elem_of_map_to_list, map_lookup_filter_Some. tauto.
Qed.

(** Deleting the entries that satisfy [P] while iterating. *)
Lemma foldl_delete_lookup (P : bindingKey * Binding -> Prop) `{!forall x, Decision (P x)} f l :
  (forall kb, f kb = bool_decide (P kb)) -> forall (m : gmap bindingKey Binding) k,
  foldl (fun m kb => if f kb then base.delete kb.1 m else m) m l !! k =
    if decide (Exists (fun kb => kb.1 = k /\ P kb) l) then None else m !! k.
Proof.
  intros Hf. induction l as [|kb l IH]; intros m k; cbn.
  { case_decide as E; [by apply Exists_nil in E|done]. }
  rewrite IH, Hf.
  destruct (decide (Exists _ l)) as [E|E], (decide (Exists _ (kb :: l))) as [E'|E'];
    rewrite Exists_cons in E'; try done; try tauto;
    case_bool_decide; rewrite ?lookup_delete; try case_decide; try done; tauto.
Qed.

Lemma foldl_delete_filter (P : bindingKey * Binding -> Prop) `{!forall x, Decision (P x)} f m :
  (forall kb, f kb = bool_decide (P kb)) ->
  foldl (fun m kb => if f kb then base.delete kb.1 m else m) m (range m) = filter (fun kb => ~ P kb) m.
Proof.
  intros Hf. apply map_eq. intros k. rewrite (foldl_delete_lookup P f) by done.
  apply option_eq. intros b. rewrite map_lookup_filter_Some.
  assert (Hex : Exists (fun kb => kb.1 = k /\ P kb) (range m) <-> exists b, m !! k = Some b /\ P (k, b)).
  { rewrite Exists_exists. setoid_rewrite range_perm. setoid_rewrite elem_of_map_to_list'.
    split; [intros ([k' b'] & Hin & <- & HP); eauto | intros (b' & Hin & HP)].
    by exists (k, b'). }
  case_decide as E; rewrite Hex in E.
  - destruct E as (b' & Hb' & HP). rewrite Hb'. naive_solver.
  - naive_solver.
Qed.

Lemma foldl_delete_count (f : bindingKey * Binding -> bool) (l : list (bindingKey * Binding)) (m : gmap bindingKey Binding) n :
  foldl (fun '(m, n) kb => if f kb then (base.delete kb.1 m, n + 1) else (m, n)) (m, n) l =
  (foldl (fun m kb => if f kb then base.delete kb.1 m else m) m l,
   foldl (fun n kb => if f kb then n + 1 else n) n l).
Proof.
  revert m n. induction l as [|kb l IH]; intros m n; cbn; [done|]. destruct (f kb); apply IH.
Qed.

Lemma expired_spec now kb : negb (After (b_ExpiresAt kb.2) now) = bool_decide (~ live now kb).
Proof.
  unfold After, live. destruct (Z.ltb_spec now (b_ExpiresAt kb.2)); cbn; symmetry;
    [apply bool_decide_eq_false_2 | apply bool_decide_eq_true_2]; lia.
Qed.

Lemma belongs_spec t a (kb : bindingKey * Binding) :
  String.eqb kb.1.1.1 t && String.eqb kb.1.1.2 a = bool_decide (belongs t a kb).
Proof.
  destruct kb as [[[t' a'] c'] b]. unfold belongs; cbn.
  destruct (String.eqb_spec t' t), (String.eqb_spec a' a); cbn; symmetry;
    first [apply bool_decide_eq_true_2 | apply bool_decide_eq_false_2]; congruence.
Qed.

Lemma active_count t a now m :
  foldl (fun n kb => if counted t a now kb then n + 1 else n) 0 (range m)
  = Z.of_nat (size (active t a now m)).
Proof.
  rewrite (foldl_count _ _ _ _ (counted_spec t a now)), filter_range.
  unfold active. rewrite length_map_to_list. done.
Qed.

Lemma size_range m : Z.of_nat (length (range m)) = Z.of_nat (size m).
Proof. by rewrite range_perm, length_map_to_list. Qed.

(** ** The laws of the registration policy *)

Lemma memory_upsert_cases ctx b n s err s' :
  memory_Upsert ctx b n s = (err, s') ->
  (exists e, ctx = Some e /\ err = Some e /\ s' = s) \/
  (ctx = None /\
   ((err = None /\ bindings s' = <[key_of b := b]> (bindings s) /\
     (bindings s !! key_of b = None ->
        Z.of_nat (size (active (b_TenantID b) (b_AoR b) (b_UpdatedAt b) (bindings s))) < n)) \/
    (err = Some (Sentinel ErrBindingLimit) /\ s' = s /\
     n <= Z.of_nat (size (active (b_TenantID b) (b_AoR b) (b_UpdatedAt b) (bindings s)))))).
Proof.
  unfold memory_Upsert, key_of. rewrite active_count. destruct ctx as [e|].
  { intros; simplify_eq. eauto. }
  intros Heq. right; split; [done|]. destruct (bindings s !! _); [left; by simplify_eq|].
  destruct (Z.leb_spec n (Z.of_nat (size (active (b_TenantID b) (b_AoR b) (b_UpdatedAt b) (bindings s)))));
    simplify_eq; auto.
Qed.

Lemma memory_upsert_full b n s :
  bindings s !! key_of b = None ->
  n <= Z.of_nat (size (active (b_TenantID b) (b_AoR b) (b_UpdatedAt b) (bindings s))) ->
  memory_Upsert None b n s = (Some (Sentinel ErrBindingLimit), s).
Proof.
  unfold memory_Upsert, key_of. rewrite active_count. intros Hnone Hn. cbv zeta.
  destruct (bindings s !! _); [done|]. by rewrite (proj2 (Z.leb_le _ _) Hn).
Qed.

Lemma memory_listActive_ok ctx t a now s l :
  memory_ListActive ctx t a now s = Ok l -> l ≡ₚ (map_to_list (active t a now (bindings s))).*2.
Proof.
  unfold memory_ListActive. destruct ctx; [done|]. intros [= <-].
  rewrite (foldl_collect _ _ _ _ (counted_spec t a now)); cbn.
  unfold active. by rewrite filter_range.
Qed.

Lemma memory_deleteExpired_ok ctx now s n s' :
  memory_DeleteExpired ctx now s = (Ok n, s') ->
  bindings s' = filter (live now) (bindings s) /\
  n = Z.of_nat (size (bindings s)) - Z.of_nat (size (bindings s')).
Proof.
  unfold memory_DeleteExpired. destruct ctx; [done|].
  rewrite foldl_delete_count. intros; simplify_eq; cbn.
  rewrite (foldl_delete_filter _ _ _ (expired_spec now)).
  rewrite (foldl_count _ _ _ _ (expired_spec now)), filter_range, length_map_to_list.
  assert (Hf : filter (fun kb => ~ ~ live now kb) (bindings s) = filter (live now) (bindings s)).
  { apply map_filter_ext. intros k b _. split; [apply dec_stable | tauto]. }
  rewrite Hf. split; [done|].
  pose proof (filter_app_complement (live now) (range (bindings s))) as Hsplit.
  apply Permutation_length in Hsplit. rewrite length_app, !filter_range, !length_map_to_list in Hsplit.
  rewrite <- (size_range (bindings s)). lia.
Qed.

#[export] Instance memory_store_laws : StoreLaws RegistrationStore.
Proof.
  refine {| view := bindings; listActive_ok := memory_listActive_ok;
            deleteExpired_ok := memory_deleteExpired_ok |}; cbn.
  - intros ctx b n s e s' [(e' & ? & ? & ->)|(? & [(? & ?)|(? & -> & ?)])]%memory_upsert_cases; done.
  - unfold memory_Delete. intros ctx t a c s e s' ?. destruct ctx; by simplify_eq.
  - unfold memory_DeleteAll. intros ctx t a s e s' ?. destruct ctx; by simplify_eq.
  - unfold memory_DeleteExpired. intros ctx now s e s' ?. destruct ctx; [|destruct (foldl _ _ _)]; by simplify_eq.
  - intros ctx b n s s' [(e' & ? & ? & ->)|(? & [(? & ? & ?)|(? & -> & ?)])]%memory_upsert_cases; done.
  - intros ctx b n s e s' Hctx
      [(e' & -> & [= ->] & ->)|(? & [(? & ? & ?)|(? & -> & ?)])]%memory_upsert_cases; try done.
    cbn in Hctx. congruence.
  - unfold memory_Delete. intros ctx t a c s s' ?. destruct ctx; by simplify_eq.
  - unfold memory_DeleteAll. intros ctx t a s s' ?. destruct ctx; simplify_eq; cbn.
    apply (foldl_delete_filter _ _ _ (belongs_spec t a)).
Defined.

End RegistrationStore.
