(* ===== verification/RegistrationTheory.v ===== *)
(** * Correctness of the registration policy

    The properties of the manager over any store that keeps the store laws,
    with witnesses on the in-memory store. *)

From Stdlib Require Import Floats.SpecFloat.
From S2P Require Import Prelude Netip Registration MemoryStore.

(** A concrete store for the witnesses: the memory store, enumerated in the
    canonical order of its map. *)
#[local] Instance sample_Store : Store RegistrationStore := memory_store map_to_list.
Lemma sample_range : forall m : gmap bindingKey Binding, map_to_list m ≡ₚ map_to_list m.
Proof. reflexivity. Qed.
#[local] Instance sample_StoreLaws : StoreLaws RegistrationStore :=
  memory_store_laws map_to_list sample_range.

Definition sample_received : AddrPort := AddrPortFrom (Addr4 2130706433) 5062.
Definition sample_request (contact : string) (expires : Duration) (maxBindings : Z) : Request :=
  mkRequest "default" "sip:1001@pbx.example.invalid" contact "127.0.0.1:5062" TransportUDP
    sample_received "softphone" f32_one expires maxBindings.

Definition sample_apply (id : string) (now : Time) (req : Request) (s : RegistrationStore) :=
  Apply (Ok id) None now req s.

Lemma empty_well_keyed : well_keyed (view NewRegistrationStore).
Proof. intros k b'. cbn. by rewrite lookup_empty. Qed.

Definition store_of (r : result Binding * RegistrationStore) : RegistrationStore := r.2.
Definition one_binding : RegistrationStore :=
  store_of (sample_apply "r1" 1000 (sample_request "sip:1001@127.0.0.1:5062" (300 * Second) 2)
              NewRegistrationStore).

Lemma one_binding_well_keyed : well_keyed (view one_binding).
Proof.
  eapply (register_well_keyed (Ok "r1") None 1000
            (sample_request "sip:1001@127.0.0.1:5062" (300 * Second) 2) NewRegistrationStore);
    [apply empty_well_keyed | reflexivity | reflexivity].
Qed.

(** Registering works: after a successful [Apply] with a positive
    expiry, the binding returned is the requested contact, expires the
    requested time from now, and is listed for its address of record exactly
    until then; it is the only listed binding of that contact, and the
    bindings of every other address of record are untouched. *)
Theorem apply_registers {S} `{StoreLaws S} newV7 ctx now req (s : S) b s' :
  well_keyed (view s) ->
  0 < r_Expires req ->
  Apply newV7 ctx now req s = (Ok b, s') ->
  key_of b = (r_TenantID req, r_AoR req, r_Contact req) /\
  b_ExpiresAt b = now + r_Expires req /\
  well_keyed (view s') /\
  (forall ctx' now' l, List ctx' now' (r_TenantID req) (r_AoR req) s' = Ok l ->
     (b ∈ l <-> now' < now + r_Expires req) /\
     (forall b', b' ∈ l -> b_Contact b' = r_Contact req -> b' = b)) /\
  (forall t a now', (t, a) <> (r_TenantID req, r_AoR req) ->
     active t a now' (view s') = active t a now' (view s)).
Proof.
  intros Hwk Hpos Happ.
  destruct (apply_register_ok _ _ _ _ _ _ _ Hpos Happ) as (Hup & _ & Hkey & Hexp & _).
  destruct (upsert_ok _ _ _ _ _ Hup) as [Hview _]. rewrite Hview.
  pose proof (insert_well_keyed _ b Hwk) as Hwk'.
  split_and!; auto.
  - intros ctx' now' l Hl. split.
    + rewrite (list_elem _ _ _ _ _ _ _ Hl), Hview. split; [intros (? & ? & ? & ?); lia|].
      intros Hlt. exists (key_of b). rewrite lookup_insert_eq, Hkey. split_and!; [done|done|lia].
    + intros b' Hin Hc. apply (list_elem _ _ _ _ _ _ _ Hl) in Hin as (k & Hk & Hka & _).
      rewrite Hview in Hk. pose proof (Hwk' _ _ Hk) as Hkk.
      assert (k = key_of b) as ->.
      { rewrite Hkey. unfold key_of in Hkk. destruct k as [[t a] c]; cbn in *. congruence. }
      rewrite lookup_insert_eq in Hk. by simplify_eq.
  - intros t a now' Hne. apply active_insert_other. rewrite Hkey. cbn. congruence.
Qed.

Lemma apply_registers_witness :
  exists b s',
    sample_apply "r1" 1000 (sample_request "sip:1001@127.0.0.1:5062" (300 * Second) 2)
      NewRegistrationStore = (Ok b, s') /\
    (forall l, List None (1000 + 299 * Second) "default" "sip:1001@pbx.example.invalid" s' = Ok l ->
       b ∈ l).
Proof.
  do 2 eexists. split; [reflexivity|]. intros l Hl.
  edestruct (apply_registers (Ok "r1") None 1000
    (sample_request "sip:1001@127.0.0.1:5062" (300 * Second) 2) NewRegistrationStore)
    as (_ & _ & _ & Hlist & _).
  - apply empty_well_keyed.
  - reflexivity.
  - reflexivity.
  - apply (Hlist _ _ _ Hl). reflexivity.
Defined.

(** Unregistering works: after a successful [Apply] with expiry zero
    no binding of the requested contact is listed at any time, and with the
    wildcard contact none of the address of record is; bindings with another
    contact stay, and so do other addresses of record. *)
Theorem apply_unregisters {S} `{StoreLaws S} newV7 ctx now req (s : S) b s' ctx' now' l :
  well_keyed (view s) ->
  r_Expires req = 0 ->
  Apply newV7 ctx now req s = (Ok b, s') ->
  List ctx' now' (r_TenantID req) (r_AoR req) s' = Ok l ->
  (if String.eqb (r_Contact req) "*" then l = []
   else forall b', b' ∈ l <->
     b_Contact b' <> r_Contact req /\ exists k, active (r_TenantID req) (r_AoR req) now' (view s) !! k = Some b')
  /\ (forall t a, (t, a) <> (r_TenantID req, r_AoR req) ->
        active t a now' (view s') = active t a now' (view s)).
Proof.
  intros Hwk Hexp Happ Hl. unfold Apply in Happ. rewrite Hexp in Happ; cbn in Happ.
  assert (Hgone : if String.eqb (r_Contact req) "*"
    then view s' = filter (fun kb => ~ belongs (r_TenantID req) (r_AoR req) kb) (view s)
    else view s' = base.delete (r_TenantID req, r_AoR req, r_Contact req) (view s)).
  { destruct (String.eqb _ _).
    - destruct (DeleteAll _ _ _ s) as [[e|] s1] eqn:E; simplify_eq. by apply deleteAll_ok in E.
    - destruct (Delete _ _ _ _ s) as [[e|] s1] eqn:E; simplify_eq. by apply delete_ok in E. }
  clear Happ. destruct (String.eqb (r_Contact req) "*"); split.
  - destruct l as [|b' l]; [done|]. exfalso.
    destruct (proj1 (list_elem _ _ _ _ _ _ b' Hl) (list_elem_of_here _ _)) as (k & Hk & Hka & _).
    rewrite Hgone in Hk. apply map_lookup_filter_Some in Hk as [_ Hk]. by apply Hk.
  - intros t a Hne. apply map_eq. intros k. apply option_eq. intros b'. rewrite !active_lookup, Hgone.
    rewrite map_lookup_filter_Some. unfold belongs; cbn. split; [tauto|].
    intros (? & Hk & ?). split_and!; auto. congruence.
  - intros b'. rewrite (list_elem _ _ _ _ _ _ _ Hl), Hgone. setoid_rewrite active_lookup.
    setoid_rewrite lookup_delete_Some. split.
    + intros (k & [Hne Hk] & Hka & ?). split; [|eauto]. intros Hc. apply Hne.
      pose proof (Hwk _ _ Hk) as Hkk. unfold key_of in Hkk. destruct k as [[? ?] ?]. cbn in *.
      simplify_eq. congruence.
    + intros (Hc & k & Hk & Hka & ?). exists k. split_and!; auto. intros <-.
      pose proof (Hwk _ _ Hk) as Hkk. unfold key_of in Hkk. simplify_eq.
  - intros t a Hne. apply map_eq. intros k. apply option_eq. intros b'. rewrite !active_lookup, Hgone.
    rewrite lookup_delete_Some. split; [tauto|]. intros (? & Hk & ?). split_and!; auto.
    intros <-. cbn in Hk. congruence.
Qed.

Definition two_bindings : RegistrationStore :=
  store_of (sample_apply "r2" 1500 (sample_request "sip:1001@127.0.0.1:5070" (300 * Second) 2)
              one_binding).

Lemma two_bindings_well_keyed : well_keyed (view two_bindings).
Proof.
  eapply (register_well_keyed (Ok "r2") None 1500
            (sample_request "sip:1001@127.0.0.1:5070" (300 * Second) 2) one_binding);
    [apply one_binding_well_keyed | reflexivity | reflexivity].
Qed.

Lemma apply_unregisters_witness :
  exists b s' l,
    sample_apply "r3" 2000 (sample_request "sip:1001@127.0.0.1:5062" 0 2) two_bindings = (Ok b, s') /\
    List None 3000 "default" "sip:1001@pbx.example.invalid" s' = Ok l /\ length l = 1%nat /\
    forall b', b' ∈ l -> b_Contact b' <> "sip:1001@127.0.0.1:5062".
Proof.
  do 3 eexists. split; [reflexivity|]. split; [vm_compute; reflexivity|]. split; [reflexivity|].
  intros b' Hin.
  edestruct (fun s' l => apply_unregisters (Ok "r3") None 2000
    (sample_request "sip:1001@127.0.0.1:5062" 0 2) two_bindings zeroBinding s' None 3000 l)
    as [Hgone _].
  - apply two_bindings_well_keyed.
  - reflexivity.
  - reflexivity.
  - vm_compute. reflexivity.
  - apply (proj1 (Hgone b') Hin).
Defined.

(** [Apply] is atomic in its failures: whenever it returns an error
    the bindings are exactly those from before, and it reports the binding
    limit only when the address of record really has at least the allowed
    number of active bindings. *)
Theorem apply_error_atomic {S} `{StoreLaws S} newV7 ctx now req (s : S) e s' :
  errors_Is_opt ctx ErrBindingLimit = false ->
  errors_Is_opt (match newV7 with Err e => Some e | Ok _ => None end) ErrBindingLimit = false ->
  Apply newV7 ctx now req s = (Err e, s') ->
  view s' = view s /\
  (0 < r_Expires req -> IsBindingLimit (Some e) = true ->
     r_MaxBindings req <= Z.of_nat (size (active (r_TenantID req) (r_AoR req) now (view s)))).
Proof.
  intros Hctx Hid. unfold Apply, IsBindingLimit.
  destruct (Z.ltb_spec (r_Expires req) 0); [intros; simplify_eq; split; [done|cbn; done]|].
  destruct (Z.eqb_spec (r_Expires req) 0).
  { destruct (String.eqb _ _).
    - destruct (DeleteAll _ _ _ s) as [[e'|] s1] eqn:E; intros; simplify_eq.
      split; [by apply deleteAll_err in E | lia].
    - destruct (Delete _ _ _ _ s) as [[e'|] s1] eqn:E; intros; simplify_eq.
      split; [by apply delete_err in E | lia]. }
  destruct (_ <=? 0); [intros; simplify_eq; done|].
  destruct (negb _); [intros; simplify_eq; done|].
  destruct newV7 as [id|e']; [|intros; simplify_eq; split; [done|]; cbn in *; by rewrite Hid].
  match goal with |- context [Validate ?b _] => set (binding := b) end.
  destruct (Validate _ _) as [[]|ev] eqn:Ev.
  - destruct (Upsert _ _ _ s) as [[eu|] s1] eqn:Eu; intros; simplify_eq.
    split; [by apply upsert_err in Eu|]. cbn. rewrite orb_false_r. intros _ Hlim.
    exact (upsert_limit _ _ _ _ _ _ Hctx Eu Hlim).
  - intros; simplify_eq. split; [done|]. cbn. rewrite orb_false_r. intros _ Hlim.
    apply validate_err_plain in Ev. by rewrite (plain_not_Is _ _ Ev) in Hlim.
Qed.

Definition limit_error : error := Errorf "upsert registration" [Sentinel ErrBindingLimit].

Lemma third_binding_rejected :
  Apply (Ok "r4") None 2000 (sample_request "sip:1001@127.0.0.1:5080" (300 * Second) 2) two_bindings
    = (Err limit_error, two_bindings).
Proof.
  unfold Apply; cbn -[two_bindings memory_Upsert]. unfold Upsert; cbn -[two_bindings memory_Upsert].
  rewrite (memory_upsert_full _ sample_range); [reflexivity | vm_compute; reflexivity | vm_compute; discriminate].
Qed.

Lemma apply_error_atomic_witness :
  view two_bindings = view two_bindings /\
  2 <= Z.of_nat (size (active "default" "sip:1001@pbx.example.invalid" 2000 (view two_bindings))).
Proof.
  destruct (apply_error_atomic (Ok "r4") None 2000
    (sample_request "sip:1001@127.0.0.1:5080" (300 * Second) 2) two_bindings limit_error two_bindings
    eq_refl eq_refl third_binding_rejected) as [Hv Hl].
  split; [exact Hv | exact (Hl eq_refl eq_refl)].
Defined.

(** The binding limit holds for new contacts: when [Apply] stores a
    contact the store did not hold, the address of record has at most the
    allowed number of active bindings afterwards. *)
Theorem apply_limit {S} `{StoreLaws S} newV7 ctx now req (s : S) b s' :
  0 < r_Expires req ->
  view s !! (r_TenantID req, r_AoR req, r_Contact req) = None ->
  Apply newV7 ctx now req s = (Ok b, s') ->
  Z.of_nat (size (active (r_TenantID req) (r_AoR req) now (view s'))) <= r_MaxBindings req.
Proof.
  intros Hpos Hnew Happ.
  destruct (apply_register_ok _ _ _ _ _ _ _ Hpos Happ) as (Hup & _ & Hkey & _ & Hupd).
  destruct (upsert_ok _ _ _ _ _ Hup) as [-> Hroom]. rewrite Hkey in Hroom. specialize (Hroom Hnew).
  pose proof (active_insert_size (r_TenantID req) (r_AoR req) now (view s) (key_of b) b).
  unfold key_of in Hkey. injection Hkey as Ht Ha _. rewrite Ht, Ha, Hupd in Hroom. lia.
Qed.

Lemma apply_limit_witness :
  Z.of_nat (size (active "default" "sip:1001@pbx.example.invalid" 1500 (view two_bindings))) <= 2.
Proof.
  eapply (apply_limit (Ok "r2") None 1500
            (sample_request "sip:1001@127.0.0.1:5070" (300 * Second) 2) one_binding);
    [reflexivity | vm_compute; reflexivity | reflexivity].
Defined.

(** The in-memory store lets an address of record exceed its limit:
    a contact whose binding has expired but was not swept yet counts as
    existing, so refreshing it skips the limit check.  With a limit of one,
    three registrations leave two active bindings. *)
Theorem memory_limit_bypass :
  let contactA := "sip:1001@127.0.0.1:5062" in
  let contactB := "sip:1001@127.0.0.1:5070" in
  let r1 := sample_apply "r1" 0 (sample_request contactA (60 * Second) 1) NewRegistrationStore in
  let r2 := sample_apply "r2" (61 * Second) (sample_request contactB (60 * Second) 1) (store_of r1) in
  let r3 := sample_apply "r3" (62 * Second) (sample_request contactA (60 * Second) 1) (store_of r2) in
  is_Ok r1.1 = true /\ is_Ok r2.1 = true /\ is_Ok r3.1 = true /\
  size (active "default" "sip:1001@pbx.example.invalid" (62 * Second) (view (store_of r3))) = 2%nat.
Proof. vm_compute. by split_and!. Qed.

(** [Resolve] returns the preferred device: when it succeeds, the
    binding is an active one of the address of record, and no other active
    binding has a higher q value or, at the same q, a later update; it reports
    not-found exactly when there is no active binding.  [sort] is any
    implementation of the documented contract of [slices.SortFunc]. *)
Theorem resolve_preferred {S} `{StoreLaws S} sort ctx now t a (s : S) l :
  SortFunc_spec sort ->
  List ctx now t a s = Ok l ->
  Forall (fun b => q_ok (b_Q b) = true) l ->
  match Resolve sort ctx now t a s with
  | Ok b => (exists k, active t a now (view s) !! k = Some b) /\ forall b', b' ∈ l -> ~ better b' b
  | Err e => e = Sentinel ErrNotFound /\ active t a now (view s) = ∅
  end.
Proof.
  intros Hsort Hl Hq. unfold Resolve. rewrite Hl; cbn.
  destruct (Hsort preferred l) as [Hperm Hsorted].
  specialize (Hsorted (preferred_strict_weak _ Hq)).
  pose proof (fun b => list_elem _ _ _ _ _ _ b Hl) as Hmem.
  destruct l as [|b0 l].
  { split; [done|]. apply map_empty. intros k. destruct (active _ _ _ _ !! k) as [b|] eqn:E; [|done].
    apply active_lookup in E. exfalso. apply (not_elem_of_nil b). apply Hmem. eauto. }
  destruct (sort preferred (b0 :: l)) as [|b k].
  { by apply Permutation_nil_cons in Hperm. }
  cbn [hd]. apply StronglySorted_inv in Hsorted as [_ Hmin]. rewrite Forall_forall in Hmin, Hq.
  assert (Hb : b ∈ b0 :: l) by (rewrite <- Hperm; apply list_elem_of_here).
  split.
  - apply Hmem in Hb as (k' & Hk'). exists k'. by apply active_lookup.
  - intros b' Hb' Hbetter. apply (preferred_better b' b) in Hbetter; auto.
    rewrite <- Hperm in Hb'. apply elem_of_cons in Hb' as [->|Hb'].
    + apply (preferred_strict_weak (b0 :: l)) in Hbetter; auto. by apply Forall_forall.
    + by apply (Hmin b').
Qed.

Lemma resolve_preferred_witness :
  match Resolve insertionSort None 2000 "default" "sip:1001@pbx.example.invalid" two_bindings with
  | Ok b => b_Contact b = "sip:1001@127.0.0.1:5070" /\
            exists k, active "default" "sip:1001@pbx.example.invalid" 2000 (view two_bindings) !! k = Some b
  | Err _ => False
  end.
Proof.
  assert (Hl : exists l, List None 2000 "default" "sip:1001@pbx.example.invalid" two_bindings = Ok l /\
    Forall (fun b => q_ok (b_Q b) = true) l).
  { eexists. split; [vm_compute; reflexivity|]. repeat constructor. }
  destruct Hl as (l & Hl & Hq).
  pose proof (resolve_preferred insertionSort None 2000 "default" "sip:1001@pbx.example.invalid"
                two_bindings l (insertionSort_spec Binding) Hl Hq) as Hres.
  assert (Hv : match Resolve insertionSort None 2000 "default" "sip:1001@pbx.example.invalid" two_bindings with
    | Ok b => b_Contact b = "sip:1001@127.0.0.1:5070" | Err _ => False end) by (vm_compute; reflexivity).
  destruct (Resolve _ _ _ _ _ _); [split; [exact Hv | exact (proj1 Hres)] | exact Hv].
Defined.

(** Sweeping is invisible: [Expire] removes exactly the bindings
    that have expired and returns their number, so every list of active
    bindings taken at or after the sweep is what it would have been without
    it. *)
Theorem expire_invisible {S} `{StoreLaws S} ctx now (s : S) n s' :
  Expire ctx now s = (Ok n, s') ->
  n = Z.of_nat (size (view s)) - Z.of_nat (size (view s')) /\
  (forall k b, view s' !! k = Some b <-> view s !! k = Some b /\ now < b_ExpiresAt b) /\
  (forall t a now', now <= now' -> active t a now' (view s') = active t a now' (view s)).
Proof.
  unfold Expire. destruct (DeleteExpired _ _ s) as [[n'|] s1] eqn:E; cbn; intros; simplify_eq.
  apply deleteExpired_ok in E as [Hv Hn]. rewrite Hv in *. split; [done|]. split.
  - intros k b. rewrite map_lookup_filter_Some. done.
  - intros t a now' Hle. apply map_eq. intros k. apply option_eq. intros b.
    rewrite !active_lookup, map_lookup_filter_Some. unfold live; cbn. intuition lia.
Qed.

Lemma expire_invisible_witness :
  exists n s', Expire None (301 * Second) two_bindings = (Ok n, s') /\
    n = Z.of_nat (size (view two_bindings)) - Z.of_nat (size (view s')).
Proof.
  do 2 eexists. split; [reflexivity|].
  eapply (expire_invisible None (301 * Second) two_bindings). reflexivity.
Defined.
