(* ===== verification/Dtmf.v ===== *)
(** * RFC 4733 telephone events

    Models [internal/media/dtmf/event.go]: decoding and encoding of the
    four-byte telephone-event payload.  A byte is a [Z] in [0, 256). *)

From S2P Require Import Prelude.

Definition payloadSize : Z := 4.

Record Event := mkEvent {
  ev_Code : Z;       (* uint8 *)
  ev_End : bool;
  ev_Volume : Z;     (* uint8 *)
  ev_Duration : Z;   (* uint16 *)
}.

(** [binary.BigEndian.Uint16] and [PutUint16] on two bytes. *)
Definition be_Uint16 (b0 b1 : Z) : Z := Z.lor b1 (Z.shiftl b0 8).
Definition be_PutUint16 (v : Z) : Z * Z := (u8 (Z.shiftr v 8), u8 v).

Definition byte_at (p : list Z) (i : nat) : Z := nth i p 0.

Definition Decode (payload : list Z) : result Event :=
  if Z.of_nat (length payload) <? payloadSize then
    Err (Errorf "telephone-event payload requires at least 4 bytes" [])
  else
    let event :=
      {| ev_Code := byte_at payload 0;
         ev_End := negb (Z.land (byte_at payload 1) 128 =? 0);
         ev_Volume := Z.land (byte_at payload 1) 63;
         ev_Duration := be_Uint16 (byte_at payload 2) (byte_at payload 3) |} in
    if 16 <? ev_Code event then Err (Errorf "unsupported telephone-event code" [])
    else Ok event.

Definition Encode (event : Event) : result (list Z) :=
  if (16 <? ev_Code event) || (63 <? ev_Volume event) then
    Err (Errorf "telephone-event code or volume is invalid" [])
  else
    let flags := if ev_End event then Z.lor (ev_Volume event) 128 else ev_Volume event in
    let '(hi, lo) := be_PutUint16 (ev_Duration event) in
    Ok [ev_Code event; flags; hi; lo].

(** An event whose fields have their Go types. *)
Definition typed (e : Event) : Prop :=
  is_u8 (ev_Code e) /\ is_u8 (ev_Volume e) /\ is_u16 (ev_Duration e).

(** Facts about the flags byte, checked on all 256 values. *)
Lemma flags_byte v : is_u8 v ->
  is_u8 (Z.land v 63) /\ Z.land v 63 <= 63 /\
  (if negb (Z.land v 128 =? 0) then Z.lor (Z.land v 63) 128 else Z.land v 63) = Z.land v 191.
Proof.
  intros Hv.
  pose proof (u8_forall (fun v => (0 <=? Z.land v 63) && (Z.land v 63 <=? 63) &&
    ((if negb (Z.land v 128 =? 0) then Z.lor (Z.land v 63) 128 else Z.land v 63) =? Z.land v 191))
    eq_refl v Hv) as H.
  cbv beta in H. bool_prop. unfold is_u8. split_and!; auto; lia.
Qed.

Lemma volume_byte v : is_u8 v -> v <= 63 ->
  Z.land v 63 = v /\ Z.land v 128 = 0 /\
  Z.land (Z.lor v 128) 63 = v /\ Z.land (Z.lor v 128) 128 = 128 /\ is_u8 (Z.lor v 128).
Proof.
  intros Hv Hle.
  pose proof (u8_forall (fun v => (63 <? v) || ((Z.land v 63 =? v) && (Z.land v 128 =? 0) &&
    (Z.land (Z.lor v 128) 63 =? v) && (Z.land (Z.lor v 128) 128 =? 128) &&
    (0 <=? Z.lor v 128) && (Z.lor v 128 <? 256))) eq_refl v Hv) as H.
  cbv beta in H. bool_prop. destruct H as [H|H]; bool_prop; [lia|]. unfold is_u8. split_and!; auto; lia.
Qed.

Lemma be_Uint16_add b0 b1 : is_u8 b1 -> be_Uint16 b0 b1 = b1 + b0 * 256.
Proof. intros. unfold be_Uint16. by rewrite (lor_shiftl b1 b0 8). Qed.

Lemma be_roundtrip v : is_u16 v -> let '(hi, lo) := be_PutUint16 v in be_Uint16 hi lo = v.
Proof.
  intros Hv. unfold be_PutUint16. rewrite be_Uint16_add by apply u8_range.
  rewrite Z.shiftr_div_pow2 by done. word_lia.
Qed.

Lemma be_roundtrip_back b0 b1 : is_u8 b0 -> is_u8 b1 -> be_PutUint16 (be_Uint16 b0 b1) = (b0, b1).
Proof.
  intros H0 H1. unfold be_PutUint16. rewrite be_Uint16_add by done.
  rewrite Z.shiftr_div_pow2 by done. f_equal; word_lia.
Qed.

(** Decoding inverts encoding: an event is encodable exactly when its
    code is at most 16 and its volume at most 63, the result is four bytes,
    and decoding them (followed by any padding) gives the event back. *)
Theorem encode_decode e padding :
  typed e ->
  match Encode e with
  | Ok p => ev_Code e <= 16 /\ ev_Volume e <= 63 /\ length p = 4%nat /\
            Forall is_u8 p /\ Decode (p ++ padding) = Ok e
  | Err _ => 16 < ev_Code e \/ 63 < ev_Volume e
  end.
Proof.
  intros (Hc & Hv & Hd). unfold Encode.
  destruct (Z.ltb_spec 16 (ev_Code e)); [by left|].
  destruct (Z.ltb_spec 63 (ev_Volume e)); [by right|]. cbn -[Z.lor].
  destruct (volume_byte _ Hv) as (H1 & H2 & H3 & H4 & H5); [done|].
  split_and!; auto.
  - rewrite !Forall_cons. split_and!; auto using u8_range. by destruct (ev_End e).
  - unfold Decode. cbn -[Z.of_nat Z.land Z.lor be_Uint16].
    rewrite (be_roundtrip _ Hd : be_Uint16 (u8 (Z.shiftr (ev_Duration e) 8)) (u8 (ev_Duration e)) = _).
    destruct (Z.ltb_spec (Z.of_nat (S (S (S (S (length padding)))))) payloadSize);
      [unfold payloadSize in *; lia|].
    destruct (Z.ltb_spec 16 (ev_Code e)); [lia|].
    destruct e as [c [] v d]; cbn in *; by rewrite ?H1, ?H2, ?H3, ?H4.
Qed.

Lemma encode_decode_witness :
  exists p, Encode (mkEvent 5 true 10 1600) = Ok p /\ Decode (p ++ [7]) = Ok (mkEvent 5 true 10 1600).
Proof.
  eexists. split; [reflexivity|].
  pose proof (encode_decode (mkEvent 5 true 10 1600) [7]
    ltac:(unfold typed, is_u8, is_u16; cbn; lia)) as H.
  apply H.
Defined.

(** Re-encoding a decoded payload reproduces its first four bytes,
    except that the reserved bit of the second byte is cleared; decoding fails
    exactly on a payload that is too short or carries a code above 16. *)
Theorem decode_encode p :
  Forall is_u8 p ->
  match Decode p with
  | Ok e => typed e /\
      Encode e = Ok [byte_at p 0; Z.land (byte_at p 1) 191; byte_at p 2; byte_at p 3]
  | Err _ => (length p < 4)%nat \/ 16 < byte_at p 0
  end.
Proof.
  intros Hp. unfold Decode, payloadSize.
  destruct (Z.ltb_spec (Z.of_nat (length p)) 4); [left; lia|].
  destruct p as [|b0 [|b1 [|b2 [|b3 p]]]]; cbn in *; try lia.
  rewrite !Forall_cons in Hp. destruct Hp as (H0 & H1 & H2 & H3 & _).
  destruct (Z.ltb_spec 16 b0); [by right|]. destruct (flags_byte b1 H1) as (Hv & Hle & Hf).
  split.
  - split_and!; cbn; auto. rewrite be_Uint16_add by done. word_lia.
  - unfold Encode; cbn -[Z.land Z.lor be_Uint16].
    destruct (Z.ltb_spec 16 b0), (Z.ltb_spec 63 (Z.land b1 63)); try lia. cbn -[Z.land Z.lor be_Uint16].
    pose proof (be_roundtrip_back b2 b3 H2 H3) as Hbe. unfold be_PutUint16 in Hbe.
    injection Hbe as -> ->. by rewrite Hf.
Qed.

Lemma decode_encode_witness :
  exists e, Decode [1; 202; 3; 32; 9] = Ok e /\ Encode e = Ok [1; 138; 3; 32].
Proof.
  eexists. split; [reflexivity|].
  pose proof (decode_encode [1; 202; 3; 32; 9] ltac:(rewrite !Forall_cons; unfold is_u8; split_and!; auto; lia)) as H. apply H.
Defined.
