(* ===== verification/Rtp.v ===== *)
(** * RTP accounting and rewriting

    Models [internal/media/rtp]: the receive tracker with its sequence window,
    loss, reorder and jitter accounting ([stats.go]), and the rewriter that
    gives one output leg its own SSRC, sequence numbers and timestamps
    ([rewriter.go]). *)

From Stdlib Require Import Floats.SpecFloat.
From S2P Require Import Prelude.

(** The part of [pion/rtp.Packet] the program reads and writes. *)
Record Packet := mkPacket {
  p_Version : Z;
  p_Marker : bool;
  p_PayloadType : Z;      (* uint8 *)
  p_SequenceNumber : Z;   (* uint16 *)
  p_Timestamp : Z;        (* uint32 *)
  p_SSRC : Z;             (* uint32 *)
  p_CSRC : list Z;
  p_Payload : list Z;
}.

(** ** [rewriter.go] *)

Record SenderStats := mkSenderStats {
  ss_SSRC : Z; ss_Packets : Z; ss_Bytes : Z; ss_LastTimestamp : Z;
}.

Record Rewriter := mkRewriter {
  rw_ssrc : Z;
  rw_sequence : Z;
  rw_timestamp : Z;
  rw_inputBase : Z;
  rw_outputBase : Z;
  rw_initialized : bool;
  rw_packets : Z;
  rw_bytes : Z;
  rw_lastTimestamp : Z;
}.

(** [seed] is what [rand.Read] delivers: ten bytes or an error. *)
Definition NewRewriter (seed : result (list Z)) : result Rewriter :=
  match seed with
  | Err e => Err (Errorf "generate RTP stream identifiers" [e])
  | Ok s =>
      let ts := be_uint (take 4 (drop 6 s)) in
      Ok {| rw_ssrc := be_uint (take 4 s); rw_sequence := be_uint (take 2 (drop 4 s));
            rw_timestamp := ts; rw_inputBase := 0; rw_outputBase := ts;
            rw_initialized := false; rw_packets := 0; rw_bytes := 0; rw_lastTimestamp := 0 |}
  end.

Definition Rewrite (input : Packet) (outputPayloadType : Z) (r : Rewriter) : Packet * Rewriter :=
  let sequence := if rw_initialized r then u16 (rw_sequence r + 1) else rw_sequence r in
  let inputBase := if rw_initialized r then rw_inputBase r else p_Timestamp input in
  let timestamp := u32 (rw_outputBase r + p_Timestamp input - inputBase) in
  ({| p_Version := p_Version input; p_Marker := p_Marker input;
      p_PayloadType := outputPayloadType; p_SequenceNumber := sequence;
      p_Timestamp := timestamp; p_SSRC := rw_ssrc r; p_CSRC := p_CSRC input;
      p_Payload := p_Payload input |},
   {| rw_ssrc := rw_ssrc r; rw_sequence := sequence; rw_timestamp := timestamp;
      rw_inputBase := inputBase; rw_outputBase := rw_outputBase r; rw_initialized := true;
      rw_packets := u64 (rw_packets r + 1);
      rw_bytes := u64 (rw_bytes r + Z.of_nat (length (p_Payload input)));
      rw_lastTimestamp := timestamp |}).

Definition Rewriter_Snapshot (r : Rewriter) : SenderStats :=
  {| ss_SSRC := rw_ssrc r; ss_Packets := rw_packets r; ss_Bytes := rw_bytes r;
     ss_LastTimestamp := rw_lastTimestamp r |}.

(** Rewriting a stream of packets, each with its output payload type. *)
Fixpoint rewrite_all (inputs : list (Packet * Z)) (r : Rewriter) : list Packet * Rewriter :=
  match inputs with
  | [] => ([], r)
  | (p, pt) :: rest =>
      let '(out, r) := Rewrite p pt r in
      let '(outs, r) := rewrite_all rest r in
      (out :: outs, r)
  end.

(** ** [stats.go] *)

Definition sequenceWindow : Z := 128.

Inductive PacketClass := PacketNew | PacketReordered | PacketDuplicate.

(** A Go [float64]. *)
Definition float64 := spec_float.
Definition f64_add := SFadd 53 1024.
Definition f64_sub := SFsub 53 1024.
Definition f64_div := SFdiv 53 1024.
Definition f64_of_int (z : Z) : float64 := binary_normalize 53 1024 z 0 false.

Record Stats := mkStats {
  st_Packets : Z; st_Bytes : Z; st_Lost : Z; st_Duplicates : Z; st_Reordered : Z;
  st_SSRCChanges : Z; st_JitterSamples : float64; st_SSRC : Z; st_LastSequence : Z;
  st_LastPacketAt : Time;
}.

(** [publishedStats]: the atomic counters, each a machine word. *)
Record publishedStats := mkPublished {
  pub_packets : Z; pub_bytes : Z; pub_lost : Z; pub_duplicates : Z; pub_reordered : Z;
  pub_ssrcChanges : Z; pub_jitter : float64; pub_ssrc : Z; pub_lastSequence : Z;
  pub_lastPacketNanos : Z;
}.

Record Tracker := mkTracker {
  tk_clockRate : Z;
  tk_started : bool;
  tk_ssrc : Z;
  tk_maxSeq : Z;
  tk_cycles : Z;
  tk_seen : list Z;
  tk_seenValid : list bool;
  tk_transit : Z;
  tk_jitter : float64;
  tk_published : publishedStats;
}.

Definition zeroPublished : publishedStats := mkPublished 0 0 0 0 0 0 (S754_zero false) 0 0 0.

Definition NewTracker (clockRate : Z) : Tracker :=
  {| tk_clockRate := clockRate; tk_started := false; tk_ssrc := 0; tk_maxSeq := 0; tk_cycles := 0;
     tk_seen := replicate 128 0; tk_seenValid := replicate 128 false; tk_transit := 0;
     tk_jitter := S754_zero false; tk_published := zeroPublished |}.

Definition publishArrival (packet : Packet) (receivedAt : Time) (wireBytes : Z) (cycles : Z)
    (p : publishedStats) : publishedStats :=
  mkPublished (u64 (pub_packets p + 1))
    (if 0 <? wireBytes then u64 (pub_bytes p + u64 wireBytes) else pub_bytes p)
    (pub_lost p) (pub_duplicates p) (pub_reordered p) (pub_ssrcChanges p) (pub_jitter p)
    (p_SSRC packet) (u32 (cycles + p_SequenceNumber packet)) (UnixNano receivedAt).

(** [decrementAtomic]: the compare-and-swap loop of the only writer. *)
Definition decrementAtomic (value : Z) : Z := if value =? 0 then value else value - 1.

(** The sequence step: the class of a packet that is not a duplicate, and the
    new maximum, cycle count, and change to the lost and reordered counters. *)
Record seqStep := mkSeqStep {
  sq_class : PacketClass; sq_maxSeq : Z; sq_cycles : Z; sq_lost : Z; sq_reordered : Z;
}.

Definition sequence_step (seq maxSeq cycles lost reordered : Z) : seqStep :=
  let delta := i16 (u16 (seq - maxSeq)) in
  if 0 <? delta then
    mkSeqStep PacketNew seq (if seq <? maxSeq then u32 (cycles + 65536) else cycles)
      (if 1 <? delta then u64 (lost + (delta - 1)) else lost) reordered
  else if delta <? 0 then
    mkSeqStep PacketReordered maxSeq cycles (decrementAtomic lost) (u64 (reordered + 1))
  else mkSeqStep PacketNew maxSeq cycles lost reordered.

(** The interarrival jitter of RFC 3550, in RTP clock samples. *)
Definition arrival_transit (clockRate : Z) (receivedAt : Time) (timestamp : Z) : Z :=
  let arrivalSamples := go_div (i64 (UnixNano receivedAt * clockRate)) Second in
  i64 (arrivalSamples - timestamp).

Definition jitter_step (jitter : float64) (transit previous : Z) : float64 :=
  let difference := i64 (transit - previous) in
  let difference := if difference <? 0 then i64 (- difference) else difference in
  f64_add jitter (f64_div (f64_sub (f64_of_int difference) jitter) (f64_of_int 16)).

Definition Observe (packet : Packet) (receivedAt : Time) (wireBytes : Z) (t : Tracker)
    : PacketClass * Tracker :=
  let seq := p_SequenceNumber packet in
  let index := Z.to_nat (seq mod sequenceWindow) in
  let pub := tk_published t in
  if nth index (tk_seenValid t) false && (nth index (tk_seen t) 0 =? seq) then
    let pub := mkPublished (pub_packets pub) (pub_bytes pub) (pub_lost pub)
                 (u64 (pub_duplicates pub + 1)) (pub_reordered pub) (pub_ssrcChanges pub)
                 (pub_jitter pub) (pub_ssrc pub) (pub_lastSequence pub) (pub_lastPacketNanos pub) in
    (PacketDuplicate,
     mkTracker (tk_clockRate t) (tk_started t) (tk_ssrc t) (tk_maxSeq t) (tk_cycles t) (tk_seen t)
       (tk_seenValid t) (tk_transit t) (tk_jitter t)
       (publishArrival packet receivedAt wireBytes (tk_cycles t) pub))
  else
    let seenValid := <[index := true]> (tk_seenValid t) in
    let seen := <[index := seq]> (tk_seen t) in
    let step :=
      if negb (tk_started t) then mkSeqStep PacketNew seq (tk_cycles t) (pub_lost pub) (pub_reordered pub)
      else sequence_step seq (tk_maxSeq t) (tk_cycles t) (pub_lost pub) (pub_reordered pub) in
    let ssrcChanges :=
      if tk_started t && negb (p_SSRC packet =? tk_ssrc t)
      then u64 (pub_ssrcChanges pub + 1) else pub_ssrcChanges pub in
    let transit := arrival_transit (tk_clockRate t) receivedAt (p_Timestamp packet) in
    let jitter := if 0 <? pub_packets pub then jitter_step (tk_jitter t) transit (tk_transit t)
                  else tk_jitter t in
    let pub := mkPublished (pub_packets pub) (pub_bytes pub) (sq_lost step) (pub_duplicates pub)
                 (sq_reordered step) ssrcChanges jitter (pub_ssrc pub) (pub_lastSequence pub)
                 (pub_lastPacketNanos pub) in
    (sq_class step,
     mkTracker (tk_clockRate t) true (p_SSRC packet) (sq_maxSeq step) (sq_cycles step) seen seenValid
       transit jitter (publishArrival packet receivedAt wireBytes (sq_cycles step) pub)).

Definition Tracker_Snapshot (t : Tracker) : Stats :=
  let p := tk_published t in
  {| st_Packets := pub_packets p; st_Bytes := pub_bytes p; st_Lost := pub_lost p;
     st_Duplicates := pub_duplicates p; st_Reordered := pub_reordered p;
     st_SSRCChanges := pub_ssrcChanges p; st_JitterSamples := pub_jitter p; st_SSRC := pub_ssrc p;
     st_LastSequence := pub_lastSequence p;
     st_LastPacketAt := if pub_lastPacketNanos p =? 0 then zeroTime
                        else time_UnixNano (pub_lastPacketNanos p) |}.

(** One arrival: the packet, when it was received, its size on the wire. *)
Definition Arrival : Type := Packet * Time * Z.

Fixpoint observe_all (arrivals : list Arrival) (t : Tracker) : list PacketClass * Tracker :=
  match arrivals with
  | [] => ([], t)
  | (p, at_, n) :: rest =>
      let '(c, t) := Observe p at_ n t in
      let '(cs, t) := observe_all rest t in
      (c :: cs, t)
  end.

(** ** The rewriter's output stream *)

(** What the output packet for input [p] is, given the stream's identifiers,
    the position in the stream and the timestamp bases. *)
Definition rewritten (ssrc seq outBase inBase : Z) (p : Packet) (pt : Z) : Packet :=
  {| p_Version := p_Version p; p_Marker := p_Marker p; p_PayloadType := pt;
     p_SequenceNumber := u16 seq; p_Timestamp := u32 (outBase + p_Timestamp p - inBase);
     p_SSRC := ssrc; p_CSRC := p_CSRC p; p_Payload := p_Payload p |}.

Definition payload_bytes (inputs : list (Packet * Z)) : Z :=
  sum_list ((fun x => Z.of_nat (length (p_Payload x.1))) <$> inputs).

Lemma rewrite_all_started inputs : forall r outs r',
  rw_initialized r = true -> rewrite_all inputs r = (outs, r') ->
  outs = imap (fun i x => rewritten (rw_ssrc r) (rw_sequence r + 1 + Z.of_nat i) (rw_outputBase r)
                            (rw_inputBase r) x.1 x.2) inputs /\
  rw_ssrc r' = rw_ssrc r /\
  u64 (rw_packets r') = u64 (rw_packets r + Z.of_nat (length inputs)) /\
  u64 (rw_bytes r') = u64 (rw_bytes r + payload_bytes inputs).
Proof.
  induction inputs as [|[p pt] rest IH]; intros r outs r' Hi; cbn [rewrite_all].
  { intros [= <- <-]. unfold payload_bytes; cbn. split_and!; [done|done| |]; f_equal; lia. }
  unfold Rewrite; rewrite Hi; cbn [rw_ssrc rw_sequence rw_outputBase rw_inputBase].
  destruct (rewrite_all rest _) as [outs1 r1] eqn:E. intros [= <- <-].
  apply IH in E as (-> & Hs & Hp & Hb); [|done]. cbn in Hs, Hp, Hb. split_and!; [|done| |].
  - cbn [imap]. f_equal; [unfold rewritten; cbn; f_equal; f_equal; lia|].
    apply imap_ext. intros i [q qt] _; cbn. unfold rewritten; cbn. f_equal. word_lia.
  - rewrite Hp. cbn [length]. word_lia.
  - rewrite Hb. unfold payload_bytes; csimpl. word_lia.
Qed.

(** The rewriter gives an output leg a stream of its own: whatever
    sequence numbers, SSRCs and payload types arrive, the [i]-th packet out
    carries the stream's SSRC, its sequence number is the initial one plus [i]
    modulo 2^16 (no gap, no repeat), its timestamp advances from the stream's
    initial timestamp exactly as the input timestamps do modulo 2^32, and
    payload, marker and version are untouched.  The sender counters are the
    number of packets and of payload bytes modulo 2^64. *)
Theorem rewrite_stream seed r inputs outs r' :
  length seed = 10%nat -> Forall is_u8 seed ->
  NewRewriter (Ok seed) = Ok r ->
  rewrite_all inputs r = (outs, r') ->
  let inBase := p_Timestamp (hd (mkPacket 0 false 0 0 0 0 [] []) inputs.*1) in
  outs = imap (fun i x => rewritten (rw_ssrc r) (rw_sequence r + Z.of_nat i) (rw_timestamp r)
                            inBase x.1 x.2) inputs /\
  is_u32 (rw_ssrc r) /\ is_u16 (rw_sequence r) /\ is_u32 (rw_timestamp r) /\
  ss_SSRC (Rewriter_Snapshot r') = rw_ssrc r /\
  u64 (ss_Packets (Rewriter_Snapshot r')) = u64 (Z.of_nat (length inputs)) /\
  u64 (ss_Bytes (Rewriter_Snapshot r')) = u64 (payload_bytes inputs).
Proof.
  intros Hlen Hb Hnew Hrun inBase. cbn in Hnew. injection Hnew as <-.
  assert (Hr : forall n m, (m + n <= 10)%nat ->
    0 <= be_uint (take n (drop m seed)) < 256 ^ Z.of_nat n).
  { intros n m Hle. assert (Hn : length (take n (drop m seed)) = n)
      by (rewrite length_take, length_drop; lia).
    rewrite <- Hn at 3. apply be_uint_range. by apply Forall_take, Forall_drop. }
  pose proof (Hr 4%nat 0%nat ltac:(lia)) as H1. pose proof (Hr 2%nat 4%nat ltac:(lia)) as H2.
  pose proof (Hr 4%nat 6%nat ltac:(lia)) as H3. rewrite drop_0 in H1.
  change (256 ^ Z.of_nat 4) with (2 ^ 32) in *. change (256 ^ Z.of_nat 2) with (2 ^ 16) in *.
  cbn [rw_ssrc rw_sequence rw_timestamp].
  destruct inputs as [|[p pt] rest]; cbn [rewrite_all] in Hrun.
  { injection Hrun as <- <-. by split_and!. }
  unfold Rewrite in Hrun; cbn [rw_initialized rw_ssrc rw_sequence rw_outputBase rw_packets rw_bytes] in Hrun.
  destruct (rewrite_all rest _) as [outs1 r1] eqn:E. injection Hrun as <- <-.
  apply rewrite_all_started in E as (-> & Hs & Hp & Hbt); [|done]. cbn in Hs, Hp, Hbt.
  split_and!; auto.
  - cbn [imap]. f_equal.
    + unfold rewritten, inBase; cbn. f_equal. rewrite Z.add_0_r. by rewrite u16_id.
    + apply imap_ext. intros i [q qt] _; cbn. unfold rewritten; cbn. f_equal. f_equal. lia.
  - cbn [Rewriter_Snapshot ss_Packets]. rewrite Hp. cbn [length]. word_lia.
  - cbn [Rewriter_Snapshot ss_Bytes]. rewrite Hbt. unfold payload_bytes; csimpl. word_lia.
Qed.

Definition sample_packet (seq ts : Z) : Packet := mkPacket 2 false 0 seq ts 77 [] [1; 2; 3].
Definition sample_seed : list Z := [0; 0; 0; 9; 255; 255; 0; 0; 1; 0].

Definition sample_inputs : list (Packet * Z) :=
  [(sample_packet 10 500, 8); (sample_packet 12 820, 8); (sample_packet 11 660, 101)].

Definition sample_rewriter : Rewriter := mkRewriter 9 65535 256 0 256 false 0 0 0.

Lemma rewrite_stream_witness :
  let '(outs, r') := rewrite_all sample_inputs sample_rewriter in
  outs = imap (fun i x => rewritten 9 (65535 + Z.of_nat i) 256 500 x.1 x.2) sample_inputs /\
  p_SequenceNumber <$> outs = [65535; 0; 1] /\ p_Timestamp <$> outs = [256; 576; 416] /\
  u64 (ss_Packets (Rewriter_Snapshot r')) = 3.
Proof.
  assert (Hb : Forall is_u8 sample_seed).
  { unfold sample_seed. rewrite !Forall_cons. unfold is_u8. split_and!; auto; lia. }
  destruct (rewrite_stream sample_seed sample_rewriter sample_inputs _ _ eq_refl Hb
              ltac:(vm_compute; reflexivity) (surjective_pairing _)) as (Houts & _ & _ & _ & _ & Hpk & _).
  split; [exact Houts|]. split; [vm_compute; reflexivity|]. split; [vm_compute; reflexivity | exact Hpk].
Defined.

(** ** Loss accounting

    The tracker sees 16-bit sequence numbers; the sender's numbering is an
    unbounded sequence of extended numbers.  [nearby max es]: every number of
    [es] is within half the 16-bit space of the highest number seen so far. *)

Fixpoint nearby (max : Z) (es : list Z) : Prop :=
  match es with
  | [] => True
  | e :: rest => Z.abs (e - max) < 2 ^ 15 /\ nearby (Z.max max e) rest
  end.

(** How many of the numbers arrive below the maximum seen before them. *)
Fixpoint late (max : Z) (es : list Z) : Z :=
  match es with
  | [] => 0
  | e :: rest => (if e <? max then 1 else 0) + late (Z.max max e) rest
  end.

Definition carries (e : Z) (a : Arrival) : Prop := p_SequenceNumber a.1.1 = u16 e.

Lemma delta_nearby e m : Z.abs (e - m) < 2 ^ 15 -> i16 (u16 (u16 e - u16 m)) = e - m.
Proof. intros. word_lia. Qed.

Lemma wrap_detected e m : 0 < e - m < 2 ^ 15 ->
  (u16 e <? u16 m) = negb (e / 65536 =? m / 65536) /\ e / 65536 <= m / 65536 + 1 /\ m / 65536 <= e / 65536.
Proof.
  intros Hd. assert (Hq : e / 65536 = m / 65536 \/ e / 65536 = m / 65536 + 1) by (Z.div_mod_to_equations; lia).
  split; [|lia].
  destruct (Z.ltb_spec (u16 e) (u16 m)), (Z.eqb_spec (e / 65536) (m / 65536)); cbn; try done; word_lia.
Qed.

(** The state of the tracker after the numbers [seen] of a stream that started
    at [first] and reached [max]. *)
Record tracked (first max : Z) (seen : list Z) (t : Tracker) : Prop := {
  td_started : tk_started t = true;
  td_max : tk_maxSeq t = u16 max;
  td_cycles : tk_cycles t = 65536 * (max / 65536);
  td_window : forall i, nth i (tk_seenValid t) false = true ->
    exists e, e ∈ seen /\ nth i (tk_seen t) 0 = u16 e;
  td_lost : pub_lost (tk_published t) = max - first + 1 - Z.of_nat (length seen);
  td_duplicates : pub_duplicates (tk_published t) = 0;
}.

(** Distinct numbers of an interval that avoid one of its members. *)
Lemma interval_count (first max e : Z) (seen : list Z) :
  NoDup (e :: seen) -> (forall x, x ∈ e :: seen -> first <= x <= max) ->
  Z.of_nat (length seen) <= max - first.
Proof.
  intros Hnd Hin. destruct (decide (first <= max)) as [Hle|Hgt].
  - assert (Hlen : (length (e :: seen) <= length (seqZ first (max - first + 1)))%nat).
    { apply submseteq_length, NoDup_submseteq; [done|]. intros x Hx. apply elem_of_seqZ.
      specialize (Hin x Hx). lia. }
    rewrite length_seqZ in Hlen. cbn in Hlen. lia.
  - specialize (Hin e (list_elem_of_here _ _)). lia.
Qed.

Lemma nth_insert {A} (l : list A) i j x d :
  nth j (<[i := x]> l) d = if decide (i = j /\ (i < length l)%nat) then x else nth j l d.
Proof.
  rewrite !nth_lookup. destruct (decide (i = j /\ (i < length l)%nat)) as [[<- Hlt]|Hne].
  - by rewrite list_lookup_insert_eq.
  - destruct (decide (i = j)) as [<-|]; [|by rewrite list_lookup_insert_ne].
    by rewrite list_insert_ge by lia.
Qed.

(** The number [e] lies in the same half-open cycle as the stream's members, so
    it is recognised as a duplicate only if it is one. *)
Lemma window_fresh first max seen t e :
  tracked first max seen t -> e ∉ seen ->
  (forall x, x ∈ e :: seen -> first <= x < first + 65536) ->
  nth (Z.to_nat (u16 e mod sequenceWindow)) (tk_seenValid t) false
    && (nth (Z.to_nat (u16 e mod sequenceWindow)) (tk_seen t) 0 =? u16 e) = false.
Proof.
  intros Ht Hfresh Hspan. destruct (nth _ (tk_seenValid t) false) eqn:Hv; [|done]. cbn.
  destruct (td_window _ _ _ _ Ht _ Hv) as (x & Hx & ->). apply Z.eqb_neq. intros Heq.
  apply Hfresh. assert (e = x) as ->; [|done].
  pose proof (Hspan e (list_elem_of_here _ _)).
  pose proof (Hspan x (list_elem_of_further _ _ _ Hx)). word_lia.
Qed.

Lemma window_insert seen e i (sv : list bool) (sn : list Z) :
  length sv = length sn ->
  (forall j, nth j sv false = true -> exists x, x ∈ seen /\ nth j sn 0 = u16 x) ->
  forall j, nth j (<[i := true]> sv) false = true ->
    exists x, x ∈ e :: seen /\ nth j (<[i := u16 e]> sn) 0 = u16 x.
Proof.
  intros Hlen Hw j. rewrite !nth_insert, Hlen. case_decide as E.
  - intros _. exists e. split; [apply list_elem_of_here | done].
  - intros Hj. destruct (Hw j Hj) as (x & Hx & Hn). exists x. split; [by apply list_elem_of_further|done].
Qed.

(** The window arrays keep their fixed size. *)
Definition windowed (t : Tracker) : Prop :=
  length (tk_seen t) = 128%nat /\ length (tk_seenValid t) = 128%nat.

Lemma observe_windowed p at_ n t : windowed t -> windowed (Observe p at_ n t).2.
Proof.
  intros [H1 H2]. unfold Observe. destruct (_ && _); split; cbn; rewrite ?length_insert; done.
Qed.

(** One arrival of a fresh number. *)
Lemma observe_tracked first max seen t e p at_ n :
  windowed t -> tracked first max seen t -> 0 <= first -> first <= max -> max ∈ seen ->
  NoDup (e :: seen) ->
  (forall x, x ∈ e :: seen -> first <= x < first + 65536) -> (forall x, x ∈ seen -> x <= max) ->
  Z.abs (e - max) < 2 ^ 15 -> first < 65536 -> p_SequenceNumber p = u16 e ->
  let '(c, t') := Observe p at_ n t in
  tracked first (Z.max max e) (e :: seen) t' /\
  c = (if e <? max then PacketReordered else PacketNew) /\
  pub_reordered (tk_published t') =
    (if e <? max then u64 (pub_reordered (tk_published t) + 1) else pub_reordered (tk_published t)).
Proof.
  intros Hw Ht H0 Hmax Hmaxin Hnd Hspan Hle Hnear Hf Hseq.
  pose proof (NoDup_cons_1_1 _ _ Hnd) as Hfresh.
  assert (Hne : e <> max) by (intros ->; done).
  pose proof (window_fresh _ _ _ _ e Ht Hfresh Hspan) as Hdup.
  destruct Ht as [Hst Hm Hc Hwin Hlost Hd]. destruct Hw as [Hw1 Hw2].
  unfold Observe. rewrite Hseq, Hdup, Hst. cbn [negb andb].
  unfold sequence_step. rewrite Hm, delta_nearby by done.
  assert (Hin : forall x, x ∈ e :: seen -> first <= x <= Z.max max e).
  { intros x Hx. split; [by apply Hspan|]. apply elem_of_cons in Hx as [->|Hx]; [lia|].
    specialize (Hle x Hx). lia. }
  pose proof (interval_count first (Z.max max e) e seen Hnd Hin) as Hcount.
  pose proof (Hspan e (list_elem_of_here _ _)) as He. pose proof (Hspan max (list_elem_of_further _ _ _ Hmaxin)).
  pose proof (window_insert seen e (Z.to_nat (u16 e mod sequenceWindow)) _ _
                (eq_trans Hw2 (eq_sym Hw1)) Hwin) as Hwin'.
  destruct (Z.ltb_spec e max) as [Hlt|Hgt].
  - destruct (Z.ltb_spec 0 (e - max)); [lia|]. destruct (Z.ltb_spec (e - max) 0); [|lia].
    cbn. split_and!; auto. rewrite Z.max_l in * by lia. constructor; cbn; auto.
    rewrite Hlost. unfold decrementAtomic. destruct (Z.eqb_spec (max - first + 1 - Z.of_nat (length seen)) 0); lia.
  - destruct (Z.ltb_spec 0 (e - max)); [|lia].
    destruct (wrap_detected e max) as (Hwr & Hq1 & Hq2); [lia|]. rewrite Hwr.
    cbn. split_and!; auto. rewrite Z.max_r in * by lia. constructor; cbn; auto.
    + rewrite Hc. destruct (Z.eqb_spec (e / 65536) (max / 65536)) as [->|]; cbn; [done|].
      unfold u32. rewrite Z.mod_small; Z.div_mod_to_equations; lia.
    + rewrite Hlost. destruct (Z.ltb_spec 1 (e - max)); [|lia]. rewrite u64_id; word_lia.
Qed.

Lemma late_bound max es : 0 <= late max es <= Z.of_nat (length es).
Proof. revert max. induction es as [|e es IH]; intros max; cbn; [lia|]. specialize (IH (Z.max max e)). destruct (_ <? _); lia. Qed.

Lemma observe_all_tracked rest : forall first max seen t arrivals cs t',
  windowed t -> tracked first max seen t -> 0 <= first < 65536 -> first <= max -> max ∈ seen ->
  NoDup (rest ++ seen) -> (forall x, x ∈ rest ++ seen -> first <= x < first + 65536) ->
  (forall x, x ∈ seen -> x <= max) -> nearby max rest ->
  Forall2 carries rest arrivals -> 0 <= pub_reordered (tk_published t) < 2 ^ 63 ->
  Z.of_nat (length rest) < 2 ^ 62 ->
  pub_reordered (tk_published t) + late max rest < 2 ^ 63 ->
  observe_all arrivals t = (cs, t') ->
  tracked first (foldl Z.max max rest) (rev rest ++ seen) t' /\
  pub_reordered (tk_published t') = pub_reordered (tk_published t) + late max rest.
Proof.
  induction rest as [|e rest IH];
    intros first max seen t arrivals cs t' Hw Ht Hf Hmax Hmin Hnd Hspan Hle Hnear Hc Hr Hlen Hlate Hobs.
  { inversion Hc; subst. cbn in *. simplify_eq. split; [done|lia]. }
  inversion Hc as [|? [[p at_] n] ? arr' Hcar Hcs]; subst. cbn in Hobs.
  destruct (Observe p at_ n t) as [c t1] eqn:E1.
  destruct (observe_all arr' t1) as [cs1 t2] eqn:E2. simplify_eq.
  cbn [app] in Hnd, Hspan. cbn in Hnear. destruct Hnear as [Hn1 Hn2].
  assert (Hperm : e :: rest ++ seen ≡ₚ rest ++ e :: seen) by apply Permutation_middle.
  pose proof (observe_tracked first max seen t e p at_ n) as Hstep. rewrite E1 in Hstep.
  destruct Hstep as (Ht1 & _ & Hr1); auto with lia.
  { rewrite Hperm in Hnd. by apply NoDup_app in Hnd as (_ & _ & ?). }
  { intros x Hx. apply Hspan. rewrite Hperm, elem_of_app. auto. }
  pose proof (observe_windowed p at_ n t Hw) as Hw1. rewrite E1 in Hw1.
  pose proof (late_bound (Z.max max e) rest) as Hlb. cbn in Hlate, Hlen.
  assert (Hr1' : pub_reordered (tk_published t1)
                 = pub_reordered (tk_published t) + (if e <? max then 1 else 0)).
  { rewrite Hr1. destruct (e <? max); [|lia]. apply u64_id. word_lia. }
  rewrite Hperm in Hnd. setoid_rewrite Hperm in Hspan.
  eapply (IH first (Z.max max e) (e :: seen) t1) in E2 as [Ht2 Hr2]; auto with lia.
  - cbn [foldl rev late]. rewrite <- app_assoc; cbn. split; [exact Ht2 | lia].
  - apply elem_of_cons. destruct (Z.max_spec max e) as [[_ ->]|[_ ->]]; auto.
  - intros x [->|Hx]%elem_of_cons; [lia|]. specialize (Hle x Hx). lia.
  - rewrite Hr1'. destruct (e <? max); lia.
Qed.

Lemma nth_repeated {A} n i (x : A) : nth i (replicate n x) x = x.
Proof. revert i. induction n; intros [|i]; cbn; auto. Qed.

(** The first packet starts the account. *)
Lemma observe_first clockRate e0 p at_ n :
  0 <= e0 < 65536 -> p_SequenceNumber p = u16 e0 ->
  let t := (Observe p at_ n (NewTracker clockRate)).2 in
  tracked e0 e0 [e0] t /\ windowed t /\ pub_reordered (tk_published t) = 0.
Proof.
  intros He Hseq t. assert (Hu : u16 e0 = e0) by (apply u16_id; word_lia).
  assert (Hw : windowed (NewTracker clockRate)) by by vm_compute.
  split; [|split; [by apply observe_windowed|]]; subst t; unfold Observe;
    cbn [NewTracker tk_seenValid tk_seen tk_started tk_published tk_cycles tk_clockRate];
    rewrite nth_repeated; cbn [andb negb]; [|done].
  constructor; cbn [tk_started tk_maxSeq tk_cycles tk_seenValid tk_seen tk_published sq_maxSeq sq_cycles snd];
    auto; try lia.
  - by rewrite Z.div_small.
  - intros i Hi. rewrite Hseq in *. eapply (window_insert [] e0 _ (replicate 128 false) (replicate 128 0)).
    + by rewrite !length_replicate.
    + intros j. by rewrite nth_repeated.
    + exact Hi.
  - cbn. lia.
Qed.

(** Claim C21. Loss accounting is exact: when distinct packets of one sender
    cycle arrive in any order, each within half the sequence space of the
    highest number so far and none before the first, the tracker's "lost"
    counter is the number of packets between the first and the highest number
    that have not arrived, "reordered" counts the late arrivals, nothing is
    taken for a duplicate, and cycles and maximum together are the extended
    highest sequence number, also across the 16-bit wrap. *)
Theorem loss_accounting clockRate e0 rest arrivals cs t :
  0 <= e0 < 65536 ->
  NoDup (e0 :: rest) ->
  (forall e, e ∈ rest -> e0 <= e < e0 + 65536) ->
  nearby e0 rest ->
  Forall2 carries (e0 :: rest) arrivals ->
  observe_all arrivals (NewTracker clockRate) = (cs, t) ->
  let highest := foldl Z.max e0 rest in
  st_Lost (Tracker_Snapshot t) = (highest - e0 + 1) - Z.of_nat (length (e0 :: rest)) /\
  st_Reordered (Tracker_Snapshot t) = late e0 rest /\
  st_Duplicates (Tracker_Snapshot t) = 0 /\
  tk_cycles t + tk_maxSeq t = highest.
Proof.
  intros He Hnd Hspan Hnear Hc Hobs highest.
  inversion Hc as [|? [[p at_] n] ? arr' Hcar Hcs]; subst. cbn in Hobs.
  destruct (Observe p at_ n (NewTracker clockRate)) as [c t1] eqn:E1.
  destruct (observe_all arr' t1) as [cs1 t2] eqn:E2. simplify_eq.
  assert (Hlen : Z.of_nat (length rest) <= 65535).
  { pose proof (interval_count e0 (e0 + 65535) e0 rest Hnd) as Hcount.
    enough (Z.of_nat (length rest) <= e0 + 65535 - e0) by lia. apply Hcount.
    intros x [->|Hx]%elem_of_cons; [lia|]. specialize (Hspan x Hx). lia. }
  assert (Hu : u16 e0 = e0) by (apply u16_id; word_lia).
  unfold carries in Hcar; cbn in Hcar.
  pose proof (observe_first clockRate e0 p at_ n He Hcar) as Ht1. rewrite E1 in Ht1; cbn in Ht1.
  destruct Ht1 as (Ht1 & Hw1 & Hr1).
  pose proof (late_bound e0 rest) as Hlb.
  eapply (observe_all_tracked rest e0 e0 [e0]) in E2 as [[_ Hm Hcy _ Hl Hd] Hr]; auto; try lia.
  - split_and!; cbn; auto.
    + rewrite Hl. rewrite length_app, length_rev. cbn. unfold highest. lia.
    + lia.
    + rewrite Hm, Hcy. unfold u16, highest. word_lia.
  - apply list_elem_of_here.
  - by rewrite <- Permutation_cons_append.
  - intros x. rewrite elem_of_app, list_elem_of_singleton. intros [Hx| ->]; [by apply Hspan|lia].
  - intros x ->%list_elem_of_singleton. lia.
Qed.

Definition sample_arrival (seq ts at_ : Z) : Arrival := (sample_packet seq ts, at_, 15).

(** Numbers 65534, 65537 and 65536 of one cycle: 65535 is lost, 65536 is late. *)
Definition sample_arrivals : list Arrival :=
  [sample_arrival 65534 0 0; sample_arrival 1 480 (60 * Millisecond);
   sample_arrival 0 320 (70 * Millisecond)].

Lemma loss_accounting_witness :
  let t := (observe_all sample_arrivals (NewTracker 8000)).2 in
  st_Lost (Tracker_Snapshot t) = 1 /\ st_Reordered (Tracker_Snapshot t) = 1 /\
  tk_cycles t + tk_maxSeq t = 65537.
Proof.
  assert (Hnd : NoDup [65534; 65537; 65536]) by (rewrite !NoDup_cons, !not_elem_of_cons; repeat split;
    auto using not_elem_of_nil, NoDup_nil_2; lia).
  assert (Hspan : forall e, e ∈ [65537; 65536] -> 65534 <= e < 65534 + 65536).
  { intros e. rewrite !elem_of_cons, elem_of_nil. intros [->|[->|[]]]; lia. }
  assert (Hnear : nearby 65534 [65537; 65536]) by (cbn; lia).
  assert (Hc : Forall2 carries [65534; 65537; 65536] sample_arrivals)
    by (repeat constructor; vm_compute; reflexivity).
  pose proof (loss_accounting 8000 65534 [65537; 65536] sample_arrivals _ _
    ltac:(lia) Hnd Hspan Hnear Hc (surjective_pairing _)) as (Hl & Hr & _ & Hh).
  split; [exact Hl|]. split; [exact Hr | exact Hh].
Defined.

(** ** Jitter *)

(** A stream whose packets arrive exactly as their timestamps say keeps the
    jitter at zero: the transit time never changes. *)
Lemma observe_steady p at_ n t :
  tk_jitter t = S754_zero false ->
  arrival_transit (tk_clockRate t) at_ (p_Timestamp p) = tk_transit t ->
  tk_jitter (Observe p at_ n t).2 = S754_zero false /\
  tk_transit (Observe p at_ n t).2 = tk_transit t /\
  tk_clockRate (Observe p at_ n t).2 = tk_clockRate t.
Proof.
  intros Hj Htr. unfold Observe. destruct (_ && _); cbn; [done|]. rewrite Htr, Hj.
  split_and!; auto. destruct (0 <? _); [|done]. unfold jitter_step. by rewrite Z.sub_diag.
Qed.

(** A stream paced exactly at the clock rate, [n] samples per packet. *)
Fixpoint paced (k : nat) (seq ts at_ n ns : Z) : list Arrival :=
  match k with
  | O => []
  | S k => sample_arrival (u16 seq) (u32 ts) at_ :: paced k (seq + 1) (ts + n) (at_ + ns) n ns
  end.

Example paced_jitter_zero :
  st_JitterSamples (Tracker_Snapshot (observe_all (paced 50 0 0 0 160 (20 * Millisecond)) (NewTracker 8000)).2)
  = S754_zero false.
Proof. vm_compute. reflexivity. Qed.

(** The timestamp is subtracted as a 64-bit integer, so a perfectly paced
    stream whose 32-bit timestamp wraps is charged the whole wrap: two packets
    20 ms apart give a jitter of 2^32/16 samples. *)
Theorem jitter_timestamp_wrap :
  st_JitterSamples (Tracker_Snapshot
    (observe_all (paced 2 0 (2 ^ 32 - 160) 0 160 (20 * Millisecond)) (NewTracker 8000)).2)
  = f64_of_int (2 ^ 28).
Proof. vm_compute. reflexivity. Qed.

(** The arrival clock is computed as [UnixNano * clockRate], which exceeds an
    int64 for every instant after 1970-01-14 at 8000 Hz: when the product wraps,
    once in about 27 days, a perfectly paced stream reports a jitter of more
    than 10^9 samples. *)
Theorem jitter_arrival_wrap :
  let at_ := (2 ^ 63 / 8000) in
  let t := (observe_all (paced 2 0 0 (at_ - 10 * Millisecond) 160 (20 * Millisecond)) (NewTracker 8000)).2 in
  SFltb (f64_of_int 1000000000) (st_JitterSamples (Tracker_Snapshot t)) = true.
Proof. vm_compute. reflexivity. Qed.

(** A late packet moves the published extended sequence number backwards. *)
Theorem last_sequence_goes_back :
  st_LastSequence (Tracker_Snapshot (observe_all
    [sample_arrival 10 0 0; sample_arrival 12 320 0; sample_arrival 11 160 0] (NewTracker 8000)).2) = 11.
Proof. vm_compute. reflexivity. Qed.
