(* ===== verification/PortAlloc.v ===== *)
(** * RTP/RTCP port pool

    Models [internal/media/portalloc/pool.go]: the bounded pool of UDP port
    pairs, [Acquire] with its bounded retry over unbindable pairs, [bind], and
    the exactly-once [Release].  [acquire_loop] and [Release] are the sequential
    operations; Module [Concurrent] interleaves any number of them at their
    channel and socket operations. *)

From S2P Require Import Prelude Netip.

Definition ErrExhausted : error := Sentinel "RTP port pool exhausted".
Definition ErrLeaseReleased : error := Sentinel "RTP port lease released".

Record Config := mkConfig { BindIP : Addr; StartPort : Z; EndPort : Z }.

(** [available] is the buffered channel, oldest port first; its capacity is
    fixed at creation. *)
Record Pool := mkPool {
  pl_bindIP : Addr;
  pl_capacity : nat;
  pl_available : list Z;
  pl_inUse : Z;
}.

(** The state of a [sync.Once]. *)
Inductive Once := NotRun | Running | Ran.

#[global] Instance Once_eq_dec : EqDecision Once.
Proof. solve_decision. Defined.

Record Lease := mkLease { l_rtpPort : Z; l_once : Once; l_released : bool }.

(** The sockets this process holds open on the bind address, by port. *)
Definition Sockets := gset Z.

(** [net.ListenUDP]: refused when the port is already bound by this process or
    when the operating system refuses it ([os_ok] is false). *)
Definition ListenUDP (os_ok : bool) (port : Z) (open : Sockets) : result Z * Sockets :=
  if os_ok && negb (bool_decide (port ∈ open)) then (Ok port, {[port]} ∪ open)
  else (Err (Errorf "listen udp" []), open).

Definition CloseUDP (port : Z) (open : Sockets) : Sockets := open ∖ {[port]}.

(** [for port := start; port+1 <= end; port += 2 { available <- port }] *)
Fixpoint fill (fuel : nat) (port end_ : Z) : list Z :=
  match fuel with
  | O => []
  | S fuel => if port + 1 <=? end_ then u16 port :: fill fuel (port + 2) end_ else []
  end.

(** The loop runs at most [end - start] times, which is its fuel. *)
Definition New (cfg : Config) : result Pool :=
  _ ← guard_err (negb (Addr_IsValid (BindIP cfg)) || IsUnspecified (BindIP cfg))
        "media bind IP must be a specified address";
  _ ← guard_err ((StartPort cfg <? 1024) || negb (StartPort cfg mod 2 =? 0))
        "RTP start port must be an even port at or above 1024";
  _ ← guard_err ((EndPort cfg <=? StartPort cfg) || (EndPort cfg mod 2 =? 0))
        "RTCP end port must be odd and above the RTP start port";
  let pairCount := go_div (EndPort cfg - StartPort cfg + 1) 2 in
  _ ← guard_err (pairCount <=? 0) "RTP port range contains no pairs";
  Ok {| pl_bindIP := BindIP cfg; pl_capacity := Z.to_nat pairCount;
        pl_available := fill (Z.to_nat (EndPort cfg - StartPort cfg)) (StartPort cfg) (EndPort cfg); pl_inUse := 0 |}.

(** [bind]: both sockets or neither. *)
Definition bind (os_rtp os_rtcp : bool) (port : Z) (open : Sockets) : result Lease * Sockets :=
  match ListenUDP os_rtp port open with
  | (Err e, open) => (Err (Errorf "bind RTP port" [e]), open)
  | (Ok rtpConn, open) =>
      match ListenUDP os_rtcp (u16 (port + 1)) open with
      | (Err e, open) => (Err (Errorf "bind RTCP port" [e]), CloseUDP rtpConn open)
      | (Ok _, open) => (Ok (mkLease port NotRun false), open)
      end
  end.

(** What the surroundings decide in one attempt: whether the context is done,
    which ready case [select] takes, and whether each socket can be bound. *)
Record Attempt := mkAttempt {
  a_ctx : Context; a_prefer_done : bool; a_rtp_ok : Z -> bool; a_rtcp_ok : Z -> bool;
}.

Definition set_available (l : list Z) (p : Pool) : Pool :=
  mkPool (pl_bindIP p) (pl_capacity p) l (pl_inUse p).
Definition add_inUse (d : Z) (p : Pool) : Pool :=
  mkPool (pl_bindIP p) (pl_capacity p) (pl_available p) (i64 (pl_inUse p + d)).

(** The [select] of [Acquire]: a port, the context's error, or exhaustion. *)
Definition select_port (a_ctx : Context) (prefer_done : bool) (p : Pool) : result (Z * Pool) :=
  match pl_available p, a_ctx with
  | [], Some e => Err e
  | [], None => Err ErrExhausted
  | port :: rest, Some e => if prefer_done then Err e else Ok (port, set_available rest p)
  | port :: rest, None => Ok (port, set_available rest p)
  end.

Fixpoint acquire_loop (env : nat -> Attempt) (left : nat) (failed : list Z) (p : Pool) (open : Sockets)
    : result Lease * list Z * Pool * Sockets :=
  match left with
  | O => (Err ErrExhausted, failed, p, open)
  | S left' =>
      let a := env left in
      match select_port (a_ctx a) (a_prefer_done a) p with
      | Err e => (Err e, failed, p, open)
      | Ok (port, p) =>
          match bind (a_rtp_ok a port) (a_rtcp_ok a port) port open with
          | (Err _, open) => acquire_loop env left' (failed ++ [port]) p open
          | (Ok lease, open) => (Ok lease, failed, add_inUse 1 p, open)
          end
      end
  end.

(** [Acquire]: the deferred function gives the unbindable ports back. *)
Definition Acquire (env : nat -> Attempt) (p : option Pool) (open : Sockets)
    : result Lease * option Pool * Sockets :=
  match p with
  | None => (Err (Errorf "RTP port pool is required" []), None, open)
  | Some p =>
      let '(res, failed, p, open) := acquire_loop env (pl_capacity p) [] p open in
      (res, Some (set_available (pl_available p ++ failed) p), open)
  end.

Definition RTPPort (l : Lease) : Z := l_rtpPort l.
Definition RTCPPort (l : Lease) : Z := u16 (l_rtpPort l + 1).

Definition RTPConn (l : option Lease) : result Z :=
  match l with
  | None => Err ErrLeaseReleased
  | Some l => if l_released l then Err ErrLeaseReleased else Ok (RTPPort l)
  end.

Definition RTCPConn (l : option Lease) : result Z :=
  match l with
  | None => Err ErrLeaseReleased
  | Some l => if l_released l then Err ErrLeaseReleased else Ok (RTCPPort l)
  end.

(** [Release] run alone; [close_rtp] and [close_rtcp] are the sockets' close
    errors.  The sockets are gone whatever [Close] returns. *)
Definition Release (close_rtp close_rtcp : option error) (l : Lease) (p : Pool) (open : Sockets)
    : option error * Lease * Pool * Sockets :=
  match l_once l with
  | NotRun =>
      (errors_Join [close_rtp; close_rtcp], mkLease (l_rtpPort l) Ran true,
       set_available (pl_available p ++ [l_rtpPort l]) (add_inUse (-1) p),
       CloseUDP (RTCPPort l) (CloseUDP (RTPPort l) open))
  | _ => (None, l, p, open)
  end.

Definition Capacity (p : Pool) : Z := Z.of_nat (pl_capacity p).
Definition InUse (p : Pool) : Z := pl_inUse p.

(** ** Creation *)

Definition pairs (cfg : Config) : list Z :=
  (fun i => StartPort cfg + 2 * i) <$> seqZ 0 ((EndPort cfg - StartPort cfg + 1) / 2).

Lemma fill_pairs n : forall fuel port,
  (n <= fuel)%nat -> 0 <= port -> port + 2 * Z.of_nat n <= 65536 ->
  fill fuel port (port + 2 * Z.of_nat n - 1) = (fun i => port + 2 * i) <$> seqZ 0 (Z.of_nat n).
Proof.
  induction n as [|n IH]; intros [|fuel] port Hf H0 Hmax; try lia; try done; cbn [fill].
  { destruct (Z.leb_spec (port + 1) (port + 2 * Z.of_nat 0 - 1)); [lia | done]. }
  destruct (Z.leb_spec (port + 1) (port + 2 * Z.of_nat (S n) - 1)); [|lia].
  rewrite seqZ_cons by lia. rewrite fmap_cons. f_equal; [word_lia|].
  replace (port + 2 * Z.of_nat (S n) - 1) with (port + 2 + 2 * Z.of_nat n - 1) by lia.
  rewrite IH by lia. change (Z.succ 0) with (1 + 0). rewrite <- fmap_add_seqZ, <- list_fmap_compose.
  replace (Z.pred (Z.of_nat (S n))) with (Z.of_nat n) by lia.
  apply list_fmap_ext. intros i x _. cbn. lia.
Qed.

Definition valid_config (cfg : Config) : Prop :=
  1024 <= StartPort cfg /\ StartPort cfg mod 2 = 0 /\ StartPort cfg < EndPort cfg /\
  EndPort cfg mod 2 = 1 /\ EndPort cfg < 65536.

Lemma new_ok cfg p : is_u16 (StartPort cfg) -> is_u16 (EndPort cfg) ->
  New cfg = Ok p ->
  valid_config cfg /\ pl_available p = pairs cfg /\ pl_capacity p = length (pairs cfg) /\ pl_inUse p = 0.
Proof.
  intros Hs He. unfold New, guard_err. repeat (case_any; cbn [mbind result_bind]; try done). intros [= <-]; cbn.
  bool_prop. assert (Hv : valid_config cfg).
  { unfold valid_config, is_u16 in *. Z.div_mod_to_equations. lia. }
  split; [done|]. destruct Hv as (Hv1 & Hv2 & Hv3 & Hv4 & Hv5).
  pose (n := Z.to_nat ((EndPort cfg - StartPort cfg + 1) / 2)).
  assert (Hn : EndPort cfg = StartPort cfg + 2 * Z.of_nat n - 1) by (subst n; Z.div_mod_to_equations; lia).
  unfold pairs. rewrite length_fmap, length_seqZ.
  clearbody n. rewrite Hn. replace (StartPort cfg + 2 * Z.of_nat n - 1 - StartPort cfg + 1) with (Z.of_nat n * 2) by lia.
  unfold go_div. rewrite Z.quot_mul, Z.div_mul by lia. split_and!; try done.
  apply fill_pairs; lia.
Qed.

Lemma pairs_member cfg x : valid_config cfg -> x ∈ pairs cfg ->
  StartPort cfg <= x /\ x + 1 <= EndPort cfg /\ x mod 2 = 0.
Proof.
  intros (H1 & H2 & H3 & H4 & H5) (i & -> & Hi)%list_elem_of_fmap.
  apply elem_of_seqZ in Hi. Z.div_mod_to_equations. lia.
Qed.

Lemma pairs_NoDup cfg : NoDup (pairs cfg).
Proof. apply NoDup_fmap_2; [intros ???; lia | apply NoDup_seqZ]. Qed.

Lemma pairs_length cfg : valid_config cfg -> Z.of_nat (length (pairs cfg)) <= 32768.
Proof.
  intros (H1 & H2 & H3 & H4 & H5). unfold pairs. rewrite length_fmap, length_seqZ.
  Z.div_mod_to_equations. lia.
Qed.

(** ** The sequential operation *)

Definition bindable (a : Attempt) (open : Sockets) (port : Z) : bool :=
  is_Ok (bind (a_rtp_ok a port) (a_rtcp_ok a port) port open).1.

(** A refused bind leaves the sockets as they were. *)
Lemma bind_err os1 os2 port open e open' :
  bind os1 os2 port open = (Err e, open') -> open' = open.
Proof.
  unfold bind, ListenUDP, CloseUDP. destruct (os1 && _) eqn:E1.
  - destruct (os2 && _); [done|]. intros [= _ <-]. bool_prop. apply leibniz_equiv. set_solver.
  - by intros [= _ <-].
Qed.

Lemma bind_ok os1 os2 port open l open' :
  bind os1 os2 port open = (Ok l, open') ->
  l = mkLease port NotRun false /\ open' = {[u16 (port + 1)]} ∪ ({[port]} ∪ open) /\
  port ∉ open /\ u16 (port + 1) ∉ {[port]} ∪ open.
Proof.
  unfold bind, ListenUDP. repeat case_any; try done. intros [= <- <-]. bool_prop. done.
Qed.

Lemma acquire_loop_scan (a : Attempt) open : a_ctx a = None -> forall pre left failed p post,
  (length pre <= left)%nat ->
  Forall (fun x => bindable a open x = false) pre ->
  pl_available p = pre ++ post ->
  acquire_loop (fun _ => a) left failed p open =
  acquire_loop (fun _ => a) (left - length pre) (failed ++ pre) (set_available post p) open.
Proof.
  intros Hctx pre. induction pre as [|y pre IH]; intros left failed p post Hl Hpre Hav.
  - rewrite app_nil_r, Nat.sub_0_r. f_equal. destruct p; cbn in *. by subst.
  - destruct left as [|left]; [cbn in Hl; lia|]. cbn [acquire_loop]. unfold select_port at 1.
    rewrite Hav, Hctx. cbn [app]. inversion_clear Hpre as [|?? Hy Hpre'].
    unfold bindable in Hy. destruct (bind _ _ y open) as [[l|e] open'] eqn:E; [done|].
    apply bind_err in E as ->. cbn in Hl.
    rewrite (IH left (failed ++ [y]) (set_available (pre ++ post) p) post ltac:(lia) Hpre' eq_refl).
    by rewrite <- app_assoc.
Qed.

(** Acquire run without cancellation takes the first port, in queue
    order, whose two sockets can both be bound: it returns a fresh lease on it,
    leaves both sockets open and one more pair in use, and puts the ports it
    had to skip back behind the rest.  It reports exhaustion exactly when no
    available pair can be bound, and then neither the queue nor the sockets
    have changed. *)
Theorem acquire_first_bindable a p open :
  a_ctx a = None -> (length (pl_available p) <= pl_capacity p)%nat ->
  Acquire (fun _ => a) (Some p) open =
  match list_find (fun x => bindable a open x = true) (pl_available p) with
  | Some (i, x) =>
      (Ok (mkLease x NotRun false),
       Some (mkPool (pl_bindIP p) (pl_capacity p)
               (drop (S i) (pl_available p) ++ take i (pl_available p)) (i64 (pl_inUse p + 1))),
       {[u16 (x + 1)]} ∪ ({[x]} ∪ open))
  | None => (Err ErrExhausted, Some p, open)
  end.
Proof.
  intros Hctx Hcap. unfold Acquire. destruct (list_find _ _) as [[i x]|] eqn:Hf.
  - apply list_find_Some in Hf as (Hi & Hx & Hpre).
    pose proof (lookup_lt_Some _ _ _ Hi) as Hlt.
    rewrite (acquire_loop_scan a open Hctx (take i (pl_available p)) _ [] p (x :: drop (S i) (pl_available p)));
      [| rewrite length_take; lia | | by rewrite take_drop_middle ].
    + rewrite length_take_le by lia. destruct (pl_capacity p - i)%nat eqn:Hc; [lia|].
      cbn [acquire_loop]. unfold select_port. cbn [pl_available set_available]. rewrite Hctx.
      unfold bindable in Hx. destruct (bind _ _ x open) as [[l|e] open'] eqn:E; [|done].
      apply bind_ok in E as (-> & -> & _). done.
    + apply Forall_lookup. intros j y Hj. apply lookup_take_Some in Hj as [Hj Hji].
      apply not_true_is_false. by apply (Hpre j).
  - apply list_find_None in Hf.
    rewrite (acquire_loop_scan a open Hctx (pl_available p) _ [] p []);
      [| lia | eapply Forall_impl; [exact Hf|]; intros ?; apply not_true_is_false | by rewrite app_nil_r ].
    destruct (pl_capacity p - _)%nat; cbn [acquire_loop];
      unfold select_port; cbn [pl_available set_available]; rewrite ?Hctx; cbn; by destruct p.
Qed.

Definition sample_pool : Pool := mkPool (Addr4 2130706433) 3 [10000; 10002; 10004] 0.
(** Port 10000 is taken by another process, 10003 too. *)
Definition sample_attempt : Attempt :=
  mkAttempt None false (fun x => negb (x =? 10000)) (fun x => negb (x + 1 =? 10003)).

Lemma acquire_first_bindable_witness :
  Acquire (fun _ => sample_attempt) (Some sample_pool) ∅ =
  (Ok (mkLease 10004 NotRun false),
   Some (mkPool (Addr4 2130706433) 3 [10000; 10002] 1), {[10005]} ∪ ({[10004]} ∪ ∅)).
Proof.
  exact (acquire_first_bindable sample_attempt sample_pool ∅ eq_refl (le_n 3)).
Defined.

(** ** Concurrent use

    Any number of goroutines call [Acquire] and [Release] on one pool.  A step
    is one channel operation, one [bind], or one part of the released lease's
    [once] body; a send is only enabled while the channel has room. *)
Module Concurrent.

(** A goroutine in [Acquire] or [Release], by the operation it does next. *)
Inductive Thread :=
| AcqSelect (ctx : Context) (left : nat) (failed : list Z)
| AcqListenRTP (ctx : Context) (left : nat) (port : Z) (failed : list Z)
| AcqListenRTCP (ctx : Context) (left : nat) (port : Z) (failed : list Z)
| AcqCloseRTP (ctx : Context) (left : nat) (port : Z) (failed : list Z)  (* the RTCP port was refused *)
| AcqCount (port : Z) (failed : list Z)                    (* bound, inUse.Add(1) to come *)
| AcqReturn (failed : list Z) (res : result nat)           (* the deferred sends *)
| AcqDone (res : result nat)
| RelStart (id : nat)
| RelCloseRTP (id : nat) (port : Z)                        (* from here inside once.Do *)
| RelCloseRTCP (id : nat) (port : Z)
| RelCount (id : nat) (port : Z)
| RelSend (id : nat) (port : Z)
| RelDone.

Record World := mkWorld {
  w_pool : Pool; w_open : Sockets; w_leases : list Lease; w_threads : list Thread;
}.

Definition set_thread (i : nat) (t : Thread) (w : World) : World :=
  mkWorld (w_pool w) (w_open w) (w_leases w) (<[i := t]> (w_threads w)).
Definition set_pool (p : Pool) (w : World) : World :=
  mkWorld p (w_open w) (w_leases w) (w_threads w).
Definition set_open (o : Sockets) (w : World) : World :=
  mkWorld (w_pool w) o (w_leases w) (w_threads w).
Definition set_leases (l : list Lease) (w : World) : World :=
  mkWorld (w_pool w) (w_open w) l (w_threads w).
Definition spawn (t : Thread) (w : World) : World :=
  mkWorld (w_pool w) (w_open w) (w_leases w) (w_threads w ++ [t]).

(** A send on the channel: blocks while the buffer is full. *)
Definition send (port : Z) (p : Pool) : option Pool :=
  if decide (length (pl_available p) < pl_capacity p)%nat
  then Some (set_available (pl_available p ++ [port]) p) else None.

(** Every channel operation, socket call and counter update is a step. *)
Inductive step : World -> World -> Prop :=
| call_Acquire w ctx :
    step w (spawn (AcqSelect ctx (pl_capacity (w_pool w)) []) w)
| call_Release w id :
    is_Some (w_leases w !! id) -> step w (spawn (RelStart id) w)
| ctx_done w i left failed e :
    w_threads w !! i = Some (AcqSelect None left failed) ->
    step w (set_thread i (AcqSelect (Some e) left failed) w)
| acq_exhausted w i ctx failed :
    w_threads w !! i = Some (AcqSelect ctx 0 failed) ->
    step w (set_thread i (AcqReturn failed (Err ErrExhausted)) w)
| acq_select w i ctx left failed prefer port p :
    w_threads w !! i = Some (AcqSelect ctx (S left) failed) ->
    select_port ctx prefer (w_pool w) = Ok (port, p) ->
    step w (set_thread i (AcqListenRTP ctx left port failed) (set_pool p w))
| acq_select_err w i ctx left failed prefer e :
    w_threads w !! i = Some (AcqSelect ctx (S left) failed) ->
    select_port ctx prefer (w_pool w) = Err e ->
    step w (set_thread i (AcqReturn failed (Err e)) w)
| acq_rtp_err w i ctx left port failed os e open :
    w_threads w !! i = Some (AcqListenRTP ctx left port failed) ->
    ListenUDP os port (w_open w) = (Err e, open) ->
    step w (set_thread i (AcqSelect ctx left (failed ++ [port])) (set_open open w))
| acq_rtp_ok w i ctx left port failed os s open :
    w_threads w !! i = Some (AcqListenRTP ctx left port failed) ->
    ListenUDP os port (w_open w) = (Ok s, open) ->
    step w (set_thread i (AcqListenRTCP ctx left port failed) (set_open open w))
| acq_rtcp_err w i ctx left port failed os e open :
    w_threads w !! i = Some (AcqListenRTCP ctx left port failed) ->
    ListenUDP os (u16 (port + 1)) (w_open w) = (Err e, open) ->
    step w (set_thread i (AcqCloseRTP ctx left port failed) (set_open open w))
| acq_rtcp_ok w i ctx left port failed os s open :
    w_threads w !! i = Some (AcqListenRTCP ctx left port failed) ->
    ListenUDP os (u16 (port + 1)) (w_open w) = (Ok s, open) ->
    step w (set_thread i (AcqCount port failed) (set_open open w))
| acq_unbind w i ctx left port failed :
    w_threads w !! i = Some (AcqCloseRTP ctx left port failed) ->
    step w (set_thread i (AcqSelect ctx left (failed ++ [port])) (set_open (CloseUDP port (w_open w)) w))
| acq_count w i port failed :
    w_threads w !! i = Some (AcqCount port failed) ->
    step w (set_thread i (AcqReturn failed (Ok (length (w_leases w))))
             (set_leases (w_leases w ++ [mkLease port NotRun false]) (set_pool (add_inUse 1 (w_pool w)) w)))
| acq_return w i port failed res p :
    w_threads w !! i = Some (AcqReturn (port :: failed) res) ->
    send port (w_pool w) = Some p ->
    step w (set_thread i (AcqReturn failed res) (set_pool p w))
| acq_done w i res :
    w_threads w !! i = Some (AcqReturn [] res) -> step w (set_thread i (AcqDone res) w)
| rel_first w i id l :
    w_threads w !! i = Some (RelStart id) -> w_leases w !! id = Some l -> l_once l = NotRun ->
    step w (set_thread i (RelCloseRTP id (l_rtpPort l))
             (set_leases (<[id := mkLease (l_rtpPort l) Running true]> (w_leases w)) w))
| rel_again w i id l :
    w_threads w !! i = Some (RelStart id) -> w_leases w !! id = Some l -> l_once l = Ran ->
    step w (set_thread i RelDone w)
| rel_close_rtp w i id port :
    w_threads w !! i = Some (RelCloseRTP id port) ->
    step w (set_thread i (RelCloseRTCP id port) (set_open (CloseUDP port (w_open w)) w))
| rel_close_rtcp w i id port :
    w_threads w !! i = Some (RelCloseRTCP id port) ->
    step w (set_thread i (RelCount id port) (set_open (CloseUDP (u16 (port + 1)) (w_open w)) w))
| rel_count w i id port :
    w_threads w !! i = Some (RelCount id port) ->
    step w (set_thread i (RelSend id port) (set_pool (add_inUse (-1) (w_pool w)) w))
| rel_send w i id port p :
    w_threads w !! i = Some (RelSend id port) -> send port (w_pool w) = Some p ->
    step w (set_thread i RelDone
             (set_leases (<[id := mkLease port Ran true]> (w_leases w)) (set_pool p w))).

Definition start (p : Pool) : World := mkWorld p ∅ [] [].

Definition reachable (p : Pool) (w : World) : Prop := rtc step (start p) w.

(** ** Who has what *)

(** The pairs a goroutine holds, the pairs it is releasing and has not counted
    down, and the sockets it has open. *)
Definition held (t : Thread) : list Z :=
  match t with
  | AcqSelect _ _ failed | AcqReturn failed _ => failed
  | AcqListenRTP _ _ port failed | AcqListenRTCP _ _ port failed | AcqCloseRTP _ _ port failed | AcqCount port failed => port :: failed
  | RelCloseRTP _ port | RelCloseRTCP _ port | RelCount _ port | RelSend _ port => [port]
  | _ => []
  end.
Definition releasing (t : Thread) : list Z :=
  match t with RelCloseRTP _ port | RelCloseRTCP _ port | RelCount _ port => [port] | _ => [] end.
Definition thread_sockets (t : Thread) : list Z :=
  match t with
  | AcqListenRTCP _ _ port _ | AcqCloseRTP _ _ port _ => [port]
  | AcqCount port _ | RelCloseRTP _ port => [port; u16 (port + 1)]
  | RelCloseRTCP _ port => [u16 (port + 1)]
  | _ => []
  end.

(** A lease that is not being released has its pair and both sockets. *)
Definition leased (l : Lease) : list Z := if decide (l_once l = NotRun) then [l_rtpPort l] else [].
Definition lease_sockets (l : Lease) : list Z :=
  if decide (l_once l = NotRun) then [l_rtpPort l; u16 (l_rtpPort l + 1)] else [].

Definition held_ports (w : World) : list Z := concat (held <$> w_threads w).
Definition leased_ports (w : World) : list Z := concat (leased <$> w_leases w).
Definition counted_ports (w : World) : list Z := leased_ports w ++ concat (releasing <$> w_threads w).
Definition open_sockets (w : World) : list Z := concat (lease_sockets <$> w_leases w) ++ concat (thread_sockets <$> w_threads w).

(** A goroutine refers to leases that exist, and one inside the [once] body to a
    lease whose [once] has started. *)
Definition refers (ls : list Lease) (t : Thread) : Prop :=
  match t with
  | RelStart id => is_Some (ls !! id)
  | RelCloseRTP id _ | RelCloseRTCP id _ | RelCount id _ | RelSend id _ => exists l, ls !! id = Some l /\ l_once l <> NotRun
  | _ => True
  end.

Record inv (cfg : Config) (w : World) : Prop := {
  inv_ports : pl_available (w_pool w) ++ held_ports w ++ leased_ports w ≡ₚ pairs cfg;
  inv_capacity : pl_capacity (w_pool w) = length (pairs cfg);
  inv_inUse : pl_inUse (w_pool w) = Z.of_nat (length (counted_ports w));
  inv_distinct : NoDup (open_sockets w);
  inv_open : w_open w = list_to_set (open_sockets w);
  inv_threads : Forall (refers (w_leases w)) (w_threads w);
}.

(** What a step may do to the counter and to the sockets. *)
Definition counter_moves (w w' : World) : Prop :=
  pl_inUse (w_pool w') = pl_inUse (w_pool w) /\ counted_ports w' ≡ₚ counted_ports w \/
  (exists port, pl_inUse (w_pool w') = i64 (pl_inUse (w_pool w) + 1) /\ counted_ports w' ≡ₚ port :: counted_ports w) \/
  (exists port, pl_inUse (w_pool w') = i64 (pl_inUse (w_pool w) + -1) /\ counted_ports w ≡ₚ port :: counted_ports w').
Definition sockets_move (w w' : World) : Prop :=
  w_open w' = w_open w /\ open_sockets w' ≡ₚ open_sockets w \/
  (exists s, s ∉ w_open w /\ w_open w' = {[s]} ∪ w_open w /\ open_sockets w' ≡ₚ s :: open_sockets w) \/
  (exists s, w_open w' = CloseUDP s (w_open w) /\ open_sockets w ≡ₚ s :: open_sockets w').

Lemma releasing_held (ts : list Thread) : concat (releasing <$> ts) ⊆+ concat (held <$> ts).
Proof.
  induction ts as [|t ts IH]; csimpl; [done|]. apply submseteq_app; [|done].
  destruct t; cbn; done || apply submseteq_nil_l.
Qed.

Lemma counted_pairs cfg w : pl_available (w_pool w) ++ held_ports w ++ leased_ports w ≡ₚ pairs cfg ->
  counted_ports w ⊆+ pairs cfg.
Proof.
  intros <-. unfold counted_ports. rewrite (Permutation_app_comm (leased_ports w)).
  trans (held_ports w ++ leased_ports w); [|apply submseteq_inserts_l; done].
  apply submseteq_app; [apply releasing_held | done].
Qed.

Lemma inv_next cfg w w' :
  valid_config cfg -> inv cfg w ->
  pl_available (w_pool w') ++ held_ports w' ++ leased_ports w'
    ≡ₚ pl_available (w_pool w) ++ held_ports w ++ leased_ports w ->
  pl_capacity (w_pool w') = pl_capacity (w_pool w) ->
  counter_moves w w' -> sockets_move w w' ->
  Forall (refers (w_leases w')) (w_threads w') ->
  inv cfg w'.
Proof.
  intros Hv [H1 H2 H3 H4 H5 H6] Hp Hc Hi Ho Ht.
  assert (H1' : pl_available (w_pool w') ++ held_ports w' ++ leased_ports w' ≡ₚ pairs cfg) by by rewrite Hp.
  assert (Hlen : Z.of_nat (length (counted_ports w')) <= 32768).
  { pose proof (submseteq_length _ _ (counted_pairs cfg w' H1')). pose proof (pairs_length cfg Hv). lia. }
  constructor; auto; [congruence | | |].
  - destruct Hi as [[-> Hb]|[(port & -> & Hb)|(port & -> & Hb)]].
    + by rewrite Hb.
    + rewrite Hb in *. rewrite H3, i64_id; cbn [length] in *; word_lia.
    + rewrite H3, Hb, i64_id; cbn [length] in *; word_lia.
  - destruct Ho as [[_ Hb]|[(s & Hs & _ & Hb)|(s & _ & Hb)]].
    + by rewrite Hb.
    + rewrite Hb. apply NoDup_cons. split; [|done]. intros Hin. apply Hs. rewrite H5. by apply elem_of_list_to_set.
    + rewrite Hb in H4. by apply NoDup_cons in H4 as [_ ?].
  - destruct Ho as [[-> Hb]|[(s & _ & -> & Hb)|(s & -> & Hb)]].
    + by rewrite H5, Hb.
    + by rewrite H5, Hb.
    + unfold CloseUDP. rewrite Hb in H4. apply NoDup_cons in H4 as [Hs _]. rewrite H5, Hb. cbn.
      apply set_eq. intros x. rewrite elem_of_difference, elem_of_union, elem_of_singleton, elem_of_list_to_set.
      split; [naive_solver|]. intros Hx. split; [auto|]. by intros ->.
Qed.

(** References survive when leases are added or their [once] advances. *)
Definition leases_le (ls ls' : list Lease) : Prop :=
  forall id l, ls !! id = Some l -> exists l', ls' !! id = Some l' /\ (l_once l <> NotRun -> l_once l' <> NotRun).

Lemma refers_mono ls ls' t : leases_le ls ls' -> refers ls t -> refers ls' t.
Proof.
  intros Hle. destruct t; cbn; auto; [intros [l Hl] | intros (l & Hl & Ho)..];
    destruct (Hle _ _ Hl) as (l' & Hl' & Ho'); eauto.
Qed.

Lemma leases_le_refl ls : leases_le ls ls.
Proof. intros id l Hl. eauto. Qed.

Lemma leases_le_app ls l : leases_le ls (ls ++ [l]).
Proof. intros id l' Hl. exists l'. split; [by apply lookup_app_l_Some | done]. Qed.

Lemma leases_le_insert ls id l : l_once l <> NotRun -> leases_le ls (<[id := l]> ls).
Proof.
  intros Ho j l' Hj. destruct (decide (id = j)) as [->|].
  - exists l. split; [apply list_lookup_insert_eq; by eapply lookup_lt_Some | done].
  - exists l'. by rewrite list_lookup_insert_ne.
Qed.

Lemma refers_insert ls ls' (ts : list Thread) i t :
  leases_le ls ls' -> Forall (refers ls) ts -> refers ls' t -> Forall (refers ls') (<[i := t]> ts).
Proof.
  intros Hle Hts Ht. apply Forall_insert; [|done].
  eapply Forall_impl; [exact Hts|]. intros x. by apply refers_mono.
Qed.

Lemma refers_spawn ls (ts : list Thread) t :
  Forall (refers ls) ts -> refers ls t -> Forall (refers ls) (ts ++ [t]).
Proof. intros. by apply Forall_app_2; [|constructor]. Qed.

#[local] Hint Resolve leases_le_refl leases_le_app leases_le_insert refers_insert refers_spawn inv_threads : pbx.
#[local] Hint Extern 1 (refers _ _) => exact I : pbx.

Lemma select_port_ok ctx prefer p port p' :
  select_port ctx prefer p = Ok (port, p') ->
  pl_available p = port :: pl_available p' /\ pl_capacity p' = pl_capacity p /\ pl_inUse p' = pl_inUse p.
Proof. unfold select_port. destruct p; cbn. repeat case_any; try done; by intros [= <- <-]. Qed.

Lemma send_ok port p p' :
  send port p = Some p' ->
  pl_available p' = pl_available p ++ [port] /\ pl_capacity p' = pl_capacity p /\ pl_inUse p' = pl_inUse p.
Proof. unfold send. case_decide; [intros [= <-]; done | done]. Qed.

Lemma listen_ok os port open s open' : ListenUDP os port open = (Ok s, open') -> port ∉ open /\ open' = {[port]} ∪ open.
Proof. unfold ListenUDP. case_bool_decide; [by rewrite andb_false_r|]. destruct os; cbn; [|done]. by intros [= _ <-]. Qed.

Lemma listen_err os port open e open' : ListenUDP os port open = (Err e, open') -> open' = open.
Proof. unfold ListenUDP. destruct (_ && _); [done|]. by intros [= _ <-]. Qed.

(** The shares of goroutine [i] and of lease [id] before and after a change. *)
Ltac shares Hi :=
  destruct (concat_insert_perm held _ _ _ Hi) as (?rh & ?Hrh & ?Hrh');
  destruct (concat_insert_perm releasing _ _ _ Hi) as (?rc & ?Hrc & ?Hrc');
  destruct (concat_insert_perm thread_sockets _ _ _ Hi) as (?rs & ?Hrs & ?Hrs').
Ltac lease_shares Hl Ho :=
  destruct (concat_insert_perm leased _ _ _ Hl) as (?rl & ?Hrl & ?Hrl');
  destruct (concat_insert_perm lease_sockets _ _ _ Hl) as (?rk & ?Hrk & ?Hrk');
  unfold leased at 2 in Hrl; unfold lease_sockets at 2 in Hrk; rewrite ?Ho in Hrl, Hrk.

Ltac account :=
  unfold counted_ports, held_ports, leased_ports, open_sockets, set_thread, set_leases, set_open, set_pool, spawn;
  cbn [w_threads w_pool w_open w_leases add_inUse set_available pl_available];
  rewrite ?fmap_app, ?concat_app;
  repeat match goal with H : concat _ ≡ₚ _ |- _ => rewrite H; clear H end;
  repeat match goal with H : forall _, concat _ ≡ₚ _ |- _ => rewrite H; clear H end;
  repeat match goal with H : pl_available _ = _ |- _ => rewrite H; clear H end;
  cbn [held releasing thread_sockets leased lease_sockets l_once l_rtpPort app fmap list_fmap concat decide]; cbn;
  rewrite ?app_nil_r; try solve_Permutation.

(** The goals of [inv_next]; the counter and the sockets stay as they are unless
    they were dealt with before. *)
Ltac stays := left; split; [first [done | congruence] | account].
Ltac next Hinv :=
  apply (inv_next _ _ _ ltac:(eassumption) Hinv); [account | try done | try stays | try stays | cbn; eauto with pbx].

Lemma pool_step_inv cfg w w' : valid_config cfg -> inv cfg w -> step w w' -> inv cfg w'.
Proof.
  intros Hv Hinv Hstep. pose proof (inv_threads _ _ Hinv) as Hth. destruct Hstep as
    [w ctx|w id Hid|w i left failed e Hi|w i ctx failed Hi|w i ctx left failed prefer port p Hi Hsel
    |w i ctx left failed prefer e Hi Hsel|w i ctx left port failed os e open Hi Hl|w i ctx left port failed os s open Hi Hl
    |w i ctx left port failed os e open Hi Hl|w i ctx left port failed os s open Hi Hl|w i ctx left port failed Hi
    |w i port failed Hi|w i port failed res p Hi Hs|w i res Hi|w i id l Hi Hl Ho|w i id l Hi Hl Ho|w i id port Hi
    |w i id port Hi|w i id port Hi|w i id port p Hi Hs]; try shares Hi;
    try (pose proof (Forall_lookup_1 _ _ _ _ Hth Hi) as Href; cbn in Href).
  - next Hinv.
  - next Hinv.
  - next Hinv.
  - next Hinv.
  - apply select_port_ok in Hsel as (Hav & Hc & Hu). next Hinv.
  - next Hinv.
  - apply listen_err in Hl as ->. next Hinv.
  - apply listen_ok in Hl as [Hfree ->]. next Hinv. right; left. exists port. split_and!; [done | done | account].
  - apply listen_err in Hl as ->. next Hinv.
  - apply listen_ok in Hl as [Hfree ->]. next Hinv. right; left. exists (u16 (port + 1)). split_and!; [done | done | account].
  - next Hinv. right; right. exists port. split; [done | account].
  - next Hinv. right; left. exists port. split; [done | account].
  - apply send_ok in Hs as (Hav & Hc & Hu). next Hinv.
  - next Hinv.
  - lease_shares Hl Ho. next Hinv.
    apply (refers_insert (w_leases w)); [by apply leases_le_insert | done | cbn].
    eexists. split; [apply list_lookup_insert_eq; by eapply lookup_lt_Some | done].
  - next Hinv.
  - next Hinv. right; right. exists port. split; [done | account].
  - next Hinv. right; right. exists (u16 (port + 1)). split; [done | account].
  - next Hinv. right; right. exists port. split; [done | account].
  - apply send_ok in Hs as (Hav & Hc & Hu). destruct Href as (l & Hl & Ho). lease_shares Hl Ho.
    rewrite decide_False in Hrl, Hrk by done. next Hinv.
Qed.

Lemma pool_start_inv cfg p : is_u16 (StartPort cfg) -> is_u16 (EndPort cfg) ->
  New cfg = Ok p -> valid_config cfg /\ inv cfg (start p).
Proof.
  intros Hs He Hp. destruct (new_ok cfg p Hs He Hp) as (Hv & Hav & Hc & Hu). split; [done|].
  constructor; cbn; auto; [by rewrite app_nil_r, Hav | constructor].
Qed.

Lemma pool_reachable_inv cfg p w : is_u16 (StartPort cfg) -> is_u16 (EndPort cfg) ->
  New cfg = Ok p -> reachable p w -> valid_config cfg /\ inv cfg w.
Proof.
  intros Hs He Hp. destruct (pool_start_inv cfg p Hs He Hp) as [Hv H0].
  intros Hr. split; [done|]. revert H0. unfold reachable in Hr.
  induction Hr; auto. intros. apply IHHr. by eapply pool_step_inv.
Qed.

(** A goroutine that has returned. *)
Definition returned (t : Thread) : Prop := match t with AcqDone _ | RelDone => True | _ => False end.

(** When every goroutine has returned, only leases have ports and sockets. *)
Lemma at_rest (w : World) : Forall returned (w_threads w) ->
  held_ports w = [] /\ counted_ports w = leased_ports w /\ open_sockets w = concat (lease_sockets <$> w_leases w).
Proof.
  unfold held_ports, counted_ports, open_sockets. intros Hr.
  assert (Hn : concat (held <$> w_threads w) = [] /\ concat (releasing <$> w_threads w) = [] /\
               concat (thread_sockets <$> w_threads w) = []).
  { induction Hr as [|t ts Ht _ (E1 & E2 & E3)]; [done|]. rewrite !fmap_cons. cbn [concat]. rewrite E1, E2, E3. by destruct t. }
  destruct Hn as (-> & -> & ->). by rewrite !app_nil_r.
Qed.

(** Claim C8. However acquisitions, cancellations, refused binds and releases
    interleave, one channel operation, socket call or counter update at a time:
    the ports in the queue, in goroutines' hands and under lease are exactly the
    configured pairs, none twice; the sockets the process has open are exactly the
    two of every lease that is not being released and those the goroutines inside
    [bind] and [Release] have open at that point, none twice, so no refused bind
    leaks one; InUse is the number of those leases plus the releases that have not
    counted down yet, and never exceeds the capacity.  Once all calls have
    returned, InUse is the number of leases in force and their sockets are the only
    open ones. *)
Theorem pool_conservation cfg p w :
  is_u16 (StartPort cfg) -> is_u16 (EndPort cfg) ->
  New cfg = Ok p -> reachable p w ->
  pl_available (w_pool w) ++ held_ports w ++ leased_ports w ≡ₚ pairs cfg /\
  NoDup (pl_available (w_pool w) ++ held_ports w ++ leased_ports w) /\
  w_open w = list_to_set (open_sockets w) /\ NoDup (open_sockets w) /\
  InUse (w_pool w) = Z.of_nat (length (counted_ports w)) /\ InUse (w_pool w) <= Capacity (w_pool w) /\
  (Forall returned (w_threads w) ->
     pl_available (w_pool w) ++ leased_ports w ≡ₚ pairs cfg /\
     InUse (w_pool w) = Z.of_nat (length (leased_ports w)) /\
     w_open w = list_to_set (concat (lease_sockets <$> w_leases w))).
Proof.
  intros Hs He Hp Hr. destruct (pool_reachable_inv cfg p w Hs He Hp Hr) as [Hv Hinv].
  destruct Hinv as [H1 H2 H3 H4 H5 H6]. pose proof (submseteq_length _ _ (counted_pairs cfg w H1)) as Hlen.
  split_and!; auto.
  - rewrite H1. apply pairs_NoDup.
  - unfold InUse, Capacity. rewrite H3, H2. lia.
  - intros (Hh & Hc & Ho)%at_rest. rewrite Hh in H1. rewrite Hc in H3. rewrite Ho in H5. by split_and!.
Qed.

(** A port is always given back without waiting: whenever a goroutine
    is about to send a port into the pool's channel, after a failed bind or in
    Release, the channel has room. *)
Theorem give_back_never_blocks cfg p w i t port rest :
  is_u16 (StartPort cfg) -> is_u16 (EndPort cfg) ->
  New cfg = Ok p -> reachable p w -> w_threads w !! i = Some t ->
  ((exists res, t = AcqReturn (port :: rest) res) \/ (exists id, t = RelSend id port)) ->
  is_Some (send port (w_pool w)).
Proof.
  intros Hs He Hp Hr Hi Ht. destruct (pool_reachable_inv cfg p w Hs He Hp Hr) as [Hv Hinv].
  destruct (concat_insert_perm held _ _ _ Hi) as (rh & Hrh & _).
  pose proof (Permutation_length (inv_ports _ _ Hinv)) as Hlen.
  unfold held_ports in Hlen. rewrite !length_app, Hrh, length_app in Hlen.
  unfold send. rewrite (inv_capacity _ _ Hinv). case_decide as Hd; [by eexists|].
  destruct Ht as [[res ->]|[id ->]]; cbn in Hlen; lia.
Qed.

(** A run: the RTCP socket of 10000 is refused, 10002 is leased, and the goroutine is
    about to give 10000 back. *)
Definition sample_config : Config := mkConfig (Addr4 2130706433) 10000 10003.
Definition sample_start : Pool := mkPool (Addr4 2130706433) 2 [10000; 10002] 0.
Definition sample_world : World :=
  mkWorld (mkPool (Addr4 2130706433) 2 [] 1) ({[10003]} ∪ ({[10002]} ∪ ∅)) [mkLease 10002 NotRun false]
    [AcqReturn [10000] (Ok 0%nat)].

Lemma sample_reachable : reachable sample_start sample_world.
Proof.
  unfold reachable. eapply rtc_l; [apply (call_Acquire _ None)|].
  eapply rtc_l; [eapply (acq_select _ 0 None 1 [] false); reflexivity|].
  eapply rtc_l; [eapply (acq_rtp_ok _ 0 None 1 10000 [] true); reflexivity|].
  eapply rtc_l; [eapply (acq_rtcp_err _ 0 None 1 10000 [] false); reflexivity|].
  eapply rtc_l; [eapply (acq_unbind _ 0); reflexivity|].
  eapply rtc_l; [eapply (acq_select _ 0 None 0 [10000] false); reflexivity|].
  eapply rtc_l; [eapply (acq_rtp_ok _ 0 None 0 10002 [10000] true); reflexivity|].
  eapply rtc_l; [eapply (acq_rtcp_ok _ 0 None 0 10002 [10000] true); reflexivity|].
  eapply rtc_l; [eapply (acq_count _ 0); reflexivity|].
  apply rtc_refl.
Qed.

Lemma pool_conservation_witness :
  InUse (w_pool sample_world) = 1 /\
  pl_available (w_pool sample_world) ++ held_ports sample_world ++ leased_ports sample_world ≡ₚ [10000; 10002].
Proof.
  assert (Hs : is_u16 10000) by (unfold is_u16; lia). assert (He : is_u16 10003) by (unfold is_u16; lia).
  destruct (pool_conservation sample_config sample_start sample_world Hs He eq_refl sample_reachable)
    as (Hp & _ & _ & _ & Hu & _).
  split; [exact Hu | exact Hp].
Defined.

Lemma give_back_never_blocks_witness : is_Some (send 10000 (w_pool sample_world)).
Proof.
  assert (Hs : is_u16 10000) by (unfold is_u16; lia). assert (He : is_u16 10003) by (unfold is_u16; lia).
  apply (give_back_never_blocks sample_config sample_start sample_world 0 _ 10000 [] Hs He eq_refl
           sample_reachable eq_refl).
  left. exists (Ok 0%nat). reflexivity.
Defined.

End Concurrent.
