(* ===== verification/Sdp.v ===== *)
(** * SDP audio offers and answers

    Models [internal/sip/sdp/audio.go].  The text syntax of SDP is read and
    written by the [pion/sdp] package, which is the parameter [SdpCodec]; the
    program's own code works on the parsed [SessionDescription], whose fields
    are those the program reads or writes. *)

From Stdlib Require Import Strings.Ascii.
From S2P Require Import Prelude GoStrings Netip.

Definition clockRateG711 : Z := 8000.
Definition defaultPTime : Z := 20.

Definition ErrNoAudio : error := Sentinel "SDP has no supported audio media".
Definition ErrNoCommonCodec : error := Sentinel "SDP has no common G.711 codec".

Definition Direction := string.
Definition DirectionSendRecv : Direction := "sendrecv".
Definition DirectionSendOnly : Direction := "sendonly".
Definition DirectionRecvOnly : Direction := "recvonly".
Definition DirectionInactive : Direction := "inactive".

Record Codec := mkCodec { Name : string; PayloadType : Z; ClockRate : Z }.

#[export] Instance Codec_eq_dec : EqDecision Codec.
Proof. solve_decision. Defined.

Record Endpoint := mkEndpoint {
  ep_RTP : AddrPort; ep_RTCP : AddrPort; ep_Direction : Direction; ep_Codecs : list Codec;
}.

Record Mapping := mkMapping {
  m_Name : string; m_ClockRate : Z; m_CallerPT : Z; m_CalleePT : Z;
  m_CallerDTMFPT : Z; m_CalleeDTMFPT : Z; m_HasDTMF : bool;
}.

(** ** The parsed description ([pion/sdp] types) *)

Record Attribute := mkAttribute { Key : string; Value : string }.
(** [ConnectionInformation] with its optional address. *)
Record ConnectionInformation := mkConnection {
  ci_NetworkType : string; ci_AddressType : string; ci_Address : option string;
}.
Record MediaDescription := mkMedia {
  md_Media : string; md_Port : Z; md_Protos : list string; md_Formats : list string;
  md_ConnectionInformation : option ConnectionInformation; md_Attributes : list Attribute;
}.
Record Origin := mkOrigin {
  or_Username : string; or_SessionID : Z; or_SessionVersion : Z; or_NetworkType : string;
  or_AddressType : string; or_UnicastAddress : string;
}.
Record SessionDescription := mkSession {
  sd_Version : Z; sd_Origin : Origin; sd_SessionName : string;
  sd_ConnectionInformation : option ConnectionInformation;
  sd_Timing : list (Z * Z); sd_Attributes : list Attribute;
  sd_MediaDescriptions : list MediaDescription;
}.

(** The wire format, read and written by [pion/sdp]. *)
Class SdpCodec := {
  Body : Type;
  Unmarshal : Body -> result SessionDescription;
  Marshal : SessionDescription -> result Body;
}.

(** [description.Attribute(key)]: the value of the first attribute with the key. *)
Fixpoint lookup_attribute (key : string) (attributes : list Attribute) : option string :=
  match attributes with
  | [] => None
  | a :: rest => if String.eqb (Key a) key then Some (Value a) else lookup_attribute key rest
  end.

(** ** Parsing *)

Definition isSupported (codec : Codec) : bool :=
  (ClockRate codec =? clockRateG711)
  && (String.eqb (Name codec) "PCMU" || String.eqb (Name codec) "PCMA"
      || String.eqb (Name codec) "TELEPHONE-EVENT").

Fixpoint hasAudioCodec (codecs : list Codec) : bool :=
  match codecs with
  | [] => false
  | codec :: rest =>
      if String.eqb (Name codec) "PCMU" || String.eqb (Name codec) "PCMA" then true
      else hasAudioCodec rest
  end.

Fixpoint audioDescription (medias : list MediaDescription) : option MediaDescription :=
  match medias with
  | [] => None
  | media :: rest => if String.eqb (md_Media media) "audio" then Some media else audioDescription rest
  end.

(** One [rtpmap] value. *)
Definition parse_rtpmap (value : string) : result Codec :=
  match Fields value with
  | [f0; f1] =>
      match ParseUint f0 7 with
      | None => Err (Errorf "invalid SDP payload type" [])
      | Some payload =>
          match Split f1 "/" with
          | e0 :: e1 :: _ =>
              match ParseUint e1 32 with
              | None => Err (Errorf "invalid SDP clock rate" [])
              | Some clockRate => Ok (mkCodec (ToUpper e0) payload clockRate)
              end
          | _ => Err (Errorf "invalid SDP encoding" [])
          end
      end
  | _ => Err (Errorf "invalid SDP rtpmap" [])
  end.

(** The first loop of [parseCodecs]: the table of [rtpmap] attributes. *)
Fixpoint parse_rtpmaps (attributes : list Attribute) (rtpMaps : gmap Z Codec) : result (gmap Z Codec) :=
  match attributes with
  | [] => Ok rtpMaps
  | a :: rest =>
      if negb (String.eqb (Key a) "rtpmap") then parse_rtpmaps rest rtpMaps
      else codec ← parse_rtpmap (Value a); parse_rtpmaps rest (<[PayloadType codec := codec]> rtpMaps)
  end.

(** The codec one format of the media line stands for. *)
Definition format_codec (rtpMaps : gmap Z Codec) (format : string) : option Codec :=
  match ParseUint format 7 with
  | None => None
  | Some payloadType =>
      let codec :=
        match rtpMaps !! payloadType with
        | Some codec => Some codec
        | None =>
            if payloadType =? 0 then Some (mkCodec "PCMU" 0 clockRateG711)
            else if payloadType =? 8 then Some (mkCodec "PCMA" 8 clockRateG711)
            else None
        end in
      match codec with
      | Some codec => if isSupported codec then Some codec else None
      | None => None
      end
  end.

Definition parseCodecs (media : MediaDescription) : result (list Codec) :=
  rtpMaps ← parse_rtpmaps (md_Attributes media) ∅;
  let codecs := omap (format_codec rtpMaps) (md_Formats media) in
  if negb (hasAudioCodec codecs) then Err ErrNoAudio else Ok codecs.

(** [mediaDirection]: the first direction, in the order of the loop, that the
    media or the session names. *)
Fixpoint first_direction (candidates : list Direction) (session media : list Attribute) : Direction :=
  match candidates with
  | [] => DirectionSendRecv
  | d :: rest =>
      match lookup_attribute d media, lookup_attribute d session with
      | Some _, _ => d
      | None, Some _ => d
      | None, None => first_direction rest session media
      end
  end.

Definition mediaDirection (description : SessionDescription) (media : MediaDescription) : Direction :=
  first_direction [DirectionInactive; DirectionSendOnly; DirectionRecvOnly; DirectionSendRecv]
    (sd_Attributes description) (md_Attributes media).

Definition connection_address (ci : option ConnectionInformation) : option string :=
  match ci with Some c => ci_Address c | None => None end.

(** The RTCP port: the next one unless an [rtcp] attribute names it. *)
Definition rtcp_port (media : MediaDescription) (rtpPort : Z) : result Z :=
  match lookup_attribute "rtcp" (md_Attributes media) with
  | None => Ok (u16 (rtpPort + 1))
  | Some value =>
      match Fields value with
      | [] => Err (Errorf "invalid SDP RTCP port" [])
      | f0 :: _ =>
          match ParseUint f0 16 with
          | None => Err (Errorf "invalid SDP RTCP port" [])
          | Some parsed => if parsed =? 0 then Err (Errorf "invalid SDP RTCP port" []) else Ok parsed
          end
      end
  end.

Definition parse_description (description : SessionDescription) : result Endpoint :=
  match audioDescription (sd_MediaDescriptions description) with
  | None => Err ErrNoAudio
  | Some media =>
      if (md_Port media <=? 0) || (65535 <? md_Port media) then Err ErrNoAudio else
      if negb (String.eqb (Join (md_Protos media) "/") "RTP/AVP")
      then Err (Errorf "unsupported audio profile" []) else
      let addressText :=
        match connection_address (md_ConnectionInformation media),
              connection_address (sd_ConnectionInformation description) with
        | Some a, _ => a
        | None, Some a => a
        | None, None => ""%string
        end in
      match ParseAddr addressText with
      | Err _ => Err (Errorf "invalid SDP connection address" [])
      | Ok address =>
          if IsUnspecified address then Err (Errorf "invalid SDP connection address" []) else
          let rtpPort := u16 (md_Port media) in
          rtcpPort ← rtcp_port media rtpPort;
          codecs ← parseCodecs media;
          Ok {| ep_RTP := AddrPortFrom address rtpPort; ep_RTCP := AddrPortFrom address rtcpPort;
                ep_Direction := mediaDirection description media; ep_Codecs := codecs |}
      end
  end.

Definition ParseAudio `{SdpCodec} (body : Body) : result Endpoint :=
  match Unmarshal body with
  | Err e => Err (Errorf "parse SDP" [e])
  | Ok description => parse_description description
  end.

(** ** Negotiation *)

Fixpoint findCodec (codecs : list Codec) (name : string) : option Codec :=
  match codecs with
  | [] => None
  | codec :: rest => if String.eqb (Name codec) name then Some codec else findCodec rest name
  end.

Fixpoint match_offered (offered : list Codec) (answered : Codec) : option Codec :=
  match offered with
  | [] => None
  | o :: rest =>
      if negb (String.eqb (Name o) (Name answered)) || negb (ClockRate o =? ClockRate answered)
      then match_offered rest answered
      else Some o
  end.

Fixpoint negotiate_loop (offer answer : Endpoint) (answers : list Codec) : result Mapping :=
  match answers with
  | [] => Err ErrNoCommonCodec
  | answered :: rest =>
      if negb (String.eqb (Name answered) "PCMU") && negb (String.eqb (Name answered) "PCMA")
      then negotiate_loop offer answer rest
      else
        match match_offered (ep_Codecs offer) answered with
        | None => negotiate_loop offer answer rest
        | Some offered =>
            match findCodec (ep_Codecs offer) "TELEPHONE-EVENT",
                  findCodec (ep_Codecs answer) "TELEPHONE-EVENT" with
            | Some callerDTMF, Some calleeDTMF =>
                Ok (mkMapping (Name answered) (ClockRate answered) (PayloadType offered) (PayloadType answered)
                      (PayloadType callerDTMF) (PayloadType calleeDTMF) true)
            | _, _ =>
                Ok (mkMapping (Name answered) (ClockRate answered) (PayloadType offered) (PayloadType answered)
                      0 0 false)
            end
        end
  end.

Definition Negotiate (offer answer : Endpoint) : result Mapping :=
  negotiate_loop offer answer (ep_Codecs answer).

(** ** Building *)

Definition NewAttribute := mkAttribute.
Definition NewPropertyAttribute (key : string) : Attribute := mkAttribute key "".

Definition codec_attributes (codec : Codec) : list Attribute :=
  NewAttribute "rtpmap" (Itoa (PayloadType codec) +:+ String " "
      (Name codec +:+ String "/" (Itoa (ClockRate codec))))%string
  :: (if String.eqb (Name codec) "TELEPHONE-EVENT"
      then [NewAttribute "fmtp" (Itoa (PayloadType codec) +:+ " 0-16")%string] else []).

(** The description [BuildAudio] marshals; [now] is the clock reading. *)
Definition audio_description (now : Time) (localRTP localRTCP : AddrPort) (codecs : list Codec)
    (direction : Direction) : SessionDescription :=
  let supported := filter (fun c => isSupported c = true) codecs in
  let attributes :=
    concat (codec_attributes <$> supported)
    ++ [NewAttribute "rtcp" (Itoa (ap_Port localRTCP)); NewPropertyAttribute direction;
        NewAttribute "ptime" (Itoa defaultPTime)] in
  let addressType := if Is6 (ap_Addr localRTP) then "IP6"%string else "IP4"%string in
  let sessionID := u64 (UnixNano now) in
  let address := Addr_String (ap_Addr localRTP) in
  {| sd_Version := 0;
     sd_Origin := mkOrigin "aixvolinkpbx" sessionID sessionID "IN" addressType address;
     sd_SessionName := "AixvoLinkPBX";
     sd_ConnectionInformation := Some (mkConnection "IN" addressType (Some address));
     sd_Timing := [(0, 0)]; sd_Attributes := [];
     sd_MediaDescriptions :=
       [{| md_Media := "audio"; md_Port := ap_Port localRTP; md_Protos := ["RTP"; "AVP"]%string;
           md_Formats := (fun c => Itoa (PayloadType c)) <$> supported;
           md_ConnectionInformation := None; md_Attributes := attributes |}] |}.

Definition BuildAudio `{SdpCodec} (now : Time) (localRTP localRTCP : AddrPort) (codecs : list Codec)
    (direction : Direction) : result Body :=
  if negb (AddrPort_IsValid localRTP) || negb (AddrPort_IsValid localRTCP)
     || negb (bool_decide (ap_Addr localRTP = ap_Addr localRTCP))
  then Err (Errorf "local RTP and RTCP addresses are invalid" []) else
  if negb (hasAudioCodec codecs) then Err ErrNoAudio else
  let direction := if String.eqb direction "" then DirectionSendRecv else direction in
  wrap_err "marshal SDP" (Marshal (audio_description now localRTP localRTCP codecs direction)).

Definition CodecListForAnswer (mapping : Mapping) : list Codec :=
  mkCodec (m_Name mapping) (m_CallerPT mapping) (m_ClockRate mapping)
  :: (if m_HasDTMF mapping
      then [mkCodec "TELEPHONE-EVENT" (m_CallerDTMFPT mapping) clockRateG711] else []).

Definition CodecListForOffer (endpoint : Endpoint) : list Codec := ep_Codecs endpoint.

(** ** What a parsed endpoint guarantees *)

Definition audio (c : Codec) : Prop := Name c = "PCMU"%string \/ Name c = "PCMA"%string.

Definition supported (c : Codec) : Prop :=
  ClockRate c = clockRateG711 /\ (audio c \/ Name c = "TELEPHONE-EVENT"%string).

Lemma isSupported_spec c : isSupported c = true <-> supported c.
Proof.
  unfold isSupported, supported, audio.
  rewrite andb_true_iff, !orb_true_iff, Z.eqb_eq, !String.eqb_eq. done.
Qed.

Lemma hasAudioCodec_spec codecs : hasAudioCodec codecs = true <-> exists c, c ∈ codecs /\ audio c.
Proof.
  unfold audio. induction codecs as [|c rest IH]; cbn.
  - split; [done | intros (c & Hc & _); by apply elem_of_nil in Hc].
  - setoid_rewrite elem_of_cons. destruct (String.eqb (Name c) "PCMU") eqn:E1, (String.eqb (Name c) "PCMA") eqn:E2;
      cbn; bool_prop; rewrite ?IH; naive_solver.
Qed.

Definition payload7 (c : Codec) : Prop := 0 <= PayloadType c < 128.

Lemma parse_rtpmap_payload v c : parse_rtpmap v = Ok c -> payload7 c.
Proof.
  unfold parse_rtpmap. repeat case_any; try done. intros [= <-]. unfold payload7; cbn.
  by eapply (ParseUint_range _ 7).
Qed.

(** Each entry of the table sits at its own payload type. *)
Lemma parse_rtpmaps_keys attrs : forall m m',
  (forall pt c, m !! pt = Some c -> PayloadType c = pt /\ payload7 c) ->
  parse_rtpmaps attrs m = Ok m' ->
  forall pt c, m' !! pt = Some c -> PayloadType c = pt /\ payload7 c.
Proof.
  induction attrs as [|a attrs IH]; intros m m' Hm; cbn; [by intros [= <-]|].
  destruct (negb _); [by apply IH|]. destruct (parse_rtpmap (Value a)) as [c0|] eqn:E; cbn; [|done].
  apply IH. intros pt c [[<- <-]|[_ Hl]]%lookup_insert_Some; [|by apply Hm].
  split; [done | by eapply parse_rtpmap_payload].
Qed.

Lemma format_codec_ok m format c :
  (forall pt c, m !! pt = Some c -> PayloadType c = pt /\ payload7 c) ->
  format_codec m format = Some c ->
  supported c /\ payload7 c /\ ParseUint format 7 = Some (PayloadType c).
Proof.
  intros Hm. unfold format_codec. destruct (ParseUint format 7) as [pt|] eqn:Ep; [|done].
  destruct (m !! pt) as [c'|] eqn:El.
  - destruct (isSupported c') eqn:Es; [|done]. intros [= <-]. destruct (Hm _ _ El) as [<- Hp].
    by rewrite isSupported_spec in Es.
  - destruct (Z.eqb_spec pt 0) as [->|]; [|destruct (Z.eqb_spec pt 8) as [->|]; [|done]];
      cbn; intros [= <-]; unfold supported, audio, payload7; cbn; auto with lia.
Qed.

Lemma parseCodecs_ok media codecs : parseCodecs media = Ok codecs ->
  Forall (fun c => supported c /\ payload7 c) codecs /\ (exists c, c ∈ codecs /\ audio c).
Proof.
  unfold parseCodecs. destruct (parse_rtpmaps _ ∅) as [m|] eqn:Em; cbn; [|done].
  destruct (hasAudioCodec _) eqn:Ea; cbn; [|done]. intros [= <-]. rewrite hasAudioCodec_spec in Ea.
  split; [|done]. apply Forall_forall. intros c (f & _ & Hf)%list_elem_of_omap.
  eapply format_codec_ok in Hf; [naive_solver|].
  eapply parse_rtpmaps_keys; [|exact Em]. intros ?? Hl. by rewrite lookup_empty in Hl.
Qed.

(** The RTCP port is zero only if it is not given and the next port does not exist. *)
Lemma rtcp_port_range media p q : rtcp_port media p = Ok q ->
  is_u16 q /\ (is_u16 p -> q = 0 -> p = 65535 /\ lookup_attribute "rtcp" (md_Attributes media) = None).
Proof.
  unfold rtcp_port. repeat case_any; try done; intros [= <-].
  - eapply ParseUint_range in Heqo0. split; [by unfold is_u16|]. bool_prop. lia.
  - split; [apply u16_range|]. intros Hp Hq. split; [|done]. word_lia.
Qed.

Lemma ParseAddr_valid text a : ParseAddr text = Ok a -> Addr_IsValid a = true.
Proof. unfold ParseAddr, parseIPv6. intros Ha. repeat case_any; simplify_eq; done. Qed.

Lemma first_direction_member ds session media l :
  DirectionSendRecv ∈ ds ++ l -> first_direction ds session media ∈ ds ++ l.
Proof.
  revert l. induction ds as [|d ds IH]; intros l; cbn; [done|]. intros Hin.
  destruct (lookup_attribute d media); [apply list_elem_of_here|].
  destruct (lookup_attribute d session); [apply list_elem_of_here|].
  rewrite (Permutation_middle ds l d) in *. by apply IH.
Qed.

(** Claim C40. Whatever description a peer sends, an accepted endpoint is well formed:
    a valid, specified address with a nonzero 16-bit RTP port, RTCP on the same address
    with a 16-bit port, one of the four directions, only G.711 and telephone-event
    codecs at 8 kHz with 7-bit payload types, and at least one audio codec.  The RTCP
    port is zero in one case only, an RTP port of 65535 without an [rtcp] attribute
    ([rtcp_port_wraps]). *)
Theorem parsed_endpoint_wellformed description ep :
  parse_description description = Ok ep ->
  Addr_IsValid (ap_Addr (ep_RTP ep)) = true /\ IsUnspecified (ap_Addr (ep_RTP ep)) = false /\
  0 < ap_Port (ep_RTP ep) < 65536 /\ ap_Addr (ep_RTCP ep) = ap_Addr (ep_RTP ep) /\
  is_u16 (ap_Port (ep_RTCP ep)) /\ (ap_Port (ep_RTCP ep) = 0 -> ap_Port (ep_RTP ep) = 65535) /\
  ep_Direction ep ∈ [DirectionInactive; DirectionSendOnly; DirectionRecvOnly; DirectionSendRecv] /\
  Forall (fun c => ClockRate c = 8000 /\ Name c ∈ ["PCMU"; "PCMA"; "TELEPHONE-EVENT"]%string /\ 0 <= PayloadType c < 128)
    (ep_Codecs ep) /\
  Exists (fun c => Name c = "PCMU"%string \/ Name c = "PCMA"%string) (ep_Codecs ep).
Proof.
  unfold parse_description. destruct (audioDescription _) as [media|]; [|done].
  destruct (_ || _) eqn:Ep; [done|]. destruct (negb _); [done|].
  destruct (ParseAddr _) as [address|] eqn:Ea; [|done]. destruct (IsUnspecified address) eqn:Eu; [done|].
  destruct (rtcp_port media _) as [q|] eqn:Eq; cbn; [|done].
  destruct (parseCodecs media) as [codecs|] eqn:Ec; cbn; [|done]. intros [= <-]; cbn. bool_prop.
  apply rtcp_port_range in Eq as [Hq Hz]. apply parseCodecs_ok in Ec as [Hall Hex]. apply ParseAddr_valid in Ea.
  split_and!; [done | done | word_lia | word_lia | done | exact Hq | | | |].
  - intros Hq0. apply Hz; [apply u16_range | done].
  - apply (first_direction_member [DirectionInactive; DirectionSendOnly; DirectionRecvOnly; DirectionSendRecv] _ _ []).
    do 3 apply list_elem_of_further. apply list_elem_of_here.
  - eapply Forall_impl; [exact Hall|]. intros c [[Hr Hn] Hp]. split; [done|]. split; [|done].
    rewrite !elem_of_cons. unfold audio in Hn. tauto.
  - apply Exists_exists. destruct Hex as (c & Hc & Hn). by exists c.
Qed.

(** ** Negotiation *)

Definition agree (o a : Codec) : Prop := Name o = Name a /\ ClockRate o = ClockRate a.

Lemma match_offered_Some offered a o : match_offered offered a = Some o ->
  o ∈ offered /\ agree o a.
Proof.
  induction offered as [|x rest IH]; cbn; [done|]. destruct (_ || _) eqn:E.
  - intros H. destruct (IH H). split; [by apply list_elem_of_further | done].
  - intros [= ->]. bool_prop. split; [apply list_elem_of_here | done].
Qed.

Lemma match_offered_None offered a o : match_offered offered a = None -> o ∈ offered -> ~ agree o a.
Proof.
  induction offered as [|x rest IH]; cbn; [intros _ Hin; by apply elem_of_nil in Hin|].
  destruct (_ || _) eqn:E; [|done]. intros H [->|Hin]%elem_of_cons; [|by apply IH].
  intros [Hn Hc]. rewrite Hn, Hc, String.eqb_refl, Z.eqb_refl in E. done.
Qed.

Lemma findCodec_spec codecs name :
  match findCodec codecs name with
  | Some c => c ∈ codecs /\ Name c = name
  | None => forall c, c ∈ codecs -> Name c <> name
  end.
Proof.
  induction codecs as [|x rest IH]; cbn; [intros c Hc; by apply elem_of_nil in Hc|].
  destruct (String.eqb (Name x) name) eqn:E; bool_prop.
  - split; [apply list_elem_of_here | done].
  - destruct (findCodec rest name).
    + destruct IH. split; [by apply list_elem_of_further | done].
    + intros c [->|Hc]%elem_of_cons; auto.
Qed.

(** The DTMF part of a mapping: both legs or none. *)
Definition dtmf_agreed (offer answer : Endpoint) (m : Mapping) : Prop :=
  if m_HasDTMF m
  then (exists c, c ∈ ep_Codecs offer /\ Name c = "TELEPHONE-EVENT"%string /\ PayloadType c = m_CallerDTMFPT m) /\
       (exists c, c ∈ ep_Codecs answer /\ Name c = "TELEPHONE-EVENT"%string /\ PayloadType c = m_CalleeDTMFPT m)
  else (forall c, c ∈ ep_Codecs offer -> Name c <> "TELEPHONE-EVENT"%string) \/
       (forall c, c ∈ ep_Codecs answer -> Name c <> "TELEPHONE-EVENT"%string).

Definition negotiated (offer answer : Endpoint) (answers : list Codec) (r : result Mapping) : Prop :=
  match r with
  | Ok m => exists pre a post o,
      answers = pre ++ a :: post /\ o ∈ ep_Codecs offer /\ audio a /\ agree o a /\
      (forall b p, b ∈ pre -> audio b -> p ∈ ep_Codecs offer -> ~ agree p b) /\
      m_Name m = Name a /\ m_ClockRate m = ClockRate a /\ m_CalleePT m = PayloadType a /\
      m_CallerPT m = PayloadType o /\ dtmf_agreed offer answer m
  | Err e => e = ErrNoCommonCodec /\
      forall b p, b ∈ answers -> audio b -> p ∈ ep_Codecs offer -> ~ agree p b
  end.

(** Skipping one answered codec that has no audio match. *)
Lemma negotiated_skip offer answer x rest r :
  (audio x -> forall p, p ∈ ep_Codecs offer -> ~ agree p x) ->
  negotiated offer answer rest r -> negotiated offer answer (x :: rest) r.
Proof.
  intros Hx. destruct r as [m|e]; cbn.
  - intros (pre & a & post & o & -> & Ho & Ha & Hag & Hpre & Hm). exists (x :: pre), a, post, o.
    destruct Hm as (H1 & H2 & H3 & H4 & H5). split_and!; auto. intros b p [->|Hb]%elem_of_cons Hb' Hp; eauto.
  - intros [-> Hall]. split; [done|]. intros b p [->|Hb]%elem_of_cons Hb' Hp; [by apply Hx | by apply Hall].
Qed.

Lemma negotiate_loop_spec offer answer answers :
  negotiated offer answer answers (negotiate_loop offer answer answers).
Proof.
  induction answers as [|x rest IH]; cbn [negotiate_loop].
  { split; [done|]. intros b p Hb. by apply elem_of_nil in Hb. }
  destruct (negb (String.eqb (Name x) "PCMU") && negb (String.eqb (Name x) "PCMA")) eqn:E.
  { apply negotiated_skip; [|done]. bool_prop. by intros [?|?]. }
  assert (Ha : audio x) by (unfold audio; bool_prop; destruct E; bool_prop; auto).
  destruct (match_offered _ x) as [o|] eqn:Eo.
  2:{ apply negotiated_skip; [|done]. intros _ p. by apply match_offered_None. }
  apply match_offered_Some in Eo as [Ho Hag].
  pose proof (findCodec_spec (ep_Codecs offer) "TELEPHONE-EVENT") as H1.
  pose proof (findCodec_spec (ep_Codecs answer) "TELEPHONE-EVENT") as H2.
  destruct (findCodec (ep_Codecs offer) _), (findCodec (ep_Codecs answer) _);
    exists [], x, rest, o; (split_and!; [done|done|done|done| |done|done|done|done|]);
    try (intros b p Hb; by apply elem_of_nil in Hb); unfold dtmf_agreed; cbn; naive_solver.
Qed.

(** Negotiation picks the answer's first G.711 codec that the offer
    also has, with the payload type each leg gave it, and DTMF exactly when
    both legs offer telephone-event; it fails, with ErrNoCommonCodec, exactly
    when no answered G.711 codec was offered. *)
Theorem negotiate_spec offer answer :
  negotiated offer answer (ep_Codecs answer) (Negotiate offer answer).
Proof. apply negotiate_loop_spec. Qed.

(** The answer sent to the caller stays within the caller's offer:
    every codec of the answer's list was offered, with the same payload type and
    clock rate, as RFC 3264 demands. *)
Theorem answer_within_offer offer answer m :
  Forall supported (ep_Codecs offer) ->
  Negotiate offer answer = Ok m -> forall c, c ∈ CodecListForAnswer m -> c ∈ ep_Codecs offer.
Proof.
  intros Hs Hm. pose proof (negotiate_loop_spec offer answer (ep_Codecs answer)) as Hspec.
  unfold Negotiate in Hm. rewrite Hm in Hspec.
  destruct Hspec as (pre & a & post & o & _ & Ho & _ & [Hn Hc] & _ & Hmn & Hmc & _ & Hmp & Hd).
  unfold CodecListForAnswer. intros c [->|Hin]%elem_of_cons.
  - rewrite Hmn, Hmc, Hmp, <- Hn, <- Hc. by destruct o.
  - unfold dtmf_agreed in Hd. destruct (m_HasDTMF m); [|by apply elem_of_nil in Hin].
    apply list_elem_of_singleton in Hin as ->. destruct Hd as [(d & Hdin & Hdn & Hdp) _].
    rewrite Forall_forall in Hs. destruct (Hs d Hdin) as [Hrate _]. rewrite <- Hdn, <- Hdp, <- Hrate. by destruct d.
Qed.

Definition sample_offer : Endpoint :=
  mkEndpoint (AddrPortFrom (Addr4 1) 4000) (AddrPortFrom (Addr4 1) 4001) DirectionSendRecv
    [mkCodec "PCMA" 8 8000; mkCodec "PCMU" 0 8000; mkCodec "TELEPHONE-EVENT" 96 8000].
Definition sample_answer : Endpoint :=
  mkEndpoint (AddrPortFrom (Addr4 2) 5000) (AddrPortFrom (Addr4 2) 5001) DirectionSendRecv
    [mkCodec "TELEPHONE-EVENT" 101 8000; mkCodec "PCMU" 0 8000; mkCodec "PCMA" 8 8000].

Lemma answer_within_offer_witness :
  mkCodec "TELEPHONE-EVENT" 96 8000 ∈ ep_Codecs sample_offer /\ mkCodec "PCMU" 0 8000 ∈ ep_Codecs sample_offer.
Proof.
  assert (Hs : Forall supported (ep_Codecs sample_offer)).
  { cbn. rewrite !Forall_cons. unfold supported, audio; cbn. auto 10. }
  assert (Hm : Negotiate sample_offer sample_answer = Ok (mkMapping "PCMU" 8000 0 0 96 101 true)) by reflexivity.
  pose proof (answer_within_offer sample_offer sample_answer _ Hs Hm) as H.
  split; apply H; cbn.
  - apply list_elem_of_further, list_elem_of_here.
  - apply list_elem_of_here.
Defined.

(** ** What is built can be read back *)

Lemma lookup_attribute_app key l k :
  lookup_attribute key (l ++ k) =
  match lookup_attribute key l with Some v => Some v | None => lookup_attribute key k end.
Proof. induction l as [|a l IH]; cbn; [done|]. by destruct (String.eqb _ _). Qed.

(** Codec attributes are [rtpmap] and [fmtp] only. *)
Lemma codec_attributes_other key codecs :
  String.eqb "rtpmap" key = false -> String.eqb "fmtp" key = false ->
  lookup_attribute key (concat (codec_attributes <$> codecs)) = None.
Proof.
  intros H1 H2. induction codecs as [|c rest IH]; [done|]. cbn [fmap list_fmap concat].
  rewrite lookup_attribute_app, IH. unfold codec_attributes, NewAttribute.
  destruct (String.eqb (Name c) _); cbn [lookup_attribute Key]; by rewrite H1, ?H2.
Qed.

Lemma supported_name c : supported c ->
  Name c <> ""%string /\ all_chars (fun x => solid x && negb (Ascii.eqb x "/")) (Name c) = true /\ ToUpper (Name c) = Name c.
Proof. intros [_ [[->| ->]| ->]]; by vm_compute. Qed.

Lemma parse_rtpmap_built c : supported c -> payload7 c ->
  parse_rtpmap (Itoa (PayloadType c) +:+ String " " (Name c +:+ String "/" (Itoa (ClockRate c))))%string = Ok c.
Proof.
  intros Hs Hp. destruct (supported_name c Hs) as (Hne & Hchars & Hup). destruct Hs as [Hrate _].
  assert (Hsolid : all_chars solid (Name c) = true)
    by (eapply all_chars_impl; [|exact Hchars]; intros x [Hx1 Hx2]%andb_true_iff; assumption).
  assert (Hslash : all_chars (fun x => negb (Ascii.eqb x "/")) (Name c) = true)
    by (eapply all_chars_impl; [|exact Hchars]; intros x [Hx1 Hx2]%andb_true_iff; assumption).
  assert (Hclock : Itoa (ClockRate c) = "8000"%string) by by rewrite Hrate.
  unfold parse_rtpmap. rewrite Fields_pair.
  - rewrite (ParseUint_Itoa _ 7) by exact Hp. rewrite Split_app by done. rewrite Hclock.
    change (Split "8000" "/") with ["8000"%string]. rewrite Hup.
    change (ParseUint "8000" 32) with (Some clockRateG711). rewrite <- Hrate. by destruct c.
  - apply Itoa_solid. apply Hp.
  - rewrite all_chars_app, Hsolid, Hclock. done.
  - apply Itoa_digits. apply Hp.
  - by destruct (Name c).
Qed.

Lemma parse_rtpmaps_built codecs : Forall (fun c => supported c /\ payload7 c) codecs -> forall tail m,
  parse_rtpmaps (concat (codec_attributes <$> codecs) ++ tail) m
  = parse_rtpmaps tail (foldl (fun m c => <[PayloadType c := c]> m) m codecs).
Proof.
  induction 1 as [|c rest [Hs Hp] _ IH]; intros tail m; [done|].
  cbn [fmap list_fmap concat foldl]. unfold codec_attributes at 1, NewAttribute.
  cbn [app parse_rtpmaps Key Value]. change (String.eqb "rtpmap" "rtpmap") with true. cbn [negb].
  rewrite parse_rtpmap_built by done. cbn [mbind result_bind].
  destruct (String.eqb (Name c) "TELEPHONE-EVENT"); cbn [app parse_rtpmaps Key]; apply IH.
Qed.

Lemma foldl_insert_lookup codecs : NoDup (PayloadType <$> codecs) -> forall (m : gmap Z Codec) c,
  c ∈ codecs -> foldl (fun m c => <[PayloadType c := c]> m) m codecs !! PayloadType c = Some c.
Proof.
  induction codecs as [|x rest IH]; intros Hnd m c; [intros Hc; by apply elem_of_nil in Hc|].
  cbn in *. apply NoDup_cons in Hnd as [Hx Hnd]. intros [->|Hc]%elem_of_cons; [|by apply IH].
  assert (Hkeep : forall l (m0 : gmap Z Codec) k, k ∉ PayloadType <$> l ->
            foldl (fun m c => <[PayloadType c := c]> m) m0 l !! k = m0 !! k).
  { clear. induction l as [|y l IH]; intros m0 k Hk; cbn; [done|]. cbn in Hk.
    apply not_elem_of_cons in Hk as [Hk1 Hk2]. rewrite IH by done. by apply lookup_insert_ne, not_eq_sym. }
  rewrite Hkeep by done. apply lookup_insert_eq.
Qed.

Lemma formats_built codecs (m : gmap Z Codec) : Forall (fun c => supported c /\ payload7 c) codecs ->
  (forall c, c ∈ codecs -> m !! PayloadType c = Some c) ->
  omap (format_codec m) ((fun c => Itoa (PayloadType c)) <$> codecs) = codecs.
Proof.
  induction 1 as [|c rest [Hs Hp] _ IH]; intros Hm; [done|]. csimpl.
  unfold format_codec at 1. rewrite (ParseUint_Itoa _ 7) by exact Hp.
  rewrite Hm by apply list_elem_of_here. apply isSupported_spec in Hs as ->. f_equal.
  apply IH. intros d Hd. apply Hm. by apply list_elem_of_further.
Qed.

(** The whole list of codec attributes, format list and table together. *)
Lemma parseCodecs_built codecs tail media :
  Forall (fun c => supported c /\ payload7 c) codecs -> NoDup (PayloadType <$> codecs) ->
  (exists c, c ∈ codecs /\ audio c) ->
  (forall m, parse_rtpmaps tail m = Ok m) ->
  md_Attributes media = concat (codec_attributes <$> codecs) ++ tail ->
  md_Formats media = (fun c => Itoa (PayloadType c)) <$> codecs ->
  parseCodecs media = Ok codecs.
Proof.
  intros Hall Hnd Hex Htail Hattr Hf. unfold parseCodecs.
  rewrite Hattr, Hf, parse_rtpmaps_built, Htail by done. cbn [mbind result_bind].
  rewrite formats_built; [|done|intros c Hc; by apply foldl_insert_lookup].
  apply hasAudioCodec_spec in Hex as ->. done.
Qed.

Definition known_direction (d : Direction) : Prop :=
  d ∈ [DirectionInactive; DirectionSendOnly; DirectionRecvOnly; DirectionSendRecv].

Lemma known_not d key : known_direction d -> key ∈ ["rtpmap"; "rtcp"; "ptime"; "fmtp"]%string ->
  String.eqb d key = false.
Proof.
  unfold known_direction. rewrite !elem_of_cons, !elem_of_nil.
  intros [->|[->|[->|[->|[]]]]] [->|[->|[->|[->|[]]]]]; reflexivity.
Qed.

(** The direction attribute is found whichever of the four it is. *)
Lemma direction_built now localRTP localRTCP codecs d media :
  known_direction d ->
  md_Attributes media = concat (codec_attributes <$> codecs)
    ++ [NewAttribute "rtcp" (Itoa (ap_Port localRTCP)); NewPropertyAttribute d;
        NewAttribute "ptime" (Itoa defaultPTime)] ->
  forall cs, mediaDirection (audio_description now localRTP localRTCP cs d) media = d.
Proof.
  intros Hd Hattr cs. unfold mediaDirection. cbn [sd_Attributes audio_description]. rewrite Hattr.
  assert (Hl : forall key, known_direction key ->
    lookup_attribute key (md_Attributes media) = if String.eqb d key then Some ""%string else None).
  { intros key Hk. pose proof (known_not key) as Hn. setoid_rewrite String.eqb_sym in Hn.
    rewrite Hattr, lookup_attribute_app, codec_attributes_other;
      [|apply Hn; [done | apply list_elem_of_here] | apply Hn; [done | do 3 apply list_elem_of_further; apply list_elem_of_here]].
    cbn [lookup_attribute Key Value NewAttribute NewPropertyAttribute].
    rewrite (Hn "rtcp"%string), (Hn "ptime"%string); [done|done| |done|].
    - do 2 apply list_elem_of_further; apply list_elem_of_here.
    - apply list_elem_of_further; apply list_elem_of_here. }
  rewrite <- Hattr. unfold known_direction in Hd. rewrite !elem_of_cons, elem_of_nil in Hd.
  unfold first_direction. rewrite !Hl by (unfold known_direction; rewrite !elem_of_cons; auto).
  destruct Hd as [->|[->|[->|[->|[]]]]]; reflexivity.
Qed.

(** Claim C28. What one leg is sent reads back as what was meant.  The local address is
    an IPv4 address other than 0.0.0.0, both ports are nonzero, the codecs have distinct
    7-bit payload types and one of them is a supported audio codec, the direction is one
    of the four or not given, and pion's Unmarshal inverts its Marshal on the body built:
    then ParseAudio of BuildAudio's body returns the local RTP and RTCP endpoints, the
    direction (sendrecv when none was given) and exactly the supported codecs, in
    order. *)
Theorem build_parse_roundtrip `{SdpCodec} now localRTP localRTCP codecs direction body bits :
  BuildAudio now localRTP localRTCP codecs direction = Ok body ->
  (forall d, Marshal d = Ok body -> Unmarshal body = Ok d) ->
  ap_Addr localRTP = Addr4 bits -> 0 < bits < 2 ^ 32 ->
  0 < ap_Port localRTP < 65536 -> 0 < ap_Port localRTCP < 65536 ->
  Forall payload7 codecs -> NoDup (PayloadType <$> codecs) -> Exists (fun c => audio c /\ supported c) codecs ->
  direction = ""%string \/ known_direction direction ->
  ParseAudio body =
  Ok {| ep_RTP := localRTP; ep_RTCP := localRTCP;
        ep_Direction := if String.eqb direction "" then DirectionSendRecv else direction;
        ep_Codecs := filter (fun c => isSupported c = true) codecs |}.
Proof.
  intros Hbuild Hinv Hbits Hrange Hp1 Hp2 Hpt Hnd Haud Hdir.
  assert (Haddr : ParseAddr (Addr_String (ap_Addr localRTP)) = Ok (ap_Addr localRTP))
    by (rewrite Hbits; apply ParseAddr_String4; unfold is_u32; lia).
  assert (Hun : IsUnspecified (ap_Addr localRTP) = false)
    by (rewrite Hbits; unfold IsUnspecified; rewrite !bool_decide_eq_false_2 by (intros [=]; lia); done).
  clear Hbits Hrange. unfold BuildAudio in Hbuild.
  destruct (_ || _) eqn:Ev; [done|]. destruct (negb (hasAudioCodec _)); [done|]. bool_prop.
  destruct (Marshal _) as [b|] eqn:Em; [|done]. injection Hbuild as ->. apply Hinv in Em.
  unfold ParseAudio. rewrite Em. unfold parse_description, audio_description.
  cbn [sd_MediaDescriptions audioDescription md_Media]. change (String.eqb "audio" "audio") with true.
  cbn [md_Port md_Protos]. destruct (Z.leb_spec (ap_Port localRTP) 0); [lia|].
  destruct (Z.ltb_spec 65535 (ap_Port localRTP)); [lia|].
  change (String.eqb (Join ["RTP"; "AVP"] "/") "RTP/AVP") with true.
  cbn [orb negb connection_address md_ConnectionInformation sd_ConnectionInformation ci_Address].
  rewrite Haddr, Hun, u16_id by word_lia.
  set (cs := filter _ codecs). set (d := if String.eqb direction "" then _ else _).
  assert (Hkd : known_direction d).
  { unfold d. destruct Hdir as [->|Hk]; [do 3 apply list_elem_of_further; apply list_elem_of_here|].
    destruct (String.eqb_spec direction "") as [->|]; [do 3 apply list_elem_of_further; apply list_elem_of_here | done]. }
  assert (Hcs : Forall (fun c => supported c /\ payload7 c) cs).
  { apply Forall_forall. intros c [Hs Hc]%list_elem_of_filter. rewrite isSupported_spec in Hs.
    rewrite Forall_forall in Hpt. auto. }
  unfold rtcp_port. cbn [md_Attributes]. rewrite lookup_attribute_app, codec_attributes_other by done.
  cbn [lookup_attribute Key Value NewAttribute]. change (String.eqb "rtcp" "rtcp") with true. cbv iota.
  rewrite Fields_solid by (apply Itoa_solid || apply Itoa_digits; lia).
  rewrite (ParseUint_Itoa _ 16) by lia. destruct (Z.eqb_spec (ap_Port localRTCP) 0); [lia|].
  cbn [mbind result_bind].
  rewrite (parseCodecs_built cs [NewAttribute "rtcp" (Itoa (ap_Port localRTCP));
    NewPropertyAttribute d; NewAttribute "ptime" (Itoa defaultPTime)] _ Hcs); try done.
  - cbn [mbind result_bind]. f_equal. f_equal.
    + by destruct localRTP.
    + destruct localRTCP as [a q]; cbn in *. by subst a.
    + by eapply direction_built.
  - eapply sublist_NoDup; [exact Hnd|]. apply fmap_sublist, sublist_filter.
  - apply Exists_exists in Haud as (c & Hc & Ha & Hs). exists c. split; [|done].
    apply list_elem_of_filter. by rewrite isSupported_spec.
  - intros m. cbn [parse_rtpmaps Key NewAttribute NewPropertyAttribute].
    change (String.eqb "rtcp" "rtpmap") with false. change (String.eqb "ptime" "rtpmap") with false.
    rewrite (known_not d "rtpmap"); [done | done | apply list_elem_of_here].
Qed.

(** A wire format that keeps the description as it is. *)
Definition identity_codec : SdpCodec :=
  {| Body := SessionDescription; Unmarshal := Ok; Marshal := Ok |}.

Definition sample_codecs : list Codec :=
  [mkCodec "PCMU" 0 8000; mkCodec "OPUS" 111 48000; mkCodec "TELEPHONE-EVENT" 101 8000].

Lemma build_parse_roundtrip_witness :
  @ParseAudio identity_codec
    (audio_description 0 (AddrPortFrom (Addr4 3232235777) 20000) (AddrPortFrom (Addr4 3232235777) 20001)
       sample_codecs DirectionSendRecv)
  = Ok (mkEndpoint (AddrPortFrom (Addr4 3232235777) 20000) (AddrPortFrom (Addr4 3232235777) 20001)
          DirectionSendRecv [mkCodec "PCMU" 0 8000; mkCodec "TELEPHONE-EVENT" 101 8000]).
Proof.
  apply (@build_parse_roundtrip identity_codec 0 (AddrPortFrom (Addr4 3232235777) 20000)
    (AddrPortFrom (Addr4 3232235777) 20001) sample_codecs "" _ 3232235777).
  - reflexivity.
  - intros d [= ->]. reflexivity.
  - reflexivity.
  - lia.
  - cbn; lia.
  - cbn; lia.
  - unfold sample_codecs. rewrite !Forall_cons. unfold payload7; cbn. split_and!; auto; lia.
  - apply (bool_decide_eq_true (NoDup (PayloadType <$> sample_codecs))). vm_compute. reflexivity.
  - apply Exists_cons_hd. split; [left; reflexivity | split; [reflexivity | left; left; reflexivity]].
  - left. reflexivity.
Defined.

Definition audio_line : SessionDescription :=
  mkSession 0 (mkOrigin "-" 1 1 "IN" "IP4" "10.0.0.1") "-" None [] []
    [mkMedia "audio" 4000 ["RTP"; "AVP"]%string ["0"; "18"]%string
      (Some (mkConnection "IN" "IP4" (Some "10.0.0.1"%string))) []].

Lemma parsed_endpoint_wellformed_witness : exists ep, parse_description audio_line = Ok ep /\
  Addr_IsValid (ap_Addr (ep_RTP ep)) = true /\ 0 < ap_Port (ep_RTP ep) < 65536 /\
  Exists (fun c => Name c = "PCMU"%string \/ Name c = "PCMA"%string) (ep_Codecs ep).
Proof.
  destruct (parse_description audio_line) as [ep|e] eqn:Hp; [|vm_compute in Hp; discriminate Hp].
  exists ep. split; [reflexivity|].
  destruct (parsed_endpoint_wellformed audio_line ep Hp) as (Hv & _ & Hport & _ & _ & _ & _ & _ & Hex).
  split; [exact Hv|]. split; [exact Hport | exact Hex].
Defined.

(** ** Where the code departs from the protocol *)

Definition described (session media : list Attribute) (port : Z) : SessionDescription :=
  mkSession 0 (mkOrigin "-" 1 1 "IN" "IP4" "10.0.0.1") "-" (Some (mkConnection "IN" "IP4" (Some "10.0.0.1"%string)))
    [(0, 0)] session [mkMedia "audio" port ["RTP"; "AVP"]%string ["0"%string] None media].

(** A media-level direction should override the session-level one; here the
    session's "inactive" wins over the media's "sendrecv". *)
Theorem session_direction_overrides :
  exists ep, parse_description (described [NewPropertyAttribute "inactive"] [NewPropertyAttribute "sendrecv"] 4000) = Ok ep /\
    ep_Direction ep = DirectionInactive.
Proof. eexists. split; [vm_compute; reflexivity | reflexivity]. Qed.

(** An RTP port of 65535 is accepted, and the implied RTCP port wraps to 0. *)
Theorem rtcp_port_wraps :
  exists ep, parse_description (described [] [] 65535) = Ok ep /\ ap_Port (ep_RTCP ep) = 0.
Proof. eexists. split; [vm_compute; reflexivity | reflexivity]. Qed.
