(* ===== verification/MediaEndpoint.v ===== *)
(** * Media endpoints and RTP forwarding

    Models [internal/media/session/endpoint.go] (the remote configuration and
    the learned source port of one leg) and [forward.go] (the packet loop that
    relays one leg's RTP to the other).  RTP packets are parsed and serialised
    by [pion/rtp], the parameter [RtpCodec].  The other goroutines of a session
    reach an endpoint through atomics only; the handling of one datagram is one
    step here.  [reads] gives the read events of timed arrivals, with the read deadline
    re-armed every round. *)

From S2P Require Import Prelude Netip Sdp PortAlloc Rtp Dtmf.

Definition Leg := string.
Definition CallerLeg : Leg := "caller".
Definition CalleeLeg : Leg := "callee".

Definition maxDatagramSize : Z := 1600.

Class RtpCodec := {
  rtp_Unmarshal : list Z -> option Packet;
  (** [MarshalTo] a buffer of [maxDatagramSize] bytes *)
  rtp_MarshalTo : Packet -> option (list Z);
}.

Record remoteConfig := mkRemote {
  rc_rtp : AddrPort; rc_rtcp : AddrPort; rc_audioPT : Z; rc_dtmfPT : Z; rc_hasDTMF : bool;
  rc_direction : Direction;
}.

Record endpoint := mkEndpointState {
  e_leg : Leg;
  e_lease : Lease;
  e_remote : option remoteConfig;
  e_learnedRTPPort : Z;
  e_learnedRTCPPort : Z;
  e_tracker : Tracker;
  e_invalidPackets : Z;
  e_dtmfEvents : Z;
  e_timedOut : bool;
  e_remoteFractionLost : Z;
  e_remoteTotalLost : Z;
  e_remoteJitter : Z;
  e_rttNanos : Z;
  e_lastRemoteSR : Z;
  e_lastRemoteSRNanos : Z;
  e_lastSentSR : Z;
}.

(** The fields the RTP loop and the signalling write. *)
Definition update_media (e : endpoint) (remote : option remoteConfig) (rtpPort rtcpPort : Z)
    (tracker : Tracker) (invalid dtmf : Z) (timedOut : bool) : endpoint :=
  mkEndpointState (e_leg e) (e_lease e) remote rtpPort rtcpPort tracker invalid dtmf timedOut
    (e_remoteFractionLost e) (e_remoteTotalLost e) (e_remoteJitter e) (e_rttNanos e)
    (e_lastRemoteSR e) (e_lastRemoteSRNanos e) (e_lastSentSR e).

Definition set_learnedRTP (p : Z) (e : endpoint) : endpoint :=
  update_media e (e_remote e) p (e_learnedRTCPPort e) (e_tracker e) (e_invalidPackets e) (e_dtmfEvents e) (e_timedOut e).
Definition set_learnedRTCP (p : Z) (e : endpoint) : endpoint :=
  update_media e (e_remote e) (e_learnedRTPPort e) p (e_tracker e) (e_invalidPackets e) (e_dtmfEvents e) (e_timedOut e).
Definition set_tracker (t : Tracker) (e : endpoint) : endpoint :=
  update_media e (e_remote e) (e_learnedRTPPort e) (e_learnedRTCPPort e) t (e_invalidPackets e) (e_dtmfEvents e) (e_timedOut e).
Definition add_invalid (e : endpoint) : endpoint :=
  update_media e (e_remote e) (e_learnedRTPPort e) (e_learnedRTCPPort e) (e_tracker e)
    (u64 (e_invalidPackets e + 1)) (e_dtmfEvents e) (e_timedOut e).
Definition add_dtmf (e : endpoint) : endpoint :=
  update_media e (e_remote e) (e_learnedRTPPort e) (e_learnedRTCPPort e) (e_tracker e)
    (e_invalidPackets e) (u64 (e_dtmfEvents e + 1)) (e_timedOut e).
Definition set_timedOut (b : bool) (e : endpoint) : endpoint :=
  update_media e (e_remote e) (e_learnedRTPPort e) (e_learnedRTCPPort e) (e_tracker e)
    (e_invalidPackets e) (e_dtmfEvents e) b.

(** ** [endpoint.go] *)

Definition newEndpoint (leg : Leg) (lease : Lease) : endpoint :=
  mkEndpointState leg lease None 0 0 (NewTracker 8000) 0 0 false 0 0 0 0 0 0 0.

Definition configure (remote : Endpoint) (audioPT dtmfPT : Z) (hasDTMF : bool) (e : endpoint) : endpoint :=
  let forget :=
    match e_remote e with
    | None => true
    | Some current =>
        negb (bool_decide (rc_rtp current = ep_RTP remote)) || negb (bool_decide (rc_rtcp current = ep_RTCP remote))
    end in
  update_media e
    (Some (mkRemote (ep_RTP remote) (ep_RTCP remote) audioPT dtmfPT hasDTMF (ep_Direction remote)))
    (if forget then 0 else e_learnedRTPPort e) (if forget then 0 else e_learnedRTCPPort e)
    (e_tracker e) (e_invalidPackets e) (e_dtmfEvents e) (e_timedOut e).

Definition acceptsRTP (source : AddrPort) (e : endpoint) : bool * endpoint :=
  match e_remote e with
  | None => (false, e)
  | Some remote =>
      if negb (bool_decide (ap_Addr source = ap_Addr (rc_rtp remote))) then (false, e) else
      let e := if e_learnedRTPPort e =? 0 then set_learnedRTP (ap_Port source) e else e in
      (e_learnedRTPPort e =? ap_Port source, e)
  end.

Definition acceptsRTCP (source : AddrPort) (e : endpoint) : bool * endpoint :=
  match e_remote e with
  | None => (false, e)
  | Some remote =>
      if negb (bool_decide (ap_Addr source = ap_Addr (rc_rtcp remote))) then (false, e) else
      let e := if e_learnedRTCPPort e =? 0 then set_learnedRTCP (ap_Port source) e else e in
      (e_learnedRTCPPort e =? ap_Port source, e)
  end.

Definition rtpTarget (e : endpoint) : option AddrPort :=
  match e_remote e with
  | None => None
  | Some remote =>
      if e_learnedRTPPort e =? 0 then Some (rc_rtp remote)
      else Some (AddrPortFrom (ap_Addr (rc_rtp remote)) (u16 (e_learnedRTPPort e)))
  end.

Definition rtcpTarget (e : endpoint) : option AddrPort :=
  match e_remote e with
  | None => None
  | Some remote =>
      if e_learnedRTCPPort e =? 0 then Some (rc_rtcp remote)
      else Some (AddrPortFrom (ap_Addr (rc_rtcp remote)) (u16 (e_learnedRTCPPort e)))
  end.

Definition canSend (e : endpoint) : bool :=
  match e_remote e with
  | None => false
  | Some r => String.eqb (rc_direction r) DirectionSendRecv || String.eqb (rc_direction r) DirectionSendOnly
  end.

Definition canReceive (e : endpoint) : bool :=
  match e_remote e with
  | None => false
  | Some r => String.eqb (rc_direction r) DirectionSendRecv || String.eqb (rc_direction r) DirectionRecvOnly
  end.

(** ** [forward.go] *)

Definition payloadMapping (input : Z) (source destination : remoteConfig) : option Z :=
  if input =? rc_audioPT source then Some (rc_audioPT destination)
  else if rc_hasDTMF source && rc_hasDTMF destination && (input =? rc_dtmfPT source)
  then Some (rc_dtmfPT destination)
  else None.

(** Reading a telephone event counts it when it ends; a malformed one is
    refused. *)
Definition observe_dtmf (remote : remoteConfig) (packet : Packet) (e : endpoint) : option endpoint :=
  if rc_hasDTMF remote && (p_PayloadType packet =? rc_dtmfPT remote) then
    match Decode (p_Payload packet) with
    | Err _ => None
    | Ok event => Some (if ev_End event then add_dtmf e else e)
    end
  else Some e.

(** What the loop writes for one datagram: the rewritten packet, its bytes and
    the target. *)
Record Sent := mkSent { s_packet : Packet; s_wire : list Z; s_target : AddrPort }.

(** What becomes of a packet that was rewritten, and so has used up a sequence
    number: it is written; or [MarshalTo] refuses it, or there is no target. *)
Inductive Output := Written (s : Sent) | Refused (p : Packet).
Definition o_packet (o : Output) : Packet := match o with Written s => s_packet s | Refused p => p end.

(** The body of the loop from the read datagram to the write. *)
Definition forward_packet `{RtpCodec} (datagram : list Z) (from : AddrPort) (now : Time)
    (source destination : endpoint) (rewriter : Rewriter) : option Output * endpoint * Rewriter :=
  let '(accepted, source) := acceptsRTP from source in
  if negb accepted then (None, add_invalid source, rewriter) else
  match rtp_Unmarshal datagram with
  | None => (None, add_invalid source, rewriter)
  | Some packet =>
      if negb (p_Version packet =? 2) || (length (p_Payload packet) =? 0)%nat
      then (None, add_invalid source, rewriter) else
      match e_remote source, e_remote destination with
      | Some remote, Some destinationRemote =>
          match payloadMapping (p_PayloadType packet) remote destinationRemote with
          | None => (None, add_invalid source, rewriter)
          | Some outputPayloadType =>
              let '(class, tracker) := Observe packet now (Z.of_nat (length datagram)) (e_tracker source) in
              let source := set_tracker tracker source in
              if match class with PacketDuplicate => true | _ => false end
                 || negb (canSend source) || negb (canReceive destination)
              then (None, source, rewriter) else
              match observe_dtmf remote packet source with
              | None => (None, add_invalid source, rewriter)
              | Some source =>
                  let '(output, rewriter) := Rewrite packet outputPayloadType rewriter in
                  match rtp_MarshalTo output with
                  | None => (Some (Refused output), add_invalid source, rewriter)
                  | Some wire =>
                      match rtpTarget destination with
                      | None => (Some (Refused output), source, rewriter)
                      | Some target => (Some (Written (mkSent output wire target)), source, rewriter)
                      end
                  end
              end
          end
      | _, _ => (None, source, rewriter)
      end
  end.

Definition updateTimeout (startedAt : Z) (inactivityTimeout : Duration) (now : Time) (e : endpoint) : endpoint :=
  let stats := Tracker_Snapshot (e_tracker e) in
  let reference := time_UnixNano startedAt in
  let reference := if negb (IsZero (st_LastPacketAt stats)) then st_LastPacketAt stats else reference in
  set_timedOut (negb (IsZero reference) && (inactivityTimeout <=? time_Sub now reference)) e.

(** What the socket and the surroundings deliver in one round of the loop. *)
Inductive ReadEvent :=
| DeadlineError (e : error)
| Datagram (bytes : list Z) (from : AddrPort) (now : Time) (write : option error)
| ReadTimeout (now : Time)
| ReadError (e : error).

(** One round: continue, or return (with nil or an error).  [ctx] is the
    context's error at that time and [closed] tests for [net.ErrClosed]. *)
Definition net_ErrClosed : string := "use of closed network connection".

Definition quiet (ctx : Context) (e : error) : bool :=
  match ctx with Some _ => true | None => errors_Is e net_ErrClosed end.

Definition forward_round `{RtpCodec} (startedAt : Z) (inactivityTimeout : Duration) (ctx : Context)
    (ev : ReadEvent) (source destination : endpoint) (rewriter : Rewriter)
    : option (option error) * option Output * endpoint * Rewriter :=
  match ev with
  | DeadlineError e => (Some (Some (Errorf "set RTP read deadline" [e])), None, source, rewriter)
  | ReadError e =>
      (Some (if quiet ctx e then None else Some (Errorf "read RTP" [e])), None, source, rewriter)
  | ReadTimeout now =>
      match ctx with
      | Some _ => (Some None, None, source, rewriter)
      | None => (None, None, updateTimeout startedAt inactivityTimeout now source, rewriter)
      end
  | Datagram bytes from now write =>
      let '(sent, source, rewriter) := forward_packet bytes from now source destination rewriter in
      match sent, write with
      | Some (Written _), Some e => (Some (if quiet ctx e then None else Some (Errorf "write RTP" [e])), None, source, rewriter)
      | _, _ => (None, sent, source, rewriter)
      end
  end.

(** The loop on the events of its socket: the packets written and the result,
    [None] while it is still running. *)
Fixpoint forward_loop `{RtpCodec} (startedAt : Z) (inactivityTimeout : Duration)
    (events : list (Context * ReadEvent)) (source destination : endpoint) (rewriter : Rewriter)
    : list Output * option (option error) * endpoint * Rewriter :=
  match events with
  | [] => ([], None, source, rewriter)
  | (ctx, ev) :: rest =>
      let '(stop, sent, source, rewriter) :=
        forward_round startedAt inactivityTimeout ctx ev source destination rewriter in
      match stop with
      | Some res => ([], Some res, source, rewriter)
      | None =>
          let '(outs, res, source, rewriter) :=
            forward_loop startedAt inactivityTimeout rest source destination rewriter in
          (match sent with Some s => s :: outs | None => outs end, res, source, rewriter)
      end
  end.

(** [forwardRTP]: both sockets must be open. *)
Definition forwardRTP `{RtpCodec} (startedAt : Z) (inactivityTimeout : Duration)
    (events : list (Context * ReadEvent)) (source destination : endpoint) (rewriter : Rewriter)
    : list Output * option (option error) * endpoint * Rewriter :=
  match RTPConn (Some (e_lease source)), RTPConn (Some (e_lease destination)) with
  | Err e, _ => ([], Some (Some e), source, rewriter)
  | Ok _, Err e => ([], Some (Some e), source, rewriter)
  | Ok _, Ok _ => forward_loop startedAt inactivityTimeout events source destination rewriter
  end.

(** ** Injected packets *)

(** The count of invalid packets and the timeout flag. *)
Definition set_gauges (n : Z) (b : bool) (e : endpoint) : endpoint :=
  update_media e (e_remote e) (e_learnedRTPPort e) (e_learnedRTCPPort e) (e_tracker e) n (e_dtmfEvents e) b.

(** The endpoint that sends the leg's media: its signalled address and the port
    learned from its first packet. *)
Definition pinned_source (e : endpoint) : option AddrPort :=
  match e_remote e with
  | Some r => if e_learnedRTPPort e =? 0 then None else Some (AddrPortFrom (ap_Addr (rc_rtp r)) (e_learnedRTPPort e))
  | None => None
  end.

(** ** Arrivals

    What comes in on the leg's socket, and when.  The deadline of a read is armed
    anew in every round, so the loop sees a timeout for every poll interval without
    an arrival; the context is not done. *)
Inductive Incoming :=
| InPacket (bytes : list Z) (from : AddrPort) (write : option error)
| InError (e : error)                      (* the read fails *)
| InDeadlineError (e : error).             (* arming the deadline fails *)

Definition silence (poll : Duration) (now next : Time) : list (Context * ReadEvent) :=
  (fun k => (None, ReadTimeout (now + poll * k))) <$> seqZ 1 ((next - now) / poll).

Definition received (at_ : Time) (i : Incoming) : Context * ReadEvent :=
  (None, match i with InPacket bytes from write => Datagram bytes from at_ write | InError e => ReadError e
   | InDeadlineError e => DeadlineError e end).

Fixpoint reads (poll : Duration) (now : Time) (arrivals : list (Time * Incoming)) (until : Time) : list (Context * ReadEvent) :=
  match arrivals with
  | [] => silence poll now until
  | (at_, i) :: rest => silence poll now at_ ++ received at_ i :: reads poll at_ rest until
  end.

(** Arrivals from the pinned source. *)
Definition genuine (pin : AddrPort) (a : Time * Incoming) : Prop :=
  match a.2 with InPacket _ from _ => from = pin | _ => True end.
#[global] Instance genuine_dec pin a : Decision (genuine pin a).
Proof. unfold genuine. destruct (a.2); apply _. Defined.

(** Rounds that matter for the relayed stream of a pinned leg. *)
Definition essential (pin : AddrPort) (ev : Context * ReadEvent) : Prop :=
  match ev with
  | (_, Datagram _ from _ _) => from = pin
  | (None, ReadTimeout _) => False
  | _ => True
  end.
#[global] Instance essential_dec pin ev : Decision (essential pin ev).
Proof. unfold essential. destruct ev as [[] []]; apply _. Defined.

(** Outputs, rewriter and everything but the two gauges do not depend on them. *)
Definition alike {A} (x y : A * endpoint * Rewriter) : Prop :=
  x.1.1 = y.1.1 /\ set_gauges 0 false x.1.2 = set_gauges 0 false y.1.2 /\ x.2 = y.2.

Lemma acceptsRTP_invalid from n b e :
  acceptsRTP from (set_gauges n b e) = ((acceptsRTP from e).1, set_gauges n b (acceptsRTP from e).2).
Proof.
  unfold acceptsRTP. cbn [e_remote set_gauges update_media e_learnedRTPPort].
  destruct (e_remote e); [|done]. destruct (negb _); [done|]. destruct (e_learnedRTPPort e =? 0); done.
Qed.

Lemma observe_dtmf_invalid r p n b e :
  observe_dtmf r p (set_gauges n b e) = set_gauges n b <$> observe_dtmf r p e.
Proof. unfold observe_dtmf. destruct (_ && _); [|done]. destruct (Decode _) as [ev|]; [|done]. by destruct (ev_End ev). Qed.

Lemma forward_packet_invalid `{RtpCodec} bytes from now n b e d rw :
  alike (forward_packet bytes from now (set_gauges n b e) d rw) (forward_packet bytes from now e d rw).
Proof.
  unfold forward_packet. rewrite acceptsRTP_invalid.
  destruct (acceptsRTP from e) as [acc e1]; cbn [fst snd]. destruct (negb acc); [done|].
  destruct (rtp_Unmarshal bytes) as [p|]; [|done]. destruct (_ || _); [done|].
  cbn [e_remote set_gauges update_media]. destruct (e_remote e1) as [r|]; [|done].
  destruct (e_remote d) as [rd|] eqn:Ed; [|done]. destruct (payloadMapping _ r rd) as [pt|]; [|done].
  cbn [e_tracker]. destruct (Observe _ _ _ _) as [class t].
  change (set_tracker t (set_gauges n b e1)) with (set_gauges n b (set_tracker t e1)).
  change (canSend (set_gauges n b ?x)) with (canSend x). destruct (_ || _); [done|].
  rewrite observe_dtmf_invalid. destruct (observe_dtmf r p _) as [e2|]; [|done]. cbn [fmap option_fmap option_map].
  destruct (Rewrite p pt rw) as [out rw']. destruct (rtp_MarshalTo out); [|done]. by destruct (rtpTarget d).
Qed.

Lemma set_gauges_0 a b : set_gauges 0 false a = set_gauges 0 false b -> a = set_gauges (e_invalidPackets a) (e_timedOut a) b.
Proof. destruct a, b. unfold set_gauges, update_media; cbn. intros [=]. by subst. Qed.

Lemma forward_round_invalid `{RtpCodec} st it ctx ev n b e d rw :
  let '(stop, sent, e1, rw1) := forward_round st it ctx ev e d rw in
  let '(stop', sent', e2, rw2) := forward_round st it ctx ev (set_gauges n b e) d rw in
  stop' = stop /\ sent' = sent /\ set_gauges 0 false e2 = set_gauges 0 false e1 /\ rw2 = rw1.
Proof.
  destruct ev as [x|bytes from now w|now|x]; cbn [forward_round]; [done| |by destruct ctx|done].
  pose proof (forward_packet_invalid bytes from now n b e d rw) as (H1 & H2 & H3).
  destruct (forward_packet _ _ _ (set_gauges n b e) _ _) as [[s1 e1] rw1], (forward_packet _ _ _ e _ _) as [[s2 e2] rw2].
  cbn in H1, H2, H3. subst. destruct s2 as [[]|], w; done.
Qed.

Lemma pinned_accepts pin e from : pinned_source e = Some pin ->
  acceptsRTP from e = (bool_decide (from = pin), e).
Proof.
  unfold pinned_source, acceptsRTP. destruct (e_remote e) as [r|]; [|done].
  destruct (Z.eqb_spec (e_learnedRTPPort e) 0) as [|Hne]; [done|]. intros [= <-].
  destruct from as [a p]; cbn [ap_Addr ap_Port]. case_bool_decide as E1; cbn [negb].
  - f_equal. subst a. destruct (Z.eqb_spec (e_learnedRTPPort e) p) as [<-|Hp]; case_bool_decide as E2; congruence.
  - f_equal. case_bool_decide; congruence.
Qed.

(** The pin is not moved by traffic. *)
Lemma forward_packet_remote `{RtpCodec} bytes from now e d rw :
  let e' := (forward_packet bytes from now e d rw).1.2 in
  e_remote e' = e_remote e /\ e_learnedRTPPort e' = e_learnedRTPPort (acceptsRTP from e).2.
Proof.
  assert (Ha : e_remote (acceptsRTP from e).2 = e_remote e).
  { unfold acceptsRTP. destruct (e_remote e) eqn:E; [|done]. destruct (negb _); [done|]. by destruct (_ =? 0). }
  unfold forward_packet. destruct (acceptsRTP from e) as [acc e1]; cbn [fst snd] in *.
  assert (Hd : forall r p e2 e3, observe_dtmf r p e2 = Some e3 ->
    e_remote e3 = e_remote e2 /\ e_learnedRTPPort e3 = e_learnedRTPPort e2).
  { intros r p e2 e3. unfold observe_dtmf. destruct (_ && _); [|by intros [= <-]].
    destruct (Decode _) as [ev|]; [|done]. intros [= <-]. by destruct (ev_End ev). }
  destruct (negb acc); [done|]. destruct (rtp_Unmarshal bytes) as [p|]; [|done]. destruct (_ || _); [done|].
  destruct (e_remote e1) as [r|] eqn:E1; [|cbn; split; congruence]. destruct (e_remote d); [|cbn; split; congruence].
  destruct (payloadMapping _ _ _); [|cbn; split; congruence]. destruct (Observe _ _ _ _) as [class t].
  destruct (_ || _); [cbn; split; congruence|]. destruct (observe_dtmf _ _ _) as [e2|] eqn:E2; [|cbn; split; congruence].
  apply Hd in E2 as [E2 E3]. cbn in E2, E3. rewrite E1 in E2. destruct (Rewrite _ _ _) as [out rw'].
  destruct (rtp_MarshalTo out), (rtpTarget d); cbn; split; congruence.
Qed.

Lemma forward_round_pinned `{RtpCodec} st it ctx ev pin e d rw stop sent e1 rw1 :
  pinned_source e = Some pin -> forward_round st it ctx ev e d rw = (stop, sent, e1, rw1) ->
  pinned_source e1 = Some pin.
Proof.
  intros Hp. destruct ev as [x|bytes from now w|now|x]; cbn [forward_round].
  - by intros [= _ _ <- _].
  - pose proof (forward_packet_remote bytes from now e d rw) as [H1 H2].
    rewrite (pinned_accepts pin) in H2 by done. cbn [snd] in H2.
    destruct (forward_packet _ _ _ _ _ _) as [[s e2] rw2]. cbn in H1, H2.
    assert (pinned_source e2 = Some pin) by (unfold pinned_source in *; by rewrite H1, H2).
    destruct s as [[]|], w; by intros [= _ _ <- _].
  - destruct ctx; by intros [= _ _ <- _].
  - by intros [= _ _ <- _].
Qed.

(** Rounds that do not matter can be left out. *)
Lemma loop_essential `{RtpCodec} startedAt timeout pin destination events : forall source other rw,
  pinned_source source = Some pin -> set_gauges 0 false other = set_gauges 0 false source ->
  let '(outs, res, e1, rw1) := forward_loop startedAt timeout events source destination rw in
  let '(outs', res', e2, rw2) :=
    forward_loop startedAt timeout (filter (essential pin) events) other destination rw in
  outs = outs' /\ res = res' /\ set_gauges 0 false e1 = set_gauges 0 false e2 /\ rw1 = rw2.
Proof.
  induction events as [|[ctx ev] events IH]; intros source other rw Hpin Hsame.
  { done. }
  rewrite filter_cons. destruct (decide (essential pin (ctx, ev))) as [Hg|Hg].
  - cbn [forward_loop].
    pose proof (forward_round_invalid startedAt timeout ctx ev (e_invalidPackets other) (e_timedOut other) source destination rw) as Hr.
    rewrite <- (set_gauges_0 _ _ Hsame) in Hr.
    destruct (forward_round _ _ _ _ source _ _) as [[[stop sent] e1] rw1] eqn:E.
    destruct (forward_round _ _ _ _ other _ _) as [[[stop' sent'] e2] rw2].
    destruct Hr as (-> & -> & Hr & ->). destruct stop as [res|]; [done|].
    pose proof (forward_round_pinned _ _ _ _ _ _ _ _ _ _ _ _ Hpin E) as Hpin1.
    specialize (IH e1 e2 rw1 Hpin1 Hr). destruct (forward_loop _ _ events _ _ _) as [[[o r] x] y].
    destruct (forward_loop _ _ (filter _ _) _ _ _) as [[[o' r'] x'] y'].
    destruct IH as (-> & -> & ? & ->). done.
  - destruct ev as [x|bytes from now w|now|x], ctx as [c|]; cbn in Hg; try done; cbn [forward_loop forward_round].
    1,2: unfold forward_packet at 1; rewrite (pinned_accepts pin) by done; rewrite bool_decide_eq_false_2 by done; cbn [negb];
      specialize (IH (add_invalid source) other rw Hpin Hsame); by destruct (forward_loop _ _ events _ _ _) as [[[o r] x] y].
    specialize (IH (updateTimeout startedAt timeout now source) other rw Hpin Hsame).
    by destruct (forward_loop _ _ events _ _ _) as [[[o r] x] y].
Qed.

Lemma silence_inessential pin poll now next : filter (essential pin) (silence poll now next) = [].
Proof.
  unfold silence. induction (seqZ 1 ((next - now) / poll)) as [|k l IH]; [done|].
  rewrite fmap_cons, filter_cons_False by (by intros []). exact IH.
Qed.

(** Without the others' packets the loop's essential rounds are the same. *)
Lemma reads_genuine pin poll until arrivals : forall now now',
  filter (essential pin) (reads poll now arrivals until)
  = filter (essential pin) (reads poll now' (filter (genuine pin) arrivals) until).
Proof.
  induction arrivals as [|[at_ i] rest IH]; intros now now'; cbn [reads].
  { rewrite filter_nil. cbn [reads]. by rewrite !silence_inessential. }
  rewrite filter_app, silence_inessential. cbn [app]. destruct (decide (genuine pin (at_, i))) as [Hg|Hg].
  - rewrite (filter_cons_True (genuine pin)) by done. cbn [reads]. rewrite filter_app, silence_inessential. cbn [app].
    assert (essential pin (received at_ i)) by (by destruct i). rewrite !filter_cons_True by done. f_equal. apply IH.
  - rewrite (filter_cons_False (genuine pin)) by done. rewrite filter_cons_False by (by destruct i). apply IH.
Qed.

(** Claim C12. Once a leg's source is pinned, packets from anywhere else have no
    influence on the media of a call in progress: whatever arrives on the leg's
    socket and whenever, with and without those packets the relay writes the same
    packets, returns the same result and keeps the same rewriter, reception
    statistics, DTMF count and pin.  Only the count of invalid packets and, because
    a packet re-arms the read deadline and so postpones the next inactivity check,
    the timeout flag can differ; while the session is being stopped, injected
    packets can also postpone the moment the loop notices it, which is outside this
    claim. *)
Theorem injection_noninterference `{RtpCodec} startedAt timeout poll now until pin arrivals source destination rw :
  pinned_source source = Some pin ->
  let '(outs, res, e1, rw1) := forward_loop startedAt timeout (reads poll now arrivals until) source destination rw in
  let '(outs', res', e2, rw2) :=
    forward_loop startedAt timeout (reads poll now (filter (genuine pin) arrivals) until) source destination rw in
  outs = outs' /\ res = res' /\ set_gauges 0 false e1 = set_gauges 0 false e2 /\ rw1 = rw2.
Proof.
  intros Hpin.
  pose proof (loop_essential startedAt timeout pin destination (reads poll now arrivals until) source source rw Hpin eq_refl) as H1.
  pose proof (loop_essential startedAt timeout pin destination (reads poll now (filter (genuine pin) arrivals) until)
                source source rw Hpin eq_refl) as H2.
  rewrite <- (reads_genuine pin poll until arrivals now now) in H2.
  destruct (forward_loop _ _ (reads poll now arrivals until) _ _ _) as [[[o r] x] y].
  destruct (forward_loop _ _ (reads poll now (filter _ _) until) _ _ _) as [[[o' r'] x'] y'].
  destruct (forward_loop _ _ (filter _ _) _ _ _) as [[[o2 r2] x2] y2].
  destruct H1 as (-> & -> & Hx & ->), H2 as (-> & -> & Hx' & ->). by rewrite Hx, Hx'.
Qed.

(** ** The relayed stream *)

(** The sequence number the rewriter gives its next packet. *)
Definition next_sequence (r : Rewriter) : Z :=
  u16 (if rw_initialized r then rw_sequence r + 1 else rw_sequence r).

Lemma rewrite_step p pt r out r' : is_u16 (rw_sequence r) -> Rewrite p pt r = (out, r') ->
  p_SequenceNumber out = next_sequence r /\ p_SSRC out = rw_ssrc r /\ p_PayloadType out = pt /\
  p_Payload out = p_Payload p /\
  rw_ssrc r' = rw_ssrc r /\ is_u16 (rw_sequence r') /\ next_sequence r' = u16 (next_sequence r + 1).
Proof.
  intros Hr. unfold Rewrite, next_sequence. intros [= <- <-]; cbn.
  destruct (rw_initialized r); split_and!; auto with pbx; word_lia.
Qed.

(** A packet is relayed only when every check passes. *)
Record relayable (from : AddrPort) (p : Packet) (source destination : endpoint) (pt : Z) : Prop := {
  rl_remotes : exists r rd, e_remote source = Some r /\ e_remote destination = Some rd /\
    ap_Addr from = ap_Addr (rc_rtp r) /\ payloadMapping (p_PayloadType p) r rd = Some pt;
  rl_version : p_Version p = 2;
  rl_payload : p_Payload p <> [];
  rl_send : canSend source = true;
  rl_receive : canReceive destination = true;
}.

(** A packet that got a sequence number, and what became of it. *)
Definition disposed `{RtpCodec} (destination : endpoint) (o : Output) : Prop :=
  match o with
  | Written s => rtp_MarshalTo (s_packet s) = Some (s_wire s) /\ rtpTarget destination = Some (s_target s)
  | Refused p => rtp_MarshalTo p = None
  end.

Lemma forward_packet_output `{RtpCodec} bytes from now source destination rw o e1 rw1 :
  forward_packet bytes from now source destination rw = (Some o, e1, rw1) ->
  exists p pt, rtp_Unmarshal bytes = Some p /\ relayable from p source destination pt /\
    Rewrite p pt rw = (o_packet o, rw1) /\ disposed destination o.
Proof.
  unfold forward_packet. assert (Ha : e_remote (acceptsRTP from source).2 = e_remote source /\
    ((acceptsRTP from source).1 = true -> exists r, e_remote source = Some r /\ ap_Addr from = ap_Addr (rc_rtp r))).
  { unfold acceptsRTP. destruct (e_remote source) as [r|] eqn:E; [|done]. case_bool_decide; cbn; [|done].
    destruct (_ =? 0); eauto. }
  destruct (acceptsRTP from source) as [acc e]; cbn [fst snd] in Ha. destruct Ha as [Ha Hb].
  destruct acc; cbn [negb]; [|done]. destruct (Hb eq_refl) as (r & Er & Eaddr).
  destruct (rtp_Unmarshal bytes) as [p|]; [|done]. destruct (_ || _) eqn:Ev; [done|]. bool_prop.
  destruct (e_remote e) as [r'|] eqn:Ee; [|done]. destruct (e_remote destination) as [rd|] eqn:Ed; [|done].
  destruct (payloadMapping _ _ _) as [pt|] eqn:Em; [|done]. destruct (Observe _ _ _ _) as [class t].
  destruct (_ || _) eqn:Ec; [done|]. bool_prop. destruct (observe_dtmf _ _ _) as [e2|]; [|done].
  destruct (Rewrite p pt rw) as [out rw'] eqn:Erw. assert (r' = r) as -> by congruence.
  assert (Hrel : relayable from p source destination pt).
  { constructor; auto; [eauto 10 | intros Hnil; by rewrite Hnil in * | unfold canSend in *; cbn in *; by rewrite Ee, <- Ha in *]. }
  assert (is_Some (rtpTarget destination)) as [target Ht] by (unfold rtpTarget; rewrite Ed; destruct (_ =? 0); eauto).
  rewrite Ht. destruct (rtp_MarshalTo out) eqn:Emar; intros [= <- <- <-]; exists p, pt; by split_and!.
Qed.

(** The rewriter moves only for a packet that gets a number. *)
Lemma forward_packet_kept `{RtpCodec} bytes from now source destination rw e1 rw1 :
  forward_packet bytes from now source destination rw = (None, e1, rw1) -> rw1 = rw.
Proof.
  unfold forward_packet. destruct (acceptsRTP from source) as [acc e].
  destruct (negb acc); [by intros [=]|]. destruct (rtp_Unmarshal bytes) as [p|]; [|by intros [=]].
  destruct (_ || _); [by intros [=]|]. destruct (e_remote e) as [r|]; [|by intros [=]].
  destruct (e_remote destination) as [rd|] eqn:Ed; [|by intros [=]].
  destruct (payloadMapping _ _ _); [|by intros [=]]. destruct (Observe _ _ _ _).
  destruct (_ || _); [by intros [=]|]. destruct (observe_dtmf _ _ _); [|by intros [=]].
  destruct (Rewrite _ _ _) as [out rw']. destruct (rtp_MarshalTo out), (rtpTarget destination); done.
Qed.

(** What holds of the [i]-th packet of the relayed stream. *)
Definition relayed_at `{RtpCodec} (events : list (Context * ReadEvent)) (source destination : endpoint)
    (rw : Rewriter) (i : nat) (o : Output) : Prop :=
  p_SequenceNumber (o_packet o) = u16 (next_sequence rw + Z.of_nat i) /\
  p_SSRC (o_packet o) = rw_ssrc rw /\
  disposed destination o /\
  exists ctx bytes from now w p pt,
    (ctx, Datagram bytes from now w) ∈ events /\ rtp_Unmarshal bytes = Some p /\
    relayable from p source destination pt /\
    p_PayloadType (o_packet o) = pt /\ p_Payload (o_packet o) = p_Payload p.

Lemma canSend_remote e e' : e_remote e' = e_remote e -> canSend e' = canSend e.
Proof. unfold canSend. by intros ->. Qed.

Lemma relayable_remote from p e e' d pt : e_remote e' = e_remote e ->
  relayable from p e' d pt -> relayable from p e d pt.
Proof.
  intros He [H1 H2 H3 H4 H5]. constructor; auto.
  - by rewrite <- He.
  - by rewrite <- (canSend_remote e e' He).
Qed.

Lemma forward_round_remote `{RtpCodec} st it ctx ev e d rw stop sent e1 rw1 :
  forward_round st it ctx ev e d rw = (stop, sent, e1, rw1) -> e_remote e1 = e_remote e.
Proof.
  destruct ev as [x|bytes from now w|now|x]; cbn [forward_round]; try by intros [= _ _ <- _].
  - pose proof (forward_packet_remote bytes from now e d rw) as [H1 _].
    destruct (forward_packet _ _ _ _ _ _) as [[s e2] rw2]. cbn in H1. destruct s as [[]|], w; by intros [= _ _ <- _].
  - destruct ctx; by intros [= _ _ <- _].
Qed.

(** One round that goes on: at most one packet, with the next sequence number. *)
Lemma forward_round_relays `{RtpCodec} st it ctx ev e d rw out e1 rw1 :
  is_u16 (rw_sequence rw) ->
  forward_round st it ctx ev e d rw = (None, out, e1, rw1) ->
  match out with
  | None => rw1 = rw
  | Some o => relayed_at [(ctx, ev)] e d rw 0 o /\ rw_ssrc rw1 = rw_ssrc rw /\ is_u16 (rw_sequence rw1) /\
      next_sequence rw1 = u16 (next_sequence rw + 1)
  end.
Proof.
  intros Hrw. destruct ev as [x|bytes from now w|now|x]; cbn [forward_round]; try done.
  2:{ destruct ctx; [done|]. by intros [= <- _ <-]. }
  destruct (forward_packet _ _ _ _ _ _) as [[[o|] e2] rw2] eqn:E.
  - intros Heq. assert (out = Some o /\ rw1 = rw2) as [-> ->] by (destruct o, w; by simplify_eq).
    apply forward_packet_output in E as (p & pt & Hp & Hrel & Hre & Hd).
    destruct (rewrite_step _ _ _ _ _ Hrw Hre) as (Hs1 & Hs2 & Hs3 & Hs4 & Hs5 & Hs6 & Hs7).
    split_and!; auto. split_and!; auto.
    + rewrite Hs1, Z.add_0_r. symmetry. apply u16_id. unfold next_sequence. apply u16_range.
    + exists ctx, bytes, from, now, w, p, pt. split_and!; auto. apply list_elem_of_here.
  - destruct w; intros [= <- _ <-]; by eapply forward_packet_kept.
Qed.

Lemma relayed_weaken `{RtpCodec} ev events e d rw i s :
  relayed_at [ev] e d rw i s -> relayed_at (ev :: events) e d rw i s.
Proof.
  intros (H1 & H2 & H3 & ctx & bytes & from & now & w & p & pt & Hin & Hrest). split_and!; auto.
  exists ctx, bytes, from, now, w, p, pt. split; [|done].
  apply list_elem_of_singleton in Hin as ->. apply list_elem_of_here.
Qed.

Lemma relayed_shift `{RtpCodec} (k : nat) ev events e e2 d rw rw2 i s :
  e_remote e2 = e_remote e -> rw_ssrc rw2 = rw_ssrc rw ->
  next_sequence rw2 = u16 (next_sequence rw + Z.of_nat k) ->
  relayed_at events e2 d rw2 i s -> relayed_at (ev :: events) e d rw (k + i) s.
Proof.
  intros He Hs Hn (H1 & H2 & H3 & ctx & bytes & from & now & w & p & pt & Hin & Hp & Hrel & Hrest).
  split_and!; [rewrite H1, Hn; word_lia | congruence | done |].
  exists ctx, bytes, from, now, w, p, pt. split_and!; auto; try apply Hrest.
  - by apply list_elem_of_further.
  - by eapply relayable_remote.
Qed.

(** The relay gives the far leg one clean stream whatever the near leg
    or a third party sends: its packets carry the stream's SSRC and consecutive
    sequence numbers, go to the far leg's target unless they do not fit the buffer
    they are marshalled into, carry a payload type negotiated there, and each has the payload of a valid version-2 packet
    received from the near leg's signalled address while the near leg may send
    and the far leg may receive.  In particular a leg on hold gets nothing. *)
Theorem relay_stream `{RtpCodec} startedAt timeout events source destination rw outs res e1 rw1 :
  is_u16 (rw_sequence rw) ->
  forward_loop startedAt timeout events source destination rw = (outs, res, e1, rw1) ->
  forall i s, outs !! i = Some s -> relayed_at events source destination rw i s.
Proof.
  revert source rw outs res e1 rw1. induction events as [|[ctx ev] events IH];
    intros source rw outs res e1 rw1 Hrw; cbn [forward_loop]; [by intros [= <- _ _ _]|].
  destruct (forward_round _ _ _ _ _ _ _) as [[[stop sent] e2] rw2] eqn:E.
  destruct stop as [r|]; [by intros [= <- _ _ _]|].
  destruct (forward_loop _ _ events _ _ _) as [[[o r] e3] rw3] eqn:E2. intros [= <- _ _ _].
  pose proof (forward_round_remote _ _ _ _ _ _ _ _ _ _ _ E) as Hrem.
  pose proof (forward_round_relays _ _ _ _ _ _ _ _ _ _ Hrw E) as Hs. destruct sent as [s0|].
  - destruct Hs as (Hs & Hssrc & Hrw2 & Hnext). intros [|i] s; cbn.
    + intros [= <-]. by eapply relayed_weaken.
    + intros Hi. eapply (relayed_shift 1); eauto.
  - subst rw2. intros i s Hi. eapply (relayed_shift 0); eauto.
    rewrite Z.add_0_r. symmetry. apply u16_id, u16_range.
Qed.

(** ** A sample session

    A wire format of one byte per header field, two legs, and a run with a
    genuine packet, an injected one, and a second genuine one. *)
Definition toy_codec : RtpCodec :=
  {| rtp_Unmarshal := fun b => match b with
       | v :: pt :: seq :: ts :: payload => Some (mkPacket v false pt seq ts 5 [] payload)
       | _ => None
       end;
     rtp_MarshalTo := fun p => Some (p_Version p :: p_PayloadType p :: p_Payload p) |}.

Definition sample_remote (addr port pt : Z) : remoteConfig :=
  mkRemote (AddrPortFrom (Addr4 addr) port) (AddrPortFrom (Addr4 addr) (port + 1)) pt 101 true DirectionSendRecv.
Definition sample_leg (addr port pt learned : Z) : endpoint :=
  set_learnedRTP learned
    (mkEndpointState CallerLeg (mkLease 10000 NotRun false) (Some (sample_remote addr port pt)) 0 0
       (NewTracker 8000) 0 0 false 0 0 0 0 0 0 0).
Definition near_leg : endpoint := sample_leg 1 4000 0 4000.
Definition far_leg : endpoint := sample_leg 2 5000 8 0.

Definition near_arrival (at_ : Time) (from : AddrPort) (seq : Z) : Time * Incoming :=
  (at_, InPacket [2; 0; seq; seq * 160; 7; 7] from None).
(** A packet, an injected one that postpones the next timeout, and a second packet. *)
Definition sample_arrivals : list (Time * Incoming) :=
  [near_arrival 10 (AddrPortFrom (Addr4 1) 4000) 1; near_arrival 90 (AddrPortFrom (Addr4 9) 4000) 2;
   near_arrival 150 (AddrPortFrom (Addr4 1) 4000) 3].
Definition sample_events : list (Context * ReadEvent) := reads 100 0 sample_arrivals 400.

Lemma injection_noninterference_witness :
  let '(outs, _, _, _) := @forward_loop toy_codec 0 Second sample_events near_leg far_leg sample_rewriter in
  let '(outs', _, _, _) := @forward_loop toy_codec 0 Second
    (reads 100 0 [near_arrival 10 (AddrPortFrom (Addr4 1) 4000) 1; near_arrival 150 (AddrPortFrom (Addr4 1) 4000) 3] 400)
    near_leg far_leg sample_rewriter in
  outs = outs' /\ length outs = 2%nat.
Proof.
  pose proof (@injection_noninterference toy_codec 0 Second 100 0 400 (AddrPortFrom (Addr4 1) 4000) sample_arrivals
                near_leg far_leg sample_rewriter eq_refl) as H.
  change (filter (genuine (AddrPortFrom (Addr4 1) 4000)) sample_arrivals)
    with [near_arrival 10 (AddrPortFrom (Addr4 1) 4000) 1; near_arrival 150 (AddrPortFrom (Addr4 1) 4000) 3] in H.
  fold sample_events in H.
  assert (Hlen : length (@forward_loop toy_codec 0 Second sample_events near_leg far_leg sample_rewriter).1.1.1 = 2%nat)
    by (vm_compute; reflexivity).
  destruct (@forward_loop toy_codec 0 Second sample_events near_leg far_leg sample_rewriter) as [[[outs res] e1] rw1].
  destruct (forward_loop _ _ _ _ _ _) as [[[outs' res'] e2] rw2].
  destruct H as (H & _). split; [exact H | exact Hlen].
Defined.

Lemma relay_stream_witness :
  exists s0 s1, (@forward_loop toy_codec 0 Second sample_events near_leg far_leg sample_rewriter).1.1.1 = [s0; s1] /\
    @relayed_at toy_codec sample_events near_leg far_leg sample_rewriter 0 s0 /\
    @relayed_at toy_codec sample_events near_leg far_leg sample_rewriter 1 s1.
Proof.
  assert (Hu : is_u16 (rw_sequence sample_rewriter)) by (unfold is_u16; cbn; lia).
  assert (Hl : length (@forward_loop toy_codec 0 Second sample_events near_leg far_leg sample_rewriter).1.1.1 = 2%nat)
    by (vm_compute; reflexivity).
  destruct (@forward_loop toy_codec 0 Second sample_events near_leg far_leg sample_rewriter) as [[[outs res] e1] rw1] eqn:E.
  pose proof (@relay_stream toy_codec 0 Second sample_events near_leg far_leg sample_rewriter _ _ _ _ Hu E) as H.
  cbn [fst] in *. destruct outs as [|s0 [|s1 [|]]]; try discriminate Hl.
  exists s0, s1. split; [reflexivity|]. split; apply H; reflexivity.
Defined.
