(* ===== verification/MediaRtcp.v ===== *)
(** * RTCP reports

    Models [internal/media/session/rtcp.go] and [updateRemoteReport] of
    [endpoint.go]: sender and receiver reports, NTP time stamps and the
    round-trip time.  RTCP packets are parsed and serialised by [pion/rtcp],
    the parameter [RtcpCodec]. *)

From Stdlib Require Import Floats.SpecFloat.
From S2P Require Import Prelude Netip Sdp PortAlloc Rtp Dtmf MediaEndpoint.

Definition ntpEpochOffset : Z := 2208988800.
Definition MaxUint32 : Z := 2 ^ 32 - 1.

(** [pion/rtcp] packets the program reads and writes. *)
Record ReceptionReport := mkReception {
  rr_SSRC : Z; rr_FractionLost : Z; rr_TotalLost : Z; rr_LastSequenceNumber : Z; rr_Jitter : Z;
  rr_LastSenderReport : Z; rr_Delay : Z;
}.

Inductive RtcpPacket :=
| SenderReport (SSRC NTPTime RTPTime PacketCount OctetCount : Z) (Reports : list ReceptionReport)
| ReceiverReport (SSRC : Z) (Reports : list ReceptionReport)
| OtherPacket.

Class RtcpCodec := {
  rtcp_Unmarshal : list Z -> option (list RtcpPacket);
  rtcp_Marshal : RtcpPacket -> result (list Z);
}.

Definition ntpTimestamp (value : Time) : Z :=
  let seconds := u64 (i64 (Unix value + ntpEpochOffset)) in
  let fraction := u64 (NanosecondOf value * 2 ^ 32) / Second in
  Z.lor (u64 (Z.shiftl seconds 32)) fraction.

Definition compactNTP (value : Z) : Z := u32 (Z.shiftr value 16).

(** The fields written by the RTCP loops. *)
Definition update_report (e : endpoint) (fraction total jitter rtt lastSR lastSRNanos sentSR : Z) : endpoint :=
  mkEndpointState (e_leg e) (e_lease e) (e_remote e) (e_learnedRTPPort e) (e_learnedRTCPPort e) (e_tracker e)
    (e_invalidPackets e) (e_dtmfEvents e) (e_timedOut e) fraction total jitter rtt lastSR lastSRNanos sentSR.

Definition set_remoteSR (sr nanos : Z) (e : endpoint) : endpoint :=
  update_report e (e_remoteFractionLost e) (e_remoteTotalLost e) (e_remoteJitter e) (e_rttNanos e) sr nanos (e_lastSentSR e).
Definition set_sentSR (sr : Z) (e : endpoint) : endpoint :=
  update_report e (e_remoteFractionLost e) (e_remoteTotalLost e) (e_remoteJitter e) (e_rttNanos e)
    (e_lastRemoteSR e) (e_lastRemoteSRNanos e) sr.

(** The round-trip time of one report, when it answers the last sender report. *)
Definition report_rtt (lastSentSR : Z) (report : ReceptionReport) (receivedAt : Time) (rtt : Z) : Z :=
  if negb (rr_LastSenderReport report =? 0) && (rr_LastSenderReport report =? lastSentSR) then
    let arrival := compactNTP (ntpTimestamp receivedAt) in
    if u32 (rr_LastSenderReport report + rr_Delay report) <? arrival then
      let rttUnits := u32 (u32 (arrival - rr_LastSenderReport report) - rr_Delay report) in
      go_div (i64 (rttUnits * Second)) 65536
    else rtt
  else rtt.

Fixpoint updateRemoteReport (reports : list ReceptionReport) (senderSSRC : Z) (receivedAt : Time)
    (e : endpoint) : endpoint :=
  match reports with
  | [] => e
  | report :: rest =>
      if negb (rr_SSRC report =? senderSSRC) then updateRemoteReport rest senderSSRC receivedAt e
      else update_report e (rr_FractionLost report) (rr_TotalLost report) (rr_Jitter report)
             (report_rtt (e_lastSentSR e) report receivedAt (e_rttNanos e))
             (e_lastRemoteSR e) (e_lastRemoteSRNanos e) (e_lastSentSR e)
  end.

(** The packets of one RTCP datagram. *)
Fixpoint handle_reports (packets : list RtcpPacket) (senderSSRC : Z) (now : Time) (e : endpoint) : endpoint :=
  match packets with
  | [] => e
  | SenderReport _ ntp _ _ _ reports :: rest =>
      handle_reports rest senderSSRC now
        (updateRemoteReport reports senderSSRC now (set_remoteSR (compactNTP ntp) (UnixNano now) e))
  | ReceiverReport _ reports :: rest =>
      handle_reports rest senderSSRC now (updateRemoteReport reports senderSSRC now e)
  | OtherPacket :: rest => handle_reports rest senderSSRC now e
  end.

(** One round of [readRTCP]: what the read returns, and whether the loop ends. *)
Definition rtcp_round `{RtcpCodec} (ctx : Context) (ev : ReadEvent) (outbound : Rewriter) (e : endpoint)
    : option (option error) * endpoint :=
  match ev with
  | DeadlineError x => (Some (Some (Errorf "set RTCP read deadline" [x])), e)
  | ReadError x => (Some (if quiet ctx x then None else Some (Errorf "read RTCP" [x])), e)
  | ReadTimeout _ => match ctx with Some _ => (Some None, e) | None => (None, e) end
  | Datagram bytes from now _ =>
      let '(accepted, e) := acceptsRTCP from e in
      if negb accepted then (None, add_invalid e) else
      match rtcp_Unmarshal bytes with
      | None => (None, add_invalid e)
      | Some packets => (None, handle_reports packets (ss_SSRC (Rewriter_Snapshot outbound)) now e)
      end
  end.

Fixpoint readRTCP_loop `{RtcpCodec} (events : list (Context * ReadEvent)) (outbound : Rewriter) (e : endpoint)
    : option (option error) * endpoint :=
  match events with
  | [] => (None, e)
  | (ctx, ev) :: rest =>
      match rtcp_round ctx ev outbound e with
      | (Some res, e) => (Some res, e)
      | (None, e) => readRTCP_loop rest outbound e
      end
  end.

Definition readRTCP `{RtcpCodec} (events : list (Context * ReadEvent)) (outbound : Rewriter) (e : endpoint)
    : option (option error) * endpoint :=
  match RTCPConn (Some (e_lease e)) with
  | Err x => (Some (Some x), e)
  | Ok _ => readRTCP_loop events outbound e
  end.

(** Truncation of a float64 toward zero. *)
Definition f64_trunc (x : float64) : Z :=
  match x with
  | S754_finite s m e =>
      let v := if 0 <=? e then Z.pos m * 2 ^ e else Z.pos m / 2 ^ (- e) in if s then - v else v
  | _ => 0
  end.

(** [uint32(max(0, jitter))]; beyond 32 bits the conversion is up to the
    platform, and the low 32 bits are taken as on amd64. *)
Definition jitter_field (jitter : float64) : Z := u32 (Z.max 0 (f64_trunc jitter)).

Definition loss_fraction (packets lost : Z) : Z :=
  let expected := u64 (packets + lost) in
  if 0 <? expected then Z.min (u64 (lost * 256) / expected) 255 else 0.

Definition report_delay (lastSR receivedNanos : Z) (now : Time) : Z :=
  if negb (lastSR =? 0) && negb (receivedNanos =? 0) then
    let elapsed := time_Sub now (time_UnixNano receivedNanos) in
    if 0 <? elapsed then Z.min (u64 (go_div (i64 (elapsed * 65536)) Second)) MaxUint32 else 0
  else 0.

Definition receptionReport (destination : endpoint) (inbound : Stats) (now : Time) : ReceptionReport :=
  {| rr_SSRC := st_SSRC inbound;
     rr_FractionLost := loss_fraction (st_Packets inbound) (st_Lost inbound);
     rr_TotalLost := Z.min (st_Lost inbound) (2 ^ 24 - 1);
     rr_LastSequenceNumber := st_LastSequence inbound;
     rr_Jitter := jitter_field (st_JitterSamples inbound);
     rr_LastSenderReport := e_lastRemoteSR destination;
     rr_Delay := report_delay (e_lastRemoteSR destination) (e_lastRemoteSRNanos destination) now |}.

(** The report [writeRTCP] sends: a sender report once something was sent. *)
Definition build_report (destination : endpoint) (outbound : Rewriter) (now : Time) : RtcpPacket * endpoint :=
  let inbound := Tracker_Snapshot (e_tracker destination) in
  let sender := Rewriter_Snapshot outbound in
  let reports := if st_SSRC inbound =? 0 then [] else [receptionReport destination inbound now] in
  if 0 <? ss_Packets sender then
    let ntp := ntpTimestamp now in
    (SenderReport (ss_SSRC sender) ntp (ss_LastTimestamp sender) (Z.min (ss_Packets sender) MaxUint32)
       (Z.min (ss_Bytes sender) MaxUint32) reports, set_sentSR (compactNTP ntp) destination)
  else (ReceiverReport (ss_SSRC sender) reports, destination).

(** [write] is the error of the socket write, if any. *)
Definition writeRTCP `{RtcpCodec} (write : option error) (outbound : Rewriter) (now : Time) (destination : endpoint)
    : option error * option (list Z * AddrPort) * endpoint :=
  match rtcpTarget destination with
  | None => (None, None, destination)
  | Some target =>
      let '(packet, destination) := build_report destination outbound now in
      match rtcp_Marshal packet with
      | Err x => (Some (Errorf "marshal RTCP report" [x]), None, destination)
      | Ok wire =>
          match RTCPConn (Some (e_lease destination)) with
          | Err x => (Some x, None, destination)
          | Ok _ =>
              match write with
              | None => (None, Some (wire, target), destination)
              | Some x => (if errors_Is x net_ErrClosed then None else Some (Errorf "write RTCP report" [x]), None, destination)
              end
          end
      end
  end.

(** ** NTP time stamps *)

(** NTP time in units of [1/2^n] seconds. *)
Definition ntp_units (n : Z) (t : Time) : Z := (t + ntpEpochOffset * Second) * 2 ^ n / Second.

Definition plausible (t : Time) : Prop := 0 <= t < 2 ^ 62.

Lemma div_mul_add q r k s : 0 < s -> (q * s + r) * k / s = q * k + r * k / s.
Proof. intros Hs. replace ((q * s + r) * k) with (r * k + q * k * s) by ring. rewrite Z.div_add by lia. lia. Qed.

(** The time stamp is the exact NTP time, rounded down to 2^-32 seconds. *)
Lemma ntpTimestamp_exact t : plausible t -> ntpTimestamp t = u64 (ntp_units 32 t).
Proof.
  intros Ht. unfold ntpTimestamp, ntp_units, Unix, NanosecondOf, plausible in *.
  pose proof (Z.div_mod t Second) as Hdm. pose proof (Z.mod_pos_bound t Second) as Hmb.
  unfold Second, ntpEpochOffset in *. set (q := t / 1000000000) in *. set (r := t mod 1000000000) in *.
  assert (0 <= q < 2 ^ 33) by lia.
  rewrite (i64_id (q + 2208988800)) by word_lia. rewrite (u64_id (q + 2208988800)) by word_lia.
  rewrite (u64_id (r * 2 ^ 32)) by word_lia. rewrite Z.shiftl_mul_pow2 by lia.
  replace (t + 2208988800 * 1000000000) with ((q + 2208988800) * 1000000000 + r) by lia.
  rewrite div_mul_add by lia.
  assert (Hf : 0 <= r * 2 ^ 32 / 1000000000 < 2 ^ 32).
  { split; [apply Z.div_pos; lia | apply Z.div_lt_upper_bound; lia]. }
  assert (Hu : u64 ((q + 2208988800) * 2 ^ 32) = Z.shiftl (u32 (q + 2208988800)) 32).
  { rewrite Z.shiftl_mul_pow2 by lia. unfold u64, u32. change (2 ^ 64) with (2 ^ 32 * 2 ^ 32).
    rewrite Z.mul_mod_distr_r by lia. done. }
  rewrite Hu, Z.lor_comm, lor_shiftl by lia. unfold u64.
  transitivity (((q + 2208988800) * 2 ^ 32) mod 2 ^ 64 + r * 2 ^ 32 / 1000000000).
  - unfold u64 in Hu. rewrite Hu, Z.shiftl_mul_pow2 by lia. lia.
  - rewrite Z.add_mod, (Z.mod_small (r * 2 ^ 32 / 1000000000) (2 ^ 64)) by lia.
    symmetry. apply Z.mod_small. unfold u64 in Hu.
    rewrite Hu, Z.shiftl_mul_pow2 by lia. unfold u32.
    pose proof (Z.mod_pos_bound (q + 2208988800) (2 ^ 32)). lia.
Qed.

Lemma compactNTP_exact t : plausible t -> compactNTP (ntpTimestamp t) = u32 (ntp_units 16 t).
Proof.
  intros Ht. rewrite ntpTimestamp_exact by done. unfold compactNTP, u32, u64.
  rewrite Z.shiftr_div_pow2 by lia. set (x := ntp_units 32 t).
  assert (Hx : x / 2 ^ 16 = ntp_units 16 t).
  { unfold x, ntp_units. rewrite Z.div_div by (unfold Second; lia).
    rewrite (Z.mul_comm Second), <- Z.div_div by (unfold Second; lia).
    f_equal. change (2 ^ 32) with (2 ^ 16 * 2 ^ 16). rewrite Z.mul_assoc. apply Z.div_mul. lia. }
  rewrite <- Hx. clear. Z.div_mod_to_equations. lia.
Qed.

(** ** Round-trip time *)

Lemma ntp_units_diff t0 t1 : t0 <= t1 ->
  Z.abs (Second * (ntp_units 16 t1 - ntp_units 16 t0) - 65536 * (t1 - t0)) < Second.
Proof. intros Ht. unfold ntp_units, Second. Z.div_mod_to_equations. lia. Qed.

Lemma updateRemoteReport_first reports senderSSRC now e report rest :
  reports = report :: rest -> rr_SSRC report = senderSSRC ->
  e_rttNanos (updateRemoteReport reports senderSSRC now e)
  = report_rtt (e_lastSentSR e) report now (e_rttNanos e).
Proof. intros -> <-. cbn. by rewrite Z.eqb_refl. Qed.

(** Claim C36. The round-trip time is right: when a peer's report answers the
    sender report written at [t0] (echoing its compact NTP time, which is not zero,
    with a processing delay) and arrives at [t1] within the same 18-hour NTP period,
    more than that delay later in whole units of 1/65536 s, then the stored RTT differs from [t1 - t0] minus the delay by less than one unit
    of 1/65536 s plus a nanosecond. *)
Theorem rtt_accurate e outbound t0 t1 ssrc ntp rtpTime pc oc reps e1 report rest :
  plausible t0 -> plausible t1 -> t0 <= t1 ->
  build_report e outbound t0 = (SenderReport ssrc ntp rtpTime pc oc reps, e1) ->
  rr_SSRC report = ssrc -> rr_LastSenderReport report = compactNTP ntp -> compactNTP ntp <> 0 ->
  is_u32 (rr_Delay report) ->
  ntp_units 16 t0 / 2 ^ 32 = ntp_units 16 t1 / 2 ^ 32 ->
  ntp_units 16 t0 + rr_Delay report < ntp_units 16 t1 ->
  let rtt := e_rttNanos (updateRemoteReport (report :: rest) (ss_SSRC (Rewriter_Snapshot outbound)) t1 e1) in
  Z.abs (65536 * rtt - (65536 * (t1 - t0) - Second * rr_Delay report)) < Second + 65536.
Proof.
  intros Hp0 Hp1 Hle Hbuild Hs Hlsr Hnz Hd Hera Hpos rtt. subst rtt.
  unfold build_report in Hbuild. destruct (0 <? _); [|done]. injection Hbuild as <- <- _ _ _ _ <-.
  erewrite updateRemoteReport_first by eauto. unfold report_rtt. cbn [e_lastSentSR set_sentSR update_report].
  rewrite Hlsr, Z.eqb_refl. destruct (Z.eqb_spec (compactNTP (ntpTimestamp t0)) 0); [done|]. cbn [negb andb].
  rewrite !compactNTP_exact in * by done.
  pose proof (ntp_units_diff t0 t1 Hle) as Hdiff.
  assert (Hu : forall x, ntp_units 16 t0 <= x <= ntp_units 16 t1 -> u32 x = x - 2 ^ 32 * (ntp_units 16 t0 / 2 ^ 32)).
  { intros x Hx. unfold u32. rewrite Z.mod_eq by lia. do 2 f_equal.
    apply Z.le_antisymm; [rewrite Hera|]; apply Z.div_le_mono; lia. }
  unfold is_u32 in Hd. set (k0 := ntp_units 16 t0) in *. set (k1 := ntp_units 16 t1) in *.
  assert (Hsum : u32 (u32 k0 + rr_Delay report) = u32 (k0 + rr_Delay report)) by word_lia.
  rewrite Hsum, (Hu (k0 + rr_Delay report)), (Hu k1), (Hu k0) by lia.
  destruct (Z.ltb_spec (k0 + rr_Delay report - 2 ^ 32 * (k0 / 2 ^ 32)) (k1 - 2 ^ 32 * (k0 / 2 ^ 32))); [|lia].
  assert (Hk : 0 <= k1 - k0 < 2 ^ 32).
  { pose proof (Hu k1 ltac:(lia)) as H1. pose proof (Hu k0 ltac:(lia)) as H0. pose proof (u32_range k1). pose proof (u32_range k0).
    unfold is_u32 in *. lia. }
  replace (k1 - 2 ^ 32 * (k0 / 2 ^ 32) - (k0 - 2 ^ 32 * (k0 / 2 ^ 32))) with (k1 - k0) by lia.
  rewrite (u32_id (k1 - k0)) by done. rewrite (u32_id (k1 - k0 - _)) by (unfold is_u32; lia).
  unfold Second in *. rewrite i64_id by (unfold is_i64; lia). unfold go_div. rewrite Z.quot_div_nonneg by lia.
  Z.div_mod_to_equations. lia.
Qed.

Definition busy_rewriter : Rewriter := mkRewriter 9 1 256 0 256 true 3 30 256.
Definition rtcp_leg : endpoint := near_leg.

Lemma rtt_accurate_witness :
  let t0 := 1700000000 * Second in
  let t1 := t0 + 150 * Millisecond in
  let e1 := (build_report rtcp_leg busy_rewriter t0).2 in
  let report := mkReception 9 0 0 0 0 (compactNTP (ntpTimestamp t0)) 6553 in
  Z.abs (65536 * e_rttNanos (updateRemoteReport [report] 9 t1 e1) - (65536 * (t1 - t0) - Second * 6553)) < Second + 65536.
Proof.
  exact (rtt_accurate rtcp_leg busy_rewriter (1700000000 * Second) (1700000000 * Second + 150 * Millisecond)
    9 (ntpTimestamp (1700000000 * Second)) 256 3 30 [] _
    (mkReception 9 0 0 0 0 (compactNTP (ntpTimestamp (1700000000 * Second))) 6553) []
    ltac:(vm_compute; split; discriminate || reflexivity) ltac:(vm_compute; split; discriminate || reflexivity)
    ltac:(vm_compute; discriminate) eq_refl eq_refl eq_refl ltac:(vm_compute; discriminate)
    ltac:(vm_compute; split; discriminate || reflexivity) ltac:(vm_compute; reflexivity) ltac:(vm_compute; reflexivity)).
Defined.

(** ** Reception reports *)

Lemma loss_fraction_exact packets lost : 0 <= packets < 2 ^ 55 -> 0 <= lost < 2 ^ 55 ->
  loss_fraction packets lost = Z.min (256 * lost / (packets + lost)) 255 /\ is_u8 (loss_fraction packets lost).
Proof.
  intros Hp Hl. unfold loss_fraction. rewrite (u64_id (packets + lost)), (u64_id (lost * 256)) by word_lia.
  rewrite (Z.mul_comm 256). destruct (Z.ltb_spec 0 (packets + lost)).
  - split; [done|]. pose proof (Z.div_pos (lost * 256) (packets + lost)). unfold is_u8. lia.
  - assert (packets = 0) as -> by lia. assert (lost = 0) as -> by lia. split; [done | unfold is_u8; lia].
Qed.

Lemma report_delay_exact lastSR nanos now :
  lastSR <> 0 -> nanos <> 0 -> 0 < now - nanos < 2 ^ 47 ->
  report_delay lastSR nanos now = Z.min (65536 * (now - nanos) / Second) MaxUint32.
Proof.
  intros H1 H2 H3. unfold report_delay. destruct (Z.eqb_spec lastSR 0), (Z.eqb_spec nanos 0); try done. cbn [negb andb].
  assert (Hsub : time_Sub now (time_UnixNano nanos) = now - nanos) by (unfold time_Sub, time_UnixNano; lia).
  rewrite Hsub. destruct (Z.ltb_spec 0 (now - nanos)); [|lia]. f_equal.
  rewrite i64_id by word_lia. unfold go_div. rewrite Z.quot_div_nonneg by (unfold Second; lia).
  rewrite (Z.mul_comm 65536). apply u64_id.
  pose proof (Z.div_pos ((now - nanos) * 65536) Second ltac:(lia) ltac:(unfold Second; lia)).
  pose proof (Z.div_le_upper_bound ((now - nanos) * 65536) Second (2 ^ 63)). unfold is_u64, Second in *. lia.
Qed.

(** A reception report is exact and fits its wire fields: the loss
    fraction is the lost share of the expected packets in 1/256 units, capped at
    255; the total is capped at 24 bits; the delay since the peer's last sender
    report is in 1/65536 s, capped at 32 bits, as long as that report is less
    than 2^47 ns (39 hours) old, and 0 when there was none. *)
Theorem reception_report_exact destination inbound now :
  0 <= st_Packets inbound < 2 ^ 55 -> 0 <= st_Lost inbound < 2 ^ 55 ->
  0 < now - e_lastRemoteSRNanos destination < 2 ^ 47 ->
  let r := receptionReport destination inbound now in
  rr_FractionLost r = Z.min (256 * st_Lost inbound / (st_Packets inbound + st_Lost inbound)) 255 /\
  is_u8 (rr_FractionLost r) /\
  rr_TotalLost r = Z.min (st_Lost inbound) (2 ^ 24 - 1) /\ 0 <= rr_TotalLost r < 2 ^ 24 /\
  is_u32 (rr_Jitter r) /\ is_u32 (rr_Delay r) /\
  (e_lastRemoteSR destination <> 0 -> e_lastRemoteSRNanos destination <> 0 ->
   rr_Delay r = Z.min (65536 * (now - e_lastRemoteSRNanos destination) / Second) MaxUint32) /\
  (e_lastRemoteSR destination = 0 -> rr_Delay r = 0).
Proof.
  intros Hp Hl Hn r. subst r. cbn [receptionReport rr_FractionLost rr_TotalLost rr_Jitter rr_Delay].
  destruct (loss_fraction_exact _ _ Hp Hl) as [Hfr Hf].
  split_and!; auto; try lia.
  - apply u32_range.
  - unfold report_delay. destruct (_ && _); [|unfold is_u32; lia]. destruct (0 <? _); [|unfold is_u32; lia].
    pose proof (u64_range (go_div (i64 (time_Sub now (time_UnixNano (e_lastRemoteSRNanos destination)) * 65536)) Second)).
    unfold is_u32, is_u64, MaxUint32 in *. lia.
  - intros. by apply report_delay_exact.
  - intros H0. unfold report_delay. by rewrite H0.
Qed.

Lemma reception_report_exact_witness :
  let e := set_remoteSR 77 (5 * Second) rtcp_leg in
  let s := mkStats 900 0 100 0 0 0 (S754_zero false) 1 2 0 in
  rr_FractionLost (receptionReport e s (6 * Second)) = 25 /\ rr_Delay (receptionReport e s (6 * Second)) = 65536.
Proof.
  assert (Hp : 0 <= 900 < 2 ^ 55) by lia. assert (Hl : 0 <= 100 < 2 ^ 55) by lia.
  assert (Hn : 0 < 6 * Second - 5 * Second < 2 ^ 47) by (unfold Second; lia).
  destruct (reception_report_exact (set_remoteSR 77 (5 * Second) rtcp_leg) (mkStats 900 0 100 0 0 0 (S754_zero false) 1 2 0)
    (6 * Second) Hp Hl Hn) as (Hf & _ & _ & _ & _ & _ & Hd & _).
  split; [exact Hf|]. apply Hd; discriminate.
Defined.
