(* ===== verification/MediaSession.v ===== *)
(** * Media sessions

    Models [internal/media/session/session.go] and [quality.go]: the factory
    that leases both legs' sockets, the session with its configuration, close
    and quality summaries, and the media instance of the event bus
    ([internal/event/media_bus.go]). *)

From S2P Require Import Prelude Netip Sdp PortAlloc Rtp Dtmf MediaEndpoint MediaRtcp EventBus.

Record Metadata := mkMetadata {
  md_TenantID : string; md_CallID : string; md_NodeID : string; md_CallerID : string; md_CalleeID : string;
}.

Record SessionConfig := mkSessionConfig {
  AdvertisedIP : Addr; ReadPollInterval : Duration; InactivityTimeout : Duration;
  RTCPInterval : Duration; SummaryInterval : Duration; SummaryTimeout : Duration;
}.

(** [NewFactory]'s checks; pool and publisher are pointers that may be nil. *)
Definition NewFactory (cfg : SessionConfig) (pool_present publisher_present : bool) : result () :=
  _ ← guard_err (negb (Addr_IsValid (AdvertisedIP cfg)) || IsUnspecified (AdvertisedIP cfg))
        "media advertised IP must be a specified address";
  _ ← guard_err ((ReadPollInterval cfg <=? 0) || (InactivityTimeout cfg <=? ReadPollInterval cfg))
        "media inactivity timeout must exceed the read poll interval";
  _ ← guard_err ((RTCPInterval cfg <=? 0) || (SummaryInterval cfg <=? 0) || (SummaryTimeout cfg <=? 0))
        "media RTCP and summary intervals must be positive";
  guard_err (negb pool_present || negb publisher_present)
    "media port pool and summary publisher are required".

(** A channel that is only closed; closing it a second time panics. *)
Inductive Chan := ChanOpen | ChanClosed | ChanPanic.
Definition close (c : Chan) : Chan := match c with ChanOpen => ChanClosed | _ => ChanPanic end.

Record Session := mkMediaSession {
  se_id : string;
  se_metadata : Metadata;
  se_cfg : SessionConfig;
  se_caller : endpoint;
  se_callee : endpoint;
  se_callerToCallee : Rewriter;
  se_calleeToCaller : Rewriter;
  se_mapping : option Mapping;
  se_startedAt : Z;
  se_summaryDrops : Z;
  se_closed : bool;   (* closeOnce has run *)
  se_done : Chan;
}.

(** What the surroundings supply to one [Factory.New]: the two acquisitions,
    the random seeds of the rewriters and the session's UUID.  The errors of the
    closing sockets are dropped by the code. *)
Record NewEnv := mkNewEnv {
  ne_caller : nat -> Attempt; ne_callee : nat -> Attempt;
  ne_seed1 : result (list Z); ne_seed2 : result (list Z); ne_uuid : result string;
}.

(** [_ = lease.Release()] *)
Definition release_quietly (l : Lease) (p : Pool) (open : Sockets) : Pool * Sockets :=
  let '(_, _, p, open) := Release None None l p open in (p, open).

Definition Factory_New (cfg : SessionConfig) (env : NewEnv) (metadata : Metadata) (pool : option Pool) (open : Sockets)
    : result Session * option Pool * Sockets :=
  match Acquire (ne_caller env) pool open with
  | (Ok callerLease, Some p, open) =>
      match Acquire (ne_callee env) (Some p) open with
      | (Ok calleeLease, Some p, open) =>
          let fail e :=
            let '(p, open) := release_quietly callerLease p open in
            let '(p, open) := release_quietly calleeLease p open in
            (Err e, Some p, open) in
          match NewRewriter (ne_seed1 env) with
          | Err e => fail e
          | Ok callerToCallee =>
              match NewRewriter (ne_seed2 env) with
              | Err e => fail e
              | Ok calleeToCaller =>
                  match ne_uuid env with
                  | Err e => fail (Errorf "generate media session ID" [e])
                  | Ok mediaID =>
                      (Ok (mkMediaSession mediaID metadata cfg (newEndpoint CallerLeg callerLease)
                             (newEndpoint CalleeLeg calleeLease) callerToCallee calleeToCaller None 0 0 false ChanOpen),
                       Some p, open)
                  end
              end
          end
      | (Err e, Some p, open) =>
          let '(p, open) := release_quietly callerLease p open in
          (Err (Errorf "lease callee media ports" [e]), Some p, open)
      | (_, None, open) => (Err (Errorf "lease callee media ports" []), None, open)
      end
  | (Err e, p, open) => (Err (Errorf "lease caller media ports" [e]), p, open)
  | (Ok _, None, open) => (Err (Errorf "lease caller media ports" []), None, open)
  end.

Definition session_endpoint (leg : Leg) (s : Session) : result endpoint :=
  if String.eqb leg CallerLeg then Ok (se_caller s)
  else if String.eqb leg CalleeLeg then Ok (se_callee s)
  else Err (Errorf "unknown media leg" []).

Definition LocalEndpoint (leg : Leg) (s : Session) : result (AddrPort * AddrPort) :=
  e ← session_endpoint leg s;
  Ok (AddrPortFrom (AdvertisedIP (se_cfg s)) (RTPPort (e_lease e)),
      AddrPortFrom (AdvertisedIP (se_cfg s)) (RTCPPort (e_lease e))).

Definition set_endpoints (caller callee : endpoint) (mapping : option Mapping) (closed : bool) (done : Chan) (s : Session)
    : Session :=
  mkMediaSession (se_id s) (se_metadata s) (se_cfg s) caller callee (se_callerToCallee s) (se_calleeToCaller s)
    mapping (se_startedAt s) (se_summaryDrops s) closed done.

Definition Configure (caller callee : Endpoint) (mapping : Mapping) (s : Session) : option error * Session :=
  if String.eqb (m_Name mapping) "" || (m_ClockRate mapping =? 0)
  then (Some (Errorf "media payload mapping is required" []), s)
  else
    (None, set_endpoints
       (configure caller (m_CallerPT mapping) (m_CallerDTMFPT mapping) (m_HasDTMF mapping) (se_caller s))
       (configure callee (m_CalleePT mapping) (m_CalleeDTMFPT mapping) (m_HasDTMF mapping) (se_callee s))
       (Some mapping) (se_closed s) (se_done s) s).

(** The errors the four sockets report when they are closed. *)
Record CloseErrors := mkCloseErrors {
  ce_callerRTP : option error; ce_callerRTCP : option error;
  ce_calleeRTP : option error; ce_calleeRTCP : option error;
}.

Definition set_lease (l : Lease) (e : endpoint) : endpoint :=
  mkEndpointState (e_leg e) l (e_remote e) (e_learnedRTPPort e) (e_learnedRTCPPort e) (e_tracker e)
    (e_invalidPackets e) (e_dtmfEvents e) (e_timedOut e) (e_remoteFractionLost e) (e_remoteTotalLost e)
    (e_remoteJitter e) (e_rttNanos e) (e_lastRemoteSR e) (e_lastRemoteSRNanos e) (e_lastSentSR e).

Definition Close (errs : CloseErrors) (s : Session) (p : Pool) (open : Sockets)
    : option error * Session * Pool * Sockets :=
  if se_closed s then (None, s, p, open) else
  let '(err1, l1, p, open) := Release (ce_callerRTP errs) (ce_callerRTCP errs) (e_lease (se_caller s)) p open in
  let '(err2, l2, p, open) := Release (ce_calleeRTP errs) (ce_calleeRTCP errs) (e_lease (se_callee s)) p open in
  (errors_Join [err1; err2],
   set_endpoints (set_lease l1 (se_caller s)) (set_lease l2 (se_callee s)) (se_mapping s) true (close (se_done s)) s, p, open).

(** [run] before the workers start: [None] when the session is configured. *)
Definition run_start (now : Time) (s : Session) : result Session :=
  match se_mapping s, e_remote (se_caller s), e_remote (se_callee s) with
  | Some _, Some _, Some _ =>
      Ok (mkMediaSession (se_id s) (se_metadata s) (se_cfg s) (se_caller s) (se_callee s) (se_callerToCallee s)
            (se_calleeToCaller s) (se_mapping s) (UnixNano now) (se_summaryDrops s) (se_closed s) (se_done s))
  | _, _, _ => Err (Errorf "media session must be configured before Run" [])
  end.

(** ... and after [group.Wait] returned [err]: the session is closed. *)
Definition run_end (err : option error) (errs : CloseErrors) (s : Session) (p : Pool) (open : Sockets)
    : option error * Session * Pool * Sockets :=
  let '(closeErr, s, p, open) := Close errs s p open in
  let err := if errors_Is_opt err "context canceled" || errors_Is_opt err net_ErrClosed then None else err in
  (errors_Join [err; closeErr], s, p, open).

(** ** [quality.go] *)

Record LegSummary := mkLegSummary {
  ls_Inbound : Stats; ls_Outbound : SenderStats; ls_InvalidPackets : Z; ls_DTMFEvents : Z;
  ls_RemoteFractionLost : Z; ls_RemoteTotalLost : Z; ls_RemoteJitter : Z; ls_RTT : Duration; ls_TimedOut : bool;
}.

Record Summary := mkSummary {
  sm_MediaSessionID : string; sm_TenantID : string; sm_CallID : string; sm_NodeID : string;
  sm_CallerLegID : string; sm_CalleeLegID : string; sm_SampledAt : Time;
  sm_Caller : LegSummary; sm_Callee : LegSummary; sm_OneWay : bool; sm_DroppedSummaries : Z;
}.

Definition legSummary (e : endpoint) (outbound : Rewriter) : LegSummary :=
  {| ls_Inbound := Tracker_Snapshot (e_tracker e); ls_Outbound := Rewriter_Snapshot outbound;
     ls_InvalidPackets := e_invalidPackets e; ls_DTMFEvents := e_dtmfEvents e;
     ls_RemoteFractionLost := u8 (e_remoteFractionLost e); ls_RemoteTotalLost := e_remoteTotalLost e;
     ls_RemoteJitter := e_remoteJitter e; ls_RTT := e_rttNanos e; ls_TimedOut := e_timedOut e |}.

Definition Session_Snapshot (now : Time) (s : Session) : Summary :=
  let caller := legSummary (se_caller s) (se_calleeToCaller s) in
  let callee := legSummary (se_callee s) (se_callerToCallee s) in
  let oneWay :=
    if negb (se_startedAt s =? 0)
       && (InactivityTimeout (se_cfg s) <=? time_Sub now (time_UnixNano (se_startedAt s)))
    then negb (Bool.eqb (0 <? st_Packets (ls_Inbound caller)) (0 <? st_Packets (ls_Inbound callee)))
    else false in
  {| sm_MediaSessionID := se_id s; sm_TenantID := md_TenantID (se_metadata s);
     sm_CallID := md_CallID (se_metadata s); sm_NodeID := md_NodeID (se_metadata s);
     sm_CallerLegID := md_CallerID (se_metadata s); sm_CalleeLegID := md_CalleeID (se_metadata s);
     sm_SampledAt := now; sm_Caller := caller; sm_Callee := callee; sm_OneWay := oneWay;
     sm_DroppedSummaries := se_summaryDrops s |}.

(** The publisher takes the summary or fails; a failure is counted. *)
Definition publishSummary {W} (PublishMediaSummary : Summary -> W -> option error * W) (now : Time)
    (s : Session) (w : W) : Session * W :=
  let '(err, w) := PublishMediaSummary (Session_Snapshot now s) w in
  (match err with
   | None => s
   | Some _ => mkMediaSession (se_id s) (se_metadata s) (se_cfg s) (se_caller s) (se_callee s)
       (se_callerToCallee s) (se_calleeToCaller s) (se_mapping s) (se_startedAt s)
       (u64 (se_summaryDrops s + 1)) (se_closed s) (se_done s)
   end, w).

(** ** [reportLoop]

    One tick of the worker.  [others] is what the other workers have done to the
    session's endpoints and rewriters since the previous tick. *)
Inductive Tick :=
| RTCPTick (others : Session -> Session) (now : Time) (callerWrite calleeWrite : option error)
| SummaryTick (others : Session -> Session) (now : Time)
| StopTick.

Definition set_legs (caller callee : endpoint) (s : Session) : Session :=
  set_endpoints caller callee (se_mapping s) (se_closed s) (se_done s) s.

(** Returns the loop's error once it stops, the session, the publisher's state
    and the reports sent. *)
Fixpoint reportLoop `{RtcpCodec} {W} (PublishMediaSummary : Summary -> W -> option error * W) (ticks : list Tick)
    (s : Session) (w : W) : option (option error) * Session * W * list (list Z * AddrPort) :=
  match ticks with
  | [] => (None, s, w, [])
  | StopTick :: _ => (Some None, s, w, [])
  | SummaryTick others now :: rest =>
      let '(s, w) := publishSummary PublishMediaSummary now (others s) w in
      reportLoop PublishMediaSummary rest s w
  | RTCPTick others now callerWrite calleeWrite :: rest =>
      let s := others s in
      match writeRTCP callerWrite (se_calleeToCaller s) now (se_caller s) with
      | (Some e, _, caller) => (Some (Some e), set_legs caller (se_callee s) s, w, [])
      | (None, out1, caller) =>
          let s := set_legs caller (se_callee s) s in
          match writeRTCP calleeWrite (se_callerToCallee s) now (se_callee s) with
          | (Some e, _, callee) => (Some (Some e), set_legs (se_caller s) callee s, w, option_list out1)
          | (None, out2, callee) =>
              let '(res, s, w, outs) := reportLoop PublishMediaSummary rest (set_legs (se_caller s) callee s) w in
              (res, s, w, option_list out1 ++ option_list out2 ++ outs)
          end
      end
  end.

(** Every summary the publisher does not take is counted, and nothing else is. *)
Definition counting {W} (PublishMediaSummary : Summary -> W -> option error * W) (m : Summary) (w : W * Z)
    : option error * (W * Z) :=
  let '(err, w') := PublishMediaSummary m w.1 in
  (err, (w', w.2 + match err with Some _ => 1 | None => 0 end)).

Definition keeps_drops (t : Tick) : Prop :=
  match t with
  | RTCPTick others _ _ _ | SummaryTick others _ => forall s, se_summaryDrops (others s) = se_summaryDrops s
  | StopTick => True
  end.

Theorem dropped_summaries_counted `{RtcpCodec} {W} (Pub : Summary -> W -> option error * W) ticks : forall s (w : W * Z) res s' w' outs,
  Forall keeps_drops ticks -> is_u64 (se_summaryDrops s) ->
  reportLoop (counting Pub) ticks s w = (res, s', w', outs) ->
  se_summaryDrops s' = u64 (se_summaryDrops s + (w'.2 - w.2)).
Proof.
  induction ticks as [|t rest IH]; cbn [reportLoop]; intros s w res s' w' outs Hk Hu Hr.
  { injection Hr as <- <- <- <-. by rewrite Z.sub_diag, Z.add_0_r, u64_id. }
  apply Forall_cons in Hk as [Ht Hk]. destruct t as [others now cw ew|others now|]; cbn in Ht.
  - destruct (writeRTCP cw _ _ _) as [[[e1|] o1] caller].
    { injection Hr as <- <- <- <-. cbn. by rewrite Ht, Z.sub_diag, Z.add_0_r, u64_id. }
    destruct (writeRTCP ew _ _ _) as [[[e2|] o2] callee].
    { injection Hr as <- <- <- <-. cbn. by rewrite Ht, Z.sub_diag, Z.add_0_r, u64_id. }
    destruct (reportLoop _ rest _ w) as [[[res1 s1] w1] outs1] eqn:Er. injection Hr as <- <- <- <-.
    apply IH in Er; [|done|cbn; by rewrite Ht]. cbn in Er. by rewrite Ht in Er.
  - unfold publishSummary, counting at 1 in Hr. destruct (Pub _ w.1) as [[err|] wp];
      (apply IH in Hr; [|done|cbn; rewrite Ht; auto with pbx]); rewrite Hr; cbn; rewrite Ht; [word_lia | f_equal; lia].
  - injection Hr as <- <- <- <-. by rewrite Z.sub_diag, Z.add_0_r, u64_id.
Qed.

(** ** [media_bus.go] *)

Definition MediaBus := Bus.bus Summary.
Definition NewMediaBus : Z -> result MediaBus := Bus.NewBus "media summary".
Definition MediaBus_Publish : Context -> Summary -> MediaBus -> option error * MediaBus -> Prop := Bus.Publish.
Definition MediaBus_Run {W} (WriteMediaSummary : Context -> Summary -> W -> option error * W) :
  Context -> bool -> Bus.RunStatus Summary -> MediaBus -> W -> option (Bus.RunStatus Summary * MediaBus * W) :=
  Bus.consumer "media summary" WriteMediaSummary.
Definition MediaBus_Depth : MediaBus -> nat := Bus.Depth.

(** ** Sockets and ports across a failed set-up *)

(** Two pools that differ at most in the order of their free ports. *)
Record pool_equiv (p q : Pool) : Prop := {
  pe_ip : pl_bindIP p = pl_bindIP q;
  pe_capacity : pl_capacity p = pl_capacity q;
  pe_available : pl_available p ≡ₚ pl_available q;
  pe_inUse : pl_inUse p = pl_inUse q;
}.

#[global] Instance pool_equiv_equivalence : Equivalence pool_equiv.
Proof.
  split.
  - by intros p.
  - intros p q []. constructor; done.
  - intros p q r [] []. constructor; etrans; eauto.
Qed.

(** The pool [p] with one port taken out. *)
Definition leases_out (p : Pool) (open : Sockets) (l : Lease) (q : Pool) (open' : Sockets) : Prop :=
  l_once l = NotRun /\ l_rtpPort l ∉ open /\ RTCPPort l ∉ {[l_rtpPort l]} ∪ open /\
  open' = {[RTCPPort l]} ∪ ({[l_rtpPort l]} ∪ open) /\
  pool_equiv p (mkPool (pl_bindIP q) (pl_capacity q) (l_rtpPort l :: pl_available q) (pl_inUse p)) /\
  pl_inUse q = i64 (pl_inUse p + 1).

Lemma acquire_loop_account env left : forall failed p open res failed' p' open',
  acquire_loop env left failed p open = (res, failed', p', open') ->
  match res with
  | Err _ => open' = open /\ pool_equiv (set_available (pl_available p ++ failed) p)
                                        (set_available (pl_available p' ++ failed') p')
  | Ok l => leases_out (set_available (pl_available p ++ failed) p) open l
              (set_available (pl_available p' ++ failed') p') open'
  end.
Proof.
  induction left as [|left IH]; intros failed p open res failed' p' open'; cbn [acquire_loop].
  { by intros [= <- <- <- <-]. }
  destruct (select_port _ _ p) as [[port q]|e] eqn:Es; [|by intros [= <- <- <- <-]].
  assert (Hq : pl_available p = port :: pl_available q /\ q = set_available (pl_available q) p).
  { unfold select_port in Es. repeat case_any; try done; injection Es as <- <-; done. }
  destruct Hq as [Hav Hq].
  assert (Hperm : set_available (pl_available p ++ failed) p = set_available (port :: pl_available q ++ failed) q
                  /\ pl_inUse q = pl_inUse p) by (rewrite Hav, Hq; done).
  destruct Hperm as [Hset Hin]. destruct (bind _ _ port open) as [[l|e] open1] eqn:Eb.
  - intros [= <- <- <- <-]. apply bind_ok in Eb as (-> & -> & H1 & H2).
    unfold leases_out, RTCPPort; cbn. split_and!; auto; [|by rewrite Hin].
    rewrite Hset. constructor; done.
  - apply bind_err in Eb as ->. intros Hloop. apply IH in Hloop.
    assert (Heq : pool_equiv (set_available (pl_available p ++ failed) p)
                             (set_available (pl_available q ++ failed ++ [port]) q)).
    { rewrite Hset. constructor; cbn; auto. solve_Permutation. }
    destruct res as [l|e'].
    + destruct Hloop as (H1 & H2 & H3 & H4 & H5 & H6). cbn in H6. split_and!; auto; cbn; [|by rewrite H6, Hin].
      etrans; [exact Heq|]. etrans; [exact H5|]. constructor; cbn; auto.
    + destruct Hloop as [-> Hloop]. split; [done|]. by etrans.
Qed.

Lemma acquire_account env p open res p' open' :
  Acquire env (Some p) open = (res, p', open') ->
  exists q, p' = Some q /\
  match res with
  | Err _ => open' = open /\ pool_equiv p q
  | Ok l => leases_out p open l q open'
  end.
Proof.
  unfold Acquire. destruct (acquire_loop _ _ _ _ _) as [[[r failed] q] o] eqn:E. intros [= <- <- <-].
  eexists. split; [done|]. apply acquire_loop_account in E.
  replace (set_available (pl_available p ++ []) p) with p in E by (destruct p; cbn; by rewrite app_nil_r).
  exact E.
Qed.

(** Releasing a lease undoes taking it. *)
Lemma release_undoes p open l q open' q2 open2 :
  is_i64 (pl_inUse p) -> leases_out p open l q open' -> release_quietly l q open' = (q2, open2) ->
  pool_equiv p q2 /\ open2 = open.
Proof.
  intros Hr (H1 & H2 & H3 & -> & Heq & H6). unfold release_quietly, Release. rewrite H1. intros [= <- <-].
  split.
  - destruct Heq as [E1 E2 E3 E4]; cbn in *. constructor; cbn; auto.
    + rewrite E3. solve_Permutation.
    + rewrite H6. unfold is_i64 in Hr. clear -Hr. word_lia.
  - unfold CloseUDP. apply leibniz_equiv. intros x. unfold RTPPort.
    rewrite !elem_of_difference, !elem_of_union, !elem_of_singleton. rewrite not_elem_of_union, not_elem_of_singleton in H3.
    split; [naive_solver|]. intros Hx. split_and!; auto; intros ->; naive_solver.
Qed.

Definition release2 (l1 l2 : Lease) (p : Pool) (open : Sockets) : Pool * Sockets :=
  let '(p, open) := release_quietly l1 p open in release_quietly l2 p open.

Lemma release_both p open l1 q1 open1 l2 q2 open2 q open' :
  is_i64 (pl_inUse p) -> leases_out p open l1 q1 open1 -> leases_out q1 open1 l2 q2 open2 ->
  release2 l1 l2 q2 open2 = (q, open') -> pool_equiv p q /\ open' = open.
Proof.
  intros Hr (A1 & A2 & A3 & -> & AE & A6) (B1 & B2 & B3 & -> & BE & B6).
  unfold release2, release_quietly, Release. rewrite A1, B1. intros [= <- <-]. split.
  - destruct AE as [E1 E2 E3 E4], BE as [F1 F2 F3 F4]; cbn in *. constructor; cbn; try congruence.
    + rewrite E3, F3. solve_Permutation.
    + rewrite B6, A6. unfold is_i64 in Hr. clear -Hr. word_lia.
  - unfold CloseUDP, RTPPort. apply leibniz_equiv. intros x.
    rewrite !elem_of_difference, !elem_of_union, !elem_of_singleton.
    rewrite !not_elem_of_union, !not_elem_of_singleton in *.
    split; [naive_solver|]. intros Hx. split_and!; auto; intros ->; naive_solver.
Qed.

Lemma NewRewriter_seed seed : is_Ok (NewRewriter seed) = is_Ok seed.
Proof. by destruct seed. Qed.

(** What [Factory.New] does to pool and sockets. *)
Lemma factory_new_account cfg env metadata p open res p' open' :
  is_i64 (pl_inUse p) ->
  Factory_New cfg env metadata (Some p) open = (res, p', open') ->
  exists q, p' = Some q /\
  match res with
  | Err _ => pool_equiv p q /\ open' = open
  | Ok s => se_closed s = false /\ se_done s = ChanOpen /\ exists q1 open1,
      leases_out p open (e_lease (se_caller s)) q1 open1 /\ leases_out q1 open1 (e_lease (se_callee s)) q open'
  end.
Proof.
  intros Hr. unfold Factory_New.
  destruct (Acquire (ne_caller env) _ _) as [[r1 p1] o1] eqn:E1. apply acquire_account in E1 as (q1 & -> & H1).
  destruct r1 as [l1|e1]; [|intros [= <- <- <-]; eexists; naive_solver].
  destruct (Acquire (ne_callee env) _ _) as [[r2 p2] o2] eqn:E2. apply acquire_account in E2 as (q2 & -> & H2).
  destruct r2 as [l2|e2].
  - assert (Hfail : forall e r q o, (let '(p, open) := release_quietly l1 q2 o2 in
        let '(p, open) := release_quietly l2 p open in (Err (A := Session) e, Some p, open)) = (r, q, o) ->
        exists q', q = Some q' /\ r = Err e /\ pool_equiv p q' /\ o = open).
    { intros e r q o. pose proof (release_both p open l1 q1 o1 l2 q2 o2) as Hb. unfold release2 in Hb.
      destruct (release_quietly l1 q2 o2) as [q3 o3]. destruct (release_quietly l2 q3 o3) as [q4 o4].
      intros [= <- <- <-]. destruct (Hb q4 o4 Hr H1 H2 eq_refl). eauto. }
    destruct (NewRewriter (ne_seed1 env)); [destruct (NewRewriter (ne_seed2 env)); [destruct (ne_uuid env)|]|];
      try (intros (q' & -> & -> & ? & ->)%Hfail; by eauto).
    intros [= <- <- <-]. eexists. split; [done|]. split; [done|]. split; [done|]. eauto.
  - destruct H2 as [-> H2]. destruct (release_quietly l1 q2 o1) as [q3 o3] eqn:E3. intros [= <- <- <-].
    eexists. split; [done|]. eapply (release_undoes p open l1 q2 o1); eauto.
    destruct H1 as (? & ? & ? & ? & H5 & H6). split_and!; auto.
    + etrans; [exact H5|]. destruct H2 as [F1 F2 F3 F4]. constructor; cbn; auto.
    + destruct H2 as [F1 F2 F3 F4]. congruence.
Qed.

(** Claim C31. Setting up a session is all or nothing: when the second lease, a
    random source or the identifier fails, every port taken so far is back in
    the pool, the in-use count is what it was and no socket stays open; when it
    succeeds, two pairs are leased and their four sockets are open. *)
Theorem factory_new_atomic cfg env metadata p open res p' open' :
  is_i64 (pl_inUse p) ->
  Factory_New cfg env metadata (Some p) open = (res, p', open') ->
  exists q, p' = Some q /\
  match res with
  | Err _ => pool_equiv p q /\ open' = open
  | Ok s => exists q1 open1,
      leases_out p open (e_lease (se_caller s)) q1 open1 /\ leases_out q1 open1 (e_lease (se_callee s)) q open'
  end.
Proof.
  intros Hr Hn. destruct (factory_new_account _ _ _ _ _ _ _ _ Hr Hn) as (q & Hq & H).
  exists q. split; [done|]. destruct res; [|done]. apply H.
Qed.

(** ** The life of a session *)

(** What is done with a session between [New] and [Close]: its configuration, the
    start of [Run], the workers' changes of the endpoints and the rewriters, and
    the summaries. *)
Inductive uses : Session -> Session -> Prop :=
| u_configure caller callee m s : uses s (Configure caller callee m s).2
| u_run now s s' : run_start now s = Ok s' -> uses s s'
| u_summary {W} (Pub : Summary -> W -> option error * W) now (w : W) s : uses s (publishSummary Pub now s w).1
| u_legs caller callee s : e_lease caller = e_lease (se_caller s) -> e_lease callee = e_lease (se_callee s) ->
    uses s (set_legs caller callee s)
| u_rewriters forth back s :
    uses s (mkMediaSession (se_id s) (se_metadata s) (se_cfg s) (se_caller s) (se_callee s) forth back
              (se_mapping s) (se_startedAt s) (se_summaryDrops s) (se_closed s) (se_done s)).

(** None of it touches the leases or [Close]'s guard and channel. *)
Lemma uses_resources s s' : rtc uses s s' ->
  e_lease (se_caller s') = e_lease (se_caller s) /\ e_lease (se_callee s') = e_lease (se_callee s) /\
  se_closed s' = se_closed s /\ se_done s' = se_done s.
Proof.
  induction 1 as [|s s1 s2 Hu _ IH]; [done|]. destruct IH as (-> & -> & -> & ->).
  destruct Hu as [caller callee m s|now s s' Hr|W Pub now w s|caller callee s H1 H2|forth back s]; try done.
  - unfold Configure. by destruct (_ || _).
  - unfold run_start in Hr. repeat case_match; by simplify_eq.
  - unfold publishSummary. destruct (Pub _ w) as [[e|] w']; done.
Qed.

(** Claim C30. Closing a session, whenever in its life, whatever its sockets report
    and whatever other sessions have done to the pool since: both its port pairs go
    back to the pool, the in-use count goes down by two, exactly its four sockets
    are closed and [Done]'s channel is closed; closing it again does nothing and
    reports no error, and in particular does not close the channel again, which
    would panic.  If no one else has used the pool, pool and sockets are as before
    the session was made. *)
Theorem close_releases_once cfg env metadata p open s q open' s1 q1 open1 errs err s' q' open'' :
  is_i64 (pl_inUse p) ->
  Factory_New cfg env metadata (Some p) open = (Ok s, Some q, open') -> rtc uses s s1 ->
  Close errs s1 q1 open1 = (err, s', q', open'') ->
  let caller := e_lease (se_caller s) in
  let callee := e_lease (se_callee s) in
  pl_available q' = pl_available q1 ++ [l_rtpPort caller; l_rtpPort callee] /\
  pl_inUse q' = i64 (pl_inUse q1 - 2) /\
  open'' = open1 ∖ {[RTPPort caller]} ∖ {[RTCPPort caller]} ∖ {[RTPPort callee]} ∖ {[RTCPPort callee]} /\
  se_done s' = ChanClosed /\
  (q1 = q -> open1 = open' -> pool_equiv p q' /\ open'' = open) /\
  forall errs2 q2 open2, Close errs2 s' q2 open2 = (None, s', q2, open2).
Proof.
  intros Hr Hn Hu. destruct (factory_new_account _ _ _ _ _ _ _ _ Hr Hn) as (q0 & [= <-] & Hc & Hd & qm & om & H1 & H2).
  destruct (uses_resources _ _ Hu) as (El1 & El2 & Ec & Ed).
  pose proof (release_both p open (e_lease (se_caller s)) qm om (e_lease (se_callee s)) q open' _ _
                Hr H1 H2 (surjective_pairing _)) as Hb.
  destruct H1 as (A1 & _). destruct H2 as (B1 & _). unfold Close. rewrite Ec, Hc, El1, El2.
  unfold release2, release_quietly, Release in Hb. unfold Release. rewrite A1, B1 in *.
  intros [= <- <- <- <-]. cbn. rewrite Ed, Hd. split_and!; try done.
  - by rewrite <- app_assoc.
  - unfold i64. f_equal. word_lia.
  - intros -> ->. exact Hb.
Qed.

Definition sample_env (seed2 : result (list Z)) : NewEnv :=
  mkNewEnv (fun _ => sample_attempt) (fun _ => mkAttempt None false (fun _ => true) (fun _ => true))
    (Ok sample_seed) seed2 (Ok "0190a000"%string).
Definition sample_cfg : SessionConfig :=
  mkSessionConfig (Addr4 3232235777) (250 * Millisecond) (30 * Second) (5 * Second) (5 * Second) Second.
Definition sample_metadata : Metadata := mkMetadata "t" "c" "n" "l1" "l2".

(** The random source fails for the second rewriter: nothing stays taken. *)
Lemma factory_new_atomic_witness :
  let '(res, p', open') := Factory_New sample_cfg (sample_env (Err (Sentinel "rand"))) sample_metadata (Some sample_pool) ∅ in
  is_Ok res = false /\ exists q, p' = Some q /\ pool_equiv sample_pool q /\ open' = ∅.
Proof.
  assert (Hi : is_i64 (pl_inUse sample_pool)) by (unfold is_i64; cbn; lia).
  assert (Hres : is_Ok (Factory_New sample_cfg (sample_env (Err (Sentinel "rand"))) sample_metadata (Some sample_pool) ∅).1.1 = false)
    by (vm_compute; reflexivity).
  destruct (Factory_New _ _ _ _ _) as [[res p'] open'] eqn:E.
  destruct (factory_new_atomic _ _ _ _ _ _ _ _ Hi E) as (q & Hq & H).
  split; [exact Hres|]. destruct res; [discriminate Hres|]. exists q. split; [exact Hq | exact H].
Defined.

Definition run_sample (s : Session) : Session :=
  (publishSummary (fun _ (w : unit) => (Some (Sentinel "bus"), w)) Second s tt).1.

(** A session is made, publishes a summary, and is closed while a socket reports an error. *)
Lemma close_releases_once_witness :
  exists s q open', Factory_New sample_cfg (sample_env (Ok sample_seed)) sample_metadata (Some sample_pool) ∅ = (Ok s, Some q, open') /\
    let '(_, s', q', open'') := Close (mkCloseErrors None None (Some (Sentinel "close")) None) (run_sample s) q open' in
    pool_equiv sample_pool q' /\ open'' = ∅ /\ se_done s' = ChanClosed.
Proof.
  assert (Hi : is_i64 (pl_inUse sample_pool)) by (unfold is_i64; cbn; lia).
  assert (Hok : is_Ok (Factory_New sample_cfg (sample_env (Ok sample_seed)) sample_metadata (Some sample_pool) ∅).1.1 = true)
    by (vm_compute; reflexivity).
  destruct (Factory_New sample_cfg (sample_env (Ok sample_seed)) sample_metadata (Some sample_pool) ∅) as [[res p'] open'] eqn:E.
  destruct res as [s|]; [|discriminate Hok]. destruct p' as [q|]; [|vm_compute in E; discriminate E].
  exists s, q, open'. split; [reflexivity|].
  destruct (Close (mkCloseErrors None None (Some (Sentinel "close")) None) (run_sample s) q open') as [[[err s'] q'] o'] eqn:Ec.
  destruct (close_releases_once sample_cfg (sample_env (Ok sample_seed)) sample_metadata sample_pool ∅ s q open' _ _ _ _ err s' q' o'
    Hi E (rtc_once _ _ (u_summary (fun _ (w : unit) => (Some (Sentinel "bus"), w)) Second tt s)) Ec)
    as (_ & _ & _ & Hdone & Hback & _).
  destruct (Hback eq_refl eq_refl) as [Hp Ho]. split; [exact Hp | split; [exact Ho | exact Hdone]].
Defined.
