(* ===== verification/MediaWorkers.v ===== *)
(** * The workers of a media session

    Models [Session.Run] and [Session.run] of [media/session/session.go]: the five
    goroutines that forward RTP both ways, read RTCP on both legs and send
    reports, interleaved on one shared session with each other, with [Configure]
    (a re-INVITE), with [Close] and with the end of the context.  One step of a
    worker is one round of its loop; the loops' rounds are those of
    [MediaEndpoint], [MediaRtcp] and [MediaSession]. *)

From S2P Require Import Prelude Netip PortAlloc Sdp Rtp MediaEndpoint MediaRtcp MediaSession.

(** ** [golang.org/x/sync/errgroup]

    The group as its documentation describes it: its context ends with the parent
    or with the first function that returns an error, and [Wait] returns that
    first error. *)
Class ErrGroup (G : Type) := {
  WithContext : G;
  returned : option error -> G -> G;          (* one function of the group returns *)
  group_ctx : Context -> G -> Context;        (* the group's context, for a parent context *)
  Wait : G -> option error;
}.

Class ErrGroupLaws (G : Type) `{ErrGroup G} := {
  wait_new : Wait WithContext = None;
  wait_first r g : Wait (returned r g) = match Wait g with Some e => Some e | None => r end;
  ctx_done parent g : group_ctx parent g <> None <-> parent <> None \/ Wait g <> None;
}.

(** A group is its first error. *)
#[export] Instance first_error : ErrGroup (option error) := {
  WithContext := None;
  returned r g := match g with Some e => Some e | None => r end;
  group_ctx parent g := match parent, g with Some e, _ => Some e | None, Some _ => Some context_Canceled | None, None => None end;
  Wait g := g;
}.
#[export] Instance first_error_laws : ErrGroupLaws (option error).
Proof. split; [done | done |]. intros [e|] [x|]; cbn; naive_solver. Qed.

Module Workers.

(** A worker before it has its sockets, in its loop, or done with a result. *)
Inductive Worker := Starting | Looping | Ended (res : option error).

(** RTP from the caller to the callee, and back. *)
Inductive Direction := Forth | Back.

Section Workers.
Context `{RtpCodec} `{RtcpCodec} {G : Type} `{ErrGroup G} {P : Type}.
Variable PublishMediaSummary : Summary -> P -> option error * P.

(** The shared state; [outputs] is a ghost log of the packets each direction has
    rewritten: written to the far leg, or refused by [MarshalTo]. *)
Record sys := mkSys {
  ses : Session; pool : Pool; open : Sockets; publisher : P;
  parent : Context; group : G;
  forwarders : Direction -> Worker;            (* by the direction they forward *)
  readers : Direction -> Worker;               (* RTCP of the leg the direction starts from *)
  reporter : Worker;
  result : option (option error);              (* of [run], once it has returned *)
  outputs : Direction -> list Output;
}.

Definition source (d : Direction) (s : Session) : endpoint := match d with Forth => se_caller s | Back => se_callee s end.
Definition destination (d : Direction) (s : Session) : endpoint := match d with Forth => se_callee s | Back => se_caller s end.
Definition rewriter (d : Direction) (s : Session) : Rewriter :=
  match d with Forth => se_callerToCallee s | Back => se_calleeToCaller s end.
(** The stream towards the leg whose RTCP is read. *)
Definition outbound (d : Direction) (s : Session) : Rewriter :=
  match d with Forth => se_calleeToCaller s | Back => se_callerToCallee s end.

Definition set_source (d : Direction) (e : endpoint) (s : Session) : Session :=
  match d with Forth => set_legs e (se_callee s) s | Back => set_legs (se_caller s) e s end.
Definition set_rewriter (d : Direction) (rw : Rewriter) (s : Session) : Session :=
  match d with
  | Forth => mkMediaSession (se_id s) (se_metadata s) (se_cfg s) (se_caller s) (se_callee s) rw (se_calleeToCaller s)
               (se_mapping s) (se_startedAt s) (se_summaryDrops s) (se_closed s) (se_done s)
  | Back => mkMediaSession (se_id s) (se_metadata s) (se_cfg s) (se_caller s) (se_callee s) (se_callerToCallee s) rw
               (se_mapping s) (se_startedAt s) (se_summaryDrops s) (se_closed s) (se_done s)
  end.

#[export] Instance Direction_eq_dec : EqDecision Direction.
Proof. solve_decision. Defined.

Definition upd {A} (d : Direction) (x : A) (f : Direction -> A) : Direction -> A :=
  fun d' => if decide (d' = d) then x else f d'.
#[local] Arguments upd : simpl never.

Definition set_ses (x : Session) (s : sys) : sys :=
  mkSys x (pool s) (open s) (publisher s) (parent s) (group s) (forwarders s) (readers s) (reporter s) (result s) (outputs s).
Definition set_forwarder (d : Direction) (w : Worker) (s : sys) : sys :=
  mkSys (ses s) (pool s) (open s) (publisher s) (parent s)
    (match w with Ended r => returned r (group s) | _ => group s end)
    (upd d w (forwarders s)) (readers s) (reporter s) (result s) (outputs s).
Definition set_reader (d : Direction) (w : Worker) (s : sys) : sys :=
  mkSys (ses s) (pool s) (open s) (publisher s) (parent s)
    (match w with Ended r => returned r (group s) | _ => group s end)
    (forwarders s) (upd d w (readers s)) (reporter s) (result s) (outputs s).
Definition set_reporter (w : Worker) (p : P) (s : sys) : sys :=
  mkSys (ses s) (pool s) (open s) p (parent s)
    (match w with Ended r => returned r (group s) | _ => group s end)
    (forwarders s) (readers s) w (result s) (outputs s).
Definition log_output (d : Direction) (x : option Output) (s : sys) : sys :=
  mkSys (ses s) (pool s) (open s) (publisher s) (parent s) (group s) (forwarders s) (readers s) (reporter s) (result s)
    (upd d (outputs s d ++ option_list x) (outputs s)).

(** The first lines of [forwardRTP] and of [readRTCP]. *)
Definition start_forward (d : Direction) (s : sys) : sys :=
  match RTPConn (Some (e_lease (source d (ses s)))), RTPConn (Some (e_lease (destination d (ses s)))) with
  | Ok _, Ok _ => set_forwarder d Looping s
  | Err e, _ | Ok _, Err e => set_forwarder d (Ended (Some e)) s
  end.
Definition start_read (d : Direction) (s : sys) : sys :=
  match RTCPConn (Some (e_lease (source d (ses s)))) with
  | Ok _ => set_reader d Looping s
  | Err e => set_reader d (Ended (Some e)) s
  end.

Definition worker_of (stop : option (option error)) : Worker :=
  match stop with Some r => Ended r | None => Looping end.

(** One round of each loop. *)
Definition forward (d : Direction) (ev : ReadEvent) (s : sys) : sys :=
  let '(stop, out, e, rw) :=
    forward_round (se_startedAt (ses s)) (InactivityTimeout (se_cfg (ses s))) (group_ctx (parent s) (group s)) ev
      (source d (ses s)) (destination d (ses s)) (rewriter d (ses s)) in
  set_forwarder d (worker_of stop) (log_output d out (set_ses (set_rewriter d rw (set_source d e (ses s))) s)).

Definition read (d : Direction) (ev : ReadEvent) (s : sys) : sys :=
  let '(stop, e) := rtcp_round (group_ctx (parent s) (group s)) ev (outbound d (ses s)) (source d (ses s)) in
  set_reader d (worker_of stop) (set_ses (set_source d e (ses s)) s).

Definition report (t : Tick) (s : sys) : sys :=
  let '(stop, x, p, _) := reportLoop PublishMediaSummary [t] (ses s) (publisher s) in
  set_reporter (worker_of stop) p (set_ses x s).

(** Reading from a closed socket fails with [net.ErrClosed]. *)
Definition readable (closed : bool) (ev : ReadEvent) : Prop :=
  closed = true ->
  match ev with
  | DeadlineError e | ReadError e => errors_Is e net_ErrClosed = true
  | Datagram _ _ _ _ | ReadTimeout _ => False
  end.

Definition this_session (t : Tick) : Prop :=
  match t with RTCPTick others _ _ _ | SummaryTick others _ => others = id | StopTick => False end.

(** [Own]: a step of the workers and of [run], but for the reporter's ticks. *)
Inductive Label := Own | Ticked | Other.

Definition all_ended (s : sys) : Prop :=
  (forall d, exists r, forwarders s d = Ended r) /\ (forall d, exists r, readers s d = Ended r) /\
  exists r, reporter s = Ended r.

Inductive step : Label -> sys -> sys -> Prop :=
| s_start_forward d s : forwarders s d = Starting -> step Own s (start_forward d s)
| s_forward d ev s : forwarders s d = Looping -> readable (se_closed (ses s)) ev -> step Own s (forward d ev s)
| s_start_read d s : readers s d = Starting -> step Own s (start_read d s)
| s_read d ev s : readers s d = Looping -> readable (se_closed (ses s)) ev -> step Own s (read d ev s)
| s_tick t s : reporter s = Looping -> this_session t -> step Ticked s (report t s)
| s_stop s : reporter s = Looping -> group_ctx (parent s) (group s) <> None -> step Own s (report StopTick s)
| s_finish errs s : result s = None -> all_ended s ->
    step Own s
      (let '(err, x, p, o) := run_end (Wait (group s)) errs (ses s) (pool s) (open s) in
       mkSys x p o (publisher s) (parent s) (group s) (forwarders s) (readers s) (reporter s) (Some err) (outputs s))
| s_close errs s :
    step Other s
      (let '(_, x, p, o) := Close errs (ses s) (pool s) (open s) in
       mkSys x p o (publisher s) (parent s) (group s) (forwarders s) (readers s) (reporter s) (result s) (outputs s))
| s_configure caller callee m s : step Other s (set_ses (Configure caller callee m (ses s)).2 s)
| s_cancel e s : parent s = None ->
    step Other s (mkSys (ses s) (pool s) (open s) (publisher s) (Some e) (group s) (forwarders s) (readers s)
                    (reporter s) (result s) (outputs s)).

(** [run] up to the start of the group. *)
Definition started (now : Time) (x : Session) (p : Pool) (o : Sockets) (pub : P) (ctx : Context) : Prelude.result sys :=
  x ← run_start now x;
  Ok (mkSys x p o pub ctx WithContext (fun _ => Starting) (fun _ => Starting) Looping None (fun _ => [])).

Definition any_step (s s' : sys) : Prop := exists l, step l s s'.

Definition reachable_from (s0 s : sys) : Prop := rtc any_step s0 s.

(** ** Who changes what *)

Lemma upd_same {A} d (x : A) f : upd d x f d = x.
Proof. unfold upd. by rewrite decide_True. Qed.
Lemma upd_other {A} d d' (x : A) f : d <> d' -> upd d x f d' = f d'.
Proof. intros Hd. unfold upd. by rewrite decide_False. Qed.

Lemma rewriter_set_source d d' e x : rewriter d (set_source d' e x) = rewriter d x.
Proof. by destruct d, d'. Qed.
Lemma rewriter_set_same d rw x : rewriter d (set_rewriter d rw x) = rw.
Proof. by destruct d. Qed.
Lemma rewriter_set_other d d' rw x : d <> d' -> rewriter d' (set_rewriter d rw x) = rewriter d' x.
Proof. by destruct d, d'. Qed.

Lemma report_rewriter t x p stop x' p' outs d :
  reportLoop PublishMediaSummary [t] x p = (stop, x', p', outs) -> t = StopTick \/ this_session t ->
  rewriter d x' = rewriter d x /\ se_closed x' = se_closed x.
Proof.
  intros Hr Ht. destruct t as [others now cw ew|others now|]; cbn in *.
  - destruct Ht as [?| ->]; [done|]. unfold id in Hr.
    repeat case_match; simplify_eq; by destruct d.
  - destruct Ht as [?| ->]; [done|]. unfold publishSummary, id in Hr. repeat case_match; simplify_eq; by destruct d.
  - by simplify_eq.
Qed.

Lemma Close_rewriter errs x p o err x' p' o' d : Close errs x p o = (err, x', p', o') ->
  rewriter d x' = rewriter d x /\ se_closed x' = true.
Proof. unfold Close. intros Hc. repeat case_match; simplify_eq; by destruct d. Qed.

Lemma Configure_rewriter caller callee m x d :
  rewriter d (Configure caller callee m x).2 = rewriter d x /\ se_closed (Configure caller callee m x).2 = se_closed x.
Proof. unfold Configure. case_match; by destruct d. Qed.

(** ** The RTP streams *)

(** The stream of direction [d]: the packets written so far continue the one
    [rw0] starts. *)
Definition running (w : Worker) : Prop := match w with Ended _ => False | _ => True end.

(** A packet is written exactly when [MarshalTo] succeeds. *)
Definition marshalled (y : Output) : Prop :=
  match y with Written w => rtp_MarshalTo (s_packet w) = Some (s_wire w) | Refused q => rtp_MarshalTo q = None end.

Record stream (d : Direction) (rw0 : Rewriter) (s : sys) : Prop := {
  st_log : forall i x, outputs s d !! i = Some x ->
    p_SequenceNumber (o_packet x) = u16 (next_sequence rw0 + Z.of_nat i) /\ p_SSRC (o_packet x) = rw_ssrc rw0 /\ marshalled x;
  st_next : running (forwarders s d) ->
    next_sequence (rewriter d (ses s)) = u16 (next_sequence rw0 + Z.of_nat (length (outputs s d))) /\
    rw_ssrc (rewriter d (ses s)) = rw_ssrc rw0 /\ is_u16 (rw_sequence (rewriter d (ses s)));
}.

(** Steps that leave a direction's forwarder, log and rewriter alone. *)
Lemma stream_frame d rw0 s s' : stream d rw0 s -> outputs s' d = outputs s d ->
  (running (forwarders s' d) -> running (forwarders s d)) -> rewriter d (ses s') = rewriter d (ses s) -> stream d rw0 s'.
Proof. intros [Ha Hb] Hs Hf Hr. split; rewrite Hs, ?Hr; auto. Qed.

(** The packet one round writes. *)
Definition relayed_now (d : Direction) (ev : ReadEvent) (s : sys) (x : Output) : Prop :=
  relayed_at [(group_ctx (parent s) (group s), ev)] (source d (ses s)) (destination d (ses s)) (rewriter d (ses s)) 0 x.

Lemma forward_stream d rw0 ev s : stream d rw0 s -> forwarders s d = Looping ->
  stream d rw0 (forward d ev s) /\
  (outputs (forward d ev s) d = outputs s d \/ exists x, outputs (forward d ev s) d = outputs s d ++ [x] /\ relayed_now d ev s x).
Proof.
  intros [Hlog Hnext] Hw. rewrite Hw in Hnext. destruct (Hnext I) as (Hn & Hss & Hu). unfold forward.
  destruct (forward_round _ _ _ _ _ _ _) as [[[stop out] e] rw] eqn:E. cbn. rewrite !upd_same.
  destruct stop as [r|].
  - assert (out = None) as ->.
    { destruct ev; cbn in E; repeat case_match; by simplify_eq. }
    cbn. rewrite app_nil_r. split; [|by left]. split; cbn; rewrite !upd_same; [by rewrite app_nil_r | done].
  - pose proof (forward_round_relays _ _ _ _ _ _ _ _ _ _ Hu E) as Hr. destruct out as [x|].
    + destruct Hr as (Hx & Hs1 & Hu1 & Hn1). split; [|right; eauto]. split; cbn; rewrite !upd_same.
      * intros i y Hy. apply lookup_app_Some in Hy as [Hy|[Hi Hy]]; [by apply Hlog|]. cbn in Hy.
        apply list_lookup_singleton_Some in Hy as [Hi0 <-]. destruct Hx as (Hq & Hs & Hd & _). rewrite Hq, Hs.
        split_and!; [rewrite Hn; replace i with (length (outputs s d)) by lia; word_lia | done | by destruct x; [destruct Hd|]].
      * intros _. rewrite rewriter_set_same, length_app, Hn1, Hn. cbn. split_and!; [word_lia | congruence | done].
    + subst rw. cbn. rewrite app_nil_r. split; [|by left]. split; cbn; rewrite !upd_same, ?app_nil_r; [done|].
      by rewrite rewriter_set_same.
Qed.

Lemma forward_other d d' rw0 ev s : d <> d' -> stream d' rw0 s ->
  stream d' rw0 (forward d ev s) /\ outputs (forward d ev s) d' = outputs s d'.
Proof.
  intros Hd Hs. unfold forward. destruct (forward_round _ _ _ _ _ _ _) as [[[stop out] e] rw].
  assert (Houtputs : upd d (outputs s d ++ option_list out) (outputs s) d' = outputs s d') by by apply upd_other.
  split; [|done]. eapply stream_frame; [exact Hs | done | cbn; by rewrite upd_other |].
  cbn. by rewrite rewriter_set_other, rewriter_set_source by done.
Qed.

Lemma start_forward_stream d d' rw0 s : forwarders s d = Starting -> stream d' rw0 s ->
  stream d' rw0 (start_forward d s) /\ outputs (start_forward d s) d' = outputs s d'.
Proof.
  intros Hw Hs. unfold start_forward.
  assert (Hx : forall w, stream d' rw0 (set_forwarder d w s)).
  { intros w. eapply stream_frame; [exact Hs | done | | done]. cbn. destruct (decide (d = d')) as [<-|]; [by rewrite Hw|].
    by rewrite upd_other. }
  repeat case_match; split; auto.
Qed.

(** What each step does to one direction's stream. *)
Lemma step_stream l d rw0 s s' : stream d rw0 s -> step l s s' ->
  stream d rw0 s' /\
  (outputs s' d = outputs s d \/ exists ev x, outputs s' d = outputs s d ++ [x] /\ relayed_now d ev s x).
Proof.
  intros Hst Hs. destruct Hs as [d1 s Hw|d1 ev s Hw Hr|d1 s Hw|d1 ev s Hw Hr|t s Hw Ht|s Hw Hc|errs s Hn Ha|errs s
    |caller callee m s|e s Hp].
  - destruct (start_forward_stream d1 d rw0 s Hw Hst) as [Hx Hy]. split; [exact Hx | by left].
  - destruct (decide (d1 = d)) as [Heq|Hne].
    + rewrite Heq in *. destruct (forward_stream d rw0 ev s Hst Hw) as [Hx [Hy|(x & Hy & Hz)]]; (split; [exact Hx|]); eauto.
    + destruct (forward_other d1 d rw0 ev s Hne Hst) as [Hx Hy]. split; [exact Hx | by left].
  - unfold start_read. case_match; (split; [|by left]); by eapply stream_frame.
  - unfold read. case_match. split; [|by left]. eapply stream_frame; [exact Hst | done | done |]. cbn. apply rewriter_set_source.
  - unfold report. destruct (reportLoop _ _ _ _) as [[[stop x] p] outs] eqn:E. split; [|by left].
    eapply stream_frame; [exact Hst | done | done |]. cbn. by eapply report_rewriter; [exact E | right].
  - unfold report. destruct (reportLoop _ _ _ _) as [[[stop x] p] outs] eqn:E. split; [|by left].
    eapply stream_frame; [exact Hst | done | done |]. cbn. by eapply report_rewriter; [exact E | left].
  - unfold run_end. destruct (Close errs _ _ _) as [[[err x] p] o] eqn:E. split; [|by left].
    eapply stream_frame; [exact Hst | done | done |]. cbn. by eapply Close_rewriter.
  - destruct (Close errs _ _ _) as [[[err x] p] o] eqn:E. split; [|by left].
    eapply stream_frame; [exact Hst | done | done |]. cbn. by eapply Close_rewriter.
  - split; [|by left]. eapply stream_frame; [exact Hst | done | done |]. apply Configure_rewriter.
  - split; [|by left]. by eapply stream_frame.
Qed.

Lemma started_stream d now x p o pub ctx s0 : started now x p o pub ctx = Ok s0 -> is_u16 (rw_sequence (rewriter d x)) ->
  stream d (rewriter d x) s0.
Proof.
  unfold started, run_start. intros Hs Hu. repeat case_match; cbn in Hs; simplify_eq. split; cbn; [by intros i y Hy|].
  intros _. destruct d; cbn; (split_and!; [|done|done]); rewrite Z.add_0_r; symmetry; apply u16_id, u16_range.
Qed.

Lemma reachable_stream d rw0 s0 s : stream d rw0 s0 -> reachable_from s0 s -> stream d rw0 s.
Proof. intros Hs Hr. induction Hr as [|s1 s2 s3 [l Hst] _ IH]; [done|]. apply IH. by eapply step_stream. Qed.

(** Claim C11. In every interleaving of the five workers with each other, with
    reconfiguration, [Close] and cancellation, each leg gets one RTP stream: the
    packets rewritten in a direction carry that direction's SSRC and consecutive
    sequence numbers from the rewriter's start, and are written in that order; a
    number is missing on the wire only for a packet that [MarshalTo] refused (one
    that does not fit the buffer); and every packet is rewritten for a valid packet
    from the near leg's signalled address, with the payload type, target and
    direction the legs have at that moment. *)
Theorem media_streams now x p o pub ctx s0 s d :
  started now x p o pub ctx = Ok s0 -> is_u16 (rw_sequence (rewriter d x)) -> reachable_from s0 s ->
  (forall i y, outputs s d !! i = Some y ->
     p_SequenceNumber (o_packet y) = u16 (next_sequence (rewriter d x) + Z.of_nat i) /\
     p_SSRC (o_packet y) = rw_ssrc (rewriter d x) /\
     marshalled y) /\
  (forall l s', step l s s' ->
     outputs s' d = outputs s d \/ exists ev y, outputs s' d = outputs s d ++ [y] /\ relayed_now d ev s y).
Proof.
  intros Hs Hu Hr. assert (Hst : stream d (rewriter d x) s) by (eapply reachable_stream; [by eapply started_stream | done]).
  split; [apply Hst|]. intros l s' Hl. by eapply step_stream.
Qed.

(** ** Termination *)

Definition own (l : Label) : bool := match l with Own => true | _ => false end.

Definition work (w : Worker) : nat := match w with Starting => 2 | Looping => 1 | Ended _ => 0 end.
Definition unfinished (r : option (option error)) : nat := match r with None => 1 | Some _ => 0 end.
Definition pending (s : sys) : nat :=
  work (forwarders s Forth) + work (forwarders s Back) + work (readers s Forth) + work (readers s Back) +
  work (reporter s) + unfinished (result s).

(** Stopped: the context is done and the sockets are closed, as [stopMedia] does. *)
Definition stopped (s : sys) : Prop := se_closed (ses s) = true /\ parent s <> None.

Lemma closed_set_source d e x : se_closed (set_source d e x) = se_closed x.
Proof. by destruct d. Qed.
Lemma closed_set_rewriter d rw x : se_closed (set_rewriter d rw x) = se_closed x.
Proof. by destruct d. Qed.

(** No step undoes the stop. *)
Lemma step_keeps l s s' : step l s s' ->
  (se_closed (ses s) = true -> se_closed (ses s') = true) /\ (parent s <> None -> parent s' <> None) /\
  (result s' <> None -> result s = None -> se_closed (ses s') = true).
Proof.
  destruct 1; cbn; unfold start_forward, start_read, forward, read, report, run_end.
  - repeat case_match; cbn; split_and!; congruence.
  - case_match. repeat case_match. cbn. rewrite closed_set_rewriter, closed_set_source. split_and!; congruence.
  - repeat case_match; cbn; split_and!; congruence.
  - case_match. cbn. rewrite closed_set_source. split_and!; congruence.
  - destruct (reportLoop _ _ _ _) as [[[stop x] p] outs] eqn:E. cbn.
    destruct (report_rewriter _ _ _ _ _ _ _ Forth E) as [_ ->]; [by right|]. split_and!; congruence.
  - cbn. split_and!; congruence.
  - destruct (Close errs _ _ _) as [[[err x] p] o] eqn:E. cbn. destruct (Close_rewriter _ _ _ _ _ _ _ _ Forth E) as [_ ->]. done.
  - destruct (Close errs _ _ _) as [[[err x] p] o] eqn:E. cbn. destruct (Close_rewriter _ _ _ _ _ _ _ _ Forth E) as [_ ->]. done.
  - destruct (Configure_rewriter caller callee m (ses s) Forth) as [_ ->]. split_and!; congruence.
  - split_and!; congruence.
Qed.

Lemma work_upd d w (f : Direction -> Worker) :
  (work (upd d w f Forth) + work (upd d w f Back) + work (f d) = work (f Forth) + work (f Back) + work w)%nat.
Proof. destruct d; rewrite upd_same, upd_other by done; lia. Qed.

(** A round on a closed socket ends the loop. *)
Lemma closed_round d ev s : readable true ev ->
  (exists r, (forward_round (se_startedAt (ses s)) (InactivityTimeout (se_cfg (ses s))) (group_ctx (parent s) (group s)) ev
      (source d (ses s)) (destination d (ses s)) (rewriter d (ses s))).1.1.1 = Some r) /\
  (exists r, (rtcp_round (group_ctx (parent s) (group s)) ev (outbound d (ses s)) (source d (ses s))).1 = Some r).
Proof. intros Hr. specialize (Hr eq_refl). by destruct ev; cbn; eauto. Qed.

Lemma step_pending l s s' : stopped s -> step l s s' -> (pending s' + (if own l then 1 else 0) <= pending s)%nat.
Proof.
  intros [Hc Hp] Hs. unfold pending. destruct Hs as [d s Hw|d ev s Hw Hr|d s Hw|d ev s Hw Hr|t s Hw Ht|s Hw Hg|errs s Hn Ha|errs s
    |caller callee m s|e s Hx]; cbn [own].
  - unfold start_forward. repeat case_match; cbn;
      match goal with |- context [upd d ?w _] => pose proof (work_upd d w (forwarders s)) as Hu end; rewrite Hw in Hu; cbn in Hu; lia.
  - rewrite Hc in Hr. destruct (proj1 (closed_round d ev s Hr)) as [r Hstop]. unfold forward.
    destruct (forward_round _ _ _ _ _ _ _) as [[[stop out] e] rw]. cbn in Hstop. subst stop. cbn.
    pose proof (work_upd d (Ended r) (forwarders s)) as Hu. rewrite Hw in Hu. cbn in Hu. lia.
  - unfold start_read. repeat case_match; cbn;
      match goal with |- context [upd d ?w _] => pose proof (work_upd d w (readers s)) as Hu end; rewrite Hw in Hu; cbn in Hu; lia.
  - rewrite Hc in Hr. destruct (proj2 (closed_round d ev s Hr)) as [r Hstop]. unfold read.
    destruct (rtcp_round _ _ _ _) as [stop e]. cbn in Hstop. subst stop. cbn.
    pose proof (work_upd d (Ended r) (readers s)) as Hu. rewrite Hw in Hu. cbn in Hu. lia.
  - unfold report. destruct (reportLoop _ _ _ _) as [[[stop x] p] outs]. cbn. rewrite Hw. destruct stop; cbn; lia.
  - unfold report. cbn. rewrite Hw. cbn. lia.
  - unfold run_end. destruct (Close _ _ _ _) as [[[err x] p] o]. cbn. rewrite Hn. cbn. lia.
  - destruct (Close _ _ _ _) as [[[err x] p] o]. cbn. lia.
  - cbn. lia.
  - cbn. lia.
Qed.

Context `{!ErrGroupLaws G}.

Lemma stopped_progress s : stopped s -> reporter s <> Starting -> result s = None -> exists s', step Own s s'.
Proof.
  intros [Hc Hp] Hrep Hres.
  assert (Hread : readable (se_closed (ses s)) (ReadError (Sentinel net_ErrClosed))) by by intros _.
  assert (Hf : forall d, (exists r, forwarders s d = Ended r) \/ exists s', step Own s s').
  { intros d. destruct (forwarders s d) eqn:E; [right; eexists; by eapply s_start_forward | right; eexists; by eapply s_forward | eauto]. }
  assert (Hr : forall d, (exists r, readers s d = Ended r) \/ exists s', step Own s s').
  { intros d. destruct (readers s d) eqn:E; [right; eexists; by eapply s_start_read | right; eexists; by eapply s_read | eauto]. }
  destruct (Hf Forth) as [Hf1|?], (Hf Back) as [Hf2|?], (Hr Forth) as [Hr1|?], (Hr Back) as [Hr2|?]; try done.
  destruct (reporter s) as [| |r] eqn:E.
  - done.
  - eexists. apply s_stop; [done|]. apply ctx_done. by left.
  - eexists. apply (s_finish (mkCloseErrors None None None None)); [done|]. split_and!; [by intros [] | by intros [] | eauto].
Qed.

Lemma worker_of_started stop : worker_of stop <> Starting.
Proof. by destruct stop. Qed.

(** In reachable states the reporter has started, and [run] has returned only
    with the session closed. *)
Lemma started_facts now x p o pub ctx s0 s : started now x p o pub ctx = Ok s0 -> reachable_from s0 s ->
  reporter s <> Starting /\ (result s <> None -> se_closed (ses s) = true).
Proof.
  intros Hs Hr. assert (H0s : reporter s0 <> Starting /\ (result s0 <> None -> se_closed (ses s0) = true)).
  { unfold started, run_start in Hs. repeat case_match; cbn in Hs; simplify_eq. done. }
  clear Hs. induction Hr as [|s1 s2 s3 [l Hl] _ IH]; [done|]. apply IH. destruct H0s as [Hrep Hres]. split.
  - destruct Hl; unfold start_forward, start_read, forward, read, report, run_end; repeat case_match; cbn;
      try done; apply worker_of_started.
  - destruct (step_keeps _ _ _ Hl) as (Hc & _ & Hfin). intros Hn. destruct (result s1) eqn:E; [by apply Hc, Hres | by apply Hfin].
Qed.

(** Claim C20. [run] terminates once the session is stopped.  When the context is
    done and the session is closed, as [stopMedia] does, the workers and [run]
    take at most 10 more steps besides the reporter's ticks, in every
    interleaving; until [run] has returned one of them has a step to take; and
    when it has returned the session is closed. *)
Theorem media_run_terminates now x p o pub ctx s0 s :
  started now x p o pub ctx = Ok s0 -> reachable_from s0 s ->
  (stopped s ->
     (forall ls s', trace step ls s s' -> (counted_steps own ls <= 10)%nat) /\
     (result s = None -> exists s', step Own s s')) /\
  (result s <> None -> se_closed (ses s) = true).
Proof.
  intros Hs Hr. destruct (started_facts _ _ _ _ _ _ _ _ Hs Hr) as [Hrep Hclosed]. split; [|done]. intros Hst. split.
  - intros ls s' Ht. eapply (trace_measure step own stopped pending) in Ht as [_ Hle]; [| |done].
    + assert (Hb : (pending s <= 10)%nat); [|lia]. unfold pending.
      assert (Hw : forall w, (work w <= 2)%nat) by (intros []; cbn; lia).
      assert (work (reporter s) <= 1)%nat by (destruct (reporter s); [done | cbn; lia | cbn; lia]).
      pose proof (Hw (forwarders s Forth)). pose proof (Hw (forwarders s Back)). pose proof (Hw (readers s Forth)).
      pose proof (Hw (readers s Back)). destruct (result s); cbn; lia.
    + intros l s1 s2 Hst1 Hl. split; [|by apply step_pending]. destruct (step_keeps _ _ _ Hl) as (Hc & Hp & _).
      destruct Hst1. split; auto.
  - by apply stopped_progress.
Qed.

(** Cancellation alone does not stop a forwarder: it looks at the context only
    when a read fails, so as long as packets arrive before the read deadline it
    goes on, and [run] cannot return. *)
Theorem cancelled_forwarder_goes_on d s n :
  forwarders s d = Looping -> se_closed (ses s) = false ->
  exists s', trace step (replicate n Own) s s' /\ forwarders s' d = Looping /\ parent s' = parent s /\ se_closed (ses s') = false.
Proof.
  revert s. induction n as [|n IH]; intros s Hw Hc; [exists s; split_and!; [constructor|done..]|].
  pose (ev := Datagram [] (AddrPortFrom AddrZero 0) 0 None).
  assert (Hone : forwarders (forward d ev s) d = Looping /\ parent (forward d ev s) = parent s /\
                 se_closed (ses (forward d ev s)) = false).
  { unfold forward. destruct (forward_round _ _ _ _ _ _ _) as [[[stop out] e] rw] eqn:E. cbn in E.
    destruct (forward_packet _ _ _ _ _ _) as [[x e1] rw1]. assert (stop = None) as -> by (destruct x as [[]|]; by simplify_eq).
    cbn. by rewrite upd_same, closed_set_rewriter, closed_set_source. }
  destruct Hone as (H1w & H1p & H1c). destruct (IH (forward d ev s) H1w H1c) as (s' & Ht & Hw' & Hp' & Hc').
  exists s'. split_and!; [|done|congruence|done]. econstructor; [|exact Ht]. apply s_forward; [done|]. by rewrite Hc.
Qed.

End Workers.
Arguments sys : clear implicits.

(** ** A sample session *)

Definition silent_rtcp : RtcpCodec := {| rtcp_Unmarshal := fun _ => None; rtcp_Marshal := fun _ => Ok [] |}.
#[local] Existing Instance toy_codec.
#[local] Existing Instance silent_rtcp.

Definition no_publish (m : Summary) (p : unit) : option error * unit := (None, p).
Definition sample_mapping : Mapping := mkMapping "PCMU" 8000 0 8 101 101 true.
Definition sample_session : Session :=
  mkMediaSession "m" sample_metadata sample_cfg near_leg (set_lease (mkLease 10002 NotRun false) far_leg)
    sample_rewriter sample_rewriter (Some sample_mapping) 5 0 false ChanOpen.
Definition sample_run : sys (option error) unit :=
  mkSys sample_session sample_pool ∅ tt None None (fun _ => Starting) (fun _ => Starting) Looping None (fun _ => []).

Lemma sample_started : started 5 sample_session sample_pool ∅ tt None = Ok sample_run.
Proof. reflexivity. Qed.

Definition near_packet (seq : Z) : ReadEvent := Datagram [2; 0; seq; seq * 160; 7; 7] (AddrPortFrom (Addr4 1) 4000) 0 None.
Definition closed_read : ReadEvent := ReadError (Sentinel net_ErrClosed).

(** Two packets are forwarded, an RTCP reader starts in between. *)
Definition talking : sys (option error) unit :=
  forward Forth (near_packet 3) (start_read Forth (forward Forth (near_packet 1) (start_forward Forth sample_run))).

Definition cancel (s : sys (option error) unit) : sys (option error) unit :=
  mkSys (ses s) (pool s) (open s) (publisher s) (Some context_Canceled) (group s) (forwarders s) (readers s)
    (reporter s) (result s) (outputs s).
Definition close_all (s : sys (option error) unit) : sys (option error) unit :=
  let '(_, x, p, o) := Close (mkCloseErrors None None None None) (ses s) (pool s) (open s) in
  mkSys x p o (publisher s) (parent s) (group s) (forwarders s) (readers s) (reporter s) (result s) (outputs s).
Definition finish (s : sys (option error) unit) : sys (option error) unit :=
  let '(err, x, p, o) := run_end (Wait (group s)) (mkCloseErrors None None None None) (ses s) (pool s) (open s) in
  mkSys x p o (publisher s) (parent s) (group s) (forwarders s) (readers s) (reporter s) (Some err) (outputs s).

Lemma workers_reachable_step l s0 s s' : reachable_from no_publish s0 s -> step no_publish l s s' -> reachable_from no_publish s0 s'.
Proof. intros Hr Hs. eapply rtc_r; [exact Hr | by exists l]. Qed.

Ltac back c := eapply workers_reachable_step; [|eapply c; try reflexivity].

Lemma talking_reachable : reachable_from no_publish sample_run talking.
Proof.
  unfold talking. back (s_forward no_publish); [|done]. back (s_start_read no_publish). back (s_forward no_publish); [|done]. back (s_start_forward no_publish). apply rtc_refl.
Qed.

Lemma media_streams_witness :
  length (outputs talking Forth) = 2%nat /\
  forall i y, outputs talking Forth !! i = Some y ->
    p_SequenceNumber (o_packet y) = u16 (next_sequence sample_rewriter + Z.of_nat i) /\
    p_SSRC (o_packet y) = rw_ssrc sample_rewriter /\ marshalled y.
Proof.
  split; [vm_compute; reflexivity|].
  apply (media_streams no_publish 5 sample_session sample_pool ∅ tt None sample_run talking Forth
           sample_started ltac:(by vm_compute) talking_reachable).
Defined.

Definition hung_up : sys (option error) unit := close_all (cancel talking).

Lemma hung_up_reachable : reachable_from no_publish sample_run hung_up.
Proof.
  unfold hung_up. back (s_close no_publish (mkCloseErrors None None None None)).
  back (s_cancel no_publish). exact talking_reachable.
Qed.

Lemma media_run_terminates_witness :
  stopped hung_up /\ forall ls s', trace (step no_publish) ls hung_up s' -> (counted_steps own ls <= 10)%nat.
Proof.
  assert (Hst : stopped hung_up) by (split; [reflexivity | discriminate]). split; [exact Hst|].
  destruct (media_run_terminates no_publish 5 sample_session sample_pool ∅ tt None sample_run hung_up sample_started hung_up_reachable)
    as [Ht _]. apply (Ht Hst).
Defined.

(** The session is stopped before its workers have taken their sockets: they
    report the released lease, and [run] returns it as an error although nothing
    went wrong. *)
Definition early_stop : sys (option error) unit :=
  let s := close_all (cancel sample_run) in
  let s := start_forward Back (start_forward Forth s) in
  let s := start_read Back (start_read Forth s) in
  finish (report no_publish StopTick s).

Theorem early_stop_reports_error :
  reachable_from no_publish sample_run early_stop /\
  exists e, result early_stop = Some (Some e) /\ errors_Is e "RTP port lease released" = true.
Proof.
  split; [|vm_compute; eauto]. unfold early_stop. cbv zeta.
  back (s_finish no_publish (mkCloseErrors None None None None)); [|split_and!; [intros [] | intros [] |]; eexists; reflexivity].
  back (s_stop no_publish); [|done]. back (s_start_read no_publish). back (s_start_read no_publish).
  back (s_start_forward no_publish). back (s_start_forward no_publish).
  back (s_close no_publish (mkCloseErrors None None None None)). back (s_cancel no_publish). apply rtc_refl.
Qed.

End Workers.
