(* ===== verification/Auth.v ===== *)
(** * SIP Digest authentication

    Models [internal/sip/auth/digest.go]: signed nonces, verification of
    credentials and the bounded replay cache.  HMAC-SHA256 and MD5 enter as the
    parameter [Crypto]; parsing and computing Digest values is done by the
    [icholy/digest] package, the parameter [DigestLib]; credentials come from a
    [CredentialStore]. *)

From Stdlib Require Import Strings.Ascii.
From S2P Require Import Prelude GoStrings.

Definition nonceRandomBytes : nat := 16.
Definition nonceMACBytes : nat := 32.
Definition nonceTimeBytes : nat := 8.

Definition ErrMissingCredentials : error := Sentinel "digest credentials missing".
Definition ErrInvalidCredentials : error := Sentinel "digest credentials invalid".
Definition ErrStaleNonce : error := Sentinel "digest nonce stale".
Definition ErrReplay : error := Sentinel "digest nonce replay detected".
Definition ErrReplayCapacity : error := Sentinel "digest replay cache capacity reached".

Record Credential := mkCredential {
  c_TenantID : string; c_Username : string; c_Realm : string; c_HA1 : string; c_MaxBindings : Z;
}.

Class CredentialStore := { LookupCredential : Context -> string -> string -> result Credential }.

Record Config := mkAuthConfig {
  Realm : string; NonceSecret : list Z; NonceTTL : Duration; MaxReplayEntries : Z;
}.

Record replayEntry := mkReplay { maxNonceCount : Z; expiresAt : Time }.

(** The replay cache: by nonce and user name. *)
Notation Replay := (gmap (string * string) replayEntry).

(** [New]'s checks; store and clock are pointers that may be nil. *)
Definition New (cfg : Config) (store_present clock_present : bool) : result Replay :=
  _ ← guard_err (String.eqb (Realm cfg) "") "digest realm is required";
  _ ← guard_err (length (NonceSecret cfg) <? 32)%nat "nonce secret must contain at least 32 bytes";
  _ ← guard_err (NonceTTL cfg <=? 0) "nonce TTL must be positive";
  _ ← guard_err (MaxReplayEntries cfg <=? 0) "max replay entries must be positive";
  _ ← guard_err (negb store_present) "credential store is required";
  _ ← guard_err (negb clock_present) "clock is required";
  Ok ∅.

(** ** Base64, URL alphabet without padding

    [base64.RawURLEncoding]: three bytes become four characters; a last group of
    one or two bytes becomes two or three.  Decoding skips line breaks and does
    not check the unused bits of the last character. *)

Definition base64_alphabet : string := "ABCDEFGHIJKLMNOPQRSTUVWXYZabcdefghijklmnopqrstuvwxyz0123456789-_".

Definition base64_char (v : Z) : ascii :=
  match String.get (Z.to_nat v) base64_alphabet with Some c => c | None => "A"%char end.

Definition base64_value (c : ascii) : option Z :=
  let z := code c in
  if (65 <=? z) && (z <=? 90) then Some (z - 65)
  else if (97 <=? z) && (z <=? 122) then Some (z - 71)
  else if (48 <=? z) && (z <=? 57) then Some (z + 4)
  else if z =? 45 then Some 62
  else if z =? 95 then Some 63
  else None.

Fixpoint sextets (bytes : list Z) : list Z :=
  match bytes with
  | a :: b :: c :: rest => a / 4 :: (a mod 4) * 16 + b / 16 :: (b mod 16) * 4 + c / 64 :: c mod 64 :: sextets rest
  | [a; b] => [a / 4; (a mod 4) * 16 + b / 16; (b mod 16) * 4]
  | [a] => [a / 4; (a mod 4) * 16]
  | [] => []
  end.

Fixpoint octets (vs : list Z) : option (list Z) :=
  match vs with
  | v0 :: v1 :: v2 :: v3 :: rest =>
      rest ← octets rest;
      Some (v0 * 4 + v1 / 16 :: (v1 mod 16) * 16 + v2 / 4 :: (v2 mod 4) * 64 + v3 :: rest)
  | [v0; v1; v2] => Some [v0 * 4 + v1 / 16; (v1 mod 16) * 16 + v2 / 4]
  | [v0; v1] => Some [v0 * 4 + v1 / 16]
  | [_] => None
  | [] => Some []
  end.

Definition line_break (c : ascii) : bool := (code c =? 10) || (code c =? 13).

Fixpoint base64_values (s : string) : option (list Z) :=
  match s with
  | EmptyString => Some []
  | String c s =>
      if line_break c then base64_values s
      else v ← base64_value c; vs ← base64_values s; Some (v :: vs)
  end.

Definition EncodeToString (bytes : list Z) : string :=
  foldr (fun v s => String (base64_char v) s) ""%string (sextets bytes).

Definition DecodeString (s : string) : option (list Z) := vs ← base64_values s; octets vs.

(** ** Nonces *)

Class Crypto := {
  HMAC_SHA256 : list Z -> list Z -> list Z;
  MD5 : list Z -> list Z;
}.

(** Documented: an HMAC-SHA256 tag is 32 bytes, an MD5 digest 16. *)
Class CryptoLaws `{Crypto} := {
  hmac_length key msg : length (HMAC_SHA256 key msg) = nonceMACBytes;
  hmac_bytes key msg : Forall is_u8 (HMAC_SHA256 key msg);
  md5_length msg : length (MD5 msg) = 16%nat;
}.

Section Nonces.
Context `{Crypto} (cfg : Config).

(** [random] is what [rand.Read] delivers. *)
Definition issueNonce (now : Time) (random : result (list Z)) : result string :=
  match random with
  | Err e => Err (Errorf "generate nonce randomness" [e])
  | Ok bytes =>
      let payload := be_put nonceTimeBytes (u64 (Unix now)) ++ bytes in
      Ok (EncodeToString (payload ++ HMAC_SHA256 (NonceSecret cfg) payload))
  end.

Definition validateNonce (now : Time) (encoded : string) : result Time :=
  match DecodeString encoded with
  | None => Err ErrInvalidCredentials
  | Some payload =>
      if negb (length payload =? nonceTimeBytes + nonceRandomBytes + nonceMACBytes)%nat
      then Err ErrInvalidCredentials else
      let message := take (nonceTimeBytes + nonceRandomBytes) payload in
      let providedMAC := drop (nonceTimeBytes + nonceRandomBytes) payload in
      if negb (bool_decide (providedMAC = HMAC_SHA256 (NonceSecret cfg) message))
      then Err ErrInvalidCredentials else
      let issuedAt := time_Unix (i64 (be_uint (take nonceTimeBytes message))) in
      if After issuedAt (time_Add now Minute) then Err ErrInvalidCredentials else
      let expiresAt := time_Add issuedAt (NonceTTL cfg) in
      if negb (After expiresAt now) then Err ErrStaleNonce else Ok expiresAt
  end.

End Nonces.

(** ** The replay cache *)

Definition expired (now : Time) (e : replayEntry) : Prop := After (expiresAt e) now = false.

Definition purge (now : Time) (replay : Replay) : Replay :=
  filter (fun kv : (string * string) * replayEntry => After (expiresAt kv.2) now = true) replay.

Definition recordNonceCount (cfg : Config) (now : Time) (nonce username : string) (nonceCount : Z)
    (expires : Time) (replay : Replay) : option error * Replay :=
  let key := (nonce, username) in
  match replay !! key with
  | Some entry =>
      if nonceCount <=? maxNonceCount entry then (Some ErrReplay, replay)
      else (None, <[key := mkReplay nonceCount expires]> replay)
  | None =>
      let replay := if MaxReplayEntries cfg <=? Z.of_nat (size replay) then purge now replay else replay in
      if MaxReplayEntries cfg <=? Z.of_nat (size replay) then (Some ErrReplayCapacity, replay)
      else (None, <[key := mkReplay nonceCount expires]> replay)
  end.

(** ** Verification *)

(** [digest.Credentials], [digest.Challenge] with [digest.Options]. *)
Record Credentials := mkCredentials {
  cr_Username : string; cr_Realm : string; cr_Nonce : string; cr_URI : string; cr_Response : string;
  cr_Algorithm : string; cr_Cnonce : string; cr_QOP : string; cr_Nc : Z;
}.

Record DigestRequest := mkDigestRequest {
  dr_Realm : string; dr_Nonce : string; dr_Method : string; dr_URI : string; dr_Username : string;
  dr_A1 : string; dr_Count : Z; dr_Cnonce : string;
}.

Class DigestLib := {
  ParseCredentials : string -> result Credentials;
  (** [digest.Digest] with algorithm MD5 and qop "auth": the response. *)
  Digest : DigestRequest -> result string;
  (** [Challenge.String] with algorithm MD5 and qop "auth". *)
  ChallengeString : string -> string -> bool -> string;
}.

Section Verify.
Context `{Crypto} `{DigestLib} `{CredentialStore} (cfg : Config).

Definition Challenge (now : Time) (random : result (list Z)) (stale : bool) : result string :=
  nonce ← issueNonce cfg now random; Ok (ChallengeString (Realm cfg) nonce stale).

Definition well_formed (requestURI : string) (c : Credentials) : bool :=
  negb (negb (String.eqb (cr_Realm c) (Realm cfg)) || negb (String.eqb (cr_URI c) requestURI)
        || negb (EqualFold (cr_Algorithm c) "MD5") || negb (String.eqb (cr_QOP c) "auth")
        || String.eqb (cr_Cnonce c) "" || (cr_Nc c <=? 0)).

(** What the response must be for the stored secret. *)
Definition digest_request (method requestURI : string) (c : Credentials) (credential : Credential) : DigestRequest :=
  mkDigestRequest (Realm cfg) (cr_Nonce c) method requestURI (cr_Username c) (c_HA1 credential) (cr_Nc c) (cr_Cnonce c).

Definition joined (e : error) : error := Errorf "" [ErrInvalidCredentials; e].

(** [Verify] up to the replay check; [now] is the clock read by
    [validateNonce]. *)
Definition authenticate (ctx : Context) (now : Time) (method requestURI authorization : string)
    : result (Credentials * Time * Credential) :=
  if String.eqb authorization "" then Err ErrMissingCredentials else
  match ParseCredentials authorization with
  | Err e => Err (joined e)
  | Ok c =>
      if negb (well_formed requestURI c) then Err ErrInvalidCredentials else
      match validateNonce cfg now (cr_Nonce c) with
      | Err e => Err e
      | Ok expires =>
          match LookupCredential ctx (cr_Realm c) (cr_Username c) with
          | Err e => Err (joined e)
          | Ok credential =>
              if negb (String.eqb (c_Realm credential) (cr_Realm c))
                 || negb (String.eqb (c_Username credential) (cr_Username c))
                 || negb (String.length (c_HA1 credential) =? 32)%nat
              then Err ErrInvalidCredentials else
              match Digest (digest_request method requestURI c credential) with
              | Err e => Err (joined e)
              | Ok response =>
                  if negb (String.eqb (ToLower (cr_Response c)) (ToLower response))
                  then Err ErrInvalidCredentials
                  else Ok (c, expires, credential)
              end
          end
      end
  end.

(** [Verify]; [now] and [later] are the two clock readings. *)
Definition Verify (ctx : Context) (now later : Time) (method requestURI authorization : string) (replay : Replay)
    : result Credential * Replay :=
  match authenticate ctx now method requestURI authorization with
  | Err e => (Err e, replay)
  | Ok (c, expires, credential) =>
      match recordNonceCount cfg later (cr_Nonce c) (cr_Username c) (cr_Nc c) expires replay with
      | (Some e, replay) => (Err e, replay)
      | (None, replay) => (Ok credential, replay)
      end
  end.

End Verify.

(** ** Provisioning *)

Definition hex_digit (v : Z) : ascii := chr (if v <? 10 then 48 + v else 87 + v).
Definition hex_EncodeToString (bytes : list Z) : string :=
  foldr (fun b s => String (hex_digit (b / 16)) (String (hex_digit (b mod 16)) s)) ""%string bytes.

Definition bytes_of (s : string) : list Z := (fun c => code c) <$> String.list_ascii_of_string s.

Definition ComputeHA1 `{Crypto} (username realm password : string) : string :=
  hex_EncodeToString (MD5 (bytes_of (username +:+ ":" +:+ realm +:+ ":" +:+ password)%string)).

(** ** Base64 round trip *)

Lemma base64_char_value v : 0 <= v < 64 -> base64_value (base64_char v) = Some v /\ line_break (base64_char v) = false.
Proof.
  intros Hv. assert (Hall : forallb (fun v => bool_decide (base64_value (base64_char v) = Some v)
                                     && negb (line_break (base64_char v))) (seqZ 0 64) = true) by by vm_compute.
  rewrite forallb_forall in Hall. specialize (Hall v). rewrite <- list_elem_of_In, elem_of_seqZ in Hall.
  specialize (Hall ltac:(lia)). by bool_prop.
Qed.

(** Induction on lists in steps of three. *)
Lemma list_ind3 {A} (P : list A -> Prop) :
  P [] -> (forall a, P [a]) -> (forall a b, P [a; b]) -> (forall a b c l, P l -> P (a :: b :: c :: l)) ->
  forall l, P l.
Proof.
  intros H0 H1 H2 H3 l. cut (forall n l, (length l <= n)%nat -> P l); [intros H; exact (H _ l (le_n _))|].
  induction n as [|n IH]; intros k Hk; [destruct k; [done | cbn in Hk; lia]|].
  destruct k as [|a [|b [|c k]]]; auto. apply H3, IH. cbn in Hk. lia.
Qed.

Lemma sextets_range bytes : Forall is_u8 bytes -> Forall (fun v => 0 <= v < 64) (sextets bytes).
Proof.
  induction bytes as [|a|a b|a b c l IH] using list_ind3; cbn [sextets];
    rewrite ?Forall_cons; unfold is_u8; intros HF; destruct_and?; split_and?; try done;
    try (Z.div_mod_to_equations; lia). by apply IH.
Qed.

Lemma octets_sextets bytes : Forall is_u8 bytes -> octets (sextets bytes) = Some bytes.
Proof.
  induction bytes as [|a|a b|a b c l IH] using list_ind3; cbn [sextets octets]; [done| | |];
    rewrite ?Forall_cons; unfold is_u8; intros HF; destruct_and?.
  - do 2 f_equal. Z.div_mod_to_equations; lia.
  - f_equal. f_equal; [Z.div_mod_to_equations; lia|]. f_equal. Z.div_mod_to_equations; lia.
  - rewrite IH by done. cbn [mbind option_bind]. f_equal. f_equal; [Z.div_mod_to_equations; lia|].
    f_equal; [Z.div_mod_to_equations; lia|]. f_equal. Z.div_mod_to_equations; lia.
Qed.

Lemma DecodeString_Encode bytes : Forall is_u8 bytes -> DecodeString (EncodeToString bytes) = Some bytes.
Proof.
  intros Hb. unfold DecodeString, EncodeToString. pose proof (sextets_range bytes Hb) as Hr.
  assert (Hv : forall vs, Forall (fun v => 0 <= v < 64) vs ->
    base64_values (foldr (fun v s => String (base64_char v) s) ""%string vs) = Some vs).
  { induction 1 as [|v vs Hv _ IH]; [done|]. cbn [foldr base64_values].
    destruct (base64_char_value v Hv) as [-> ->]. by rewrite IH. }
  rewrite Hv by done. by apply octets_sextets.
Qed.

(** ** Nonces *)

(** Seconds that survive the trip through the nonce. *)
Lemma time_bytes now : is_i64 (Unix now) -> - 2 ^ 62 < Unix now < 2 ^ 62 ->
  time_Unix (i64 (be_uint (be_put nonceTimeBytes (u64 (Unix now))))) = Unix now * Second.
Proof.
  intros H1 H2. rewrite be_uint_put. change (256 ^ Z.of_nat nonceTimeBytes) with (2 ^ 64).
  assert (Hi : i64 (u64 (Unix now) mod 2 ^ 64) = Unix now) by word_lia.
  rewrite Hi. unfold time_Unix. rewrite i64_id by (unfold is_i64, unixToInternal; lia). lia.
Qed.

Lemma validate_issued `{CryptoLaws} cfg issued now random nonce :
  - 2 ^ 62 < Unix issued < 2 ^ 62 ->
  length random = nonceRandomBytes -> Forall is_u8 random ->
  issueNonce cfg issued (Ok random) = Ok nonce ->
  validateNonce cfg now nonce =
  if After (Unix issued * Second) (time_Add now Minute) then Err ErrInvalidCredentials
  else if After (Unix issued * Second + NonceTTL cfg) now then Ok (Unix issued * Second + NonceTTL cfg)
  else Err ErrStaleNonce.
Proof.
  intros Hs Hlen Hbytes. unfold issueNonce. set (payload := be_put nonceTimeBytes (u64 (Unix issued)) ++ random).
  intros Hn. assert (nonce = EncodeToString (payload ++ HMAC_SHA256 (NonceSecret cfg) payload)) as -> by congruence.
  clear Hn. unfold validateNonce.
  assert (Hp : length payload = 24%nat) by (unfold payload; rewrite length_app, length_be_put, Hlen; done).
  assert (Hb : Forall is_u8 payload) by (apply Forall_app; auto with pbx).
  rewrite DecodeString_Encode by (apply Forall_app; auto using hmac_bytes).
  rewrite length_app, hmac_length, Hp.
  change (24 + nonceMACBytes =? nonceTimeBytes + nonceRandomBytes + nonceMACBytes)%nat with true. cbn [negb].
  change (nonceTimeBytes + nonceRandomBytes)%nat with 24%nat. rewrite <- Hp.
  rewrite take_app_length, drop_app_length, bool_decide_eq_true_2 by done. cbn [negb].
  assert (Ht : take nonceTimeBytes payload = be_put nonceTimeBytes (u64 (Unix issued)))
    by (apply take_app_length'; by rewrite length_be_put).
  rewrite Ht, time_bytes by (unfold is_i64; lia).
  destruct (After _ (time_Add now Minute)); [done|]. unfold time_Add.
  by destruct (After (Unix issued * Second + NonceTTL cfg) now).
Qed.

(** Claim C34. A nonce is accepted exactly for its lifetime: from a clock that
    does not run backwards, a nonce issued at [issued] validates until
    [issued] (cut to the second) plus the configured TTL and is reported as
    stale, not as invalid, from then on. *)
Theorem nonce_lifecycle `{CryptoLaws} cfg issued now random nonce :
  - 2 ^ 62 < Unix issued < 2 ^ 62 -> issued <= now ->
  length random = nonceRandomBytes -> Forall is_u8 random ->
  issueNonce cfg issued (Ok random) = Ok nonce ->
  validateNonce cfg now nonce =
  if now <? Unix issued * Second + NonceTTL cfg then Ok (Unix issued * Second + NonceTTL cfg)
  else Err ErrStaleNonce.
Proof.
  intros Hs Hle Hlen Hb Hi. rewrite (validate_issued cfg issued now random nonce) by done.
  assert (Hn : After (Unix issued * Second) (time_Add now Minute) = false).
  { unfold After, time_Add, Unix, Minute, Second in *. apply Z.ltb_ge. Z.div_mod_to_equations. lia. }
  rewrite Hn. done.
Qed.

(** ** Replay protection *)

Lemma purge_size (now : Time) (r : Replay) : (size (purge now r) <= size r)%nat.
Proof. unfold purge. apply map_subseteq_size, map_filter_subseteq. Qed.

Lemma record_bounded (cfg : Config) (now : Time) (nonce user : string) (nc : Z) (x : Time) (r : Replay) :
  0 < MaxReplayEntries cfg -> Z.of_nat (size r) <= MaxReplayEntries cfg ->
  Z.of_nat (size (recordNonceCount cfg now nonce user nc x r).2) <= MaxReplayEntries cfg.
Proof.
  intros Hpos Hsz. unfold recordNonceCount. pose proof (purge_size now r) as Hp.
  destruct (r !! (nonce, user)) as [e|] eqn:El.
  - destruct (_ <=? _); cbn [snd]; [done|]. rewrite map_size_insert_Some by (rewrite El; done). done.
  - destruct (Z.leb_spec (MaxReplayEntries cfg) (Z.of_nat (size r))).
    + destruct (Z.leb_spec (MaxReplayEntries cfg) (Z.of_nat (size (purge now r)))); cbn [snd]; [lia|].
      rewrite map_size_insert. destruct (purge now r !! _); cbn; lia.
    + destruct (Z.leb_spec (MaxReplayEntries cfg) (Z.of_nat (size r))); cbn [snd]; [lia|].
      rewrite map_size_insert. destruct (r !! _); cbn; lia.
Qed.

Section ReplaySafety.
Context `{Crypto} `{DigestLib} `{CredentialStore} (cfg : Config).

(** The expiry a nonce carries. *)
Definition nonce_expiry (nonce : string) : Time :=
  match DecodeString nonce with
  | Some payload => time_Unix (i64 (be_uint (take nonceTimeBytes payload))) + NonceTTL cfg
  | None => 0
  end.

Lemma validateNonce_expiry now nonce x :
  validateNonce cfg now nonce = Ok x -> x = nonce_expiry nonce /\ now < x.
Proof.
  unfold validateNonce, nonce_expiry. destruct (DecodeString nonce) as [payload|]; [|done].
  assert (Ht : take nonceTimeBytes (take (nonceTimeBytes + nonceRandomBytes) payload) = take nonceTimeBytes payload)
    by by rewrite take_take.
  rewrite Ht. generalize (time_Unix (i64 (be_uint (take nonceTimeBytes payload)))) as issuedAt. intros issuedAt.
  destruct (negb _); [done|]. destruct (negb _); [done|]. destruct (After _ (time_Add now Minute)); [done|].
  destruct (negb _) eqn:E; [done|]. intros [= <-]. unfold After, time_Add in *. by bool_prop.
Qed.

(** Every entry of the cache carries its nonce's expiry. *)
Definition cache_ok (r : Replay) : Prop :=
  forall k e, r !! k = Some e -> expiresAt e = nonce_expiry k.1.

(** Nonce count [n] of [key] is remembered, or the nonce has expired by [t]. *)
Definition remembered (t : Time) (r : Replay) (key : string * string) (n : Z) : Prop :=
  (exists e, r !! key = Some e /\ n <= maxNonceCount e) \/ nonce_expiry key.1 <= t.

Lemma purge_lookup (now : Time) (r : Replay) (k : string * string) (e : replayEntry) :
  purge now r !! k = Some e <-> r !! k = Some e /\ now < expiresAt e.
Proof.
  unfold purge. rewrite map_lookup_filter_Some. unfold After. cbn. by rewrite Z.ltb_lt.
Qed.

Lemma purge_remembered now r key n t : t <= now -> cache_ok r ->
  remembered t r key n -> remembered now (purge now r) key n.
Proof.
  intros Ht Hok [(e & He & Hn)|Hexp]; [|right; lia].
  destruct (decide (now < expiresAt e)) as [Hl|Hl].
  - left. exists e. split; [by apply purge_lookup | done].
  - right. rewrite <- (Hok _ _ He). lia.
Qed.

Lemma insert_remembered t r k c x key n :
  cache_ok r -> (forall e, r !! k = Some e -> maxNonceCount e < c) ->
  remembered t r key n -> remembered t (<[k := mkReplay c x]> r) key n.
Proof.
  intros Hok Hmax [(e & He & Hn)|Hexp]; [|by right]. left. destruct (decide (k = key)) as [->|Hne].
  - exists (mkReplay c x). rewrite lookup_insert_eq. split; [done|]. cbn. specialize (Hmax e He). lia.
  - exists e. by rewrite lookup_insert_ne.
Qed.

(** One record: what was remembered stays so, the cache stays well-formed, and
    success means the new count exceeds a remembered one that has not expired. *)
Lemma record_step now nonce user nc r res r' :
  cache_ok r ->
  recordNonceCount cfg now nonce user nc (nonce_expiry nonce) r = (res, r') ->
  cache_ok r' /\
  (forall t key n, t <= now -> remembered t r key n -> remembered now r' key n) /\
  (res = None -> r' !! (nonce, user) = Some (mkReplay nc (nonce_expiry nonce)) /\
                 forall e, r !! (nonce, user) = Some e -> maxNonceCount e < nc).
Proof.
  intros Hok. unfold recordNonceCount.
  assert (Hmono : forall t r key n, t <= now -> remembered t r key n -> remembered now r key n).
  { intros t r0 key n Ht [Hx|Hx]; [by left | right; lia]. }
  assert (Hins : forall r0, cache_ok r0 -> cache_ok (<[(nonce, user) := mkReplay nc (nonce_expiry nonce)]> r0)).
  { intros r0 Hr0 k e [[<- <-]|[_ Hl]]%lookup_insert_Some; [done | by apply Hr0]. }
  destruct (r !! (nonce, user)) as [e|] eqn:El.
  - destruct (Z.leb_spec nc (maxNonceCount e)); intros [= <- <-]; split_and!; eauto; try done.
    + intros t key n Ht Hr. apply insert_remembered; eauto. intros e' ?. congruence.
    + intros _. rewrite lookup_insert_eq. split; [done|]. intros e' [= <-]. done.
  - set (r1 := if _ <=? _ then purge now r else r).
    assert (Hr1 : cache_ok r1 /\ (forall t key n, t <= now -> remembered t r key n -> remembered now r1 key n) /\
                  r1 !! (nonce, user) = None).
    { subst r1. destruct (_ <=? _); split_and!; eauto.
      - intros k e [Hl _]%purge_lookup. by apply Hok.
      - intros. by eapply purge_remembered.
      - destruct (purge now r !! _) eqn:E; [|done]. apply purge_lookup in E as [E _]. congruence. }
    destruct Hr1 as (Hr1 & Hr2 & Hr3). clearbody r1. destruct (_ <=? _); intros [= <- <-]; split_and!; eauto; try done.
    + intros t key n Ht Hr. apply insert_remembered; eauto. congruence.
    + intros _. rewrite lookup_insert_eq. split; [done|]. congruence.
Qed.

(** A call of [Verify] with its two clock readings. *)
Record Request := mkRequest {
  v_ctx : Context; v_now : Time; v_later : Time; v_method : string; v_uri : string; v_authorization : string;
}.

Definition verify (q : Request) (r : Replay) : result Credential * Replay :=
  Verify cfg (v_ctx q) (v_now q) (v_later q) (v_method q) (v_uri q) (v_authorization q) r.

Fixpoint verify_all (qs : list Request) (r : Replay) : list (result Credential) * Replay :=
  match qs with
  | [] => ([], r)
  | q :: qs =>
      let '(res, r) := verify q r in
      let '(ress, r) := verify_all qs r in (res :: ress, r)
  end.

(** The requests are handled one after the other and the clock does not run
    backwards. *)
Fixpoint in_order (t : Time) (qs : list Request) : Prop :=
  match qs with
  | [] => True
  | q :: qs => t <= v_now q /\ v_now q <= v_later q /\ in_order (v_later q) qs
  end.

(** What an authenticated request presented. *)
Lemma authenticate_ok ctx now method uri auth c x credential :
  authenticate cfg ctx now method uri auth = Ok (c, x, credential) ->
  auth <> ""%string /\ ParseCredentials auth = Ok c /\ well_formed cfg uri c = true /\
  validateNonce cfg now (cr_Nonce c) = Ok x /\ LookupCredential ctx (cr_Realm c) (cr_Username c) = Ok credential /\
  c_Realm credential = cr_Realm c /\ c_Username credential = cr_Username c /\
  String.length (c_HA1 credential) = 32%nat /\
  exists response, Digest (digest_request cfg method uri c credential) = Ok response /\
    ToLower (cr_Response c) = ToLower response.
Proof.
  unfold authenticate. destruct (String.eqb_spec auth ""); [done|].
  destruct (ParseCredentials auth) as [c0|]; [|done]. destruct (well_formed cfg uri c0) eqn:Ew; cbn [negb]; [|done].
  destruct (validateNonce cfg now (cr_Nonce c0)) as [x0|] eqn:Ev; [|done].
  destruct (LookupCredential ctx _ _) as [cred|] eqn:El; [|done]. destruct (_ || _ || _) eqn:Ec; [done|]. bool_prop.
  destruct (Digest _) as [resp|] eqn:Ed; [|done]. destruct (negb _) eqn:Er; [done|]. intros [= <- <- <-].
  bool_prop. apply Nat.eqb_eq in H3. split_and!; eauto.
Qed.

Definition presents (q : Request) (key : string * string) (nc : Z) : Prop :=
  exists c, ParseCredentials (v_authorization q) = Ok c /\ key = (cr_Nonce c, cr_Username c) /\ nc = cr_Nc c.

Lemma verify_step q r res r' t :
  cache_ok r -> t <= v_now q -> v_now q <= v_later q -> verify q r = (res, r') ->
  cache_ok r' /\
  (forall key n, remembered t r key n -> remembered (v_later q) r' key n) /\
  (forall credential, res = Ok credential -> forall key nc, presents q key nc ->
     remembered (v_later q) r' key nc /\ forall n, remembered t r key n -> n < nc).
Proof.
  intros Hok Ht Hl. unfold verify, Verify.
  assert (Hmono : forall key n, remembered t r key n -> remembered (v_later q) r key n).
  { intros key n [Hx|Hx]; [by left | right; lia]. }
  destruct (authenticate _ _ _ _ _ _) as [[[c x] credential]|] eqn:Ea; [|by intros [= <- <-]].
  apply authenticate_ok in Ea as (_ & Hparse & _ & Hv & _). apply validateNonce_expiry in Hv as [-> Hfresh].
  destruct (recordNonceCount _ _ _ _ _ _ _) as [err r1] eqn:Er.
  apply record_step in Er as (H1' & H2' & H3'); [|done].
  destruct err as [e|]; intros [= <- <-]; (split_and!; [done | intros; eapply H2'; [|done]; lia |]); [done|].
  intros _ _ key nc (c0 & Hc0 & -> & ->). rewrite Hparse in Hc0. injection Hc0 as <-.
  destruct (H3' eq_refl) as [Hnew Hmax]. split.
  - left. eexists. split; [exact Hnew | done].
  - intros n [(e & He & Hn)|Hexp]; [specialize (Hmax e He); lia | cbn in Hexp; lia].
Qed.

Lemma verify_all_remembers qs : forall t r ress r' key n,
  in_order t qs -> cache_ok r -> remembered t r key n -> verify_all qs r = (ress, r') ->
  forall j q nc credential, qs !! j = Some q -> ress !! j = Some (Ok credential) -> presents q key nc -> n < nc.
Proof.
  induction qs as [|q qs IH]; intros t r ress r' key n Hord Hok Hrem; cbn [verify_all]; [done|].
  destruct Hord as (Ho1 & Ho2 & Ho3). destruct (verify q r) as [res r1] eqn:E1.
  destruct (verify_all qs r1) as [ress1 r2] eqn:E2. intros [= <- <-].
  destruct (verify_step q r res r1 t Hok Ho1 Ho2 E1) as (H1' & H2' & H3').
  intros [|j] q0 nc credential; cbn.
  - intros [= <-] [= ->] Hp. eapply H3'; eauto.
  - intros. eapply (IH (v_later q)); eauto.
Qed.

(** Claim C4. No authentication is accepted twice: when requests are verified
    one after the other under a clock that does not run backwards, the nonce
    counts accepted for one nonce and user strictly increase, however many
    other requests intervene, and although expired entries are evicted from
    the bounded cache. *)
Theorem replay_rejected qs t ress r i j a b key nca ncb ca cb :
  in_order t qs -> verify_all qs ∅ = (ress, r) -> (i < j)%nat ->
  qs !! i = Some a -> ress !! i = Some (Ok ca) -> presents a key nca ->
  qs !! j = Some b -> ress !! j = Some (Ok cb) -> presents b key ncb ->
  nca < ncb.
Proof.
  assert (Hempty : cache_ok ∅) by (intros k e He; by rewrite lookup_empty in He).
  revert Hempty. generalize (∅ : Replay) as r0. revert t ress i j.
  induction qs as [|q qs IH]; intros t ress i j r0 Hok Hord; cbn [verify_all]; [done|].
  destruct Hord as (Ho1 & Ho2 & Ho3). destruct (verify q r0) as [res r1] eqn:E1.
  destruct (verify_all qs r1) as [ress1 r2] eqn:E2. intros [= <- <-] Hij.
  destruct (verify_step q r0 res r1 t Hok Ho1 Ho2 E1) as (H1' & _ & H3').
  destruct j as [|j]; [lia|]. destruct i as [|i]; cbn.
  - intros [= <-] [= ->] Ha Hb1 Hb2 Hb3. destruct (H3' _ eq_refl _ _ Ha) as [Hrem _].
    eapply verify_all_remembers; eauto.
  - intros Ha1 Ha2 Ha3 Hb1 Hb2 Hb3. apply (IH (v_later q) ress1 i j r1 H1' Ho3 E2); auto with lia.
Qed.

End ReplaySafety.

(** The replay cache never exceeds its configured bound. *)
Theorem replay_cache_bounded `{Crypto} `{DigestLib} `{CredentialStore} (cfg : Config) (qs : list Request) (ress : list (result Credential)) (r : Replay) :
  0 < MaxReplayEntries cfg -> verify_all cfg qs ∅ = (ress, r) -> Z.of_nat (size r) <= MaxReplayEntries cfg.
Proof.
  intros Hpos. assert (H0' : Z.of_nat (size (∅ : Replay)) <= MaxReplayEntries cfg) by (rewrite map_size_empty; lia).
  revert H0'. generalize (∅ : Replay) as r0. revert ress.
  induction qs as [|q qs IH]; intros ress r0 Hsz; cbn [verify_all]; [by intros [= <- <-]|].
  destruct (verify cfg q r0) as [res r1] eqn:E1. destruct (verify_all cfg qs r1) as [ress1 r2] eqn:E2.
  intros [= <- <-]. eapply (IH _ r1); [|done]. clear IH E2. unfold verify, Verify in E1.
  destruct (authenticate _ _ _ _ _ _) as [[[c x] credential]|]; [|by injection E1 as <- <-].
  pose proof (record_bounded cfg (v_later q) (cr_Nonce c) (cr_Username c) (cr_Nc c) x r0 Hpos Hsz) as Hb.
  destruct (recordNonceCount _ _ _ _ _ _ _) as [[e|] r']; by injection E1 as <- <-.
Qed.

(** ** Accepting the right client *)

Lemma hex_length bytes : String.length (hex_EncodeToString bytes) = (2 * length bytes)%nat.
Proof.
  induction bytes as [|b bytes IH]; [done|].
  change (S (S (String.length (hex_EncodeToString bytes))) = (2 * S (length bytes))%nat). rewrite IH. lia.
Qed.

(** A client that knows the password is let in: a request whose nonce
    this server issued and that has not expired, for a user provisioned with
    ComputeHA1, carrying the response computed from that secret and a nonce
    count not seen before, is accepted (when the cache has room for its nonce)
    with the stored credential, and the nonce count is recorded. *)
Theorem verify_complete `{CryptoLaws} `{DigestLib} `{CredentialStore} (cfg : Config)
    (ctx : Context) (now later issued : Time) (random : list Z) (method uri authorization : string)
    (c : Credentials) (credential : Credential) (password response : string) (replay : Replay) :
  - 2 ^ 62 < Unix issued < 2 ^ 62 -> issued <= now -> now < Unix issued * Second + NonceTTL cfg ->
  length random = nonceRandomBytes -> Forall is_u8 random ->
  issueNonce cfg issued (Ok random) = Ok (cr_Nonce c) ->
  authorization <> ""%string -> ParseCredentials authorization = Ok c -> well_formed cfg uri c = true ->
  LookupCredential ctx (cr_Realm c) (cr_Username c) = Ok credential ->
  c_Realm credential = cr_Realm c -> c_Username credential = cr_Username c ->
  c_HA1 credential = ComputeHA1 (cr_Username c) (cr_Realm c) password ->
  Digest (digest_request cfg method uri c credential) = Ok response ->
  ToLower (cr_Response c) = ToLower response ->
  match replay !! (cr_Nonce c, cr_Username c) with
  | Some e => maxNonceCount e < cr_Nc c
  | None => Z.of_nat (size replay) < MaxReplayEntries cfg
  end ->
  exists replay', Verify cfg ctx now later method uri authorization replay = (Ok credential, replay') /\
    replay' !! (cr_Nonce c, cr_Username c)
    = Some (mkReplay (cr_Nc c) (Unix issued * Second + NonceTTL cfg)).
Proof.
  intros Hs Hle Hexp Hlen Hb Hi Ha Hp Hw Hl Hr Hu Hha Hd Hresp Hroom.
  assert (Hauth : authenticate cfg ctx now method uri authorization
                  = Ok (c, Unix issued * Second + NonceTTL cfg, credential)).
  { unfold authenticate. destruct (String.eqb_spec authorization ""); [done|]. rewrite Hp, Hw. cbn [negb].
    rewrite (validate_issued cfg issued now random (cr_Nonce c)) by done.
    assert (Hn : After (Unix issued * Second) (time_Add now Minute) = false).
    { unfold After, time_Add, Unix, Minute, Second in *. apply Z.ltb_ge. Z.div_mod_to_equations. lia. }
    assert (Hn2 : After (Unix issued * Second + NonceTTL cfg) now = true) by by apply Z.ltb_lt.
    rewrite Hn, Hn2, Hl, Hr, Hu, !String.eqb_refl, Hha. unfold ComputeHA1. rewrite hex_length, md5_length.
    cbn [negb orb Nat.eqb Nat.mul Nat.add]. rewrite Hd, Hresp, String.eqb_refl. done. }
  unfold Verify. rewrite Hauth. unfold recordNonceCount.
  destruct (replay !! (cr_Nonce c, cr_Username c)) as [e|] eqn:El.
  - destruct (Z.leb_spec (cr_Nc c) (maxNonceCount e)); [lia|]. eexists. split; [done|]. apply lookup_insert_eq.
  - destruct (Z.leb_spec (MaxReplayEntries cfg) (Z.of_nat (size replay))); [lia|].
    destruct (Z.leb_spec (MaxReplayEntries cfg) (Z.of_nat (size replay))); [lia|].
    eexists. split; [done|]. apply lookup_insert_eq.
Qed.

(** ** [internal/platform/memory/credential_store.go] *)

Definition ErrCredentialNotFound : error := Sentinel "credential not found".

Definition Credentials_map := gmap (string * string) Credential.

Definition NewCredentialStore (credentials : list Credential) : Credentials_map :=
  foldl (fun m c => <[(c_Realm c, c_Username c) := c]> m) (∅ : gmap (string * string) Credential) credentials.

Definition memory_LookupCredential (m : Credentials_map) (ctx : Context) (realm username : string) : result Credential :=
  match ctx with
  | Some e => Err e
  | None =>
      match (m : gmap (string * string) Credential) !! (realm, username) with
      | None => Err ErrCredentialNotFound
      | Some credential => Ok credential
      end
  end.

Definition memory_credentials (m : Credentials_map) : CredentialStore :=
  {| LookupCredential := memory_LookupCredential m |}.

Lemma NewCredentialStore_keys credentials : forall m : gmap (string * string) Credential,
  (forall k c, m !! k = Some c -> k = (c_Realm c, c_Username c)) ->
  forall k c, foldl (fun m c => <[(c_Realm c, c_Username c) := c]> m) m credentials !! k = Some c ->
  k = (c_Realm c, c_Username c).
Proof.
  induction credentials as [|x rest IH]; intros m Hm k c; cbn; [by apply Hm|].
  apply IH. intros k' c' [[<- <-]|[_ Hl]]%lookup_insert_Some; auto.
Qed.

(** What the store returns for a name has that name, so Verify's cross-check of
    realm and user name never refuses a stored credential. *)
Lemma memory_lookup_named credentials ctx realm username c :
  memory_LookupCredential (NewCredentialStore credentials) ctx realm username = Ok c ->
  c_Realm c = realm /\ c_Username c = username.
Proof.
  unfold memory_LookupCredential. destruct ctx; [done|]. destruct (_ !! _) as [c0|] eqn:E; [|done].
  intros [= <-]. apply NewCredentialStore_keys in E; [by injection E|]. intros k c H. by rewrite lookup_empty in H.
Qed.

(** ** A sample authenticator *)

Definition toy_crypto : Crypto := {| HMAC_SHA256 := fun _ _ => replicate 32 7; MD5 := fun _ => replicate 16 1 |}.

#[global] Instance toy_laws : @CryptoLaws toy_crypto.
Proof.
  split; [reflexivity | intros; apply (Forall_replicate is_u8 32 7); unfold is_u8; lia | reflexivity].
Defined.

Definition toy_config (entries : Z) : Config := mkAuthConfig "pbx" (replicate 32 1) (60 * Second) entries.
Definition toy_random : list Z := replicate 16 5.

(** The nonces issued at second 0 and at second 30. *)
Definition nonce_of (sec : Z) : string :=
  let payload := be_put nonceTimeBytes sec ++ toy_random in EncodeToString (payload ++ replicate 32 7).

(** Authorization texts "a1", "a2", ... stand for parsed credentials: nonce and
    nonce count. *)
Definition toy_credentials (sec nc : Z) : Credentials :=
  mkCredentials "alice" "pbx" (nonce_of sec) "sip:pbx" "ok" "md5" "x" "auth" nc.
Definition toy_digest : DigestLib :=
  {| ParseCredentials := fun s =>
       if String.eqb s "a1" then Ok (toy_credentials 0 1)
       else if String.eqb s "a2" then Ok (toy_credentials 0 2)
       else if String.eqb s "b1" then Ok (toy_credentials 30 1)
       else Err (Sentinel "parse");
     Digest := fun _ => Ok "OK"%string;
     ChallengeString := fun realm nonce _ => (realm +:+ nonce)%string |}.
Definition toy_user : Credential := mkCredential "t" "alice" "pbx" (@ComputeHA1 toy_crypto "alice" "pbx" "secret") 3.
Definition toy_store : CredentialStore := memory_credentials (NewCredentialStore [toy_user]).

Definition toy_request (sec : Z) (authorization : string) : Request :=
  mkRequest None (sec * Second) (sec * Second) "REGISTER" "sip:pbx" authorization.
Definition toy_requests : list Request :=
  [toy_request 1 "a1"; toy_request 2 "a1"; toy_request 3 "a2"; toy_request 31 "b1"].

Lemma nonce_lifecycle_witness :
  @validateNonce toy_crypto (toy_config 4) (59 * Second) (nonce_of 0) = Ok (60 * Second).
Proof.
  assert (Hr : Forall is_u8 toy_random) by (apply (Forall_replicate is_u8 16 5); unfold is_u8; lia).
  exact (@nonce_lifecycle toy_crypto toy_laws (toy_config 4) 0 (59 * Second) toy_random (nonce_of 0)
    ltac:(vm_compute; split; reflexivity) ltac:(vm_compute; discriminate) eq_refl Hr ltac:(vm_compute; reflexivity)).
Defined.

Lemma replay_rejected_witness :
  exists r, @verify_all toy_crypto toy_digest toy_store (toy_config 4) toy_requests ∅
    = ([Ok toy_user; Err ErrReplay; Ok toy_user; Ok toy_user], r) /\ 1 < 2.
Proof.
  assert (Ho : in_order 0 toy_requests) by (vm_compute; repeat split; discriminate).
  destruct (@verify_all toy_crypto toy_digest toy_store (toy_config 4) toy_requests ∅) as [ress r] eqn:E.
  assert (Hr : ress = [Ok toy_user; Err ErrReplay; Ok toy_user; Ok toy_user]).
  { change ress with (ress, r).1. rewrite <- E. vm_compute. reflexivity. }
  exists r. split; [by rewrite Hr|].
  apply (@replay_rejected toy_crypto toy_digest toy_store (toy_config 4) toy_requests 0 ress r 0 2
    (toy_request 1 "a1") (toy_request 3 "a2") (nonce_of 0, "alice"%string) 1 2 toy_user toy_user Ho E);
    rewrite ?Hr; try reflexivity; try (constructor; constructor).
  - exists (toy_credentials 0 1). split; [reflexivity|]. split; reflexivity.
  - exists (toy_credentials 0 2). split; [reflexivity|]. split; reflexivity.
Defined.

Lemma replay_cache_bounded_witness :
  Z.of_nat (size (@verify_all toy_crypto toy_digest toy_store (toy_config 1) toy_requests ∅).2) <= 1.
Proof.
  apply (@replay_cache_bounded toy_crypto toy_digest toy_store (toy_config 1) toy_requests _ _ ltac:(reflexivity) (surjective_pairing _)).
Defined.

Lemma verify_complete_witness :
  exists replay', @Verify toy_crypto toy_digest toy_store (toy_config 4) None Second Second "REGISTER" "sip:pbx" "a1" ∅
    = (Ok toy_user, replay').
Proof.
  assert (Hr : Forall is_u8 toy_random) by (apply (Forall_replicate is_u8 16 5); unfold is_u8; lia).
  destruct (@verify_complete toy_crypto toy_laws toy_digest toy_store (toy_config 4) None Second Second 0 toy_random
    "REGISTER" "sip:pbx" "a1" (toy_credentials 0 1) toy_user "secret" "OK" ∅
    ltac:(vm_compute; split; reflexivity) ltac:(vm_compute; discriminate) ltac:(vm_compute; reflexivity) eq_refl Hr
    ltac:(vm_compute; reflexivity) ltac:(discriminate) eq_refl ltac:(vm_compute; reflexivity) ltac:(vm_compute; reflexivity) eq_refl eq_refl
    eq_refl eq_refl eq_refl ltac:(vm_compute; reflexivity)) as (r & Hv & _).
  exists r. exact Hv.
Defined.

(** ** A window for replays

    [Verify] reads the clock once to check the nonce and once more, later, to
    record the count; between the two, another request may evict the nonce's
    expired entry.  Here a cache of two entries holds the nonce of second 0 for
    alice (request "a1") and for bob.  Request "a1" is sent again and passes the
    checks one nanosecond before the nonce expires; before its count is
    recorded, request "b1" needs room in the cache and evicts both entries; then
    the replayed "a1" is recorded as new. *)
Theorem replay_race :
  let cfg := toy_config 2 in
  let record sec user later := recordNonceCount cfg later (nonce_of sec) user 1 ((sec + 60) * Second) in
  let r0 := (record 0 "bob"%string Second ∅).2 in
  let r1 := (record 0 "alice"%string Second r0).2 in
  let r2 := (record 30 "alice"%string (60 * Second) r1).2 in
  (record 0 "alice"%string Second r0).1 = None /\
  @authenticate toy_crypto toy_digest toy_store cfg None (60 * Second - 1) "REGISTER" "sip:pbx" "a1"
    = Ok (toy_credentials 0 1, 60 * Second, toy_user) /\
  (record 0 "alice"%string (60 * Second) r1).1 = Some ErrReplay /\
  (record 30 "alice"%string (60 * Second) r1).1 = None /\
  (record 0 "alice"%string (60 * Second) r2).1 = None.
Proof. vm_compute. auto 10. Qed.
