(* ===== verification/MysqlStore.v ===== *)
(** * The MySQL store

    Models [internal/platform/mysql/store.go] over the tables of
    [migrations/000001_phase1.sql] and [000002_phase2_media.sql].  A table is the
    list of its rows; each SQL statement of the source is the function on rows it
    denotes, with the unique keys of the schema.  Statements can fail; a
    transaction that does not commit leaves no trace.  How the server compares
    text and which value a column keeps are parameters ([SqlServer]). *)

From Stdlib Require Import Floats.SpecFloat.
From S2P Require Import Prelude GoStrings Netip Registration Rtp MediaEndpoint MediaSession.
From S2P Require Call Auth.

(** ** The server *)

Record RegRow := mkRegRow {
  rr_registration_id : string; rr_tenant_id : string; rr_aor : string; rr_contact : string;
  rr_contact_hash : list Z; rr_route_target : string; rr_transport : string;
  rr_received_ip : string; rr_received_port : Z; rr_user_agent : string; rr_q : float32;
  rr_expires_at : Time; rr_updated_at : Time;
}.

(** [collate s]: the key by which columns without an explicit collation compare.
    [stored_time] and [stored_q]: what DATETIME(6) and DECIMAL(4,3) columns keep;
    [bound_time]: a time argument in a comparison.  [scan]: the order in which a
    query returns rows. *)
Class SqlServer := {
  collate : string -> string;
  stored_time : Time -> Time;
  bound_time : Time -> Time;
  stored_q : float32 -> float32;
  SHA256 : string -> list Z;
  scan : list RegRow -> list RegRow;
}.

Class SqlLaws `{SqlServer} := {
  SHA256_inj : Inj (=) (=) SHA256;            (* no collisions among contacts *)
  scan_perm : forall rows, scan rows ≡ₚ rows;
}.

(** How a statement or a commit ends.  A lost one took effect on the server, but
    the client is told otherwise. *)
Inductive Outcome := Done | Failed (e : error) | Lost (e : error).

Record CallRow := mkCallRow {
  cr_tenant_id : string; cr_node_id : string; cr_direction : string; cr_caller_leg_id : string;
  cr_callee_leg_id : string; cr_state : string; cr_started_at : Time; cr_answered_at : option Time;
  cr_ended_at : option Time; cr_cause : string; cr_updated_at : Time;
}.

Record EventRow := mkEventRow {
  er_call_id : string; er_sequence : Z; er_tenant_id : string; er_leg_id : string; er_node_id : string;
  er_old_state : string; er_new_state : string; er_reason : string; er_protocol_event : string;
  er_occurred_at : Time;
}.

(** The columns of one leg in a quality sample. *)
Record LegSample := mkLegSample {
  lg_packets : Z; lg_bytes : Z; lg_lost : Z; lg_reordered : Z; lg_duplicates : Z;
  lg_jitter_samples : float64; lg_rtt_microseconds : Z; lg_timed_out : bool;
}.
Record SampleRow := mkSampleRow {
  sr_tenant_id : string; sr_call_id : string; sr_media_session_id : string; sr_node_id : string;
  sr_caller_leg_id : string; sr_callee_leg_id : string; sr_sampled_at : Time;
  sr_caller : LegSample; sr_callee : LegSample; sr_one_way : bool; sr_dropped_summaries : Z;
}.

Record DB := mkDB {
  sip_credentials : list Auth.Credential;
  registrations : list RegRow;
  calls : gmap string CallRow;
  call_events : list EventRow;
  media_quality_samples : list SampleRow;
}.

Definition set_registrations (rows : list RegRow) (db : DB) : DB :=
  mkDB (sip_credentials db) rows (calls db) (call_events db) (media_quality_samples db).
Definition set_calls (cs : gmap string CallRow) (db : DB) : DB :=
  mkDB (sip_credentials db) (registrations db) cs (call_events db) (media_quality_samples db).
Definition add_event_row (r : EventRow) (db : DB) : DB :=
  mkDB (sip_credentials db) (registrations db) (calls db) (call_events db ++ [r]) (media_quality_samples db).
Definition add_sample_row (r : SampleRow) (db : DB) : DB :=
  mkDB (sip_credentials db) (registrations db) (calls db) (call_events db) (media_quality_samples db ++ [r]).

(** ** Opening the store *)

(** The settings of a parsed DSN that [Open] changes, and the rest. *)
Record DriverConfig := mkDriverConfig { ParseTime : bool; Loc : string; other_settings : string }.

(** The driver and [database/sql]; a connection pool is named by a number. *)
Record Driver := mkDriver {
  ParseDSN : string -> result DriverConfig; FormatDSN : DriverConfig -> string;
  sql_Open : string -> result nat; PingContext : nat -> option error;
}.

(** Returns the store's pool, and the pools that were closed. *)
Definition mysql_Open (d : Driver) (dsn : string) : result nat * list nat :=
  match wrap_err "parse MySQL DSN" (ParseDSN d dsn) with
  | Err e => (Err e, [])
  | Ok config =>
      match wrap_err "open MySQL" (sql_Open d (FormatDSN d (mkDriverConfig true "UTC" (other_settings config)))) with
      | Err e => (Err e, [])
      | Ok db =>
          match PingContext d db with
          | Some e => (Err (Errorf "ping MySQL" [e]), [db])
          | None => (Ok db, [])
          end
      end
  end.

Definition mysql_NewStore (db : option nat) : result nat :=
  match db with None => Err (Errorf "database is required" []) | Some db => Ok db end.

(** A pool that was opened is the store's or was closed again; the store's pool
    answers, parses times and keeps them in UTC. *)
Lemma open_leaves_nothing d dsn config db : ParseDSN d dsn = Ok config ->
  sql_Open d (FormatDSN d (mkDriverConfig true "UTC" (other_settings config))) = Ok db ->
  mysql_Open d dsn = (Ok db, []) /\ PingContext d db = None \/
  exists e, mysql_Open d dsn = (Err e, [db]) /\ PingContext d db <> None.
Proof.
  intros Hp Ho. unfold mysql_Open. rewrite Hp. cbn. rewrite Ho. cbn. destruct (PingContext d db); [right | left]; eauto.
Qed.

Section Store.
Context `{SqlServer}.

Definition sql_ErrNoRows : string := "sql: no rows in result set".

Definition text_eq (a b : string) : bool := String.eqb (collate a) (collate b).

(** ** Credentials *)

(** The primary key (realm, username) makes the row unique. *)
Definition mysql_LookupCredential (query : option error) (realm username : string) (db : DB) : result Auth.Credential :=
  match query with
  | Some e => Err (Errorf "query credential" [e])
  | None =>
      match filter (fun c => text_eq (Auth.c_Realm c) realm && text_eq (Auth.c_Username c) username = true)
              (sip_credentials db) with
      | c :: _ => Ok c
      | [] => Err (Errorf "query credential" [Sentinel sql_ErrNoRows])
      end
  end.

Definition IsNotFound (err : option error) : bool := errors_Is_opt err sql_ErrNoRows.

(** ** Registrations *)

(** [WHERE tenant_id = ? AND aor = ?], and with [expires_at > ?]. *)
Definition of_aor (tenantID : TenantID) (aor : AoR) (r : RegRow) : bool :=
  text_eq (rr_tenant_id r) tenantID && text_eq (rr_aor r) aor.
Definition active_row (tenantID : TenantID) (aor : AoR) (now : Time) (r : RegRow) : bool :=
  of_aor tenantID aor r && (bound_time now <? rr_expires_at r).

Definition select_rows (P : RegRow -> bool) (rows : list RegRow) : list RegRow :=
  scan (filter (fun r => P r = true) rows).

(** The values of the INSERT, as the columns keep them. *)
Definition row_of (b : Binding) : RegRow :=
  {| rr_registration_id := b_ID b; rr_tenant_id := b_TenantID b; rr_aor := b_AoR b; rr_contact := b_Contact b;
     rr_contact_hash := SHA256 (b_Contact b); rr_route_target := b_RouteTarget b; rr_transport := b_Transport b;
     rr_received_ip := Addr_String (ap_Addr (b_Received b)); rr_received_port := ap_Port (b_Received b);
     rr_user_agent := b_UserAgent b; rr_q := stored_q (b_Q b);
     rr_expires_at := stored_time (b_ExpiresAt b); rr_updated_at := stored_time (b_UpdatedAt b) |}.

(** UNIQUE KEY (tenant_id, aor, contact_hash) *)
Definition unique_key (r : RegRow) : string * string * list Z :=
  (collate (rr_tenant_id r), collate (rr_aor r), rr_contact_hash r).

(** [ON DUPLICATE KEY UPDATE]: the columns of the key and the contact stay. *)
Definition update_row (new old : RegRow) : RegRow :=
  mkRegRow (rr_registration_id new) (rr_tenant_id old) (rr_aor old) (rr_contact old) (rr_contact_hash old)
    (rr_route_target new) (rr_transport new) (rr_received_ip new) (rr_received_port new) (rr_user_agent new)
    (rr_q new) (rr_expires_at new) (rr_updated_at new).

(** A duplicate of the primary key is found before one of the unique key. *)
Definition insert_or_update (new : RegRow) (rows : list RegRow) : list RegRow :=
  let same_id r := String.eqb (rr_registration_id r) (rr_registration_id new) in
  let same_key r := bool_decide (unique_key r = unique_key new) in
  if existsb same_id rows then (fun r => if same_id r then update_row new r else r) <$> rows
  else if existsb same_key rows then (fun r => if same_key r then update_row new r else r) <$> rows
  else rows ++ [new].

(** What the statements of one [Upsert] report; [ue_scan n] for the n-th row. *)
Record UpsertEnv := mkUpsertEnv {
  ue_begin : option error; ue_query : option error; ue_scan : nat -> option error;
  ue_close : option error; ue_iterate : option error; ue_exec : option error; ue_commit : Outcome;
}.

(** The loop over the locked rows. *)
Fixpoint count_locked (scanErr : nat -> option error) (contact : string) (i : nat) (rows : list RegRow)
    (activeCount : Z) (contactExists : bool) : result (Z * bool) :=
  match rows with
  | [] => Ok (activeCount, contactExists)
  | r :: rest =>
      match scanErr i with
      | Some e => Err (Errorf "scan locked registration" [e])
      | None => count_locked scanErr contact (S i) rest (activeCount + 1)
                  (contactExists || String.eqb (rr_contact r) contact)
      end
  end.

Definition mysql_Upsert (env : UpsertEnv) (binding : Binding) (maxBindings : Z) (db : DB) : option error * DB :=
  match ue_begin env with
  | Some e => (Some (Errorf "begin registration transaction" [e]), db)
  | None =>
  match ue_query env with
  | Some e => (Some (Errorf "lock registration bindings" [e]), db)
  | None =>
  let locked := select_rows (active_row (b_TenantID binding) (b_AoR binding) (b_UpdatedAt binding)) (registrations db) in
  match count_locked (ue_scan env) (b_Contact binding) 0 locked 0 false with
  | Err e => (Some e, db)
  | Ok (activeCount, contactExists) =>
  match ue_close env, ue_iterate env with
  | Some e, _ => (Some (Errorf "close registration rows" [e]), db)
  | None, Some e => (Some (Errorf "iterate registration rows" [e]), db)
  | None, None =>
  if negb contactExists && (maxBindings <=? activeCount) then (Some (Sentinel ErrBindingLimit), db) else
  match ue_exec env with
  | Some e => (Some (Errorf "upsert registration" [e]), db)
  | None =>
      let db' := set_registrations (insert_or_update (row_of binding) (registrations db)) db in
      match ue_commit env with
      | Done => (None, db')
      | Failed e => (Some (Errorf "commit registration transaction" [e]), db)
      | Lost e => (Some (Errorf "commit registration transaction" [e]), db')
      end
  end end end end end.

(** A single statement outside a transaction. *)
Definition exec (out : Outcome) (msg : string) (db db' : DB) : option error * DB :=
  match out with
  | Done => (None, db')
  | Failed e => (Some (Errorf msg [e]), db)
  | Lost e => (Some (Errorf msg [e]), db')
  end.

Definition delete_rows (P : RegRow -> bool) (db : DB) : DB :=
  set_registrations (filter (fun r => P r = false) (registrations db)) db.

Definition mysql_Delete (out : Outcome) (tenantID : TenantID) (aor : AoR) (contact : string) (db : DB)
    : option error * DB :=
  exec out "delete registration" db
    (delete_rows (fun r => of_aor tenantID aor r && text_eq (rr_contact r) contact) db).

Definition mysql_DeleteAll (out : Outcome) (tenantID : TenantID) (aor : AoR) (db : DB) : option error * DB :=
  exec out "delete all registrations" db (delete_rows (of_aor tenantID aor) db).

(** One scanned row: its IP address is parsed again. *)
Definition binding_of (r : RegRow) : result Binding :=
  address ← wrap_err "parse stored received IP" (ParseAddr (rr_received_ip r));
  Ok {| b_ID := rr_registration_id r; b_TenantID := rr_tenant_id r; b_AoR := rr_aor r; b_Contact := rr_contact r;
        b_RouteTarget := rr_route_target r; b_Transport := rr_transport r;
        b_Received := AddrPortFrom address (rr_received_port r); b_UserAgent := rr_user_agent r; b_Q := rr_q r;
        b_ExpiresAt := rr_expires_at r; b_UpdatedAt := rr_updated_at r |}.

Fixpoint scan_bindings (scanErr : nat -> option error) (i : nat) (rows : list RegRow) : result (list Binding) :=
  match rows with
  | [] => Ok []
  | r :: rest =>
      match scanErr i with
      | Some e => Err (Errorf "scan active registration" [e])
      | None => b ← binding_of r; bs ← scan_bindings scanErr (S i) rest; Ok (b :: bs)
      end
  end.

Record ListEnv := mkListEnv { le_query : option error; le_scan : nat -> option error; le_iterate : option error }.

Definition mysql_ListActive (env : ListEnv) (tenantID : TenantID) (aor : AoR) (now : Time) (db : DB)
    : result (list Binding) :=
  match le_query env with
  | Some e => Err (Errorf "query active registrations" [e])
  | None =>
      bindings ← scan_bindings (le_scan env) 0 (select_rows (active_row tenantID aor now) (registrations db));
      match le_iterate env with
      | Some e => Err (Errorf "iterate active registrations" [e])
      | None => Ok bindings
      end
  end.

(** [rows]: the error of [RowsAffected]. *)
Definition mysql_DeleteExpired (out : Outcome) (rows : option error) (now : Time) (db : DB) : result Z * DB :=
  let db' := delete_rows (fun r => rr_expires_at r <=? bound_time now) db in
  match exec out "delete expired registrations" db db' with
  | (Some e, db) => (Err e, db)
  | (None, db') =>
      (match rows with
       | Some e => Err (Errorf "read deleted registration count" [e])
       | None => Ok (Z.of_nat (length (registrations db)) - Z.of_nat (length (registrations db')))
       end, db')
  end.

(** ** Call detail records *)

Definition answered_time (event : Call.Event) : option Time :=
  if Call.eqs (Call.ev_NewState event) Call.StateAnswered then Some (stored_time (Call.ev_OccurredAt event)) else None.
Definition ended_time (event : Call.Event) : option Time :=
  if Call.eqs (Call.ev_NewState event) Call.StateTerminated || Call.eqs (Call.ev_NewState event) Call.StateFailed
  then Some (stored_time (Call.ev_OccurredAt event)) else None.

Definition coalesce {A} (x y : option A) : option A := match x with Some _ => x | None => y end.

(** The INSERT into [calls] and its ON DUPLICATE KEY UPDATE. *)
Definition new_call_row (event : Call.Event) : CallRow :=
  mkCallRow (Call.ev_TenantID event) (Call.ev_NodeID event) (Call.ev_Direction event) (Call.ev_CallerLeg event)
    (Call.ev_CalleeLeg event) (Call.ev_NewState event) (stored_time (Call.ev_OccurredAt event))
    (answered_time event) (ended_time event) (Call.ev_Reason event) (stored_time (Call.ev_OccurredAt event)).

Definition update_call_row (event : Call.Event) (old : CallRow) : CallRow :=
  mkCallRow (cr_tenant_id old) (cr_node_id old) (cr_direction old) (cr_caller_leg_id old) (cr_callee_leg_id old)
    (Call.ev_NewState event) (cr_started_at old) (coalesce (cr_answered_at old) (answered_time event))
    (coalesce (ended_time event) (cr_ended_at old))
    (if text_eq (Call.ev_Reason event) "" then cr_cause old else Call.ev_Reason event)
    (stored_time (Call.ev_OccurredAt event)).

Definition upsert_call (event : Call.Event) (cs : gmap string CallRow) : gmap string CallRow :=
  <[Call.ev_CallID event :=
      match cs !! Call.ev_CallID event with Some old => update_call_row event old | None => new_call_row event end]> cs.

Definition event_row (event : Call.Event) : EventRow :=
  mkEventRow (Call.ev_CallID event) (Call.ev_Sequence event) (Call.ev_TenantID event) (Call.ev_LegID event)
    (Call.ev_NodeID event) (Call.ev_OldState event) (Call.ev_NewState event) (Call.ev_Reason event)
    (Call.ev_ProtocolEvent event) (stored_time (Call.ev_OccurredAt event)).

(** PRIMARY KEY (call_id, sequence) *)
Definition event_exists (event : Call.Event) (rows : list EventRow) : bool :=
  existsb (fun r => String.eqb (er_call_id r) (Call.ev_CallID event) && (er_sequence r =? Call.ev_Sequence event)) rows.

Record WriteEnv := mkWriteEnv {
  we_begin : option error; we_call : option error; we_event : option error; we_commit : Outcome;
}.

Definition mysql_WriteCallEvent (env : WriteEnv) (event : Call.Event) (db : DB) : option error * DB :=
  match we_begin env with
  | Some e => (Some (Errorf "begin call event transaction" [e]), db)
  | None =>
  match we_call env with
  | Some e => (Some (Errorf "upsert call CDR" [e]), db)
  | None =>
  if event_exists event (call_events db) then (Some (Errorf "insert call event" [Sentinel "duplicate entry"]), db) else
  match we_event env with
  | Some e => (Some (Errorf "insert call event" [e]), db)
  | None =>
      let db' := add_event_row (event_row event) (set_calls (upsert_call event (calls db)) db) in
      match we_commit env with
      | Done => (None, db')
      | Failed e => (Some (Errorf "commit call event transaction" [e]), db)
      | Lost e => (Some (Errorf "commit call event transaction" [e]), db')
      end
  end end end.

(** ** Quality samples *)

Definition Microseconds (d : Duration) : Z := go_div d Microsecond.

Definition leg_sample (l : LegSummary) : LegSample :=
  mkLegSample (st_Packets (ls_Inbound l)) (st_Bytes (ls_Inbound l)) (st_Lost (ls_Inbound l))
    (st_Reordered (ls_Inbound l)) (st_Duplicates (ls_Inbound l)) (st_JitterSamples (ls_Inbound l))
    (Microseconds (ls_RTT l)) (ls_TimedOut l).

Definition sample_row (s : Summary) : SampleRow :=
  mkSampleRow (sm_TenantID s) (sm_CallID s) (sm_MediaSessionID s) (sm_NodeID s) (sm_CallerLegID s) (sm_CalleeLegID s)
    (stored_time (sm_SampledAt s)) (leg_sample (sm_Caller s)) (leg_sample (sm_Callee s)) (sm_OneWay s)
    (sm_DroppedSummaries s).

Definition mysql_WriteMediaSummary (out : Outcome) (summary : Summary) (db : DB) : option error * DB :=
  exec out "insert media quality sample" db (add_sample_row (sample_row summary) db).


(** ** The registration table *)

Context `{!SqlLaws}.

(** The schema's keys, and the hash column as the code fills it. *)
Record table_ok (rows : list RegRow) : Prop := {
  tk_ids : NoDup (rr_registration_id <$> rows);
  tk_keys : NoDup (unique_key <$> rows);
  tk_hash : Forall (fun r => rr_contact_hash r = SHA256 (rr_contact r)) rows;
}.

Lemma key_map_middle (f : RegRow -> RegRow) (P : RegRow -> bool) l1 old l2 :
  Forall (fun r => P r = false) l1 -> P old = true -> Forall (fun r => P r = false) l2 ->
  ((fun r => if P r then f r else r) <$> (l1 ++ old :: l2)) = l1 ++ f old :: l2.
Proof.
  intros H1 Ho H2. rewrite fmap_app, fmap_cons, Ho.
  assert (Hid : forall l, Forall (fun r => P r = false) l -> ((fun r => if P r then f r else r) <$> l) = l).
  { induction 1 as [|r l Hr _ IH]; csimpl; [done|]. by rewrite Hr, IH. }
  by rewrite !Hid.
Qed.

(** An upsert with a fresh identifier adds a row or replaces one. *)
Lemma upsert_cases new rows :
  NoDup (unique_key <$> rows) -> rr_registration_id new ∉ rr_registration_id <$> rows ->
  (unique_key new ∉ unique_key <$> rows /\ insert_or_update new rows = rows ++ [new]) \/
  exists l1 old l2, rows = l1 ++ old :: l2 /\ unique_key old = unique_key new /\
    insert_or_update new rows = l1 ++ update_row new old :: l2.
Proof.
  intros Hnd Hid. unfold insert_or_update.
  destruct (existsb (fun r => String.eqb _ _) rows) eqn:Eid.
  { apply existsb_exists in Eid as (r & Hr & He). bool_prop. destruct Hid. rewrite <- He.
    apply list_elem_of_fmap_2. by apply list_elem_of_In. }
  clear Eid. destruct (existsb _ rows) eqn:Ek.
  - right. apply existsb_exists in Ek as (old & Hin & He). apply list_elem_of_In in Hin. bool_prop.
    apply list_elem_of_split in Hin as (l1 & l2 & ->). exists l1, old, l2. split_and!; [done|done|].
    rewrite fmap_app, fmap_cons in Hnd. apply NoDup_app in Hnd as (_ & Hd1 & Hd2). apply NoDup_cons in Hd2 as [Hd2 _].
    assert (Hne : forall r, r ∈ l1 \/ r ∈ l2 -> bool_decide (unique_key r = unique_key new) = false).
    { intros r Hr. apply bool_decide_eq_false. rewrite <- He. intros Hk. destruct Hr as [Hr|Hr].
      - apply (Hd1 (unique_key r)); [by apply list_elem_of_fmap_2|]. rewrite Hk. apply list_elem_of_here.
      - apply Hd2. rewrite <- Hk. by apply list_elem_of_fmap_2. }
    apply (key_map_middle (update_row new) (fun r => bool_decide (unique_key r = unique_key new)));
      [apply Forall_forall; eauto | by apply bool_decide_eq_true | apply Forall_forall; eauto].
  - left. split; [|done]. intros (r & Hk & Hr)%list_elem_of_fmap.
    enough (existsb (fun r => bool_decide (unique_key r = unique_key new)) rows = true) by congruence.
    apply existsb_exists. exists r. split; [by apply list_elem_of_In | by apply bool_decide_eq_true].
Qed.

Lemma upsert_table_ok new rows :
  table_ok rows -> rr_registration_id new ∉ rr_registration_id <$> rows ->
  rr_contact_hash new = SHA256 (rr_contact new) -> table_ok (insert_or_update new rows).
Proof.
  intros [H1 H2 H3] Hid Hh. destruct (upsert_cases new rows H2 Hid) as [[Hk ->]|(l1 & old & l2 & -> & Hk & ->)].
  - split.
    + rewrite fmap_app. apply NoDup_app. split_and!; [done| |apply NoDup_singleton].
      intros x Hx ->%list_elem_of_singleton. done.
    + rewrite fmap_app. apply NoDup_app. split_and!; [done| |apply NoDup_singleton].
      intros x Hx ->%list_elem_of_singleton. done.
    + apply Forall_app. split; [done | by constructor].
  - split.
    + rewrite fmap_app, fmap_cons in *. cbn. rewrite elem_of_app, elem_of_cons in Hid.
      apply NoDup_app in H1 as (N1 & N2 & [N3 N4]%NoDup_cons). apply NoDup_app. split_and!; [done| |].
      * intros x Hx [->|Hin]%elem_of_cons; [by destruct Hid; left|]. apply (N2 x Hx). by apply list_elem_of_further.
      * apply NoDup_cons. split; [naive_solver | done].
    + rewrite fmap_app, fmap_cons in *. exact H2.
    + apply Forall_app in H3 as [F1 [F2 F3]%Forall_cons]. apply Forall_app. split; [done|]. by constructor.
Qed.

Lemma count_locked_ok scanErr contact rows : forall i n ex n' ex',
  count_locked scanErr contact i rows n ex = Ok (n', ex') ->
  n' = n + Z.of_nat (length rows) /\ (ex' = true <-> ex = true \/ exists r, r ∈ rows /\ rr_contact r = contact).
Proof.
  induction rows as [|r rows IH]; intros i n ex n' ex'; cbn [count_locked].
  - intros [= <- <-]. split; [cbn; lia|]. split; [auto | intros [?|(r & Hr & _)]; [done | by apply elem_of_nil in Hr]].
  - destruct (scanErr i); [done|]. intros (-> & Hex)%IH. split; [cbn [length]; lia|].
    rewrite Hex, orb_true_iff, String.eqb_eq. setoid_rewrite elem_of_cons. naive_solver.
Qed.

(** The rows in force for one address of record. *)
Definition active_rows (t : TenantID) (a : AoR) (now : Time) (rows : list RegRow) : list RegRow :=
  filter (fun r => active_row t a now r = true) rows.

Lemma select_active t a now rows : select_rows (active_row t a now) rows ≡ₚ active_rows t a now rows.
Proof. apply scan_perm. Qed.

(** The ways a successful or lost [Upsert] gets there. *)
Lemma upsert_outcome env b n db err db' :
  mysql_Upsert env b n db = (err, db') ->
  (err <> None /\ db' = db) \/
  (exists ex, db' = set_registrations (insert_or_update (row_of b) (registrations db)) db /\
    (err <> None -> exists e, ue_commit env = Lost e) /\
    (ex = true <-> exists r, r ∈ active_rows (b_TenantID b) (b_AoR b) (b_UpdatedAt b) (registrations db) /\ rr_contact r = b_Contact b) /\
    (ex = false -> Z.of_nat (length (active_rows (b_TenantID b) (b_AoR b) (b_UpdatedAt b) (registrations db))) < n)).
Proof.
  unfold mysql_Upsert. destruct (ue_begin env); [intros [= <- <-]; by left|].
  destruct (ue_query env); [intros [= <- <-]; by left|].
  destruct (count_locked _ _ _ _ _ _) as [[cnt ex]|] eqn:Ec; [|intros [= <- <-]; by left].
  apply count_locked_ok in Ec as [-> Hex].
  setoid_rewrite select_active in Hex.
  destruct (ue_close env); [intros [= <- <-]; by left|]. destruct (ue_iterate env); [intros [= <- <-]; by left|].
  destruct (negb ex && _) eqn:El; [intros [= <- <-]; by left|]. destruct (ue_exec env); [intros [= <- <-]; by left|].
  rewrite select_active in El.
  intros Hout. assert (Hlim : ex = false ->
    Z.of_nat (length (active_rows (b_TenantID b) (b_AoR b) (b_UpdatedAt b) (registrations db))) < n).
  { intros ->. cbn in El. bool_prop. lia. }
  destruct (ue_commit env) as [|e|e]; injection Hout as <- <-; [right|by left|right];
    exists ex; split_and!; eauto; naive_solver.
Qed.

Lemma active_key b now r :
  active_row (b_TenantID b) (b_AoR b) now r = true -> rr_contact_hash r = SHA256 (rr_contact r) ->
  rr_contact r = b_Contact b -> unique_key r = unique_key (row_of b).
Proof.
  unfold active_row, of_aor, text_eq, unique_key. intros Ha Hh Hc.
  rewrite !andb_true_iff, !String.eqb_eq in Ha. destruct Ha as [[-> ->] _]. cbn. by rewrite Hh, Hc.
Qed.

Lemma active_rows_replace t a now l1 old new l2 :
  (length (active_rows t a now (l1 ++ new :: l2)) <= length (active_rows t a now (l1 ++ old :: l2)) +
     if active_row t a now old then 0 else 1)%nat.
Proof.
  unfold active_rows. rewrite !filter_app, !filter_cons, !length_app.
  repeat case_decide; destruct (active_row t a now old) eqn:Eo; cbn [length]; try congruence; lia.
Qed.

(** Claim C19. The binding limit of the MySQL store holds for every address of
    record: a table with at most [n] bindings in force has at most [n] after an
    [Upsert] with limit [n], whatever its outcome, expired bindings that are
    refreshed included; and the schema's unique keys are kept. *)
Theorem mysql_limit_holds env b n db err db' :
  table_ok (registrations db) -> b_ID b ∉ rr_registration_id <$> registrations db ->
  Z.of_nat (length (active_rows (b_TenantID b) (b_AoR b) (b_UpdatedAt b) (registrations db))) <= n ->
  mysql_Upsert env b n db = (err, db') ->
  table_ok (registrations db') /\
  Z.of_nat (length (active_rows (b_TenantID b) (b_AoR b) (b_UpdatedAt b) (registrations db'))) <= n.
Proof.
  intros Hok Hid Hn Hup. apply upsert_outcome in Hup as [[_ ->]|(ex & -> & _ & Hex & Hlim)]; [done|].
  cbn [set_registrations registrations].
  split; [by apply upsert_table_ok|]. destruct Hok as [_ Hk Hh]. rewrite Forall_forall in Hh.
  destruct (upsert_cases (row_of b) _ Hk Hid) as [[Hnew ->]|(l1 & old & l2 & Hrows & Heq & ->)].
  - assert (ex = false) as ->.
    { apply not_true_iff_false. rewrite Hex. intros (r & [Ha Hr]%list_elem_of_filter & Hc). apply Hnew.
      rewrite <- (active_key b _ r Ha (Hh r Hr) Hc). by apply list_elem_of_fmap_2. }
    specialize (Hlim eq_refl). unfold active_rows in *. rewrite filter_app, length_app, filter_cons.
    case_decide; cbn [length filter]; cbn; lia.
  - pose proof (active_rows_replace (b_TenantID b) (b_AoR b) (b_UpdatedAt b) l1 old (update_row (row_of b) old) l2) as Hrep.
    rewrite Hrows in *. destruct (active_row _ _ _ old) eqn:Eo; [lia|].
    assert (ex = false) as ->; [|specialize (Hlim eq_refl); lia].
    apply not_true_iff_false. rewrite Hex. intros (r & [Ha Hr]%list_elem_of_filter & Hc).
    assert (r = old) as ->; [|congruence].
    assert (Hkr : unique_key r = unique_key old) by (rewrite Heq; by eapply active_key; eauto).
    apply list_elem_of_lookup in Hr as [i Hi].
    assert (Ho : (l1 ++ old :: l2) !! length l1 = Some old) by by apply list_lookup_middle.
    assert (i = length l1) as ->; [|congruence].
    apply (NoDup_lookup _ i (length l1) (unique_key old) Hk); rewrite list_lookup_fmap; [by rewrite Hi; cbn; rewrite Hkr | by rewrite Ho].
Qed.

(** ** Refinement of a finite map *)

Definition row_key (r : RegRow) : bindingKey := (rr_tenant_id r, rr_aor r, rr_contact r).

Definition row_entry (r : RegRow) : option (bindingKey * Binding) :=
  match binding_of r with Ok b => Some (row_key r, b) | Err _ => None end.

Definition table_view (rows : list RegRow) : gmap bindingKey Binding := list_to_map (omap row_entry rows).

Lemma row_keys_NoDup rows : table_ok rows -> NoDup (row_key <$> rows).
Proof.
  intros [_ Hk Hh]. induction rows as [|r rows IH]; csimpl in *; [constructor|].
  apply NoDup_cons in Hk as [Hn Hk]. apply Forall_cons in Hh as [Hr Hh]. apply NoDup_cons. split; [|by apply IH].
  intros (r' & Heq & Hin)%list_elem_of_fmap. apply Hn. apply list_elem_of_fmap. exists r'. split; [|done].
  rewrite Forall_forall in Hh. unfold row_key in Heq. injection Heq as E1 E2 E3.
  unfold unique_key. by rewrite Hr, (Hh r' Hin), E1, E2, E3.
Qed.

Lemma entry_keys_sublist rows : (omap row_entry rows).*1 `sublist_of` row_key <$> rows.
Proof.
  induction rows as [|r rows IH]; csimpl; [constructor|]. unfold row_entry at 1.
  destruct (binding_of r); csimpl; by constructor.
Qed.

Lemma table_view_lookup rows k b : table_ok rows ->
  table_view rows !! k = Some b <-> exists r, r ∈ rows /\ row_key r = k /\ binding_of r = Ok b.
Proof.
  intros Hok. unfold table_view. rewrite <- elem_of_list_to_map.
  2:{ eapply sublist_NoDup; [by apply row_keys_NoDup | apply entry_keys_sublist]. }
  rewrite list_elem_of_omap. unfold row_entry. split.
  - intros (r & Hr & He). destruct (binding_of r) eqn:E; [|done]. injection He as <- <-. eauto.
  - intros (r & Hr & <- & Hb). exists r. by rewrite Hb.
Qed.

Lemma NoDup_fmap_filter {A B} (f : A -> B) (P : A -> Prop) `{!forall x, Decision (P x)} (l : list A) :
  NoDup (f <$> l) -> NoDup (f <$> filter P l).
Proof.
  induction l as [|x l IH]; csimpl; [done|]. intros [Hn Hd]%NoDup_cons. rewrite filter_cons. case_decide; [|by auto].
  csimpl. apply NoDup_cons. split; [|by auto]. intros (y & Hf & [_ Hy]%list_elem_of_filter)%list_elem_of_fmap.
  apply Hn. rewrite Hf. by apply list_elem_of_fmap_2.
Qed.

Lemma filter_table_ok P rows : table_ok rows -> table_ok (filter (fun r => P r = false) rows).
Proof.
  intros [H1 H2 H3]. split.
  - by apply NoDup_fmap_filter.
  - by apply NoDup_fmap_filter.
  - apply Forall_forall. intros r [_ Hr]%list_elem_of_filter. rewrite Forall_forall in H3. auto.
Qed.

Lemma table_view_filter P (Q : bindingKey * Binding -> Prop) `{!forall x, Decision (Q x)} rows :
  table_ok rows ->
  (forall r b, r ∈ rows -> binding_of r = Ok b -> P r = false <-> Q (row_key r, b)) ->
  table_view (filter (fun r => P r = false) rows) = filter Q (table_view rows).
Proof.
  intros Hok HP. apply map_eq. intros k. apply option_eq. intros b.
  rewrite map_lookup_filter_Some, !table_view_lookup by auto using filter_table_ok.
  setoid_rewrite list_elem_of_filter. split.
  - intros (r & [HPr Hr] & <- & Hb). split; [by exists r | by apply (HP r b)].
  - intros [(r & Hr & <- & Hb) HQ]. exists r. split_and!; auto. by apply (HP r b).
Qed.

(** A binding whose values the columns keep unchanged. *)
Definition storable (b : Binding) : Prop := binding_of (row_of b) = Ok b.

Lemma binding_of_ids r b : binding_of r = Ok b -> row_key r = key_of b /\ rr_expires_at r = b_ExpiresAt b.
Proof. unfold binding_of. destruct (ParseAddr _); cbn; [|done]. by intros [= <-]. Qed.

Section Binary.
(** A binary collation: only equal texts compare equal. *)
Context `{!Inj (=) (=) collate}.

Lemma text_eq_spec a b : text_eq a b = true <-> a = b.
Proof. unfold text_eq. rewrite String.eqb_eq. split; [apply (inj _) | by intros ->]. Qed.

Lemma text_eq_false a b : text_eq a b = false <-> a <> b.
Proof. rewrite <- not_true_iff_false, text_eq_spec. done. Qed.

Lemma of_aor_spec t a r : of_aor t a r = true <-> (row_key r).1 = (t, a).
Proof. unfold of_aor, row_key. rewrite andb_true_iff, !text_eq_spec. cbn. naive_solver. Qed.

Lemma unique_key_row_key r b : rr_contact_hash r = SHA256 (rr_contact r) ->
  unique_key r = unique_key (row_of b) <-> row_key r = key_of b.
Proof.
  intros Hh. unfold unique_key, row_key, key_of. cbn. rewrite Hh. split; [|by intros [= -> -> ->]].
  intros [= E1 E2 E3]. apply (inj collate) in E1, E2. apply (@inj _ _ _ _ _ SHA256_inj) in E3. by rewrite E1, E2, E3.
Qed.

Lemma update_row_same r b : row_key r = key_of b -> rr_contact_hash r = SHA256 (rr_contact r) ->
  update_row (row_of b) r = row_of b.
Proof. unfold row_key, key_of, update_row, row_of. intros [= E1 E2 E3] ->. cbn. by rewrite E1, E2, E3. Qed.

(** Members of the table after an upsert. *)
Lemma upsert_elem b rows r : table_ok rows -> b_ID b ∉ rr_registration_id <$> rows ->
  r ∈ insert_or_update (row_of b) rows <-> r = row_of b \/ (r ∈ rows /\ row_key r <> key_of b).
Proof.
  intros [_ Hk Hh] Hid. rewrite Forall_forall in Hh.
  destruct (upsert_cases (row_of b) rows Hk Hid) as [[Hnew ->]|(l1 & old & l2 & -> & Heq & ->)].
  - rewrite elem_of_app, list_elem_of_singleton. split; [|naive_solver]. intros [Hr|Hr]; [right|by left].
    split; [done|]. intros Hc. apply Hnew. apply (unique_key_row_key r b (Hh r Hr)) in Hc. rewrite <- Hc.
    by apply list_elem_of_fmap_2.
  - assert (Ho : rr_contact_hash old = SHA256 (rr_contact old)) by (apply Hh; rewrite elem_of_app, elem_of_cons; auto).
    apply unique_key_row_key in Heq as Hko; [|done]. rewrite (update_row_same old b Hko Ho).
    rewrite fmap_app, fmap_cons in Hk. apply NoDup_app in Hk as (_ & Hd1 & Hd2). apply NoDup_cons in Hd2 as [Hd2 _].
    assert (Hne : forall x, x ∈ l1 \/ x ∈ l2 -> row_key x <> key_of b).
    { intros x Hx Hc. assert (Hxr : rr_contact_hash x = SHA256 (rr_contact x))
        by (apply Hh; rewrite elem_of_app, elem_of_cons; naive_solver).
      apply (unique_key_row_key x b Hxr) in Hc. rewrite <- Heq in Hc. destruct Hx as [Hx|Hx].
      - apply (Hd1 (unique_key x)); [by apply list_elem_of_fmap_2|]. rewrite Hc. apply list_elem_of_here.
      - apply Hd2. rewrite <- Hc. by apply list_elem_of_fmap_2. }
    rewrite !elem_of_app, !elem_of_cons. naive_solver.
Qed.

(** [kept] is the binding as the columns keep it. *)
Lemma upsert_view b kept rows : table_ok rows -> b_ID b ∉ rr_registration_id <$> rows -> binding_of (row_of b) = Ok kept ->
  table_view (insert_or_update (row_of b) rows) = <[key_of b := kept]> (table_view rows).
Proof.
  intros Hok Hid Hst. assert (Hok' : table_ok (insert_or_update (row_of b) rows)) by by apply upsert_table_ok.
  apply map_eq. intros k. apply option_eq. intros b'. rewrite lookup_insert_Some, !table_view_lookup by done.
  setoid_rewrite upsert_elem; [|done..]. split.
  - intros (r & [-> |[Hr Hne]] & <- & Hb); [left|right].
    + split; [done|]. congruence.
    + split; [congruence|]. eauto.
  - intros [[<- <-]|[Hne (r & Hr & <- & Hb)]]; [by exists (row_of b); auto|]. exists r. split_and!; auto.
Qed.

Lemma scan_bindings_ok scanErr rows : forall i l, scan_bindings scanErr i rows = Ok l ->
  Forall2 (fun r b => binding_of r = Ok b) rows l.
Proof.
  induction rows as [|r rows IH]; intros i l; cbn [scan_bindings]; [by intros [= <-]|].
  destruct (scanErr i); [done|]. destruct (binding_of r) as [b|] eqn:Eb; cbn; [|done].
  destruct (scan_bindings _ _ rows) as [bs|] eqn:Es; cbn; [|done]. intros [= <-]. constructor; eauto.
Qed.

Lemma entries_values rows l : Forall2 (fun r b => binding_of r = Ok b) rows l -> (omap row_entry rows).*2 = l.
Proof.
  induction 1 as [|r b rows l Hb _ IH]; [done|]. csimpl. unfold row_entry at 1. rewrite Hb. csimpl. by rewrite IH.
Qed.

(** The bindings [ListActive] returns are the active values of the view. *)
Lemma list_view env t a now db l :
  table_ok (registrations db) -> mysql_ListActive env t a now db = Ok l ->
  l ≡ₚ (map_to_list (active t a (bound_time now) (table_view (registrations db)))).*2.
Proof.
  intros Hok. unfold mysql_ListActive. destruct (le_query env); [done|].
  destruct (scan_bindings _ _ _) as [bs|] eqn:Es; cbn; [|done]. destruct (le_iterate env); [done|]. intros [= ->].
  apply scan_bindings_ok, entries_values in Es. rewrite <- Es.
  rewrite (select_active t a now (registrations db)). apply fmap_Permutation, NoDup_Permutation.
  - apply (NoDup_fmap_1 fst). eapply sublist_NoDup; [|apply entry_keys_sublist].
    apply NoDup_fmap_filter, row_keys_NoDup, Hok.
  - apply NoDup_map_to_list.
  - intros [k b]. rewrite elem_of_map_to_list, active_lookup, table_view_lookup, list_elem_of_omap by done.
    unfold active_rows, row_entry. setoid_rewrite list_elem_of_filter. unfold active_row.
    setoid_rewrite andb_true_iff. setoid_rewrite of_aor_spec. setoid_rewrite Z.ltb_lt. split.
    + intros (r & [[Hk He] Hr] & Hb). destruct (binding_of r) as [b'|] eqn:Eb; [|done]. injection Hb as <- <-.
      destruct (binding_of_ids _ _ Eb) as [_ Hexp]. rewrite <- Hexp. split_and!; [by exists r | done | done].
    + intros ((r & Hr & <- & Hb) & Hk & He). exists r. rewrite Hb. destruct (binding_of_ids _ _ Hb) as [_ Hexp].
      rewrite Hexp. done.
Qed.

Lemma delete_view t a c rows : table_ok rows ->
  table_view (filter (fun r => of_aor t a r && text_eq (rr_contact r) c = false) rows)
  = base.delete (t, a, c) (table_view rows).
Proof.
  intros Hok. rewrite (table_view_filter _ (fun kb => kb.1 <> (t, a, c)) rows Hok).
  - apply map_eq. intros k. apply option_eq. intros b. rewrite map_lookup_filter_Some, lookup_delete_Some. cbn. naive_solver.
  - intros r b Hr _. rewrite <- not_true_iff_false, andb_true_iff, of_aor_spec, text_eq_spec. cbn. unfold row_key. cbn.
    split; intros Hn Hx; apply Hn; [by injection Hx as -> -> -> | by destruct Hx as [[= -> ->] ->]].
Qed.

Lemma deleteAll_view t a rows : table_ok rows ->
  table_view (filter (fun r => of_aor t a r = false) rows) = filter (fun kb => ~ belongs t a kb) (table_view rows).
Proof.
  intros Hok. apply table_view_filter; [done|]. intros r b Hr _.
  rewrite <- not_true_iff_false, of_aor_spec. done.
Qed.

Lemma deleteExpired_view now rows : table_ok rows ->
  table_view (filter (fun r => rr_expires_at r <=? bound_time now = false) rows)
  = filter (live (bound_time now)) (table_view rows).
Proof.
  intros Hok. apply table_view_filter; [done|]. intros r b Hr Hb. destruct (binding_of_ids _ _ Hb) as [_ He].
  rewrite Z.leb_gt, He. done.
Qed.

(** Claim C6. With a binary collation the MySQL store implements the
    registration store's contract on its table: [Upsert] of a binding the columns
    can hold, with an identifier that is new, inserts it, [Delete] and [DeleteAll]
    remove exactly the named bindings, [ListActive] returns exactly those in force,
    [DeleteExpired] keeps exactly those (both for a time the driver does not round);
    a reported error of [Upsert] leaves the database as it was unless the commit
    itself was lost; and the schema's keys are kept throughout. *)
Theorem mysql_refines_map db :
  table_ok (registrations db) ->
  (forall env b n err db', b_ID b ∉ rr_registration_id <$> registrations db -> storable b ->
     mysql_Upsert env b n db = (err, db') ->
     table_ok (registrations db') /\
     match err with
     | None => table_view (registrations db') = <[key_of b := b]> (table_view (registrations db))
     | Some _ => db' = db \/ exists e, ue_commit env = Lost e
     end) /\
  (forall out t a c db', mysql_Delete out t a c db = (None, db') ->
     table_ok (registrations db') /\
     table_view (registrations db') = base.delete (t, a, c) (table_view (registrations db))) /\
  (forall out t a db', mysql_DeleteAll out t a db = (None, db') ->
     table_ok (registrations db') /\
     table_view (registrations db') = filter (fun kb => ~ belongs t a kb) (table_view (registrations db))) /\
  (forall env t a now l, bound_time now = now -> mysql_ListActive env t a now db = Ok l ->
     l ≡ₚ (map_to_list (active t a now (table_view (registrations db)))).*2) /\
  (forall out rows now n db', bound_time now = now -> mysql_DeleteExpired out rows now db = (Ok n, db') ->
     table_ok (registrations db') /\
     table_view (registrations db') = filter (live now) (table_view (registrations db)) /\
     n = Z.of_nat (length (registrations db)) - Z.of_nat (length (registrations db'))).
Proof.
  intros Hok. split_and!.
  - intros env b n err db' Hid Hst Hup. apply upsert_outcome in Hup as [[Hne ->]|(ex & -> & Hlost & _)].
    + split; [done|]. destruct err; [by left | done].
    + cbn. split; [by apply upsert_table_ok|]. destruct err; [right; by apply Hlost | by apply upsert_view].
  - intros out t a c db' Hd. destruct out; cbn in Hd; simplify_eq. cbn. split; [by apply filter_table_ok | by apply delete_view].
  - intros out t a db' Hd. destruct out; cbn in Hd; simplify_eq. cbn. split; [by apply filter_table_ok | by apply deleteAll_view].
  - intros env t a now l Hbt Hl. rewrite <- Hbt. by eapply list_view.
  - intros out rows now n db' Hbt Hd. unfold mysql_DeleteExpired in Hd. destruct out, rows; cbn in Hd; simplify_eq.
    cbn. split_and!; [by apply filter_table_ok | etrans; [by apply deleteExpired_view | by rewrite Hbt] | done].
Qed.

End Binary.

(** ** Call detail records: what a row says of the events written *)

(** The summary of a call's events, newest last. *)
Definition last_some {A} (f : Call.Event -> option A) (log : list Call.Event) : option A :=
  last (omap f log).

Definition cause_of (e : Call.Event) : option string :=
  if text_eq (Call.ev_Reason e) "" then None else Some (Call.ev_Reason e).

Definition cdr_of (first : Call.Event) (rest : list Call.Event) : CallRow :=
  let log := first :: rest in
  {| cr_tenant_id := Call.ev_TenantID first; cr_node_id := Call.ev_NodeID first;
     cr_direction := Call.ev_Direction first; cr_caller_leg_id := Call.ev_CallerLeg first;
     cr_callee_leg_id := Call.ev_CalleeLeg first;
     cr_state := default (Call.ev_NewState first) (last (Call.ev_NewState <$> log));
     cr_started_at := stored_time (Call.ev_OccurredAt first);
     cr_answered_at := head (omap answered_time log);
     cr_ended_at := last_some ended_time log;
     cr_cause := default (Call.ev_Reason first) (last_some cause_of log);
     cr_updated_at := stored_time (default (Call.ev_OccurredAt first) (last (Call.ev_OccurredAt <$> log))) |}.

Lemma last_omap_snoc {A} (f : Call.Event -> option A) log e :
  last (omap f (log ++ [e])) = coalesce (f e) (last (omap f log)).
Proof. rewrite omap_app. cbn. destruct (f e); cbn; [by rewrite last_snoc | by rewrite app_nil_r]. Qed.

Lemma head_omap_snoc {A} (f : Call.Event -> option A) log e :
  head (omap f (log ++ [e])) = coalesce (head (omap f log)) (f e).
Proof. rewrite omap_app. cbn. by destruct (omap f log), (f e). Qed.

(** One more event updates the summary as the statement updates the row. *)
Lemma cdr_snoc first rest e : update_call_row e (cdr_of first rest) = cdr_of first (rest ++ [e]).
Proof.
  unfold update_call_row, cdr_of, last_some. cbn [cr_tenant_id cr_node_id cr_direction cr_caller_leg_id cr_callee_leg_id
    cr_started_at cr_answered_at cr_ended_at cr_cause].
  rewrite !app_comm_cons, head_omap_snoc, !last_omap_snoc, !fmap_app. cbn [fmap list_fmap]. rewrite !last_snoc. cbn.
  f_equal. change (cause_of e) with (if text_eq (Call.ev_Reason e) "" then None else Some (Call.ev_Reason e)).
  by destruct (text_eq (Call.ev_Reason e) "").
Qed.

(** Writing a log, one event after the other; the first error stops the writer. *)
Fixpoint write_log (envs : nat -> WriteEnv) (i : nat) (log : list Call.Event) (db : DB) : option error * DB :=
  match log with
  | [] => (None, db)
  | e :: rest =>
      match mysql_WriteCallEvent (envs i) e db with
      | (Some err, db) => (Some err, db)
      | (None, db) => write_log envs (S i) rest db
      end
  end.

Definition event_written (e : Call.Event) (db : DB) : DB :=
  add_event_row (event_row e) (set_calls (upsert_call e (calls db)) db).

(** A failed write leaves no trace, unless it is the reply to the commit that was
    lost. *)
Lemma write_event_outcome env e db err db' : mysql_WriteCallEvent env e db = (err, db') ->
  db' = event_written e db \/ err <> None /\ db' = db.
Proof.
  unfold mysql_WriteCallEvent. destruct (we_begin env); [by intros [= <- <-]; right|].
  destruct (we_call env); [by intros [= <- <-]; right|]. destruct (event_exists _ _); [by intros [= <- <-]; right|].
  destruct (we_event env); [by intros [= <- <-]; right|]. destruct (we_commit env); intros [= <- <-]; auto.
Qed.

(** The rows of one call while its log is written. *)
Definition records (id : string) (first : Call.Event) (rest : list Call.Event) (db db' : DB) : Prop :=
  calls db' = <[id := cdr_of first rest]> (calls db) /\
  call_events db' = call_events db ++ (event_row <$> first :: rest) /\
  registrations db' = registrations db /\ sip_credentials db' = sip_credentials db /\
  media_quality_samples db' = media_quality_samples db.

Lemma records_first e db : calls db !! Call.ev_CallID e = None -> records (Call.ev_CallID e) e [] db (event_written e db).
Proof.
  intros Hnone. split_and!; cbn; auto. unfold upsert_call. rewrite Hnone. f_equal.
  unfold cdr_of, last_some, new_call_row. cbn.
  change (cause_of e) with (if text_eq (Call.ev_Reason e) "" then None else Some (Call.ev_Reason e)).
  by destruct (answered_time e), (ended_time e), (text_eq (Call.ev_Reason e) "").
Qed.

Lemma records_snoc first rest e db db' : records (Call.ev_CallID e) first rest db db' ->
  records (Call.ev_CallID e) first (rest ++ [e]) db (event_written e db').
Proof.
  intros (R1 & R2 & R3 & R4 & R5). split_and!; cbn; auto.
  - unfold upsert_call. rewrite R1, lookup_insert_eq, insert_insert_eq, cdr_snoc. done.
  - rewrite R2, <- app_assoc. f_equal. cbn. f_equal. by rewrite fmap_app.
Qed.

(** Whatever fails, the rows are those of the events written so far. *)
Lemma write_log_records id envs first rest : forall i done db db' err db'',
  Forall (fun e => Call.ev_CallID e = id) rest -> records id first done db db' ->
  write_log envs i rest db' = (err, db'') ->
  exists written left, rest = written ++ left /\ (err = None -> left = []) /\ records id first (done ++ written) db db''.
Proof.
  induction rest as [|e rest IH]; intros i done db db' err db'' Hid Hrec; cbn [write_log].
  { intros [= <- <-]. exists [], []. split_and!; [done | done | by rewrite app_nil_r]. }
  apply Forall_cons in Hid as [<- Hid]. destruct (mysql_WriteCallEvent _ e db') as [r db1] eqn:Ew.
  apply write_event_outcome in Ew as [-> | [Hr ->]].
  - apply records_snoc in Hrec. destruct r as [x|].
    + intros [= <- <-]. by exists [e], rest.
    + intros Hw. destruct (IH _ _ _ _ _ _ Hid Hrec Hw) as (w & l & -> & Hl & Hr). exists (e :: w), l.
      split_and!; [done|done|]. by rewrite <- app_assoc in Hr.
  - destruct r as [x|]; [|done]. intros [= <- <-]. exists [], (e :: rest). split_and!; [done | intros [=] | by rewrite app_nil_r].
Qed.

(** A whole log of a call that has no row yet. *)
Lemma write_log_cdr envs first rest db err db' :
  Forall (fun e => Call.ev_CallID e = Call.ev_CallID first) rest -> calls db !! Call.ev_CallID first = None ->
  write_log envs 0 (first :: rest) db = (err, db') ->
  err <> None /\ db' = db \/
  exists written left, rest = written ++ left /\ (err = None -> left = []) /\
    records (Call.ev_CallID first) first written db db'.
Proof.
  intros Hid Hnone. cbn [write_log]. destruct (mysql_WriteCallEvent _ first db) as [r db1] eqn:Ew.
  apply write_event_outcome in Ew as [-> | [Hr ->]].
  - apply records_first in Hnone as Hrec. destruct r as [x|]; intros Hw; right.
    + injection Hw as <- <-. by exists [], rest.
    + by eapply (write_log_records _ envs first rest 1 []).
  - destruct r as [x|]; [|done]. intros [= <- <-]. by left.
Qed.

(** Claim C22. The call detail record of a call is the summary of its events:
    when the events of a call are written in order without error, its row has the
    last event's state, the first event's time as start, the first time the call
    was answered, the last time it ended, the last cause given, and every event
    is kept in order; no other call's row and no other table changes. *)
Theorem cdr_summarises_log envs first rest db db' :
  Forall (fun e => Call.ev_CallID e = Call.ev_CallID first) rest -> calls db !! Call.ev_CallID first = None ->
  write_log envs 0 (first :: rest) db = (None, db') ->
  calls db' = <[Call.ev_CallID first := cdr_of first rest]> (calls db) /\
  call_events db' = call_events db ++ (event_row <$> first :: rest) /\
  registrations db' = registrations db /\ sip_credentials db' = sip_credentials db /\
  media_quality_samples db' = media_quality_samples db.
Proof.
  intros Hid Hnone Hw. destruct (write_log_cdr envs first rest db None db' Hid Hnone Hw) as [[? _]|(written & left & -> & Hl & Hr)];
    [done|]. rewrite Hl, app_nil_r by done. exact Hr.
Qed.

End Store.

(** ** Concrete servers *)

(** A server with a binary collation that keeps every value, and one that folds
    the case of ASCII letters, as the default collation of MySQL 8 does. *)
Definition binary_server : SqlServer :=
  {| collate s := s; stored_time t := t; bound_time t := t; stored_q q := q;
     SHA256 s := [Zpos (encode s)]; scan rows := rows |}.
Definition folding_server : SqlServer :=
  {| collate := ToLower; stored_time t := t; bound_time t := t; stored_q q := q;
     SHA256 s := [Zpos (encode s)]; scan rows := rows |}.

#[export] Instance binary_laws : @SqlLaws binary_server.
Proof. split; [intros a b [= E]; by apply (inj encode) | done]. Defined.

#[export] Instance binary_collation : Inj (=) (=) (@collate binary_server).
Proof. by intros a b. Defined.

Definition phone (id contact : string) (until : Time) : Binding :=
  {| b_ID := id; b_TenantID := "t1"; b_AoR := "sip:alice@example.com"; b_Contact := contact;
     b_RouteTarget := "192.0.2.1:5060"; b_Transport := "UDP"; b_Received := AddrPortFrom (Addr4 3221225985) 5060;
     b_UserAgent := "phone"; b_Q := b_Q zeroBinding; b_ExpiresAt := until; b_UpdatedAt := 10 |}.

Definition upsert_done : UpsertEnv := mkUpsertEnv None None (fun _ => None) None None None Done.

Definition sample_db : DB :=
  mkDB [] [@row_of binary_server (phone "r1" "sip:alice@192.0.2.1" 100);
           @row_of binary_server (phone "r2" "sip:alice@192.0.2.2" 5)] ∅ [] [].

Lemma sample_table_ok : @table_ok binary_server (registrations sample_db).
Proof.
  split; [apply (bool_decide_unpack _); vm_compute; exact I
         |apply (bool_decide_unpack _); vm_compute; exact I | by repeat constructor].
Qed.

(** The second binding has expired, so one is in force: with a limit of one a
    third contact is refused, with a limit of two it is stored. *)
Lemma mysql_limit_holds_witness : exists err db',
  @mysql_Upsert binary_server upsert_done (phone "r3" "sip:alice@192.0.2.3" 200) 2 sample_db = (err, db') /\
  length (registrations db') = 3%nat /\ @table_ok binary_server (registrations db').
Proof.
  do 2 eexists. split; [vm_compute; reflexivity|]. split; [reflexivity|].
  eapply (@mysql_limit_holds binary_server binary_laws upsert_done (phone "r3" "sip:alice@192.0.2.3" 200) 2 sample_db).
  - exact sample_table_ok.
  - apply (bool_decide_unpack _). vm_compute. exact I.
  - vm_compute. discriminate.
  - vm_compute. reflexivity.
Defined.

(** Deregistering the first phone leaves exactly the second. *)
Lemma mysql_refines_map_witness : exists db',
  @mysql_Delete binary_server Done "t1" "sip:alice@example.com" "sip:alice@192.0.2.1" sample_db = (None, db') /\
  table_view (registrations db') =
    base.delete ("t1", "sip:alice@example.com", "sip:alice@192.0.2.1") (table_view (registrations sample_db)).
Proof.
  eexists. split; [reflexivity|].
  destruct (@mysql_refines_map binary_server binary_laws binary_collation sample_db sample_table_ok) as (_ & D & _).
  eapply (D Done). reflexivity.
Defined.

Definition call_move (i : Z) (s : string) : Call.Event :=
  Call.mkEvent i "t1" "call" "" "n1" "leg1" "leg2" "inbound" "" s "" "" (i * 10).
Definition call_moves : list Call.Event := [call_move 2 "answered"; call_move 3 "terminated"].

Lemma cdr_summarises_log_witness :
  let '(err, db') := @write_log binary_server (fun _ => mkWriteEnv None None None Done) 0
                       (call_move 1 "created" :: call_moves) sample_db in
  err = None /\ calls db' = <["call" := @cdr_of binary_server (call_move 1 "created") call_moves]> ∅ /\
  cr_answered_at (@cdr_of binary_server (call_move 1 "created") call_moves) = Some 20.
Proof.
  destruct (@write_log binary_server _ 0 _ sample_db) as [err db'] eqn:E.
  assert (err = None) as -> by (vm_compute in E; congruence). split; [done|]. split; [|reflexivity].
  apply (@cdr_summarises_log binary_server) in E; [exact (proj1 E) | by repeat constructor | reflexivity].
Defined.

(** Contacts that differ only in case are two bindings: their hashes differ.  A
    DELETE of one of them compares the contacts themselves, and with a collation
    that folds case it removes both. *)
Theorem folding_delete_removes_both :
  let upper := phone "r1" "sip:alice@HOST" 100 in
  let lower := phone "r2" "sip:alice@host" 100 in
  let '(err1, db1) := @mysql_Upsert folding_server upsert_done upper 4 (mkDB [] [] ∅ [] []) in
  let '(err2, db2) := @mysql_Upsert folding_server upsert_done lower 4 db1 in
  let '(err3, db3) := @mysql_Delete folding_server Done "t1" "sip:alice@example.com" "sip:alice@HOST" db2 in
  (err1, err2, err3) = (None, None, None) /\ length (registrations db2) = 2%nat /\ registrations db3 = [].
Proof. vm_compute. auto. Qed.
