(* ===== verification/CallRecords.v ===== *)
(** * Call records: from the actor to the database

    Composes [core/call], [event] and [platform/mysql]: the events a call's actor
    publishes, written by the store in the order the bus delivers them until a write
    fails, give a call detail record that agrees with the events written and, when
    none failed, with the actor. *)

From S2P Require Import Prelude Registration MysqlStore.
From S2P Require Import Call.

(** Events of one path: only the last one can end the call. *)
Lemma chain_ended s log t : chain s log t -> isTerminal s = false ->
  isTerminal t = true <-> exists e, e ∈ log /\ isTerminal (ev_NewState e) = true.
Proof.
  intros Hch Hs. induction Hch as [|log t e Hch IH Hold Hal].
  - rewrite Hs. split; [done|]. intros (e & He & _). by apply elem_of_nil in He.
  - apply terminal_allowed_from in Hal as Ht. destruct IH as [_ IH]. setoid_rewrite elem_of_app.
    setoid_rewrite list_elem_of_singleton. split; [by eauto|]. intros (x & [Hx|Hx] & Hxt).
    + rewrite IH in Ht by eauto. done.
    + by subst x.
Qed.

Lemma chain_last s log t : chain s log t -> log <> [] -> last (ev_NewState <$> log) = Some t.
Proof. intros [|log' t' e _ _ _]; [done|]. intros _. rewrite fmap_app. apply last_snoc. Qed.

Section Records.
Context `{SqlServer}.

Lemma ended_time_terminal e : ended_time e <> None <-> isTerminal (ev_NewState e) = true.
Proof. unfold ended_time, isTerminal. by destruct (_ || _). Qed.

Lemma last_some_exists {A} (f : Event -> option A) log : last_some f log <> None <-> exists e, e ∈ log /\ f e <> None.
Proof.
  unfold last_some. split.
  - intros Hl. destruct (last (omap f log)) as [x|] eqn:E; [|done].
    apply last_Some_elem_of, list_elem_of_omap in E as (e & He & Hf). exists e. split; [done | congruence].
  - intros (e & He & Hf) Hl%last_None. destruct (f e) as [x|] eqn:E; [|done].
    assert (Hx : x ∈ omap f log) by (apply list_elem_of_omap; eauto). rewrite Hl in Hx. by apply elem_of_nil in Hx.
Qed.

Lemma head_some_exists {A} (f : Event -> option A) log : head (omap f log) <> None <-> exists e, e ∈ log /\ f e <> None.
Proof.
  rewrite <- last_some_exists. unfold last_some. destruct (omap f log) as [|x l]; [done|]. cbn.
  split; [|done]. intros _ Hl%last_None. done.
Qed.

(** A write none of whose statements fails. *)
Definition succeeds (env : WriteEnv) : Prop :=
  we_begin env = None /\ we_call env = None /\ we_event env = None /\ we_commit env = Done.

Lemma event_exists_spec e rows : event_exists e rows = true <->
  exists r, r ∈ rows /\ er_call_id r = ev_CallID e /\ er_sequence r = ev_Sequence e.
Proof.
  unfold event_exists. rewrite existsb_exists. setoid_rewrite andb_true_iff. setoid_rewrite String.eqb_eq.
  setoid_rewrite Z.eqb_eq. setoid_rewrite list_elem_of_In. done.
Qed.

(** Distinct sequence numbers never clash with the primary key. *)
Lemma write_log_succeeds id envs log : forall i db,
  Forall (fun e => ev_CallID e = id) log -> NoDup (ev_Sequence <$> log) ->
  (forall r e, r ∈ call_events db -> e ∈ log -> er_call_id r = id -> er_sequence r <> ev_Sequence e) ->
  (forall k, (k < length log)%nat -> succeeds (envs (i + k)%nat)) ->
  (write_log envs i log db).1 = None.
Proof.
  induction log as [|e log IH]; intros i db Hid Hnd Hfree Henv; cbn [write_log]; [done|].
  apply Forall_cons in Hid as [He Hid]. rewrite fmap_cons in Hnd. apply NoDup_cons in Hnd as [Hn Hnd].
  destruct (Henv 0%nat) as (E1 & E2 & E3 & E4); [cbn; lia|]. rewrite Nat.add_0_r in *.
  unfold mysql_WriteCallEvent. rewrite E1, E2, E3, E4.
  destruct (event_exists e (call_events db)) eqn:Ex.
  { apply event_exists_spec in Ex as (r & Hr & Hc & Hs). exfalso. rewrite He in Hc.
    by apply (Hfree r e Hr (list_elem_of_here _ _) Hc). }
  apply IH; [done..| |intros k Hk; replace (S i + k)%nat with (i + S k)%nat by lia; apply Henv; cbn; lia].
  cbn. intros r x [Hr|Hr%list_elem_of_singleton]%elem_of_app Hx Hc.
  - apply Hfree; [done | by apply list_elem_of_further | done].
  - subst r. cbn. intros Heq. apply Hn. rewrite Heq. by apply list_elem_of_fmap_2.
Qed.

Lemma sorted_NoDup (l : list Z) : StronglySorted Z.lt l -> NoDup l.
Proof.
  induction 1 as [|x l _ IH Hx]; constructor; [|done]. intros Hin. rewrite Forall_forall in Hx. specialize (Hx x Hin). lia.
Qed.

Lemma chain_prefix s l1 l2 t : chain s (l1 ++ l2) t -> exists u, chain s l1 u.
Proof.
  revert t. induction l2 as [|e l2 IH] using rev_ind; intros t Hc; [rewrite app_nil_r in Hc; by eauto|].
  rewrite app_assoc in Hc. inversion Hc as [E|l t' e' Hc' _ _ E]; [by destruct (l1 ++ l2)|].
  apply app_inj_tail in E as [-> _]. by eapply IH.
Qed.

(** What the row of a call says of the events written so far. *)
Definition row_agrees (c : Call) (written : list Event) (row : CallRow) : Prop :=
  cr_tenant_id row = call_TenantID c /\ cr_caller_leg_id row = call_CallerLeg c /\ cr_callee_leg_id row = call_CalleeLeg c /\
  last (ev_NewState <$> written) = Some (cr_state row) /\
  (cr_ended_at row <> None <-> isTerminal (cr_state row) = true) /\
  (cr_answered_at row <> None <-> exists e, e ∈ written /\ ev_NewState e = StateAnswered).

Lemma cdr_agrees c s created rest t : about c created -> ev_NewState created = "" -> isTerminal s = false -> chain s rest t ->
  row_agrees c (created :: rest) (cdr_of created rest) /\
  (rest <> [] -> cr_state (cdr_of created rest) = t) /\
  (cr_ended_at (cdr_of created rest) <> None <-> isTerminal t = true).
Proof.
  intros (_ & Ht & Hn & Hcl & Hce) Hcs Hterm Hch.
  assert (Hstate : rest <> [] -> cr_state (cdr_of created rest) = t).
  { intros Hne. cbn. destruct rest as [|e rest]; [done|]. pose proof (chain_last _ _ _ Hch ltac:(done)) as Hlast.
    rewrite fmap_cons in Hlast. rewrite !fmap_cons, last_cons_cons. by rewrite Hlast. }
  assert (Hended : cr_ended_at (cdr_of created rest) <> None <-> isTerminal t = true).
  { change (cr_ended_at (cdr_of created rest)) with (last_some ended_time (created :: rest)).
    rewrite last_some_exists, (chain_ended _ _ _ Hch Hterm). setoid_rewrite ended_time_terminal.
    setoid_rewrite elem_of_cons. split; [|naive_solver]. intros (e & [->|He] & Hx); [by rewrite Hcs in Hx | eauto]. }
  split_and!; [split_and!; [done|done|done|..]|done|done].
  - cbn. by destruct (last _) eqn:E; [|apply last_None in E].
  - rewrite Hended. destruct rest as [|e rest]; [|by rewrite Hstate].
    cbn. rewrite Hcs. inversion Hch as [E|l t' e' _ _ _ E]; [|by destruct l]. subst. by rewrite Hterm.
  - change (cr_answered_at (cdr_of created rest)) with (head (omap answered_time (created :: rest))).
    rewrite head_some_exists. unfold answered_time. apply exist_proper. intros e. unfold eqs.
    destruct (String.eqb_spec (ev_NewState e) StateAnswered); naive_solver.
Qed.

(** Claim C18. The record in the database agrees with the call.  The events a fresh
    call's actor published are written in order, where any statement may fail (a lost
    connection, a value too long for its column) and the first failure ends the
    writing.  Then what is written is a prefix of the events; without an event the
    database is as before, and otherwise the call's row carries the call's
    identifiers, the state of the last event written, an end time exactly if that
    state ends a call and an answer time exactly if an event written answers it; no
    other call's row changes.  When no write failed the prefix is everything, the row
    has an end time exactly if the call has ended and, once the call has moved, the
    actor's state; and a write fails only if one of its statements does.  (Fresh: the
    call has not ended and the database has no row of its identifier; fewer than 2^64
    events, and the first of them was published.) *)
Theorem record_agrees_with_call {W} `{ActorEnv W} cap c ctx choices a (w : W) out a' w' log envs db err db' :
  NewActor cap true true c = Ok a -> isTerminal (call_State c) = false ->
  Z.of_nat (length choices) + 2 < 2 ^ 64 ->
  Run ctx choices a (w, []) = (out, a', (w', log)) -> log <> [] ->
  calls db !! call_ID c = None -> (forall r, r ∈ call_events db -> er_call_id r <> call_ID c) ->
  write_log envs 0 log db = (err, db') ->
  ((forall i, (i < length log)%nat -> succeeds (envs i)) -> err = None) /\
  exists written left, log = written ++ left /\ (err = None -> left = []) /\ (written = [] -> db' = db) /\
    (written <> [] -> exists row, calls db' = <[call_ID c := row]> (calls db) /\ row_agrees c written row /\
       (err = None ->
          (length log <> 1%nat -> cr_state row = call_State (actor_call a')) /\
          (cr_ended_at row <> None <-> isTerminal (call_State (actor_call a')) = true))).
Proof.
  intros Hnew Hterm Hlen Hrun Hne Hrow Hev Hw.
  destruct (run_log_path cap c ctx choices a w out a' w' log Hnew Hlen Hrun)
    as [[-> _]|(created & rest & -> & _ & _ & Hcs & _ & Hch & Hso & Hab & _)]; [done|].
  assert (Hids : Forall (fun e => ev_CallID e = call_ID c) (created :: rest)) by (eapply Forall_impl; [exact Hab | by intros e (? & _)]).
  split.
  { intros Henv. pose proof (write_log_succeeds (call_ID c) envs (created :: rest) 0 db Hids) as Hs. rewrite Hw in Hs. apply Hs.
    - by apply sorted_NoDup.
    - intros r e Hr _ Hc. by destruct (Hev r Hr).
    - done. }
  apply Forall_cons in Hids as [Hid Hids]. apply Forall_cons in Hab as [Hab _].
  apply write_log_cdr in Hw as [[He ->]|(written & left & -> & Hleft & Hcalls & _)];
    [by exists [], (created :: rest)| |eapply Forall_impl; [exact Hids|]; cbn; congruence | by rewrite Hid].
  exists (created :: written), left. split_and!; [done|done|done|]. intros _. exists (cdr_of created written).
  rewrite Hid in Hcalls. split; [done|].
  destruct (chain_prefix _ _ _ _ Hch) as [u Hu]. split; [by eapply cdr_agrees|].
  intros He. rewrite (Hleft He), app_nil_r in Hch. destruct (cdr_agrees _ _ _ _ _ Hab Hcs Hterm Hch) as (_ & Hs & Hend).
  split; [|done]. intros Hl. apply Hs. rewrite (Hleft He), app_nil_r in Hl. by destruct written.
Qed.

End Records.

(** A complete call, from "created" to "terminated": nine events.  The connection is
    lost while the sixth is committed, with the database having done it. *)
Definition all_done : WriteEnv := mkWriteEnv None None None Done.
Definition lost_sixth (i : nat) : WriteEnv :=
  if (i =? 5)%nat then mkWriteEnv None None None (Lost (Sentinel "driver: bad connection")) else all_done.

Lemma record_agrees_with_call_witness :
  let '(out, a', (w', log)) := Run None full_call sample_actor ({| rec_now := 0; rec_fail := [] |}, []) in
  length log = 9%nat /\
  (exists row, calls (@write_log binary_server (fun _ => all_done) 0 log (mkDB [] [] ∅ [] [])).2 = {[call_ID sample_call := row]} /\
    cr_state row = StateTerminated /\ cr_ended_at row <> None) /\
  (exists written row, written `prefix_of` log /\ @row_agrees sample_call written row /\
    calls (@write_log binary_server lost_sixth 0 log (mkDB [] [] ∅ [] [])).2 = {[call_ID sample_call := row]}).
Proof.
  destruct (Run _ _ _ _) as [[out a'] [w' log]] eqn:E.
  assert (Hf : length log = 9%nat /\ call_State (actor_call a') = StateTerminated /\
    bool_decide (calls (@write_log binary_server lost_sixth 0 log (mkDB [] [] ∅ [] [])).2 = ∅) = false).
  { vm_compute in E. injection E as _ <- _ <-. split_and!; vm_compute; reflexivity. }
  destruct Hf as (Hl & Hst & Hne). split; [exact Hl|].
  pose proof (fun envs err db' => @record_agrees_with_call binary_server _ _ 64 sample_call None full_call sample_actor
              {| rec_now := 0; rec_fail := [] |} out a' w' log envs (mkDB [] [] ∅ [] []) err db'
              ltac:(reflexivity) ltac:(reflexivity) ltac:(vm_compute; reflexivity) E ltac:(intros Hn; rewrite Hn in Hl; clear -Hl; discriminate Hl)
              ltac:(reflexivity) ltac:(clear; by intros r Hr%elem_of_nil)) as Hagree.
  clear E. split.
  - clear Hne. destruct (@write_log binary_server (fun _ => all_done) 0 log _) as [err db'] eqn:Ew.
    destruct (Hagree _ _ _ Ew) as (Herr & written & left & -> & Hleft & _ & Hrow).
    assert (err = None) as -> by (apply Herr; intros i _; repeat split). rewrite (Hleft eq_refl), app_nil_r in Hl.
    destruct Hrow as (row & Hc & _ & Hrow); [intros Hn; rewrite Hn in Hl; clear -Hl; discriminate Hl | destruct (Hrow eq_refl) as [Hs He]].
    exists row. split; [exact Hc|]. split; [rewrite <- Hst; apply Hs; rewrite (Hleft eq_refl), app_nil_r; lia | apply He; by rewrite Hst].
  - destruct (@write_log binary_server lost_sixth 0 log _) as [err db'] eqn:Ew.
    destruct (Hagree _ _ _ Ew) as (_ & written & left & -> & _ & Hnil & Hrow).
    destruct Hrow as (row & Hc & Hr & _); [intros ->; rewrite Hnil in Hne by done; by vm_compute in Hne|].
    exists written, row. split; [by apply prefix_app_r|]. split; [exact Hr | exact Hc].
Defined.

(** A call that has been created and nothing more: its record has no state, since
    the "created" event leaves [NewState] empty. *)
Theorem created_record_has_no_state :
  let '(out, a', (w', log)) := Run None [] sample_actor ({| rec_now := 0; rec_fail := [] |}, []) in
  let '(err, db') := @write_log binary_server (fun _ => all_done) 0 log (mkDB [] [] ∅ [] []) in
  err = None /\ cr_state <$> calls db' !! call_ID sample_call = Some ""%string /\
  call_State (actor_call a') = StateNew.
Proof. vm_compute. auto. Qed.
