(* ===== verification/Registrar.v ===== *)
(** * The REGISTER handler

    Models [internal/sip/registrar/handler.go]: REGISTER transactions are
    authenticated and applied, contact by contact, to the registration manager.
    The SIP message types and URI syntax come from [emiago/sipgo]: the request
    is a record of the values the handler reads from it, [ParseUri] a parameter.
    [ParseFloat32] is [strconv.ParseFloat(value, 32)]. *)

From Stdlib Require Import Floats.SpecFloat.
From S2P Require Import Prelude GoStrings Netip Registration MemoryStore Auth.

Record HandlerConfig := mkHandlerConfig {
  h_Realm : string; DefaultExpires : Duration; MinExpires : Duration; MaxExpires : Duration;
  TransactionTimeout : Duration;
}.

(** [NewHandler]'s checks; authenticator and manager are pointers that may be nil. *)
Definition NewHandler (cfg : HandlerConfig) (auth_present manager_present : bool) : result () :=
  _ ← guard_err (String.eqb (h_Realm cfg) "") "registrar realm is required";
  _ ← guard_err ((MinExpires cfg <=? 0) || (DefaultExpires cfg <? MinExpires cfg)
                 || (MaxExpires cfg <? DefaultExpires cfg)) "registration expiration bounds are invalid";
  _ ← guard_err (TransactionTimeout cfg <=? 0) "transaction timeout must be positive";
  _ ← guard_err (negb auth_present) "authenticator is required";
  guard_err (negb manager_present) "registration manager is required".

(** A Contact header as parsed by sipgo: its address, the wildcard flag, and
    the parameters. *)
Record ContactHeader := mkContact {
  ct_Addr : string; ct_Wildcard : bool; ct_Params : list (string * string);
}.

Fixpoint param (key : string) (params : list (string * string)) : option string :=
  match params with
  | [] => None
  | (k, v) :: rest => if String.eqb k key then Some v else param key rest
  end.

(** The values the handler reads from the request.  A Contact header that is
    not a [*sip.ContactHeader] is [None]. *)
Record RegisterRequest := mkRegister {
  rq_To : option (string * string);       (* user and host of To, if present *)
  rq_Authorization : option string;
  rq_Method : string;
  rq_Recipient : string;
  rq_Contacts : list (option ContactHeader);
  rq_Source : string;
  rq_Transport : string;
  rq_UserAgent : option string;
  rq_Expires : option string;
}.

(** A response: status code, reason and the headers the handler adds. *)
Record Response := mkResponse { rs_Status : Z; rs_Reason : string; rs_Headers : list (string * string) }.

Definition errIntervalTooBrief : error := Sentinel "registration interval too brief".
Definition errResponseFailed : string := "sip response failed".
Definition statusIntervalTooBrief : Z := 423.

Definition contactExpires (cfg : HandlerConfig) (expiresHeader : option string) (contact : ContactHeader)
    : result Duration :=
  let seconds := go_div (DefaultExpires cfg) Second in
  seconds ← match expiresHeader with
            | None => Ok seconds
            | Some value =>
                match ParseInt value 32 with
                | Some parsed => if parsed <? 0 then Err (Errorf "invalid Expires header" []) else Ok parsed
                | None => Err (Errorf "invalid Expires header" [])
                end
            end;
  seconds ← match param "expires" (ct_Params contact) with
            | None => Ok seconds
            | Some value =>
                match ParseInt value 32 with
                | Some parsed => if parsed <? 0 then Err (Errorf "invalid Contact expires parameter" []) else Ok parsed
                | None => Err (Errorf "invalid Contact expires parameter" [])
                end
            end;
  if seconds =? 0 then Ok 0 else
  let duration := i64 (seconds * Second) in
  if duration <? MinExpires cfg then Err errIntervalTooBrief
  else if MaxExpires cfg <? duration then Ok (MaxExpires cfg)
  else Ok duration.

Definition parseTransport (value : string) : result Transport :=
  let v := ToLower value in
  if String.eqb v "udp" || String.eqb v "" then Ok TransportUDP
  else if String.eqb v "tcp" then Ok TransportTCP
  else Err (Errorf "unsupported transport" []).

Definition headerValue (header : option string) (maxLength : nat) : string :=
  match header with
  | None => ""
  | Some value => if (maxLength <? String.length value)%nat then prefix_bytes maxLength value else value
  end.

Section Handler.
Context {S : Type} `{Store S} `{Crypto} `{DigestLib} `{CredentialStore}.
Variable ParseFloat32 : string -> option float32.
Variable ParseUri : string -> option string.

Definition parseQ (contact : ContactHeader) : result float32 :=
  match param "q" (ct_Params contact) with
  | None => Ok f32_one
  | Some value =>
      match ParseFloat32 value with
      | Some parsed =>
          if SFltb parsed f32_zero || SFltb f32_one parsed
          then Err (Errorf "q value must be between 0 and 1" []) else Ok parsed
      | None => Err (Errorf "q value must be between 0 and 1" [])
      end
  end.

(** What the surroundings supply to one transaction: its context, whose deadline may
    pass at any point, clocks, random bytes and
    identifiers at the points where the code asks for them, and the outcome of
    [transaction.Respond]. *)
Record TxEnv := mkTxEnv {
  tx_ctx : Context;                                   (* the transaction's context when [Verify] asks for it, *)
  tx_applyCtx : nat -> Context;                       (* at the work on each contact, *)
  tx_listCtx : Context;                               (* and when the bindings are listed *)
  tx_now : Time; tx_later : Time;                     (* the authenticator's clock *)
  tx_challengeNow : Time; tx_random : result (list Z);
  tx_applyIDs : nat -> result string;                 (* per contact *)
  tx_applyNow : nat -> Time;
  tx_listNow : Time;
  tx_responseNow : Time;
  tx_respondErr : option error;
}.

(** The handler's state: the authenticator's replay cache and the store. *)
Definition State : Type := gmap (string * string) replayEntry * S.

(** [respond]: the response that was attempted, and the error. *)
Definition respond (env : TxEnv) (r : Response) : option error * option Response :=
  (match tx_respondErr env with
   | None => None
   | Some e => Some (Errorf "respond to REGISTER" [Sentinel errResponseFailed; e])
   end, Some r).

Definition plain (status : Z) (reason : string) : Response := mkResponse status reason [].

(** The contacts of the 200 response. *)
Fixpoint response_contacts (now : Time) (bindings : list Binding) : result (list (string * string)) :=
  match bindings with
  | [] => Ok []
  | b :: rest =>
      match ParseUri (b_Contact b) with
      | None => Err (Errorf "parse stored contact" [])
      | Some uri =>
          rest ← response_contacts now rest;
          Ok (("Contact", (uri +:+ ";expires=" +:+ Itoa (Z.max 0 (go_div (time_Sub (b_ExpiresAt b) now) Second)))%string)
              :: rest)
      end
  end.

Definition respondBindings (env : TxEnv) (tenantID : TenantID) (aor : AoR) (s : S) : option error * option Response :=
  match List (tx_listCtx env) (tx_listNow env) tenantID aor s with
  | Err e => (Some (Errorf "list response bindings" [e]), None)
  | Ok bindings =>
      match response_contacts (tx_responseNow env) bindings with
      | Err e => (Some e, None)
      | Ok headers => respond env (mkResponse 200 "OK" headers)
      end
  end.

(** The loop over the Contact headers, from the [i]-th one on. *)
Fixpoint apply_contacts (cfg : HandlerConfig) (env : TxEnv) (req : RegisterRequest) (credential : Credential)
    (aor : AoR) (received : AddrPort) (transport : Transport) (userAgent : string)
    (i : nat) (contacts : list (option ContactHeader)) (s : S) : option (option error * option Response) * S :=
  match contacts with
  | [] => (None, s)
  | None :: _ => (Some (respond env (plain 400 "Bad Contact")), s)
  | Some contact :: rest =>
      match contactExpires cfg (rq_Expires req) contact with
      | Err e =>
          if errors_Is e "registration interval too brief" then
            (Some (respond env (mkResponse statusIntervalTooBrief "Interval Too Brief"
               [("Min-Expires", Itoa (go_div (MinExpires cfg) Second))])), s)
          else (Some (respond env (plain 400 "Bad Expires")), s)
      | Ok expires =>
          let contactValue := if ct_Wildcard contact then "*"%string else ct_Addr contact in
          match parseQ contact with
          | Err _ => (Some (respond env (plain 400 "Bad Contact")), s)
          | Ok q =>
              let request := Registration.mkRequest (c_TenantID credential) aor contactValue
                (AddrPort_String received) transport received userAgent q expires (c_MaxBindings credential) in
              match Apply (tx_applyIDs env i) (tx_applyCtx env i) (tx_applyNow env i) request s with
              | (Err e, s) =>
                  if IsBindingLimit (Some e) then (Some (respond env (plain 403 "Binding Limit Reached")), s)
                  else (Some (Some (Errorf "apply registration" [e]), None), s)
              | (Ok _, s) =>
                  apply_contacts cfg env req credential aor received transport userAgent (i + 1) rest s
              end
          end
      end
  end.

Definition handle (cfg : HandlerConfig) (authCfg : Auth.Config) (env : TxEnv) (req : RegisterRequest) (st : State)
    : option error * option Response * State :=
  let '(replay, s) := st in
  let bad_to := match rq_To req with
                | None => true
                | Some (user, host) => String.eqb user "" || negb (String.eqb host (h_Realm cfg))
                end in
  if bad_to then (respond env (plain 400 "Bad Request"), st) else
  let toUser := match rq_To req with Some (user, _) => user | None => ""%string end in
  let authorization := match rq_Authorization req with Some v => v | None => ""%string end in
  let '(verified, replay) :=
    Verify authCfg (tx_ctx env) (tx_now env) (tx_later env) (rq_Method req) (rq_Recipient req) authorization replay in
  let challenge (stale : bool) :=
    match Challenge authCfg (tx_challengeNow env) (tx_random env) stale with
    | Err e => (Some (Errorf "create digest challenge" [e]), None)
    | Ok value => respond env (mkResponse 401 "Unauthorized" [("WWW-Authenticate", value)])
    end in
  match verified with
  | Err e => (challenge (errors_Is e "digest nonce stale"), (replay, s))
  | Ok credential =>
      if negb (String.eqb (c_Username credential) toUser) then (challenge false, (replay, s)) else
      let aor := ("sip:" +:+ c_Username credential +:+ "@" +:+ c_Realm credential)%string in
      match rq_Contacts req with
      | [] => (respondBindings env (c_TenantID credential) aor s, (replay, s))
      | contacts =>
          match ParseAddrPort (rq_Source req) with
          | Err _ => (respond env (plain 400 "Bad Request"), (replay, s))
          | Ok received =>
              match parseTransport (rq_Transport req) with
              | Err _ => (respond env (plain 415 "Unsupported Transport"), (replay, s))
              | Ok transport =>
                  match apply_contacts cfg env req credential aor received transport
                          (headerValue (rq_UserAgent req) 255) 0 contacts s with
                  | (Some stop, s) => (stop, (replay, s))
                  | (None, s) => (respondBindings env (c_TenantID credential) aor s, (replay, s))
                  end
              end
          end
      end
  end.

(** [Handle]: the responses attempted on the transaction, and the new state. *)
Definition Handle (cfg : HandlerConfig) (authCfg : Auth.Config) (env : TxEnv) (req : RegisterRequest) (st : State)
    : list Response * State :=
  let '(err, attempted, st) := handle cfg authCfg env req st in
  let sent := match attempted with Some r => [r] | None => [] end in
  match err with
  | None => (sent, st)
  | Some e =>
      if errors_Is e errResponseFailed then (sent, st)
      else (sent ++ [plain 500 "Server Internal Error"], st)
  end.

End Handler.

(** ** Expiry *)

(** The lifetime a contact asks for, in seconds: its own parameter, the Expires
    header, or the default. *)
Definition requested (cfg : HandlerConfig) (expiresHeader : option string) (contact : ContactHeader) : option Z :=
  match expiresHeader ≫= (fun v => ParseInt v 32), param "expires" (ct_Params contact) with
  | _, Some value => ParseInt value 32
  | Some n, None => Some n
  | None, None => Some (go_div (DefaultExpires cfg) Second)
  end.

Lemma second_in_range n : - 2 ^ 31 <= n < 2 ^ 31 -> i64 (n * Second) = n * Second.
Proof. intros Hn. apply i64_id. unfold is_i64, Second. lia. Qed.

Lemma default_in_range d : is_i64 d -> i64 (go_div d Second * Second) = go_div d Second * Second.
Proof.
  intros Hd. apply i64_id. unfold is_i64, go_div, Second in *.
  pose proof (Z.quot_rem' d 1000000000). pose proof (Z.rem_bound_abs d 1000000000).
  destruct (decide (0 <= d)).
  - pose proof (Z.rem_nonneg d 1000000000). lia.
  - pose proof (Z.rem_nonpos d 1000000000). lia.
Qed.

(** The lifetime granted to a contact is the requested one within the
    configured bounds: zero (a removal) exactly for a request of zero; a request
    below the minimum is refused; above the maximum it is cut to the maximum.
    No granted lifetime is outside the bounds, and nothing overflows. *)
Theorem contact_expires_clamped cfg expiresHeader contact d :
  is_i64 (DefaultExpires cfg) -> NewHandler cfg true true = Ok () ->
  contactExpires cfg expiresHeader contact = Ok d ->
  exists n, requested cfg expiresHeader contact = Some n /\ 0 <= n /\
    (n = 0 /\ d = 0 \/ 0 < n /\ MinExpires cfg <= n * Second /\ d = Z.min (n * Second) (MaxExpires cfg)) /\
    (d = 0 \/ MinExpires cfg <= d <= MaxExpires cfg).
Proof.
  intros Hd Hn. unfold NewHandler, guard_err in Hn. repeat (case_any; cbn [mbind result_bind] in Hn; try done).
  bool_prop. unfold contactExpires, requested.
  assert (Hdef : 0 <= go_div (DefaultExpires cfg) Second) by (apply Z.quot_pos; unfold Second; lia).
  pose proof (default_in_range _ Hd) as Hdr. set (dflt := go_div (DefaultExpires cfg) Second) in *.
  assert (Hfin : forall n, 0 <= n -> i64 (n * Second) = n * Second ->
    (if n =? 0 then Ok 0 else if i64 (n * Second) <? MinExpires cfg then Err errIntervalTooBrief
     else if MaxExpires cfg <? i64 (n * Second) then Ok (MaxExpires cfg) else Ok (i64 (n * Second))) = Ok d ->
    (n = 0 /\ d = 0 \/ 0 < n /\ MinExpires cfg <= n * Second /\ d = Z.min (n * Second) (MaxExpires cfg)) /\
    (d = 0 \/ MinExpires cfg <= d <= MaxExpires cfg)).
  { intros n Hn0 ->. destruct (Z.eqb_spec n 0); [intros [= <-]; auto|].
    destruct (Z.ltb_spec (n * Second) (MinExpires cfg)); [done|].
    destruct (Z.ltb_spec (MaxExpires cfg) (n * Second)); intros [= <-]; unfold Second in *; split; [right|right|right|right]; lia. }
  assert (Hpar : forall v n, ParseInt v 32 = Some n -> - 2 ^ 31 <= n < 2 ^ 31)
    by (intros v n Hp; apply ParseInt_range in Hp; exact Hp).
  destruct expiresHeader as [v|]; cbn [mbind option_bind].
  - destruct (ParseInt v 32) as [n|] eqn:Ev; [|done]. destruct (Z.ltb_spec n 0); [done|]. cbn [mbind result_bind].
    destruct (param "expires" (ct_Params contact)) as [w|].
    + destruct (ParseInt w 32) as [m|] eqn:Ew; [|done]. destruct (Z.ltb_spec m 0); [done|]. cbn [mbind result_bind].
      intros Hr. exists m. do 2 (split; [done|]). apply Hfin; auto. apply second_in_range. by eapply Hpar.
    + cbn [mbind result_bind]. intros Hr. exists n. do 2 (split; [done|]). apply Hfin; auto. apply second_in_range. by eapply Hpar.
  - cbn [mbind result_bind]. destruct (param "expires" (ct_Params contact)) as [w|].
    + destruct (ParseInt w 32) as [m|] eqn:Ew; [|done]. destruct (Z.ltb_spec m 0); [done|]. cbn [mbind result_bind].
      intros Hr. exists m. do 2 (split; [done|]). apply Hfin; auto. apply second_in_range. by eapply Hpar.
    + cbn [mbind result_bind]. intros Hr. exists dflt. do 2 (split; [done|]). by apply Hfin.
Qed.

Definition sample_handler : HandlerConfig := mkHandlerConfig "pbx" (3600 * Second) (60 * Second) (7200 * Second) (5 * Second).

Lemma contact_expires_clamped_witness :
  exists n, requested sample_handler (Some "100000"%string) (mkContact "sip:a" false []) = Some n /\ n = 100000.
Proof.
  assert (Hi : is_i64 (DefaultExpires sample_handler)) by (unfold is_i64; vm_compute; split; [discriminate | reflexivity]).
  destruct (contact_expires_clamped sample_handler (Some "100000"%string) (mkContact "sip:a" false []) (7200 * Second) Hi
    eq_refl ltac:(vm_compute; reflexivity)) as (n & Hn & _).
  exists n. split; [exact Hn|]. vm_compute in Hn. injection Hn as <-. reflexivity.
Defined.

(** ** Who can change what *)

Section Isolation.
Context {S : Type} `{StoreLaws S} `{Crypto} `{DigestLib} `{CredentialStore}.
Variable ParseFloat32 : string -> option float32.
Variable ParseUri : string -> option string.

(** A store changed at most within one address of record. *)
Definition touches_only (t : TenantID) (a : AoR) (s s' : S) : Prop :=
  forall k : bindingKey, k.1 <> (t, a) -> view s' !! k = view s !! k.

Lemma touches_refl t a s : touches_only t a s s.
Proof. by intros k. Qed.

Lemma touches_trans t a s1 s2 s3 : touches_only t a s1 s2 -> touches_only t a s2 s3 -> touches_only t a s1 s3.
Proof. intros H12 H23 k Hk. rewrite H23, H12; done. Qed.

Lemma touches_view t a s s' : view s' = view s -> touches_only t a s s'.
Proof. intros Hv k _. by rewrite Hv. Qed.

Lemma apply_touches id ctx now req s r s' :
  Apply id ctx now req s = (r, s') -> touches_only (r_TenantID req) (r_AoR req) s s'.
Proof.
  unfold Apply. destruct (_ <? 0); [intros [= _ <-]; apply touches_refl|].
  destruct (_ =? 0).
  { destruct (String.eqb _ _).
    - destruct (DeleteAll _ _ _ s) as [[e|] s1] eqn:E; intros [= _ <-].
      + apply touches_view. by eapply deleteAll_err.
      + apply deleteAll_ok in E. intros k Hk. rewrite E. destruct (view s !! k) as [b|] eqn:El.
        * apply map_lookup_filter_Some. split; [done|]. unfold belongs. done.
        * apply map_lookup_filter_None. by left.
    - destruct (Delete _ _ _ _ s) as [[e|] s1] eqn:E; intros [= _ <-].
      + apply touches_view. by eapply delete_err.
      + apply delete_ok in E. intros k Hk. rewrite E. apply lookup_delete_ne. intros <-. by apply Hk. }
  destruct (_ <=? 0); [intros [= _ <-]; apply touches_refl|].
  destruct (negb _); [intros [= _ <-]; apply touches_refl|].
  destruct id as [id|]; [|intros [= _ <-]; apply touches_refl].
  destruct (Validate _ _); [|intros [= _ <-]; apply touches_refl].
  destruct (Upsert _ _ _ s) as [[e|] s1] eqn:E; intros [= _ <-].
  - apply touches_view. by eapply upsert_err.
  - apply upsert_ok in E as [E _]. intros k Hk. rewrite E. apply lookup_insert_ne. intros <-. by apply Hk.
Qed.

Lemma apply_contacts_touches cfg env req cred aor rcv tr ua contacts : forall i s stop s',
  apply_contacts ParseFloat32 cfg env req cred aor rcv tr ua i contacts s = (stop, s') ->
  touches_only (c_TenantID cred) aor s s'.
Proof.
  induction contacts as [|[contact|] rest IH]; intros i s stop s'; cbn [apply_contacts];
    try (intros [= _ <-]; apply touches_refl).
  destruct (contactExpires _ _ _) as [d|e]; [|destruct (errors_Is _ _); intros [= _ <-]; apply touches_refl].
  destruct (parseQ _ _) as [q|]; [|intros [= _ <-]; apply touches_refl].
  destruct (Apply _ _ _ _ s) as [[b|e] s1] eqn:E; apply apply_touches in E; cbn in E.
  - intros Hr. apply IH in Hr. by eapply touches_trans.
  - destruct (IsBindingLimit _); by intros [= _ <-].
Qed.

(** Claim C14. Only its owner can change a registration: whatever REGISTER
    request arrives, either no binding changes at all, or the request carried
    valid Digest credentials for the user named in To, and then only bindings
    of that user's address of record in the user's own tenant can change.  (For a
    store that keeps [StoreLaws], as the in-memory store does.) *)
Theorem register_isolation cfg authCfg env req replay s replies replay' s' :
  Handle ParseFloat32 ParseUri cfg authCfg env req (replay, s) = (replies, (replay', s')) ->
  view s' = view s \/
  exists credential host,
    rq_To req = Some (c_Username credential, host) /\ host = h_Realm cfg /\
    (Verify authCfg (tx_ctx env) (tx_now env) (tx_later env) (rq_Method req) (rq_Recipient req)
       (match rq_Authorization req with Some v => v | None => ""%string end) replay).1 = Ok credential /\
    touches_only (c_TenantID credential) ("sip:" +:+ c_Username credential +:+ "@" +:+ c_Realm credential)%string s s'.
Proof.
  unfold Handle. destruct (handle _ _ _ _ _ _ _) as [[err att] [rp s1]] eqn:Eh.
  intros Hout. assert (s1 = s') as -> by (destruct err; [destruct (errors_Is _ _)|]; by simplify_eq).
  clear Hout. unfold handle in Eh.
  destruct (rq_To req) as [[user host]|] eqn:Eto; [|left; by simplify_eq].
  destruct (String.eqb user "" || _) eqn:Eb; [left; by simplify_eq|]. bool_prop.
  destruct (Verify _ _ _ _ _ _ _ _) as [[cred|e] rp1] eqn:Ev; [|left; by simplify_eq].
  destruct (String.eqb_spec (c_Username cred) user) as [<-|]; cbn [negb] in Eh; [|left; by simplify_eq].
  destruct (rq_Contacts req) as [|c0 rest] eqn:Ec; [left; by simplify_eq|].
  destruct (ParseAddrPort _) as [rcv|]; [|left; by simplify_eq].
  destruct (parseTransport _) as [tr|]; [|left; by simplify_eq].
  destruct (apply_contacts _ _ _ _ _ _ _ _ _ _ _ _) as [stop s2] eqn:Ea. apply apply_contacts_touches in Ea.
  right. exists cred, host. assert (s2 = s') as -> by (destruct stop; by simplify_eq). done.
Qed.

End Isolation.

(** ** One answer per transaction *)

Section Answers.
Context {S : Type} `{Store S} `{Crypto} `{DigestLib} `{CredentialStore}.
Variable ParseFloat32 : string -> option float32.
Variable ParseUri : string -> option string.

(** An outcome of [handle]: it attempted one response and returns nil or the
    failure of that response, or it attempted none and returns another error. *)
Definition answered (o : option error * option Response) : Prop :=
  match o with
  | (None, Some _) => True
  | (Some e, Some _) => errors_Is e errResponseFailed = true
  | (Some e, None) => errors_Is e errResponseFailed = false
  | (None, None) => False
  end.

Lemma respond_answered env r : answered (respond env r).
Proof. unfold respond. by destruct (tx_respondErr env). Qed.

(** Errors of the store, the clock-dependent operations and the random source
    are not the handler's own response failure. *)
Definition foreign_errors (env : TxEnv) : Prop :=
  (forall e, tx_random env = Err e -> errors_Is e errResponseFailed = false) /\
  (forall i req (s : S) e s',
     Apply (tx_applyIDs env i) (tx_applyCtx env i) (tx_applyNow env i) req s = (Err e, s') ->
     errors_Is e errResponseFailed = false) /\
  (forall t a (s : S) e, List (tx_listCtx env) (tx_listNow env) t a s = Err e -> errors_Is e errResponseFailed = false).

Lemma response_contacts_plain now bs e :
  response_contacts ParseUri now bs = Err e -> errors_Is e errResponseFailed = false.
Proof.
  induction bs as [|b bs IH]; cbn; [done|]. destruct (ParseUri _); [|by intros [= <-]].
  destruct (response_contacts _ _ _); cbn; [done|]. intros [= <-]. by apply IH.
Qed.

Lemma respondBindings_answered env t a s : foreign_errors env -> answered (respondBindings ParseUri env t a s).
Proof.
  intros (_ & _ & Hl). unfold respondBindings. destruct (List _ _ _ _ s) as [bs|e] eqn:E.
  - destruct (response_contacts _ _ _) eqn:Er; [apply respond_answered|]. by eapply response_contacts_plain.
  - cbn. by rewrite (Hl _ _ _ _ E).
Qed.

Lemma apply_contacts_answered cfg env req cred aor rcv tr ua contacts : foreign_errors env -> forall i s stop s',
  apply_contacts ParseFloat32 cfg env req cred aor rcv tr ua i contacts s = (Some stop, s') -> answered stop.
Proof.
  intros Hf. destruct Hf as (_ & Ha & _). induction contacts as [|[contact|] rest IH]; intros i s stop s'; cbn [apply_contacts]; [done| |].
  2:{ intros [= <- _]. apply respond_answered. }
  destruct (contactExpires _ _ _) as [d|e].
  2:{ destruct (errors_Is _ _); intros [= <- _]; apply respond_answered. }
  destruct (parseQ _ _) as [q|]; [|intros [= <- _]; apply respond_answered].
  destruct (Apply _ _ _ _ s) as [[b|e] s1] eqn:E; [apply IH|].
  destruct (IsBindingLimit _); intros [= <- _]; [apply respond_answered|]. cbn. by rewrite (Ha _ _ _ _ _ E).
Qed.

(** Every REGISTER transaction is answered exactly once, whatever the
    request and whichever step fails: exactly one response is handed to the
    transaction, a 500 when an internal error prevented any other. *)
Theorem register_answers_once cfg authCfg env req st :
  foreign_errors env ->
  exists r st', Handle ParseFloat32 ParseUri cfg authCfg env req st = ([r], st').
Proof.
  intros Hf. assert (Ha : answered (handle ParseFloat32 ParseUri cfg authCfg env req st).1).
  { destruct st as [replay s]. unfold handle.
    destruct (match rq_To req with None => true | Some _ => _ end); [apply respond_answered|].
    destruct (Verify _ _ _ _ _ _ _ _) as [verified rp].
    assert (Hch : forall stale, answered (match Challenge authCfg (tx_challengeNow env) (tx_random env) stale with
       | Err e => (Some (Errorf "create digest challenge" [e]), None)
       | Ok value => respond env (mkResponse 401 "Unauthorized" [("WWW-Authenticate"%string, value)]) end)).
    { intros stale. unfold Challenge, issueNonce. destruct (tx_random env) as [bytes|e] eqn:Er; cbn [mbind result_bind].
      - apply respond_answered.
      - destruct Hf as (Hr & _). cbn. by rewrite (Hr e). }
    destruct verified as [cred|e]; [|apply Hch]. destruct (negb _); [apply Hch|].
    destruct (rq_Contacts req) as [|c0 rest]; [by apply respondBindings_answered|].
    destruct (ParseAddrPort _); [|apply respond_answered]. destruct (parseTransport _); [|apply respond_answered].
    destruct (apply_contacts _ _ _ _ _ _ _ _ _ _ _ _) as [[stop|] s1] eqn:E.
    - by eapply apply_contacts_answered.
    - by apply respondBindings_answered. }
  unfold Handle. destruct (handle _ _ _ _ _ _ _) as [[err att] st']. cbn in Ha.
  destruct err as [e|], att as [r|]; try done; rewrite ?Ha; eauto.
Qed.

End Answers.

(** ** Sample transactions on the in-memory store *)

#[local] Instance sample_store : Store RegistrationStore := memory_store map_to_list.
Lemma sample_enumeration : forall m : gmap bindingKey Binding, map_to_list m ≡ₚ map_to_list m.
Proof. reflexivity. Qed.
#[local] Instance sample_store_laws : StoreLaws RegistrationStore := memory_store_laws map_to_list sample_enumeration.
#[local] Existing Instance toy_crypto.
#[local] Existing Instance toy_digest.
#[local] Existing Instance toy_store.

Definition sample_tx : TxEnv :=
  mkTxEnv None (fun _ => None) None Second Second Second (Ok toy_random) (fun i => Ok (Itoa (Z.of_nat i))) (fun _ => Second) Second Second None.

Definition sample_register (contacts : list (option ContactHeader)) : RegisterRequest :=
  mkRegister (Some ("alice", "pbx")%string) (Some "a1"%string) "REGISTER" "sip:pbx" contacts "10.0.0.1:5060" "UDP" None None.

Definition parse_nan (s : string) : option float32 := if String.eqb s "NaN" then Some S754_nan else None.

(** The responses, and the contacts stored afterwards. *)
Definition run_register (req : RegisterRequest) : list Response * list string :=
  let '(replies, (_, s)) := Handle parse_nan Some sample_handler (toy_config 4) sample_tx req (∅, NewRegistrationStore) in
  (replies, (fun kb => b_Contact kb.2) <$> map_to_list (bindings s)).

Definition contact_at (addr : string) : option ContactHeader := Some (mkContact addr false []).

Lemma register_isolation_witness :
  exists replies st', Handle parse_nan Some sample_handler (toy_config 4) sample_tx
      (sample_register [contact_at "sip:alice@10.0.0.1"]) (∅, NewRegistrationStore) = (replies, st') /\
    size (view st'.2) = 1%nat /\
    (view st'.2 = view NewRegistrationStore \/ touches_only "t" "sip:alice@pbx" NewRegistrationStore st'.2).
Proof.
  assert (Hsz : size (view (Handle parse_nan Some sample_handler (toy_config 4) sample_tx
      (sample_register [contact_at "sip:alice@10.0.0.1"]) (∅, NewRegistrationStore)).2.2) = 1%nat) by (vm_compute; reflexivity).
  destruct (Handle parse_nan Some sample_handler (toy_config 4) sample_tx
      (sample_register [contact_at "sip:alice@10.0.0.1"]) (∅, NewRegistrationStore)) as [replies [rp s']] eqn:E.
  exists replies, (rp, s'). split; [reflexivity|]. split; [exact Hsz|].
  destruct (register_isolation parse_nan Some sample_handler (toy_config 4) sample_tx
    (sample_register [contact_at "sip:alice@10.0.0.1"]) ∅ NewRegistrationStore replies rp s' E)
    as [Hv|(cred & host & _ & _ & Hver & Ht)]; [left; exact Hv|].
  right. vm_compute in Hver. injection Hver as <-. exact Ht.
Defined.

Lemma register_answers_once_witness :
  exists r st', Handle parse_nan Some sample_handler (toy_config 4) sample_tx
    (sample_register [contact_at "sip:alice@10.0.0.1"; None]) (∅, NewRegistrationStore) = ([r], st').
Proof.
  apply register_answers_once. split; [discriminate|]. split.
  - intros i req s e s' Ha. unfold Apply in Ha. cbn [sample_tx tx_applyIDs tx_applyCtx tx_applyNow] in Ha.
    destruct (_ <? 0); [by simplify_eq|]. destruct (_ =? 0); [by destruct (String.eqb _ _)|].
    destruct (_ <=? 0); [by simplify_eq|]. destruct (negb _); [by simplify_eq|].
    destruct (Validate _ _) as [|e0] eqn:Ev.
    + destruct (Upsert None _ _ s) as [[e1|] s1] eqn:Eu; [|done]. simplify_eq. cbn in Eu.
      unfold memory_Upsert in Eu. destruct (bindings s !! _); [done|]. destruct (_ <=? _); by simplify_eq.
    + apply validate_err_plain in Ev as [msg ->]. by simplify_eq.
  - intros t a s e Hl. done.
Defined.

(** A REGISTER whose fourth contact exceeds the limit of three is answered with
    403, but its first three contacts are registered all the same. *)
Theorem partial_registration :
  let '(replies, stored) := run_register (sample_register
    [contact_at "sip:a"; contact_at "sip:b"; contact_at "sip:c"; contact_at "sip:d"]) in
  replies = [plain 403 "Binding Limit Reached"] /\ length stored = 3%nat.
Proof. vm_compute. auto. Qed.

(** A wildcard contact with a positive lifetime is not refused: "*" is stored as
    a binding of its own. *)
Theorem wildcard_registered :
  let '(replies, stored) := run_register (sample_register [Some (mkContact "" true [("expires", "600")%string])]) in
  rs_Status <$> replies = [200] /\ stored = ["*"%string].
Proof. vm_compute. auto. Qed.

(** A q value of NaN passes the range check of handler and validation. *)
Theorem nan_q_registered :
  let '(replies, stored) := run_register (sample_register [Some (mkContact "sip:a" false [("q", "NaN")%string])]) in
  rs_Status <$> replies = [200] /\ stored = ["sip:a"%string].
Proof. vm_compute. auto. Qed.
