(* ===== verification/B2buaEngine.v ===== *)
(** * B2BUA engine: admission and in-dialog transactions

    Models the parts of [internal/sip/b2bua] that several goroutines share:
    admission control and dialog correlation of the [Engine] (module
    [Admission]: [reserve], [release], [remove], [handleInvite]'s bookkeeping,
    [Wait], the dialog lookups) and the pending re-INVITE of a session (module
    [ReInvite]: [beginReInvite], [finishReInvite], [setPendingReInvite] and the
    three [completePendingReInvite] functions of [in_dialog.go]). *)

From S2P Require Import Prelude.

(** ** Admission *)

Module Admission.

Definition DialogID := string.

(** The engine's fields under its mutex, and the wait group's counter.  A
    session is named by its number. *)
Record Engine := mkEngine {
  en_stopping : bool;
  en_reserved : Z;
  en_byInbound : gmap DialogID nat;
  en_byOutbound : gmap DialogID nat;
  en_wg : Z;
}.

Definition NewEngine : Engine := mkEngine false 0 ∅ ∅ 0.

(** [reserve]: refused while stopping or at the limit. *)
Definition reserve (maxActiveCalls : Z) (e : Engine) : bool * Engine :=
  if en_stopping e || (maxActiveCalls <=? en_reserved e) then (false, e)
  else (true, mkEngine (en_stopping e) (en_reserved e + 1) (en_byInbound e) (en_byOutbound e) (en_wg e + 1)).

(** The locked part of [release] and its [wg.Done]. *)
Definition release_locked (e : Engine) : Engine :=
  mkEngine (en_stopping e) (en_reserved e - 1) (en_byInbound e) (en_byOutbound e) (en_wg e).
Definition wg_Done (e : Engine) : Engine :=
  mkEngine (en_stopping e) (en_reserved e) (en_byInbound e) (en_byOutbound e) (en_wg e - 1).

(** [e.byInbound[inbound.ID] = activeSession] and the same for the other leg. *)
Definition add_inbound (id : DialogID) (s : nat) (e : Engine) : Engine :=
  mkEngine (en_stopping e) (en_reserved e) (<[id := s]> (en_byInbound e)) (en_byOutbound e) (en_wg e).
Definition add_outbound (id : DialogID) (s : nat) (e : Engine) : Engine :=
  mkEngine (en_stopping e) (en_reserved e) (en_byInbound e) (<[id := s]> (en_byOutbound e)) (en_wg e).

(** The locked part of [remove]. *)
Definition remove (inbound : DialogID) (outbound : option DialogID) (e : Engine) : Engine :=
  mkEngine (en_stopping e) (en_reserved e - 1) (delete inbound (en_byInbound e))
    (match outbound with Some id => delete id (en_byOutbound e) | None => en_byOutbound e end) (en_wg e).

(** [Wait] before it blocks; it returns once the counter is zero. *)
Definition Wait (e : Engine) : Engine :=
  mkEngine true (en_reserved e) (en_byInbound e) (en_byOutbound e) (en_wg e).

(** [findInboundSession] and [findOutboundSession]; the dialog ID is computed
    from the request and may be missing. *)
Definition findInboundSession (id : option DialogID) (e : Engine) : option nat :=
  match id with Some id => en_byInbound e !! id | None => None end.
Definition findOutboundSession (id : option DialogID) (e : Engine) : option nat :=
  match id with Some id => en_byOutbound e !! id | None => None end.

(** Where the goroutine of an admitted INVITE stands. *)
Inductive Phase :=
| Reserved                                                (* after reserve *)
| Released                                                (* release, before wg.Done *)
| Active (inbound : DialogID)                             (* in byInbound *)
| Dialing (inbound outbound : DialogID)                   (* outbound leg created *)
| Connected (inbound outbound : DialogID)                 (* in byOutbound *)
| Removed                                                 (* remove, before wg.Done *)
| Gone.

Record sys := mkSys { engine : Engine; sessions : list Phase }.

Definition set_phase (s : nat) (p : Phase) (e : Engine) (w : sys) : sys := mkSys e (<[s := p]> (sessions w)).

Definition inbound_of (p : Phase) : option DialogID :=
  match p with Active i | Dialing i _ | Connected i _ => Some i | _ => None end.
Definition outbound_of (p : Phase) : option DialogID :=
  match p with Dialing _ o | Connected _ o => Some o | _ => None end.

(** A new dialog ID is not in use: it contains a random tag. *)
Definition fresh_inbound (id : DialogID) (w : sys) : Prop := Forall (fun p => inbound_of p <> Some id) (sessions w).
Definition fresh_outbound (id : DialogID) (w : sys) : Prop := Forall (fun p => outbound_of p <> Some id) (sessions w).

Inductive step (max : Z) : sys -> sys -> Prop :=
| admitted w e : reserve max (engine w) = (true, e) -> step max w (mkSys e (sessions w ++ [Reserved]))
| refuse w e : reserve max (engine w) = (false, e) -> step max w (mkSys e (sessions w))
| early_return w s : sessions w !! s = Some Reserved ->
    step max w (set_phase s Released (release_locked (engine w)) w)
| early_done w s : sessions w !! s = Some Released -> step max w (set_phase s Gone (wg_Done (engine w)) w)
| register w s id : sessions w !! s = Some Reserved -> fresh_inbound id w ->
    step max w (set_phase s (Active id) (add_inbound id s (engine w)) w)
| dial w s i o : sessions w !! s = Some (Active i) -> fresh_outbound o w ->
    step max w (set_phase s (Dialing i o) (engine w) w)
| connect w s i o : sessions w !! s = Some (Dialing i o) ->
    step max w (set_phase s (Connected i o) (add_outbound o s (engine w)) w)
| finish w s p i : sessions w !! s = Some p -> inbound_of p = Some i ->
    step max w (set_phase s Removed (remove i (outbound_of p) (engine w)) w)
| finished w s : sessions w !! s = Some Removed -> step max w (set_phase s Gone (wg_Done (engine w)) w)
| stop w : step max w (mkSys (Wait (engine w)) (sessions w)).

Definition reachable (max : Z) (w : sys) : Prop := rtc (step max) (mkSys NewEngine []) w.

Definition holds_slot (p : Phase) : Z := match p with Released | Removed | Gone => 0 | _ => 1 end.
Definition running (p : Phase) : Z := match p with Gone => 0 | _ => 1 end.

Definition connected_of (p : Phase) : option DialogID := match p with Connected _ o => Some o | _ => None end.

(** The map [m] holds exactly the sessions [f] gives a dialog ID. *)
Definition tracks (f : Phase -> option DialogID) (m : gmap DialogID nat) (ss : list Phase) : Prop :=
  forall id s, m !! id = Some s <-> exists p, ss !! s = Some p /\ f p = Some id.

(** Distinct sessions keep distinct outbound dialogs. *)
Definition distinct (ss : list Phase) : Prop := forall s t p q id, ss !! s = Some p -> ss !! t = Some q ->
  outbound_of p = Some id -> outbound_of q = Some id -> s = t.

Record inv (max : Z) (w : sys) : Prop := {
  inv_reserved : en_reserved (engine w) = sum_list (holds_slot <$> sessions w);
  inv_limit : en_reserved (engine w) <= max;
  inv_wg : en_wg (engine w) = sum_list (running <$> sessions w);
  inv_inbound : tracks inbound_of (en_byInbound (engine w)) (sessions w);
  inv_outbound : tracks connected_of (en_byOutbound (engine w)) (sessions w);
  inv_dialing : distinct (sessions w);
}.

(** ** Tracking through changes of one session *)

Lemma tracks_keep f m ss s p q :
  tracks f m ss -> ss !! s = Some p -> f q = f p -> tracks f m (<[s := q]> ss).
Proof.
  unfold tracks.
  intros Ht Hs Hf id t. rewrite Ht. split.
  - intros (x & Hx & Hfx). destruct (decide (s = t)) as [->|Hne].
    + exists q. rewrite list_lookup_insert_eq by (by eapply lookup_lt_Some). split; [done|]. congruence.
    + exists x. by rewrite list_lookup_insert_ne.
  - intros (x & Hx & Hfx). apply list_lookup_insert_Some in Hx as [(<- & <- & _)|[Hne Hx]]; [|by eauto].
    exists p. split; [done|]. congruence.
Qed.

Lemma tracks_add f m ss s p q id :
  tracks f m ss -> ss !! s = Some p -> f p = None -> f q = Some id ->
  (forall t x, ss !! t = Some x -> f x <> Some id) -> tracks f (<[id := s]> m) (<[s := q]> ss).
Proof.
  unfold tracks.
  intros Ht Hs Hp Hq Hfresh id' t. rewrite lookup_insert_Some, Ht. split.
  - intros [[<- <-]|[Hne (x & Hx & Hfx)]].
    + exists q. split; [|done]. apply list_lookup_insert_eq. by eapply lookup_lt_Some.
    + exists x. split; [|done]. rewrite list_lookup_insert_ne; [done|]. intros ->. congruence.
  - intros (x & Hx & Hfx). apply list_lookup_insert_Some in Hx as [(<- & <- & _)|[Hne Hx]].
    + left. split; congruence.
    + right. split; [intros <-; by eapply Hfresh | by eauto].
Qed.

Lemma tracks_delete f m ss s p q id :
  tracks f m ss -> ss !! s = Some p -> f p = Some id -> f q = None ->
  tracks f (delete id m) (<[s := q]> ss).
Proof.
  unfold tracks.
  intros Ht Hs Hp Hq id' t. rewrite lookup_delete_Some, Ht. split.
  - intros [Hne (x & Hx & Hfx)]. exists x. split; [|done]. rewrite list_lookup_insert_ne; [done|]. intros ->. congruence.
  - intros (x & Hx & Hfx). apply list_lookup_insert_Some in Hx as [(<- & <- & _)|[Hne Hx]]; [congruence|].
    split; [|by eauto]. intros <-. apply Hne.
    assert (H1 : m !! id = Some s) by (apply Ht; eauto). assert (H2 : m !! id = Some t) by (apply Ht; eauto). congruence.
Qed.

Lemma tracks_app f m ss p : tracks f m ss -> f p = None -> tracks f m (ss ++ [p]).
Proof.
  unfold tracks.
  intros Ht Hp id s. rewrite Ht. split.
  - intros (x & Hx & Hf). exists x. split; [by apply lookup_app_l_Some | done].
  - intros (x & Hx & Hf). apply lookup_app_Some in Hx as [Hx|[_ Hx]]; [by eauto|].
    apply list_lookup_singleton_Some in Hx as [_ <-]. congruence.
Qed.

Lemma tracks_delete_absent f m ss id :
  tracks f m ss -> (forall t x, ss !! t = Some x -> f x <> Some id) -> delete id m = m.
Proof.
  intros Ht Hno. apply delete_id. destruct (m !! id) as [t|] eqn:E; [|done].
  apply Ht in E as (x & Hx & Hfx). by destruct (Hno t x Hx).
Qed.

Lemma distinct_insert ss s q :
  distinct ss ->
  (forall id, outbound_of q = Some id -> forall t x, ss !! t = Some x -> t <> s -> outbound_of x <> Some id) ->
  distinct (<[s := q]> ss).
Proof.
  intros Hd Hq a b x y id Ha Hb Hx Hy.
  apply list_lookup_insert_Some in Ha as [(<- & <- & _)|[Hne1 Ha]], Hb as [(<- & <- & _)|[Hne2 Hb]]; auto.
  - by destruct (Hq _ Hx _ _ Hb (not_eq_sym Hne2)).
  - by destruct (Hq _ Hy _ _ Ha (not_eq_sym Hne1)).
  - by eapply Hd.
Qed.

Lemma distinct_none ss s q : distinct ss -> outbound_of q = None -> distinct (<[s := q]> ss).
Proof. intros Hd Hq. apply distinct_insert; [done|]. intros id Hid. congruence. Qed.

Lemma sum_app_one f (ss : list Phase) p : sum_list (f <$> ss ++ [p]) = sum_list (f <$> ss) + f p.
Proof. rewrite fmap_app, sum_list_app. unfold sum_list at 2. cbn. lia. Qed.

#[local] Hint Resolve tracks_keep tracks_app distinct_none : pbx.
#[local] Hint Extern 1 (@eq (option DialogID) _ _) => reflexivity : pbx.

Lemma admission_step_inv max w w' : inv max w -> step max w w' -> inv max w'.
Proof.
  intros [H1 H2 H3 H4 H5 H6]. destruct 1 as [w e Hr|w e Hr|w s Hs|w s Hs|w s id Hs Hf|w s i o Hs Hf|w s i o Hs
    |w s p i Hs Hp|w s Hs|w]; unfold set_phase.
  - unfold reserve in Hr. destruct (_ || _) eqn:Eb; [done|]. injection Hr as <-. bool_prop.
    constructor; cbn; rewrite ?sum_app_one; cbn; auto with pbx; try lia.
    intros s t p q id Hs Ht Hp Hq. apply lookup_app_Some in Hs as [Hs|[_ Hs]], Ht as [Ht|[_ Ht]];
      try (apply list_lookup_singleton_Some in Hs as [_ <-]; done);
      try (apply list_lookup_singleton_Some in Ht as [_ <-]; done). by eapply (H6 s t).
  - unfold reserve in Hr. destruct (_ || _); [|done]. injection Hr as <-. done.
  - constructor; cbn; rewrite ?(sum_list_insert _ _ _ _ _ Hs); cbn; eauto with pbx; try lia.
  - constructor; cbn; rewrite ?(sum_list_insert _ _ _ _ _ Hs); cbn; eauto with pbx; try lia.
  - constructor; cbn; rewrite ?(sum_list_insert _ _ _ _ _ Hs); cbn; eauto with pbx; try lia.
    eapply tracks_add; eauto. intros t x Hx. exact (Forall_lookup_1 _ _ _ _ Hf Hx).
  - constructor; cbn; rewrite ?(sum_list_insert _ _ _ _ _ Hs); cbn; eauto with pbx; try lia.
    apply distinct_insert; [done|]. intros id [= <-] t x Hx _. exact (Forall_lookup_1 _ _ _ _ Hf Hx).
  - constructor; cbn; rewrite ?(sum_list_insert _ _ _ _ _ Hs); cbn; eauto with pbx; try lia.
    + eapply tracks_add; eauto. intros t x Hx Hc.
      assert (Hx' : outbound_of x = Some o) by (destruct x; cbn in *; congruence).
      assert (s = t) as -> by (eapply (H6 s t); eauto). rewrite Hs in Hx. injection Hx as <-. done.
    + apply distinct_insert; [done|]. intros id [= <-] t x Hx Hne Ho. apply Hne. by eapply (H6 t s).
  - assert (Hslot : holds_slot p = 1 /\ running p = 1) by by destruct p. destruct Hslot as [Hsl Hrun].
    constructor; cbn; rewrite ?(sum_list_insert _ _ _ _ _ Hs), ?Hsl, ?Hrun; cbn; eauto with pbx; try lia.
    + by eapply tracks_delete.
    + destruct p as [| |x|x o|x o| |]; try done; cbn.
      * by eapply tracks_keep.
      * rewrite (tracks_delete_absent _ _ _ _ H5); [by eapply tracks_keep|]. intros t y Hy Hc.
        assert (Hy' : outbound_of y = Some o) by (destruct y; cbn in *; congruence).
        assert (s = t) as -> by (eapply (H6 s t); eauto). rewrite Hs in Hy. injection Hy as <-. done.
      * by eapply tracks_delete.
  - constructor; cbn; rewrite ?(sum_list_insert _ _ _ _ _ Hs); cbn; eauto with pbx; try lia.
  - constructor; cbn; auto.
Qed.

Lemma admission_reachable_inv max w : 0 <= max -> reachable max w -> inv max w.
Proof.
  intros Hmax Hr. unfold reachable in Hr.
  assert (H0 : inv max (mkSys NewEngine [])).
  { assert (Ht : forall f, tracks f ∅ []).
    { intros f id s. split; [intros Hl; by rewrite lookup_empty in Hl | by intros (p & Hp & _)]. }
    constructor; cbn; auto. by intros s t p q id Hs. }
  revert H0. induction Hr as [|w1 w2 w3 Hs _ IH]; auto. intros H1. apply IH. by eapply admission_step_inv.
Qed.

Lemma running_nonneg ss : 0 <= sum_list (holds_slot <$> ss) <= sum_list (running <$> ss).
Proof. unfold sum_list. induction ss as [|p ss IH]; cbn; [lia|]. destruct p; cbn; lia. Qed.

(** Claim C15. Admission and correlation are consistent in every interleaving of
    calls: the number of reserved slots is the number of calls in progress and
    never exceeds the configured maximum; a dialog ID finds exactly the call in
    progress that has this dialog, on either leg. *)
Theorem admission_consistent max w :
  0 <= max -> reachable max w ->
  0 <= en_reserved (engine w) <= max /\
  en_reserved (engine w) = sum_list (holds_slot <$> sessions w) /\
  (forall id s, findInboundSession (Some id) (engine w) = Some s <->
     exists p, sessions w !! s = Some p /\ inbound_of p = Some id) /\
  (forall id s, findOutboundSession (Some id) (engine w) = Some s <->
     exists i, sessions w !! s = Some (Connected i id)).
Proof.
  intros Hmax Hr. destruct (admission_reachable_inv max w Hmax Hr) as [H1 H2 H3 H4 H5 H6].
  pose proof (running_nonneg (sessions w)). split_and!; auto; try lia.
  intros id s. cbn. rewrite (H5 id s). split.
  - intros (p & Hp & Ho). destruct p; cbn in Ho; try done. injection Ho as ->. eauto.
  - intros (i & Hi). eauto.
Qed.

Lemma zero_running ss : sum_list (running <$> ss) = 0 -> Forall (fun p => p = Gone) ss.
Proof.
  induction ss as [|p ss IH]; [constructor|]. pose proof (running_nonneg ss). unfold sum_list in *. cbn. intros Hs.
  assert (0 <= foldr Z.add 0 (running <$> ss)) by lia.
  constructor; [destruct p; cbn in *; try lia; done|]. apply IH. destruct p; cbn in *; lia.
Qed.

Lemma stopping_step max w w' : en_stopping (engine w) = true -> step max w w' ->
  en_stopping (engine w') = true /\ length (sessions w') = length (sessions w).
Proof.
  intros Hst. destruct 1 as [w e He|w e He|w s Hs|w s Hs|w s id Hs Hf|w s i o Hs Hf|w s i o Hs|w s p i Hs Hp|w s Hs|w];
    cbn; rewrite ?length_insert; try done; unfold reserve in He; rewrite Hst in He; cbn in He; by simplify_eq.
Qed.

(** With the wait group at zero nothing is left. *)
Lemma idle_empty max w : inv max w -> en_wg (engine w) = 0 ->
  Forall (fun p => p = Gone) (sessions w) /\ en_reserved (engine w) = 0 /\
  en_byInbound (engine w) = ∅ /\ en_byOutbound (engine w) = ∅.
Proof.
  intros [H1 H2 H3 H4 H5 H6] Hwg.
  assert (Hgone : Forall (fun p => p = Gone) (sessions w)) by (apply zero_running; congruence).
  rewrite Forall_lookup in Hgone. split_and!.
  - by apply Forall_lookup.
  - pose proof (running_nonneg (sessions w)). lia.
  - apply map_empty. intros id. destruct (_ !! id) as [s|] eqn:E; [|done].
    apply H4 in E as (p & Hp & Hi). by rewrite (Hgone _ _ Hp) in Hi.
  - apply map_empty. intros id. destruct (_ !! id) as [s|] eqn:E; [|done].
    apply H5 in E as (p & Hp & Hi). by rewrite (Hgone _ _ Hp) in Hi.
Qed.

Lemma running_exists ss : sum_list (running <$> ss) <> 0 -> exists s p, ss !! s = Some p /\ p <> Gone.
Proof.
  induction ss as [|p ss IH]; [done|]. intros Hs. destruct p; try (by eexists 0%nat, _).
  destruct IH as (s & p & Hp & Hne); [done|]. by exists (S s), p.
Qed.

(** How many steps a call still has to take at most. *)
Definition steps_left (p : Phase) : Z :=
  match p with Gone => 0 | Released | Removed => 1 | Connected _ _ => 2 | Dialing _ _ => 3 | Active _ => 4 | Reserved => 5 end.
Definition calls_left (w : sys) : Z := sum_list (steps_left <$> sessions w).

Lemma calls_left_nonneg w : 0 <= calls_left w.
Proof. unfold calls_left, sum_list. induction (sessions w) as [|p ss IH]; cbn; [lia|]. destruct p; cbn; lia. Qed.

(** While the engine stops, every step but a refusal brings a call nearer to its
    end. *)
Lemma stopping_decreases max w w' : en_stopping (engine w) = true -> step max w w' ->
  w' = w \/ calls_left w' < calls_left w.
Proof.
  intros Hst. unfold calls_left.
  destruct 1 as [w e He|w e He|w s Hs|w s Hs|w s id Hs Hf|w s i o Hs Hf|w s i o Hs|w s p i Hs Hp|w s Hs|w];
    cbn; rewrite ?(sum_list_insert _ _ _ _ _ Hs); cbn; try (right; lia).
  - unfold reserve in He. by rewrite Hst in He.
  - unfold reserve in He. rewrite Hst in He. cbn in He. simplify_eq. left. by destruct w.
  - right. destruct p; cbn in *; try done; lia.
  - left. destruct w as [[]]; cbn in *. by subst.
Qed.

(** A call in progress can always take a step. *)
Lemma running_steps max w s p : sessions w !! s = Some p -> p <> Gone ->
  exists w', step max w w' /\ calls_left w' < calls_left w.
Proof.
  intros Hs Hp. unfold calls_left.
  assert (exists w', step max w w' /\ exists q, sessions w' = <[s := q]> (sessions w) /\ steps_left q < steps_left p)
    as (w' & Hst & q & Hw & Hq).
  { destruct p; try done; eexists; (split; [eauto using early_return, early_done, finish, finished|]); eexists; split; done. }
  exists w'. split; [done|]. rewrite Hw, (sum_list_insert _ _ _ _ _ Hs). lia.
Qed.

(** Shutdown drains: once Wait has been called no INVITE is admitted
    any more, and when the wait group it blocks on reaches zero, every call is
    gone, all slots are free and both dialog tables are empty. *)
Theorem shutdown_drains max w w' :
  0 <= max -> reachable max w -> en_stopping (engine w) = true -> rtc (step max) w w' ->
  en_stopping (engine w') = true /\ length (sessions w') = length (sessions w) /\
  (en_wg (engine w') = 0 ->
   Forall (fun p => p = Gone) (sessions w') /\ en_reserved (engine w') = 0 /\
   en_byInbound (engine w') = ∅ /\ en_byOutbound (engine w') = ∅).
Proof.
  intros Hmax Hr Hst Hstar.
  assert (Hinv : inv max w') by (apply admission_reachable_inv; [done|]; unfold reachable in *; by etrans).
  assert (Hboth : en_stopping (engine w') = true /\ length (sessions w') = length (sessions w)).
  { clear Hr Hmax Hinv. induction Hstar as [|w1 w2 w3 Hs _ IH]; [done|].
    destruct (stopping_step _ _ _ Hst Hs) as [Hs2 Hl2]. destruct (IH Hs2) as [Hs3 Hl3]. split; [done | congruence]. }
  destruct Hboth as [Hb1 Hb2]. split_and!; auto. by apply idle_empty with max.
Qed.

(** A run with a limit of one call: one call connects, a second INVITE is
    refused, the first call ends after shutdown has begun. *)
Definition connected_world (stopping : bool) : sys :=
  mkSys (mkEngine stopping 1 (<["in"%string := 0%nat]> ∅) (<["out"%string := 0%nat]> ∅) 1) [Connected "in" "out"].

Lemma connected_reachable stopping : reachable 1 (connected_world stopping).
Proof.
  assert (Hc : reachable 1 (connected_world false)).
  { unfold reachable. eapply rtc_l; [apply (admitted 1 _ (mkEngine false 1 ∅ ∅ 1)); reflexivity|].
    eapply rtc_l; [apply (register 1 _ 0 "in"); [reflexivity | by repeat constructor]|].
    eapply rtc_l; [apply (dial 1 _ 0 "in" "out"); [reflexivity | by repeat constructor]|].
    eapply rtc_l; [apply (connect 1 _ 0 "in" "out"); reflexivity|].
    eapply rtc_l; [apply (refuse 1 _ (engine (connected_world false))); reflexivity|]. apply rtc_refl. }
  destruct stopping; [|done]. unfold reachable in *. etrans; [exact Hc|]. apply rtc_once, (stop 1 (connected_world false)).
Qed.

Lemma admission_consistent_witness :
  findInboundSession (Some "in"%string) (engine (connected_world false)) = Some 0%nat /\
  en_reserved (engine (connected_world false)) <= 1.
Proof.
  destruct (admission_consistent 1 (connected_world false) ltac:(lia) (connected_reachable false)) as (Hr & _ & Hi & _).
  split; [|apply Hr]. apply Hi. exists (Connected "in" "out"). split; reflexivity.
Defined.

Definition drained_world : sys := mkSys (mkEngine true 0 ∅ ∅ 0) [Gone].

Lemma shutdown_drains_witness : en_byInbound (engine drained_world) = ∅.
Proof.
  assert (Hrun : rtc (step 1) (connected_world true) drained_world).
  { eapply rtc_l; [apply (finish 1 _ 0 (Connected "in" "out") "in"); reflexivity|].
    eapply rtc_l; [apply (finished 1 _ 0); reflexivity|]. apply rtc_refl. }
  destruct (shutdown_drains 1 (connected_world true) drained_world ltac:(lia) (connected_reachable true) eq_refl Hrun)
    as (_ & _ & Hd).
  exact (proj1 (proj2 (proj2 (Hd eq_refl)))).
Defined.

End Admission.

(** ** The pending re-INVITE

    A re-INVITE's server transaction stays pending until the caller's ACK, the
    transaction's end or the session's end, whichever is noticed first, by
    whichever goroutine; the one that takes it terminates it. *)
Module ReInvite.

(** Server transactions are named by numbers. *)
Definition Tx := nat.

(** The fields under [pendingMu]. *)
Record Pending := mkPending {
  reInviteBusy : bool;
  pendingReInvite : option Tx;
  pendingCSeq : Z;
}.

Definition beginReInvite (p : Pending) : bool * Pending :=
  if reInviteBusy p || (match pendingReInvite p with Some _ => true | None => false end) then (false, p)
  else (true, mkPending true (pendingReInvite p) (pendingCSeq p)).

Definition finishReInvite (p : Pending) : Pending := mkPending false (pendingReInvite p) (pendingCSeq p).

Definition setPendingReInvite (tx : Tx) (cseq : Z) (p : Pending) : Pending :=
  mkPending (reInviteBusy p) (Some tx) cseq.

(** The three completions return the transaction the caller must terminate. *)
Definition cleared (p : Pending) : Pending := mkPending (reInviteBusy p) None 0.

Definition completePendingReInvite (p : Pending) : option Tx * Pending := (pendingReInvite p, cleared p).

Definition completePendingReInviteCSeq (cseq : Z) (p : Pending) : option Tx * Pending :=
  match pendingReInvite p with
  | Some tx => if pendingCSeq p =? cseq then (Some tx, cleared p) else (None, p)
  | None => (None, p)
  end.

Definition completePendingReInviteTransaction (expected : Tx) (p : Pending) : option Tx * Pending :=
  if decide (pendingReInvite p = Some expected) then (pendingReInvite p, cleared p) else (None, p).

(** [hasPendingReInvite]: [acked tx] tells whether the transaction's ACK has
    arrived; an acknowledged one is completed on the spot.  Returns the answer
    and the transaction to terminate. *)
Definition hasPendingReInvite (acked : Tx -> bool) (p : Pending) : bool * option Tx * Pending :=
  match pendingReInvite p with
  | None => (false, None, p)
  | Some tx =>
      if acked tx then let '(t, p) := completePendingReInviteTransaction tx p in (false, t, p)
      else (true, None, p)
  end.

(** The session's own goroutine: waiting for commands, in the middle of a
    re-INVITE command, or finished. *)
Inductive Worker := Waiting | Handling (tx : Tx) | Finished.

(** [taken] are transactions a goroutine holds between clearing the field and
    calling [Terminate]; [terminated] logs those calls, [accepted] every
    transaction that ever became pending. *)
Record sys := mkSys {
  pend : Pending; worker : Worker; taken : list Tx; terminated : list Tx; accepted : list Tx;
}.

Definition take_tx (t : option Tx) (l : list Tx) : list Tx := match t with Some tx => tx :: l | None => l end.

Definition with_pending (x : option Tx * Pending) (w : sys) : sys :=
  mkSys x.2 (worker w) (take_tx x.1 (taken w)) (terminated w) (accepted w).
Definition with_worker (k : Worker) (w : sys) : sys :=
  mkSys (pend w) k (taken w) (terminated w) (accepted w).

Inductive step : sys -> sys -> Prop :=
| s_begin w b p : beginReInvite (pend w) = (b, p) -> step w (with_pending (None, p) w)
| s_finish w : step w (with_pending (None, finishReInvite (pend w)) w)
| s_check_busy w acked tx0 t p : worker w = Waiting -> hasPendingReInvite acked (pend w) = (true, t, p) ->
    tx0 ∉ accepted w -> step w (with_pending (t, p) w)
| s_check w acked tx t p : worker w = Waiting -> hasPendingReInvite acked (pend w) = (false, t, p) ->
    tx ∉ accepted w -> step w (with_worker (Handling tx) (with_pending (t, p) w))
| s_abandon w tx : worker w = Handling tx -> step w (with_worker Waiting w)
| s_set w tx cseq : worker w = Handling tx ->
    step w (mkSys (setPendingReInvite tx cseq (pend w)) Waiting (taken w) (terminated w) (tx :: accepted w))
| s_ack w cseq : step w (with_pending (completePendingReInviteCSeq cseq (pend w)) w)
| s_watch w tx : tx ∈ accepted w -> step w (with_pending (completePendingReInviteTransaction tx (pend w)) w)
| s_end w : worker w <> Finished ->
    step w (with_worker Finished (with_pending (completePendingReInvite (pend w)) w))
| s_terminate w tx rest : taken w ≡ₚ tx :: rest ->
    step w (mkSys (pend w) (worker w) rest (tx :: terminated w) (accepted w)).

Definition start : sys := mkSys (mkPending false None 0) Waiting [] [] [].
Definition reachable (w : sys) : Prop := rtc step start w.

Definition pending_list (p : Pending) : list Tx := match pendingReInvite p with Some tx => [tx] | None => [] end.

Record inv (w : sys) : Prop := {
  inv_account : pending_list (pend w) ++ taken w ++ terminated w ≡ₚ accepted w;
  inv_once : NoDup (accepted w);
  inv_worker : match worker w with
               | Waiting => True
               | Handling tx => pendingReInvite (pend w) = None /\ tx ∉ accepted w
               | Finished => pendingReInvite (pend w) = None
               end;
}.

(** A completion moves the pending transaction to the one who took it. *)
Definition moves (p : Pending) (x : option Tx * Pending) : Prop :=
  take_tx x.1 (pending_list x.2) ≡ₚ pending_list p /\ (pendingReInvite p = None -> pendingReInvite x.2 = None).

Lemma moves_cseq cseq p : moves p (completePendingReInviteCSeq cseq p).
Proof.
  unfold moves, completePendingReInviteCSeq, pending_list. destruct (pendingReInvite p) eqn:E; cbn.
  - destruct (_ =? _); cbn; rewrite ?E; done.
  - rewrite E. done.
Qed.
Lemma moves_tx tx p : moves p (completePendingReInviteTransaction tx p).
Proof.
  unfold moves, completePendingReInviteTransaction, pending_list. case_decide as Hd; cbn; [by rewrite Hd|done].
Qed.
Lemma moves_all p : moves p (completePendingReInvite p).
Proof. unfold moves, pending_list. cbn. by destruct (pendingReInvite p). Qed.
Lemma moves_check acked p b t p' : hasPendingReInvite acked p = (b, t, p') ->
  moves p (t, p') /\ (b = false -> pendingReInvite p' = None).
Proof.
  unfold hasPendingReInvite. destruct (pendingReInvite p) as [tx|] eqn:E.
  - destruct (acked tx).
    + pose proof (moves_tx tx p) as Hm. unfold completePendingReInviteTransaction in *.
      rewrite decide_True in * by done. intros [= <- <- <-]. done.
    + intros [= <- <- <-]. done.
  - intros [= <- <- <-]. done.
Qed.

Lemma inv_moves w x : inv w -> moves (pend w) x -> inv (with_pending x w).
Proof.
  intros [H1 H2 H3] [Hm Hn]. constructor; cbn; auto.
  - rewrite <- H1, <- Hm. destruct x as [[tx|] p]; cbn; solve_Permutation.
  - destruct (worker w); [done| |]; naive_solver.
Qed.

Lemma reinvite_step_inv w w' : inv w -> step w w' -> inv w'.
Proof.
  intros Hinv. destruct 1 as [w b p Hb|w|w acked tx0 t p Hk Hc Hf|w acked tx t p Hk Hc Hf|w tx Hk|w tx cseq Hk
    |w cseq|w tx Ht|w Hk|w tx rest Ht].
  - apply inv_moves; [done|]. unfold beginReInvite in Hb. destruct (_ || _); injection Hb as <- <-; done.
  - by apply inv_moves.
  - apply inv_moves; [done|]. by eapply moves_check.
  - apply moves_check in Hc as [Hm Hn]. destruct (inv_moves w (t, p) Hinv Hm) as [H1 H2 H3]. cbn in *.
    constructor; cbn; auto.
  - destruct Hinv as [H1 H2 H3]. constructor; cbn; auto.
  - destruct Hinv as [H1 H2 H3]. rewrite Hk in H3. destruct H3 as [Hn Hf]. unfold pending_list in H1. rewrite Hn in H1.
    constructor; cbn; [by constructor | by constructor | done].
  - apply inv_moves, moves_cseq. done.
  - apply inv_moves, moves_tx. done.
  - destruct (inv_moves w _ Hinv (moves_all (pend w))) as [H1 H2 H3]. constructor; cbn; auto.
  - destruct Hinv as [H1 H2 H3]. constructor; cbn; auto. rewrite <- H1, Ht. solve_Permutation.
Qed.

Lemma reinvite_reachable_inv w : reachable w -> inv w.
Proof.
  unfold reachable. intros Hr. assert (H0 : inv start) by (constructor; cbn; auto; constructor).
  revert H0. induction Hr as [|w1 w2 w3 Hs _ IH]; auto. intros H1. apply IH. by eapply reinvite_step_inv.
Qed.

(** Claim C37. However ACKs, transaction timeouts, new re-INVITEs and the end of
    the call race, a pending re-INVITE transaction is terminated at most once,
    an accepted one never displaces another that is still pending, and once the
    call has ended and its goroutines are through, every accepted transaction
    has been terminated exactly once. *)
Theorem reinvite_terminated_once w :
  reachable w ->
  NoDup (terminated w) /\ (forall tx, tx ∈ terminated w -> tx ∈ accepted w) /\
  (forall tx, worker w = Handling tx -> pendingReInvite (pend w) = None) /\
  (worker w = Finished -> taken w = [] -> terminated w ≡ₚ accepted w).
Proof.
  intros Hr. destruct (reinvite_reachable_inv w Hr) as [H1 H2 H3]. split_and!.
  - rewrite <- H1 in H2. apply NoDup_app in H2 as (_ & _ & H2). by apply NoDup_app in H2 as (_ & _ & H2).
  - intros tx Htx. rewrite <- H1, !elem_of_app. auto.
  - intros tx Hw. rewrite Hw in H3. apply H3.
  - intros Hw Ht. rewrite Hw in H3. unfold pending_list in H1. by rewrite H3, Ht in H1.
Qed.

(** A re-INVITE becomes pending; its ACK and the end of the session race. *)
Definition ended : sys := mkSys (mkPending false None 0) Finished [] [7%nat] [7%nat].

Lemma reinvite_terminated_once_witness : NoDup (terminated ended) /\ terminated ended ≡ₚ [7%nat].
Proof.
  assert (Hr : reachable ended).
  { unfold reachable, start. eapply rtc_l; [apply (s_check _ (fun _ => false) 7%nat None (mkPending false None 0)); auto using not_elem_of_nil|].
    eapply rtc_l; [apply (s_set _ 7%nat 2); reflexivity|].
    eapply rtc_l; [apply (s_ack _ 2)|]. eapply rtc_l; [apply s_end; discriminate|].
    eapply rtc_l; [apply (s_terminate _ 7%nat []); reflexivity|]. apply rtc_refl. }
  destruct (reinvite_terminated_once ended Hr) as (Hn & _ & _ & Ha). split; [exact Hn|]. apply Ha; reflexivity.
Defined.

End ReInvite.
