(* ===== verification/B2buaSession.v ===== *)
(** * B2BUA session: one call from INVITE to release

    Models the goroutine of one call, [session.run] of
    [internal/sip/b2bua/engine.go] with the handlers of [in_dialog.go] it calls.
    The goroutine is sequential: the model runs it on what its surroundings
    answer (the call actor's dispatch, SIP responses and transactions, the
    callee's answers, the commands of other goroutines) and records what it does
    as a trace of actions.  SDP parsing, negotiation and building, the media
    session's configuration, and the call's state machine are the definitions of
    the other files.  SIP dialogs are managed by [emiago/sipgo]; their outcomes
    are part of the surroundings. *)

From S2P Require Import Prelude Netip Sdp PortAlloc Rtp MediaEndpoint MediaRtcp MediaSession.
From S2P Require Call Registration.

Definition statusSessionProgress : Z := 183.
Definition statusTrying : Z := 100.
Definition statusRinging : Z := 180.

Definition errMediaNegotiation : string := "media negotiation failed".

Section Session.
Context `{SdpCodec}.

(** What the goroutine does to the world, in order. *)
Inductive Action :=
| ATransition (state : Call.State) (protocolEvent reason : string)   (* asked of the call actor *)
| ARespond (status : Z) (body : option Body)                        (* on the caller's INVITE *)
| AInvite (offer : Body)                                             (* to the callee *)
| AAck                                                               (* to the callee *)
| AByeCallee
| AByeCaller
| AReInvite (offer : Body)                                           (* to the callee *)
| ATxRespond (tx : nat) (status : Z)                                 (* on an in-dialog request *)
| ASetPending (tx : nat)
| AMediaNew
| AMediaConfigure (mapping : Mapping)
| AMediaStart
| AMediaClose
| ACompletePending
| ACloseInbound
| ARemove
| ACloseOutbound.

(** How the actor answers one transition request: it applies it, it never gets
    it, or it applies it but the answer comes too late. *)
Inductive Dispatch := Delivered | Undelivered (e : error) | TimedOut (e : error).

Record Sess := mkSess {
  x_state : Call.State;                  (* the actor's state *)
  x_asked : nat;                         (* transitions requested so far *)
  x_answers : nat;                       (* responses attempted so far *)
  x_trace : list Action;
  x_callerOffer : option Endpoint;
  x_mediaMapping : option Mapping;       (* None while its Name is empty *)
  x_callerAnswer : option Body;
  x_media : option Session;
  x_mediaRunning : bool;                 (* mediaResult is not nil *)
  x_outbound : bool;
}.

Definition init_session : Sess := mkSess Call.StateNew 0 0 [] None None None None false false.

Definition record (a : Action) (s : Sess) : Sess :=
  mkSess (x_state s) (x_asked s) (x_answers s) (x_trace s ++ [a]) (x_callerOffer s) (x_mediaMapping s)
    (x_callerAnswer s) (x_media s) (x_mediaRunning s) (x_outbound s).
Definition set_state (st : Call.State) (s : Sess) : Sess :=
  mkSess st (S (x_asked s)) (x_answers s) (x_trace s) (x_callerOffer s) (x_mediaMapping s)
    (x_callerAnswer s) (x_media s) (x_mediaRunning s) (x_outbound s).
Definition count_answer (s : Sess) : Sess :=
  mkSess (x_state s) (x_asked s) (S (x_answers s)) (x_trace s) (x_callerOffer s) (x_mediaMapping s)
    (x_callerAnswer s) (x_media s) (x_mediaRunning s) (x_outbound s).
Definition set_offer (o : option Endpoint) (s : Sess) : Sess :=
  mkSess (x_state s) (x_asked s) (x_answers s) (x_trace s) o (x_mediaMapping s)
    (x_callerAnswer s) (x_media s) (x_mediaRunning s) (x_outbound s).
Definition set_media (m : option Session) (s : Sess) : Sess :=
  mkSess (x_state s) (x_asked s) (x_answers s) (x_trace s) (x_callerOffer s) (x_mediaMapping s)
    (x_callerAnswer s) m (x_mediaRunning s) (x_outbound s).
Definition set_mapping (m : Mapping) (s : Sess) : Sess :=
  mkSess (x_state s) (x_asked s) (x_answers s) (x_trace s) (x_callerOffer s) (Some m)
    (x_callerAnswer s) (x_media s) (x_mediaRunning s) (x_outbound s).
Definition set_answer (b : Body) (s : Sess) : Sess :=
  mkSess (x_state s) (x_asked s) (x_answers s) (x_trace s) (x_callerOffer s) (x_mediaMapping s)
    (Some b) (x_media s) (x_mediaRunning s) (x_outbound s).
Definition set_running (b : bool) (s : Sess) : Sess :=
  mkSess (x_state s) (x_asked s) (x_answers s) (x_trace s) (x_callerOffer s) (x_mediaMapping s)
    (x_callerAnswer s) (x_media s) b (x_outbound s).
Definition set_outbound (s : Sess) : Sess :=
  mkSess (x_state s) (x_asked s) (x_answers s) (x_trace s) (x_callerOffer s) (x_mediaMapping s)
    (x_callerAnswer s) (x_media s) (x_mediaRunning s) true.

(** A response of the callee while its answer is awaited. *)
Record Provisional := mkProvisional { pr_Status : Z; pr_Body : option Body }.

(** The callee's final answer, as [WaitAnswer] reports it. *)
Inductive Final :=
| FinalOK (body : option Body)
| FinalResponse (status : Z) (reason : string) (body : option Body)   (* ErrDialogResponse *)
| FinalError (e : error).                                            (* canceled, timed out, ... *)

Inductive hangupOrigin := hangupCaller | hangupCallee.

(** What wakes the established call's loop.  An in-dialog request comes with
    its transaction and with how the other leg answers it. *)
Inductive Wakeup :=
| CommandHangup (origin : hangupOrigin)
| CommandReInvite (tx : nat) (body : Body) (pending : bool) (reply : option (Z * Body)) (ackErr : option error)
| CommandRefer (tx : nat) (reply : option Z)
| CommandNotify (tx : nat) (reply : option Z)
| ParentDone
| MediaResult (e : option error).

(** The surroundings of one call. *)
Record Surroundings := mkSurroundings {
  su_dispatch : nat -> Dispatch;             (* of the n-th transition *)
  su_respond : nat -> option error;          (* of the n-th response to the caller *)
  su_now : Time;
  su_resolve : result Registration.Binding;  (* registrations.Resolve *)
  su_inviteBody : Body;
  su_media : result Session;                 (* mediaFactory.New *)
  su_outbound : option error;                (* createOutbound *)
  su_provisional : list Provisional;
  su_final : Final;
  su_ack : option error;
  su_wakeups : list Wakeup;
}.

Variable env : Surroundings.

(** [s.transition]: the request to the actor, which follows its state machine. *)
Definition transition (state : Call.State) (protocolEvent reason : string) (s : Sess) : option error * Sess :=
  let s' := record (ATransition state protocolEvent reason) s in
  let applied :=
    if Call.eqs state (x_state s) then (None, x_state s)
    else if Call.allowedTransition (x_state s) state then (None, state)
    else (Some (Errorf "transition" [Sentinel Call.ErrInvalidTransition]), x_state s) in
  match su_dispatch env (x_asked s) with
  | Delivered => (applied.1, set_state applied.2 s')
  | Undelivered e => (Some e, set_state (x_state s) s')
  | TimedOut e => (Some e, set_state applied.2 s')
  end.

Definition fail (reason protocolEvent : string) (s : Sess) : Sess :=
  (transition Call.StateFailed protocolEvent reason s).2.

Definition terminate (reason protocolEvent : string) (s : Sess) : Sess :=
  let s := (transition Call.StateTerminating protocolEvent reason s).2 in
  (transition Call.StateTerminated protocolEvent reason s).2.

(** [s.inbound.Respond] *)
Definition respond (status : Z) (body : option Body) (s : Sess) : option error * Sess :=
  (su_respond env (x_answers s), count_answer (record (ARespond status body) s)).

Definition startMedia (s : Sess) : Sess :=
  if x_mediaRunning s then s else set_running true (record AMediaStart s).

Definition mapping_eqb (a b : Mapping) : bool :=
  String.eqb (m_Name a) (m_Name b) && (m_ClockRate a =? m_ClockRate b) && (m_CallerPT a =? m_CallerPT b)
  && (m_CalleePT a =? m_CalleePT b) && (m_CallerDTMFPT a =? m_CallerDTMFPT b)
  && (m_CalleeDTMFPT a =? m_CalleeDTMFPT b) && Bool.eqb (m_HasDTMF a) (m_HasDTMF b).

Definition applyMediaAnswer (body : Body) (s : Sess) : result Body * Sess :=
  match ParseAudio body with
  | Err e => (Err (Errorf "parse callee SDP" [e]), s)
  | Ok calleeAnswer =>
      match x_callerOffer s, x_media s with
      | Some offer, Some media =>
          match Negotiate offer calleeAnswer with
          | Err e => (Err e, s)
          | Ok mapping =>
              if match x_mediaMapping s with Some m => negb (mapping_eqb m mapping) | None => false end
              then (Err (Errorf "callee changed negotiated media mapping" []), s) else
              match Configure offer calleeAnswer mapping media with
              | (Some e, _) => (Err e, s)
              | (None, media) =>
                  let s := set_mapping mapping (record (AMediaConfigure mapping) (set_media (Some media) s)) in
                  match LocalEndpoint CallerLeg media with
                  | Err e => (Err e, s)
                  | Ok (callerRTP, callerRTCP) =>
                      match BuildAudio (su_now env) callerRTP callerRTCP (CodecListForAnswer mapping)
                              (ep_Direction calleeAnswer) with
                      | Err e => (Err e, s)
                      | Ok answer => (Ok answer, startMedia (set_answer answer s))
                      end
                  end
              end
          end
      | _, _ => (Err (Errorf "media session missing" []), s)
      end
  end.

(** The [OnResponse] callback for one provisional response. *)
Definition onResponse (r : Provisional) (s : Sess) : option error * Sess :=
  if negb (pr_Status r <? 200) || (pr_Status r =? statusTrying) then (None, s) else
  match (if pr_Status r =? statusSessionProgress then pr_Body r else None) with
  | Some body =>
      match applyMediaAnswer body s with
      | (Err e, s) => (Some (Errorf "" [Sentinel errMediaNegotiation; e]), s)
      | (Ok answer, s) =>
          match transition Call.StateEarlyMedia "183" "" s with
          | (Some e, s) => (Some e, s)
          | (None, s) => respond (pr_Status r) (Some answer) s
          end
      end
  | None =>
      if (pr_Status r =? statusRinging) || (pr_Status r =? statusSessionProgress) then
        match transition Call.StateRinging (GoStrings.Itoa (pr_Status r)) "" s with
        | (Some e, s) => (Some e, s)
        | (None, s) => respond (pr_Status r) (pr_Body r) s
        end
      else respond (pr_Status r) (pr_Body r) s
  end.

(** [WaitAnswer]: the callback on each provisional response, until one fails or
    the final answer arrives. *)
Fixpoint waitAnswer (responses : list Provisional) (s : Sess) : Final * Sess :=
  match responses with
  | [] => (su_final env, s)
  | r :: rest =>
      match onResponse r s with
      | (Some e, s) => (FinalError e, s)
      | (None, s) => waitAnswer rest s
      end
  end.

Definition handleHangup (origin : hangupOrigin) (s : Sess) : Sess :=
  match transition Call.StateTerminating "BYE" "normal clearing" s with
  | (Some _, s) => s
  | (None, s) =>
      let s := match origin with
               | hangupCaller => if x_outbound s then record AByeCallee s else s
               | hangupCallee => record AByeCaller s
               end in
      (transition Call.StateTerminated "200" "normal clearing" s).2
  end.

(** [handleReInviteCommand] *)
Definition handleReInviteCommand (tx : nat) (body : Body) (pending : bool) (reply : option (Z * Body))
    (ackErr : option error) (s : Sess) : Sess :=
  if pending then record (ATxRespond tx 491) s else
  match ParseAudio body with
  | Err _ => record (ATxRespond tx 488) s
  | Ok offer =>
      match match x_media s with Some m => LocalEndpoint CalleeLeg m | None => Err (Errorf "no media" []) end with
      | Err _ => record (ATxRespond tx 500) s
      | Ok (calleeRTP, calleeRTCP) =>
          match BuildAudio (su_now env) calleeRTP calleeRTCP (CodecListForOffer offer) (ep_Direction offer) with
          | Err _ => record (ATxRespond tx 488) s
          | Ok outboundOffer =>
              let s := record (AReInvite outboundOffer) s in
              match reply with
              | None => record (ATxRespond tx 408) s
              | Some (status, answerBody) =>
                  if (status <? 200) || (300 <=? status) then record (ATxRespond tx status) s else
                  let s := record AAck s in
                  match ackErr with
                  | Some _ => record (ATxRespond tx 503) s
                  | None =>
                      let previousOffer := x_callerOffer s in
                      match applyMediaAnswer answerBody (set_offer (Some offer) s) with
                      | (Err _, s) => record (ATxRespond tx 488) (set_offer previousOffer s)
                      | (Ok _, s) =>
                          let state := if String.eqb (ep_Direction offer) DirectionSendRecv
                                       then Call.StateAnswered else Call.StateHeld in
                          match transition state "re-INVITE" "" s with
                          | (Some _, s) => record (ATxRespond tx 500) s
                          | (None, s) => record (ATxRespond tx 200) (record (ASetPending tx) s)
                          end
                      end
                  end
              end
          end
      end
  end.

(** [respondRelayed] *)
Definition relay (tx : nat) (reply : option Z) (s : Sess) : Sess :=
  record (ATxRespond tx (match reply with Some status => status | None => 408 end)) s.

(** The loop of the established call.  A run of the model ends when its list of
    wake-ups does. *)
Fixpoint established (wakeups : list Wakeup) (s : Sess) : Sess :=
  match wakeups with
  | [] => s
  | CommandHangup origin :: _ => handleHangup origin s
  | CommandReInvite tx body pending reply ackErr :: rest =>
      established rest (handleReInviteCommand tx body pending reply ackErr s)
  | CommandRefer tx reply :: rest => established rest (relay tx reply s)
  | CommandNotify tx reply :: rest => established rest (relay tx reply s)
  | ParentDone :: _ => handleHangup hangupCaller s
  | MediaResult _ :: _ => handleHangup hangupCaller (set_running false s)
  end.

(** From the callee's final answer to the established call. *)
Definition answered (final : Final) (s : Sess) : Sess :=
  match final with
  | FinalResponse status reason body =>
      fail reason (GoStrings.Itoa status) (respond status body s).2
  | FinalError e =>
      if errors_Is e errMediaNegotiation then
        fail "callee early media negotiation failed" "488" (respond 488 None s).2
      else fail "outbound invite canceled or timed out" "CANCEL" s
  | FinalOK body =>
      let reject reason s := fail reason "488" (respond 488 None (record AByeCallee (record AAck s))).2 in
      match match body with Some b => applyMediaAnswer b s | None => (Ok (su_inviteBody env), s) end with
      | (Err _, s) => reject "callee SDP negotiation failed"%string s
      | (Ok _, s) =>
          match x_callerAnswer s with
          | None => reject "callee answer contained no usable SDP"%string s
          | Some answer =>
              let s := record AAck s in
              match su_ack env with
              | Some _ => fail "outbound ACK failed" "ACK" (respond 503 None s).2
              | None =>
                  match transition Call.StateAnswered "200" "" s with
                  | (Some _, s) => record AByeCallee s
                  | (None, s) =>
                      match respond 200 (Some answer) s with
                      | (Some _, s) => terminate "caller answer transaction failed" "CANCEL" (record AByeCallee s)
                      | (None, s) => established (su_wakeups env) s
                      end
                  end
              end
          end
      end
  end.

(** [run] without its deferred calls. *)
Definition run_body (s : Sess) : Sess :=
  match transition Call.StateRouting "INVITE" "" s with
  | (Some _, s) => s
  | (None, s) =>
      match respond statusTrying None s with
      | (Some _, s) => fail "caller transaction failed" "INVITE" s
      | (None, s) =>
          match su_resolve env with
          | Err _ => fail "callee not registered" "404" (respond 404 None s).2
          | Ok binding =>
              match ParseAudio (su_inviteBody env) with
              | Err _ => fail "invalid or unsupported caller SDP" "488" (respond 488 None s).2
              | Ok callerOffer =>
                  let s := set_offer (Some callerOffer) s in
                  match su_media env with
                  | Err _ => fail "media resources unavailable" "503" (respond 503 None s).2
                  | Ok media =>
                      let s := record AMediaNew (set_media (Some media) s) in
                      match LocalEndpoint CalleeLeg media with
                      | Err _ => fail "media endpoint unavailable" "500" (respond 500 None s).2
                      | Ok (calleeRTP, calleeRTCP) =>
                          match BuildAudio (su_now env) calleeRTP calleeRTCP (CodecListForOffer callerOffer)
                                  (ep_Direction callerOffer) with
                          | Err _ => fail "unable to build callee SDP" "488" (respond 488 None s).2
                          | Ok outboundOffer =>
                              match su_outbound env with
                              | Some _ => fail "outbound invite failed" "INVITE" (respond 503 None s).2
                              | None =>
                                  let s := set_outbound (record (AInvite outboundOffer) s) in
                                  let '(final, s) := waitAnswer (su_provisional env) s in
                                  answered final s
                              end
                          end
                      end
                  end
              end
          end
      end
  end.

(** The deferred calls, last one first: the actor is stopped (it terminates a
    call that has not ended), a re-INVITE that waits for its ACK is completed, the
    media session is closed, the inbound dialog is closed and the session is
    removed from the engine, which closes its outbound dialog if there is one. *)
Definition stop_actor (s : Sess) : Sess :=
  if Call.isTerminal (x_state s) then s
  else mkSess Call.StateTerminated (x_asked s) (x_answers s) (x_trace s) (x_callerOffer s) (x_mediaMapping s)
         (x_callerAnswer s) (x_media s) (x_mediaRunning s) (x_outbound s).

Definition stopMedia (s : Sess) : Sess :=
  match x_media s with None => s | Some _ => set_running false (record AMediaClose s) end.

Definition remove_session (s : Sess) : Sess :=
  let s := record ARemove s in
  if x_outbound s then record ACloseOutbound s else s.

Definition deferred_calls (s : Sess) : Sess :=
  remove_session (record ACloseInbound (stopMedia (record ACompletePending (stop_actor s)))).

Definition run : Sess := deferred_calls (run_body init_session).

(** ** What the two parties may see

    The specification is a small state machine over the actions: the caller's
    INVITE transaction and dialog, the callee's dialog, and the call's media.
    It says nothing about how the call is handled. *)

Inductive CallerPhase := Proceeding | Rejected | Accepted | CallerReleased.
Inductive CalleePhase := Idle | Invited | Confirmed | Renegotiating | CalleeReleased | CalleeClosed.
Inductive MediaPhase := NoMedia | Allocated | Running | Freed.
Inductive Stage := Open | Closed | Removed.

Record Phase := mkPhase {
  ph_caller : CallerPhase; ph_callee : CalleePhase; ph_media : MediaPhase; ph_stage : Stage;
}.

Definition initial_phase : Phase := mkPhase Proceeding Idle NoMedia Open.

(** One action, if it is allowed. *)
Definition spec_open (p : Phase) (a : Action) : option Phase :=
  let '(mkPhase caller callee media stage) := p in
  match a, caller, callee, media with
  | ATransition _ _ _, _, _, _ => Some p
  | ARespond status _, Proceeding, _, _ =>
      if status <? 200 then Some p
      else if status <? 300 then
        match callee, media with
        | Confirmed, Running => Some (mkPhase Accepted callee media stage)
        | _, _ => None
        end
      else Some (mkPhase Rejected callee media stage)
  | AMediaNew, Proceeding, Idle, NoMedia => Some (mkPhase caller callee Allocated stage)
  | AInvite _, Proceeding, Idle, Allocated => Some (mkPhase caller Invited media stage)
  | AMediaConfigure _, _, _, (Allocated | Running) => Some p
  | AMediaStart, _, _, Allocated => Some (mkPhase caller callee Running stage)
  | AAck, _, (Invited | Renegotiating), _ => Some (mkPhase caller Confirmed media stage)
  | AReInvite _, Accepted, Confirmed, Running => Some (mkPhase caller Renegotiating media stage)
  | ATxRespond _ _, Accepted, (Confirmed | Renegotiating), _ => Some (mkPhase caller Confirmed media stage)
  | ASetPending _, Accepted, Confirmed, Running => Some p
  | AByeCallee, _, Confirmed, _ => Some (mkPhase caller CalleeReleased media stage)
  | AByeCaller, Accepted, _, _ => Some (mkPhase CallerReleased callee media stage)
  | ACompletePending, _, _, (NoMedia | Allocated | Running) => Some p
  | AMediaClose, _, _, (Allocated | Running) => Some (mkPhase caller callee Freed stage)
  | ACloseInbound, _, _, (NoMedia | Freed) => Some (mkPhase caller callee media Closed)
  | _, _, _, _ => None
  end.

Definition spec_step (p : Phase) (a : Action) : option Phase :=
  match ph_stage p with
  | Open => spec_open p a
  | Closed => match a with ARemove => Some (mkPhase (ph_caller p) (ph_callee p) (ph_media p) Removed) | _ => None end
  | Removed =>
      match a, ph_callee p with
      | ACloseOutbound, (Idle | CalleeClosed) => None
      | ACloseOutbound, _ => Some (mkPhase (ph_caller p) CalleeClosed (ph_media p) Removed)
      | _, _ => None
      end
  end.

Fixpoint spec_from (p : Phase) (trace : list Action) : option Phase :=
  match trace with
  | [] => Some p
  | a :: rest => p' ← spec_step p a; spec_from p' rest
  end.

Definition spec_run (trace : list Action) : option Phase := spec_from initial_phase trace.

Lemma spec_from_app p t1 t2 : spec_from p (t1 ++ t2) = (p' ← spec_from p t1; spec_from p' t2).
Proof. revert p. induction t1 as [|a t1 IH]; intros p; cbn; [done|]. destruct (spec_step p a); cbn; auto. Qed.

Lemma spec_run_snoc t a : spec_run (t ++ [a]) = (p ← spec_run t; spec_step p a).
Proof.
  unfold spec_run. rewrite spec_from_app. destruct (spec_from initial_phase t) as [p|]; cbn; [|done].
  by destruct (spec_step p a).
Qed.

(** ** Simulation

    [released_ok]: what the deferred calls rely on.  [sim]: what the goroutine
    keeps while it runs. *)

Definition has_dialog (c : CalleePhase) : bool := match c with Idle | CalleeClosed => false | _ => true end.

Record released_ok (s : Sess) (p : Phase) : Prop := {
  ro_trace : spec_run (x_trace s) = Some p;
  ro_media : match ph_media p with NoMedia => x_media s = None | Freed => False | _ => x_media s <> None end;
  ro_open : ph_stage p = Open;
  ro_outbound : x_outbound s = has_dialog (ph_callee p);
}.

Record sim (s : Sess) (p : Phase) : Prop := {
  sim_ok : released_ok s p;
  sim_running : x_mediaRunning s = match ph_media p with Running => true | _ => false end;
  sim_answer : x_callerAnswer s <> None -> ph_media p = Running;
}.

Definition active (m : MediaPhase) : Prop := m = Allocated \/ m = Running.

(** Only an INVITE opens the callee's dialog. *)
Definition is_invite (a : Action) : bool := match a with AInvite _ => true | _ => false end.

Lemma spec_dialog p a p' : spec_step p a = Some p' -> ph_stage p' = Open -> is_invite a = false ->
  has_dialog (ph_callee p') = has_dialog (ph_callee p).
Proof. intros Hs Ho Ha. destruct p as [c e m st]. unfold spec_step, spec_open in Hs. cbn in *. repeat case_match; simplify_eq; done. Qed.

(** Recording an action the specification allows, for a phase that keeps the
    media as they are. *)
Lemma record_released a s p p' :
  released_ok s p -> spec_step p a = Some p' -> ph_media p' = ph_media p -> ph_stage p' = Open -> is_invite a = false ->
  released_ok (record a s) p'.
Proof.
  intros [H1 H2 H3 H4] Hs Hm Ho Ha. split; cbn; auto.
  - by rewrite spec_run_snoc, H1.
  - by rewrite Hm.
  - by rewrite (spec_dialog _ _ _ Hs Ho Ha).
Qed.

Lemma record_sim a s p p' :
  sim s p -> spec_step p a = Some p' -> ph_media p' = ph_media p -> ph_stage p' = Open -> is_invite a = false ->
  sim (record a s) p'.
Proof.
  intros [H1 H2 H3] Hs Hm Ho Ha. split; cbn; rewrite ?Hm; auto. by eapply record_released.
Qed.

(** Fields the specification does not look at. *)
Definition same_view (s t : Sess) : Prop :=
  x_trace t = x_trace s /\ (x_media t = None <-> x_media s = None) /\
  x_mediaRunning t = x_mediaRunning s /\ x_outbound t = x_outbound s /\
  (x_callerAnswer t <> None -> x_callerAnswer s <> None).

Lemma same_view_released s t p : same_view s t -> released_ok s p -> released_ok t p.
Proof.
  intros (H1 & H2 & _ & H4 & _) [R1 R2 R3 R4]. split; auto; [by rewrite H1| |congruence]. destruct (ph_media p); naive_solver.
Qed.

Lemma same_view_sim s t p : same_view s t -> sim s p -> sim t p.
Proof.
  intros Hv [R1 R2 R3]. split; [by eapply same_view_released | |]; destruct Hv as (_ & _ & Hr & _ & Ha); [by rewrite Hr | auto].
Qed.

Lemma transition_view st pe reason s : same_view (record (ATransition st pe reason) s) (transition st pe reason s).2.
Proof. unfold transition. by destruct (su_dispatch env (x_asked s)). Qed.

Lemma transition_step p st pe reason : ph_stage p = Open -> spec_step p (ATransition st pe reason) = Some p.
Proof. destruct p as [c e m []]; done. Qed.

Lemma transition_released st pe reason s p : released_ok s p -> released_ok (transition st pe reason s).2 p.
Proof.
  intros Hs. eapply same_view_released; [apply transition_view|].
  eapply record_released; [done | | done | | done]; try apply transition_step; apply (ro_open _ _ Hs).
Qed.

Lemma transition_sim st pe reason s p : sim s p -> sim (transition st pe reason s).2 p.
Proof.
  intros Hs. eapply same_view_sim; [apply transition_view|].
  eapply record_sim; [done | | done | | done]; try apply transition_step; apply (ro_open _ _ (sim_ok _ _ Hs)).
Qed.

Lemma fail_sim reason pe s p : sim s p -> sim (fail reason pe s) p.
Proof. apply transition_sim. Qed.

Lemma terminate_sim reason pe s p : sim s p -> sim (terminate reason pe s) p.
Proof. intros Hs. unfold terminate. by do 2 apply transition_sim. Qed.

Lemma respond_sim status body s p p' :
  sim s p -> spec_step p (ARespond status body) = Some p' -> ph_media p' = ph_media p -> ph_stage p' = Open ->
  sim (respond status body s).2 p'.
Proof. intros Hs H1 H2 H3. eapply same_view_sim; [|by eapply record_sim]. done. Qed.

Lemma respond_provisional status body s e m :
  status < 200 -> sim s (mkPhase Proceeding e m Open) -> sim (respond status body s).2 (mkPhase Proceeding e m Open).
Proof. intros Hlt Hs. eapply respond_sim; [done| |done|done]. cbn. by rewrite (proj2 (Z.ltb_lt _ _) Hlt). Qed.

Lemma respond_rejection status body s e m :
  300 <= status -> sim s (mkPhase Proceeding e m Open) -> sim (respond status body s).2 (mkPhase Rejected e m Open).
Proof.
  intros Hge Hs. eapply respond_sim; [done| |done|done]. cbn.
  by rewrite (proj2 (Z.ltb_ge status 200)), (proj2 (Z.ltb_ge status 300)) by lia.
Qed.

(** Media start at most once, at the first answer that can be applied. *)
Lemma startMedia_sim s c e m :
  active m -> sim s (mkPhase c e m Open) -> sim (startMedia s) (mkPhase c e Running Open).
Proof.
  intros Hm Hs. unfold startMedia. destruct Hs as [[R1 R2 R3 R4] H2 H3]. destruct Hm as [-> | ->]; cbn in *; rewrite H2.
  - split; cbn; auto. split; cbn; auto. by rewrite spec_run_snoc, R1.
  - by split.
Qed.

Lemma applyMediaAnswer_sim body s c e m :
  active m -> sim s (mkPhase c e m Open) ->
  exists m', active m' /\ sim (applyMediaAnswer body s).2 (mkPhase c e m' Open) /\
    (is_Ok (applyMediaAnswer body s).1 -> m' = Running) /\ (m = Running -> m' = Running).
Proof.
  intros Hm Hs. unfold applyMediaAnswer.
  destruct (ParseAudio body) as [callee|err]; [|by exists m].
  destruct (x_callerOffer s) as [offer|]; [|by exists m]. destruct (x_media s) as [media|] eqn:Emedia; [|by exists m].
  destruct (Negotiate offer callee) as [mapping|err]; [|by exists m].
  destruct (match x_mediaMapping s with Some _ => _ | None => _ end); [by exists m|].
  destruct (Configure offer callee mapping media) as [[err|] media']; [by exists m|].
  assert (Hc : sim (set_mapping mapping (record (AMediaConfigure mapping) (set_media (Some media') s)))
                 (mkPhase c e m Open)).
  { eapply (same_view_sim (record (AMediaConfigure mapping) (set_media (Some media') s))); [done|].
    eapply record_sim; [| |done|done|done]; [|by destruct Hm as [-> | ->]]. eapply same_view_sim; [|exact Hs].
    unfold same_view. cbn. by rewrite Emedia. }
  destruct (LocalEndpoint CallerLeg media') as [[rtp rtcp]|err]; [|by exists m].
  destruct (BuildAudio _ _ _ _ _) as [answer|err]; [|by exists m].
  exists Running. split; [by right|]. split; [|done]. cbn [snd].
  destruct (startMedia_sim _ _ _ _ Hm Hc) as [R1 R2 R3]. unfold startMedia in *. cbn in *.
  destruct R1 as [T1 T2 T3 T4]. destruct (x_mediaRunning s); cbn in *; split; cbn; auto; by split.
Qed.

Lemma onResponse_sim r s e m :
  active m -> sim s (mkPhase Proceeding e m Open) ->
  exists m', active m' /\ sim (onResponse r s).2 (mkPhase Proceeding e m' Open).
Proof.
  intros Hm Hs. unfold onResponse.
  destruct (negb (pr_Status r <? 200) || (pr_Status r =? statusTrying)) eqn:Ep; [by exists m|].
  assert (Hlt : pr_Status r < 200) by (bool_prop; lia). clear Ep.
  assert (Hrest : forall x, sim x (mkPhase Proceeding e m Open) -> exists m', active m' /\
    sim (respond (pr_Status r) (pr_Body r) x).2 (mkPhase Proceeding e m' Open)).
  { intros x Hx. exists m. split; [done|]. by apply respond_provisional. }
  destruct (if pr_Status r =? statusSessionProgress then pr_Body r else None) as [body|].
  - destruct (applyMediaAnswer_sim body s _ _ _ Hm Hs) as (m' & Hm' & Hs' & _ & _).
    destruct (applyMediaAnswer body s) as [[answer|err] s1]; [|by exists m'].
    pose proof (transition_sim Call.StateEarlyMedia "183" "" _ _ Hs') as Ht. cbn [snd] in *.
    destruct (transition _ _ _ s1) as [[err|] s2]; exists m'; split; auto. by apply respond_provisional.
  - destruct (_ || _); [|by apply Hrest].
    pose proof (transition_sim Call.StateRinging (GoStrings.Itoa (pr_Status r)) "" _ _ Hs) as Ht. cbn [snd] in *.
    destruct (transition _ _ _ s) as [[err|] s2]; [by exists m | by apply Hrest].
Qed.

Lemma waitAnswer_sim responses : forall s e m,
  active m -> sim s (mkPhase Proceeding e m Open) ->
  exists m', active m' /\ sim (waitAnswer responses s).2 (mkPhase Proceeding e m' Open).
Proof.
  induction responses as [|r rest IH]; intros s e m Hm Hs; cbn [waitAnswer]; [by exists m|].
  destruct (onResponse_sim r _ _ _ Hm Hs) as (m' & Hm' & Hs').
  destruct (onResponse r s) as [[err|] s']; [by exists m' | by eapply IH].
Qed.

(** The hang-up leaves the dialogs as they are or says BYE on one of them. *)
Lemma handleHangup_released origin s m :
  active m -> released_ok s (mkPhase Accepted Confirmed m Open) ->
  exists p, released_ok (handleHangup origin s) p.
Proof.
  intros Hm Hs. unfold handleHangup.
  pose proof (transition_released Call.StateTerminating "BYE" "normal clearing" _ _ Hs) as Ht. cbn [snd] in Ht.
  destruct (transition _ _ _ s) as [[err|] s1]; cbn [snd] in Ht; [by eauto|].
  destruct origin; [destruct (x_outbound s1)|]; eexists; apply transition_released;
    first [exact Ht | by eapply record_released].
Qed.

Definition up : Phase := mkPhase Accepted Confirmed Running Open.

Lemma txRespond_sim tx status s e :
  e = Confirmed \/ e = Renegotiating ->
  sim s (mkPhase Accepted e Running Open) -> sim (record (ATxRespond tx status) s) up.
Proof. intros [-> | ->] Hs; by eapply record_sim. Qed.

Lemma handleReInvite_sim tx body pending reply ackErr s :
  sim s up -> sim (handleReInviteCommand tx body pending reply ackErr s) up.
Proof.
  intros Hs. pose proof (fun t status => txRespond_sim tx status t _ (or_introl eq_refl)) as Hconf.
  pose proof (fun t status => txRespond_sim tx status t _ (or_intror eq_refl)) as Hren. unfold handleReInviteCommand.
  destruct pending; [by apply Hconf|]. destruct (ParseAudio body) as [offer|err]; [|by apply Hconf].
  destruct (match x_media s with Some _ => _ | None => _ end) as [[rtp rtcp]|err]; [|by apply Hconf].
  destruct (BuildAudio _ _ _ _ _) as [out|err]; [|by apply Hconf].
  assert (H1 : sim (record (AReInvite out) s) (mkPhase Accepted Renegotiating Running Open)) by by eapply record_sim.
  destruct reply as [[status answer]|]; [|by apply Hren]. destruct (_ || _); [by apply Hren|].
  assert (H2 : sim (record AAck (record (AReInvite out) s)) up) by by eapply record_sim.
  destruct ackErr; [by apply Hconf|].
  assert (H3 : sim (set_offer (Some offer) (record AAck (record (AReInvite out) s))) up) by (eapply same_view_sim; [|exact H2]; done).
  destruct (applyMediaAnswer_sim answer _ _ _ _ (or_intror eq_refl) H3) as (m' & Hm' & H4 & _ & Hkeep).
  rewrite (Hkeep eq_refl) in H4. clear Hkeep Hm'.
  destruct (applyMediaAnswer answer _) as [[a|err] s4]; cbn [snd] in H4.
  - pose proof (fun st => transition_sim st "re-INVITE" "" _ _ H4) as Ht.
    specialize (Ht (if String.eqb (ep_Direction offer) DirectionSendRecv then Call.StateAnswered else Call.StateHeld)).
    cbn [snd] in Ht. destruct (transition _ _ _ s4) as [[err|] s5]; apply Hconf; [exact Ht|].
    by eapply record_sim.
  - apply Hconf. eapply same_view_sim; [|exact H4]; done.
Qed.

Lemma established_released wakeups : forall s, sim s up -> exists p, released_ok (established wakeups s) p.
Proof.
  induction wakeups as [|w rest IH]; intros s Hs; cbn [established]; [eexists; apply (sim_ok _ _ Hs)|].
  assert (Hh : forall origin, exists p, released_ok (handleHangup origin s) p)
    by (intros o; apply (handleHangup_released o s Running); [by right | apply (sim_ok _ _ Hs)]).
  destruct w as [o|tx body pending reply ackErr|tx reply|tx reply| |err]; auto.
  - by apply IH, handleReInvite_sim.
  - apply IH. by eapply (txRespond_sim tx); [left|].
  - apply IH. by eapply (txRespond_sim tx); [left|].
  - apply (handleHangup_released _ _ Running); [by right|]. destruct (sim_ok _ _ Hs) as [R1 R2 R3]. by split.
Qed.

(** A final response that is not a success has a status of 300 or more. *)
Definition final_wf (f : Final) : Prop := match f with FinalResponse status _ _ => 300 <= status | _ => True end.

Lemma waitAnswer_wf responses s : final_wf (su_final env) -> final_wf (waitAnswer responses s).1.
Proof.
  intros Hf. revert s. induction responses as [|r rest IH]; intros s; cbn [waitAnswer]; [done|].
  destruct (onResponse r s) as [[err|] s']; [done | apply IH].
Qed.

Lemma reject_sim reason s m :
  sim s (mkPhase Proceeding Invited m Open) ->
  sim (fail reason "488" (respond 488 None (record AByeCallee (record AAck s))).2)
    (mkPhase Rejected CalleeReleased m Open).
Proof.
  intros Hs. apply fail_sim, respond_rejection; [lia|].
  eapply record_sim; [by eapply (record_sim AAck) | done..].
Qed.

Lemma answered_released f s m :
  active m -> final_wf f -> sim s (mkPhase Proceeding Invited m Open) -> exists p, released_ok (answered f s) p.
Proof.
  intros Hm Hf Hs. destruct f as [body|status reason body|err]; cbn [answered].
  2:{ eexists. by apply sim_ok, fail_sim, respond_rejection. }
  2:{ destruct (errors_Is err errMediaNegotiation); eexists; apply sim_ok, fail_sim; [|done].
      by apply respond_rejection. }
  assert (Happ : exists m', active m' /\
    sim (match body with Some b => applyMediaAnswer b s | None => (Ok (su_inviteBody env), s) end).2
      (mkPhase Proceeding Invited m' Open)).
  { destruct body as [b|]; [|by exists m].
    destruct (applyMediaAnswer_sim b _ _ _ _ Hm Hs) as (m' & Hm' & Hs' & _). by exists m'. }
  destruct Happ as (m' & Hm' & Hs').
  destruct (match body with Some _ => _ | None => _ end) as [[b|err] s1]; cbn [snd] in Hs';
    [|eexists; apply sim_ok, reject_sim; done].
  destruct (x_callerAnswer s1) as [answer|] eqn:Ea; [|eexists; apply sim_ok, reject_sim; done].
  pose proof (sim_answer _ _ Hs' ltac:(congruence)) as Er. cbn in Er. subst m'.
  assert (Hack : sim (record AAck s1) (mkPhase Proceeding Confirmed Running Open)) by by eapply record_sim.
  destruct (su_ack env); [eexists; by apply sim_ok, fail_sim, respond_rejection|].
  pose proof (transition_sim Call.StateAnswered "200" "" _ _ Hack) as Ht. cbn [snd] in Ht.
  destruct (transition _ _ _ (record AAck s1)) as [[err|] s2]; cbn [snd] in Ht.
  { eexists. eapply sim_ok, record_sim; done. }
  pose proof (respond_sim 200 (Some answer) _ _ up Ht eq_refl eq_refl eq_refl) as Hok. cbn [snd] in Hok.
  destruct (respond 200 (Some answer) s2) as [[err|] s3]; [|by apply established_released].
  eexists. eapply sim_ok, terminate_sim, record_sim; done.
Qed.

Lemma init_sim : sim init_session initial_phase.
Proof. repeat split; done. Qed.

Lemma mediaNew_sim media offer s :
  sim s initial_phase ->
  sim (record AMediaNew (set_media (Some media) (set_offer offer s))) (mkPhase Proceeding Idle Allocated Open).
Proof.
  intros [[R1 R2 R3 R4] H2 H3]. cbn in *. split; cbn; auto.
  - split; cbn; auto. by rewrite spec_run_snoc, R1.
  - intros Ha. by specialize (H3 Ha).
Qed.

Lemma run_body_released : final_wf (su_final env) -> exists p, released_ok (run_body init_session) p.
Proof.
  intros Hf. unfold run_body.
  pose proof (transition_sim Call.StateRouting "INVITE" "" _ _ init_sim) as H1. cbn [snd] in H1.
  destruct (transition _ _ _ init_session) as [[err|] s1]; cbn [snd] in H1; [eexists; by apply sim_ok|].
  pose proof (respond_provisional statusTrying None _ _ _ ltac:(done) H1) as H2. cbn [snd] in H2.
  destruct (respond statusTrying None s1) as [[err|] s2]; cbn [snd] in H2; [eexists; by apply sim_ok, fail_sim|].
  assert (Hrej : forall reason pe status s m, 300 <= status -> sim s (mkPhase Proceeding Idle m Open) ->
    exists p, released_ok (fail reason pe (respond status None s).2) p).
  { intros reason pe status s m Hst Hs. eexists. by apply sim_ok, fail_sim, respond_rejection. }
  destruct (su_resolve env) as [binding|]; [|by eapply Hrej].
  destruct (ParseAudio (su_inviteBody env)) as [offer|]; [|by eapply Hrej].
  destruct (su_media env) as [media|].
  2:{ eapply (Hrej _ _ _ _ NoMedia); [done|]. by eapply same_view_sim; [|exact H2]. }
  pose proof (mediaNew_sim media (Some offer) s2 H2) as H3.
  destruct (LocalEndpoint CalleeLeg media) as [[rtp rtcp]|]; [|by eapply Hrej].
  destruct (BuildAudio _ _ _ _ _) as [out|]; [|by eapply Hrej].
  destruct (su_outbound env); [by eapply Hrej|].
  set (s3 := record AMediaNew _) in *.
  assert (H4 : sim (set_outbound (record (AInvite out) s3)) (mkPhase Proceeding Invited Allocated Open)).
  { destruct H3 as [[R1 R2 R3 R4] G2 G3]. split; [split|..]; auto. cbn [set_outbound record x_trace].
    rewrite spec_run_snoc, R1. done. }
  destruct (waitAnswer_sim (su_provisional env) _ _ _ (or_introl eq_refl) H4) as (m & Hm & H5).
  pose proof (waitAnswer_wf (su_provisional env) (set_outbound (record (AInvite out) s3)) Hf) as Hwf.
  destruct (waitAnswer _ _) as [final s4]. by eapply answered_released.
Qed.

Lemma stop_actor_view s : same_view s (stop_actor s).
Proof. unfold stop_actor. by destruct (Call.isTerminal (x_state s)). Qed.

Lemma stopMedia_released s p : released_ok s p -> exists q,
  spec_run (x_trace (stopMedia s)) = Some q /\ ph_stage q = Open /\ (ph_media q = NoMedia \/ ph_media q = Freed) /\
  ph_callee q = ph_callee p.
Proof.
  intros [R1 R2 R3 _]. unfold stopMedia. destruct p as [c e m st]. cbn in R2, R3. subst st.
  destruct (x_media s) as [media|] eqn:E; destruct m; try done.
  - exists (mkPhase c e Freed Open). cbn. rewrite spec_run_snoc, R1. auto.
  - exists (mkPhase c e Freed Open). cbn. rewrite spec_run_snoc, R1. auto.
  - exists (mkPhase c e NoMedia Open). auto.
Qed.

(** The callee's dialog is closed only after the session is removed. *)
Lemma callee_open t : forall p, spec_run t = Some p -> ph_stage p <> Removed -> ph_callee p <> CalleeClosed.
Proof.
  induction t as [|a t IH] using rev_ind; intros p Hp Hst; [by injection Hp as <-|].
  rewrite spec_run_snoc in Hp. destruct (spec_run t) as [q|]; [|done]. specialize (IH q eq_refl).
  destruct q as [c e m st]. unfold spec_step, spec_open in Hp. cbn in *. repeat case_match; simplify_eq; cbn in *; naive_solver.
Qed.

Lemma run_ends : final_wf (su_final env) ->
  exists p, spec_run (x_trace run) = Some p /\ ph_stage p = Removed /\
    (ph_media p = NoMedia \/ ph_media p = Freed) /\
    ph_callee p = if x_outbound run then CalleeClosed else Idle.
Proof.
  intros Hf. destruct (run_body_released Hf) as [p Hp].
  assert (Hs : released_ok (record ACompletePending (stop_actor (run_body init_session))) p).
  { pose proof (same_view_released _ _ _ (stop_actor_view (run_body init_session)) Hp) as Hp'.
    eapply (record_released _ _ p); [done | | done | apply (ro_open _ _ Hp) | done].
    destruct Hp as [_ R2 R3 _], p as [c e [] st]; cbn in *; subst; done. }
  destruct (stopMedia_released _ _ Hs) as (q & Hq & Hst & Hm & Hc).
  assert (Hx : x_outbound (stopMedia (record ACompletePending (stop_actor (run_body init_session))))
               = x_outbound (run_body init_session)).
  { unfold stopMedia, stop_actor. destruct (Call.isTerminal _); cbn; by destruct (x_media _). }
  assert (Hopen : ph_callee q <> CalleeClosed) by (rewrite Hc; apply (callee_open _ _ (ro_trace _ _ Hp)); by rewrite (ro_open _ _ Hp)).
  pose proof (ro_outbound _ _ Hp) as Ho. rewrite <- Hc in Ho.
  unfold run, deferred_calls, remove_session. cbn [record x_outbound]. rewrite Hx.
  destruct q as [c e m st]. cbn in Hst, Hm, Ho, Hopen. subst st. rewrite Ho.
  assert (Hrem : spec_run (x_trace (record ARemove (record ACloseInbound (stopMedia (record ACompletePending
            (stop_actor (run_body init_session)))))) ) = Some (mkPhase c e m Removed))
    by (cbn [record x_trace]; rewrite !spec_run_snoc, Hq; by destruct Hm as [-> | ->]).
  destruct (has_dialog e) eqn:He; cbn [record x_outbound].
  - exists (mkPhase c CalleeClosed m Removed). change (x_trace (record ?a ?x)) with (x_trace x ++ [a]) at 1.
    rewrite spec_run_snoc, Hrem, Hx, Ho. by destruct e.
  - exists (mkPhase c e m Removed). rewrite Hx, Ho. by destruct e.
Qed.

Lemma run_accepted : final_wf (su_final env) -> exists p, spec_run (x_trace run) = Some p.
Proof. intros Hf. destruct (run_ends Hf) as (p & Hp & _). by exists p. Qed.

(** Claim C1. Every call keeps to the protocol on both legs, whatever the peers,
    the actor and the media do: the goroutine's actions form a run of the
    specification that ends with the session removed and its media, if they were
    allocated, freed.  So the caller's INVITE gets at most one final response and
    nothing after it, is accepted only when the callee's dialog is confirmed and
    the media run, BYE is said only on confirmed dialogs and at most once, and a
    session removed from the engine does nothing more than close, once, the dialog
    with the callee if there is one. *)
Theorem run_follows_protocol :
  final_wf (su_final env) ->
  exists p, spec_run (x_trace run) = Some p /\ ph_stage p = Removed /\
    (ph_media p = NoMedia \/ ph_media p = Freed) /\
    ph_callee p = if x_outbound run then CalleeClosed else Idle.
Proof. apply run_ends. Qed.

(** ** What the caller is told *)

(** Consequences of the specification, by induction on its runs. *)
Lemma spec_open_caller p a p' : spec_step p a = Some p' -> ph_caller p <> Proceeding ->
  ph_caller p' <> Proceeding /\ (forall status body, a <> ARespond status body).
Proof. unfold spec_step, spec_open. intros Hs Hc. repeat case_match; simplify_eq; done. Qed.

Lemma spec_after_final t : forall p p', spec_from p t = Some p' -> ph_caller p <> Proceeding ->
  forall status body, ARespond status body ∉ t.
Proof.
  induction t as [|a t IH]; cbn; intros p p' Hs Hc status body Hin; [by apply elem_of_nil in Hin|].
  destruct (spec_step p a) as [q|] eqn:E; [|done]. destruct (spec_open_caller _ _ _ E Hc) as [Hq Ha].
  apply elem_of_cons in Hin as [Heq|Hin]; [by apply (Ha status body) | by apply (IH q p' Hs Hq status body)].
Qed.

Definition acted (p : Phase) (t : list Action) : Prop :=
  (ph_callee p <> Idle -> exists offer, AInvite offer ∈ t) /\
  (ph_callee p = Confirmed \/ ph_callee p = Renegotiating -> AAck ∈ t) /\
  (ph_media p = Running -> AMediaStart ∈ t).

Lemma spec_acted t : forall p, spec_run t = Some p -> acted p t.
Proof.
  induction t as [|a t IH] using rev_ind; intros p Hp; [injection Hp as <-; unfold acted; cbn; naive_solver|].
  rewrite spec_run_snoc in Hp. destruct (spec_run t) as [q|]; [|done]. destruct (IH q eq_refl) as (H1 & H2 & H3).
  assert (Hsnoc : forall b, b ∈ t -> b ∈ t ++ [a]) by (intros; apply elem_of_app; by left).
  assert (Hlast : a ∈ t ++ [a]) by (apply elem_of_app; right; by apply list_elem_of_singleton).
  clear IH. unfold spec_step, spec_open in Hp. unfold acted. cbn in Hp.
  repeat case_match; simplify_eq; cbn in *; naive_solver.
Qed.

(** Responses other than a success. *)
Definition harmless (a : Action) : Prop :=
  match a with ARespond status _ => status < 200 \/ 300 <= status | _ => True end.

(** [t] continues [s] without accepting the call. *)
Definition extends (s t : Sess) : Prop := exists l, x_trace t = x_trace s ++ l /\ Forall harmless l.

#[local] Instance extends_preorder : PreOrder extends.
Proof.
  split; [intros s; exists []; by rewrite app_nil_r|].
  intros s t u (l & Hl & Fl) (k & Hk & Fk). exists (l ++ k). rewrite Hk, Hl, app_assoc. split; [done | by apply Forall_app].
Qed.

Lemma extends_record a s : harmless a -> extends s (record a s).
Proof. intros Ha. exists [a]. split; [done | by constructor]. Qed.

Lemma extends_same s t u : x_trace u = x_trace t -> extends s t -> extends s u.
Proof. intros Hu (l & Hl & Fl). exists l. by rewrite Hu. Qed.

Lemma extends_refl' s t : x_trace t = x_trace s -> extends s t.
Proof. intros Ht. by apply (extends_same s s). Qed.

Lemma extends_transition st pe reason s : extends s (transition st pe reason s).2.
Proof.
  apply (extends_same _ (record (ATransition st pe reason) s)); [apply transition_view | by apply extends_record].
Qed.

Lemma extends_respond status body s : harmless (ARespond status body) -> extends s (respond status body s).2.
Proof. intros Hh. by apply (extends_same _ (record (ARespond status body) s)), extends_record. Qed.

Lemma extends_startMedia s : extends s (startMedia s).
Proof. unfold startMedia. destruct (x_mediaRunning s); [done|]. by apply (extends_same _ (record AMediaStart s)), extends_record. Qed.

Lemma extends_applyMediaAnswer body s : extends s (applyMediaAnswer body s).2.
Proof.
  unfold applyMediaAnswer. destruct (ParseAudio body) as [callee|]; [|done].
  destruct (x_callerOffer s) as [offer|]; [|done]. destruct (x_media s) as [media|]; [|done].
  destruct (Negotiate offer callee) as [mapping|]; [|done].
  destruct (match x_mediaMapping s with Some _ => _ | None => _ end); [done|].
  destruct (Configure offer callee mapping media) as [[err|] media']; [done|].
  assert (Hc : forall a, extends s (set_answer a (set_mapping mapping (record (AMediaConfigure mapping) (set_media (Some media') s))))).
  { intros a. by exists [AMediaConfigure mapping]; split; [|repeat constructor]. }
  destruct (LocalEndpoint CallerLeg media') as [[rtp rtcp]|]; [|by destruct (Hc body) as (l & ? & ?); exists l].
  destruct (BuildAudio _ _ _ _ _) as [answer|]; [|by destruct (Hc body) as (l & ? & ?); exists l].
  etrans; [apply (Hc answer) | apply extends_startMedia].
Qed.

Lemma extends_onResponse r s : extends s (onResponse r s).2.
Proof.
  unfold onResponse. destruct (negb (pr_Status r <? 200) || (pr_Status r =? statusTrying)) eqn:Ep; [done|].
  assert (Hr : forall b, harmless (ARespond (pr_Status r) b)) by (intros; cbn; bool_prop; lia). clear Ep.
  destruct (if pr_Status r =? statusSessionProgress then pr_Body r else None) as [body|].
  - pose proof (extends_applyMediaAnswer body s) as H1. destruct (applyMediaAnswer body s) as [[a|err] s1]; [|done].
    etrans; [exact H1|]. pose proof (extends_transition Call.StateEarlyMedia "183" "" s1) as H2. cbn [snd].
    destruct (transition _ _ _ s1) as [[err|] s2]; [done|]. etrans; [exact H2 | by apply extends_respond].
  - destruct (_ || _); [|by apply extends_respond].
    pose proof (extends_transition Call.StateRinging (GoStrings.Itoa (pr_Status r)) "" s) as H2.
    destruct (transition _ _ _ s) as [[err|] s2]; [done|]. etrans; [exact H2 | by apply extends_respond].
Qed.

Lemma extends_waitAnswer responses : forall s, extends s (waitAnswer responses s).2.
Proof.
  induction responses as [|r rest IH]; intros s; cbn [waitAnswer]; [done|]. pose proof (extends_onResponse r s) as H1.
  destruct (onResponse r s) as [[err|] s1]; [done|]. etrans; [exact H1 | apply IH].
Qed.

Lemma extends_handleHangup origin s : extends s (handleHangup origin s).
Proof.
  unfold handleHangup. pose proof (extends_transition Call.StateTerminating "BYE" "normal clearing" s) as H1.
  destruct (transition _ _ _ s) as [[err|] s1]; [done|]. etrans; [exact H1|].
  etrans; [|apply extends_transition]. destruct origin; [destruct (x_outbound s1); [|done]|]; by apply extends_record.
Qed.

Lemma extends_handleReInvite tx body pending reply ackErr s :
  extends s (handleReInviteCommand tx body pending reply ackErr s).
Proof.
  unfold handleReInviteCommand. pose proof (fun status t => extends_record (ATxRespond tx status) t I) as Ht.
  destruct pending; [done|]. destruct (ParseAudio body) as [offer|]; [|done].
  destruct (match x_media s with Some _ => _ | None => _ end) as [[rtp rtcp]|]; [|done].
  destruct (BuildAudio _ _ _ _ _) as [out|]; [|done].
  etrans; [by apply (extends_record (AReInvite out))|].
  destruct reply as [[status answer]|]; [|done]. destruct (_ || _); [done|].
  etrans; [by apply (extends_record AAck)|]. destruct ackErr; [done|].
  pose proof (extends_applyMediaAnswer answer (set_offer (Some offer) (record AAck (record (AReInvite out) s)))) as H1.
  destruct (applyMediaAnswer answer _) as [[a|err] s1]; (etrans; [exact H1|]); cbn [snd].
  - pose proof (fun st => extends_transition st "re-INVITE" "" s1) as H2.
    destruct (transition _ _ _ s1) as [[err|] s2] eqn:E;
      (etrans; [specialize (H2 (if String.eqb (ep_Direction offer) DirectionSendRecv then Call.StateAnswered else Call.StateHeld));
                rewrite E in H2; exact H2|]); [done|].
    cbn [snd]. etrans; [by apply (extends_record (ASetPending tx)) | done].
  - etrans; [|apply Ht]. by apply extends_refl'.
Qed.

Lemma extends_established wakeups : forall s, extends s (established wakeups s).
Proof.
  induction wakeups as [|w rest IH]; intros s; cbn [established]; [done|].
  destruct w; try apply extends_handleHangup; try (etrans; [|apply IH]); try by apply extends_record.
  - apply extends_handleReInvite.
  - etrans; [|apply extends_handleHangup]. by apply extends_refl'.
Qed.

(** The descriptions of the callee: those of its early media, and the one its
    answer is told from, which is that of its 200 if this carries one. *)
Definition early_body (b : Body) : Prop :=
  exists r, r ∈ su_provisional env /\ pr_Status r = statusSessionProgress /\ pr_Body r = Some b.
Definition answer_body (b : Body) : Prop :=
  match su_final env with FinalOK (Some b') => b = b' | _ => early_body b end.

(** The answer [a] describes the media as they were configured: its codecs come
    from the mapping negotiated with the callee, the only one configured; the
    callee's side of it is one of the descriptions [src]. *)
Definition answer_for (src : Body -> Prop) (offer : Endpoint) (media : Session) (trace : list Action) (a : Body) : Prop :=
  exists b callee mapping rtp rtcp,
    src b /\ ParseAudio b = Ok callee /\
    Negotiate offer callee = Ok mapping /\ AMediaConfigure mapping ∈ trace /\
    LocalEndpoint CallerLeg media = Ok (rtp, rtcp) /\
    BuildAudio (su_now env) rtp rtcp (CodecListForAnswer mapping) (ep_Direction callee) = Ok a.

Record negotiating (src : Body -> Prop) (offer : Endpoint) (media : Session) (s : Sess) : Prop := {
  ng_offer : x_callerOffer s = Some offer;
  ng_media : exists m, x_media s = Some m /\ forall leg, LocalEndpoint leg m = LocalEndpoint leg media;
  ng_answer : forall a, x_callerAnswer s = Some a -> answer_for src offer media (x_trace s) a;
  ng_mapping : forall m, AMediaConfigure m ∈ x_trace s -> x_mediaMapping s = Some m;
}.

Lemma mapping_eqb_eq a b : mapping_eqb a b = true -> a = b.
Proof.
  destruct a, b. unfold mapping_eqb. cbn. rewrite !andb_true_iff, !Z.eqb_eq, String.eqb_eq, Bool.eqb_true_iff. naive_solver.
Qed.

Lemma Configure_local offer callee mapping media media' leg :
  Configure offer callee mapping media = (None, media') -> LocalEndpoint leg media' = LocalEndpoint leg media.
Proof.
  unfold Configure. destruct (_ || _); [done|]. intros [= <-]. unfold LocalEndpoint, session_endpoint. cbn.
  by destruct (String.eqb leg CallerLeg), (String.eqb leg CalleeLeg).
Qed.

Lemma negotiating_more src offer media s t a :
  negotiating src offer media s -> (forall m, a <> AMediaConfigure m) ->
  x_callerOffer t = x_callerOffer s -> x_media t = x_media s -> x_callerAnswer t = x_callerAnswer s ->
  x_mediaMapping t = x_mediaMapping s -> x_trace t = x_trace s ++ [a] -> negotiating src offer media t.
Proof.
  intros [H1 H2 H3 H4] Ha E1 E2 E3 E4 E5. split; rewrite ?E1, ?E2, ?E3, ?E4, ?E5; auto.
  - intros b Hb. destruct (H3 b Hb) as (b' & callee & m & rtp & rtcp & ? & ? & ? & ? & ? & ?). exists b', callee, m, rtp, rtcp.
    rewrite elem_of_app. auto 10.
  - intros m [Hm|Hm%list_elem_of_singleton]%elem_of_app; [auto|]. by destruct (Ha m).
Qed.

Lemma negotiating_mono (src src' : Body -> Prop) offer media s :
  (forall b, src b -> src' b) -> negotiating src offer media s -> negotiating src' offer media s.
Proof.
  intros Hsrc [H1 H2 H3 H4]. split; auto. intros a Ha. destruct (H3 a Ha) as (b & callee & m & rtp & rtcp & ? & ?).
  exists b, callee, m, rtp, rtcp. auto.
Qed.

Lemma negotiating_transition src offer media st pe reason s :
  negotiating src offer media s -> negotiating src offer media (transition st pe reason s).2.
Proof.
  intros Hs. eapply (negotiating_more _ _ _ _ _ (ATransition st pe reason)); [exact Hs|done|..];
    unfold transition; by destruct (su_dispatch env (x_asked s)).
Qed.

Lemma negotiating_respond src offer media status body s :
  negotiating src offer media s -> negotiating src offer media (respond status body s).2.
Proof. intros Hs. by eapply (negotiating_more _ _ _ _ _ (ARespond status body)). Qed.

Lemma negotiating_startMedia src offer media s : negotiating src offer media s -> negotiating src offer media (startMedia s).
Proof.
  intros Hs. unfold startMedia. destruct (x_mediaRunning s); [done|]. by eapply (negotiating_more _ _ _ _ _ AMediaStart).
Qed.

(** Once an answer is applied, what the caller is told comes from it alone. *)
Lemma negotiating_applyMediaAnswer src offer media body s :
  negotiating src offer media s ->
  negotiating (if (applyMediaAnswer body s).1 then (fun b => b = body) else src) offer media (applyMediaAnswer body s).2.
Proof.
  intros Hs. destruct (Hs) as [H1 (m0 & Hm0 & Hlocal) H3 H4]. unfold applyMediaAnswer.
  destruct (ParseAudio body) as [callee|] eqn:Ep; [|done]. rewrite H1, Hm0.
  destruct (Negotiate offer callee) as [mapping|] eqn:En; [|done].
  destruct (match x_mediaMapping s with Some _ => _ | None => _ end) eqn:Esame; [done|].
  destruct (Configure offer callee mapping m0) as [[err|] media'] eqn:Ec; [done|].
  assert (Hold : forall m, x_mediaMapping s = Some m -> m = mapping).
  { intros m Hm. rewrite Hm in Esame. apply mapping_eqb_eq. by apply negb_false_iff. }
  set (s1 := set_mapping mapping (record (AMediaConfigure mapping) (set_media (Some media') s))).
  assert (Hs1 : negotiating src offer media s1).
  { split; cbn; auto.
    - exists media'. split; [done|]. intros leg. rewrite <- (Hlocal leg). by eapply Configure_local.
    - intros a Ha. destruct (H3 a Ha) as (b & c & m & r1 & r2 & ? & ? & ? & ? & ? & ?). exists b, c, m, r1, r2.
      rewrite elem_of_app. auto 10.
    - intros m [Hm|Hm%list_elem_of_singleton]%elem_of_app; [by rewrite (Hold m (H4 m Hm)) | by injection Hm as ->]. }
  pose proof (Configure_local _ _ _ _ _ CallerLeg Ec) as Hl.
  destruct (LocalEndpoint CallerLeg media') as [[rtp rtcp]|] eqn:El; [|done].
  destruct (BuildAudio _ _ _ _ _) as [answer|] eqn:Eb; [|done]. cbn [fst snd]. apply negotiating_startMedia.
  destruct Hs1 as [G1 G2 G3 G4]. split; auto. intros a [= <-]. exists body, callee, mapping, rtp, rtcp. split_and!; auto.
  - cbn. rewrite elem_of_app, list_elem_of_singleton. by right.
  - rewrite <- (Hlocal CallerLeg). congruence.
Qed.

Lemma negotiating_onResponse offer media r s : r ∈ su_provisional env ->
  negotiating early_body offer media s -> negotiating early_body offer media (onResponse r s).2.
Proof.
  intros Hr Hs. unfold onResponse. destruct (_ || _); [done|].
  destruct (if pr_Status r =? statusSessionProgress then pr_Body r else None) as [body|] eqn:Eb.
  - assert (Hb : early_body body) by (destruct (Z.eqb_spec (pr_Status r) statusSessionProgress); [by exists r | done]).
    pose proof (negotiating_applyMediaAnswer _ _ _ body _ Hs) as H1.
    apply (negotiating_mono _ early_body) in H1; [|intros b; destruct ((applyMediaAnswer body s).1); [by intros -> | done]].
    destruct (applyMediaAnswer body s) as [[a|err] s1]; [|done].
    pose proof (negotiating_transition _ _ _ Call.StateEarlyMedia "183" "" _ H1) as H2. cbn [snd] in *.
    destruct (transition _ _ _ s1) as [[err|] s2]; [done | by apply negotiating_respond].
  - destruct (_ || _); [|by apply negotiating_respond].
    pose proof (negotiating_transition _ _ _ Call.StateRinging (GoStrings.Itoa (pr_Status r)) "" _ Hs) as H2.
    destruct (transition _ _ _ s) as [[err|] s2]; [done | by apply negotiating_respond].
Qed.

Lemma negotiating_waitAnswer offer media responses : forall s, Forall (fun r => r ∈ su_provisional env) responses ->
  negotiating early_body offer media s -> negotiating early_body offer media (waitAnswer responses s).2.
Proof.
  induction responses as [|r rest IH]; intros s Hin Hs; cbn [waitAnswer]; [done|]. apply Forall_cons in Hin as [Hr Hin].
  pose proof (negotiating_onResponse _ _ r _ Hr Hs) as H1. destruct (onResponse r s) as [[err|] s1]; [done | by apply IH].
Qed.

Lemma waitAnswer_final responses : forall s body, (waitAnswer responses s).1 = FinalOK body -> su_final env = FinalOK body.
Proof.
  induction responses as [|r rest IH]; intros s body; cbn [waitAnswer]; [done|].
  destruct (onResponse r s) as [[err|] s1]; [done | apply IH].
Qed.

(** ** Where a call can be accepted *)

(** Every success in the trace carries the answer. *)
Definition accepts_with (offer : Endpoint) (media : Session) (t : list Action) : Prop :=
  forall pre status body post, t = pre ++ ARespond status body :: post -> 200 <= status < 300 ->
  exists a, body = Some a /\ answer_for answer_body offer media pre a /\ (forall m m', AMediaConfigure m ∈ pre ->
    AMediaConfigure m' ∈ pre -> m = m').

Lemma accepts_harmless offer media t l :
  accepts_with offer media t -> Forall harmless l -> accepts_with offer media (t ++ l).
Proof.
  intros Ht Hl pre status body post Heq Hst.
  apply app_eq_app in Heq as (k & [[H1 H2]|[H1 H2]]).
  - destruct k as [|x k]; cbn in *; simplify_eq.
    + apply Forall_cons in Hl as [Hh _]. cbn in Hh. lia.
    + by eapply Ht.
  - subst. apply Forall_app in Hl as [_ Hl]. apply Forall_cons in Hl as [Hh _]. cbn in Hh. lia.
Qed.

Lemma accepts_extends offer media s t :
  accepts_with offer media (x_trace s) -> extends s t -> accepts_with offer media (x_trace t).
Proof. intros Hs (l & -> & Hl). by apply accepts_harmless. Qed.

Lemma accepts_ok offer media t a :
  accepts_with offer media t -> answer_for answer_body offer media t a ->
  (forall m m', AMediaConfigure m ∈ t -> AMediaConfigure m' ∈ t -> m = m') ->
  accepts_with offer media (t ++ [ARespond 200 (Some a)]).
Proof.
  intros Ht Ha Hm pre status body post Heq Hst. apply app_eq_app in Heq as (k & [[H1 H2]|[H1 H2]]).
  - destruct k as [|x k]; cbn in *; simplify_eq; [rewrite app_nil_r in *; by eauto | by eapply Ht].
  - subst. destruct k as [|x k]; cbn in *; simplify_eq; [rewrite app_nil_r in *; by eauto|]. by destruct k.
Qed.

Lemma extends_fail reason pe s : extends s (fail reason pe s).
Proof. apply extends_transition. Qed.

Lemma extends_refusal reason pe status body s : 300 <= status -> extends s (fail reason pe (respond status body s).2).
Proof. intros Hst. etrans; [|apply extends_fail]. apply extends_respond. cbn. lia. Qed.

Lemma extends_reject reason s :
  extends s (fail reason "488" (respond 488 None (record AByeCallee (record AAck s))).2).
Proof.
  etrans; [|by apply extends_refusal]. etrans; [by apply (extends_record AAck) | by apply extends_record].
Qed.

Lemma answered_accepts offer media f s :
  final_wf f -> (forall body, f = FinalOK body -> su_final env = FinalOK body) ->
  negotiating early_body offer media s -> accepts_with offer media (x_trace s) ->
  accepts_with offer media (x_trace (answered f s)).
Proof.
  intros Hf Hfin Hs Hacc. destruct f as [body|status reason body|err]; cbn [answered].
  2:{ eapply accepts_extends; [done|]. by apply extends_refusal. }
  2:{ eapply accepts_extends; [done|]. destruct (errors_Is err errMediaNegotiation); [by apply extends_refusal | apply extends_fail]. }
  specialize (Hfin body eq_refl).
  assert (Happ : forall r s1, match body with Some b => applyMediaAnswer b s | None => (Ok (su_inviteBody env), s) end = (r, s1) ->
    (is_Ok r = true -> negotiating answer_body offer media s1) /\ accepts_with offer media (x_trace s1)).
  { unfold answer_body. rewrite Hfin. destruct body as [b|]; intros r s1 E; [|by injection E as <- <-].
    change s1 with (r, s1).2. split.
    - intros Hr. pose proof (negotiating_applyMediaAnswer early_body offer media b s Hs) as Hn. rewrite E in Hn. cbn [fst snd] in *.
      by destruct r.
    - rewrite <- E. eapply accepts_extends; [done | apply extends_applyMediaAnswer]. }
  destruct (match body with Some _ => _ | None => _ end) as [r s1]. destruct (Happ r s1 eq_refl) as [Hs1 Hacc1].
  destruct r as [b|err]; [specialize (Hs1 eq_refl) | eapply accepts_extends; [done | apply extends_reject]].
  destruct (x_callerAnswer s1) as [answer|] eqn:Ea; [|eapply accepts_extends; [done | apply extends_reject]].
  assert (Hack : extends s1 (record AAck s1)) by by apply extends_record.
  destruct (su_ack env); [eapply accepts_extends; [done | etrans; [exact Hack | by apply extends_refusal]]|].
  assert (Hn : negotiating answer_body offer media (record AAck s1)) by by eapply (negotiating_more _ _ _ _ _ AAck).
  pose proof (negotiating_transition _ _ _ Call.StateAnswered "200" "" _ Hn) as Hn2.
  pose proof (extends_transition Call.StateAnswered "200" "" (record AAck s1)) as He.
  assert (Ekeep : x_callerAnswer (transition Call.StateAnswered "200" "" (record AAck s1)).2 = Some answer)
    by (unfold transition; by destruct (su_dispatch env _)).
  destruct (transition _ _ _ (record AAck s1)) as [[err|] s2]; cbn [snd] in *.
  { eapply accepts_extends; [done|]. etrans; [exact Hack|]. etrans; [exact He | by apply extends_record]. }
  assert (Hacc2 : accepts_with offer media (x_trace s2)) by (eapply accepts_extends; [done | by etrans]).
  assert (Hok : accepts_with offer media (x_trace (respond 200 (Some answer) s2).2)).
  { cbn. apply accepts_ok; [done | by apply (ng_answer _ _ _ _ Hn2)|]. intros m m' Hm Hm'.
    pose proof (ng_mapping _ _ _ _ Hn2 m Hm). pose proof (ng_mapping _ _ _ _ Hn2 m' Hm'). congruence. }
  destruct (respond 200 (Some answer) s2) as [[err|] s3]; cbn [snd] in Hok.
  - eapply accepts_extends; [exact Hok|]. unfold terminate. etrans; [by apply (extends_record AByeCallee)|].
    etrans; apply extends_transition.
  - eapply accepts_extends; [exact Hok | apply extends_established].
Qed.

(** A call whose offer cannot be parsed, or that gets no media, is not accepted. *)
Definition accepted_properly (t : list Action) : Prop :=
  forall pre status body post, t = pre ++ ARespond status body :: post -> 200 <= status < 300 ->
  exists offer media a, ParseAudio (su_inviteBody env) = Ok offer /\ su_media env = Ok media /\
    body = Some a /\ answer_for answer_body offer media pre a /\
    (forall m m', AMediaConfigure m ∈ pre -> AMediaConfigure m' ∈ pre -> m = m').

Lemma no_success s pre status body post :
  extends init_session s -> x_trace s = pre ++ ARespond status body :: post -> 200 <= status < 300 -> False.
Proof.
  intros (l & -> & Hl) Heq Hst. cbn in Heq. subst.
  apply Forall_app in Hl as [_ Hl]. apply Forall_cons in Hl as [Hh _]. cbn in Hh. lia.
Qed.

Lemma harmless_proper s : extends init_session s -> accepted_properly (x_trace s).
Proof. intros Hs pre status body post Heq Hst. by destruct (no_success s pre status body post). Qed.

Lemma refusal_proper reason pe status body s :
  extends init_session s -> 300 <= status -> accepted_properly (x_trace (fail reason pe (respond status body s).2)).
Proof. intros Hs Hst. apply harmless_proper. etrans; [exact Hs | by apply extends_refusal]. Qed.

Lemma run_body_proper : final_wf (su_final env) -> accepted_properly (x_trace (run_body init_session)).
Proof.
  intros Hf. unfold run_body.
  pose proof (extends_transition Call.StateRouting "INVITE" "" init_session) as H1.
  assert (E1 : x_callerAnswer (transition Call.StateRouting "INVITE" "" init_session).2 = None /\
    forall m, AMediaConfigure m ∉ x_trace (transition Call.StateRouting "INVITE" "" init_session).2).
  { unfold transition. destruct (su_dispatch env _); cbn; (split; [done|]);
      intros m Hm; by apply list_elem_of_singleton in Hm. }
  destruct (transition _ _ _ init_session) as [[err|] s1]; cbn [snd] in *; [by apply harmless_proper|].
  assert (H2 : extends init_session (respond statusTrying None s1).2) by (etrans; [exact H1 | apply extends_respond; cbn; by left]).
  cbn [respond]. unfold respond in H2. cbn [snd] in H2. set (s2 := count_answer _) in *.
  destruct (su_respond env (x_answers s1)); [apply harmless_proper; etrans; [exact H2 | apply extends_fail]|].
  destruct (su_resolve env) as [binding|]; [|by apply refusal_proper].
  destruct (ParseAudio (su_inviteBody env)) as [offer|] eqn:Eo; [|by apply refusal_proper].
  destruct (su_media env) as [media|] eqn:Em; [|apply refusal_proper; [|done]; etrans; [exact H2 | by apply extends_refl'] ].
  set (s3 := record AMediaNew _).
  assert (H3 : extends init_session s3) by (etrans; [exact H2|]; by exists [AMediaNew]; split; [|repeat constructor]).
  destruct (LocalEndpoint CalleeLeg media) as [[rtp rtcp]|]; [|by apply refusal_proper].
  destruct (BuildAudio _ _ _ _ _) as [out|]; [|by apply refusal_proper].
  destruct (su_outbound env); [by apply refusal_proper|].
  set (s4 := set_outbound _).
  assert (Hn : negotiating early_body offer media s4).
  { destruct E1 as [E1 E2]. split; cbn; [done | by exists media | rewrite E1; done |].
    intros m Hm. exfalso. cbn in Hm. rewrite !elem_of_app, !list_elem_of_singleton in Hm. naive_solver. }
  assert (Hacc : accepts_with offer media (x_trace (waitAnswer (su_provisional env) s4).2)).
  { eapply accepts_extends; [|apply extends_waitAnswer]. intros pre status body post Heq Hst.
    destruct (no_success s4 pre status body post); [|done|done].
    etrans; [exact H3 | by exists [AInvite out]; split; [|repeat constructor]]. }
  pose proof (waitAnswer_wf (su_provisional env) s4 Hf) as Hwf.
  pose proof (negotiating_waitAnswer _ _ (su_provisional env) _ ltac:(by apply Forall_forall) Hn) as Hnw.
  pose proof (waitAnswer_final (su_provisional env) s4) as Hfin.
  destruct (waitAnswer _ s4) as [final s5]. intros pre status body post Heq Hst.
  destruct (answered_accepts offer media final s5 Hwf Hfin Hnw Hacc pre status body post Heq Hst) as (a & Ha).
  by exists offer, media, a.
Qed.

Lemma success_step p status body p' :
  200 <= status < 300 -> spec_step p (ARespond status body) = Some p' ->
  ph_callee p = Confirmed /\ ph_media p = Running /\ ph_caller p' <> Proceeding.
Proof.
  intros Hst. unfold spec_step, spec_open. destruct p as [[] e m []]; cbn; try done.
  rewrite (proj2 (Z.ltb_ge status 200)), (proj2 (Z.ltb_lt status 300)) by lia.
  intros Hs. repeat case_match; by simplify_eq.
Qed.

(** The deferred calls add no response. *)
Lemma run_tail : extends (run_body init_session) run.
Proof.
  unfold run, deferred_calls, remove_session. cbn zeta.
  assert (Ht : extends (run_body init_session) (record ARemove (record ACloseInbound (stopMedia (record ACompletePending
                 (stop_actor (run_body init_session))))))).
  { etrans; [|etrans; [apply (extends_record ACloseInbound) | by apply extends_record]]; [|done].
    etrans; [by apply extends_refl', stop_actor_view|]. etrans; [by apply (extends_record ACompletePending)|].
    unfold stopMedia. destruct (x_media _); [|done]. by exists [AMediaClose]; split; [|repeat constructor]. }
  destruct (x_outbound _); [|done]. etrans; [exact Ht | by apply extends_record].
Qed.

Lemma proper_harmless t l : accepted_properly t -> Forall harmless l -> accepted_properly (t ++ l).
Proof.
  intros Ht Hl pre status body post Heq Hst. apply app_eq_app in Heq as (k & [[H1 H2]|[H1 H2]]).
  - destruct k as [|x k]; cbn in *; simplify_eq; [|by eapply Ht]. apply Forall_cons in Hl as [Hh _]. cbn in Hh. lia.
  - subst. apply Forall_app in Hl as [_ Hl]. apply Forall_cons in Hl as [Hh _]. cbn in Hh. lia.
Qed.

(** Claim C13. A caller is told its call is answered only when it is: a success
    response goes out only after the callee was invited, its answer was
    acknowledged and the relay was started; its body is the answer built from
    the mapping negotiated between the caller's offer and the callee's answer, that
    is the description in the callee's 200 or, if this has none, in one of its 183s,
    at the addresses of the call's own media session, which was configured with this
    mapping and no other; and no other response to the INVITE follows it. *)
Theorem caller_told_truth pre status body post :
  final_wf (su_final env) -> x_trace run = pre ++ ARespond status body :: post -> 200 <= status < 300 ->
  (exists offer media a, ParseAudio (su_inviteBody env) = Ok offer /\ su_media env = Ok media /\
     body = Some a /\ answer_for answer_body offer media pre a /\
     (forall m m', AMediaConfigure m ∈ pre -> AMediaConfigure m' ∈ pre -> m = m')) /\
  (exists out, AInvite out ∈ pre) /\ AAck ∈ pre /\ AMediaStart ∈ pre /\
  (forall status' body', ARespond status' body' ∉ post).
Proof.
  intros Hf Heq Hst. split.
  - assert (Hp : accepted_properly (x_trace run)); [|by eapply Hp].
    assert (Hl : exists l, x_trace run = x_trace (run_body init_session) ++ l /\ Forall harmless l) by apply run_tail.
    destruct Hl as (l & -> & Hl). apply proper_harmless; [by apply run_body_proper | done].
  - destruct (run_accepted Hf) as [p Hp]. rewrite Heq in Hp. unfold spec_run in Hp. rewrite spec_from_app in Hp.
    destruct (spec_from initial_phase pre) as [q|] eqn:Eq; [|done]. cbn in Hp.
    destruct (spec_step q (ARespond status body)) as [q'|] eqn:Es; [|done].
    destruct (success_step _ _ _ _ Hst Es) as (Hcallee & Hmedia & Hcaller).
    destruct (spec_acted _ _ Eq) as (A1 & A2 & A3). rewrite Hcallee in A1, A2.
    split_and!; auto. by eapply spec_after_final.
Qed.

(** ** The caller gets an answer *)

(** Ringing is not announced again once early media have been. *)
Fixpoint ringing_first (early : bool) (responses : list Provisional) : bool :=
  match responses with
  | [] => true
  | r :: rest =>
      if (pr_Status r =? statusSessionProgress) && bool_decide (pr_Body r <> None) then ringing_first true rest
      else if (pr_Status r =? statusRinging) || (pr_Status r =? statusSessionProgress)
           then negb early && ringing_first early rest
      else ringing_first early rest
  end.

(** The states in which the callee's answer is awaited. *)
Definition awaiting (early : bool) (st : Call.State) : Prop :=
  st = Call.StateRouting \/ st = Call.StateRinging \/ (early = true /\ st = Call.StateEarlyMedia).

(** The caller's INVITE has got a final response. *)
Definition told (s : Sess) : Prop := exists status body, 200 <= status /\ ARespond status body ∈ x_trace s.

Lemma told_extends s t : told s -> extends s t -> told t.
Proof. intros (status & body & Hst & Hin) (l & Hl & _). exists status, body. rewrite Hl, elem_of_app. auto. Qed.

Lemma told_respond status body s : 200 <= status -> told (respond status body s).2.
Proof. intros Hst. exists status, body. split; [done|]. cbn. rewrite elem_of_app, list_elem_of_singleton. by right. Qed.

Lemma told_refusal reason pe status body s : 200 <= status -> told (fail reason pe (respond status body s).2).
Proof. intros Hst. eapply told_extends; [by apply told_respond | apply extends_fail]. Qed.

Lemma applyMediaAnswer_state body s : x_state (applyMediaAnswer body s).2 = x_state s.
Proof. unfold applyMediaAnswer, startMedia. repeat case_match; done. Qed.

Section Cooperative.
Hypothesis delivered : forall n, su_dispatch env n = Delivered.
Hypothesis responsive : forall n, su_respond env n = None.

Lemma transition_done st pe reason s :
  Call.eqs st (x_state s) = true \/ Call.allowedTransition (x_state s) st = true ->
  (transition st pe reason s).1 = None /\
  (x_state (transition st pe reason s).2 = st \/ x_state (transition st pe reason s).2 = x_state s).
Proof.
  intros Hok. unfold transition. rewrite delivered.
  destruct (Call.eqs st (x_state s)) eqn:E; [cbn; auto|]. destruct Hok as [?| ->]; [done|]. cbn. auto.
Qed.

Lemma ringing_done pe s : awaiting false (x_state s) ->
  exists s', transition Call.StateRinging pe "" s = (None, s') /\ awaiting false (x_state s').
Proof.
  intros Hs. destruct (transition_done Call.StateRinging pe "" s) as [H1 H2].
  { destruct Hs as [-> |[-> |[? _]]]; auto; done. }
  destruct (transition _ _ _ s) as [o s']. cbn in *. subst. exists s'. split; [done|].
  destruct H2 as [-> | ->]; [unfold awaiting; auto | done].
Qed.

Lemma earlyMedia_done s : awaiting true (x_state s) ->
  exists s', transition Call.StateEarlyMedia "183" "" s = (None, s') /\ awaiting true (x_state s').
Proof.
  intros Hs. destruct (transition_done Call.StateEarlyMedia "183" "" s) as [H1 H2].
  { destruct Hs as [-> |[-> |[_ ->]]]; auto. }
  destruct (transition _ _ _ s) as [o s']. cbn in *. subst. exists s'. split; [done|].
  destruct H2 as [-> | ->]; [unfold awaiting; auto | done].
Qed.

Lemma awaiting_early early st : awaiting early st -> awaiting true st.
Proof. unfold awaiting. naive_solver. Qed.

Lemma onResponse_progress r s early rest :
  ringing_first early (r :: rest) = true -> awaiting early (x_state s) ->
  match onResponse r s with
  | (Some e, _) => errors_Is e errMediaNegotiation = true
  | (None, s') => exists early', ringing_first early' rest = true /\ awaiting early' (x_state s')
  end.
Proof.
  intros Hr Hs. cbn [ringing_first] in Hr. unfold onResponse.
  destruct (negb (pr_Status r <? 200) || (pr_Status r =? statusTrying)) eqn:Ep.
  { exists early. split; [|done]. bool_prop. unfold statusSessionProgress, statusRinging, statusTrying in *.
    rewrite !(proj2 (Z.eqb_neq (pr_Status r) _)) in Hr by (destruct Ep as [Ep|Ep]; bool_prop; lia). done. }
  clear Ep. unfold respond.
  destruct (pr_Status r =? statusSessionProgress) eqn:E183; cbn [andb orb] in Hr.
  - destruct (pr_Body r) as [body|] eqn:Eb; cbn [bool_decide] in Hr.
    + rewrite bool_decide_true in Hr by done.
      pose proof (applyMediaAnswer_state body s) as Hst. destruct (applyMediaAnswer body s) as [[a|err] s1]; [|done].
      cbn [snd] in Hst. destruct (earlyMedia_done s1) as (s2 & -> & H2); [rewrite Hst; by eapply awaiting_early|].
      rewrite responsive. by exists true.
    + rewrite bool_decide_false, orb_true_r in Hr by (intros Hn; by apply Hn).
      rewrite orb_true_r. bool_prop. subst.
      destruct (ringing_done (GoStrings.Itoa (pr_Status r)) s Hs) as (s2 & -> & H2). rewrite responsive. by exists false.
  - rewrite orb_false_r in *. destruct (pr_Status r =? statusRinging) eqn:E180; cbn [orb] in *; [|rewrite responsive; by exists early].
    bool_prop. subst.
    destruct (ringing_done (GoStrings.Itoa (pr_Status r)) s Hs) as (s2 & -> & H2). rewrite responsive. by exists false.
Qed.

Lemma waitAnswer_progress responses : forall s early,
  ringing_first early responses = true -> awaiting early (x_state s) ->
  (waitAnswer responses s).1 = su_final env /\ awaiting true (x_state (waitAnswer responses s).2) \/
  (exists e, (waitAnswer responses s).1 = FinalError e /\ errors_Is e errMediaNegotiation = true).
Proof.
  induction responses as [|r rest IH]; intros s early Hr Hs; cbn [waitAnswer]; [left; eauto using awaiting_early|].
  pose proof (onResponse_progress r s early rest Hr Hs) as Hp.
  destruct (onResponse r s) as [[e|] s1]; [by right; exists e|]. destruct Hp as (early' & Hr' & Hs'). by eapply IH.
Qed.

Lemma answered_told f s :
  final_wf f -> (forall e, f = FinalError e -> errors_Is e errMediaNegotiation = true) ->
  (match f with FinalOK _ => awaiting true (x_state s) | _ => True end) -> told (answered f s).
Proof.
  intros Hf He Hs. destruct f as [body|status reason body|err]; cbn [answered].
  2:{ apply told_refusal. cbn in Hf. lia. }
  2:{ rewrite (He err eq_refl). by apply told_refusal. }
  assert (Hst : x_state (match body with Some b => applyMediaAnswer b s | None => (Ok (su_inviteBody env), s) end).2 = x_state s)
    by (destruct body; [apply applyMediaAnswer_state | done]).
  destruct (match body with Some _ => _ | None => _ end) as [[b|err] s1]; [|by apply told_refusal].
  destruct (x_callerAnswer s1) as [answer|]; [|by apply told_refusal].
  destruct (su_ack env); [by apply told_refusal|]. cbn [snd] in Hst.
  destruct (transition_done Call.StateAnswered "200" "" (record AAck s1)) as [H1 _].
  { cbn. rewrite Hst. destruct Hs as [-> |[-> |[_ ->]]]; auto. }
  destruct (transition _ _ _ (record AAck s1)) as [o s2]. cbn in H1. subst o. unfold respond. rewrite responsive.
  eapply told_extends; [|apply extends_established]. by apply (told_respond 200 (Some answer) s2).
Qed.

Lemma run_body_told :
  final_wf (su_final env) -> (forall e, su_final env <> FinalError e) ->
  ringing_first false (su_provisional env) = true -> told (run_body init_session).
Proof.
  intros Hf Hne Hr. unfold run_body.
  destruct (transition_done Call.StateRouting "INVITE" "" init_session (or_intror eq_refl)) as [H1 H2].
  assert (Hst : x_state (transition Call.StateRouting "INVITE" "" init_session).2 = Call.StateRouting)
    by (unfold transition; by rewrite delivered).
  destruct (transition _ _ _ init_session) as [o s1]. cbn in H1, Hst. subst o.
  destruct (respond statusTrying None s1) as [o s2] eqn:E. unfold respond in E. rewrite responsive in E. injection E as <- <-.
  destruct (su_resolve env); [|by apply told_refusal]. destruct (ParseAudio _) as [offer|]; [|by apply told_refusal].
  destruct (su_media env) as [media|]; [|by apply told_refusal].
  destruct (LocalEndpoint _ _) as [[rtp rtcp]|]; [|by apply told_refusal].
  destruct (BuildAudio _ _ _ _ _) as [out|]; [|by apply told_refusal]. destruct (su_outbound env); [by apply told_refusal|].
  set (s4 := set_outbound _).
  assert (Hs4 : awaiting false (x_state s4)) by (cbn; rewrite Hst; by left).
  pose proof (waitAnswer_progress (su_provisional env) s4 false Hr Hs4) as Hw.
  destruct (waitAnswer _ s4) as [final s5]. cbn in Hw. destruct Hw as [[-> Ha]|(e & -> & He)].
  - apply answered_told; [done | intros e Heq; by destruct (Hne e) | by destruct (su_final env)].
  - by apply answered_told; [|intros ? [= <-]|].
Qed.
End Cooperative.

(** Claim C25. The caller of every call gets a final response: if the actor takes
    the requested transitions, the caller's transaction takes responses, and the
    callee gives a final answer without announcing ringing again after early
    media, then a final response is sent on the caller's INVITE, whatever
    registrations, SDP, media, ACK and in-dialog events bring. *)
Theorem caller_gets_final_response :
  (forall n, su_dispatch env n = Delivered) -> (forall n, su_respond env n = None) ->
  final_wf (su_final env) -> (forall e, su_final env <> FinalError e) ->
  ringing_first false (su_provisional env) = true -> told run.
Proof.
  intros Hd Hr Hf Hne Hp. eapply told_extends; [by apply run_body_told | apply run_tail].
Qed.

End Session.

(** ** Runs of concrete calls *)

#[local] Existing Instance identity_codec.

(** Both parties offer PCMU; the wire format keeps the description. *)
Definition call_env (dispatch : nat -> Dispatch) (provisional : list Provisional) (final : Final)
    (wakeups : list Wakeup) : Surroundings :=
  mkSurroundings dispatch (fun _ => None) 0 (Ok Registration.zeroBinding) (described [] [] 4000)
    (Factory_New sample_cfg (sample_env (Ok sample_seed)) sample_metadata (Some sample_pool) ∅).1.1
    None provisional final None wakeups.

Definition callee_answers : Final := FinalOK (Some (described [] [] 5000)).
Definition all_delivered (_ : nat) : Dispatch := Delivered.

(** The statuses sent on the caller's INVITE, and the BYEs. *)
Definition statuses (t : list Action) : list Z := omap (fun a => match a with ARespond st _ => Some st | _ => None end) t.
Definition byes (t : list Action) : list hangupOrigin :=
  omap (fun a => match a with AByeCallee => Some hangupCallee | AByeCaller => Some hangupCaller | _ => None end) t.

Definition normal_call : Surroundings :=
  call_env all_delivered [mkProvisional 180 None] callee_answers
    [CommandReInvite 1 (described [] [NewPropertyAttribute "sendonly"] 4000) false
       (Some (200, described [] [NewPropertyAttribute "recvonly"] 5000)) None;
     CommandHangup hangupCallee].

Lemma run_follows_protocol_witness :
  final_wf (su_final normal_call) /\ statuses (x_trace (run normal_call)) = [100; 180; 200] /\
  byes (x_trace (run normal_call)) = [hangupCaller] /\
  exists p, spec_run (x_trace (run normal_call)) = Some p /\ ph_stage p = Removed.
Proof.
  split; [exact I|]. split; [vm_compute; reflexivity|]. split; [vm_compute; reflexivity|].
  destruct (run_follows_protocol normal_call I) as (p & Hp & Hst & _). exists p. split; [exact Hp | exact Hst].
Defined.

Lemma caller_told_truth_witness :
  exists pre body post, x_trace (run normal_call) = pre ++ ARespond 200 body :: post /\ AMediaStart ∈ pre /\
    exists offer media a, body = Some a /\ answer_for normal_call (fun b => b = described [] [] 5000) offer media pre a.
Proof.
  assert (Hsplit : x_trace (run normal_call) = take 10 (x_trace (run normal_call)) ++
    (match nth 10 (x_trace (run normal_call)) AAck with ARespond s b => ARespond 200 b | a => a end) ::
    drop 11 (x_trace (run normal_call))) by (vm_compute; reflexivity).
  destruct (nth 10 (x_trace (run normal_call)) AAck) as [|st b|o| | | | | | | | | | | | | |] eqn:E;
    try (vm_compute in E; discriminate E).
  exists (take 10 (x_trace (run normal_call))), b, (drop 11 (x_trace (run normal_call))). split; [exact Hsplit|].
  destruct (caller_told_truth normal_call _ 200 b _ I Hsplit ltac:(lia)) as ((offer & media & a & _ & _ & Ha & Hans & _) & _ & _ & Hin & _).
  split; [exact Hin|]. exists offer, media, a. split; [exact Ha | exact Hans].
Defined.

Lemma caller_gets_final_response_witness : told (run normal_call).
Proof.
  apply (caller_gets_final_response normal_call).
  - intros n. reflexivity.
  - intros n. reflexivity.
  - exact I.
  - intros e He. discriminate He.
  - reflexivity.
Defined.

(** ** Where the code leaves a party waiting *)

(** A callee that announces ringing after early media loses the call: the
    request for [ringing] is refused and the caller's INVITE gets no final
    response, though the callee went on to answer. *)
Theorem ringing_after_early_media :
  let t := run (call_env all_delivered
    [mkProvisional 183 (Some (described [] [] 5000)); mkProvisional 180 None] callee_answers []) in
  statuses (x_trace t) = [100; 183] /\ x_state t = Call.StateFailed.
Proof. vm_compute. done. Qed.

(** When the callee does not answer in time, the caller's INVITE gets no final
    response. *)
Theorem unanswered_invite_times_out :
  let t := run (call_env all_delivered [mkProvisional 180 None] (FinalError (Sentinel "context deadline exceeded")) []) in
  statuses (x_trace t) = [100; 180] /\ x_state t = Call.StateFailed.
Proof. vm_compute. done. Qed.

(** When the call actor does not take [answered], the callee is released and the
    caller's INVITE gets no final response. *)
Theorem answered_transition_fails :
  let t := run (call_env (fun n => if bool_decide (n = 1%nat) then Undelivered (Sentinel "timeout") else Delivered)
    [] callee_answers []) in
  statuses (x_trace t) = [100] /\ byes (x_trace t) = [hangupCallee].
Proof. vm_compute. done. Qed.

(** When the media of an established call fail, or the process stops, only the
    callee is sent BYE. *)
Theorem caller_left_in_dialog w :
  w = ParentDone \/ w = MediaResult (Some (Sentinel "media timeout")) ->
  let t := run (call_env all_delivered [] callee_answers [w]) in
  statuses (x_trace t) = [100; 200] /\ byes (x_trace t) = [hangupCallee] /\ x_state t = Call.StateTerminated.
Proof. intros [-> | ->]; vm_compute; done. Qed.
