(* ===== verification/B2buaHandlers.v ===== *)
(** * B2BUA handlers: from SIP requests to sessions

    Models the request handlers of [internal/sip/b2bua]: [handleInvite] with
    [sourceIsRegistered] and [handleBye] of [engine.go], [handleReInvite],
    [handleRefer], [handleNotify] of [in_dialog.go], the checks of [NewEngine]
    and the command mailbox ([enqueue], [enqueueAndWait]).  A handler runs on the
    engine's state and on what SIP dialogs ([emiago/sipgo]) and the other
    goroutines answer; it yields the responses it sends. *)

From S2P Require Import Prelude GoStrings Netip Registration MemoryStore RegistrationTheory B2buaEngine B2buaSession.
From S2P Require Call.

(** ** Configuration *)

Record EngineConfig := mkEngineConfig {
  ec_TenantID : TenantID; ec_Realm : string; ec_NodeID : string;
  ec_MaxActiveCalls : Z; ec_MailboxSize : Z; ec_InviteTimeout : Duration; ec_DispatchTimeout : Duration;
}.

(** [NewEngine]; [dependencies] tells whether all of them are given. *)
Definition NewEngine (cfg : EngineConfig) (dependencies : bool) : result Admission.Engine :=
  _ ← guard_err (String.eqb (ec_TenantID cfg) "" || String.eqb (ec_Realm cfg) "" || String.eqb (ec_NodeID cfg) "")
        "tenant, realm, and node ID are required";
  _ ← guard_err ((ec_MaxActiveCalls cfg <=? 0) || (ec_MailboxSize cfg <=? 0)
                 || (Call.MaxMailboxCapacity <? ec_MailboxSize cfg)) "active call and mailbox limits are invalid";
  _ ← guard_err ((ec_InviteTimeout cfg <=? 0) || (ec_DispatchTimeout cfg <=? 0))
        "invite and dispatch timeouts must be positive";
  _ ← guard_err (negb dependencies) "B2BUA dependencies are required";
  Ok Admission.NewEngine.

(** ** A new INVITE *)

Section Invite.
Context {S : Type} `{StoreLaws S}.

Record InviteRequest := mkInviteRequest {
  iv_From : option string;      (* user part; None without the header *)
  iv_To : option string;
  iv_Source : string;
  iv_Transport : string;
}.

(** What the request's surroundings answer. *)
Record InviteEnv := mkInviteEnv {
  ie_ctx : Context;
  ie_listNow : Time;                    (* the registration manager's clock *)
  ie_ReadInvite : result Admission.DialogID;
  ie_now : Time;
  ie_newV7 : nat -> result string;
}.

(** The loop of [sourceIsRegistered]. *)
Fixpoint source_matches (source transport : string) (bindings : list Binding) : bool :=
  match bindings with
  | [] => false
  | b :: rest =>
      if String.eqb (b_RouteTarget b) source && String.eqb (b_Transport b) (ToLower transport) then true
      else source_matches source transport rest
  end.

Definition sourceIsRegistered (cfg : EngineConfig) (env : InviteEnv) (aor : AoR) (source transport : string) (s : S)
    : result bool :=
  bindings ← List (ie_ctx env) (ie_listNow env) (ec_TenantID cfg) aor s;
  Ok (source_matches source transport bindings).

(** [release]: the slot, then the wait group. *)
Definition release (e : Admission.Engine) : Admission.Engine := Admission.wg_Done (Admission.release_locked e).

(** The session that is started, or the status the request is refused with. *)
Inductive Started := Refused (status : Z) | Session (inbound : Admission.DialogID) (current : Call.Call) (actor : Call.Actor).

(** [n] numbers the session. *)
Definition handleInvite (cfg : EngineConfig) (env : InviteEnv) (req : InviteRequest) (n : nat) (s : S)
    (e : Admission.Engine) : Started * Admission.Engine :=
  match Admission.reserve (ec_MaxActiveCalls cfg) e with
  | (false, e) => (Refused 503, e)
  | (true, e) =>
      match iv_From req, iv_To req with
      | Some from, Some to =>
          if String.eqb from "" || String.eqb to "" then (Refused 400, release e) else
          let callerAoR := ("sip:" +:+ from +:+ "@" +:+ ec_Realm cfg)%string in
          match sourceIsRegistered cfg env callerAoR (iv_Source req) (iv_Transport req) s with
          | Ok true =>
              match ie_ReadInvite env with
              | Err _ => (Refused 400, release e)
              | Ok inbound =>
                  match Call.New (ie_newV7 env) (ec_TenantID cfg) (ec_NodeID cfg) (ie_now env) with
                  | Err _ => (Refused 500, release e)
                  | Ok current =>
                      match Call.NewActor (ec_MailboxSize cfg) true true current with
                      | Err _ => (Refused 500, release e)
                      | Ok actor => (Session inbound current actor, Admission.add_inbound inbound n e)
                      end
                  end
              end
          | _ => (Refused 403, release e)
          end
      | _, _ => (Refused 400, release e)
      end
  end.

(** ** Requests inside a dialog *)

Inductive Command := CmdHangup (origin : hangupOrigin) | CmdReInvite | CmdRefer | CmdNotify.

(** What a handler does: its own responses, the re-INVITE flag, commands. *)
Inductive HAction :=
| HRespond (status : Z)
| HBegin (ok : bool)
| HFinish
| HReadBye (id : Admission.DialogID)     (* the dialog takes the BYE and answers it *)
| HEnqueue (session : nat) (command : Command).

(** [enqueue] ends with the command in the mailbox, or because the session is
    done or the mailbox stayed full; [enqueueAndWait] then waits for the session
    to have handled it, the session's end or its own timeout. *)
Inductive Mailbox := NotEnqueued | Enqueued (handled : bool).

Definition enqueue (session : nat) (command : Command) (m : Mailbox) : list HAction :=
  match m with NotEnqueued => [] | Enqueued _ => [HEnqueue session command] end.

Definition enqueueAndWait (session : nat) (command : Command) (m : Mailbox) : bool * list HAction :=
  (match m with Enqueued handled => handled | NotEnqueued => false end, enqueue session command m).

Definition wait_or_timeout (r : bool * list HAction) : list HAction :=
  r.2 ++ if r.1 then [] else [HRespond 408].

(** The request's dialog IDs, its [Refer-To], and how the dialog reads it. *)
Record InDialog := mkInDialog {
  rq_uas : option Admission.DialogID;
  rq_uac : option Admission.DialogID;
  rq_referTo : bool;
  rq_read : option error;            (* ReadRequest *)
  rq_readBye : Admission.DialogID -> option error;
  rq_mailbox : Mailbox;
}.

(** [hasOutbound s]: the session has an outbound dialog.  [p] are the re-INVITE
    fields of the session when the handler takes their lock. *)
Definition handleReInvite (hasOutbound : nat -> bool) (p : ReInvite.Pending) (req : InDialog) (e : Admission.Engine)
    : list HAction :=
  match Admission.findInboundSession (rq_uas req) e with
  | None => [HRespond 481]
  | Some s =>
      if negb (hasOutbound s) then [HRespond 481] else
      if (ReInvite.beginReInvite p).1 then
        HBegin true ::
        (match rq_read req with
         | Some _ => [HRespond 400]
         | None => wait_or_timeout (enqueueAndWait s CmdReInvite (rq_mailbox req))
         end) ++ [HFinish]
      else [HBegin false; HRespond 491]
  end.

Definition handleRefer (hasOutbound : nat -> bool) (req : InDialog) (e : Admission.Engine) : list HAction :=
  match Admission.findInboundSession (rq_uas req) e with
  | None => [HRespond 481]
  | Some s =>
      if negb (hasOutbound s) then [HRespond 481] else
      if negb (rq_referTo req) then [HRespond 400] else
      match rq_read req with
      | Some _ => [HRespond 400]
      | None => wait_or_timeout (enqueueAndWait s CmdRefer (rq_mailbox req))
      end
  end.

Definition handleNotify (req : InDialog) (e : Admission.Engine) : list HAction :=
  match Admission.findOutboundSession (rq_uac req) e with
  | None => [HRespond 481]
  | Some s =>
      match rq_read req with
      | Some _ => [HRespond 400]
      | None => wait_or_timeout (enqueueAndWait s CmdNotify (rq_mailbox req))
      end
  end.

(** A BYE is tried on the inbound dialogs, then on the outbound ones. *)
Definition handleBye (req : InDialog) (e : Admission.Engine) : list HAction :=
  let try_leg id lookup origin rest :=
    match id with
    | Some d =>
        match lookup d with
        | Some s => match rq_readBye req d with
                    | None => HReadBye d :: enqueue s (CmdHangup origin) (rq_mailbox req)
                    | Some _ => rest
                    end
        | None => rest
        end
    | None => rest
    end in
  try_leg (rq_uas req) (fun d : Admission.DialogID => Admission.findInboundSession (Some d) e) hangupCaller
    (try_leg (rq_uac req) (fun d : Admission.DialogID => Admission.findOutboundSession (Some d) e) hangupCallee [HRespond 481]).

(** ** Who can start a call *)

Lemma source_matches_spec source transport l :
  source_matches source transport l = true ->
  exists b, b ∈ l /\ b_RouteTarget b = source /\ b_Transport b = ToLower transport.
Proof.
  induction l as [|b l IH]; cbn; [done|].
  destruct (String.eqb_spec (b_RouteTarget b) source), (String.eqb_spec (b_Transport b) (ToLower transport)); cbn; intros Hm;
    try (destruct (IH Hm) as (x & Hx & ?); exists x; rewrite elem_of_cons; by auto).
  exists b. rewrite elem_of_cons. auto.
Qed.

(** Giving the slot back restores the engine. *)
Lemma reserve_release max e e' : Admission.reserve max e = (true, e') -> release e' = e.
Proof.
  unfold Admission.reserve. destruct (_ || _); [done|]. intros [= <-]. destruct e as [st r i o w].
  unfold release, Admission.release_locked, Admission.wg_Done. cbn. f_equal; lia.
Qed.

(** The caller's phone holds a binding that is in force. *)
Definition registered_source (cfg : EngineConfig) (env : InviteEnv) (req : InviteRequest) (s : S) : Prop :=
  exists user k b, iv_From req = Some user /\ user <> ""%string /\ view s !! k = Some b /\
    k.1 = (ec_TenantID cfg, ("sip:" +:+ user +:+ "@" +:+ ec_Realm cfg)%string) /\
    ie_listNow env < b_ExpiresAt b /\ b_RouteTarget b = iv_Source req /\
    b_Transport b = ToLower (iv_Transport req).

Lemma sourceIsRegistered_sound cfg env req user s :
  iv_From req = Some user -> user <> ""%string ->
  sourceIsRegistered cfg env ("sip:" +:+ user +:+ "@" +:+ ec_Realm cfg)%string (iv_Source req) (iv_Transport req) s = Ok true ->
  registered_source cfg env req s.
Proof.
  intros Hu Hne. unfold sourceIsRegistered. destruct (List _ _ _ _ _) as [l|] eqn:El; [|done]. cbn.
  intros [= Hm]. apply source_matches_spec in Hm as (b & Hb & Hr & Ht).
  apply (list_elem _ _ _ _ _ _ _ El) in Hb as (k & Hk & Hk1 & Hexp). by exists user, k, b.
Qed.

(** Claim C29. Only a registered phone can start a call, and only within the
    limits: an INVITE becomes a session only if the engine is not stopping, a
    slot is free, and the caller's address of record has a binding in force at
    the very address and transport the request came from; the session then is
    the one found under its dialog and takes one slot.  Any other INVITE is
    refused with one error response and leaves the engine as it was.  (For a store
    whose listing keeps [StoreLaws].) *)
Theorem invite_needs_registration cfg env req n s e :
  match handleInvite cfg env req n s e with
  | (Refused status, e') => 400 <= status < 600 /\ e' = e
  | (Session inbound current actor, e') =>
      Admission.en_stopping e = false /\ Admission.en_reserved e < ec_MaxActiveCalls cfg /\
      Admission.en_reserved e' = Admission.en_reserved e + 1 /\
      Admission.findInboundSession (Some inbound) e' = Some n /\
      Call.actor_call actor = current /\ Call.call_State current = Call.StateNew /\
      registered_source cfg env req s
  end.
Proof.
  unfold handleInvite. destruct (Admission.reserve _ e) as [[] e1] eqn:Er.
  2:{ unfold Admission.reserve in Er. destruct (_ || _); [|done]. injection Er as <-. split; [lia | done]. }
  pose proof (reserve_release _ _ _ Er) as Hrel. rewrite Hrel.
  assert (Hslot : Admission.en_stopping e = false /\ Admission.en_reserved e < ec_MaxActiveCalls cfg /\
                  Admission.en_reserved e1 = Admission.en_reserved e + 1).
  { unfold Admission.reserve in Er. destruct (_ || _) eqn:Eb; [done|]. injection Er as <-. bool_prop. cbn. auto with lia. }
  destruct (iv_From req) as [from|] eqn:Efrom; [|split; [lia | done]].
  destruct (iv_To req) as [to|]; [|split; [lia | done]].
  destruct (String.eqb_spec from "") as [->|Hne]; cbn [orb]; [split; [lia | done]|].
  destruct (String.eqb to ""); [split; [lia | done]|].
  destruct (sourceIsRegistered _ _ _ _ _ _) as [[]|err] eqn:Es; [|split; [lia | done]..].
  apply (sourceIsRegistered_sound _ _ _ _ _ Efrom Hne) in Es.
  destruct (ie_ReadInvite env) as [inbound|]; [|split; [lia | done]].
  destruct (Call.New _ _ _ _) as [current|] eqn:En; [|split; [lia | done]].
  destruct (Call.NewActor _ _ _ _) as [actor|] eqn:Ea; [|split; [lia | done]].
  split_and!; try apply Hslot; auto.
  - cbn. by rewrite lookup_insert_eq.
  - unfold Call.NewActor in Ea. destruct (_ || _); [done|]. by injection Ea as <-.
  - unfold Call.New in En. destruct (guard_err _ _), (guard_err _ _), (wrap_err _ _), (wrap_err _ _), (wrap_err _ _);
      cbn in En; try done. by injection En as <-.
Qed.

(** ** In-dialog requests are answered *)

Definition responses (l : list HAction) : list Z :=
  omap (fun a => match a with HRespond st => Some st | _ => None end) l.

(** The handler leaves the answer to the session only once the session has
    handled the command. *)
Definition answered_once (m : Mailbox) (l : list HAction) : Prop :=
  (exists status, responses l = [status] /\ 400 <= status < 500) \/
  (responses l = [] /\ m = Enqueued true /\ exists s c, HEnqueue s c ∈ l).

Lemma wait_answered s c m : answered_once m (wait_or_timeout (enqueueAndWait s c m)).
Proof.
  destruct m as [|[]]; [left; exists 408; done | right | left; exists 408; done].
  split_and!; [done|done|]. exists s, c. apply list_elem_of_here.
Qed.

Lemma answered_one m status : 400 <= status < 500 -> answered_once m [HRespond status].
Proof. intros Hs. left. by exists status. Qed.

Lemma answered_between m l : answered_once m l -> answered_once m (HBegin true :: l ++ [HFinish]).
Proof.
  unfold answered_once, responses. cbn. rewrite omap_app. cbn. rewrite app_nil_r.
  intros [?|(H1 & H2 & s & c & Hin)]; [by left|]. right. split_and!; auto. exists s, c.
  rewrite elem_of_cons, elem_of_app. auto.
Qed.

(** No in-dialog request is left unanswered: a re-INVITE, REFER or
    NOTIFY is answered by its handler with exactly one error response, or not at
    all when the session has handled it; a request outside any known dialog gets
    481; and the re-INVITE guard, once taken, is always given back. *)
Theorem in_dialog_answered hasOutbound p req e :
  answered_once (rq_mailbox req) (handleReInvite hasOutbound p req e) /\
  answered_once (rq_mailbox req) (handleRefer hasOutbound req e) /\
  answered_once (rq_mailbox req) (handleNotify req e) /\
  (Admission.findInboundSession (rq_uas req) e = None -> responses (handleReInvite hasOutbound p req e) = [481]) /\
  (HBegin true ∈ handleReInvite hasOutbound p req e -> last (handleReInvite hasOutbound p req e) = Some HFinish).
Proof.
  split_and!.
  - unfold handleReInvite. destruct (Admission.findInboundSession _ _) as [s|]; [|by apply answered_one].
    destruct (negb (hasOutbound s)); [by apply answered_one|]. destruct (ReInvite.beginReInvite p).1.
    + apply answered_between. destruct (rq_read req); [by apply answered_one | apply wait_answered].
    + left. by exists 491.
  - unfold handleRefer. destruct (Admission.findInboundSession _ _) as [s|]; [|by apply answered_one].
    destruct (negb (hasOutbound s)); [by apply answered_one|]. destruct (negb (rq_referTo req)); [by apply answered_one|].
    destruct (rq_read req); [by apply answered_one | apply wait_answered].
  - unfold handleNotify. destruct (Admission.findOutboundSession _ _) as [s|]; [|by apply answered_one].
    destruct (rq_read req); [by apply answered_one | apply wait_answered].
  - intros Hf. unfold handleReInvite. by rewrite Hf.
  - unfold handleReInvite. destruct (Admission.findInboundSession _ _) as [s|];
      [|intros Hin; by apply list_elem_of_singleton in Hin].
    destruct (negb (hasOutbound s)); [intros Hin; by apply list_elem_of_singleton in Hin|].
    destruct (ReInvite.beginReInvite p).1.
    + intros _. rewrite app_comm_cons. apply last_snoc.
    + intros Hin. apply elem_of_cons in Hin as [Hin|Hin]; [done | by apply list_elem_of_singleton in Hin].
Qed.

End Invite.

(** A timed-out request can be answered twice: its command stays in the mailbox
    after the handler has answered 408. *)
Theorem timed_out_command_stays hasOutbound p e :
  hasOutbound 0%nat = true -> (ReInvite.beginReInvite p).1 = true ->
  Admission.findInboundSession (Some "d"%string) e = Some 0%nat ->
  let req := mkInDialog (Some "d"%string) None false None (fun _ => None) (Enqueued false) in
  handleReInvite hasOutbound p req e = [HBegin true; HEnqueue 0 CmdReInvite; HRespond 408; HFinish].
Proof. intros Ho Hb Hf. cbn in *. unfold handleReInvite. cbn. by rewrite Hf, Ho, Hb. Qed.

(** ** Witnesses *)

#[local] Instance handler_store : Store RegistrationStore := memory_store map_to_list.
#[local] Instance handler_store_laws : StoreLaws RegistrationStore := memory_store_laws map_to_list sample_range.

Definition sample_engine_config : EngineConfig :=
  mkEngineConfig "default" "pbx.example.invalid" "node-1" 1 16 (30 * Second) (5 * Second).
Definition sample_invite (source : string) : InviteRequest := mkInviteRequest (Some "1001"%string) (Some "1002"%string) source "UDP".
Definition sample_invite_env : InviteEnv :=
  mkInviteEnv None 2000 (Ok "dialog-1"%string) 2000 (fun n => Ok (GoStrings.Itoa (Z.of_nat n))).

(** A phone registered from 127.0.0.1:5062 calls; the same INVITE from another
    port is refused. *)
Lemma invite_needs_registration_witness :
  exists current actor e,
    handleInvite sample_engine_config sample_invite_env (sample_invite "127.0.0.1:5062") 0 one_binding Admission.NewEngine
      = (Session "dialog-1" current actor, e) /\
    Admission.en_reserved e = 1 /\
    registered_source sample_engine_config sample_invite_env (sample_invite "127.0.0.1:5062") one_binding /\
    (handleInvite sample_engine_config sample_invite_env (sample_invite "127.0.0.1:5099") 0 one_binding Admission.NewEngine).1
      = Refused 403.
Proof.
  pose proof (invite_needs_registration sample_engine_config sample_invite_env (sample_invite "127.0.0.1:5062") 0
    one_binding Admission.NewEngine) as Hspec.
  destruct (handleInvite _ _ (sample_invite "127.0.0.1:5062") _ _ _) as [[st|inbound current actor] e] eqn:E;
    [vm_compute in E; discriminate E|].
  assert (inbound = "dialog-1"%string) as -> by (vm_compute in E; injection E; intros; subst; reflexivity).
  destruct Hspec as (_ & _ & Hr & _ & _ & _ & Hreg). exists current, actor, e.
  split; [reflexivity|]. split; [exact Hr|]. split; [exact Hreg | vm_compute; reflexivity].
Defined.

Lemma in_dialog_answered_witness :
  responses (handleReInvite (fun _ => true) (ReInvite.mkPending false None 0)
    (mkInDialog (Some "unknown"%string) None false None (fun _ => None) NotEnqueued)
    (Admission.add_inbound "dialog-1" 0 Admission.NewEngine)) = [481].
Proof.
  destruct (in_dialog_answered (fun _ => true) (ReInvite.mkPending false None 0)
    (mkInDialog (Some "unknown"%string) None false None (fun _ => None) NotEnqueued)
    (Admission.add_inbound "dialog-1" 0 Admission.NewEngine)) as (_ & _ & _ & H & _).
  apply H. vm_compute. reflexivity.
Defined.
