(* ===== verification/B2buaMailbox.v ===== *)
(** * The session's mailbox: handlers and session together

    Composes [B2buaHandlers] and [B2buaSession]: the handlers of in-dialog
    requests ([handleBye], [handleReInvite], [handleRefer], [handleNotify]) put
    commands into the [commands] channel of a session ([enqueue]) and wait for
    the session to handle them ([enqueueAndWait]), while the session's goroutine
    receives them one by one ([handleCommand]).  The system interleaves any number
    of handlers with one session, with every timeout free to fire at any time.
    What the session does with a command is [B2buaSession]'s definition of it. *)

From S2P Require Import Prelude Sdp MediaEndpoint MediaSession B2buaSession B2buaHandlers.
From S2P Require Call.

(** ** A call up to its loop *)

Section Entry.
Context `{SdpCodec}.

(** The same surroundings, with other wake-ups of the established call. *)
Definition with_wakeups (ws : list Wakeup) (env : Surroundings) : Surroundings :=
  mkSurroundings (su_dispatch env) (su_respond env) (su_now env) (su_resolve env) (su_inviteBody env) (su_media env)
    (su_outbound env) (su_provisional env) (su_final env) (su_ack env) ws.

(** Nothing but the loop looks at the wake-ups. *)
Ltac same :=
  repeat match goal with |- context [?f (with_wakeups ?ws ?env)] =>
    lazymatch f with
    | answered => fail
    | su_wakeups => change (su_wakeups (with_wakeups ws env)) with ws
    | _ => change (f (with_wakeups ws env)) with (f env)
    end end.


Ltac same_for_all :=
  intros; same; repeat match goal with E : _ = _ |- _ => rewrite E end; reflexivity.

(** The call gets to its loop, and its wake-ups matter only there; or it does
    not, and they do not matter. *)
Lemma answered_wakeups env final s :
  (forall ws, answered (with_wakeups ws env) final s = established env ws (answered (with_wakeups [] env) final s)) \/
  (forall ws, answered (with_wakeups ws env) final s = answered (with_wakeups [] env) final s).
Proof.
  unfold answered. destruct final as [body|status reason body|e]; [|by right|by right].
  destruct (match body with Some b => applyMediaAnswer env b s | None => (Ok (su_inviteBody env), s) end) as [[a|e] s1] eqn:E;
    [|right; same_for_all].
  destruct (x_callerAnswer s1) as [answer|] eqn:Ea; [|right; same_for_all].
  destruct (su_ack env) as [e|] eqn:Eack; [right; same_for_all|].
  destruct (transition env Call.StateAnswered "200" "" (record AAck s1)) as [[e|] s2] eqn:Et; [right; same_for_all|].
  destruct (respond env 200 (Some answer) s2) as [[e|] s3] eqn:Er; [right; same_for_all|].
  left. same_for_all.
Qed.

Lemma run_body_wakeups env :
  (forall ws, run_body (with_wakeups ws env) init_session = established env ws (run_body (with_wakeups [] env) init_session)) \/
  (forall ws, run_body (with_wakeups ws env) init_session = run_body (with_wakeups [] env) init_session).
Proof.
  unfold run_body.
  destruct (transition env Call.StateRouting "INVITE" "" init_session) as [[e|] s1] eqn:E1; [right; same_for_all|].
  destruct (respond env statusTrying None s1) as [[e|] s2] eqn:E2; [right; same_for_all|].
  destruct (su_resolve env) eqn:E3; [|right; same_for_all].
  destruct (ParseAudio (su_inviteBody env)) as [offer|] eqn:E4; [|right; same_for_all].
  destruct (su_media env) as [media|] eqn:E5; [|right; same_for_all].
  destruct (LocalEndpoint CalleeLeg media) as [[rtp rtcp]|] eqn:E6; [|right; same_for_all].
  destruct (BuildAudio (su_now env) rtp rtcp (CodecListForOffer offer) (ep_Direction offer)) as [out|] eqn:E7; [|right; same_for_all].
  destruct (su_outbound env) eqn:E8; [right; same_for_all|].
  destruct (waitAnswer env (su_provisional env) (set_outbound (record (AInvite out)
    (record AMediaNew (set_media (Some media) (set_offer (Some offer) s2)))))) as [final s3] eqn:E9.
  destruct (answered_wakeups env final s3) as [Ha|Ha]; [left|right]; intros ws; same; rewrite E1, E2, E3, E4, E5, E6, E7, E8, E9; apply Ha.
Qed.

(** The session as it enters its loop. *)
Definition loop_entry (env : Surroundings) : Sess := run_body (with_wakeups [] env) init_session.
Definition enters_loop (env : Surroundings) : Prop :=
  forall ws, run_body (with_wakeups ws env) init_session = established env ws (loop_entry env).

End Entry.

Section Commands.
Context `{SdpCodec}.
Variable env : Surroundings.

(** ** One round of the session's loop *)

Definition handle (w : Wakeup) (s : Sess) : Sess :=
  match w with
  | CommandHangup origin => handleHangup env origin s
  | CommandReInvite tx body pending reply ackErr => handleReInviteCommand env tx body pending reply ackErr s
  | CommandRefer tx reply | CommandNotify tx reply => relay tx reply s
  | ParentDone => handleHangup env hangupCaller s
  | MediaResult _ => handleHangup env hangupCaller (set_running false s)
  end.

(** After these the loop returns. *)
Definition ends (w : Wakeup) : bool :=
  match w with CommandHangup _ | ParentDone | MediaResult _ => true | _ => false end.

Lemma established_cons w ws s : established env (w :: ws) s = if ends w then handle w s else established env ws (handle w s).
Proof. by destruct w. Qed.

Lemma established_snoc ws w s : Forall (fun v => ends v = false) ws ->
  established env (ws ++ [w]) s = handle w (established env ws s).
Proof.
  intros Hf. revert s. induction Hf as [|v ws Hv _ IH]; intros s.
  - rewrite app_nil_l, established_cons. by destruct (ends w).
  - by rewrite <- app_comm_cons, !established_cons, Hv, IH.
Qed.

(** ** The session's responses to one transaction *)

Definition tx_status (tx : nat) (a : Action) : option Z :=
  match a with ATxRespond t status => if decide (t = tx) then Some status else None | _ => None end.
Definition tx_answers (tx : nat) (s : Sess) : list Z := omap (tx_status tx) (x_trace s).

Lemma tx_record tx a s : tx_answers tx (record a s) = tx_answers tx s ++ option_list (tx_status tx a).
Proof. unfold tx_answers. cbn. rewrite omap_app. cbn. by destruct (tx_status tx a). Qed.

Lemma tx_transition tx st pe reason s : tx_answers tx (transition env st pe reason s).2 = tx_answers tx s.
Proof.
  transitivity (tx_answers tx (record (ATransition st pe reason) s)); [|by rewrite tx_record, app_nil_r].
  unfold transition. by destruct (su_dispatch env (x_asked s)).
Qed.

Lemma tx_startMedia tx s : tx_answers tx (startMedia s) = tx_answers tx s.
Proof.
  unfold startMedia. destruct (x_mediaRunning s); [done|].
  transitivity (tx_answers tx (record AMediaStart s)); [done | by rewrite tx_record, app_nil_r].
Qed.

Lemma tx_applyMediaAnswer tx body s : tx_answers tx (applyMediaAnswer env body s).2 = tx_answers tx s.
Proof.
  unfold applyMediaAnswer. destruct (ParseAudio body) as [callee|]; [|done].
  destruct (x_callerOffer s) as [offer|]; [|done]. destruct (x_media s) as [media|]; [|done].
  destruct (Negotiate offer callee) as [mapping|]; [|done].
  destruct (match x_mediaMapping s with Some _ => _ | None => _ end); [done|].
  destruct (MediaSession.Configure offer callee mapping media) as [[err|] media']; [done|].
  assert (Hc : tx_answers tx (set_mapping mapping (record (AMediaConfigure mapping) (set_media (Some media') s))) = tx_answers tx s).
  { transitivity (tx_answers tx (record (AMediaConfigure mapping) s)); [done | by rewrite tx_record, app_nil_r]. }
  destruct (MediaSession.LocalEndpoint _ media') as [[rtp rtcp]|]; [|exact Hc].
  destruct (BuildAudio _ _ _ _ _) as [answer|]; [|exact Hc]. cbn [snd]. rewrite tx_startMedia. exact Hc.
Qed.

Lemma tx_handleHangup tx origin s : tx_answers tx (handleHangup env origin s) = tx_answers tx s.
Proof.
  unfold handleHangup. pose proof (tx_transition tx Call.StateTerminating "BYE" "normal clearing" s) as H1.
  destruct (transition _ _ _ _ s) as [[err|] s1]; [done|]. cbn [snd] in H1. rewrite tx_transition, <- H1.
  destruct origin; [destruct (x_outbound s1); [|done]|]; by rewrite tx_record, app_nil_r.
Qed.

(** A re-INVITE's transaction is answered exactly once, whatever happens, and
    with a final response if the other leg's is. *)
Lemma tx_handleReInvite tx t body pending reply ackErr s :
  match reply with Some (status, _) => 200 <= status | None => True end ->
  exists status, 200 <= status /\ tx_answers t (handleReInviteCommand env tx body pending reply ackErr s)
                 = tx_answers t s ++ option_list (tx_status t (ATxRespond tx status)).
Proof.
  intros Hfinal. unfold handleReInviteCommand.
  assert (Hr : forall a b, 200 <= a -> tx_answers t b = tx_answers t s -> exists status, 200 <= status /\
            tx_answers t (record (ATxRespond tx a) b) = tx_answers t s ++ option_list (tx_status t (ATxRespond tx status))).
  { intros a b Ha Hb. exists a. by rewrite tx_record, Hb. }
  destruct pending; [by apply Hr|]. destruct (ParseAudio body) as [offer|]; [|by apply Hr].
  destruct (match x_media s with Some _ => _ | None => _ end) as [[rtp rtcp]|]; [|by apply Hr].
  destruct (BuildAudio _ _ _ _ _) as [out|]; [|by apply Hr].
  assert (H1 : tx_answers t (record (AReInvite out) s) = tx_answers t s) by by rewrite tx_record, app_nil_r.
  destruct reply as [[status answer]|]; [|by apply Hr]. destruct (_ || _); [by apply Hr|].
  assert (H2 : tx_answers t (record AAck (record (AReInvite out) s)) = tx_answers t s) by by rewrite tx_record, app_nil_r.
  destruct ackErr; [by apply Hr|].
  pose proof (tx_applyMediaAnswer t answer (set_offer (Some offer) (record AAck (record (AReInvite out) s)))) as H3.
  destruct (applyMediaAnswer env answer _) as [[a|err] s1]; cbn [snd] in H3;
    (assert (H5 : tx_answers t s1 = tx_answers t s) by (etrans; [exact H3 | exact H2])).
  - pose proof (tx_transition t (if String.eqb (ep_Direction offer) DirectionSendRecv then Call.StateAnswered else Call.StateHeld)
                  "re-INVITE" "" s1) as H4.
    destruct (transition _ _ _ _ s1) as [[err|] s2]; cbn [snd] in H4; apply Hr; [lia | congruence | lia |].
    rewrite tx_record, app_nil_r. congruence.
  - by apply Hr.
Qed.

(** Before the loop no transaction of the dialog is answered. *)
Lemma tx_respond tx status body s : tx_answers tx (respond env status body s).2 = tx_answers tx s.
Proof. transitivity (tx_answers tx (record (ARespond status body) s)); [done | by rewrite tx_record, app_nil_r]. Qed.

Lemma tx_refusal tx reason pe status body s : tx_answers tx (fail env reason pe (respond env status body s).2) = tx_answers tx s.
Proof. unfold fail. by rewrite tx_transition, tx_respond. Qed.

Lemma tx_onResponse tx r s : tx_answers tx (onResponse env r s).2 = tx_answers tx s.
Proof.
  unfold onResponse. destruct (_ || _); [done|].
  destruct (if pr_Status r =? statusSessionProgress then pr_Body r else None) as [body|].
  - pose proof (tx_applyMediaAnswer tx body s) as H1. destruct (applyMediaAnswer env body s) as [[a|err] s1]; [|done].
    pose proof (tx_transition tx Call.StateEarlyMedia "183" "" s1) as H2.
    destruct (transition env _ _ _ s1) as [[err|] s2]; cbn [snd] in *; [congruence|]. rewrite tx_respond. congruence.
  - destruct (_ || _); [|apply tx_respond].
    pose proof (tx_transition tx Call.StateRinging (GoStrings.Itoa (pr_Status r)) "" s) as H2.
    destruct (transition env _ _ _ s) as [[err|] s2]; cbn [snd] in *; [done|]. by rewrite tx_respond.
Qed.

Lemma tx_waitAnswer tx responses : forall s, tx_answers tx (waitAnswer env responses s).2 = tx_answers tx s.
Proof.
  induction responses as [|r rest IH]; intros s; cbn [waitAnswer]; [done|]. pose proof (tx_onResponse tx r s) as H1.
  destruct (onResponse env r s) as [[err|] s1]; cbn [snd] in *; [done|]. by rewrite IH.
Qed.

Lemma tx_answered tx final s : su_wakeups env = [] -> tx_answers tx (answered env final s) = tx_answers tx s.
Proof.
  intros Hw. unfold answered. destruct final as [body|status reason body|e]; [|apply tx_refusal|].
  2:{ destruct (errors_Is e errMediaNegotiation); [apply tx_refusal | unfold fail; apply tx_transition]. }
  assert (Hm : tx_answers tx (match body with Some b => applyMediaAnswer env b s | None => (Ok (su_inviteBody env), s) end).2
               = tx_answers tx s) by (destruct body; [apply tx_applyMediaAnswer | done]).
  destruct (match body with Some b => applyMediaAnswer env b s | None => (Ok (su_inviteBody env), s) end) as [[a|e] s1];
    cbn [snd] in Hm.
  2:{ by rewrite tx_refusal, !tx_record, !app_nil_r. }
  destruct (x_callerAnswer s1) as [answer|]; [|by rewrite tx_refusal, !tx_record, !app_nil_r].
  destruct (su_ack env) as [e|]; [by rewrite tx_refusal, tx_record, app_nil_r|].
  pose proof (tx_transition tx Call.StateAnswered "200" "" (record AAck s1)) as H2. rewrite tx_record, app_nil_r in H2.
  destruct (transition env _ _ _ (record AAck s1)) as [[e|] s2]; cbn [snd] in *; [rewrite tx_record, app_nil_r; congruence|].
  pose proof (tx_respond tx 200 (Some answer) s2) as H3.
  destruct (respond env 200 (Some answer) s2) as [[e|] s3]; cbn [snd] in *; [|rewrite Hw; cbn; congruence].
  unfold terminate. rewrite !tx_transition, tx_record, app_nil_r. congruence.
Qed.

Lemma tx_run_body tx : su_wakeups env = [] -> tx_answers tx (run_body env init_session) = [].
Proof.
  intros Hw. transitivity (tx_answers tx init_session); [|done]. unfold run_body.
  pose proof (tx_transition tx Call.StateRouting "INVITE" "" init_session) as H1.
  destruct (transition env _ _ _ init_session) as [[e|] s1]; cbn [snd] in H1; [done|].
  pose proof (tx_respond tx statusTrying None s1) as H2.
  destruct (respond env statusTrying None s1) as [[e|] s2]; cbn [snd] in H2; [unfold fail; rewrite tx_transition; congruence|].
  rewrite <- H1, <- H2. destruct (su_resolve env); [|apply tx_refusal].
  destruct (ParseAudio (su_inviteBody env)) as [offer|]; [|apply tx_refusal].
  destruct (su_media env) as [media|]; [|by rewrite tx_refusal].
  assert (H3 : tx_answers tx (record AMediaNew (set_media (Some media) (set_offer (Some offer) s2))) = tx_answers tx s2)
    by (by rewrite tx_record, app_nil_r).
  destruct (LocalEndpoint CalleeLeg media) as [[rtp rtcp]|]; [|by rewrite tx_refusal].
  destruct (BuildAudio _ _ _ _ _) as [out|]; [|by rewrite tx_refusal].
  destruct (su_outbound env); [by rewrite tx_refusal|].
  pose proof (tx_waitAnswer tx (su_provisional env) (set_outbound (record (AInvite out)
    (record AMediaNew (set_media (Some media) (set_offer (Some offer) s2)))))) as H4.
  destruct (waitAnswer env _ _) as [final s3]; cbn [snd] in H4. rewrite tx_answered, H4 by done.
  etrans; [|exact H3]. transitivity (tx_answers tx (record (AInvite out) (record AMediaNew
    (set_media (Some media) (set_offer (Some offer) s2))))); [done | by rewrite tx_record, app_nil_r].
Qed.

(** The transaction a command belongs to. *)
Definition tx_of (w : Wakeup) : option nat :=
  match w with CommandReInvite tx _ _ _ _ | CommandRefer tx _ | CommandNotify tx _ => Some tx | _ => None end.

(** sipgo's [Do] returns a final response or an error. *)
Definition final_reply (w : Wakeup) : Prop :=
  match w with
  | CommandReInvite _ _ _ (Some (status, _)) _ | CommandRefer _ (Some status) | CommandNotify _ (Some status) => 200 <= status
  | _ => True
  end.

Lemma handle_answers w s tx : final_reply w ->
  exists more, tx_answers tx (handle w s) = tx_answers tx s ++ more /\ Forall (fun status => 200 <= status) more /\
    length more = if decide (tx_of w = Some tx) then 1%nat else 0%nat.
Proof.
  intros Hw.
  assert (Hone : forall t status x y, 200 <= status -> y = x ++ option_list (tx_status tx (ATxRespond t status)) ->
    exists more, y = x ++ more /\ Forall (fun status => 200 <= status) more /\
      length more = if decide (Some t = Some tx) then 1%nat else 0%nat).
  { intros t status x y Hst ->. eexists. split; [done|]. cbn. destruct (decide (t = tx)); destruct (decide _); try congruence;
      split; [by repeat constructor | done | constructor | done]. }
  assert (Hnone : forall x : list Z, exists more, x = x ++ more /\ Forall (fun status => 200 <= status) more /\ length more = 0%nat)
    by (intros x; exists []; by rewrite app_nil_r).
  destruct w as [origin|t body pending reply ackErr|t reply|t reply| |e]; cbn [handle tx_of final_reply] in *;
    try (rewrite decide_False by done).
  - rewrite tx_handleHangup. apply Hnone.
  - destruct (tx_handleReInvite t tx body pending reply ackErr s) as (status & Hst & E); [by destruct reply as [[]|]|].
    by eapply Hone.
  - apply (Hone t (match reply with Some st => st | None => 408 end)); [by destruct reply; [|lia] | apply tx_record].
  - apply (Hone t (match reply with Some st => st | None => 408 end)); [by destruct reply; [|lia] | apply tx_record].
  - rewrite tx_handleHangup. apply Hnone.
  - rewrite tx_handleHangup. change (tx_answers tx (set_running false s)) with (tx_answers tx s). apply Hnone.
Qed.

End Commands.

(** ** The system *)

Module Dialog.
Section Dialog.
Context `{SdpCodec}.
Variable env : Surroundings.
Variable capacity : nat.      (* cfg.MailboxSize *)
Variable start : Sess.        (* the session when its loop is entered *)
Hypothesis start_fresh : forall i, tx_answers i start = [].

(** A handler: in the select of [enqueue], in that of [enqueueAndWait], returned
    (for a BYE: with the command in the mailbox or not). *)
Inductive HandlerPC := Sending | Waiting | Returned (ok : bool).

(** The session: before its loop, in the select, handling the command of a
    handler, in its deferred calls, with [done] closed. *)
Inductive SessionPC := Before | Selecting | Handling (i : nat) (c : Command) | Leaving | Over.

Record sys := mkSys {
  handlers : list (Command * HandlerPC);
  commands : list (nat * Command);     (* the channel *)
  results : gset nat;                  (* the result channels that are closed *)
  pc : SessionPC;
  session : Sess;
  sent : list (nat * Command);         (* ghost: every command put into the channel *)
  handled : list Wakeup;               (* ghost: what the loop has handled *)
}.

Definition initial : sys := mkSys [] [] ∅ Before start [] [].

Definition is_hangup (c : Command) : bool := match c with CmdHangup _ => true | _ => false end.

(** The command a wake-up of the loop stands for; it carries the transaction of
    its handler, except for a BYE, which is answered already. *)
Definition command_of (w : Wakeup) : option Command :=
  match w with
  | CommandHangup o => Some (CmdHangup o) | CommandReInvite _ _ _ _ _ => Some CmdReInvite
  | CommandRefer _ _ => Some CmdRefer | CommandNotify _ _ => Some CmdNotify | _ => None
  end.
Definition wakeup_for (i : nat) (c : Command) (w : Wakeup) : Prop :=
  command_of w = Some c /\ (is_hangup c = false -> tx_of w = Some i) /\ final_reply w.

Definition after_send (c : Command) (ok : bool) : HandlerPC := if is_hangup c then Returned ok else Waiting.

Definition set_handler (i : nat) (c : Command) (h : HandlerPC) (s : sys) : sys :=
  mkSys (<[i := (c, h)]> (handlers s)) (commands s) (results s) (pc s) (session s) (sent s) (handled s).
Definition put (m : nat * Command) (s : sys) : sys :=
  mkSys (handlers s) (commands s ++ [m]) (results s) (pc s) (session s) (sent s ++ [m]) (handled s).
Definition goto (p : SessionPC) (s : sys) : sys :=
  mkSys (handlers s) (commands s) (results s) p (session s) (sent s) (handled s).
Definition take (rest : list (nat * Command)) (s : sys) : sys :=
  mkSys (handlers s) rest (results s) (pc s) (session s) (sent s) (handled s).
Definition wake (w : Wakeup) (s : sys) : sys :=
  mkSys (handlers s) (commands s) (results s) (pc s) (handle env w (session s)) (sent s) (handled s ++ [w]).
Definition close_result (i : nat) (c : Command) (s : sys) : sys :=
  mkSys (handlers s) (commands s) (if is_hangup c then results s else {[i]} ∪ results s) (pc s) (session s) (sent s) (handled s).

Inductive step : sys -> sys -> Prop :=
| s_arrive c s : step s (mkSys (handlers s ++ [(c, Sending)]) (commands s) (results s) (pc s) (session s) (sent s) (handled s))
(** [enqueue]: the command goes into the channel, the session is done, the dispatch timer fires *)
| s_put i c s : handlers s !! i = Some (c, Sending) -> (length (commands s) < capacity)%nat ->
    step s (set_handler i c (after_send c true) (put (i, c) s))
| s_put_done i c s : handlers s !! i = Some (c, Sending) -> pc s = Over -> step s (set_handler i c (after_send c false) s)
| s_put_timeout i c s : handlers s !! i = Some (c, Sending) -> step s (set_handler i c (after_send c false) s)
(** [enqueueAndWait]: the result, the session's end, the timer *)
| s_result i c s : handlers s !! i = Some (c, Waiting) -> i ∈ results s -> step s (set_handler i c (Returned true) s)
| s_wait_done i c s : handlers s !! i = Some (c, Waiting) -> pc s = Over -> step s (set_handler i c (Returned false) s)
| s_wait_timeout i c s : handlers s !! i = Some (c, Waiting) -> step s (set_handler i c (Returned false) s)
(** the session *)
| s_enter s : pc s = Before -> step s (goto Selecting s)
| s_fail s : pc s = Before -> step s (goto Leaving s)
| s_receive i c rest s : pc s = Selecting -> commands s = (i, c) :: rest -> step s (goto (Handling i c) (take rest s))
| s_handle i c w s : pc s = Handling i c -> wakeup_for i c w ->
    step s (goto (if is_hangup c then Leaving else Selecting) (close_result i c (wake w s)))
| s_stop w s : pc s = Selecting -> w = ParentDone \/ (exists e, w = MediaResult e) -> step s (goto Leaving (wake w s))
| s_done s : pc s = Leaving -> step s (goto Over s).

Definition reachable (s : sys) : Prop := rtc step initial s.

(** ** The invariant *)

(** The commands among what the loop has handled. *)
Definition handled_commands (ws : list Wakeup) : list Command := omap command_of ws.
Definition current (p : SessionPC) : list (nat * Command) := match p with Handling i c => [(i, c)] | _ => [] end.
Definition in_loop (p : SessionPC) : bool := match p with Selecting | Handling _ _ => true | _ => false end.

(** Handler [i] has put its command, and no other command of its number is there. *)
Definition sender_ok (s : sys) (m : nat * Command) : Prop :=
  exists h, handlers s !! m.1 = Some (m.2, h) /\ h <> Sending.

(** Only a command that gets an answer is waited for; a handler that returned
    [true] has seen its result, or put its hang-up. *)
Definition handler_ok (s : sys) (i : nat) (c : Command) (h : HandlerPC) : Prop :=
  match h with
  | Sending | Returned false => True
  | Waiting => is_hangup c = false
  | Returned true => if is_hangup c then (i, c) ∈ sent s else i ∈ results s
  end.

Record inv (s : sys) : Prop := {
  i_fifo : exists done, sent s = done ++ current (pc s) ++ commands s /\ done.*2 = handled_commands (handled s) /\
           (forall i, i ∈ results s <-> exists c, (i, c) ∈ done /\ is_hangup c = false) /\
           (forall i, length (tx_answers i (session s)) = if decide (i ∈ results s) then 1%nat else 0%nat);
  i_final : forall i, Forall (fun status => 200 <= status) (tx_answers i (session s));
  i_capacity : (length (commands s) <= capacity)%nat;
  i_nodup : NoDup (sent s).*1;
  i_senders : Forall (sender_ok s) (sent s);
  i_handlers : forall i c h, handlers s !! i = Some (c, h) -> handler_ok s i c h;
  i_session : session s = established env (handled s) start;
  i_going : pc s = Before \/ in_loop (pc s) = true -> Forall (fun w => ends w = false) (handled s);
  i_before : pc s = Before -> handled s = [];
}.

Lemma dialog_initial_inv : inv initial.
Proof.
  constructor; cbn; try done; try constructor; [|intros i; by rewrite start_fresh | lia].
  exists []. split_and!; [done | done | |].
  - intros i. split; [by intros ?%elem_of_empty | intros (c & ?%elem_of_nil & _); done].
  - intros i. rewrite start_fresh. by rewrite decide_False by apply not_elem_of_empty.
Qed.

(** A handler that moves on keeps the commands' senders. *)
Lemma senders_set s l i c h h' : Forall (sender_ok s) l -> handlers s !! i = Some (c, h) -> h' <> Sending ->
  Forall (sender_ok (set_handler i c h' s)) l.
Proof.
  intros Hl Hi Hh. eapply Forall_impl; [exact Hl|]. intros [j d] (g & Hj & Hg). cbn in *. unfold sender_ok. cbn.
  destruct (decide (i = j)) as [->|Hne].
  - rewrite list_lookup_insert_eq by (by eapply lookup_lt_Some). simplify_eq. eauto.
  - rewrite list_lookup_insert_ne by done. eauto.
Qed.

Lemma handlers_set s (P : nat -> Command -> HandlerPC -> Prop) i c h h' :
  (forall j d g, handlers s !! j = Some (d, g) -> P j d g) -> handlers s !! i = Some (c, h) -> P i c h' ->
  forall j d g, handlers (set_handler i c h' s) !! j = Some (d, g) -> P j d g.
Proof.
  intros Hr Hi Hp j d g Hj. cbn in Hj. destruct (decide (i = j)) as [->|Hne].
  - rewrite list_lookup_insert_eq in Hj by (by eapply lookup_lt_Some). by simplify_eq.
  - rewrite list_lookup_insert_ne in Hj by done. auto.
Qed.

(** Steps of a handler other than putting its command. *)
Lemma handler_inv s i c h h' : inv s -> handlers s !! i = Some (c, h) -> h' <> Sending -> handler_ok s i c h' ->
  inv (set_handler i c h' s).
Proof.
  intros [] Hi Hh Hr. constructor; cbn; auto.
  - by eapply senders_set.
  - by eapply (handlers_set s (handler_ok s)).
Qed.

Lemma after_send_moves c ok : after_send c ok <> Sending.
Proof. unfold after_send. by destruct (is_hangup c). Qed.

Lemma put_inv s i c : inv s -> handlers s !! i = Some (c, Sending) -> (length (commands s) < capacity)%nat ->
  inv (set_handler i c (after_send c true) (put (i, c) s)).
Proof.
  intros Hi Hh Hc.
  assert (Hnew : i ∉ (sent s).*1).
  { intros ([j d] & -> & Hm)%list_elem_of_fmap. pose proof (i_senders s Hi) as Hs. rewrite Forall_forall in Hs.
    destruct (Hs _ Hm) as (h & Hl & Hne). cbn in *. congruence. }
  destruct Hi as [(done & Hs & Hd & Hr & Ha)]. constructor; cbn; auto.
  - exists done. split_and!; auto. rewrite Hs, <- !app_assoc. done.
  - rewrite length_app. cbn. lia.
  - rewrite fmap_app. apply NoDup_app. split_and!; [done | | apply NoDup_singleton].
    intros j Hj ->%list_elem_of_singleton. done.
  - apply Forall_app. split; [by apply (senders_set s _ i c Sending); [| |apply after_send_moves]|].
    constructor; [|constructor]. exists (after_send c true). split; [|apply after_send_moves]. cbn.
    by rewrite list_lookup_insert_eq by (by eapply lookup_lt_Some).
  - apply (handlers_set s (handler_ok (put (i, c) s)) i c Sending); auto.
    + intros j d g Hj. specialize (i_handlers0 j d g Hj). destruct g as [| |[]]; cbn in *; auto.
      destruct (is_hangup d); [|done]. rewrite elem_of_app. auto.
    + unfold after_send. destruct (is_hangup c) eqn:Hg; cbn; rewrite ?Hg; [|done]. rewrite elem_of_app, list_elem_of_singleton. auto.
Qed.

(** The session has handled the command of handler [i]. *)
Lemma handle_inv s i c w : inv s -> pc s = Handling i c -> wakeup_for i c w ->
  inv (goto (if is_hangup c then Leaving else Selecting) (close_result i c (wake w s))).
Proof.
  intros Hi Hpc (Hw & Htx & Hfr). pose proof (i_going s Hi ltac:(rewrite Hpc; auto)) as Hgo.
  destruct Hi as [(done & Hs & Hd & Hr & Ha)]. rewrite Hpc in *. cbn in Hs.
  assert (Hnew : i ∉ done.*1).
  { rewrite Hs, fmap_app in i_nodup0. apply NoDup_app in i_nodup0 as (_ & Hn & _). intros Hin.
    apply (Hn i Hin). cbn. apply list_elem_of_here. }
  assert (Hnr : i ∉ results s).
  { intros (d & Hd' & _)%Hr. apply Hnew. apply list_elem_of_fmap. by exists (i, d). }
  assert (Hends : is_hangup c = ends w) by (destruct w; cbn in Hw; by simplify_eq).
  constructor; cbn [pc session handlers commands sent handled results goto close_result wake]; auto.
  - exists (done ++ [(i, c)]). split_and!.
    + rewrite Hs, <- app_assoc. by destruct (is_hangup c).
    + unfold handled_commands. rewrite fmap_app, omap_app, Hd. cbn. by rewrite Hw.
    + intros j. destruct (is_hangup c) eqn:Hc.
      * rewrite Hr. split; intros (d & Hin & Hf); exists d; rewrite elem_of_app in *; [auto|].
        destruct Hin as [|[= -> ->]%list_elem_of_singleton]; [done | congruence].
      * rewrite elem_of_union, elem_of_singleton, Hr. split.
        -- intros [->|(d & Hin & Hf)]; [exists c | exists d]; rewrite elem_of_app, list_elem_of_singleton; auto.
        -- intros (d & [Hin|[= -> ->]%list_elem_of_singleton]%elem_of_app & Hf); eauto.
    + intros j. destruct (handle_answers env w (session s) j Hfr) as (more & -> & _ & Hmore).
      rewrite length_app, Hmore, Ha. destruct (is_hangup c) eqn:Hc.
      * rewrite (decide_False (P := tx_of w = Some j)); [lia|]. by destruct w.
      * rewrite (Htx eq_refl). destruct (decide (Some i = Some j)) as [[= ->]|Hne].
        -- rewrite (decide_False (P := j ∈ results s)) by done.
           by rewrite (decide_True (P := j ∈ {[j]} ∪ results s)) by (by apply elem_of_union_l, elem_of_singleton).
        -- rewrite (decide_ext (j ∈ {[i]} ∪ results s) (j ∈ results s)); [lia|].
           rewrite elem_of_union, elem_of_singleton. naive_solver.
  - intros j. destruct (handle_answers env w (session s) j Hfr) as (more & -> & Hmore & _). by apply Forall_app.
  - intros j d g Hj. specialize (i_handlers0 j d g Hj). destruct g as [| |[]]; cbn in *; auto.
    destruct (is_hangup d), (is_hangup c); auto. by apply elem_of_union_r.
  - rewrite established_snoc by done. by rewrite i_session0.
  - intros Hl. apply Forall_app. split; [done|]. constructor; [|done]. rewrite <- Hends. by destruct (is_hangup c), Hl.
  - by destruct (is_hangup c).
Qed.

Lemma dialog_step_inv s s' : inv s -> step s s' -> inv s'.
Proof.
  intros Hi Hs. destruct Hs as [c s|i c s Hh Hc|i c s Hh Hp|i c s Hh|i c s Hh Hr|i c s Hh Hp|i c s Hh
    |s Hp|s Hp|i c rest s Hp Hq|i c w s Hp Hw|w s Hp Hw|s Hp].
  - destruct Hi. constructor; cbn; auto.
    + eapply Forall_impl; [exact i_senders0|]. intros m (h & Hm & Hh). exists h. split; [|done]. cbn. by apply lookup_app_l_Some.
    + intros j d g Hj. apply lookup_app_Some in Hj as [Hj|[_ Hj]]; [by apply i_handlers0|].
      by apply list_lookup_singleton_Some in Hj as [_ [= <- <-]].
  - by apply put_inv.
  - eapply handler_inv; eauto using after_send_moves. unfold after_send. by destruct (is_hangup c) eqn:E; cbn.
  - eapply handler_inv; eauto using after_send_moves. unfold after_send. by destruct (is_hangup c) eqn:E; cbn.
  - eapply handler_inv; eauto. cbn. by rewrite (i_handlers _ Hi i c _ Hh).
  - eapply handler_inv; eauto. done.
  - eapply handler_inv; eauto. done.
  - destruct Hi. rewrite Hp in *. constructor; cbn; auto; done.
  - destruct Hi. rewrite Hp in *. constructor; cbn; auto; try done; by intros [|].
  - destruct Hi as [(done & Hs & ?)]. rewrite Hp, Hq in *. constructor; cbn; auto; try done; [eauto | cbn in *; lia].
  - by apply handle_inv.
  - pose proof (i_going s Hi ltac:(rewrite Hp; auto)) as Hgo. destruct Hi as [(done & Hs & Hd & Hr & Ha)]. rewrite Hp in *.
    assert (command_of w = None /\ tx_of w = None /\ final_reply w) as (Hc & Ht & Hfr) by (destruct Hw as [->|[e ->]]; done).
    constructor; cbn; auto; try done; [| |by rewrite established_snoc, i_session0 | by intros [|]].
    + exists done. unfold handled_commands. rewrite omap_app. cbn. rewrite Hc, app_nil_r. split_and!; auto.
      intros j. destruct (handle_answers env w (session s) j Hfr) as (more & -> & _ & Hmore).
      rewrite length_app, Hmore, Ht, decide_False by done. by rewrite Nat.add_0_r.
    + intros j. destruct (handle_answers env w (session s) j Hfr) as (more & -> & Hmore & _). by apply Forall_app.
  - destruct Hi. rewrite Hp in *. constructor; cbn; auto; try done; by intros [|].
Qed.

Lemma dialog_reachable_inv s : reachable s -> inv s.
Proof. intros Hr. pose proof dialog_initial_inv as Hi. revert Hi. induction Hr; eauto using dialog_step_inv. Qed.

(** ** What the two together guarantee *)

(** What [B2buaHandlers] is told about the mailbox, for a handler that has returned. *)
Definition outcome (s : sys) (i : nat) (ok : bool) : Mailbox :=
  if decide (i ∈ (sent s).*1) then Enqueued ok else NotEnqueued.
(** The handler's own response, if it sends one. *)
Definition own_answers (s : sys) (n i : nat) (c : Command) (ok : bool) : list Z :=
  responses (wait_or_timeout (enqueueAndWait n c (outcome s i ok))).

Lemma own_answers_spec s n i c ok : own_answers s n i c ok = if decide (i ∈ (sent s).*1 /\ ok = true) then [] else [408].
Proof.
  unfold own_answers, outcome. destruct (decide (i ∈ (sent s).*1)) as [Hin|Hin], ok;
    first [by rewrite decide_True | by rewrite decide_False by naive_solver].
Qed.

(** Claim C7. No in-dialog request is left unanswered, by the handler and the
    session together: when the handler of a re-INVITE, REFER or NOTIFY has
    returned, its transaction has got a final response, from the session if the
    session has handled the command in time and a 408 of the handler otherwise, and
    no other than final responses; a second one is possible only if the handler gave
    up waiting for a command the session handled nevertheless.  (What the other leg
    answers is final or an error, which is what sipgo's [Do] returns.) *)
Theorem requests_answered s n i c ok :
  reachable s -> handlers s !! i = Some (c, Returned ok) -> is_hangup c = false ->
  let answers := tx_answers i (session s) ++ own_answers s n i c ok in
  (1 <= length answers <= 2)%nat /\ Forall (fun status => 200 <= status) answers /\
  (ok = true -> length (tx_answers i (session s)) = 1%nat /\ own_answers s n i c ok = []) /\
  (length answers = 2%nat -> ok = false /\ (i, c) ∈ sent s /\ i ∈ results s).
Proof.
  intros Hr Hh Hc. pose proof (dialog_reachable_inv s Hr) as Hi. pose proof (i_handlers s Hi i c _ Hh) as Hok.
  destruct (i_fifo s Hi) as (done & Hs & _ & Hres & Ha). cbn zeta.
  assert (Hfin : Forall (fun status => 200 <= status) (tx_answers i (session s) ++ own_answers s n i c ok)).
  { apply Forall_app. split; [by apply i_final|]. rewrite own_answers_spec. destruct (decide _); by repeat constructor. }
  rewrite length_app, Ha. split; [|split; [exact Hfin|]]; clear Hfin; rewrite own_answers_spec;
  assert (Hin : i ∈ results s -> (i, c) ∈ sent s)
    by (intros (d & Hd & Hf)%Hres; assert (Hm : (i, d) ∈ sent s) by (rewrite Hs; apply elem_of_app; auto);
        pose proof (i_senders s Hi) as Hse; rewrite Forall_forall in Hse; destruct (Hse _ Hm) as (h & Hl & _); cbn in Hl; congruence);
  assert (Hin1 : i ∈ results s -> i ∈ (sent s).*1) by (intros Hx%Hin; apply list_elem_of_fmap; by exists (i, c));
  (destruct ok; cbn in Hok; [rewrite Hc in Hok|]).
  - rewrite (decide_True (P := i ∈ results s)), (decide_True (P := _ /\ _)) by auto. cbn. lia.
  - rewrite (decide_False (P := _ /\ _)) by (by intros [_ ?]). cbn. destruct (decide (i ∈ results s)); lia.
  - rewrite (decide_True (P := i ∈ results s)), (decide_True (P := _ /\ _)) by auto. cbn. split_and!; auto; lia.
  - rewrite (decide_False (P := _ /\ _)) by (by intros [_ ?]). cbn. destruct (decide (i ∈ results s)); split_and!; auto; lia.
Qed.

(** The session sees the commands as a sequential loop would: whatever
    the interleaving, its state is that of [B2buaSession.established] on the
    wake-ups it has handled; these are commands in the order in which handlers put
    them, each handler's at most once, and the mailbox never holds more than its
    capacity. *)
Theorem mailbox_refines_loop s :
  reachable s ->
  session s = established env (handled s) start /\
  (exists rest, (sent s).*2 = handled_commands (handled s) ++ rest) /\
  NoDup (sent s).*1 /\ (length (commands s) <= capacity)%nat /\
  (forall i c, (i, c) ∈ sent s -> exists h, handlers s !! i = Some (c, h)).
Proof.
  intros Hr. destruct (dialog_reachable_inv s Hr) as [(done & Hs & Hd & _)]. split_and!; auto.
  - rewrite Hs, fmap_app, Hd. eauto.
  - intros i c Hin. rewrite Forall_forall in i_senders0. destruct (i_senders0 _ Hin) as (h & Hl & _). eauto.
Qed.

(** What is in front of a command, in the hands of the session and in the channel. *)
Definition ahead (s : sys) (m : nat * Command) (k : nat) : Prop :=
  in_loop (pc s) = true /\ (current (pc s) ++ commands s) !! k = Some m.

Definition left_loop (p : SessionPC) : Prop := p = Leaving \/ p = Over.

Lemma ahead_step s s' i o k : step s s' -> ahead s (i, CmdHangup o) k ->
  left_loop (pc s') \/ exists k', ahead s' (i, CmdHangup o) k' /\
    (length (handled s') + k' = length (handled s) + k)%nat.
Proof.
  intros Hs [Hl Hk]. unfold ahead. destruct Hs; cbn; try (right; by exists k);
    try (rewrite H0 in Hl; done); try (by left; left); try (by left; right).
  - right. exists k. split; [|done]. split; [done|]. rewrite app_assoc. by apply lookup_app_l_Some.
  - right. exists k. split; [|done]. rewrite H0, H1 in Hk. by split.
  - rewrite H0 in Hk. destruct k as [|k]; cbn in Hk.
    + injection Hk as -> ->. by left; left.
    + destruct (is_hangup c); [by left; left|]. right. exists k. split; [|rewrite length_app; cbn; lia]. by split.
Qed.

(** The session, left to itself with the command of handler [j] in its hands,
    handles this and the commands queued behind it up to the first hang-up. *)
Definition handles_alone (s s' : sys) (ws : list Wakeup) (k : nat) : Prop :=
  rtc step s s' /\ handlers s' = handlers s /\ sent s' = sent s /\ pc s' = Leaving /\
  handled s' = handled s ++ ws /\ (length ws <= S k)%nat /\ (exists o, last ws = Some (CommandHangup o)) /\
  Forall2 (fun m w => wakeup_for m.1 m.2 w) (firstn (length ws) (current (pc s) ++ commands s)) ws.

Lemma some_wakeup j c : exists w, wakeup_for j c w /\ (forall o, c = CmdHangup o -> w = CommandHangup o).
Proof.
  destruct c; [exists (CommandHangup origin) | exists (CommandReInvite j (su_inviteBody env) true None None)
              | exists (CommandRefer j None) | exists (CommandNotify j None)]; (split; [done | by intros ? [= ->]]).
Qed.

Lemma handling_drains k : forall s j c i o, pc s = Handling j c -> ((j, c) :: commands s) !! k = Some (i, CmdHangup o) ->
  exists s' ws, handles_alone s s' ws k.
Proof.
  induction k as [|k IH]; intros s j c i o Hp Hk; destruct (some_wakeup j c) as (w & Hw & Hwo);
    pose proof (s_handle j c w s Hp Hw) as Hstep.
  - injection Hk as -> ->. exists (goto Leaving (close_result i (CmdHangup o) (wake w s))), [w]. unfold handles_alone. rewrite Hp.
    split_and!; [exact (rtc_once _ _ Hstep) | done.. | | by constructor; [exact Hw | constructor]]. rewrite (Hwo o eq_refl). by exists o.
  - cbn in Hk. destruct (is_hangup c) eqn:Hc.
    + destruct c as [o'| | |]; try done. exists (goto Leaving (close_result j (CmdHangup o') (wake w s))), [w]. unfold handles_alone. rewrite Hp.
      split_and!; [exact (rtc_once _ _ Hstep) | done.. | cbn; lia | | by constructor; [exact Hw | constructor]]. rewrite (Hwo o' eq_refl). by exists o'.
    + set (s1 := goto Selecting _) in Hstep. destruct (commands s) as [|[j' c'] rest] eqn:Hq; [done|].
      assert (Hrec : step s1 (goto (Handling j' c') (take rest s1))) by by apply s_receive.
      destruct (IH (goto (Handling j' c') (take rest s1)) j' c' i o eq_refl Hk)
        as (s' & ws & Hr & H1 & H2 & H3 & H4 & H5 & H6 & H7). exists s', (w :: ws). unfold handles_alone. rewrite Hp, Hq.
      split_and!; [|done..| |cbn; lia | |].
      * eapply rtc_l; [exact Hstep|]. by eapply rtc_l.
      * rewrite H4. cbn. by rewrite <- app_assoc.
      * destruct H6 as [o' Ho']. exists o'. rewrite last_cons, Ho'. done.
      * cbn. by constructor.
Qed.

Lemma ahead_drains s i o k : ahead s (i, CmdHangup o) k -> exists s' ws, handles_alone s s' ws k.
Proof.
  intros [Hl Hk]. destruct (pc s) as [| |j c| |] eqn:Hp; try done; [|by eapply handling_drains].
  cbn in Hk. destruct (commands s) as [|[j c] rest] eqn:Hq; [done|].
  assert (Hrec : step s (goto (Handling j c) (take rest s))) by by apply s_receive.
  destruct (handling_drains k (goto (Handling j c) (take rest s)) j c i o eq_refl Hk)
    as (s' & ws & Hr & H1 & H2 & H3 & H4 & H5 & H6 & H7). exists s', ws. unfold handles_alone. rewrite Hp, Hq.
  split_and!; [by eapply rtc_l | done..].
Qed.

(** Claim C26. A hang-up in the mailbox ends the call.  As long as the session is in
    its loop the hang-up keeps its place, and every command the session handles
    brings it one place forward, whatever the handlers do.  And at any time the
    session, left to itself, goes through its mailbox: it receives and handles the
    commands in their order, at most as many as are up to the hang-up, and leaves its
    loop after a hang-up. *)
Theorem hangup_ends_call s s' i o k :
  rtc step s s' -> ahead s (i, CmdHangup o) k ->
  left_loop (pc s') \/
  exists k', ahead s' (i, CmdHangup o) k' /\ (length (handled s') + k' = length (handled s) + k)%nat /\
    exists s'' ws, rtc step s' s'' /\ handlers s'' = handlers s' /\ sent s'' = sent s' /\ pc s'' = Leaving /\
      handled s'' = handled s' ++ ws /\ (length ws <= S k')%nat /\ (exists o', last ws = Some (CommandHangup o')) /\
      Forall2 (fun m w => wakeup_for m.1 m.2 w) (firstn (length ws) (current (pc s') ++ commands s')) ws.
Proof.
  intros Hr Ha.
  assert (Hinv : left_loop (pc s') \/ exists k', ahead s' (i, CmdHangup o) k' /\
                   (length (handled s') + k' = length (handled s) + k)%nat).
  { revert k Ha. induction Hr as [s|s1 s2 s3 Hs Hr IH]; intros k Ha; [right; by exists k|].
    destruct (ahead_step _ _ _ _ _ Hs Ha) as [Hl|(k' & Ha' & Hk')].
    - left. clear -Hr Hl. induction Hr as [|s1 s2 s3 Hs _ IH]; [done|]. apply IH. unfold left_loop in *.
      destruct Hs; cbn; auto; destruct Hl; congruence.
    - destruct (IH k' Ha') as [?|(k2 & ? & ?)]; [by left | right; exists k2; split; [done | lia]]. }
  destruct Hinv as [?|(k' & Hk & Hlen)]; [by left|]. right. exists k'. split; [done|]. split; [done|].
  exact (ahead_drains s' i o k' Hk).
Qed.

End Dialog.
End Dialog.

(** ** One call with all its handlers *)

Module CallSystem.
Import Dialog.

Section CallSystem.
Context `{SdpCodec}.
Variable env : Surroundings.
Variable capacity : nat.

(** The system of a call that has got to its loop. *)
Definition call_reachable (s : sys) : Prop := reachable env capacity (loop_entry env) s.

Lemma entry_fresh i : tx_answers i (loop_entry env) = [].
Proof. by apply (tx_run_body (with_wakeups [] env)). Qed.

(** Claim C2. With any number of in-dialog requests handled at the same time, a
    call that has been answered and is in its loop keeps to the protocol.  In every
    interleaving the commands the session has handled, the one in its hands and those
    in the mailbox are, in this order, exactly the commands the handlers have put,
    each handler's at most once, and the mailbox never holds more than its capacity;
    what the session has done so far is a run of the protocol machine, it is what
    [B2buaSession.run] does in surroundings that wake it with these commands in this
    order, and with the deferred calls added it ends with the session removed and the
    media freed.  (The callee's final response, if it refuses, has a status of 300 or
    more.) *)
Theorem call_system_follows_protocol s :
  final_wf (su_final env) -> enters_loop env -> call_reachable s ->
  (exists done, sent s = done ++ current (pc s) ++ commands s /\ done.*2 = handled_commands (handled s)) /\
  NoDup (sent s).*1 /\ (forall i c, (i, c) ∈ sent s -> exists h, handlers s !! i = Some (c, h)) /\
  (length (commands s) <= capacity)%nat /\
  (exists p, spec_run (x_trace (session s)) = Some p /\ ph_stage p = Open) /\
  deferred_calls (session s) = run (with_wakeups (handled s) env) /\
  exists p, spec_run (x_trace (deferred_calls (session s))) = Some p /\ ph_stage p = Removed /\
    (ph_media p = NoMedia \/ ph_media p = Freed).
Proof.
  intros Hf He Hr. destruct (dialog_reachable_inv env capacity _ entry_fresh s Hr) as [(done & Hq & Hd & _) _ Hcap Hnd Hse _ Hs _ _].
  rewrite <- (He (handled s)) in Hs.
  assert (Hrun : deferred_calls (session s) = run (with_wakeups (handled s) env)) by (unfold run; by rewrite Hs).
  split_and!; auto; [by eauto|..].
  - intros i c Hin. rewrite Forall_forall in Hse. destruct (Hse _ Hin) as (h & Hl & _). by eauto.
  - destruct (run_body_released (with_wakeups (handled s) env) Hf) as (p & [Ht _ Ho]). exists p. by rewrite Hs.
  - rewrite Hrun. destruct (run_ends (with_wakeups (handled s) env) Hf) as (p & ? & ? & ? & _). by exists p.
Qed.

End CallSystem.

(** ** Runs *)

#[local] Existing Instance identity_codec.

Definition sample_call : Surroundings := call_env all_delivered [mkProvisional 180 None] callee_answers [].

Lemma sample_enters : enters_loop sample_call.
Proof.
  destruct (run_body_wakeups sample_call) as [?|Hn]; [done|]. specialize (Hn [CommandHangup hangupCallee]).
  apply (f_equal (fun s => length (x_trace s))) in Hn. vm_compute in Hn. discriminate Hn.
Qed.

(** A REFER and a BYE arrive; both are put; the REFER is handled. *)
Definition arrived (hs : list Command) : sys :=
  mkSys ((fun c => (c, Sending)) <$> hs) [] ∅ Selecting (loop_entry sample_call) [] [].
Definition both_put : sys :=
  set_handler 1 (CmdHangup hangupCaller) (Returned true) (put (1%nat, CmdHangup hangupCaller)
    (set_handler 0 CmdRefer Waiting (put (0%nat, CmdRefer) (arrived [CmdRefer; CmdHangup hangupCaller])))).
Definition refer_handled : sys :=
  set_handler 0 CmdRefer (Returned true) (goto Selecting (close_result 0 CmdRefer (wake sample_call (CommandRefer 0 (Some 202))
    (goto (Handling 0 CmdRefer) (Dialog.take [(1%nat, CmdHangup hangupCaller)] both_put))))).

(** From the last step back to the first. *)
Ltac back c := eapply rtc_r; [|eapply c; try reflexivity; try (cbn; lia)].

Lemma arrived_reachable capacity hs : call_reachable sample_call capacity (arrived hs).
Proof.
  set (waiting hs := mkSys ((fun c => (c, Sending)) <$> hs) [] ∅ Before (loop_entry sample_call) [] []).
  apply (rtc_r _ (waiting hs)); [|by apply (s_enter _ _ (waiting hs))].
  induction hs as [|c hs IH] using rev_ind; [apply rtc_refl|]. apply (rtc_r _ (waiting hs)); [done|].
  replace (waiting (hs ++ [c])) with (mkSys (handlers (waiting hs) ++ [(c, Sending)]) [] ∅ Before (loop_entry sample_call) [] [])
    by (unfold waiting; by rewrite fmap_app). apply (s_arrive _ _ c (waiting hs)).
Qed.

Lemma both_put_reachable : call_reachable sample_call 2 both_put.
Proof.
  unfold both_put, call_reachable, reachable. back s_put. back s_put. apply arrived_reachable.
Qed.

Lemma refer_handled_reachable : call_reachable sample_call 2 refer_handled.
Proof.
  unfold refer_handled, call_reachable, reachable.
  back s_result.
  back s_handle; [|by split_and!]. back s_receive. exact both_put_reachable.
Qed.

Lemma requests_answered_witness :
  handlers refer_handled !! 0%nat = Some (CmdRefer, Returned true) /\
  length (tx_answers 0 (session refer_handled)) = 1%nat /\
  Forall (fun status => 200 <= status) (tx_answers 0 (session refer_handled)).
Proof.
  split; [reflexivity|].
  destruct (requests_answered sample_call 2 (loop_entry sample_call) (entry_fresh sample_call) refer_handled 0 0 CmdRefer true
    refer_handled_reachable eq_refl eq_refl) as (_ & Hfin & Hok & _).
  split; [exact (proj1 (Hok eq_refl))|]. apply Forall_app in Hfin as [Hfin _]. exact Hfin.
Defined.

Lemma mailbox_refines_loop_witness :
  session refer_handled = established sample_call [CommandRefer 0 (Some 202)] (loop_entry sample_call).
Proof.
  exact (proj1 (mailbox_refines_loop sample_call 2 (loop_entry sample_call) (entry_fresh sample_call) refer_handled
    refer_handled_reachable)).
Defined.

Lemma hangup_ends_call_witness :
  ahead both_put (1%nat, CmdHangup hangupCaller) 1 /\
  exists s'' ws, rtc (step sample_call 2) both_put s'' /\ pc s'' = Leaving /\
    handled s'' = ws /\ (length ws <= 2)%nat /\ exists o, last ws = Some (CommandHangup o).
Proof.
  split; [by split|].
  destruct (hangup_ends_call sample_call 2 both_put both_put 1 hangupCaller 1 ltac:(apply rtc_refl) ltac:(by split))
    as [[Hp|Hp]|(k' & _ & Hk & s'' & ws & Hr & _ & _ & Hpc & Hh & Hl & Hlast & _)]; [discriminate Hp | discriminate Hp |].
  exists s'', ws. split; [exact Hr|]. split; [exact Hpc|]. split; [exact Hh|]. cbn in Hk. split; [lia | exact Hlast].
Defined.

Lemma call_system_follows_protocol_witness :
  enters_loop sample_call /\ (sent refer_handled).*2 = [CmdRefer; CmdHangup hangupCaller] /\
  handled_commands (handled refer_handled) ++ (commands refer_handled).*2 = (sent refer_handled).*2 /\
  deferred_calls (session refer_handled) = run (with_wakeups [CommandRefer 0 (Some 202)] sample_call).
Proof.
  split; [exact sample_enters|]. split; [reflexivity|].
  destruct (call_system_follows_protocol sample_call 2 refer_handled I sample_enters refer_handled_reachable)
    as ((done & Hs & Hd) & _ & _ & _ & _ & Hrun & _).
  split; [rewrite Hs, <- Hd, !fmap_app; reflexivity | exact Hrun].
Defined.

(** ** Where requests are answered twice, and hang-ups lost *)

(** A handler that gives up waiting answers 408; the session then handles the
    command all the same, and answers the transaction a second time. *)
Theorem request_answered_twice : exists s,
  call_reachable sample_call 2 s /\ handlers s !! 0%nat = Some (CmdRefer, Returned false) /\
  tx_answers 0 (session s) = [202] /\ own_answers s 0 0 CmdRefer false = [408].
Proof.
  exists (goto Selecting (close_result 0 CmdRefer (wake sample_call (CommandRefer 0 (Some 202)) (goto (Handling 0 CmdRefer)
    (Dialog.take [] (set_handler 0 CmdRefer (Returned false) (set_handler 0 CmdRefer Waiting (put (0%nat, CmdRefer) (arrived [CmdRefer]))))))))).
  split; [|by split_and!; vm_compute].
  unfold call_reachable, reachable. back s_handle; [|by split_and!]. back s_receive. back s_wait_timeout. back s_put.
  apply arrived_reachable.
Qed.

(** A BYE whose command does not fit into the mailbox in time is lost: the dialog
    has answered it, and the session goes on as if it had not come. *)
Theorem bye_lost_when_mailbox_full : exists s,
  call_reachable sample_call 1 s /\ handlers s !! 1%nat = Some (CmdHangup hangupCaller, Returned false) /\
  pc s = Selecting /\ commands s = [] /\ x_state (session s) = Call.StateAnswered /\ byes (x_trace (session s)) = [].
Proof.
  exists (goto Selecting (close_result 0 CmdRefer (wake sample_call (CommandRefer 0 (Some 202)) (goto (Handling 0 CmdRefer)
    (Dialog.take [] (set_handler 1 (CmdHangup hangupCaller) (Returned false) (set_handler 0 CmdRefer Waiting (put (0%nat, CmdRefer)
      (arrived [CmdRefer; CmdHangup hangupCaller]))))))))).
  split; [|by split_and!; vm_compute].
  unfold call_reachable, reachable. back s_handle; [|by split_and!]. back s_receive. back s_put_timeout. back s_put.
  apply arrived_reachable.
Qed.

End CallSystem.
