(* ===== verification/SipMessages.v ===== *)
(** * SIP messages of the B2BUA

    Models how [sip/b2bua] builds the messages it sends: [createOutbound] and
    [contentTypeHeaders] of [engine.go], [cloneInDialogRequest], [relayToCallee],
    [relayToCaller] and [respondRelayed] of [in_dialog.go], and the routing of
    requests to handlers in [RegisterHandlers] and [App.Run].  The message types
    are sipgo's; what it does with URIs, header names and header parameters is a
    parameter ([SipLib]). *)

From S2P Require Import Prelude GoStrings Registration B2buaEngine.

Record Header := mkHeader { h_Name : string; h_Value : string }.

Class SipLib := {
  Uri : Type;
  Params : Type;                                   (* the parameters of a header *)
  ParseUri : string -> result Uri;
  header_is : string -> Header -> bool;            (* what [GetHeaders(name)] selects *)
  param_get : Params -> string -> option string;
  param_add : string -> string -> Params -> Params;
  param_remove : string -> Params -> Params;
  response_headers : list Header -> list Header;   (* what a response copies from its request *)
}.

Definition relayed_response_headers : list string := ["Event"; "Subscription-State"; "Content-Type"].

Class SipLaws `{SipLib} := {
  param_get_add k v p k' : param_get (param_add k v p) k' = if String.eqb k k' then Some v else param_get p k';
  param_get_remove k p k' : param_get (param_remove k p) k' = if String.eqb k k' then None else param_get p k';
  (** a header has one name, up to case *)
  header_is_one n m h : header_is n h = true -> header_is m h = true -> EqualFold n m = true;
}.

Section Messages.
Context `{SipLib}.

Record FromHeader := mkFrom { fh_Address : Uri; fh_Params : Params }.

Record Request := mkRequest {
  rq_Method : string; rq_Recipient : Uri; rq_Transport : string; rq_Destination : string;
  rq_From : option FromHeader; rq_Contact : option Uri; rq_Headers : list Header; rq_Body : list Z;
}.

Record Response := mkResponse { rs_StatusCode : Z; rs_Reason : string; rs_Headers : list Header; rs_Body : list Z }.

(** [sip.NewResponseFromRequest] *)
Definition NewResponseFromRequest (request : Request) (status : Z) (reason : string) (body : list Z) : Response :=
  mkResponse status reason (response_headers (rq_Headers request)) body.

Definition GetHeaders (name : string) (hs : list Header) : list Header := filter (fun h => header_is name h = true) hs.

(** ** The INVITE to the callee *)

(** What is handed to [dialogClient.WriteInvite]; [tag] is sipgo's new tag. *)
Definition createOutbound (tag : string) (inbound : FromHeader) (binding : Binding) (offer : list Z) : result Request :=
  recipient ← wrap_err "parse registered contact" (ParseUri (b_Contact binding));
  let from := mkFrom (fh_Address inbound) (param_add "tag" tag (param_remove "tag" (fh_Params inbound))) in
  Ok {| rq_Method := "INVITE"; rq_Recipient := recipient; rq_Transport := b_Transport binding;
        rq_Destination := b_RouteTarget binding; rq_From := Some from; rq_Contact := None;
        rq_Headers := [mkHeader "Content-Type" "application/sdp"]; rq_Body := offer |}.

(** [contentType]: the response's own Content-Type, if it has one. *)
Definition contentTypeHeaders (contentType : option Header) (body : list Z) : list Header :=
  match body, contentType with
  | [], _ => []
  | _ :: _, Some h => [h]
  | _ :: _, None => [mkHeader "Content-Type" "application/sdp"]
  end.

(** ** Requests passed on inside a dialog *)

Definition copied (names : list string) (hs : list Header) : list Header :=
  concat ((fun name => GetHeaders name hs) <$> names).
#[local] Arguments copied : simpl never.



(** [result] is what the other dialog's [Do] returned. *)
Definition respondRelayed (command : Request) (result : result (option Response)) : Response :=
  match result with
  | Err _ | Ok None => NewResponseFromRequest command 408 "Request Timeout" []
  | Ok (Some response) =>
      let r := NewResponseFromRequest command (rs_StatusCode response) (rs_Reason response) (rs_Body response) in
      mkResponse (rs_StatusCode r) (rs_Reason r) (rs_Headers r ++ copied relayed_response_headers (rs_Headers response)) (rs_Body r)
  end.

(** ** Routing of requests *)

Inductive Route := ToInvite | ToReInvite | ToAck | ToBye | ToRefer | ToNotify | ToRegister | ToOptions | Unrouted.

(** [toTag]: the request has a To header with a tag. *)
Definition route (method : string) (toTag : bool) : Route :=
  if String.eqb method "INVITE" then (if toTag then ToReInvite else ToInvite)
  else if String.eqb method "ACK" then ToAck
  else if String.eqb method "BYE" then ToBye
  else if String.eqb method "REFER" then ToRefer
  else if String.eqb method "NOTIFY" then ToNotify
  else if String.eqb method "REGISTER" then ToRegister
  else if String.eqb method "OPTIONS" then ToOptions
  else Unrouted.

(** The ACK handler: an ACK the dialog accepts completes the pending re-INVITE
    with its CSeq.  Returns the session touched and the transaction to end. *)
Definition handleAck (readAck : option error) (id : option Admission.DialogID) (cseq : Z) (e : Admission.Engine)
    (pending : nat -> ReInvite.Pending) : option (nat * option ReInvite.Tx * ReInvite.Pending) :=
  match readAck with
  | Some _ => None
  | None =>
      match Admission.findInboundSession id e with
      | None => None
      | Some s => let '(tx, p) := ReInvite.completePendingReInviteCSeq cseq (pending s) in Some (s, tx, p)
      end
  end.

(** ** Properties *)

Context `{!SipLaws}.

Lemma GetHeaders_in name h hs : h ∈ GetHeaders name hs <-> h ∈ hs /\ header_is name h = true.
Proof. unfold GetHeaders. rewrite list_elem_of_filter. tauto. Qed.

Lemma copied_in names h hs : h ∈ copied names hs <-> h ∈ hs /\ exists name, name ∈ names /\ header_is name h = true.
Proof.
  unfold copied. induction names as [|n names IH]; csimpl.
  - split; [by intros ?%elem_of_nil | by intros (_ & name & ?%elem_of_nil & _)].
  - rewrite elem_of_app, IH, GetHeaders_in. setoid_rewrite elem_of_cons. naive_solver.
Qed.







(** The INVITE to the callee: it is built exactly if the registered
    contact parses; it goes to the registered device, over its transport, with
    the new offer, and its From keeps the caller's identity and parameters except
    for the tag, which is the new one, so the callee's dialog does not carry the
    caller's tag. *)
Theorem outbound_invite tag inbound binding offer :
  match createOutbound tag inbound binding offer with
  | Err _ => is_Ok (ParseUri (b_Contact binding)) = false
  | Ok r =>
      ParseUri (b_Contact binding) = Ok (rq_Recipient r) /\ rq_Method r = "INVITE"%string /\
      rq_Transport r = b_Transport binding /\ rq_Destination r = b_RouteTarget binding /\ rq_Body r = offer /\
      exists from, rq_From r = Some from /\ fh_Address from = fh_Address inbound /\
        param_get (fh_Params from) "tag" = Some tag /\
        forall k, k <> "tag"%string -> param_get (fh_Params from) k = param_get (fh_Params inbound) k
  end.
Proof.
  unfold createOutbound. destruct (ParseUri (b_Contact binding)) as [u|e] eqn:E; cbn; [|done].
  split_and!; try done. eexists. split; [done|]. cbn. split; [done|]. split.
  - by rewrite param_get_add.
  - intros k Hk. rewrite param_get_add, param_get_remove. by destruct (String.eqb_spec "tag" k); [subst|].
Qed.

(** A relayed response always answers the request: with the other leg's status
    and the headers to be passed on, or with 408 when the other leg gave none. *)
Lemma relayed_response command res :
  let r := respondRelayed command res in
  match res with
  | Ok (Some response) =>
      rs_StatusCode r = rs_StatusCode response /\ rs_Body r = rs_Body response /\
      forall h, h ∈ rs_Headers r -> h ∈ response_headers (rq_Headers command) \/
        h ∈ rs_Headers response /\ exists name, name ∈ relayed_response_headers /\ header_is name h = true
  | _ => rs_StatusCode r = 408
  end.
Proof.
  destruct res as [[response|]|e]; cbn; try done. split_and!; try done.
  intros h [Hh|Hh]%elem_of_app; [by left | right; by apply copied_in].
Qed.

(** An ACK ends at most the pending re-INVITE of the session its dialog belongs
    to, and only with that re-INVITE's CSeq. *)
Lemma ack_ends_own_reinvite readAck id cseq e pending s tx p :
  handleAck readAck id cseq e pending = Some (s, Some tx, p) ->
  readAck = None /\ Admission.findInboundSession id e = Some s /\
  ReInvite.pendingReInvite (pending s) = Some tx /\ ReInvite.pendingCSeq (pending s) = cseq /\
  ReInvite.pendingReInvite p = None.
Proof.
  unfold handleAck, ReInvite.completePendingReInviteCSeq. destruct readAck; [done|].
  destruct (Admission.findInboundSession id e) as [s1|]; [|done].
  destruct (ReInvite.pendingReInvite (pending s1)) eqn:E; [|done].
  destruct (Z.eqb_spec (ReInvite.pendingCSeq (pending s1)) cseq) as [Hc|]; [|done]. by intros [= <- <- <-].
Qed.

End Messages.

(** ** A sample library *)

Definition sample_sip : SipLib :=
  {| Uri := string; Params := gmap string string; ParseUri := Ok;
     header_is n h := EqualFold n (h_Name h);
     param_get p k := p !! k; param_add k v p := <[k := v]> p; param_remove k p := delete k p;
     response_headers _ := [] |}.

#[export] Instance sample_sip_laws : @SipLaws sample_sip.
Proof.
  split; cbn.
  - intros k v p k'. destruct (String.eqb_spec k k') as [->|]; [apply lookup_insert_eq | by apply lookup_insert_ne].
  - intros k p k'. destruct (String.eqb_spec k k') as [->|]; [apply lookup_delete_eq | by apply lookup_delete_ne].
  - unfold EqualFold. intros n m h Hnh%String.eqb_eq Hmh%String.eqb_eq. apply String.eqb_eq. congruence.
Qed.




Definition sample_binding : Binding :=
  {| b_ID := "r1"; b_TenantID := "t1"; b_AoR := "sip:bob@example.com"; b_Contact := "sip:bob@192.0.2.2";
     b_RouteTarget := "192.0.2.2:5060"; b_Transport := "udp"; b_Received := b_Received zeroBinding;
     b_UserAgent := ""; b_Q := b_Q zeroBinding; b_ExpiresAt := 100; b_UpdatedAt := 0 |}.

Lemma outbound_invite_witness : exists r,
  @createOutbound sample_sip "new" (@mkFrom sample_sip "sip:alice@example.com" {[ "tag" := "old" ]}) sample_binding [1; 2] = Ok r /\
  rq_Destination r = "192.0.2.2:5060"%string.
Proof.
  pose proof (@outbound_invite sample_sip sample_sip_laws "new" (@mkFrom sample_sip "sip:alice@example.com"%string {[ "tag" := "old" ]})
                sample_binding [1; 2]) as Hout.
  eexists. split; [reflexivity|]. exact (proj1 (proj2 (proj2 (proj2 Hout)))).
Defined.
