(* ===== verification/EndToEnd.v ===== *)
(** * From REGISTER to a call

    Composes the REGISTER handler ([Registrar]), the registration policy
    ([Registration]), the admission of INVITEs ([B2buaHandlers]) and the outbound
    INVITE ([SipMessages]): a phone that has registered can make calls, and calls
    for it go to where it registered from.  What this needs of a store is the
    class [BindingStore], weaker than [StoreLaws]: times may be kept with less
    precision than the clock has, a store may keep only bindings that fit, and work on
    other bindings leaves a binding alone.  The in-memory store and, with a binary
    collation, the MySQL store are instances. *)

From Stdlib Require Import Floats.SpecFloat.
From S2P Require Import Prelude GoStrings Netip Registration MemoryStore RegistrationTheory Auth B2buaEngine.
From S2P Require MysqlStore Registrar B2buaHandlers SipMessages.
Import Registrar (RegisterRequest, HandlerConfig, TxEnv, ContactHeader).

(** ** What a call needs of the store *)

(** [b'] is [b] as a store with times of precision [slack] returns it. *)
Record kept_within (slack : Duration) (b b' : Binding) : Prop := {
  kw_key : key_of b' = key_of b;
  kw_route : b_RouteTarget b' = b_RouteTarget b;
  kw_transport : b_Transport b' = b_Transport b;
  kw_expires : Z.abs (b_ExpiresAt b' - b_ExpiresAt b) <= slack;
}.

Class BindingStore (S : Type) `{Store S} := {
  sound : S -> Prop;                           (* what the operations keep of the state *)
  stored : S -> gmap bindingKey Binding;
  fits : S -> string -> AddrPort -> Prop;      (* identifier and address of a new binding *)
  slack : Duration;
  stored_upsert ctx b n s s' : sound s -> fits s (b_ID b) (b_Received b) -> Upsert ctx b n s = (None, s') ->
    sound s' /\ exists b', kept_within slack b b' /\ stored s' = <[key_of b := b']> (stored s);
  stored_list ctx t a now s l : sound s -> ListActive ctx t a now s = Ok l ->
    exists now', Z.abs (now' - now) <= slack /\ l ≡ₚ (map_to_list (active t a now' (stored s))).*2;
  (** whatever an operation reports, it leaves the other bindings alone *)
  upsert_frame ctx b n s r s' : sound s -> fits s (b_ID b) (b_Received b) -> Upsert ctx b n s = (r, s') ->
    sound s' /\ forall k, k <> key_of b -> stored s' !! k = stored s !! k;
  delete_frame ctx t a c s r s' : sound s -> Delete ctx t a c s = (r, s') ->
    sound s' /\ forall k, k <> (t, a, c) -> stored s' !! k = stored s !! k;
  deleteAll_frame ctx t a s r s' : sound s -> DeleteAll ctx t a s = (r, s') ->
    sound s' /\ forall k, k.1 <> (t, a) -> stored s' !! k = stored s !! k;
  deleteExpired_frame ctx now s r s' : sound s -> DeleteExpired ctx now s = (r, s') ->
    sound s' /\ forall k b, stored s !! k = Some b -> now + slack < b_ExpiresAt b -> stored s' !! k = Some b;
}.

Lemma other_belongs (t : TenantID) (a : AoR) (m : gmap bindingKey Binding) (k : bindingKey) : k.1 <> (t, a) -> filter (fun kb => ~ belongs t a kb) m !! k = m !! k.
Proof.
  intros Hk. destruct (m !! k) as [b|] eqn:E.
  - apply map_lookup_filter_Some. split; [done|]. unfold belongs. done.
  - apply map_lookup_filter_None. by left.
Qed.

(** A store that keeps the laws keeps every binding exactly. *)
#[export] Instance exact_store {S} `{StoreLaws S} : BindingStore S.
Proof.
  refine {| sound := fun _ => True; stored := view; fits := fun _ _ _ => True; slack := 0 |}.
  - intros ctx b n s s' _ _ [Hv _]%upsert_ok. split; [done|]. exists b. split; [|done]. split; [done..|]. lia.
  - intros ctx t a now s l _ Hl%listActive_ok. exists now. split; [lia | done].
  - intros ctx b n s [e|] s' _ _ Hr; (split; [done|]); intros k Hk; [by rewrite (upsert_err _ _ _ _ _ _ Hr)|].
    apply upsert_ok in Hr as [-> _]. by apply lookup_insert_ne, not_eq_sym.
  - intros ctx t a c s [e|] s' _ Hr; (split; [done|]); intros k Hk; [by rewrite (delete_err _ _ _ _ _ _ _ Hr)|].
    apply delete_ok in Hr as ->. by apply lookup_delete_ne, not_eq_sym.
  - intros ctx t a s [e|] s' _ Hr; (split; [done|]); intros k Hk; [by rewrite (deleteAll_err _ _ _ _ _ _ Hr)|].
    apply deleteAll_ok in Hr as ->. apply other_belongs; done.
  - intros ctx now s [n|e] s' _ Hr; (split; [done|]); intros k b Hk He; [|by rewrite (deleteExpired_err _ _ _ _ _ Hr)].
    apply deleteExpired_ok in Hr as [-> _]. apply map_lookup_filter_Some. split; [done|]. unfold live. cbn. lia.
Defined.

Section EndToEnd.
Context {S : Type} `{BindingStore S} `{Crypto} `{DigestLib} `{CredentialStore}.
Variable ParseFloat32 : string -> option float32.
Variable ParseUri : string -> option string.

(** The binding a successful [Apply] hands to the store is the one requested. *)
Lemma apply_upserts id ctx now req (s : S) b s' :
  0 < r_Expires req -> Apply id ctx now req s = (Ok b, s') ->
  Upsert ctx b (r_MaxBindings req) s = (None, s') /\ key_of b = (r_TenantID req, r_AoR req, r_Contact req) /\
  b_RouteTarget b = r_RouteTarget req /\ b_Transport b = r_Transport req /\ b_ExpiresAt b = now + r_Expires req /\
  id = Ok (b_ID b) /\ b_Received b = r_Received req.
Proof.
  intros Hpos Ha. destruct (apply_register_ok _ _ _ _ _ _ _ Hpos Ha) as (Hup & _ & Hkey & Hexp & _).
  split_and!; auto;
    (unfold Apply in Ha; destruct (_ <? 0); [done|]; destruct (Z.eqb_spec (r_Expires req) 0); [lia|];
     destruct (_ <=? 0); [done|]; destruct (negb _); [done|]; destruct id; [|done]; destruct (Validate _ _); [|done];
     destruct (Upsert _ _ _ _) as [[e|] s2]; by simplify_eq).
Qed.

(** The address of record of a user, as both the registrar and the engine write it. *)
Definition aor_of (user realm : string) : AoR := ("sip:" +:+ user +:+ "@" +:+ realm)%string.

(** Where a phone was registered from. *)
Record registered_at (credential : Credential) (contact : ContactHeader) (route : string) (transport : Transport)
    (expires : Time) (b : Binding) : Prop := {
  ra_key : key_of b = (c_TenantID credential, aor_of (c_Username credential) (c_Realm credential), Registrar.ct_Addr contact);
  ra_route : b_RouteTarget b = route;
  ra_transport : b_Transport b = transport;
  ra_expires : Z.abs (b_ExpiresAt b - expires) <= slack;
}.

(** Every other way through the handler sends another status. *)
Ltac other_reply Hh := unfold Registrar.respond in Hh; cbn in Hh; repeat (case_match; cbn in Hh; try discriminate Hh); simplify_eq; done.

(** A REGISTER of one contact with valid credentials, received from [received],
    was answered with 200 and granted the time [d]. *)
Record register_accepted (cfg : HandlerConfig) (authCfg : Config) (env : TxEnv) (req : RegisterRequest) (replay : Replay) (s s' : S)
    (credential : Credential) (contact : ContactHeader) (d : Duration) (received : AddrPort) (transport : Transport) : Prop := {
  rg_contact : Registrar.rq_Contacts req = [Some contact];
  rg_plain : Registrar.ct_Wildcard contact = false;
  rg_expires : Registrar.contactExpires cfg (Registrar.rq_Expires req) contact = Ok d;
  rg_granted : 0 < d;
  rg_verified : exists replay1,
    Verify authCfg (Registrar.tx_ctx env) (Registrar.tx_now env) (Registrar.tx_later env) (Registrar.rq_Method req)
      (Registrar.rq_Recipient req) (match Registrar.rq_Authorization req with Some v => v | None => ""%string end) replay
    = (Ok credential, replay1);
  rg_source : ParseAddrPort (Registrar.rq_Source req) = Ok received;
  rg_transport : Registrar.parseTransport (Registrar.rq_Transport req) = Ok transport;
  rg_answer : exists r replay',
    Registrar.Handle ParseFloat32 ParseUri cfg authCfg env req (replay, s) = ([r], (replay', s')) /\ Registrar.rs_Status r = 200;
}.

(** Then the contact is stored. *)
Lemma register_stores cfg authCfg env req replay s s' credential contact d received transport :
  register_accepted cfg authCfg env req replay s s' credential contact d received transport ->
  sound s -> (forall id, Registrar.tx_applyIDs env 0 = Ok id -> fits s id received) ->
  sound s' /\ exists b, stored s' = <[key_of b := b]> (stored s) /\
    registered_at credential contact (AddrPort_String received) transport (Registrar.tx_applyNow env 0 + d) b.
Proof.
  intros [Hc Hw He Hd [replay1 Hv] Hs Ht (r & replay' & Hh & Hr)] Hsound Hfits.
  unfold Registrar.Handle, Registrar.handle in Hh. rewrite Hc, Hv, Hs, Ht in Hh.
  cbn [Registrar.apply_contacts] in Hh. rewrite He, Hw in Hh.
  destruct (match Registrar.rq_To req with Some _ => _ | None => true end).
  { other_reply Hh. }
  destruct (negb _) in Hh; [other_reply Hh|].
  destruct (Registrar.parseQ ParseFloat32 contact) as [q|] eqn:Hq in Hh; [|other_reply Hh].
  destruct (Apply _ _ _ _ s) as [[b|e] s1] eqn:Ha in Hh.
  - apply apply_upserts in Ha as (Hup & Hkey & Hroute & Htr & Hexp & Hid & Hrec); [|done]. cbn in Hkey, Hroute, Htr, Hexp, Hrec.
    assert (s' = s1) as -> by (destruct (Registrar.respondBindings _ _ _ _ _) as [[err|] att]; [destruct (errors_Is _ _)|]; by simplify_eq).
    apply stored_upsert in Hup as (Hsound' & b' & [Kk Kr Kt Ke] & Hst); [|done | rewrite Hrec; by apply Hfits].
    split; [done|]. exists b'. rewrite Kk. split; [done|]. rewrite Hexp in Ke.
    split; [by etrans | congruence | congruence | done].
  - other_reply Hh.
Qed.

(** A binding is listed when it is stored and in force at about the time asked for. *)
Lemma stored_elem ctx now t a (s : S) l : sound s -> List ctx now t a s = Ok l ->
  exists now', Z.abs (now' - now) <= slack /\
    forall b, b ∈ l <-> exists k, stored s !! k = Some b /\ k.1 = (t, a) /\ now' < b_ExpiresAt b.
Proof.
  intros Hs. unfold List. destruct (ListActive _ _ _ _ _) as [l'|] eqn:E; [|done]. intros [= <-].
  apply stored_list in E as (now' & Hn & E); [|done]. exists now'. split; [done|]. intros b.
  rewrite E, list_elem_of_fmap. setoid_rewrite <- active_lookup. split.
  - intros ([k b'] & -> & Hin%elem_of_map_to_list). eauto.
  - intros (k & Hk). exists (k, b). split; [done|]. by apply elem_of_map_to_list.
Qed.

(** Listing the bindings of the phone's address of record finds the binding. *)
Lemma registered_listed credential contact route transport expires b (s : S) ctx now l :
  sound s -> stored s !! key_of b = Some b -> registered_at credential contact route transport expires b ->
  now + 2 * slack < expires ->
  List ctx now (c_TenantID credential) (aor_of (c_Username credential) (c_Realm credential)) s = Ok l ->
  b ∈ l /\ forall b', b' ∈ l -> b' = b \/ exists c, stored s !! (c_TenantID credential, aor_of (c_Username credential) (c_Realm credential), c) = Some b' /\
    c <> Registrar.ct_Addr contact /\ now < b_ExpiresAt b' + slack.
Proof.
  intros Hs Hb [Hk _ _ He] Hlt Hl. destruct (stored_elem _ _ _ _ _ _ Hs Hl) as (now' & Hn & Hin). split.
  - apply Hin. exists (key_of b). split_and!; [done | by rewrite Hk | lia].
  - intros b' ([ta c] & Hk' & Hka & Hexp)%Hin. cbn in Hka. subst ta. rewrite Hk in Hb.
    destruct (decide (c = Registrar.ct_Addr contact)) as [->|Hne]; [left; apply (inj Some); etrans; [symmetry; exact Hk' | exact Hb] | right].
    exists c. split_and!; [done | done | lia].
Qed.

Lemma source_found source transport l b : b ∈ l -> b_RouteTarget b = source -> b_Transport b = ToLower transport ->
  B2buaHandlers.source_matches source transport l = true.
Proof.
  intros Hin Hr Ht. induction l as [|a l IH]; [by apply elem_of_nil in Hin|]. cbn.
  apply elem_of_cons in Hin as [<-|Hin]; [by rewrite Hr, Ht, !String.eqb_refl|].
  rewrite (IH Hin). by destruct (_ && _).
Qed.

(** What may happen to the store between a REGISTER and a call: bindings of other keys
    are stored and deleted, and the clean-up runs, before the time [until]; any of these
    may fail in any way. *)
Inductive other_work (k : bindingKey) (until : Time) (s s' : S) : Prop :=
| work_upsert ctx b n r : key_of b <> k -> fits s (b_ID b) (b_Received b) -> Upsert ctx b n s = (r, s') -> other_work k until s s'
| work_delete ctx t a c r : (t, a, c) <> k -> Delete ctx t a c s = (r, s') -> other_work k until s s'
| work_deleteAll ctx t a r : (t, a) <> k.1 -> DeleteAll ctx t a s = (r, s') -> other_work k until s s'
| work_expire ctx now r : now < until -> DeleteExpired ctx now s = (r, s') -> other_work k until s s'.

Lemma other_work_keeps k until b s s' : rtc (other_work k until) s s' -> sound s -> stored s !! k = Some b ->
  until + slack <= b_ExpiresAt b -> sound s' /\ stored s' !! k = Some b.
Proof.
  intros Hr. induction Hr as [s|s1 s2 s3 Hw _ IH]; intros Hs Hk He; [done|].
  assert (sound s2 /\ stored s2 !! k = Some b) as [Hs2 Hk2]; [|by apply IH].
  destruct Hw as [ctx b' n r Hne Hf Hu|ctx t a c r Hne Hd|ctx t a r Hne Hd|ctx now r Hn Hd].
  - destruct (upsert_frame _ _ _ _ _ _ Hs Hf Hu) as [? Hfr]. split; [done|]. by rewrite Hfr by by apply not_eq_sym.
  - destruct (delete_frame _ _ _ _ _ _ _ Hs Hd) as [? Hfr]. split; [done|]. by rewrite Hfr by by apply not_eq_sym.
  - destruct (deleteAll_frame _ _ _ _ _ _ Hs Hd) as [? Hfr]. split; [done|]. by rewrite Hfr by by apply not_eq_sym.
  - destruct (deleteExpired_frame _ _ _ _ _ Hs Hd) as [? Hfr]. split; [done|]. apply Hfr; [done | lia].
Qed.

(** [Resolve] returns one of the bindings, if there is one. *)
Lemma resolve_member sort ctx now t a (s : S) l b : SortFunc_spec sort -> List ctx now t a s = Ok l -> b ∈ l ->
  exists b', Resolve sort ctx now t a s = Ok b' /\ b' ∈ l.
Proof.
  intros Hsort Hl Hin. unfold Resolve. rewrite Hl. cbn. destruct l as [|b0 l]; [by apply elem_of_nil in Hin|].
  destruct (Hsort preferred (b0 :: l)) as [Hperm _]. eexists. split; [done|]. rewrite <- Hperm at 2.
  destruct (sort preferred (b0 :: l)); [by apply Permutation_nil_cons in Hperm | apply list_elem_of_here].
Qed.

(** Claim C5. A phone that has registered can call and be called.  When a REGISTER of
    one contact, with valid credentials, has been answered with 200, and since then
    nothing was done with this contact's binding, though any number of other bindings may
    have been stored and deleted and clean-ups have run, with or without errors, then
    until the granted time is over (up to twice the precision of the store's times), if registrar and B2BUA serve the
    same tenant and realm: an
    INVITE of that user from the registered address and transport passes the registration
    check of the B2BUA (unless listing the bindings fails); and a call to that user is
    sent to the address the REGISTER came from, over its transport and to its contact,
    when no other contact of the user is then registered, and to one of the user's
    registered contacts otherwise.  This holds for every [BindingStore]: the in-memory
    store, and the MySQL store if the collation of its tables is binary and the
    identifiers generated are new ([mysql_binding_store]; the schema names no collation,
    see [folding_delete_removes_both] for one that is not). *)
Theorem registered_phone_reachable `{SipMessages.SipLib} cfg authCfg env req replay s s' s'' credential contact d received transport ecfg sort :
  register_accepted cfg authCfg env req replay s s' credential contact d received transport ->
  sound s -> (forall id, Registrar.tx_applyIDs env 0 = Ok id -> fits s id received) ->
  B2buaHandlers.ec_TenantID ecfg = c_TenantID credential -> B2buaHandlers.ec_Realm ecfg = c_Realm credential ->
  SortFunc_spec sort ->
  let aor := aor_of (c_Username credential) (B2buaHandlers.ec_Realm ecfg) in
  let until := Registrar.tx_applyNow env 0 + d - 2 * slack in
  rtc (other_work (c_TenantID credential, aor, Registrar.ct_Addr contact) until) s' s'' ->
  (forall ienv tr l, ToLower tr = transport -> B2buaHandlers.ie_listNow ienv < until ->
     List (B2buaHandlers.ie_ctx ienv) (B2buaHandlers.ie_listNow ienv) (B2buaHandlers.ec_TenantID ecfg) aor s'' = Ok l ->
     B2buaHandlers.sourceIsRegistered ecfg ienv aor (AddrPort_String received) tr s'' = Ok true) /\
  (forall ctx now l tag from offer, now < until ->
     List ctx now (B2buaHandlers.ec_TenantID ecfg) aor s'' = Ok l ->
     exists b, Resolve sort ctx now (B2buaHandlers.ec_TenantID ecfg) aor s'' = Ok b /\ b ∈ l /\
       ((forall c b', stored s'' !! (c_TenantID credential, aor, c) = Some b' -> c <> Registrar.ct_Addr contact ->
           b_ExpiresAt b' + slack <= now) ->
          forall invite, SipMessages.createOutbound tag from b offer = Ok invite ->
          SipMessages.rq_Destination invite = AddrPort_String received /\ SipMessages.rq_Transport invite = transport /\
          SipMessages.ParseUri (Registrar.ct_Addr contact) = Ok (SipMessages.rq_Recipient invite))).
Proof.
  intros Hreq Hsound Hfits Htn Hrl Hsort aor until. unfold aor, until. rewrite Htn, Hrl. clear aor until. intros Hwork.
  destruct (register_stores _ _ _ _ _ _ _ _ _ _ _ _ Hreq Hsound Hfits) as (Hsound' & b & Hst & Hreg).
  assert (sound s'' /\ stored s'' !! key_of b = Some b) as [Hsound'' Hb].
  { rewrite <- (ra_key _ _ _ _ _ _ Hreg) in Hwork. eapply other_work_keeps; [exact Hwork | done | by rewrite Hst, lookup_insert_eq |].
    pose proof (ra_expires _ _ _ _ _ _ Hreg). lia. }
  split.
  - intros ienv tr l Htr Hnow Hl.
    assert (Hlt : B2buaHandlers.ie_listNow ienv + 2 * slack < Registrar.tx_applyNow env 0 + d) by lia.
    destruct (registered_listed _ _ _ _ _ _ _ _ _ _ Hsound'' Hb Hreg Hlt Hl) as [Hin _].
    unfold B2buaHandlers.sourceIsRegistered. rewrite Htn, Hl. cbn. f_equal. destruct Hreg.
    eapply source_found; [exact Hin | done | congruence].
  - intros ctx now l tag from offer Hnow Hl.
    assert (Hlt : now + 2 * slack < Registrar.tx_applyNow env 0 + d) by lia.
    destruct (registered_listed _ _ _ _ _ _ _ _ _ _ Hsound'' Hb Hreg Hlt Hl) as [Hin Hall].
    destruct (resolve_member _ _ _ _ _ _ _ _ Hsort Hl Hin) as (b1 & Hres & Hb1).
    exists b1. split; [done|]. split; [done|]. intros Hno invite Hinv.
    assert (b1 = b) as ->.
    { destruct (Hall _ Hb1) as [?|(c & Hc & Hne & Hexp)]; [done|]. pose proof (Hno c _ Hc Hne). lia. }
    destruct Hreg as [Hkey Hroute Htrans _]. unfold SipMessages.createOutbound in Hinv.
    assert (Hcont : b_Contact b = Registrar.ct_Addr contact) by (unfold key_of in Hkey; congruence).
    rewrite Hcont in Hinv. destruct (SipMessages.ParseUri (Registrar.ct_Addr contact)) as [u|] eqn:Hu; [|done].
    cbn in Hinv. injection Hinv as <-. done.
Qed.

End EndToEnd.

(** ** The MySQL store *)

Import MysqlStore (SqlServer, SqlLaws, DB, registrations, Outcome, UpsertEnv, ListEnv).

(** How far the server and the driver move a time. *)
Class SqlPrecision `{SqlServer} := {
  precision : Duration;
  stored_near t : Z.abs (MysqlStore.stored_time t - t) <= precision;
  bound_near t : Z.abs (MysqlStore.bound_time t - t) <= precision;
}.

(** What the statements report, for every call of the store. *)
Record Faults := mkFaults {
  f_upsert : Context -> Binding -> DB -> UpsertEnv;
  f_exec : Context -> DB -> Outcome;
  f_list : Context -> DB -> ListEnv;
  f_rows : Context -> DB -> option error;
}.

Section Mysql.
Context `{SqlServer}.

Definition mysql_store (f : Faults) : Store DB :=
  {| Upsert ctx b n db := MysqlStore.mysql_Upsert (f_upsert f ctx b db) b n db;
     Delete ctx t a c db := MysqlStore.mysql_Delete (f_exec f ctx db) t a c db;
     DeleteAll ctx t a db := MysqlStore.mysql_DeleteAll (f_exec f ctx db) t a db;
     ListActive ctx t a now db := MysqlStore.mysql_ListActive (f_list f ctx db) t a now db;
     DeleteExpired ctx now db := MysqlStore.mysql_DeleteExpired (f_exec f ctx db) (f_rows f ctx db) now db |}.

Context `{!SqlLaws} `{!Inj (=) (=) MysqlStore.collate} `{!SqlPrecision}.

(** The columns keep a binding up to the precision of its times, if its address
    can be read back. *)
Lemma row_kept b address : ParseAddr (Addr_String (ap_Addr (b_Received b))) = Ok address ->
  exists b', MysqlStore.binding_of (MysqlStore.row_of b) = Ok b' /\ kept_within precision b b'.
Proof.
  intros Ha. unfold MysqlStore.binding_of. cbn. rewrite Ha. eexists. split; [done|]. split; [done..|]. apply stored_near.
Qed.

Lemma exec_outcome out msg db db1 r db' : MysqlStore.exec out msg db db1 = (r, db') -> db' = db \/ db' = db1.
Proof. destruct out; cbn; intros [= _ <-]; auto. Qed.

(** Whatever the statements report, the store keeps its contract: an identifier
    is new, and the address of the binding can be read back. *)
#[export] Instance mysql_binding_store f : @BindingStore DB (mysql_store f).
Proof.
  refine {| sound db := MysqlStore.table_ok (registrations db);
            stored db := MysqlStore.table_view (registrations db);
            fits db id received := id ∉ MysqlStore.rr_registration_id <$> registrations db /\
              exists address, ParseAddr (Addr_String (ap_Addr received)) = Ok address;
            slack := precision |}.
  - intros ctx b n db db' Hok [Hid [address Ha]] Hup.
    destruct (row_kept b address Ha) as (b' & Hb & Hk).
    apply MysqlStore.upsert_outcome in Hup as [[? _]|(ex & -> & _)]; [done|]. cbn.
    split; [by apply MysqlStore.upsert_table_ok|]. exists b'. split; [done|]. by apply MysqlStore.upsert_view.
  - intros ctx t a now db l Hok Hl. exists (MysqlStore.bound_time now). split; [apply bound_near|].
    eapply MysqlStore.list_view; [exact Hok | exact Hl].
  - intros ctx b n db r db' Hok [Hid [address Ha]] Hup. destruct (row_kept b address Ha) as (b' & Hb & _).
    apply MysqlStore.upsert_outcome in Hup as [[_ ->]|(ex & -> & _)]; [done|]. cbn.
    split; [by apply MysqlStore.upsert_table_ok|]. intros k Hk. etrans; [apply (f_equal (lookup k)), (MysqlStore.upsert_view b b'); done|].
    by apply lookup_insert_ne, not_eq_sym.
  - intros ctx t a c db r db' Hok Hd. apply exec_outcome in Hd as [-> | ->]; [done|]. cbn.
    split; [by apply MysqlStore.filter_table_ok|]. intros k Hk. etrans; [apply (f_equal (lookup k)), MysqlStore.delete_view; done|].
    by apply lookup_delete_ne, not_eq_sym.
  - intros ctx t a db r db' Hok Hd. apply exec_outcome in Hd as [-> | ->]; [done|]. cbn.
    split; [by apply MysqlStore.filter_table_ok|]. intros k Hk. etrans; [apply (f_equal (lookup k)), MysqlStore.deleteAll_view; done|]. by apply other_belongs.
  - intros ctx now db r db' Hok Hd.
    assert (Hdb : db' = db \/ db' = MysqlStore.delete_rows (fun r => MysqlStore.rr_expires_at r <=? MysqlStore.bound_time now) db).
    { cbn in Hd. unfold MysqlStore.mysql_DeleteExpired in Hd. destruct (MysqlStore.exec _ _ _ _) as [[e|] db1] eqn:Ex;
        apply exec_outcome in Ex; simplify_eq; naive_solver. }
    destruct Hdb as [-> | ->]; [done|]. cbn. split; [by apply MysqlStore.filter_table_ok|]. intros k b Hk He.
    etrans; [apply (f_equal (lookup k)), MysqlStore.deleteExpired_view; done|]. apply map_lookup_filter_Some. split; [done|]. unfold live. cbn.
    pose proof (bound_near now). lia.
Defined.

End Mysql.

(** ** Alice registers and is called *)

(** A server that keeps microseconds, as DATETIME(6) does. *)
Definition microsecond_server : SqlServer :=
  {| MysqlStore.collate s := s; MysqlStore.stored_time t := t / Microsecond * Microsecond;
     MysqlStore.bound_time t := t / Microsecond * Microsecond; MysqlStore.stored_q q := q;
     MysqlStore.SHA256 s := [Zpos (encode s)]; MysqlStore.scan rows := rows |}.

#[local] Instance microsecond_laws : @SqlLaws microsecond_server.
Proof. split; [intros a b [= E]; by apply (inj encode) | done]. Defined.
#[local] Instance microsecond_collation : Inj (=) (=) (@MysqlStore.collate microsecond_server).
Proof. by intros a b. Defined.
#[local] Instance microsecond_precision : @SqlPrecision microsecond_server.
Proof.
  assert (Hn : forall t, Z.abs (t / Microsecond * Microsecond - t) <= Microsecond) 
    by (intros t; pose proof (Z.div_mod t Microsecond); pose proof (Z.mod_pos_bound t Microsecond); unfold Microsecond in *; lia).
  by refine {| precision := Microsecond |}.
Defined.

Definition no_faults : Faults :=
  mkFaults (fun _ _ _ => MysqlStore.upsert_done) (fun _ _ => MysqlStore.Done)
    (fun _ _ => MysqlStore.mkListEnv None (fun _ => None) None) (fun _ _ => None).
#[local] Instance sample_mysql : Store DB := @mysql_store microsecond_server no_faults.
#[local] Instance sample_contract : BindingStore DB := @mysql_binding_store microsecond_server _ _ _ no_faults.
#[local] Existing Instances toy_crypto toy_digest toy_store SipMessages.sample_sip.

Definition alice_contact : ContactHeader := Registrar.mkContact "sip:alice@10.0.0.1" false [].
Definition empty_db : DB := MysqlStore.mkDB [] [] ∅ [] [].

(** What the handler returns for Alice's REGISTER. *)
Definition alice_registered :=
  Registrar.Handle Registrar.parse_nan Some Registrar.sample_handler (toy_config 4) Registrar.sample_tx
    (Registrar.sample_register [Some alice_contact]) (∅, empty_db).

Definition sample_engine : B2buaHandlers.EngineConfig := B2buaHandlers.mkEngineConfig "t" "pbx" "node" 8 8 Second Second.
Definition sample_invite : B2buaHandlers.InviteEnv :=
  B2buaHandlers.mkInviteEnv None (2 * Second) (Err (Sentinel "none")) (2 * Second) (fun _ => Err (Sentinel "none")).
Definition alice_address : AddrPort := AddrPortFrom (Addr4 167772161) 5060.

(** Alice's REGISTER is accepted. *)
Lemma alice_accepted : register_accepted Registrar.parse_nan Some Registrar.sample_handler (toy_config 4) Registrar.sample_tx
  (Registrar.sample_register [Some alice_contact]) ∅ empty_db alice_registered.2.2 toy_user alice_contact (3600 * Second)
  alice_address "udp".
Proof.
  assert (Hstatus : Registrar.rs_Status <$> alice_registered.1 = [200]) by (vm_compute; reflexivity).
  assert (Hv : (@Verify toy_crypto toy_digest toy_store (toy_config 4) None Second Second "REGISTER" "sip:pbx" "a1" ∅).1 = Ok toy_user)
    by (vm_compute; reflexivity).
  split; [vm_compute; reflexivity.. | | vm_compute; reflexivity | vm_compute; reflexivity |].
  - exists (@Verify toy_crypto toy_digest toy_store (toy_config 4) None Second Second "REGISTER" "sip:pbx" "a1" ∅).2.
    rewrite <- Hv. apply surjective_pairing.
  - fold alice_registered. destruct alice_registered as [[|r []] [replay' s']]; try discriminate Hstatus.
    injection Hstatus as Hr. by exists r, replay'.
Qed.

(** Then Bob registers, Carol's bindings are deleted, and the clean-up runs. *)
Definition bob_binding : Binding :=
  {| b_ID := "bob"; b_TenantID := "t"; b_AoR := "sip:bob@pbx"; b_Contact := "sip:bob@10.0.0.2"; b_RouteTarget := "10.0.0.2:5060";
     b_Transport := "udp"; b_Received := AddrPortFrom (Addr4 167772162) 5060; b_UserAgent := ""; b_Q := b_Q zeroBinding;
     b_ExpiresAt := 100 * Second; b_UpdatedAt := Second |}.
Definition bob_stored : DB := (Upsert None bob_binding 3 alice_registered.2.2).2.
Definition carol_deleted : DB := (DeleteAll None "t" "sip:carol@pbx" bob_stored).2.
Definition cleaned_up : DB := (DeleteExpired None (2 * Second) carol_deleted).2.

Lemma cleaned_up_later :
  rtc (other_work ("t", "sip:alice@pbx", "sip:alice@10.0.0.1")%string (Second + 3600 * Second - 2 * Microsecond))
    alice_registered.2.2 cleaned_up.
Proof.
  eapply rtc_l; [|eapply rtc_l; [|eapply rtc_l; [|apply rtc_refl]]].
  - eapply (work_upsert _ _ _ bob_stored None bob_binding 3); [discriminate | | apply surjective_pairing].
    split; [|eexists; vm_compute; reflexivity]. apply (bool_decide_unpack _). vm_compute. exact I.
  - eapply (work_deleteAll _ _ _ carol_deleted None); [|apply surjective_pairing]. discriminate.
  - eapply (work_expire _ _ _ cleaned_up None (2 * Second)); [vm_compute; reflexivity | apply surjective_pairing].
Qed.

(** Alice has one contact. *)
Lemma alice_alone c b : stored cleaned_up !! ("t", "sip:alice@pbx", c)%string = Some b -> c = "sip:alice@10.0.0.1"%string.
Proof.
  intros Hk%elem_of_map_to_list%list_elem_of_In.
  assert (Hall : forallb (fun kb : bindingKey * Binding => negb (String.eqb kb.1.1.2 "sip:alice@pbx") || String.eqb kb.1.2 "sip:alice@10.0.0.1")
    (map_to_list (stored cleaned_up)) = true) by (vm_compute; reflexivity).
  rewrite forallb_forall in Hall. specialize (Hall _ Hk). cbn in Hall. by apply String.eqb_eq in Hall.
Qed.

Lemma registered_phone_reachable_witness :
  B2buaHandlers.sourceIsRegistered sample_engine sample_invite "sip:alice@pbx" "10.0.0.1:5060" "UDP" cleaned_up = Ok true /\
  exists b invite, Resolve insertionSort None (2 * Second) "t" "sip:alice@pbx" cleaned_up = Ok b /\
    SipMessages.createOutbound "tag" (@SipMessages.mkFrom SipMessages.sample_sip "sip:carol@pbx"%string ∅) b [] = Ok invite /\
    SipMessages.rq_Destination invite = "10.0.0.1:5060"%string.
Proof.
  assert (Hlist : exists l, List None (2 * Second) "t" "sip:alice@pbx" cleaned_up = Ok l).
  { eexists. vm_compute. reflexivity. }
  destruct Hlist as [l Hl].
  destruct (registered_phone_reachable Registrar.parse_nan Some Registrar.sample_handler (toy_config 4) Registrar.sample_tx
    (Registrar.sample_register [Some alice_contact]) ∅ empty_db alice_registered.2.2 cleaned_up toy_user alice_contact (3600 * Second)
    alice_address "udp" sample_engine insertionSort alice_accepted) as [Hsource Hresolve].
  - split; constructor.
  - intros id _. split; [apply not_elem_of_nil|]. eexists. vm_compute. reflexivity.
  - reflexivity.
  - reflexivity.
  - exact (insertionSort_spec Binding).
  - exact cleaned_up_later.
  - split.
    + apply (Hsource sample_invite "UDP"%string l); [vm_compute; reflexivity.. | exact Hl].
    + destruct (Hresolve None (2 * Second) l "tag"%string (@SipMessages.mkFrom SipMessages.sample_sip "sip:carol@pbx"%string ∅) [])
        as (b & Hb & _ & Hinv); [vm_compute; reflexivity | exact Hl |].
      eexists b, _. split; [exact Hb|]. split; [reflexivity|]. apply Hinv; [|reflexivity].
      intros c b' Hk Hne. destruct (Hne (alice_alone c b' Hk)).
Defined.
