(* ===== verification/App.v ===== *)
(** * Configuration and construction of the application

    Models the configuration checks and [New] of [internal/app/app.go], which
    builds the components from one configuration, and
    [cmd/aixvolinkpbx/main.go], which reads the settings and runs the service.
    [App.Run] is in [Service.v]. *)

From S2P Require Import Prelude GoStrings Netip Registration B2buaEngine.
From S2P Require Call EventBus Auth Registrar PortAlloc MediaSession B2buaHandlers.

(** ** Configuration *)

Record Config := mkAppConfig {
  BindHost : string; SIPPort : Z; Realm : string; cfg_TenantID : TenantID; cfg_NodeID : string;
  NonceSecret : list Z; NonceTTL : Duration; MaxReplayEntries : Z;
  DefaultRegisterExpiry : Duration; MinRegisterExpiry : Duration; MaxRegisterExpiry : Duration;
  RegisterCleanup : Duration; TransactionTimeout : Duration; InviteTimeout : Duration; DispatchTimeout : Duration;
  MaxActiveCalls : Z; CallMailboxSize : Z; MediaBindIP : Addr; MediaAdvertisedIP : Addr;
  RTPStartPort : Z; RTPEndPort : Z; RTPReadPoll : Duration; MediaInactivity : Duration; RTCPInterval : Duration;
  MediaSummaryInterval : Duration; MediaSummaryTimeout : Duration;
}.

(** [net.ParseIP]: an address without a zone. *)
Definition ParseIP (s : string) : option Addr :=
  match ParseAddr s with
  | Ok (Addr6 bits zone) => if String.eqb zone "" then Some (Addr6 bits zone) else None
  | Ok a => Some a
  | Err _ => None
  end.

Definition validateConfig (cfg : Config) : result () :=
  _ ← guard_err (match ParseIP (BindHost cfg) with None => true | Some _ => false end) "bind host must be an IP address";
  _ ← guard_err ((SIPPort cfg <=? 0) || (65535 <? SIPPort cfg)) "SIP port must be between 1 and 65535";
  _ ← guard_err (String.eqb (Realm cfg) "" || String.eqb (cfg_TenantID cfg) "" || String.eqb (cfg_NodeID cfg) "")
        "realm, tenant ID, and node ID are required";
  _ ← guard_err (RegisterCleanup cfg <=? 0) "registration cleanup interval must be positive";
  guard_err (negb (Addr_IsValid (MediaBindIP cfg)) || negb (Addr_IsValid (MediaAdvertisedIP cfg)))
    "media bind and advertised IPs are required".

(** ** Construction *)

(** Which arguments of [New] are given, and what sipgo's constructors report. *)
Record NewEnv := mkNewEnv {
  has_credentials : bool; has_registrations : bool; has_publisher : bool; has_media_publisher : bool; has_logger : bool;
  newUA : option error; newServer : option error; newClient : option error;
}.

(** The user agent a call of [New] leaves behind. *)
Inductive UA := NotCreated | Closed | Opened.

Record App := mkApp {
  app_cfg : Config; app_replay : Auth.Replay; app_pool : PortAlloc.Pool; app_calls : Admission.Engine;
}.

Definition auth_config (cfg : Config) : Auth.Config :=
  Auth.mkAuthConfig (Realm cfg) (NonceSecret cfg) (NonceTTL cfg) (MaxReplayEntries cfg).
Definition registrar_config (cfg : Config) : Registrar.HandlerConfig :=
  Registrar.mkHandlerConfig (Realm cfg) (DefaultRegisterExpiry cfg) (MinRegisterExpiry cfg) (MaxRegisterExpiry cfg)
    (TransactionTimeout cfg).
Definition pool_config (cfg : Config) : PortAlloc.Config :=
  PortAlloc.mkConfig (MediaBindIP cfg) (RTPStartPort cfg) (RTPEndPort cfg).
Definition media_config (cfg : Config) : MediaSession.SessionConfig :=
  MediaSession.mkSessionConfig (MediaAdvertisedIP cfg) (RTPReadPoll cfg) (MediaInactivity cfg) (RTCPInterval cfg)
    (MediaSummaryInterval cfg) (MediaSummaryTimeout cfg).
Definition engine_config (cfg : Config) : B2buaHandlers.EngineConfig :=
  B2buaHandlers.mkEngineConfig (cfg_TenantID cfg) (Realm cfg) (cfg_NodeID cfg) (MaxActiveCalls cfg) (CallMailboxSize cfg)
    (InviteTimeout cfg) (DispatchTimeout cfg).

(** [if err != nil { return nil, fmt.Errorf(msg, err) }] *)
Definition lib_err (msg : string) (err : option error) : result () :=
  match err with Some e => Err (Errorf msg [e]) | None => Ok () end.

(** Once the user agent exists every error closes it. *)
Definition New (cfg : Config) (env : NewEnv) : result App * UA :=
  match
    _ ← validateConfig cfg;
    _ ← NewManager (has_registrations env) true;
    replay ← Auth.New (auth_config cfg) (has_credentials env) true;
    _ ← Registrar.NewHandler (registrar_config cfg) true true;
    _ ← lib_err "create SIP user agent" (newUA env);
    Ok replay
  with
  | Err e => (Err e, NotCreated)
  | Ok replay =>
      match
        _ ← lib_err "create SIP server" (newServer env);
        _ ← lib_err "create SIP client" (newClient env);
        mediaPool ← PortAlloc.New (pool_config cfg);
        _ ← MediaSession.NewFactory (media_config cfg) true (has_media_publisher env);
        callEngine ← B2buaHandlers.NewEngine (engine_config cfg) (has_publisher env && has_logger env);
        Ok (mkApp cfg replay mediaPool callEngine)
      with
      | Err e => (Err e, Closed)
      | Ok a => (Ok a, Opened)
      end
  end.

(** What [New] asks for. *)
Record acceptable (cfg : Config) (env : NewEnv) : Prop := {
  ac_host : ParseIP (BindHost cfg) <> None;
  ac_port : 0 < SIPPort cfg <= 65535;
  ac_ids : Realm cfg <> ""%string /\ cfg_TenantID cfg <> ""%string /\ cfg_NodeID cfg <> ""%string;
  ac_nonce : (32 <= length (NonceSecret cfg))%nat /\ 0 < NonceTTL cfg /\ 0 < MaxReplayEntries cfg;
  ac_expiry : 0 < MinRegisterExpiry cfg <= DefaultRegisterExpiry cfg /\ DefaultRegisterExpiry cfg <= MaxRegisterExpiry cfg;
  ac_timers : 0 < RegisterCleanup cfg /\ 0 < TransactionTimeout cfg /\ 0 < InviteTimeout cfg /\ 0 < DispatchTimeout cfg;
  ac_calls : 0 < MaxActiveCalls cfg /\ 0 < CallMailboxSize cfg <= Call.MaxMailboxCapacity;
  ac_pool : Addr_IsValid (MediaBindIP cfg) = true /\ IsUnspecified (MediaBindIP cfg) = false /\
            PortAlloc.valid_config (pool_config cfg);
  ac_media : Addr_IsValid (MediaAdvertisedIP cfg) = true /\ IsUnspecified (MediaAdvertisedIP cfg) = false /\
             0 < RTPReadPoll cfg < MediaInactivity cfg /\
             0 < RTCPInterval cfg /\ 0 < MediaSummaryInterval cfg /\ 0 < MediaSummaryTimeout cfg;
  ac_given : has_credentials env = true /\ has_registrations env = true /\ has_publisher env = true /\
             has_media_publisher env = true /\ has_logger env = true;
  ac_sipgo : newUA env = None /\ newServer env = None /\ newClient env = None;
}.

(** A stopped application: no nonce seen, every port free, no call. *)
Definition stopped_app (cfg : Config) (a : App) : Prop :=
  app_cfg a = cfg /\ app_replay a = ∅ /\ PortAlloc.pl_available (app_pool a) = PortAlloc.pairs (pool_config cfg) /\
  PortAlloc.pl_inUse (app_pool a) = 0 /\ app_calls a = Admission.NewEngine.

Ltac guards := rewrite ?guard_bind_Ok, ?guard_err_Ok, ?orb_false_iff, ?negb_false_iff, ?Z.leb_gt, ?Z.ltb_ge, ?String.eqb_neq.

Lemma lib_err_Ok msg err u : lib_err msg err = Ok u <-> err = None.
Proof. destruct u, err; cbn; done. Qed.

Lemma validateConfig_Ok cfg u : validateConfig cfg = Ok u <->
  ParseIP (BindHost cfg) <> None /\ 0 < SIPPort cfg <= 65535 /\
  (Realm cfg <> ""%string /\ cfg_TenantID cfg <> ""%string /\ cfg_NodeID cfg <> ""%string) /\ 0 < RegisterCleanup cfg /\
  Addr_IsValid (MediaBindIP cfg) = true /\ Addr_IsValid (MediaAdvertisedIP cfg) = true.
Proof. unfold validateConfig. guards. destruct (ParseIP (BindHost cfg)); intuition (done || lia). Qed.

Lemma auth_New_Ok cfg s c r : Auth.New cfg s c = Ok r <->
  Auth.Realm cfg <> ""%string /\ (32 <= length (Auth.NonceSecret cfg))%nat /\ 0 < Auth.NonceTTL cfg /\
  0 < Auth.MaxReplayEntries cfg /\ s = true /\ c = true /\ r = ∅.
Proof. unfold Auth.New. guards. rewrite Nat.ltb_ge. intuition congruence. Qed.

Lemma NewHandler_Ok cfg a m u : Registrar.NewHandler cfg a m = Ok u <->
  Registrar.h_Realm cfg <> ""%string /\
  (0 < Registrar.MinExpires cfg <= Registrar.DefaultExpires cfg /\ Registrar.DefaultExpires cfg <= Registrar.MaxExpires cfg) /\
  0 < Registrar.TransactionTimeout cfg /\ a = true /\ m = true.
Proof. unfold Registrar.NewHandler. guards. tauto. Qed.

Lemma NewFactory_Ok cfg pool publisher u : MediaSession.NewFactory cfg pool publisher = Ok u <->
  Addr_IsValid (MediaSession.AdvertisedIP cfg) = true /\ IsUnspecified (MediaSession.AdvertisedIP cfg) = false /\
  0 < MediaSession.ReadPollInterval cfg < MediaSession.InactivityTimeout cfg /\
  0 < MediaSession.RTCPInterval cfg /\ 0 < MediaSession.SummaryInterval cfg /\ 0 < MediaSession.SummaryTimeout cfg /\
  pool = true /\ publisher = true.
Proof. unfold MediaSession.NewFactory. guards. tauto. Qed.

Lemma NewEngine_Ok cfg deps e : B2buaHandlers.NewEngine cfg deps = Ok e <->
  (B2buaHandlers.ec_TenantID cfg <> ""%string /\ B2buaHandlers.ec_Realm cfg <> ""%string /\
   B2buaHandlers.ec_NodeID cfg <> ""%string) /\
  0 < B2buaHandlers.ec_MaxActiveCalls cfg /\ 0 < B2buaHandlers.ec_MailboxSize cfg <= Call.MaxMailboxCapacity /\
  0 < B2buaHandlers.ec_InviteTimeout cfg /\ 0 < B2buaHandlers.ec_DispatchTimeout cfg /\ deps = true /\
  e = Admission.NewEngine.
Proof. unfold B2buaHandlers.NewEngine. guards. intuition congruence. Qed.

Lemma pool_New_Ok cfg : is_u16 (PortAlloc.StartPort cfg) -> is_u16 (PortAlloc.EndPort cfg) ->
  Addr_IsValid (PortAlloc.BindIP cfg) = true -> IsUnspecified (PortAlloc.BindIP cfg) = false ->
  PortAlloc.valid_config cfg -> exists p, PortAlloc.New cfg = Ok p.
Proof.
  intros Hs He Hv Hu (V1 & V2 & V3 & V4 & V5). eexists. unfold PortAlloc.New. guards.
  split_and!; try lia; try done.
  unfold go_div. rewrite Z.quot_div_nonneg by lia. Z.div_mod_to_equations. lia.
Qed.

(** An error of [New] leaves no user agent open. *)
Lemma New_err_closed cfg env e ua : New cfg env = (Err e, ua) -> ua <> Opened.
Proof. unfold New. by repeat case_match; intros [= _ <-]. Qed.

Lemma New_acceptable cfg env : is_u16 (RTPStartPort cfg) -> is_u16 (RTPEndPort cfg) -> acceptable cfg env ->
  exists a, New cfg env = (Ok a, Opened).
Proof.
  intros Hs He [A1 A2 A3 (A4 & A5 & A6) A7 (A8 & A9 & A10 & A11) (A12 & A13) (A14 & A15 & A16) A17 (A18 & A19 & A20 & A21 & A22)
    (A23 & A24 & A25)].
  unfold New. rewrite (proj2 (validateConfig_Ok cfg tt)) by tauto. cbn.
  unfold NewManager. rewrite A19, A18. cbn.
  rewrite (proj2 (auth_New_Ok (auth_config cfg) true true ∅)) by (cbn; tauto). cbn.
  rewrite (proj2 (NewHandler_Ok (registrar_config cfg) true true tt)) by (cbn; tauto). rewrite A23, A24, A25. cbn.
  destruct (pool_New_Ok (pool_config cfg)) as [p ->]; [done..|]. cbn. rewrite A20, A21, A22.
  rewrite (proj2 (NewFactory_Ok (media_config cfg) true true tt)) by (cbn; tauto). cbn.
  rewrite (proj2 (NewEngine_Ok (engine_config cfg) true Admission.NewEngine)) by (cbn; tauto). cbn. by eexists.
Qed.

Lemma New_Ok_acceptable cfg env a : is_u16 (RTPStartPort cfg) -> is_u16 (RTPEndPort cfg) ->
  New cfg env = (Ok a, Opened) -> acceptable cfg env /\ stopped_app cfg a.
Proof.
  intros Hs He. unfold New.
  destruct (_ ≫= _) as [replay|] eqn:E1; [|done]. destruct (lib_err "create SIP server" _ ≫= _) as [b|] eqn:E2; [|done].
  intros [= ->].
  apply result_bind_Ok in E1 as ([] & V%validateConfig_Ok & E1).
  apply result_bind_Ok in E1 as ([] & M & E1). unfold NewManager in M. apply guard_bind_Ok in M as [M%negb_false_iff _].
  apply result_bind_Ok in E1 as (r & R%auth_New_Ok & E1). apply result_bind_Ok in E1 as ([] & H%NewHandler_Ok & E1).
  apply result_bind_Ok in E1 as ([] & U%lib_err_Ok & [= ->]).
  apply result_bind_Ok in E2 as ([] & S%lib_err_Ok & E2). apply result_bind_Ok in E2 as ([] & C%lib_err_Ok & E2).
  apply result_bind_Ok in E2 as (p & P & E2). apply result_bind_Ok in E2 as ([] & F%NewFactory_Ok & E2).
  apply result_bind_Ok in E2 as (eng & N%NewEngine_Ok & [= <-]).
  destruct (PortAlloc.new_ok (pool_config cfg) p Hs He P) as (W & Hav & _ & Hin).
  unfold PortAlloc.New in P. apply guard_bind_Ok in P as [[I1%negb_false_iff I2]%orb_false_iff _].
  cbn in *. rewrite andb_true_iff in N. split; [split; tauto|]. unfold stopped_app. cbn. tauto.
Qed.

(** Claim C23. [New] accepts exactly the configurations every component can work
    with: if the addresses, identifiers, limits, timers and port range are valid
    and every dependency is given and sipgo starts, it returns a stopped
    application whose port pool holds every pair of the range and which has no
    call; otherwise it returns an error, and no user agent stays open. *)
Theorem new_accepts cfg env :
  is_u16 (RTPStartPort cfg) -> is_u16 (RTPEndPort cfg) ->
  (acceptable cfg env -> exists a, New cfg env = (Ok a, Opened) /\ stopped_app cfg a) /\
  (~ acceptable cfg env -> exists e ua, New cfg env = (Err e, ua) /\ ua <> Opened).
Proof.
  intros Hs He. split.
  - intros Hok. destruct (New_acceptable cfg env Hs He Hok) as [a Ha]. exists a. split; [done|].
    by apply (New_Ok_acceptable cfg env a Hs He).
  - intros Hno. destruct (New cfg env) as [[a|e] ua] eqn:E; [|by eauto using New_err_closed]. exfalso. apply Hno.
    apply (New_Ok_acceptable cfg env a Hs He). rewrite E. f_equal. unfold New in E. repeat case_match; by simplify_eq.
Qed.

(** ** The command *)

Module Main.

Definition version : string := "0.2.0-phase2".

(** The flags of the command; the ports are of type uint. *)
Record Flags := mkFlags {
  showVersion : bool; sipBind : string; sipPort : Z; realm : string; tenantID : string; nodeID : string;
  mediaBind : string; mediaAdvertised : string; rtpStart : Z; rtpEnd : Z;
}.

Definition default_flags : Flags :=
  mkFlags false "127.0.0.1" 5060 "pbx.example.invalid" "default" "pbx-development-1" "127.0.0.1" "127.0.0.1" 10000 19999.

Definition app_config (f : Flags) (nonceSecret : list Z) (mediaBindIP mediaAdvertisedIP : Addr) : Config :=
  {| BindHost := sipBind f; SIPPort := sipPort f; Realm := realm f; cfg_TenantID := tenantID f; cfg_NodeID := nodeID f;
     NonceSecret := nonceSecret; NonceTTL := 5 * Minute; MaxReplayEntries := 10000;
     DefaultRegisterExpiry := 5 * Minute; MinRegisterExpiry := Minute; MaxRegisterExpiry := 60 * Minute;
     RegisterCleanup := 30 * Second; TransactionTimeout := 5 * Second; InviteTimeout := 30 * Second;
     DispatchTimeout := 5 * Second; MaxActiveCalls := 1000; CallMailboxSize := 64;
     MediaBindIP := mediaBindIP; MediaAdvertisedIP := mediaAdvertisedIP;
     RTPStartPort := u16 (rtpStart f); RTPEndPort := u16 (rtpEnd f); RTPReadPoll := 250 * Millisecond;
     MediaInactivity := 10 * Second; RTCPInterval := 5 * Second; MediaSummaryInterval := 5 * Second;
     MediaSummaryTimeout := 100 * Millisecond |}.

(** What happens to the process, in order. *)
Inductive Action :=
| PrintVersion (v : string)
| OpenStore (dsn : string)
| StartService (cfg : Config)     (* the two buses and the application *)
| CloseStore.

(** What [run] gets from outside: the parsed flags, two environment variables,
    the database, sipgo's constructors, and what the group's [Wait] returns. *)
Record MainEnv := mkMainEnv {
  parsed : result Flags; mysql_dsn : string; nonce_secret : list Z; open_store : option error;
  sip_env : NewEnv; group_wait : option error; close_store : option error;
}.

(** The checks before the database is opened. *)
Definition settings (env : MainEnv) (f : Flags) : result Config :=
  mediaBindIP ← wrap_err "parse media bind IP" (ParseAddr (mediaBind f));
  mediaAdvertisedIP ← wrap_err "parse media advertised IP" (ParseAddr (mediaAdvertised f));
  _ ← guard_err ((65535 <? rtpStart f) || (65535 <? rtpEnd f)) "media port range exceeds 65535";
  _ ← guard_err (String.eqb (mysql_dsn env) "") "environment variable AIXVOLINKPBX_MYSQL_DSN is required";
  _ ← guard_err (length (nonce_secret env) <? 32)%nat
        "environment variable AIXVOLINKPBX_NONCE_SECRET must contain at least 32 bytes";
  Ok (app_config f (nonce_secret env) mediaBindIP mediaAdvertisedIP).

(** From the open store on; its [Close] is deferred. *)
Definition serve (env : MainEnv) (cfg : Config) : option error * list Action :=
  match
    _ ← EventBus.NewCallBus 1024; _ ← MediaSession.NewMediaBus 1024; (New cfg (sip_env env)).1
  with
  | Err e => (Some e, [])
  | Ok _ => (match group_wait env with Some e => Some (Errorf "run service" [e]) | None => None end, [StartService cfg])
  end.

Definition run (env : MainEnv) : option error * list Action :=
  match parsed env with
  | Err e => (Some (Errorf "parse flags" [e]), [])
  | Ok f =>
      if showVersion f then (None, [PrintVersion version]) else
      match settings env f with
      | Err e => (Some e, [])
      | Ok cfg =>
          match open_store env with
          | Some e => (Some e, [OpenStore (mysql_dsn env)])
          | None =>
              let '(err, acts) := serve env cfg in
              (errors_Join [err; close_store env], OpenStore (mysql_dsn env) :: acts ++ [CloseStore])
          end
      end
  end.

Definition exit_code (env : MainEnv) : Z := match (run env).1 with None => 0 | Some _ => 1 end.

Lemma settings_Ok env f cfg : 0 <= rtpStart f -> 0 <= rtpEnd f -> settings env f = Ok cfg ->
  (exists mb ma, ParseAddr (mediaBind f) = Ok mb /\ ParseAddr (mediaAdvertised f) = Ok ma /\
     cfg = app_config f (nonce_secret env) mb ma) /\
  RTPStartPort cfg = rtpStart f /\ RTPEndPort cfg = rtpEnd f /\ is_u16 (RTPStartPort cfg) /\ is_u16 (RTPEndPort cfg) /\
  (32 <= length (nonce_secret env))%nat.
Proof.
  intros H1 H2 Hs. unfold settings in Hs.
  apply result_bind_Ok in Hs as (mb & Hmb & Hs). apply result_bind_Ok in Hs as (ma & Hma & Hs).
  apply guard_bind_Ok in Hs as [[Hs1%Z.ltb_ge Hs2%Z.ltb_ge]%orb_false_iff Hs]. apply guard_bind_Ok in Hs as [_ Hs].
  apply guard_bind_Ok in Hs as [Hl%Nat.ltb_ge [= <-]].
  destruct (ParseAddr (mediaBind f)), (ParseAddr (mediaAdvertised f)); cbn in Hmb, Hma; simplify_eq.
  cbn. rewrite !u16_id by (unfold is_u16; lia).
  unfold is_u16. split_and!; try lia; try done. by eauto.
Qed.

(** The command starts the service only with a configuration every
    component accepts and whose ports are those of the flags, without
    truncation; the store is closed last on every path on which it was opened,
    and the process exits with 0 only if the version was asked for or the service
    ran and neither it nor closing the store failed. *)
Theorem main_starts_valid env f :
  parsed env = Ok f -> 0 <= rtpStart f -> 0 <= rtpEnd f ->
  (forall cfg, StartService cfg ∈ (run env).2 ->
     acceptable cfg (sip_env env) /\ RTPStartPort cfg = rtpStart f /\ RTPEndPort cfg = rtpEnd f) /\
  (forall dsn, OpenStore dsn ∈ (run env).2 -> open_store env = None -> last (run env).2 = Some CloseStore) /\
  (exit_code env = 0 ->
     showVersion f = true \/
     (exists cfg, StartService cfg ∈ (run env).2) /\ group_wait env = None /\ close_store env = None).
Proof.
  intros Hp H1 H2. unfold exit_code, run. rewrite Hp. destruct (showVersion f) eqn:Hv.
  { cbn. split_and!; [intros cfg [?|?%elem_of_nil]%elem_of_cons; done | intros dsn [?|?%elem_of_nil]%elem_of_cons; done | by left]. }
  destruct (settings env f) as [cfg|e] eqn:Hs; [|by split_and!; [intros ? ?%elem_of_nil | intros ? ?%elem_of_nil | ]].
  apply settings_Ok in Hs as (_ & Hst & Hen & Hu1 & Hu2 & _); [|done..].
  destruct (open_store env) as [e|] eqn:Ho.
  { cbn. split_and!; [intros ? [?|?%elem_of_nil]%elem_of_cons; done | done | done]. }
  unfold serve. cbn [EventBus.NewCallBus MediaSession.NewMediaBus EventBus.Bus.NewBus mbind result_bind Z.leb].
  destruct (New cfg (sip_env env)) as [[a|e] ua] eqn:Hn; cbn.
  - assert (Hok : acceptable cfg (sip_env env)).
    { apply (New_Ok_acceptable cfg (sip_env env) a Hu1 Hu2). rewrite Hn. f_equal. unfold New in Hn. repeat case_match; by simplify_eq. }
    split_and!; [|done|].
    + intros c Hc. rewrite !elem_of_cons in Hc. destruct Hc as [?|[[= ->]|[?|?%elem_of_nil]]]; done.
    + intros He. right. split; [exists cfg; do 2 constructor|]. by destruct (group_wait env), (close_store env).
  - split_and!; [|done|by destruct (close_store env)].
    intros c Hc. rewrite !elem_of_cons in Hc. by destruct Hc as [?|[?|?%elem_of_nil]].
Qed.

(** The shipped defaults, with a 32-byte secret, are accepted. *)
Definition sample_sip : NewEnv := mkNewEnv true true true true true None None None.
Definition sample_env : MainEnv :=
  mkMainEnv (Ok default_flags) "user@tcp(127.0.0.1:3306)/pbx" (replicate 32 7) None sample_sip None None.
Definition sample_config : Config := app_config default_flags (replicate 32 7) (Addr4 2130706433) (Addr4 2130706433).

Lemma sample_acceptable : acceptable sample_config sample_sip.
Proof. constructor; vm_compute; repeat split; (reflexivity || discriminate || lia). Qed.

Lemma main_starts_valid_witness :
  (run sample_env).2 = [OpenStore "user@tcp(127.0.0.1:3306)/pbx"; StartService sample_config; CloseStore] /\
  exit_code sample_env = 0 /\ acceptable sample_config sample_sip.
Proof.
  assert (E : (run sample_env).2 = [OpenStore "user@tcp(127.0.0.1:3306)/pbx"; StartService sample_config; CloseStore])
    by (vm_compute; reflexivity).
  split; [exact E|]. split; [vm_compute; reflexivity|].
  destruct (main_starts_valid sample_env default_flags) as (Hs & _); [reflexivity | by vm_compute | by vm_compute |].
  apply Hs. rewrite E. do 2 constructor.
Defined.

End Main.

Lemma new_accepts_witness : exists a,
  New Main.sample_config Main.sample_sip = (Ok a, Opened) /\ stopped_app Main.sample_config a.
Proof.
  apply (new_accepts Main.sample_config Main.sample_sip); [by vm_compute | by vm_compute | exact Main.sample_acceptable].
Defined.
