(* ===== verification/Service.v ===== *)
(** * Running the application

    Models [App.Run] of [internal/app/app.go]: it binds the SIP sockets, serves
    until it is told to stop or something fails, and shuts down in order.  It
    shares its state with the two goroutines that serve a socket each and with
    the calls, so it is a step relation, with [B2buaEngine.Admission] for the
    calls and [Registration.Expire] for the periodic clean-up.  That sipgo's
    [ServeUDP] and [ServeTCP] return once their socket is closed is the one thing
    termination relies on; that they return before, by a failure, is a step of another
    kind. *)

From S2P Require Import Prelude GoStrings Netip Registration MemoryStore B2buaEngine App.

Module Service.

Definition net_ErrClosed : string := "use of closed network connection".

Definition normalizeServeError (err : option error) : option error :=
  if errors_Is_opt err net_ErrClosed || errors_Is_opt err "context canceled" then None else err.

(** [net.JoinHostPort]: an IPv6 host is bracketed. *)
Definition JoinHostPort (host port : string) : string :=
  match String.index 0 ":" host with
  | Some _ => "[" +:+ host +:+ "]:" +:+ port
  | None => host +:+ ":" +:+ port
  end.
Definition listen_address (cfg : Config) : string := JoinHostPort (BindHost cfg) (Itoa (SIPPort cfg)).

(** The guard at the top of [Run], under [runMu]. *)
Definition enter_Run (ran : bool) : option error * bool :=
  if ran then (Some (Errorf "application can only run once" []), ran) else (None, true).

Inductive SockState := Unbound | Bound (address : string) | Released.

(** Where the goroutine of [Run] is. *)
Inductive PC :=
| BindUDP | BindTCP                       (* ListenPacket, Listen *)
| Loop                                    (* the select *)
| CloseUDP | CloseTCP (udpErr : option error)
| Drain                                   (* for received < 2 *)
| WaitCalls | Waiting                     (* calls.Wait: stopping is set; wg.Wait *)
| Deferred                                (* the deferred functions *)
| Returned.

(** Why the loop was left (a ghost variable). *)
Inductive Cause := StopRequested | ListenerEnded | CleanupFailed.

Section Service.
Context {S : Type} `{Store S}.
Variable cfg : Config.

Record sys := mkSys {
  pc : PC;
  ctx : Context;
  runErr : option error;
  received : nat;
  serveErrors : list (option error);      (* the channel, capacity 2 *)
  udpConn : SockState; tcpListener : SockState;
  servingUDP : bool; servingTCP : bool;   (* the two goroutines *)
  ready : bool; ticker : bool; ua : UA;
  store : S;                              (* the registrations [manager] works on *)
  calls : Admission.sys;
  cause : option Cause;                   (* ghosts: why the loop was left, *)
  reported : list error;                  (* the errors of the listeners and of closing their sockets, as reported, *)
  uaError : option error;                 (* and that of closing the user agent *)
}.

Definition initial (s0 : S) (c : Context) : sys :=
  mkSys BindUDP c None 0 [] Unbound Unbound false false false false Opened s0
    (Admission.mkSys Admission.NewEngine []) None [] None.

(** Updates of the parts a step of [Run] changes. *)
Definition goto (p : PC) (s : sys) : sys :=
  mkSys p (ctx s) (runErr s) (received s) (serveErrors s) (udpConn s) (tcpListener s) (servingUDP s) (servingTCP s)
    (ready s) (ticker s) (ua s) (store s) (calls s) (cause s) (reported s) (uaError s).
Definition set_sockets (u t : SockState) (s : sys) : sys :=
  mkSys (pc s) (ctx s) (runErr s) (received s) (serveErrors s) u t (servingUDP s) (servingTCP s)
    (ready s) (ticker s) (ua s) (store s) (calls s) (cause s) (reported s) (uaError s).
Definition set_error (e : option error) (s : sys) : sys :=
  mkSys (pc s) (ctx s) e (received s) (serveErrors s) (udpConn s) (tcpListener s) (servingUDP s) (servingTCP s)
    (ready s) (ticker s) (ua s) (store s) (calls s) (cause s) (reported s) (uaError s).
Definition note (c : option Cause) (fs : list error) (s : sys) : sys :=
  mkSys (pc s) (ctx s) (runErr s) (received s) (serveErrors s) (udpConn s) (tcpListener s) (servingUDP s) (servingTCP s)
    (ready s) (ticker s) (ua s) (store s) (calls s) c (reported s ++ fs) (uaError s).
Definition set_channel (r : nat) (q : list (option error)) (s : sys) : sys :=
  mkSys (pc s) (ctx s) (runErr s) r q (udpConn s) (tcpListener s) (servingUDP s) (servingTCP s)
    (ready s) (ticker s) (ua s) (store s) (calls s) (cause s) (reported s) (uaError s).
Definition set_store (r : S) (s : sys) : sys :=
  mkSys (pc s) (ctx s) (runErr s) (received s) (serveErrors s) (udpConn s) (tcpListener s) (servingUDP s) (servingTCP s)
    (ready s) (ticker s) (ua s) r (calls s) (cause s) (reported s) (uaError s).
Definition set_calls (w : Admission.sys) (s : sys) : sys :=
  mkSys (pc s) (ctx s) (runErr s) (received s) (serveErrors s) (udpConn s) (tcpListener s) (servingUDP s) (servingTCP s)
    (ready s) (ticker s) (ua s) (store s) w (cause s) (reported s) (uaError s).
Definition set_ctx (c : Context) (s : sys) : sys :=
  mkSys (pc s) c (runErr s) (received s) (serveErrors s) (udpConn s) (tcpListener s) (servingUDP s) (servingTCP s)
    (ready s) (ticker s) (ua s) (store s) (calls s) (cause s) (reported s) (uaError s).

(** [ListenPacket] failed, returned a connection that is no [UDPConn], or not. *)
Inductive Listened := ListenError (e : error) | WrongType | Listening.

Definition bind_udp (r : Listened) (s : sys) : sys :=
  match r with
  | ListenError e => goto Deferred (set_error (Some (Errorf "listen SIP UDP" [e])) s)
  | WrongType => goto Deferred (set_error (Some (Errorf "sip UDP listener has unexpected type" []))
                   (set_sockets Released (tcpListener s) s))
  | Listening => goto BindTCP (set_sockets (Bound (listen_address cfg)) (tcpListener s) s)
  end.

(** After both are bound: [ready] is closed, the goroutines and the ticker start. *)
Definition bind_tcp (r : option error) (s : sys) : sys :=
  match r with
  | Some e => goto Deferred (set_error (Some (Errorf "listen SIP TCP" [e])) (set_sockets Released (tcpListener s) s))
  | None =>
      mkSys Loop (ctx s) (runErr s) 0 [] (udpConn s) (Bound (listen_address cfg)) true true true true (ua s) (store s)
        (calls s) (cause s) (reported s) (uaError s)
  end.

Definition fault (err : option error) : list error := match err with Some e => [e] | None => [] end.

(** [case serveErr := <-serveErrors] *)
Definition loop_served (serveErr : option error) (rest : list (option error)) (s : sys) : sys :=
  let err := normalizeServeError serveErr in
  let joined := match errors_Join [runErr s; err] with
                | None => Some (Errorf "sip listener stopped unexpectedly" [])
                | e => e
                end in
  goto CloseUDP (note (Some ListenerEnded) (fault serveErr) (set_error joined (set_channel (received s + 1) rest s))).

(** [case <-cleanupTicker.C]: [cleanupCtx] is the context of this clean-up. *)
Definition loop_tick (cleanupCtx : Context) (now : Time) (s : sys) : sys :=
  let '(r, st) := Expire cleanupCtx now (store s) in
  let s := set_store st s in
  match r, ctx s with
  | Err e, None => goto CloseUDP (note (Some CleanupFailed) [] (set_error (errors_Join [runErr s; Some e]) s))
  | _, _ => s
  end.

Definition close_tcp (udpErr tcpErr : option error) (s : sys) : sys :=
  let errs := [normalizeServeError udpErr; normalizeServeError tcpErr] in
  goto Drain (note (cause s) (omap id [udpErr; tcpErr]) (set_error (errors_Join (runErr s :: errs))
    (set_sockets (udpConn s) Released s))).

Definition drain_one (serveErr : option error) (rest : list (option error)) (s : sys) : sys :=
  let err := normalizeServeError serveErr in
  note (cause s) (fault serveErr) (set_error (errors_Join [runErr s; err]) (set_channel (received s + 1) rest s)).

(** [cleanupTicker.Stop] and [ua.Close], in the order of deferred calls. *)
Definition deferred (uaErr : option error) (s : sys) : sys :=
  mkSys Returned (ctx s) (errors_Join [runErr s; uaErr]) (received s) (serveErrors s) (udpConn s) (tcpListener s)
    (servingUDP s) (servingTCP s) (ready s) false Closed (store s) (calls s) (cause s) (reported s) uaErr.

Definition serve_udp_ends (err : option error) (s : sys) : sys :=
  mkSys (pc s) (ctx s) (runErr s) (received s) (serveErrors s ++ [err]) (udpConn s) (tcpListener s) false (servingTCP s)
    (ready s) (ticker s) (ua s) (store s) (calls s) (cause s) (reported s) (uaError s).
Definition serve_tcp_ends (err : option error) (s : sys) : sys :=
  mkSys (pc s) (ctx s) (runErr s) (received s) (serveErrors s ++ [err]) (udpConn s) (tcpListener s) (servingUDP s) false
    (ready s) (ticker s) (ua s) (store s) (calls s) (cause s) (reported s) (uaError s).

(** [Own]: a step of [Run], or the return of a serving goroutine whose socket is
    closed.  [Fails]: a serving goroutine returns by itself.  [Tick]: one clean-up.
    [Other]: the calls, which come through the served sockets, the REGISTER handlers, the process context. *)
Inductive Label := Own | Fails | Tick | Other.

Inductive step : Label -> sys -> sys -> Prop :=
| s_bind_udp r s : pc s = BindUDP -> step Own s (bind_udp r s)
| s_bind_tcp r s : pc s = BindTCP -> step Own s (bind_tcp r s)
| s_done e s : pc s = Loop -> ctx s = Some e ->
    step Own s (goto CloseUDP (note (Some StopRequested) [] s))
| s_served err rest s : pc s = Loop -> serveErrors s = err :: rest -> step Own s (loop_served err rest s)
| s_tick cleanupCtx now s : pc s = Loop -> (ctx s <> None -> cleanupCtx <> None) ->
    step Tick s (loop_tick cleanupCtx now s)
| s_close_udp err s : pc s = CloseUDP ->
    step Own s (goto (CloseTCP err) (set_sockets Released (tcpListener s) s))
| s_close_tcp udpErr err s : pc s = CloseTCP udpErr -> step Own s (close_tcp udpErr err s)
| s_drain err rest s : pc s = Drain -> (received s < 2)%nat -> serveErrors s = err :: rest ->
    step Own s (drain_one err rest s)
| s_drained s : pc s = Drain -> (2 <= received s)%nat -> step Own s (goto WaitCalls s)
| s_stop_calls s : pc s = WaitCalls ->
    step Own s (goto Waiting (set_calls (Admission.mkSys (Admission.Wait (Admission.engine (calls s))) (Admission.sessions (calls s))) s))
| s_calls_gone s : pc s = Waiting -> Admission.en_wg (Admission.engine (calls s)) = 0 -> step Own s (goto Deferred s)
| s_deferred err s : pc s = Deferred -> step Own s (deferred err s)
| s_udp_ends err s : servingUDP s = true -> udpConn s = Released -> step Own s (serve_udp_ends err s)
| s_tcp_ends err s : servingTCP s = true -> tcpListener s = Released -> step Own s (serve_tcp_ends err s)
| s_udp_fails err s : servingUDP s = true -> step Fails s (serve_udp_ends err s)
| s_tcp_fails err s : servingTCP s = true -> step Fails s (serve_tcp_ends err s)
| s_calls w s : ready s = true -> Admission.step (MaxActiveCalls cfg) (calls s) w ->
    Admission.en_stopping (Admission.engine w) = Admission.en_stopping (Admission.engine (calls s)) ->
    step Other s (set_calls w s)
| s_store st s : step Other s (set_store st s)
| s_cancel e s : ctx s = None -> step Other s (set_ctx (Some e) s).

Definition any_step (s s' : sys) : Prop := exists l, step l s s'.
Definition reachable (s : sys) : Prop := exists s0 c, rtc any_step (initial s0 c) s.

(** ** The invariant *)

Definition busy (b : bool) : nat := if b then 1 else 0.

(** The two sockets at each point of [Run]. *)
Definition sockets_at (p : PC) (isReady : bool) (u t : SockState) : Prop :=
  let up := Bound (listen_address cfg) in
  match p with
  | BindUDP => u = Unbound /\ t = Unbound
  | BindTCP => u = up /\ t = Unbound
  | Loop | CloseUDP => u = up /\ t = up
  | CloseTCP _ => u = Released /\ t = up
  | Drain | WaitCalls | Waiting => u = Released /\ t = Released
  | Deferred | Returned => u <> up /\ (if isReady then u = Released /\ t = Released else t = Unbound)
  end.

Definition bound_up (p : PC) (isReady : bool) : Prop :=
  match p with BindUDP | BindTCP => isReady = false | Deferred | Returned => True | _ => isReady = true end.
Definition all_received (p : PC) : bool := match p with WaitCalls | Waiting | Deferred | Returned => true | _ => false end.
Definition calls_stopped (p : PC) : bool := match p with Waiting | Deferred | Returned => true | _ => false end.
Definition calls_over (p : PC) : bool := match p with Deferred | Returned => true | _ => false end.
Definition in_service (p : PC) : bool := match p with BindUDP | BindTCP | Loop => true | _ => false end.

(** What may be reported when the service is stopped: that a socket is closed or
    the context cancelled. *)
Definition benign (e : error) : Prop := errors_Is e net_ErrClosed = true \/ errors_Is e "context canceled" = true.
Definition clean_stop (s : sys) : Prop := cause s = Some StopRequested /\ Forall benign (reported s) /\ uaError s = None.

Record inv (s : sys) : Prop := {
  i_sockets : sockets_at (pc s) (ready s) (udpConn s) (tcpListener s);
  i_ready : bound_up (pc s) (ready s);
  i_count : (received s + length (serveErrors s) + busy (servingUDP s) + busy (servingTCP s))%nat
            = if ready s then 2%nat else 0%nat;
  i_loop : pc s = Loop -> received s = 0%nat;
  i_all : all_received (pc s) = true -> ready s = true -> received s = 2%nat;
  i_calls : Admission.inv (MaxActiveCalls cfg) (calls s);
  i_idle : ready s = false -> calls s = Admission.mkSys Admission.NewEngine [];
  i_stopped : calls_stopped (pc s) = true -> ready s = true -> Admission.en_stopping (Admission.engine (calls s)) = true;
  i_over : calls_over (pc s) = true -> Admission.en_wg (Admission.engine (calls s)) = 0;
  i_ua : ua s = match pc s with Returned => Closed | _ => Opened end;
  i_ticker : ticker s = match pc s with Returned => false | _ => ready s end;
  i_before : in_service (pc s) = true -> runErr s = None /\ cause s = None /\ reported s = [] /\ uaError s = None;
  i_after : in_service (pc s) = false -> runErr s = None <-> clean_stop s;
  i_cause : cause s = Some StopRequested -> ctx s <> None;
  i_served : cause s <> None -> ready s = true;
  i_uaError : pc s <> Returned -> uaError s = None;
}.

(** [normalizeServeError] drops exactly the benign errors. *)
Lemma normalize_benign err : normalizeServeError err = None <-> Forall benign (fault err).
Proof.
  unfold normalizeServeError. destruct err as [e|]; cbn; [|by split].
  rewrite Forall_singleton. unfold benign. destruct (errors_Is e net_ErrClosed), (errors_Is e _); cbn; naive_solver.
Qed.

(** Joining what was reported to [runErr]. *)
Lemma join_reported e errs (c : option Cause) fs (u : option error) :
  (e = None <-> c = Some StopRequested /\ Forall benign fs /\ u = None) ->
  errors_Join (e :: (normalizeServeError <$> errs)) = None <-> c = Some StopRequested /\ Forall benign (fs ++ omap id errs) /\ u = None.
Proof.
  intros He. rewrite errors_Join_None, Forall_app.
  assert (Hn : omap id (normalizeServeError <$> errs) = [] <-> Forall benign (omap id errs)).
  { induction errs as [|x errs IH]; [done|]. rewrite fmap_cons. pose proof (normalize_benign x) as Hx.
    destruct x as [x|]; [|done]. change (omap id (Some x :: errs)) with (x :: omap id errs). rewrite Forall_cons, <- IH.
    cbn [fault] in Hx. rewrite Forall_singleton in Hx. destruct (normalizeServeError (Some x)); cbn; naive_solver. }
  cbn. destruct e; cbn; naive_solver.
Qed.

(** With the engine stopped and no call left, its step is a refusal. *)
Lemma idle_step max w w' : Admission.inv max w -> Admission.en_stopping (Admission.engine w) = true ->
  Admission.en_wg (Admission.engine w) = 0 -> Admission.step max w w' -> w' = w.
Proof.
  intros Hi Hst Hwg Hs. destruct (Admission.stopping_decreases _ _ _ Hst Hs) as [?|Hlt]; [done|].
  destruct (Admission.idle_empty _ _ Hi Hwg) as (Hg & _). pose proof (Admission.calls_left_nonneg w').
  assert (Admission.calls_left w = 0); [|lia]. unfold Admission.calls_left, sum_list.
  induction Hg as [|p l -> _ IH]; [done | by cbn].
Qed.

Lemma initial_inv s0 c : 0 <= MaxActiveCalls cfg -> inv (initial s0 c).
Proof.
  intros Hm. constructor; cbn; try done. apply Admission.admission_reachable_inv; [done|]. apply rtc_refl.
Qed.

(** Settle the fields of the invariant after a step: most are unchanged. *)
Ltac rewrite_field f s := try match goal with E : f s = _ |- _ => rewrite E in * end.
Ltac fields s :=
  match goal with Hi : inv s |- _ => destruct Hi end;
  rewrite_field pc s; cbn in *;
  repeat match goal with E : ?x = ?x -> _ |- _ => specialize (E eq_refl) end; destruct_and?;
  constructor; cbn; rewrite_field pc s; cbn; auto; try done; intros;
  rewrite_field ready s; rewrite_field udpConn s; rewrite_field tcpListener s;
  rewrite_field runErr s; rewrite_field cause s; rewrite_field reported s; rewrite_field uaError s;
  repeat match goal with E : ?x = ?x -> _ |- _ => specialize (E eq_refl) end; rewrite_field calls s; try done.

Ltac no_clean_end := unfold clean_stop; cbn; split; [discriminate | intros (? & ?); congruence].

Lemma service_bind_inv s : inv s ->
  (forall r, pc s = BindUDP -> inv (bind_udp r s)) /\ (forall r, pc s = BindTCP -> inv (bind_tcp r s)).
Proof.
  intros Hi. split; intros r Hpc; destruct r; fields s; no_clean_end.
Qed.

Lemma loop_inv s : inv s -> pc s = Loop ->
  (forall e, ctx s = Some e -> inv (goto CloseUDP (note (Some StopRequested) [] s))) /\
  (forall err rest, serveErrors s = err :: rest -> inv (loop_served err rest s)) /\
  (forall cleanupCtx now, inv (loop_tick cleanupCtx now s)).
Proof.
  intros Hi Hpc. split_and!.
  - intros e He. fields s; [|by rewrite He].
    unfold clean_stop. cbn. rewrite_field reported s. rewrite_field uaError s. naive_solver.
  - intros err rest Hq. fields s; rewrite ?Hq in *; cbn in *; try lia.
    destruct (normalizeServeError err); no_clean_end.
  - intros c now. unfold loop_tick. destruct (Expire c now (store s)) as [[n|e] st]; [fields s|].
    cbn [ctx set_store]. destruct (ctx s) eqn:E; fields s; rewrite ?E in *; auto. no_clean_end.
Qed.

Lemma shutdown_inv s : inv s ->
  (forall err, pc s = CloseUDP -> inv (goto (CloseTCP err) (set_sockets Released (tcpListener s) s))) /\
  (forall udpErr err, pc s = CloseTCP udpErr -> inv (close_tcp udpErr err s)) /\
  (forall err rest, pc s = Drain -> serveErrors s = err :: rest -> inv (drain_one err rest s)) /\
  (pc s = Drain -> (2 <= received s)%nat -> inv (goto WaitCalls s)).
Proof.
  intros Hi. split_and!.
  - intros err Hpc. fields s.
  - intros udpErr err Hpc. fields s. by apply (join_reported _ [udpErr; err]).
  - intros err rest Hpc Hq. fields s; rewrite ?Hpc, ?Hq in *; cbn in *; auto; try done; try lia.
    unfold clean_stop in *. destruct err as [e|]; [by apply (join_reported _ [Some e]) | by apply (join_reported _ [None])].
  - intros Hpc Hrec. fields s; lia.
Qed.

Lemma end_inv s : inv s ->
  (pc s = WaitCalls -> inv (goto Waiting (set_calls (Admission.mkSys (Admission.Wait (Admission.engine (calls s)))
                                                       (Admission.sessions (calls s))) s))) /\
  (pc s = Waiting -> Admission.en_wg (Admission.engine (calls s)) = 0 -> inv (goto Deferred s)) /\
  (forall err, pc s = Deferred -> inv (deferred err s)).
Proof.
  intros Hi. split_and!.
  - intros Hpc. fields s. eapply Admission.admission_step_inv; [eassumption | apply Admission.stop].
  - intros Hpc Hwg. fields s.
  - intros err Hpc. fields s. unfold clean_stop in *. cbn. rewrite errors_Join_None. rewrite i_uaError0 in * by done.
    destruct (runErr s), err; cbn; naive_solver.
Qed.

Lemma other_inv s : inv s ->
  (forall err, servingUDP s = true -> inv (serve_udp_ends err s)) /\
  (forall err, servingTCP s = true -> inv (serve_tcp_ends err s)) /\
  (forall w, ready s = true -> Admission.step (MaxActiveCalls cfg) (calls s) w ->
     Admission.en_stopping (Admission.engine w) = Admission.en_stopping (Admission.engine (calls s)) ->
     inv (set_calls w s)) /\
  (forall st, inv (set_store st s)) /\
  (forall e, ctx s = None -> inv (set_ctx (Some e) s)).
Proof.
  intros Hi. split_and!.
  - intros err Hs. fields s. rewrite length_app. rewrite Hs in *. cbn in *. lia.
  - intros err Hs. fields s. rewrite length_app. rewrite Hs in *. cbn in *. lia.
  - intros w Hr Hst Hstop. fields s.
    + by eapply Admission.admission_step_inv.
    + rewrite Hstop. auto.
    + assert (Hc : calls_over (pc s) = true) by done.
      assert (calls_stopped (pc s) = true) by by destruct (pc s).
      rewrite (idle_step (MaxActiveCalls cfg) (calls s) w); auto.
  - intros st. fields s.
  - intros e He. fields s.
Qed.

Lemma step_inv l s s' : inv s -> step l s s' -> inv s'.
Proof.
  intros Hi. pose proof (service_bind_inv s Hi) as [B1 B2]. pose proof (loop_inv s Hi) as L.
  pose proof (shutdown_inv s Hi) as (S1 & S2 & S3 & S4). pose proof (end_inv s Hi) as (E1 & E2 & E3).
  pose proof (other_inv s Hi) as (O1 & O2 & O3 & O4 & O5).
  destruct 1; auto; destruct (L ltac:(done)) as (L1 & L2 & L3); eauto.
Qed.

Lemma reachable_inv s : 0 <= MaxActiveCalls cfg -> reachable s -> inv s.
Proof.
  intros Hm (s0 & c & Hr). assert (Hi : inv (initial s0 c)) by by apply initial_inv.
  revert Hi. induction Hr as [|s1 s2 s3 [l Hs] _ IH]; eauto using step_inv.
Qed.

Lemma service_reachable_step l s s' : reachable s -> step l s s' -> reachable s'.
Proof. intros (s0 & c & Hr) Hs. exists s0, c. eapply rtc_r; [exact Hr | by exists l]. Qed.

(** Claim C16. [Run] shuts down in order.  While it serves, both sockets are
    bound to the configured address.  When it has returned, no socket is bound,
    both serving goroutines have ended and their results have been received, the
    ticker is stopped, the user agent is closed and no call is left; and as long
    as a call is in progress the user agent is open. *)
Theorem run_shutdown_order s :
  0 <= MaxActiveCalls cfg -> reachable s ->
  (pc s = Loop -> ready s = true /\ udpConn s = Bound (listen_address cfg) /\ tcpListener s = Bound (listen_address cfg)) /\
  (pc s = Returned ->
     udpConn s <> Bound (listen_address cfg) /\ tcpListener s <> Bound (listen_address cfg) /\
     servingUDP s = false /\ servingTCP s = false /\ serveErrors s = [] /\ ticker s = false /\ ua s = Closed /\
     Forall (fun p => p = Admission.Gone) (Admission.sessions (calls s))) /\
  (Exists (fun p => p <> Admission.Gone) (Admission.sessions (calls s)) -> ua s = Opened).
Proof.
  intros Hm Hr. apply reachable_inv in Hr as Hi; [|done].
  assert (Hend : pc s = Returned -> Forall (fun p => p = Admission.Gone) (Admission.sessions (calls s))).
  { intros Hpc. destruct Hi. eapply Admission.idle_empty; [done|]. rewrite Hpc in *. auto. }
  split_and!.
  - intros Hpc. destruct Hi. rewrite Hpc in *. cbn in *. tauto.
  - intros Hpc. specialize (Hend Hpc). destruct Hi. rewrite Hpc in *. cbn in *.
    assert (busy (servingUDP s) = 0%nat /\ busy (servingTCP s) = 0%nat /\ length (serveErrors s) = 0%nat) as (Hu & Ht & Hq).
    { destruct (ready s); [specialize (i_all0 eq_refl eq_refl)|]; lia. }
    split_and!; try tauto; try by apply nil_length_inv.
    + destruct i_sockets0 as [_ Hs]. by destruct (ready s); [destruct Hs as [_ ->] | rewrite Hs].
    + by destruct (servingUDP s).
    + by destruct (servingTCP s).
  - intros Hex. destruct Hi. rewrite i_ua0. destruct (pc s) eqn:Hpc; try done. specialize (Hend eq_refl).
    apply Exists_exists in Hex as (p & Hp & Hne). rewrite Forall_forall in Hend. by destruct Hne; apply Hend.
Qed.


(** ** Termination *)

Definition own (l : Label) : bool := match l with Own | Fails => true | _ => false end.

Definition rank (p : PC) : nat :=
  match p with
  | BindUDP => 9 | BindTCP => 8 | Loop => 7 | CloseUDP => 6 | CloseTCP _ => 5 | Drain => 4
  | WaitCalls => 3 | Waiting => 2 | Deferred => 1 | Returned => 0
  end.

(** How many steps [Run] and its goroutines have left. *)
Definition remaining (s : sys) : nat :=
  rank (pc s) + (2 - received s) + (if ready s then busy (servingUDP s) + busy (servingTCP s) else 2).

Lemma step_remaining l s s' : inv s -> step l s s' ->
  (remaining s' + (if own l then 1 else 0) <= remaining s)%nat.
Proof.
  intros Hi Hs. destruct Hs as [r s Hpc|r s Hpc|e s Hpc He|err rest s Hpc Hq|c now s Hpc Hc|err s Hpc|u err s Hpc
    |err rest s Hpc Hr Hq|s Hpc Hr|s Hpc|s Hpc Hwg|err s Hpc|err s Hs Hu|err s Hs Ht|err s Hs|err s Hs|w s Hr Hs Hst|st s|e s He];
    unfold remaining; cbn; try (rewrite Hpc; cbn).
  - destruct r; cbn; destruct (ready s); lia.
  - destruct Hi. rewrite Hpc in *. cbn in *. destruct r; cbn; rewrite i_ready0 in *; lia.
  - lia.
  - lia.
  - unfold loop_tick. destruct (Expire c now (store s)) as [[n|e] st]; cbn; rewrite ?Hpc; cbn; [lia|].
    destruct (ctx s); cbn; rewrite ?Hpc; cbn; lia.
  - lia.
  - lia.
  - lia.
  - lia.
  - lia.
  - lia.
  - lia.
  - destruct Hi. rewrite Hs in *. destruct (ready s); cbn in *; lia.
  - destruct Hi. rewrite Hs in *. destruct (ready s); cbn in *; lia.
  - destruct Hi. rewrite Hs in *. destruct (ready s); cbn in *; lia.
  - destruct Hi. rewrite Hs in *. destruct (ready s); cbn in *; lia.
  - lia.
  - lia.
  - lia.
Qed.

Lemma remaining_bound s : (remaining s <= 13)%nat.
Proof.
  unfold remaining. assert (rank (pc s) <= 9)%nat by (destruct (pc s); cbn; lia).
  destruct (ready s), (servingUDP s), (servingTCP s); cbn; lia.
Qed.

(** Asked to stop, [Run] can always go on, unless it waits for calls, and then
    a call can. *)
Lemma run_progress s : inv s -> ctx s <> None -> pc s <> Returned ->
  (exists s', step Own s s') \/
  pc s = Waiting /\ exists s', step Other s s' /\ Admission.calls_left (calls s') < Admission.calls_left (calls s).
Proof.
  intros Hi Hctx Hpc. destruct (ctx s) as [ce|] eqn:Hce; [|done]. destruct (pc s) eqn:E; try done.
  - left. exists (bind_udp WrongType s). by constructor.
  - left. exists (bind_tcp None s). by constructor.
  - left. eexists. by eapply s_done.
  - left. eexists. by apply (s_close_udp None).
  - left. eexists. by apply (s_close_tcp udpErr None).
  - left. destruct (decide (2 <= received s)%nat) as [Hr|Hr]; [eexists; by apply s_drained|].
    destruct (serveErrors s) as [|err rest] eqn:Q; [|eexists; apply (s_drain err rest); [done | lia | done]].
    destruct Hi. rewrite E, Q in *. cbn in *. rewrite i_ready0 in *.
    destruct i_sockets0 as [Hu Ht].
    destruct (servingUDP s) eqn:U; [eexists; by apply (s_udp_ends None)|].
    destruct (servingTCP s) eqn:T; [eexists; by apply (s_tcp_ends None)|]. cbn in *. lia.
  - left. eexists. by apply s_stop_calls.
  - destruct (decide (Admission.en_wg (Admission.engine (calls s)) = 0)) as [Hz|Hz]; [left; eexists; by apply s_calls_gone|].
    right. split; [done|]. destruct Hi. rewrite E in *. cbn in *. specialize (i_stopped0 eq_refl i_ready0).
    assert (exists i p, Admission.sessions (calls s) !! i = Some p /\ p <> Admission.Gone) as (i & p & Hp & Hne).
    { apply Admission.running_exists. destruct i_calls0. congruence. }
    destruct (Admission.running_steps (MaxActiveCalls cfg) (calls s) i p Hp Hne) as (w & Hw & Hlt).
    exists (set_calls w s). split; [|done]. constructor; [done..|].
    destruct (Admission.stopping_step _ _ _ i_stopped0 Hw) as [-> _]. done.
  - left. eexists. by apply (s_deferred None).
Qed.

(** Claim C9. [Run] terminates.  In every interleaving it and its two goroutines
    take at most 13 steps besides the clean-ups; once the context is done and as
    long as [Run] has not returned, it has a step to take or a goroutine returns
    because [Run] has closed its socket, except while it waits for calls, and then
    no call is admitted, no step lengthens the work the calls have left and one of
    them can shorten it.  (That [ServeUDP] and [ServeTCP] return once their socket
    is closed is sipgo's part; that they may also return before is not relied on.
    The limit of active calls is not negative, which [New] checks.) *)
Theorem run_terminates s :
  0 <= MaxActiveCalls cfg -> reachable s ->
  (forall ls s', trace step ls s s' -> (counted_steps own ls <= 13)%nat) /\
  (ctx s <> None -> pc s <> Returned ->
     (exists s', step Own s s') \/
     pc s = Waiting /\ exists s', step Other s s' /\ Admission.calls_left (calls s') < Admission.calls_left (calls s)) /\
  (forall l s', pc s = Waiting -> step l s s' ->
     0 <= Admission.calls_left (calls s') <= Admission.calls_left (calls s) /\
     length (Admission.sessions (calls s')) = length (Admission.sessions (calls s))).
Proof.
  intros Hm Hr. apply reachable_inv in Hr as Hi; [|done]. split_and!.
  - intros ls s' Ht. pose proof (remaining_bound s).
    eapply (trace_measure step own inv remaining) in Ht as [_ Hle]; [lia | | done].
    intros l s1 s2 Hi1 Hs. split; [by eapply step_inv | by apply step_remaining].
  - by apply run_progress.
  - intros l s' Hpc Hs. split; [split; [apply Admission.calls_left_nonneg|]|];
      (destruct Hs; cbn; try congruence; try lia; destruct Hi; rewrite Hpc in *; cbn in *);
      specialize (i_stopped0 eq_refl i_ready0).
    + edestruct Admission.stopping_decreases as [->|]; [exact i_stopped0 | eassumption | lia | lia].
    + by eapply Admission.stopping_step.
Qed.

End Service.
Arguments sys : clear implicits.

End Service.

(** ** A service that is stopped while it runs *)

Module SampleRun.
Import Service.

Notation Mem := RegistrationStore.
#[local] Instance sample_store : Store Mem := memory_store map_to_list.

Definition closed_err : option error := Some (Sentinel net_ErrClosed).

(** Both sockets are bound, a clean-up runs, the context is cancelled; both
    listeners report a closed socket. *)
Definition running : sys Mem := bind_tcp Main.sample_config None (bind_udp Main.sample_config Listening (initial NewRegistrationStore None)).
Definition cleaned : sys Mem := loop_tick None 100 running.
Definition stopping : sys Mem := goto CloseUDP (note (Some StopRequested) [] (set_ctx (Some context_Canceled) cleaned)).
Definition closed : sys Mem := close_tcp None None (goto (CloseTCP None) (set_sockets Released (tcpListener stopping) stopping)).
Definition drained : sys Mem :=
  let s := serve_tcp_ends closed_err (serve_udp_ends closed_err closed) in
  goto WaitCalls (drain_one closed_err [] (drain_one closed_err [closed_err] s)).
Definition ended : sys Mem :=
  let w := Admission.mkSys (Admission.Wait (Admission.engine (calls drained))) (Admission.sessions (calls drained)) in
  deferred None (goto Deferred (goto Waiting (set_calls w drained))).

(** From the last step back to the first. *)
Ltac back c := eapply (service_reachable_step Main.sample_config); [|eapply c; try reflexivity; try (vm_compute; lia)].

Lemma running_reachable : reachable Main.sample_config running.
Proof. unfold running. back s_bind_tcp. back s_bind_udp. by exists NewRegistrationStore, None. Qed.

Lemma stopping_reachable : reachable Main.sample_config stopping.
Proof.
  unfold stopping. back s_done. back s_cancel. unfold cleaned. back s_tick; [exact running_reachable | done].
Qed.

Lemma ended_reachable : reachable Main.sample_config ended.
Proof.
  unfold ended. back s_deferred. back s_calls_gone. back s_stop_calls.
  unfold drained. back s_drained. back s_drain. back s_drain. back s_tcp_ends. back s_udp_ends.
  unfold closed. back s_close_tcp. back s_close_udp. exact stopping_reachable.
Qed.

Lemma run_shutdown_order_witness : pc ended = Returned /\ ua ended = Closed /\ serveErrors ended = [].
Proof.
  split; [reflexivity|].
  destruct (run_shutdown_order Main.sample_config ended ltac:(by vm_compute) ended_reachable) as (_ & He & _).
  destruct (He eq_refl) as (_ & _ & _ & _ & Hq & _ & Hua & _). split; [exact Hua | exact Hq].
Defined.


Lemma run_terminates_witness :
  ctx stopping <> None /\ (exists s', step Main.sample_config Own stopping s') /\
  forall ls s', trace (step Main.sample_config) ls stopping s' -> (counted_steps own ls <= 13)%nat.
Proof.
  split; [discriminate|].
  destruct (run_terminates Main.sample_config stopping ltac:(by vm_compute) stopping_reachable) as (Hb & Hp & _).
  split; [|exact Hb]. destruct Hp as [Hs|[Hw _]]; [discriminate | discriminate | exact Hs | discriminate Hw].
Defined.

End SampleRun.
