(* ===== verification/Process.v ===== *)
(** * The process

    Models the end of [run] in [cmd/aixvolinkpbx/main.go]: the consumers of the two
    event buses and the application run in one errgroup, and the store is closed
    when all three have returned.  Composes [EventBus], [MediaSession]'s bus and
    [Service]; the group is [MediaWorkers]'s interface to errgroup. *)

From S2P Require Import Prelude EventBus MediaSession MediaWorkers Registration B2buaEngine App Service.
From S2P Require Call MemoryStore.

Module Process.

Section Process.
Context {S : Type} `{Store S} {G : Type} `{ErrGroup G} {W1 W2 : Type}.
Variable WriteCallEvent : Context -> Call.Event -> W1 -> option error * W1.
Variable WriteMediaSummary : Context -> Summary -> W2 -> option error * W2.
Variable cfg : Config.

(** The group, the two consumers with their buses, the application; which of the
    three functions have returned to the group, and what [run] returned. *)
Record sys := mkSys {
  parent : Context; group : G;
  callBus : Bus.sys Call.Event W1; mediaBus : Bus.sys Summary W2; application : Service.sys S;
  callsReturned : bool; mediaReturned : bool; appReturned : bool;
  storeOpen : bool; finished : option (option error);
}.

Definition groupCtx (s : sys) : Context := group_ctx (parent s) (group s).

Definition set_callBus (b : Bus.sys Call.Event W1) (s : sys) : sys :=
  mkSys (parent s) (group s) b (mediaBus s) (application s) (callsReturned s) (mediaReturned s) (appReturned s)
    (storeOpen s) (finished s).
Definition set_mediaBus (b : Bus.sys Summary W2) (s : sys) : sys :=
  mkSys (parent s) (group s) (callBus s) b (application s) (callsReturned s) (mediaReturned s) (appReturned s)
    (storeOpen s) (finished s).
Definition set_application (a : Service.sys S) (s : sys) : sys :=
  mkSys (parent s) (group s) (callBus s) (mediaBus s) a (callsReturned s) (mediaReturned s) (appReturned s)
    (storeOpen s) (finished s).
Definition return_to_group (err : option error) (c m a : bool) (s : sys) : sys :=
  mkSys (parent s) (returned err (group s)) (callBus s) (mediaBus s) (application s) c m a (storeOpen s) (finished s).

(** [group.Wait] has returned; the deferred [store.Close] reports [closeErr]. *)
Definition finish (closeErr : option error) (s : sys) : sys :=
  let err := match Wait (group s) with Some e => Some (Errorf "run service" [e]) | None => None end in
  mkSys (parent s) (group s) (callBus s) (mediaBus s) (application s) (callsReturned s) (mediaReturned s) (appReturned s)
    false (Some (errors_Join [err; closeErr])).

Notation calls_step := (Bus.step "call event" WriteCallEvent).
Notation media_step := (Bus.step "media summary" WriteMediaSummary).

(** [Own]: the three functions and [run], but for the delivery of an event and the
    clean-ups.  [Fails]: a listener of the application returns by itself. *)
Inductive Label := Own | Fails | Other.
Definition relabel (l : Service.Label) : Label :=
  match l with Service.Own => Own | Service.Fails => Fails | Service.Tick | Service.Other => Other end.
Definition stops {A W} (b b' : Bus.sys A W) : Label := if Bus.stopped b then Other else if Bus.stopped b' then Own else Other.

(** In [s_app]: a REGISTER handler may still run when the store is closed, but a
    closed [sql.DB] refuses its statements. *)
Inductive step : Label -> sys -> sys -> Prop :=
| s_calls b s : calls_step (groupCtx s) (callBus s) b -> step (stops (callBus s) b) s (set_callBus b s)
| s_media b s : media_step (groupCtx s) (mediaBus s) b -> step (stops (mediaBus s) b) s (set_mediaBus b s)
| s_app l a s : Service.step cfg l (application s) a -> Service.ctx a = Service.ctx (application s) ->
    (storeOpen s = false -> Service.store a = Service.store (application s)) ->
    step (relabel l) s (set_application a s)
| s_ctx e s : groupCtx s = Some e -> Service.ctx (application s) = None ->
    step Own s (set_application (Service.set_ctx (Some e) (application s)) s)
| s_calls_return err s : callsReturned s = false -> Bus.sys_status (callBus s) = Bus.Stopped err ->
    step Own s (return_to_group err true (mediaReturned s) (appReturned s) s)
| s_media_return err s : mediaReturned s = false -> Bus.sys_status (mediaBus s) = Bus.Stopped err ->
    step Own s (return_to_group err (callsReturned s) true (appReturned s) s)
| s_app_return s : appReturned s = false -> Service.pc (application s) = Service.Returned ->
    step Own s (return_to_group (Service.runErr (application s)) (callsReturned s) (mediaReturned s) true s)
| s_finish closeErr s : finished s = None -> callsReturned s = true -> mediaReturned s = true -> appReturned s = true ->
    step Own s (finish closeErr s)
| s_signal e s : parent s = None ->
    step Other s (mkSys (Some e) (group s) (callBus s) (mediaBus s) (application s) (callsReturned s) (mediaReturned s)
                    (appReturned s) (storeOpen s) (finished s)).

Definition initial (s : sys) : Prop :=
  parent s = None /\ group s = WithContext /\
  Bus.initial "call event" (callBus s) /\ Bus.initial "media summary" (mediaBus s) /\
  (exists st, application s = Service.initial st None) /\
  callsReturned s = false /\ mediaReturned s = false /\ appReturned s = false /\ storeOpen s = true /\ finished s = None.

Definition reachable (s : sys) : Prop := exists s0, initial s0 /\ rtc (fun a b => exists l, step l a b) s0 s.

Context `{!ErrGroupLaws G}.

(** A function that has returned an error has told the group. *)
Definition told_group (ret : bool) (err : option error) (g : G) : Prop := ret = true -> err <> None -> Wait g <> None.

Definition bus_error {A W} (b : Bus.sys A W) : option error :=
  match Bus.sys_status b with Bus.Stopped e => e | _ => None end.

Record inv (s : sys) : Prop := {
  i_app : Service.reachable cfg (application s);
  i_callBus : Bus.inv "call event" (callBus s);
  i_mediaBus : Bus.inv "media summary" (mediaBus s);
  i_calls : callsReturned s = true -> Bus.stopped (callBus s) = true;
  i_media : mediaReturned s = true -> Bus.stopped (mediaBus s) = true;
  i_done : appReturned s = true -> Service.pc (application s) = Service.Returned;
  i_store : storeOpen s = match finished s with None => true | Some _ => false end;
  i_all : finished s <> None -> callsReturned s = true /\ mediaReturned s = true /\ appReturned s = true;
  i_told_calls : told_group (callsReturned s) (bus_error (callBus s)) (group s);
  i_told_media : told_group (mediaReturned s) (bus_error (mediaBus s)) (group s);
  i_told_app : told_group (appReturned s) (Service.runErr (application s)) (group s);
  i_result : forall r, finished s = Some r -> Wait (group s) <> None -> r <> None;
}.

Lemma bus_stopped {A W} name (Write : Context -> A -> W -> option error * W) ctx b b' :
  Bus.step name Write ctx b b' -> Bus.stopped b = true -> Bus.stopped b' = true /\ bus_error b' = bus_error b.
Proof.
  intros Hs Hr. unfold bus_error, Bus.stopped in *. by destruct (Bus.stopped_step _ _ _ _ _ Hs Hr) as [-> _].
Qed.

(** A consumer that has returned no error has written everything it received. *)
Lemma bus_no_error {A W} name (b : Bus.sys A W) : Bus.inv name b -> bus_error b = None ->
  Forall (fun o => o.2 = None) (Bus.outcomes b).
Proof. intros [_ _ [?|(before & a & e & _ & _ & Hst)]] He; [done|]. unfold bus_error in He. by rewrite Hst in He. Qed.

Lemma app_returned l a a' : Service.step cfg l a a' -> Service.pc a = Service.Returned ->
  Service.pc a' = Service.Returned /\ Service.runErr a' = Service.runErr a.
Proof. intros Hs Hp. destruct Hs; cbn; try congruence; done. Qed.

Lemma app_own_ctx a a' : Service.step cfg Service.Own a a' -> Service.ctx a' = Service.ctx a.
Proof.
  intros Hs. inversion Hs; subst; cbn; try done.
  - by destruct r.
  - by destruct r.
Qed.

Lemma wait_kept r g : Wait g <> None -> Wait (returned r g) <> None.
Proof. intros Hw. rewrite wait_first. by destruct (Wait g). Qed.

Lemma wait_new_error r g : r <> None -> Wait (returned r g) <> None.
Proof. intros Hr. rewrite wait_first. by destruct (Wait g). Qed.

Lemma told_kept ret err g r : told_group ret err g -> told_group ret err (returned r g).
Proof. intros Ht Hret He. by apply wait_kept, Ht. Qed.

Ltac keep := constructor; cbn; auto; try done.

Lemma bus_inv s : inv s ->
  (forall b, calls_step (groupCtx s) (callBus s) b -> inv (set_callBus b s)) /\
  (forall b, media_step (groupCtx s) (mediaBus s) b -> inv (set_mediaBus b s)).
Proof.
  intros []. split; intros b Hb; keep.
  - by eapply Bus.bus_step_inv.
  - intros Hr. apply (bus_stopped _ _ _ _ _ Hb); auto.
  - intros Hr. destruct (bus_stopped _ _ _ _ _ Hb) as [_ ->]; auto.
  - by eapply Bus.bus_step_inv.
  - intros Hr. apply (bus_stopped _ _ _ _ _ Hb); auto.
  - intros Hr. destruct (bus_stopped _ _ _ _ _ Hb) as [_ ->]; auto.
Qed.

Lemma app_inv s l a : inv s -> Service.step cfg l (application s) a -> inv (set_application a s).
Proof.
  intros [] Hs. keep.
  - by eapply Service.service_reachable_step.
  - intros Hr. by apply (app_returned _ _ _ Hs), i_done0.
  - intros Hr. destruct (app_returned _ _ _ Hs (i_done0 Hr)) as [_ ->]. auto.
Qed.

Lemma return_inv s : inv s -> finished s = None ->
  (forall err, Bus.sys_status (callBus s) = Bus.Stopped err ->
     inv (return_to_group err true (mediaReturned s) (appReturned s) s)) /\
  (forall err, Bus.sys_status (mediaBus s) = Bus.Stopped err ->
     inv (return_to_group err (callsReturned s) true (appReturned s) s)) /\
  (Service.pc (application s) = Service.Returned ->
     inv (return_to_group (Service.runErr (application s)) (callsReturned s) (mediaReturned s) true s)).
Proof.
  intros [] Hf. split_and!.
  - intros err Hs. keep; rewrite ?Hf; try done; try by apply told_kept.
    + unfold Bus.stopped. by rewrite Hs.
    + intros _ He. apply wait_new_error. unfold bus_error in He. by rewrite Hs in He.
  - intros err Hs. keep; rewrite ?Hf; try done; try by apply told_kept.
    + unfold Bus.stopped. by rewrite Hs.
    + intros _ He. apply wait_new_error. unfold bus_error in He. by rewrite Hs in He.
  - intros Hs. keep; rewrite ?Hf; try done; try by apply told_kept. intros _ He. by apply wait_new_error.
Qed.

Lemma process_step_inv l s s' : inv s -> step l s s' -> inv s'.
Proof.
  intros Hi Hs. destruct (bus_inv s Hi) as [B1 B2].
  destruct Hs as [b s Hb|b s Hb|l a s Ha Hc _|e s He Hc|err s Hr Hst|err s Hr Hst|s Hr Hp|err s Hf H1 H2 H3|e s Hp].
  - auto.
  - auto.
  - by eapply app_inv.
  - eapply app_inv; [done | by apply Service.s_cancel].
  - apply return_inv; [done | | done]. destruct Hi. destruct (finished s) eqn:E; [|done]. destruct i_all0 as (? & _); congruence.
  - apply return_inv; [done | | done]. destruct Hi. destruct (finished s) eqn:E; [|done]. destruct i_all0 as (_ & ? & _); congruence.
  - apply return_inv; [done | | done]. destruct Hi. destruct (finished s) eqn:E; [|done]. destruct i_all0 as (_ & _ & ?); congruence.
  - destruct Hi. keep. intros r [= <-]. by destruct (Wait (group s)).
  - destruct Hi. keep.
Qed.

Lemma process_reachable_inv s : reachable s -> inv s.
Proof.
  intros (s0 & Hi & Hr).
  assert (H0s : inv s0).
  { destruct Hi as (Hp & Hg & Hc & Hm & (st & Ha) & H1 & H2 & H3 & H4 & H5).
    constructor; unfold told_group; rewrite ?H1, ?H2, ?H3, ?H4, ?H5; try done; [|by apply Bus.bus_initial_inv..].
    rewrite Ha. by exists st, None. }
  clear Hi. induction Hr as [|s1 s2 s3 [l Hl] _ IH]; eauto using process_step_inv.
Qed.

(** Claim C17. The store outlives the consumers, the application and the calls: it is
    closed only when both consumers have returned, the application has returned and
    no call is left, and no event or summary is written afterwards.  The command
    succeeds only if every event and every summary the writers were called with was
    written without an error, and the application returned no error.  (Events still
    queued are lost without an error, see [signal_loses_last_events]; REGISTER
    handlers use the store too and may still run, [run] does not wait for them.
    The limit of active calls is not negative, which [New] checks.) *)
Theorem store_closed_last s :
  0 <= MaxActiveCalls cfg -> reachable s ->
  (storeOpen s = false ->
     (exists e1, Bus.sys_status (callBus s) = Bus.Stopped e1) /\ (exists e2, Bus.sys_status (mediaBus s) = Bus.Stopped e2) /\
     Service.pc (application s) = Service.Returned /\
     Forall (fun p => p = Admission.Gone) (Admission.sessions (Service.calls (application s))) /\
     forall l s', step l s s' ->
       Bus.outcomes (callBus s') = Bus.outcomes (callBus s) /\ Bus.outcomes (mediaBus s') = Bus.outcomes (mediaBus s)) /\
  (finished s = Some None ->
     Forall (fun o => o.2 = None) (Bus.outcomes (callBus s)) /\ Forall (fun o => o.2 = None) (Bus.outcomes (mediaBus s)) /\
     Service.runErr (application s) = None).
Proof.
  intros Hm Hr. apply process_reachable_inv in Hr as []. split.
  - intros Ho. assert (Hfin : finished s <> None) by (destruct (finished s); [done | congruence]).
    destruct (i_all0 Hfin) as (Hc & Hd & Ha). specialize (i_calls0 Hc). specialize (i_media0 Hd). specialize (i_done0 Ha).
    split_and!; [unfold Bus.stopped in i_calls0; destruct (Bus.sys_status (callBus s)); by eauto
                |unfold Bus.stopped in i_media0; destruct (Bus.sys_status (mediaBus s)); by eauto|done|..].
    + apply (Service.reachable_inv cfg) in i_app0 as []; [|done]. rewrite i_done0 in *.
      eapply Admission.idle_empty; [done | by apply i_over].
    + intros l s' Hs. destruct Hs as [b s Hb|b s Hb| | | | | | |]; try done; cbn.
      * split; [|done]. by apply (Bus.stopped_step _ _ _ _ _ Hb).
      * split; [done|]. by apply (Bus.stopped_step _ _ _ _ _ Hb).
  - intros Hf. assert (Hfin : finished s <> None) by (by rewrite Hf). destruct (i_all0 Hfin) as (Hc & Hd & Ha).
    assert (Hw : Wait (group s) = None).
    { destruct (Wait (group s)) eqn:E; [|done]. by destruct (i_result0 None Hf). }
    unfold told_group in *. rewrite Hw in *. split_and!; [eapply bus_no_error; [done|]..|]; apply dec_stable; tauto.
Qed.

(** ** Termination *)

Definition own (l : Label) : bool := match l with Own | Fails => true | Other => false end.

Definition todo (b : bool) : nat := if b then 0 else 1.
Definition consuming {A W} (b : Bus.sys A W) : nat := if Bus.stopped b then 0 else 1.
Definition pending (s : sys) : nat :=
  Service.remaining (application s) + match Service.ctx (application s) with None => 1 | Some _ => 0 end +
  consuming (callBus s) + consuming (mediaBus s) +
  todo (callsReturned s) + todo (mediaReturned s) + todo (appReturned s) +
  match finished s with None => 1 | Some _ => 0 end.

Lemma consuming_step {A W} name (Write : Context -> A -> W -> option error * W) ctx b b' : Bus.step name Write ctx b b' ->
  (consuming b' + (if own (stops b b') then 1 else 0) <= consuming b)%nat.
Proof.
  intros Hs. unfold consuming, stops. destruct (Bus.stopped b) eqn:E.
  - destruct (bus_stopped _ _ _ _ _ Hs E) as [-> _]. cbn. lia.
  - destruct (Bus.stopped b'); cbn; lia.
Qed.

(** The writes in progress. *)
Definition writing {A W} (b : Bus.sys A W) : nat := length (Bus.in_hand (Bus.sys_status b)).

(** Told to stop, a consumer can return, or finish the write it is in. *)
Lemma consumer_progress {A W} name (Write : Context -> A -> W -> option error * W) e b : Bus.stopped b = false ->
  exists b', Bus.step name Write (Some e) b b' /\ (Bus.stopped b' = true \/ (writing b' < writing b)%nat).
Proof.
  intros Hs. unfold Bus.stopped, writing in *. destruct (Bus.sys_status b) as [|a|err] eqn:E; [| |done].
  - eexists. split; [eapply (Bus.step_consumer _ _ _ true (Bus.Stopped None)) | by left].
    rewrite E. cbn. by destruct (Bus.bus_items _).
  - destruct (Write (Some e) a (Bus.sys_writer b)) as [r w'] eqn:Ew. eexists.
    split; [eapply (Bus.step_consumer _ _ _ true (Bus.after_write name r) (Bus.sys_bus b) w'); rewrite E; cbn; by rewrite Ew|].
    right. destruct r; cbn; lia.
Qed.

Lemma process_pending l s s' : 0 <= MaxActiveCalls cfg -> inv s -> step l s s' ->
  (pending s' + (if own l then 1 else 0) <= pending s)%nat.
Proof.
  intros Hm Hi Hs. unfold pending.
  destruct Hs as [b s Hb|b s Hb|l a s Ha Hc _|e s He Hc|err s Hr Hst|err s Hr Hst|s Hr Hp|err s Hf H1s H2s H3s|e s Hp];
    cbn [set_callBus set_mediaBus set_application return_to_group finish application callBus mediaBus callsReturned
         mediaReturned appReturned finished].
  - pose proof (consuming_step _ _ _ _ _ Hb). lia.
  - pose proof (consuming_step _ _ _ _ _ Hb). lia.
  - assert (Hai : Service.inv cfg (application s)) by (apply Service.reachable_inv; [done | apply Hi]).
    pose proof (Service.step_remaining cfg l _ _ Hai Ha). rewrite Hc. destruct l; cbn in *; lia.
  - rewrite Hc. unfold Service.remaining. cbn. lia.
  - rewrite Hr. cbn. lia.
  - rewrite Hr. cbn. lia.
  - rewrite Hr. cbn. lia.
  - rewrite Hf. cbn. lia.
  - cbn. lia.
Qed.

Definition writes (s : sys) : nat := writing (callBus s) + writing (mediaBus s).

(** Some part of the process can go on: with a step of its own, by finishing a
    write, or, while the application waits for calls, with a step of a call. *)
Definition goes_on (s : sys) : Prop :=
  (exists s', step Own s s') \/
  (exists s', step Other s s' /\ (writes s' < writes s)%nat) \/
  Service.pc (application s) = Service.Waiting /\
  exists s', step Other s s' /\
    Admission.calls_left (Service.calls (application s')) < Admission.calls_left (Service.calls (application s)).

(** The group's context, once done, lets every part go on. *)
Lemma consumers_progress s : groupCtx s <> None -> Bus.stopped (callBus s) = false \/ Bus.stopped (mediaBus s) = false ->
  goes_on s.
Proof.
  intros Hg Hs. destruct (groupCtx s) as [e|] eqn:Hge; [|done]. destruct Hs as [Hs|Hs].
  - destruct (consumer_progress "call event" WriteCallEvent e (callBus s) Hs) as (b & Hb & Hp).
    pose proof (s_calls b s) as Hst. rewrite Hge in Hst. specialize (Hst Hb). unfold stops in Hst. rewrite Hs in Hst.
    destruct (Bus.stopped b); [left; by eexists|]. destruct Hp as [?|Hp]; [done|]. right; left. eexists. split; [done|].
    unfold writes. cbn. lia.
  - destruct (consumer_progress "media summary" WriteMediaSummary e (mediaBus s) Hs) as (b & Hb & Hp).
    pose proof (s_media b s) as Hst. rewrite Hge in Hst. specialize (Hst Hb). unfold stops in Hst. rewrite Hs in Hst.
    destruct (Bus.stopped b); [left; by eexists|]. destruct Hp as [?|Hp]; [done|]. right; left. eexists. split; [done|].
    unfold writes. cbn. lia.
Qed.

Lemma stopped_status {A W} (b : Bus.sys A W) : Bus.stopped b = true -> exists err, Bus.sys_status b = Bus.Stopped err.
Proof. unfold Bus.stopped. destruct (Bus.sys_status b); by eauto. Qed.

Lemma process_progress s : 0 <= MaxActiveCalls cfg -> inv s -> groupCtx s <> None -> finished s = None -> goes_on s.
Proof.
  intros Hm Hi Hg Hf.
  destruct (Bus.stopped (callBus s)) eqn:E1; [|by apply consumers_progress; auto].
  destruct (Bus.stopped (mediaBus s)) eqn:E2; [|by apply consumers_progress; auto].
  apply stopped_status in E1 as [err1 E1]. apply stopped_status in E2 as [err2 E2].
  destruct (groupCtx s) as [e|] eqn:Hge; [|done].
  destruct (Service.ctx (application s)) as [ce|] eqn:Hce; [|left; eexists; by eapply s_ctx].
  destruct (callsReturned s) eqn:R1; [|left; eexists; by eapply s_calls_return].
  destruct (mediaReturned s) eqn:R2; [|left; eexists; by eapply s_media_return].
  assert (Hopen : storeOpen s = true) by (destruct Hi; by rewrite Hf in *).
  assert (Hai : Service.inv cfg (application s)) by (apply Service.reachable_inv; [done | apply Hi]).
  assert (Hpc : Service.pc (application s) = Service.Returned \/ Service.pc (application s) <> Service.Returned)
    by (destruct (Service.pc (application s)); auto).
  destruct Hpc as [Hpc|Hpc].
  - left. destruct (appReturned s) eqn:R3; [|eexists; by eapply s_app_return]. eexists. by apply (s_finish None).
  - destruct (Service.run_progress cfg _ Hai) as [[a Ha]|[Hw (a & Ha & Hlt)]]; [by rewrite Hce | done | left | right; right].
    + eexists. apply (s_app Service.Own a s Ha); [by apply app_own_ctx | congruence].
    + split; [done|]. exists (set_application a s). split; [|done].
      apply (s_app Service.Other a s Ha); [inversion Ha; subst; cbn; congruence | congruence].
Qed.

(** Claim C10. The process ends.  In every interleaving the three functions of
    the group and [run] take at most 20 steps besides the delivery of events and
    the clean-ups; once the group's context is done, by a signal or because one of
    them failed, and until [run] has returned, one of them has a step to take, or
    is in a call of a writer whose return is the next step, except while the
    application waits for calls, and then a call can bring its end nearer.
    (The limit of active calls is not negative, which [New] checks.) *)
Theorem process_terminates s :
  0 <= MaxActiveCalls cfg -> reachable s ->
  (forall ls s', trace step ls s s' -> (counted_steps own ls <= 20)%nat) /\
  ((parent s <> None \/ Wait (group s) <> None) -> finished s = None ->
     (exists s', step Own s s') \/
     (exists s', step Other s s' /\ (writes s' < writes s)%nat) \/
     Service.pc (application s) = Service.Waiting /\
     exists s', step Other s s' /\
       Admission.calls_left (Service.calls (application s')) < Admission.calls_left (Service.calls (application s))).
Proof.
  intros Hm Hr. apply process_reachable_inv in Hr as Hi. split.
  - intros ls s' Ht. eapply (trace_measure step own inv pending) in Ht as [_ Hle]; [| |done].
    + assert (pending s <= 20)%nat; [|lia]. unfold pending. pose proof (Service.remaining_bound (application s)).
      unfold consuming. destruct (Service.ctx _), (Bus.stopped (callBus s)), (Bus.stopped (mediaBus s)),
        (callsReturned s), (mediaReturned s), (appReturned s), (finished s); cbn; lia.
    + intros l s1 s2 Hi1 Hs. split; [by eapply process_step_inv | by apply process_pending].
  - intros Hstop Hf. apply process_progress; auto. by apply ctx_done.
Qed.

End Process.
Arguments sys : clear implicits.

(** ** A service that is stopped by a signal *)

Notation Mem := MemoryStore.RegistrationStore.
#[local] Existing Instance SampleRun.sample_store.

Notation P := (sys Mem (option error) unit unit).

Definition write_all {A} (ctx : Context) (x : A) (w : unit) : option error * unit := (None, w).
Definition empty_bus {A} : Bus.sys A unit := Bus.mkSys (Bus.mkBus 1024 []) tt Bus.Running [] [].
Definition stopped_bus {A} : Bus.sys A unit := Bus.mkSys (Bus.mkBus 1024 []) tt (Bus.Stopped None) [] [].

Notation pstep := (step write_all write_all Main.sample_config).
Notation preachable := (reachable write_all write_all Main.sample_config).

Definition serving (parent : Context) (a : Service.sys Mem) : P :=
  mkSys parent None empty_bus empty_bus a false false false true None.

Lemma process_step l s s' : preachable s -> pstep l s s' -> preachable s'.
Proof. intros (s0 & Hi & Hr) Hs. exists s0. split; [done|]. eapply rtc_r; [exact Hr | by exists l]. Qed.

Lemma serving_step parent l a a' : preachable (serving parent a) -> Service.step Main.sample_config l a a' ->
  Service.ctx a' = Service.ctx a -> preachable (serving parent a').
Proof.
  intros Hr Hs Hc. eapply process_step; [exact Hr|].
  by apply (s_app write_all write_all Main.sample_config l a' (serving parent a) Hs Hc).
Qed.

Ltac app_back c := eapply serving_step; [|eapply c; try reflexivity; try (vm_compute; lia)|vm_compute; reflexivity].

Lemma serving_initial : preachable (serving None (Service.initial MemoryStore.NewRegistrationStore None)).
Proof.
  eexists. split; [|apply rtc_refl]. unfold initial. cbn. split_and!; try done; [by exists 1024, tt, (Bus.mkBus 1024 []), true..|by eexists].
Qed.

Lemma serving_ended : preachable (serving (Some context_Canceled) SampleRun.ended).
Proof.
  unfold SampleRun.ended. app_back Service.s_deferred. app_back Service.s_calls_gone. app_back Service.s_stop_calls.
  unfold SampleRun.drained. app_back Service.s_drained. app_back Service.s_drain. app_back Service.s_drain.
  app_back Service.s_tcp_ends. app_back Service.s_udp_ends.
  unfold SampleRun.closed. app_back Service.s_close_tcp. app_back Service.s_close_udp.
  unfold SampleRun.stopping. app_back Service.s_done.
  eapply process_step; [|eapply (s_ctx write_all write_all Main.sample_config context_Canceled (serving _ SampleRun.cleaned)); reflexivity].
  eapply process_step; [|eapply (s_signal write_all write_all Main.sample_config context_Canceled (serving None SampleRun.cleaned)); reflexivity].
  unfold SampleRun.cleaned. eapply serving_step; [|by apply Service.s_tick|reflexivity].
  unfold SampleRun.running. app_back Service.s_bind_tcp. app_back Service.s_bind_udp. exact serving_initial.
Qed.

Definition both_stopped : P :=
  set_mediaBus stopped_bus (set_callBus stopped_bus (serving (Some context_Canceled) SampleRun.ended)).
(** [s], with both consumers stopped, until [run] returns. *)
Definition leave (s : P) : P :=
  let s := return_to_group None true false false s in
  let s := return_to_group None true true false s in
  finish None (return_to_group (Service.runErr (application s)) true true true s).
Definition exited : P := leave both_stopped.

Lemma bus_told {A} name e : Bus.step name (@write_all A) (Some e) empty_bus stopped_bus.
Proof. by apply (Bus.step_consumer name write_all (Some e) true (Bus.Stopped None) (Bus.mkBus 1024 []) tt empty_bus). Qed.

Lemma both_stopped_reachable : preachable both_stopped.
Proof.
  unfold both_stopped. eapply process_step; [|eapply (s_media write_all write_all Main.sample_config stopped_bus); apply bus_told].
  eapply process_step; [exact serving_ended|]. eapply (s_calls write_all write_all Main.sample_config stopped_bus). apply bus_told.
Qed.

Lemma leave_reachable s : preachable s -> Bus.sys_status (callBus s) = Bus.Stopped None ->
  Bus.sys_status (mediaBus s) = Bus.Stopped None -> Service.pc (application s) = Service.Returned ->
  callsReturned s = false -> mediaReturned s = false -> appReturned s = false -> finished s = None ->
  preachable (leave s).
Proof.
  intros Hr Hc Hm Hp H1 H2 H3 Hf. unfold leave. eapply process_step; [|by apply s_finish].
  eapply process_step; [|by apply (s_app_return write_all write_all)].
  eapply process_step; [|by eapply (s_media_return write_all write_all)]. cbn.
  pose proof (s_calls_return write_all write_all Main.sample_config None s H1 Hc) as Hs. rewrite H2, H3 in Hs.
  by eapply process_step.
Qed.

Lemma exited_reachable : preachable exited.
Proof. by apply leave_reachable; [exact both_stopped_reachable|..]. Qed.

(** A signal can lose the end of a call: the consumer of the call bus stops at
    once, while the application still ends its calls; what these publish stays in
    the queue, and the command exits without an error. *)
Theorem signal_loses_last_events : exists s : P,
  preachable s /\ finished s = Some None /\ storeOpen s = false /\
  Bus.sent (callBus s) = [terminal_event] /\ Bus.outcomes (callBus s) = [].
Proof.
  exists (leave (set_callBus cancelled_bus both_stopped)). split; [|done]. apply leave_reachable; try done.
  eapply process_step; [exact both_stopped_reachable|].
  eapply (s_calls write_all write_all Main.sample_config cancelled_bus both_stopped).
  apply (Bus.step_publish _ write_all _ None terminal_event (bus_1024 [terminal_event]) None). by constructor.
Qed.

Lemma store_closed_last_witness :
  storeOpen exited = false /\ finished exited = Some None /\ Forall (fun o => o.2 = None) (Bus.outcomes (callBus exited)) /\
  Service.pc (application exited) = Service.Returned.
Proof.
  split; [reflexivity|]. split; [reflexivity|].
  destruct (store_closed_last write_all write_all Main.sample_config exited ltac:(by vm_compute) exited_reachable) as [Ho Hf].
  split; [apply Hf; reflexivity | apply Ho; reflexivity].
Defined.

Lemma process_terminates_witness :
  finished both_stopped = None /\ writes both_stopped = 0%nat /\ exists s', pstep Own both_stopped s'.
Proof.
  split; [reflexivity|]. split; [reflexivity|].
  destruct (process_terminates write_all write_all Main.sample_config both_stopped ltac:(by vm_compute) both_stopped_reachable)
    as [_ Hp].
  destruct Hp as [Hs|[(s' & _ & Hw)|[Hw _]]]; [left; discriminate | reflexivity | exact Hs | exfalso | discriminate Hw].
  change (writes both_stopped) with 0%nat in Hw. lia.
Defined.

End Process.
