(* ===== verification/SpikeSipgo.v ===== *)
(** * The SIP listener spike

    Models [spikes/sipgo/server.go] and its command: a server that answers OPTIONS
    on a UDP and a TCP socket until its context is done or a listener ends.  [Run]
    and its two serving goroutines are one system with an executable step
    function; what sipgo and the system calls return comes with the events. *)

From S2P Require Import Prelude.

Definition listenerCount : nat := 2.

Record Config := mkConfig { UDPAddr : string; TCPAddr : string }.

Definition NewServer (cfg : Config) : result Config :=
  _ ← guard_err (String.eqb (UDPAddr cfg) "") "udp address is required";
  _ ← guard_err (String.eqb (TCPAddr cfg) "") "tcp address is required";
  Ok cfg.

Lemma NewServer_accepts cfg : is_Ok (NewServer cfg) = true <-> UDPAddr cfg <> ""%string /\ TCPAddr cfg <> ""%string.
Proof.
  unfold NewServer, guard_err. destruct (String.eqb_spec (UDPAddr cfg) ""), (String.eqb_spec (TCPAddr cfg) ""); cbn; naive_solver.
Qed.

Definition net_ErrClosed : string := "use of closed network connection".
Definition normalizeServeError (err : option error) : option error :=
  if errors_Is_opt err net_ErrClosed || errors_Is_opt err "context canceled" then None else err.

(** [respondOK] answers every request with the same response; the error of
    [Respond] is dropped. *)
Definition respondOK : Z * string := (200, "OK"%string).

(** Where the goroutine of [Run] is: the calls it makes, in order. *)
Inductive PC :=
| CreateUA | CreateServer | BindUDP | BindTCP
| Select
| CloseUDP | CloseTCP (udpErr : option error)
| Drain
| CloseUA (runErr : option error)        (* the deferred function, after the return value is set *)
| Returned (runErr : option error).

Inductive SockState := Unbound | Bound (address : string) | Released.
Inductive UAState := NoUA | UAOpen | UAClosed.

Section Server.
Variable cfg : Config.

Record sys := mkSys {
  pc : PC;
  ctx : Context;
  runErr : option error;                 (* in the body, before the return *)
  receivedErrors : nat;
  errorsByListener : list (option error);  (* the channel *)
  udpConn : SockState; tcpListener : SockState;
  servingUDP : bool; servingTCP : bool;
  ready : bool; ua : UAState;
  faults : list error;                   (* a ghost: what went wrong while serving *)
}.

Definition initial (c : Context) : sys := mkSys CreateUA c None 0 [] Unbound Unbound false false false NoUA [].

Definition goto (p : PC) (s : sys) : sys :=
  mkSys p (ctx s) (runErr s) (receivedErrors s) (errorsByListener s) (udpConn s) (tcpListener s)
    (servingUDP s) (servingTCP s) (ready s) (ua s) (faults s).
Definition sockets (u t : SockState) (s : sys) : sys :=
  mkSys (pc s) (ctx s) (runErr s) (receivedErrors s) (errorsByListener s) u t
    (servingUDP s) (servingTCP s) (ready s) (ua s) (faults s).
Definition set_ua (u : UAState) (s : sys) : sys :=
  mkSys (pc s) (ctx s) (runErr s) (receivedErrors s) (errorsByListener s) (udpConn s) (tcpListener s)
    (servingUDP s) (servingTCP s) (ready s) u (faults s).
(** [runErr = errors.Join(runErr, errs...)] *)
Definition join (errs : list (option error)) (s : sys) : sys :=
  mkSys (pc s) (ctx s) (errors_Join (runErr s :: errs)) (receivedErrors s) (errorsByListener s) (udpConn s) (tcpListener s)
    (servingUDP s) (servingTCP s) (ready s) (ua s) (faults s ++ omap id errs).
(** [runErr = err] *)
Definition set_error (err : option error) (s : sys) : sys :=
  mkSys (pc s) (ctx s) err (receivedErrors s) (errorsByListener s) (udpConn s) (tcpListener s)
    (servingUDP s) (servingTCP s) (ready s) (ua s) (faults s ++ omap id [err]).
Definition take_result (rest : list (option error)) (s : sys) : sys :=
  mkSys (pc s) (ctx s) (runErr s) (S (receivedErrors s)) rest (udpConn s) (tcpListener s)
    (servingUDP s) (servingTCP s) (ready s) (ua s) (faults s).
Definition note (fs : list error) (s : sys) : sys :=
  mkSys (pc s) (ctx s) (runErr s) (receivedErrors s) (errorsByListener s) (udpConn s) (tcpListener s)
    (servingUDP s) (servingTCP s) (ready s) (ua s) (faults s ++ fs).
(** Both sockets are bound: the goroutines start and [ready] is closed. *)
Definition serve (s : sys) : sys :=
  mkSys Select (ctx s) None 0 [] (udpConn s) (Bound (TCPAddr cfg)) true true true (ua s) [].

(** The last lines of the body: nil, or the error wrapped. *)
Definition wrap_result (err : option error) : option error :=
  match err with None => None | Some e => Some (Errorf "serve SIP listeners" [e]) end.

(** What happens next: [Run] makes the call it is at, with this error; the UDP
    listener has another type; [Run] sees its context done, receives a result, or
    has received them all; a serving goroutine ends; the context is cancelled. *)
Inductive Event :=
| Call (err : option error)
| WrongType
| SeeDone
| Receive | LoopEnds
| UDPEnds (err : option error) | TCPEnds (err : option error)
| Cancel (e : error).

Definition run_call (err : option error) (s : sys) : option sys :=
  match pc s with
  | CreateUA =>
      Some match err with
           | Some e => goto (Returned (Some (Errorf "create SIP user agent" [e]))) s
           | None => goto CreateServer (set_ua UAOpen s)
           end
  | CreateServer =>
      Some match err with Some e => goto (CloseUA (Some (Errorf "create SIP server" [e]))) s | None => goto BindUDP s end
  | BindUDP =>
      Some match err with
           | Some e => goto (CloseUA (Some (Errorf "listen on SIP UDP address" [e]))) s
           | None => goto BindTCP (sockets (Bound (UDPAddr cfg)) (tcpListener s) s)
           end
  | BindTCP =>
      Some match err with
           | Some e => goto (CloseUA (Some (Errorf "listen on SIP TCP address" [e]))) (sockets Released (tcpListener s) s)
           | None => serve s
           end
  | CloseUDP => Some (goto (CloseTCP err) (sockets Released (tcpListener s) s))
  | CloseTCP udpErr =>
      Some (goto Drain (join [normalizeServeError udpErr; normalizeServeError err] (sockets (udpConn s) Released s)))
  | CloseUA r => Some (goto (Returned (errors_Join [r; err])) (note (option_list err) (set_ua UAClosed s)))
  | _ => None
  end.

Definition sys_step (e : Event) (s : sys) : option sys :=
  match e with
  | Call err => run_call err s
  | WrongType =>
      match pc s with
      | BindUDP => Some (goto (CloseUA (Some (Errorf "sip UDP listener has unexpected type" []))) (sockets Released (tcpListener s) s))
      | _ => None
      end
  | SeeDone => match pc s, ctx s with Select, Some _ => Some (goto CloseUDP s) | _, _ => None end
  | Receive =>
      match pc s, errorsByListener s with
      | Select, err :: rest => Some (goto CloseUDP (set_error (normalizeServeError err) (take_result rest s)))
      | Drain, err :: rest =>
          if (receivedErrors s <? listenerCount)%nat
          then Some (join [normalizeServeError err] (take_result rest s)) else None
      | _, _ => None
      end
  | LoopEnds =>
      match pc s with
      | Drain => if (receivedErrors s <? listenerCount)%nat then None else Some (goto (CloseUA (wrap_result (runErr s))) s)
      | _ => None
      end
  | UDPEnds err =>
      if servingUDP s then Some (mkSys (pc s) (ctx s) (runErr s) (receivedErrors s) (errorsByListener s ++ [err])
        (udpConn s) (tcpListener s) false (servingTCP s) (ready s) (ua s) (faults s)) else None
  | TCPEnds err =>
      if servingTCP s then Some (mkSys (pc s) (ctx s) (runErr s) (receivedErrors s) (errorsByListener s ++ [err])
        (udpConn s) (tcpListener s) (servingUDP s) false (ready s) (ua s) (faults s)) else None
  | Cancel e =>
      match ctx s with
      | None => Some (mkSys (pc s) (Some e) (runErr s) (receivedErrors s) (errorsByListener s)
          (udpConn s) (tcpListener s) (servingUDP s) (servingTCP s) (ready s) (ua s) (faults s))
      | Some _ => None
      end
  end.

Definition step (e : Event) (s s' : sys) : Prop := sys_step e s = Some s'.
Definition reachable (s : sys) : Prop := exists es c, trace step es (initial c) s.

(** ** The invariant *)

Definition busy (b : bool) : nat := if b then 1 else 0.

Definition sockets_at (p : PC) (isReady : bool) (u t : SockState) : Prop :=
  match p with
  | CreateUA | CreateServer | BindUDP => u = Unbound /\ t = Unbound
  | BindTCP => u = Bound (UDPAddr cfg) /\ t = Unbound
  | Select | CloseUDP => u = Bound (UDPAddr cfg) /\ t = Bound (TCPAddr cfg)
  | CloseTCP _ => u = Released /\ t = Bound (TCPAddr cfg)
  | Drain => u = Released /\ t = Released
  | CloseUA _ | Returned _ => u <> Bound (UDPAddr cfg) /\ (if isReady then t = Released else t = Unbound)
  end.

Definition ua_at (p : PC) (u : UAState) : Prop :=
  match p with CreateUA => u = NoUA | Returned _ => u <> UAOpen | _ => u = UAOpen end.

Definition ready_at (p : PC) (isReady : bool) : Prop :=
  match p with
  | CreateUA | CreateServer | BindUDP | BindTCP => isReady = false
  | CloseUA _ | Returned _ => True
  | _ => isReady = true
  end.

Record inv (s : sys) : Prop := {
  i_sockets : sockets_at (pc s) (ready s) (udpConn s) (tcpListener s);
  i_ua : ua_at (pc s) (ua s);
  i_ready : ready_at (pc s) (ready s);
  i_count : (receivedErrors s + length (errorsByListener s) + busy (servingUDP s) + busy (servingTCP s))%nat
            = if ready s then listenerCount else 0%nat;
  i_all : match pc s with CloseUA _ | Returned _ => ready s = true -> receivedErrors s = listenerCount | _ => True end;
  i_clean : match pc s with CreateUA | CreateServer | BindUDP | BindTCP | Select => runErr s = None /\ faults s = [] | _ => True end;
  i_faults : match pc s with Returned _ => True | _ => runErr s = None <-> faults s = [] end;
  i_result : match pc s with
             | CloseUA r | Returned r => if ready s then r = None <-> faults s = [] else r <> None
             | _ => True
             end;
}.

Lemma sipgo_initial_inv c : inv (initial c).
Proof. by constructor. Qed.

(** The fields of the invariant after a step that is known by its program counter. *)
Ltac fields := constructor; cbn; auto; try done.

Lemma run_call_inv err s s' : inv s -> run_call err s = Some s' -> inv s'.
Proof.
  intros Hi Hs. unfold run_call in Hs. destruct Hi. destruct s as [p c r n q u t su st rd a fs]; cbn in *.
  destruct p as [| | | | | |udpErr| |r'|]; cbn in *; try done; destruct_and?; subst; simplify_eq.
  - destruct err; fields.
  - destruct err; fields.
  - destruct err; fields.
  - destruct err; fields.
  - fields.
  - fields. by apply join_faults.
  - fields. change (option_list err) with (omap id [err]). destruct rd; [by apply join_faults|]. by destruct r', err.
Qed.

Lemma sipgo_step_inv e s s' : inv s -> step e s s' -> inv s'.
Proof.
  intros Hi Hs. unfold step, sys_step in Hs. destruct e as [err| | | | |err|err|e]; [by eapply run_call_inv|..];
    destruct Hi; destruct s as [p c r n q u t su st rd a fs]; unfold listenerCount in *; cbn in *.
  - destruct p; cbn in *; try done. destruct_and?. simplify_eq. fields.
  - destruct p, c; cbn in *; try done. simplify_eq. fields.
  - destruct p; cbn in *; try done; destruct q as [|err rest]; try done; destruct_and?; subst.
    + simplify_eq. fields; [unfold listenerCount; cbn in *; lia|]. by destruct (normalizeServeError err).
    + destruct (Nat.leb_spec n 1); simplify_eq. fields; [unfold listenerCount; cbn in *; lia|]. by apply join_faults.
  - destruct p; cbn in *; try done. destruct (Nat.leb_spec n 1); simplify_eq. destruct_and?; subst. fields.
    + unfold listenerCount. cbn in *. lia.
    + rewrite <- i_faults0. by destruct r.
  - destruct su; [|done]. simplify_eq. fields. rewrite length_app. unfold listenerCount. cbn in *. lia.
  - destruct st; [|done]. simplify_eq. fields. rewrite length_app. unfold listenerCount. cbn in *. lia.
  - destruct c; [done|]. simplify_eq. fields.
Qed.

Lemma sipgo_reachable_inv s : reachable s -> inv s.
Proof.
  intros (es & c & Ht). pose proof (sipgo_initial_inv c) as Hi. revert Hi. induction Ht; eauto using sipgo_step_inv.
Qed.

(** When [Run] has returned, no socket is bound, both serving goroutines
    have ended and their results were received, and the user agent is closed (or
    was never created).  It returns nil exactly when it got as far as serving and
    nothing but a closed socket or a cancelled context was reported by a listener,
    by a close or by the user agent. *)
Theorem sipgo_run_returns s r :
  reachable s -> pc s = Returned r ->
  udpConn s <> Bound (UDPAddr cfg) /\ tcpListener s <> Bound (TCPAddr cfg) /\ ua s <> UAOpen /\
  servingUDP s = false /\ servingTCP s = false /\ errorsByListener s = [] /\
  (r = None <-> ready s = true /\ faults s = []).
Proof.
  intros Hr Hpc. destruct (sipgo_reachable_inv s Hr). rewrite Hpc in *. cbn in *. destruct i_sockets0 as [Hu Ht].
  assert (busy (servingUDP s) = 0%nat /\ busy (servingTCP s) = 0%nat /\ length (errorsByListener s) = 0%nat) as (H1 & H2 & H3).
  { unfold listenerCount in *. destruct (ready s); [specialize (i_all0 eq_refl)|]; lia. }
  split_and!; auto.
  - by destruct (ready s); rewrite Ht.
  - by destruct (servingUDP s).
  - by destruct (servingTCP s).
  - by apply nil_length_inv.
  - destruct (ready s); [tauto|]. split; [done | intros [? _]; done].
Qed.

(** ** Termination *)

Definition rank (p : PC) : nat :=
  match p with
  | CreateUA => 8 | CreateServer => 7 | BindUDP => 6 | BindTCP => 5 | Select => 4 | CloseUDP => 3 | CloseTCP _ => 2
  | Drain => 2 | CloseUA _ => 1 | Returned _ => 0
  end.
Definition remaining (s : sys) : nat :=
  2 * rank (pc s) + match pc s with CloseTCP _ => 1 | _ => 0 end + (2 - receivedErrors s)
  + (if ready s then busy (servingUDP s) + busy (servingTCP s) else 2).
Definition own (e : Event) : bool := match e with Cancel _ => false | _ => true end.

Lemma sys_step_remaining e s s' : inv s -> step e s s' -> (remaining s' + (if own e then 1 else 0) <= remaining s)%nat.
Proof.
  intros Hi Hs. unfold step, sys_step, run_call in Hs. destruct Hi.
  destruct s as [p c r n q u t su st rd a fs]; unfold remaining, listenerCount in *; cbn in *.
  destruct e as [err| | | | |err|err|e]; cbn.
  - destruct p; cbn in *; try done; destruct err; simplify_eq; cbn; try lia; destruct rd; cbn in *; lia.
  - destruct p; cbn in *; try done. simplify_eq. cbn. lia.
  - destruct p, c; cbn in *; try done. simplify_eq. cbn. lia.
  - destruct p; cbn in *; try done; destruct q; try done; [|destruct (Nat.leb_spec n 1); [|done]];
      simplify_eq; cbn in *; lia.
  - destruct p; cbn in *; try done. destruct (Nat.leb_spec n 1); simplify_eq. cbn. lia.
  - destruct su; [|done]. simplify_eq. cbn. destruct rd; cbn in *; lia.
  - destruct st; [|done]. simplify_eq. cbn. destruct rd; cbn in *; lia.
  - destruct c; [done|]. simplify_eq. cbn. lia.
Qed.

Lemma remaining_initial c : remaining (initial c) = 20%nat.
Proof. done. Qed.

(** Once the context is done, [Run] or a serving goroutine can go on. *)
Lemma sipgo_progress s : inv s -> ctx s <> None -> (forall r, pc s <> Returned r) -> exists e s', own e = true /\ step e s s'.
Proof.
  intros Hi Hc Hp. unfold step. destruct Hi. destruct s as [p c r n q u t su st rd a fs]; cbn in *.
  destruct c as [c|]; [|done].
  assert (Hcall : forall s', run_call None (mkSys p (Some c) r n q u t su st rd a fs) = Some s' ->
            exists e s', own e = true /\ sys_step e (mkSys p (Some c) r n q u t su st rd a fs) = Some s')
    by (intros s' ?; by exists (Call None), s').
  destruct p; try (eapply Hcall; reflexivity); [by exists SeeDone; eexists | | by destruct (Hp runErr0)].
  cbn in i_ready0. subst rd. unfold listenerCount in *.
  destruct (Nat.leb_spec n 1) as [Hn|Hn].
  - destruct q as [|err rest]; [|exists Receive; eexists; split; [done|]; cbn; rewrite (proj2 (Nat.leb_le n 1) Hn); reflexivity].
    destruct su; [by exists (UDPEnds None); eexists|]. destruct st; [by exists (TCPEnds None); eexists|]. cbn in *. lia.
  - exists LoopEnds. eexists. split; [done|]. cbn. destruct (Nat.leb_spec n 1); [lia | reflexivity].
Qed.

Lemma sipgo_steps_bounded es c s : trace step es (initial c) s -> (counted_steps own es <= 20)%nat.
Proof.
  intros Ht. eapply (trace_measure step own inv remaining) in Ht as [_ Hle];
    [rewrite remaining_initial in Hle; lia | | apply sipgo_initial_inv].
  intros e s1 s2 Hi Hs. split; [by eapply sipgo_step_inv | by apply sys_step_remaining].
Qed.

(** [Run] ends: in every interleaving it and its goroutines take at
    most 20 steps, and from the moment its context is done one of them can take
    the next step until it has returned. *)
Theorem sipgo_run_terminates es c s :
  trace step es (initial c) s ->
  (counted_steps own es <= 20)%nat /\
  (ctx s <> None -> (forall r, pc s <> Returned r) -> exists e s', own e = true /\ step e s s').
Proof.
  intros Ht. split; [by eapply sipgo_steps_bounded|]. intros. apply sipgo_progress; [|done..].
  apply sipgo_reachable_inv. by exists es, c.
Qed.

End Server.

(** ** Sample runs and the command *)

Module SampleServer.

Definition default_config : Config := mkConfig "127.0.0.1:15060" "127.0.0.1:15060".
Definition closed_err : option error := Some (Sentinel net_ErrClosed).

(** Both sockets are bound and served, the context is cancelled, both listeners
    report their closed socket. *)
Definition stopped : list Event :=
  [Call None; Call None; Call None; Call None; Cancel context_Canceled; SeeDone; Call None; Call None;
   UDPEnds closed_err; TCPEnds closed_err; Receive; Receive; LoopEnds; Call None].
Definition final : sys := default (initial None) (schedule (sys_step default_config) stopped (initial None)).

Lemma stopped_trace : trace (step default_config) stopped (initial None) final.
Proof. apply schedule_trace. vm_compute. reflexivity. Qed.

Lemma sipgo_run_returns_witness : pc final = Returned None /\ ready final = true /\ faults final = [].
Proof.
  split; [by vm_compute|].
  apply (sipgo_run_returns default_config final None); [exists stopped, None; exact stopped_trace | by vm_compute | by vm_compute].
Defined.

Lemma sipgo_run_terminates_witness : (counted_steps own stopped <= 20)%nat /\ pc final = Returned None.
Proof.
  split; [|by vm_compute]. apply (sipgo_run_terminates default_config stopped None final). exact stopped_trace.
Defined.

(** Unlike [App.Run], [Run] does not call it an error when a listener ends by
    itself without one. *)
Definition silent_end : list Event :=
  [Call None; Call None; Call None; Call None; UDPEnds None; Receive; Call None; Call None; TCPEnds closed_err; Receive;
   LoopEnds; Call None].
Example silent_end_ok : pc <$> schedule (sys_step default_config) silent_end (initial None) = Some (Returned None).
Proof. reflexivity. Qed.

(** The exit code of the command, when [Run] has returned [err]. *)
Definition exit_code (cfg : Config) (err : option error) : Z :=
  match NewServer cfg, err with
  | Ok _, None => 0
  | _, _ => 1
  end.

End SampleServer.
