(* ===== verification/SpikeEcho.v ===== *)
(** * The RTP echo spike

    Models [spikes/diago/echo.go] and its command: one media session of Diago on a
    UDP port sends every G.711 packet back to where it came from, until the
    context is cancelled, no packet has arrived for a while, or something fails.
    [Run]'s loop recurses on the rounds it goes through: what the calls of Diago
    return, the clock and the context are part of a round. *)

From S2P Require Import Prelude.

Definition readPollInterval : Duration := 200 * Millisecond.
Definition ErrIdleTimeout : error := Sentinel "rtp idle timeout".
Definition net_ErrClosed : string := "use of closed network connection".

(** [BindIP] is nil when the address was not given or does not parse. *)
Record Config := mkConfig { BindIP : option string; Port : Z; IdleTimeout : Duration }.

Definition NewEcho (cfg : Config) : result Config :=
  _ ← guard_err (match BindIP cfg with None => true | Some _ => false end) "bind IP is required";
  _ ← guard_err ((Port cfg <? 0) || (65534 <? Port cfg)) "port must be between 0 and 65534";
  _ ← guard_err (IdleTimeout cfg <=? 0) "idle timeout must be positive";
  Ok cfg.

Lemma NewEcho_accepts cfg : is_Ok (NewEcho cfg) = true <->
  (exists ip, BindIP cfg = Some ip) /\ 0 <= Port cfg <= 65534 /\ 0 < IdleTimeout cfg.
Proof.
  unfold NewEcho, guard_err. destruct (BindIP cfg) as [ip|]; cbn; [|split; [done | naive_solver]].
  destruct (Port cfg <? 0) eqn:E1; cbn; bool_prop; [split; [done | lia]|].
  destruct (65534 <? Port cfg) eqn:E2; cbn; bool_prop; [split; [done | lia]|].
  destruct (IdleTimeout cfg <=? 0) eqn:E3; cbn; bool_prop; [split; [done | lia]|].
  split; [|done]. split; [eauto | lia].
Qed.

(** Diago's G.711 codecs: their RTP payload types. *)
Definition CodecAudioUlaw : Z := 0.
Definition CodecAudioAlaw : Z := 8.

Section Echo.
Context {Packet : Type} (PayloadType : Packet -> Z).
Variable idleTimeout : Duration.

(** What [ReadRTP] gives: a packet and the address it came from, or an error
    that may be a timeout. *)
Inductive Source := UDPAddr (addr : string) | OtherAddr.
Inductive Read := Got (packet : Packet) (from : Source) | ReadFailed (err : error) (timeout : bool).

(** One round of the loop. *)
Record Round := mkRound {
  deadlineErr : option error;   (* session.StopRTP *)
  read : Read;
  ctx : Context;                (* after the read *)
  since : Time;                 (* the clock when [time.Since] is called *)
  writeErr : option error;      (* session.WriteRTP *)
  echoedAt : Time;              (* the clock after the write *)
}.

(** How a round ends: the loop goes on with a new [lastPacketAt], or returns. *)
Inductive Next := Continue (lastPacketAt : Time) | Return (err : option error).

(** A round and the packet it has sent, with its destination; nothing is sent when
    [WriteRTP] fails. *)
Definition round (r : Round) (lastPacketAt : Time) : Next * option (Packet * string) :=
  match deadlineErr r with
  | Some e => (Return (Some (Errorf "set RTP read deadline" [e])), None)
  | None =>
      match read r with
      | ReadFailed readErr timeout =>
          if errors_Is readErr net_ErrClosed && match ctx r with Some _ => true | None => false end
          then (Return None, None)
          else if timeout then
            match ctx r with
            | Some _ => (Return None, None)
            | None =>
                if idleTimeout <=? time_Sub (since r) lastPacketAt then (Return (Some ErrIdleTimeout), None)
                else (Continue lastPacketAt, None)
            end
          else (Return (Some (Errorf "read RTP" [readErr])), None)
      | Got packet from =>
          if negb (PayloadType packet =? CodecAudioUlaw) && negb (PayloadType packet =? CodecAudioAlaw)
          then (Return (Some (Errorf "unsupported RTP payload type" [])), None)
          else
            match from with
            | OtherAddr => (Return (Some (Errorf "rtp source is not UDP" [])), None)
            | UDPAddr addr =>
                match writeErr r with
                | Some e => (Return (Some (Errorf "echo RTP" [e])), None)
                | None => (Continue (echoedAt r), Some (packet, addr))
                end
            end
      end
  end.

(** The loop: the packets [WriteRTP] has sent, and what [Run] returns, or the
    value of [lastPacketAt] when the rounds are used up. *)
Fixpoint loop (rounds : list Round) (lastPacketAt : Time) : list (Packet * string) * Next :=
  match rounds with
  | [] => ([], Continue lastPacketAt)
  | r :: rest =>
      let '(next, sent) := round r lastPacketAt in
      match next with
      | Return e => (option_list sent, Return e)
      | Continue t => let '(out, e) := loop rest t in (option_list sent ++ out, e)
      end
  end.

(** [Run]: the session is created, the loop runs from [start], the deferred
    function closes the session. *)
Definition Run (created : option error) (start : Time) (rounds : list Round) (closeErr : option error)
    : list (Packet * string) * Next :=
  match created with
  | Some e => ([], Return (Some (Errorf "create Diago media session" [e])))
  | None =>
      let '(out, next) := loop rounds start in
      (out, match next with Return e => Return (errors_Join [e; closeErr]) | Continue t => Continue t end)
  end.

(** ** The echo *)

Definition g711 (p : Packet) : Prop := PayloadType p = CodecAudioUlaw \/ PayloadType p = CodecAudioAlaw.

(** The packet the echo sends back in a round: a G.711 packet received over UDP
    that could be written. *)
Definition echoed (r : Round) : list (Packet * string) :=
  match deadlineErr r, read r, writeErr r with
  | None, Got packet (UDPAddr addr), None =>
      if (PayloadType packet =? CodecAudioUlaw) || (PayloadType packet =? CodecAudioAlaw) then [(packet, addr)] else []
  | _, _, _ => []
  end.

Lemma round_sends r t : option_list (round r t).2 = echoed r.
Proof.
  unfold round, echoed. destruct (deadlineErr r), (read r) as [p from|]; [done..| |repeat case_any; done].
  destruct (PayloadType p =? CodecAudioUlaw), (PayloadType p =? CodecAudioAlaw), from; cbn; try done;
    by destruct (writeErr r).
Qed.

(** When a round is the last one because nobody sends any more. *)
Definition idle (r : Round) (lastPacketAt : Time) : Prop :=
  deadlineErr r = None /\ ctx r = None /\ idleTimeout <= time_Sub (since r) lastPacketAt /\
  exists e, read r = ReadFailed e true.

Lemma round_idle r t : (round r t).1 = Return (Some ErrIdleTimeout) <-> idle r t.
Proof.
  unfold round, idle. split.
  - intros H. repeat case_any; cbn in *; simplify_eq; bool_prop; destruct_or?; try done; eauto 10.
  - intros (-> & -> & Hi & e & ->). rewrite andb_false_r. apply Z.leb_le in Hi. by rewrite Hi.
Qed.

(** What ends [Run] in a round, and with which error: the deadline cannot be set; the
    read finds the socket closed after cancellation, times out after cancellation,
    times out when nothing was sent back for the idle timeout, or fails otherwise; the
    packet is not G.711; it did not come over UDP; it cannot be written. *)
Inductive ends (r : Round) (lastPacketAt : Time) : option error -> Prop :=
| ends_deadline e : deadlineErr r = Some e -> ends r lastPacketAt (Some (Errorf "set RTP read deadline" [e]))
| ends_closed e timeout c : deadlineErr r = None -> read r = ReadFailed e timeout -> errors_Is e net_ErrClosed = true ->
    ctx r = Some c -> ends r lastPacketAt None
| ends_cancelled e c : deadlineErr r = None -> read r = ReadFailed e true -> ctx r = Some c -> ends r lastPacketAt None
| ends_idle : idle r lastPacketAt -> ends r lastPacketAt (Some ErrIdleTimeout)
| ends_read e : deadlineErr r = None -> read r = ReadFailed e false -> errors_Is e net_ErrClosed = false \/ ctx r = None ->
    ends r lastPacketAt (Some (Errorf "read RTP" [e]))
| ends_payload p from : deadlineErr r = None -> read r = Got p from -> ~ g711 p ->
    ends r lastPacketAt (Some (Errorf "unsupported RTP payload type" []))
| ends_source p : deadlineErr r = None -> read r = Got p OtherAddr -> g711 p ->
    ends r lastPacketAt (Some (Errorf "rtp source is not UDP" []))
| ends_write p addr e : deadlineErr r = None -> read r = Got p (UDPAddr addr) -> g711 p -> writeErr r = Some e ->
    ends r lastPacketAt (Some (Errorf "echo RTP" [e])).

Lemma g711_spec p : negb (PayloadType p =? CodecAudioUlaw) && negb (PayloadType p =? CodecAudioAlaw) = false <-> g711 p.
Proof. unfold g711. rewrite andb_false_iff, !negb_false_iff, !Z.eqb_eq. done. Qed.

Lemma round_ends r t e : (round r t).1 = Return e <-> ends r t e.
Proof.
  split.
  - unfold round. destruct (deadlineErr r) as [d|] eqn:Hd; [intros [= <-]; by apply ends_deadline|].
    destruct (read r) as [p from|err timeout] eqn:Hr.
    + destruct (negb _ && negb _) eqn:Hg.
      { intros [= <-]. eapply ends_payload; [done..|]. by rewrite <- g711_spec, Hg. }
      apply g711_spec in Hg. destruct from as [addr|]; [|intros [= <-]; by eapply ends_source].
      destruct (writeErr r) as [w|] eqn:Hw; [|done]. intros [= <-]. by eapply ends_write.
    + destruct (ctx r) as [c|] eqn:Hc; rewrite ?andb_true_r, ?andb_false_r.
      * destruct (errors_Is err net_ErrClosed) eqn:Hcl; [intros [= <-]; by eapply ends_closed|].
        destruct timeout; [intros [= <-]; by eapply ends_cancelled | intros [= <-]; apply ends_read; auto].
      * destruct timeout; [|intros [= <-]; apply ends_read; auto].
        destruct (idleTimeout <=? _) eqn:Hi; [|done]. intros [= <-]. apply ends_idle. bool_prop. unfold idle. eauto 10.
  - destruct 1 as [d Hd|err timeout c Hd Hr Hcl Hc|err c Hd Hr Hc|Hi|err Hd Hr Hcl|p from Hd Hr Hg|p Hd Hr Hg|p addr w Hd Hr Hg Hw];
      [unfold round; by rewrite Hd|..|unfold round; rewrite Hd, Hr, (proj2 (g711_spec p) Hg), Hw; done].
    + unfold round. by rewrite Hd, Hr, Hcl, Hc.
    + unfold round. rewrite Hd, Hr, Hc. by destruct (_ && _).
    + by apply round_idle.
    + unfold round. rewrite Hd, Hr. by destruct Hcl as [-> | ->]; rewrite ?andb_false_r.
    + unfold round. rewrite Hd, Hr. destruct (negb _ && negb _) eqn:E; [done|]. by apply g711_spec in E.
    + unfold round. by rewrite Hd, Hr, (proj2 (g711_spec p) Hg).
Qed.

(** When the last packet was sent, before the loop is entered for a round. *)
Definition sent_at (r : Round) : list Time := match echoed r with [] => [] | _ => [echoedAt r] end.
Definition last_sent (rounds : list Round) (start : Time) : Time := default start (last (concat (sent_at <$> rounds))).

#[local] Arguments last_sent : simpl never.

Lemma round_continues r t t' : (round r t).1 = Continue t' -> t' = last_sent [r] t.
Proof.
  unfold last_sent, sent_at. pose proof (round_sends r t) as Hs. cbn. rewrite app_nil_r, <- Hs.
  unfold round. intros H. repeat case_any; cbn in *; simplify_eq; done.
Qed.

Lemma last_sent_app l k t : last_sent (l ++ k) t = last_sent k (last_sent l t).
Proof.
  unfold last_sent. rewrite fmap_app, concat_app. destruct (concat (sent_at <$> k)) as [|x m] eqn:E using rev_ind.
  - cbn. by rewrite app_nil_r.
  - rewrite app_assoc, !last_snoc. done.
Qed.

(** How the loop gets through a list of rounds. *)
Lemma loop_app l k t : loop (l ++ k) t =
  match loop l t with
  | (out, Continue t') => let '(out', e) := loop k t' in (out ++ out', e)
  | (out, Return e) => (out, Return e)
  end.
Proof.
  revert t; induction l as [|r l IH]; intros t; cbn; [by destruct (loop k t)|].
  destruct (round r t) as [[t'|e] sent]; [|done]. rewrite IH.
  destruct (loop l t') as [out [t''|e]]; [|done]. destruct (loop k t''). by rewrite app_assoc.
Qed.

Lemma loop_continues l t t' : (loop l t).2 = Continue t' -> t' = last_sent l t.
Proof.
  revert t; induction l as [|r l IH]; intros t; cbn; [by intros [= ->]|].
  destruct (round r t) as [[t1|e] sent] eqn:E; [|done]. specialize (IH t1).
  destruct (loop l t1) as [out n]; cbn in *. intros H. rewrite (IH H).
  change (last_sent (r :: l) t) with (last_sent ([r] ++ l) t). rewrite last_sent_app. f_equal. eapply round_continues. by rewrite E.
Qed.

Lemma loop_returns rounds start e : (loop rounds start).2 = Return e ->
  exists before r after, rounds = before ++ r :: after /\
    (loop before start).2 = Continue (last_sent before start) /\ (round r (last_sent before start)).1 = Return e.
Proof.
  induction rounds as [|r rounds IH] using rev_ind; [done|]. rewrite loop_app.
  destruct (loop rounds start) as [out [t|e']] eqn:E; cbn.
  - assert (Ht : t = last_sent rounds start) by (apply loop_continues; by rewrite E).
    destruct (round r t) as [[t'|e'] sent] eqn:Er; cbn; [done|]. intros [= ->].
    exists rounds, r, []. rewrite E, <- Ht, Er. done.
  - intros [= ->]. destruct IH as (before & r' & after & -> & ? & ?); [done|].
    exists before, r', (after ++ [r]). by rewrite <- app_assoc.
Qed.

Lemma loop_sends l t t' : (loop l t).2 = Continue t' -> (loop l t).1 = concat (echoed <$> l).
Proof.
  revert t; induction l as [|r l IH]; intros t; cbn; [done|].
  pose proof (round_sends r t) as Hs. destruct (round r t) as [[t1|e] sent]; [|done]. specialize (IH t1).
  destruct (loop l t1) as [out n]; cbn in *. intros H. by rewrite Hs, IH.
Qed.

(** A loop that goes on has met no round that ends it. *)
Lemma loop_goes_on rounds start t : (loop rounds start).2 = Continue t ->
  forall before r after e, rounds = before ++ r :: after -> ~ ends r (last_sent before start) e.
Proof.
  intros Ht before r after e -> He%round_ends. rewrite loop_app in Ht.
  destruct (loop before start) as [out [t0|e0]] eqn:E; cbn in Ht; [|done].
  assert (t0 = last_sent before start) as -> by (apply loop_continues; by rewrite E).
  destruct (round r (last_sent before start)) as [n sent]. cbn in He. by subst n.
Qed.

(** Claim C39. The echo is faithful.  The packets sent are exactly the G.711 packets
    received over UDP and written without error in the rounds the loop has gone
    through, each once, in order, unchanged and back to the address it came from.  The
    loop returns in the first round in which the read deadline cannot be set, a read
    fails other than by a timeout or times out once the context is done or the echo
    has been idle, a packet arrives that is not G.711 or not from a UDP address, or a
    write fails, with that error or with none after cancellation; and in no other
    round. *)
Theorem echo_faithful rounds start :
  exists gone rest, rounds = gone ++ rest /\
    (loop rounds start).1 = concat (echoed <$> gone) /\
    match (loop rounds start).2 with
    | Continue t => rest = [] /\ t = last_sent gone start /\
        forall before r after e, gone = before ++ r :: after -> ~ ends r (last_sent before start) e
    | Return e => exists last_before r, gone = last_before ++ [r] /\ ends r (last_sent last_before start) e /\
        forall before r' after e', last_before = before ++ r' :: after -> ~ ends r' (last_sent before start) e'
    end.
Proof.
  destruct (loop rounds start) as [out [t|e]] eqn:E; cbn.
  - exists rounds, []. assert (En : (loop rounds start).2 = Continue t) by by rewrite E.
    pose proof (loop_sends _ _ _ En) as Ho. rewrite E in Ho. rewrite app_nil_r. eauto 10 using loop_continues, loop_goes_on.
  - assert (En : (loop rounds start).2 = Return e) by by rewrite E.
    destruct (loop_returns rounds start e En) as (before & r & after & -> & Hb & Hr).
    exists (before ++ [r]), after. rewrite <- app_assoc. split; [done|]. split.
    + rewrite loop_app in E. pose proof (loop_sends _ _ _ Hb) as Ho. destruct (loop before start) as [out0 n]. cbn in *. subst.
      pose proof (round_sends r (last_sent before start)) as Hs. cbn in E.
      destruct (round r (last_sent before start)) as [n sent]. cbn in *. subst n. injection E as <-.
      by rewrite Hs, fmap_app, concat_app; cbn; rewrite app_nil_r.
    + exists before, r. split_and!; [done | by apply round_ends | by eapply loop_goes_on].
Qed.

(** The idle timeout is exact: [Run]'s loop ends with [ErrIdleTimeout]
    exactly when it reaches a read that times out, with the context not done, no
    earlier than the idle timeout after the last packet was sent back (after the
    start, if none was). *)
Theorem idle_timeout_exact rounds start :
  (loop rounds start).2 = Return (Some ErrIdleTimeout) <->
  exists before r after, rounds = before ++ r :: after /\
    (loop before start).2 = Continue (last_sent before start) /\ idle r (last_sent before start).
Proof.
  split.
  - intros He. destruct (loop_returns rounds start _ He) as (before & r & after & ? & ? & Hr).
    exists before, r, after. by rewrite <- round_idle.
  - intros (before & r & after & -> & Hb & Hi). rewrite loop_app. destruct (loop before start) as [out n].
    cbn in Hb. subst n. cbn. apply round_idle in Hi. destruct (round r _) as [n sent]. cbn in Hi. by subst n.
Qed.

(** Cancellation: the first read that times out afterwards ends the loop without
    an error ... *)
Lemma cancelled_timeout_returns r t e e' :
  deadlineErr r = None -> read r = ReadFailed e true -> ctx r = Some e' -> (round r t).1 = Return None.
Proof. unfold round. intros -> -> ->. by rewrite andb_true_r; destruct (errors_Is e net_ErrClosed). Qed.

(** ... but only a read that fails: while G.711 packets keep arriving within the
    poll interval the loop goes on for ever, cancelled or not. *)
Theorem cancelled_echo_goes_on (rounds : list Round) start :
  Forall (fun r => deadlineErr r = None /\ writeErr r = None /\ ctx r = Some context_Canceled /\
                   exists p addr, read r = Got p (UDPAddr addr) /\ g711 p) rounds ->
  (loop rounds start).2 = Continue (last_sent rounds start).
Proof.
  intros H. assert (exists t, (loop rounds start).2 = Continue t) as [t Ht].
  { revert start. induction H as [|r l (Hd & Hw & _ & p & addr & Hr & Hg) _ IH]; intros start; cbn; [eauto|].
    assert (Hround : round r start = (Continue (echoedAt r), Some (p, addr))).
    { unfold round. rewrite Hd, Hr, Hw. by destruct Hg as [-> | ->]. }
    rewrite Hround. destruct (IH (echoedAt r)) as [t Ht]. exists t. by destruct (loop l (echoedAt r)). }
  rewrite Ht. f_equal. by apply loop_continues.
Qed.

(** ** The command *)

(** The exit code of [main], when [Run] has returned [err]. *)
Definition exit_code (cfg : Config) (err : option error) : Z :=
  match NewEcho cfg with
  | Err _ => 1
  | Ok _ => match err with
            | Some e => if errors_Is e "rtp idle timeout" then 0 else 1
            | None => 0
            end
  end.

(** An idle timeout is a normal end, whatever closing the session gave. *)
Lemma idle_is_normal cfg start rounds closeErr err :
  is_Ok (NewEcho cfg) = true -> (loop rounds start).2 = Return (Some ErrIdleTimeout) ->
  (Run None start rounds closeErr).2 = Return err -> exit_code cfg err = 0.
Proof.
  intros Hn Hl. unfold Run, exit_code. destruct (loop rounds start) as [out n]. cbn in *. subst n.
  intros [= <-]. destruct (NewEcho cfg); [|done]. by destruct closeErr.
Qed.

End Echo.

(** ** A sample run: two packets and an idle timeout *)

Module SampleEcho.

Definition pcmu (n : Z) : Z * Z := (0, n).
Definition packet_at (n : Z) (t : Time) : Round (Packet := Z * Z) :=
  mkRound None (Got (pcmu n) (UDPAddr "10.0.0.1:4000")) None t None t.
Definition quiet_at (t : Time) : Round (Packet := Z * Z) :=
  mkRound None (ReadFailed (Sentinel "i/o timeout") true) None t None t.
Definition session : list Round := [packet_at 1 10; quiet_at 200; packet_at 2 300; quiet_at 700; quiet_at 1300; quiet_at 1500].

Example session_echo : loop fst 1000 session 0 =
  ([(pcmu 1, "10.0.0.1:4000"); (pcmu 2, "10.0.0.1:4000")]%string, Return (Some ErrIdleTimeout)).
Proof. reflexivity. Qed.

Example idle_not_before : (loop fst 1000 (take 4 session) 0).2 = Continue 300.
Proof. reflexivity. Qed.

End SampleEcho.
