(* ===== verification/SpikePion.v ===== *)
(** * The WebRTC spike

    Models [spikes/pion/service.go] and its command: an HTTP service that answers
    WebRTC offers, echoes their audio and owns a bounded number of peer
    connections.  The handlers, the session timers, pion's state callbacks, the
    reader goroutines and [Close] run concurrently: each is a [Thread], a step of
    one of them is the executable [tstep], and module [Peers] proves its
    properties for every interleaving.  Outcomes of pion's calls come from
    outside; pion runs a connection's state callback in a goroutine of its own. *)

From S2P Require Import Prelude GoStrings.

(** ** Configuration and requests *)

Record Config := mkConfig { MaxPeers : Z; SessionTimeout : Duration }.

Inductive Handler := serveIndex_handler | handleOffer_handler.

(** The configuration and the routes [NewService] registers. *)
Definition NewService (cfg : Config) : result (Config * list (string * Handler)) :=
  _ ← guard_err (MaxPeers cfg <=? 0) "max peers must be positive";
  _ ← guard_err (SessionTimeout cfg <? Second) "session timeout must be at least one second";
  Ok (cfg, [("GET /"%string, serveIndex_handler); ("POST /offer"%string, handleOffer_handler)]).

(** What a handler writes: an error document with its code, or the local
    description, which may be cut short when the encoder fails. *)
Inductive Response :=
| Replied (status : Z) (code : string)
| Page (contents : string)
| Answered
| AnswerCut.

Definition writeError (status : Z) (code : string) : Response := Replied status code.

(** [page] is what reading the embedded file gives; [http.Error] writes text. *)
Definition serveIndex (page : result string) : Response :=
  match page with
  | Err _ => Replied 500 "embedded page unavailable"
  | Ok p => Page p
  end.

Definition maxOfferBytes : nat := Nat.pow 2 20.

Inductive SDPType := SDPTypeUnspecified | SDPTypeOffer | SDPTypePranswer | SDPTypeAnswer | SDPTypeRollback.
Record SessionDescription := mkDescription { sd_Type : SDPType; sd_SDP : string }.

Definition errPeerLimit : error := Sentinel "peer limit reached".
Definition errServiceClosed : error := Sentinel "service closed".

(** [handleOffer] when [newPeer] returns an error. *)
Definition newPeer_failed (err : error) : Response :=
  if errors_Is err "peer limit reached" || errors_Is err "service closed"
  then writeError 503 "peer_capacity_unavailable"
  else writeError 500 "peer_creation_failed".

(** The loop of [OnTrack]: each event is what [ReadRTP] gives and, for a packet,
    what [WriteRTP] returns.  The result is the packets handed to the echo track. *)
Inductive TrackKind := Audio | Video.
Fixpoint echo_packets {A} (events : list (result A * option error)) : list A :=
  match events with
  | (Ok packet, writeErr) :: rest =>
      packet :: match writeErr with None => echo_packets rest | Some _ => [] end
  | _ => []
  end.
Definition OnTrack {A} (kind : TrackKind) (events : list (result A * option error)) : list A :=
  match kind with Audio => echo_packets events | Video => [] end.

(** ** Shared state *)

Inductive Timer := Unset | Armed | Fired | Stopped.
(** [sync.Once]: nobody has called [Do], the first caller is inside, it is done. *)
Inductive Once := Fresh | Running | Finished.
(** Where a connection is in [newPeer] (a ghost): being set up, its timer armed,
    in the map, to be closed by the handler, closed by the handler. *)
Inductive Fate := Building | Waiting | Registered | Refused | Dropped.

Definition once_eqb (a b : Once) : bool :=
  match a, b with Fresh, Fresh | Running, Running | Finished, Finished => true | _, _ => false end.
Definition fate_eqb (a b : Fate) : bool :=
  match a, b with
  | Building, Building | Waiting, Waiting | Registered, Registered | Refused, Refused | Dropped, Dropped => true
  | _, _ => false
  end.

(** A [peerState] with its connection: [closes] counts calls of
    [connection.Close]; [callbacks] says that the handlers are registered. *)
Record Peer := mkPeer { timer : Timer; once : Once; closes : nat; callbacks : bool; fate : Fate }.

Definition set_timer (t : Timer) (p : Peer) : Peer := mkPeer t (once p) (closes p) (callbacks p) (fate p).
Definition set_once (o : Once) (p : Peer) : Peer := mkPeer (timer p) o (closes p) (callbacks p) (fate p).
Definition set_fate (f : Fate) (p : Peer) : Peer := mkPeer (timer p) (once p) (closes p) (callbacks p) f.
Definition set_callbacks (p : Peer) : Peer := mkPeer (timer p) (once p) (closes p) true (fate p).
Definition connection_Close (p : Peer) : Peer := mkPeer (timer p) (once p) (S (closes p)) (callbacks p) (fate p).
(** [timer.Stop] has no effect on a timer that has fired. *)
Definition timer_Stop (p : Peer) : Peer := match timer p with Armed => set_timer Stopped p | _ => p end.

(** The fields of [Service]; a connection is its index in [conns]. *)
Record shared := mkShared { closed : bool; peers : gset nat; wg : Z; conns : list Peer }.

Definition new_service : shared := mkShared false ∅ 0 [].
Definition upd (id : nat) (f : Peer -> Peer) (s : shared) : shared :=
  mkShared (closed s) (peers s) (wg s) (alter f id (conns s)).
Definition set_peers (m : gset nat) (s : shared) : shared := mkShared (closed s) m (wg s) (conns s).
Definition wg_Add (n : Z) (s : shared) : shared := mkShared (closed s) (peers s) (wg s + n) (conns s).
Definition add_conn (p : Peer) (s : shared) : shared := mkShared (closed s) (peers s) (wg s) (conns s ++ [p]).
Definition set_closed (s : shared) : shared := mkShared true (peers s) (wg s) (conns s).

(** ** Goroutines *)

(** The steps of [closePeer]: [closeOnce.Do], then [timer.Stop], the delete under
    the mutex and [connection.Close]. *)
Inductive CloseStage := CEnter | CStop | CDelete | CConn.

(** Who called [closePeer]: a timer or callback, a failed handler, or [Close]
    with the states and the error it has left. *)
Inductive Caller :=
| KGoroutine
| KOffer (r : Response)
| KClose (rest : list nat) (closeErr : option error).

Inductive Thread :=
| HandleOffer (body : string)
| NPEnter | NPConnect | NPTrack (id : nat) | NPAddTrack (id : nat) | NPArm (id : nat) | NPInsert (id : nat)
| NPRefuse (id : nat) | NPRefuseClose (id : nat) | NPRefused
| NPCallbacks (id : nat) | NPStart (id : nat)
| SetRemote (id : nat) | CreateAnswer (id : nat) | SetLocal (id : nat) | Gather (id : nat) | Encode (id : nat)
| ClosePeer (at_ : CloseStage) (id : nat) (k : Caller)
| Reader (id : nat)
| CloseCall | CloseLoop (rest : list nat) (closeErr : option error) | CloseWait (closeErr : option error)
| CloseReturned (closeErr : option error)
| OfferDone (r : Response)
| GoroutineDone.

Definition resume (k : Caller) (err : option error) : Thread :=
  match k with
  | KGoroutine => GoroutineDone
  | KOffer r => OfferDone r
  | KClose rest acc => CloseLoop rest (errors_Join [acc; err])
  end.

(** The deferred [closePeer] of a handler that has written an error. *)
Definition abandon_offer (id : nat) (r : Response) : Thread := ClosePeer CEnter id (KOffer r).

Definition finished (t : Thread) : bool :=
  match t with CloseReturned _ | OfferDone _ | GoroutineDone => true | _ => false end.

Module Peers.
Section Peers.
Variable cfg : Config.
Variable Decode : string -> result SessionDescription.   (* json, into pion's type *)
Variable order : gset nat -> list nat.                   (* the iteration order of the map *)
Hypothesis order_perm : forall m, order m ≡ₚ elements m.

(** [handleOffer] up to the call of [newPeer]. *)
Definition check_offer (body : string) : Thread :=
  match Decode (String.substring 0 maxOfferBytes body) with
  | Err _ => OfferDone (writeError 400 "invalid_offer")
  | Ok offer =>
      match sd_Type offer with
      | SDPTypeOffer =>
          if String.eqb (TrimSpace (sd_SDP offer)) "" then OfferDone (writeError 400 "offer_required") else NPEnter
      | _ => OfferDone (writeError 400 "offer_required")
      end
  end.

Definition full (s : shared) : bool := MaxPeers cfg <=? Z.of_nat (size (peers s)).

(** [newPeer]; [o] is the error of the library call made, if there is one. *)
Definition newPeer_step (o : option error) (s : shared) (t : Thread) : option (shared * Thread * list Thread) :=
  match t with
  | NPEnter =>
      Some (s, if closed s then OfferDone (newPeer_failed errServiceClosed)
               else if full s then OfferDone (newPeer_failed errPeerLimit) else NPConnect, [])
  | NPConnect =>
      match o with
      | Some e => Some (s, OfferDone (newPeer_failed (Errorf "create PeerConnection" [e])), [])
      | None => Some (add_conn (mkPeer Unset Fresh 0 false Building) s, NPTrack (length (conns s)), [])
      end
  | NPTrack id =>
      match o with
      | Some e => Some (upd id (fun p => set_fate Dropped (connection_Close p)) s,
                        OfferDone (newPeer_failed (Errorf "create echo track" [e])), [])
      | None => Some (s, NPAddTrack id, [])
      end
  | NPAddTrack id =>
      match o with
      | Some e => Some (upd id (fun p => set_fate Dropped (connection_Close p)) s,
                        OfferDone (newPeer_failed (Errorf "add echo track" [e])), [])
      | None => Some (s, NPArm id, [])
      end
  | NPArm id => Some (upd id (fun p => set_fate Waiting (set_timer Armed p)) s, NPInsert id, [])
  | NPInsert id =>
      if closed s || full s then Some (upd id (set_fate Refused) s, NPRefuse id, [])
      else Some (upd id (set_fate Registered) (set_peers ({[id]} ∪ peers s) s), NPCallbacks id, [])
  | NPRefuse id => Some (upd id timer_Stop s, NPRefuseClose id, [])
  | NPRefuseClose id => Some (upd id (fun p => set_fate Dropped (connection_Close p)) s, NPRefused, [])
  | NPRefused => Some (s, OfferDone (newPeer_failed (if closed s then errServiceClosed else errPeerLimit)), [])
  | NPCallbacks id => Some (upd id set_callbacks s, NPStart id, [])
  | NPStart id => Some (wg_Add 1 s, SetRemote id, [Reader id])
  | _ => None
  end.

(** [handleOffer] around [newPeer]; for [Gather], [o] is the request's context. *)
Definition handleOffer_step (o : option error) (s : shared) (t : Thread) : option (shared * Thread * list Thread) :=
  match t with
  | HandleOffer body => Some (s, check_offer body, [])
  | SetRemote id =>
      Some (s, match o with Some _ => abandon_offer id (writeError 400 "remote_description_rejected") | None => CreateAnswer id end, [])
  | CreateAnswer id =>
      Some (s, match o with Some _ => abandon_offer id (writeError 500 "answer_creation_failed") | None => SetLocal id end, [])
  | SetLocal id =>
      Some (s, match o with Some _ => abandon_offer id (writeError 500 "local_description_failed") | None => Gather id end, [])
  | Gather id =>
      Some (s, match o with Some _ => abandon_offer id (writeError 408 "gathering_timeout") | None => Encode id end, [])
  | Encode id => Some (s, match o with Some _ => abandon_offer id AnswerCut | None => OfferDone Answered end, [])
  | _ => None
  end.

(** [closePeer]: [sync.Once] lets the first caller in and makes the others wait. *)
Definition closePeer_step (o : option error) (s : shared) (at_ : CloseStage) (id : nat) (k : Caller)
    : option (shared * Thread * list Thread) :=
  match at_ with
  | CEnter =>
      match conns s !! id with
      | None => None
      | Some p =>
          match once p with
          | Fresh => Some (upd id (set_once Running) s, ClosePeer CStop id k, [])
          | Running => None
          | Finished => Some (s, resume k None, [])
          end
      end
  | CStop => Some (upd id timer_Stop s, ClosePeer CDelete id k, [])
  | CDelete => Some (set_peers (peers s ∖ {[id]}) s, ClosePeer CConn id k, [])
  | CConn => Some (upd id (fun p => set_once Finished (connection_Close p)) s, resume k o, [])
  end.

(** [Close]: the section under the mutex, the loop, [wg.Wait]. *)
Definition Close_step (s : shared) (t : Thread) : option (shared * Thread * list Thread) :=
  match t with
  | CloseCall => Some (set_closed s, CloseLoop (order (peers s)) None, [])
  | CloseLoop [] acc => Some (s, CloseWait acc, [])
  | CloseLoop (id :: rest) acc => Some (s, ClosePeer CEnter id (KClose rest acc), [])
  | CloseWait acc => if wg s =? 0 then Some (s, CloseReturned acc, []) else None
  | _ => None
  end.

(** One step of a goroutine: the shared state, how it goes on, what it starts.
    A reader changes something only when its read fails. *)
Definition tstep (o : option error) (s : shared) (t : Thread) : option (shared * Thread * list Thread) :=
  match t with
  | HandleOffer _ | SetRemote _ | CreateAnswer _ | SetLocal _ | Gather _ | Encode _ => handleOffer_step o s t
  | ClosePeer at_ id k => closePeer_step o s at_ id k
  | CloseCall | CloseLoop _ _ | CloseWait _ => Close_step s t
  | Reader _ => match o with Some _ => Some (wg_Add (-1) s, GoroutineDone, []) | None => None end
  | CloseReturned _ | OfferDone _ | GoroutineDone => None
  | _ => newPeer_step o s t
  end.

Inductive PeerConnectionState := StateUnknown | StateNew | StateConnecting | StateConnected | StateDisconnected | StateFailed | StateClosed.

(** The callback given to [OnConnectionStateChange]. *)
Definition onConnectionStateChange (st : PeerConnectionState) (id : nat) : list Thread :=
  match st with
  | StateFailed | StateClosed => [ClosePeer CEnter id KGoroutine]
  | _ => []
  end.

(** A goroutine takes a step, or from outside: a request arrives, [Close] is
    called, a timer fires, a connection changes its state. *)
Inductive Event :=
| Run (i : nat) (o : option error)
| Arrive (body : string)
| CallClose
| TimerFires (id : nat)
| StateChange (id : nat) (st : PeerConnectionState).

Definition sys : Type := shared * list Thread.

Definition sys_step (e : Event) (s : sys) : option sys :=
  let '(sh, ts) := s in
  match e with
  | Run i o =>
      t ← ts !! i;
      '(sh', t', new) ← tstep o sh t;
      Some (sh', <[i := t']> ts ++ new)
  | Arrive body => Some (sh, ts ++ [HandleOffer body])
  | CallClose => Some (sh, ts ++ [CloseCall])
  | TimerFires id =>
      match timer <$> conns sh !! id with
      | Some Armed => Some (upd id (set_timer Fired) sh, ts ++ [ClosePeer CEnter id KGoroutine])
      | _ => None
      end
  | StateChange id st =>
      match callbacks <$> conns sh !! id with
      | Some true => Some (sh, ts ++ onConnectionStateChange st id)
      | _ => None
      end
  end.

Definition step (e : Event) (s s' : sys) : Prop := sys_step e s = Some s'.
Definition initial : sys := (new_service, []).
Definition reachable (s : sys) : Prop := exists es, trace step es initial s.

Lemma order_ok m id : id ∈ order m <-> id ∈ m.
Proof. rewrite (order_perm m). apply elem_of_elements. Qed.
Lemma order_length m : length (order m) = size m.
Proof. by rewrite (order_perm m). Qed.

(** ** The invariant *)

(** How many goroutines are at a place. *)
Definition cnt (P : Thread -> bool) (ts : list Thread) : nat := length (List.filter P ts).
Definition bit (b : bool) : nat := if b then 1 else 0.

Lemma cnt_app P l k : cnt P (l ++ k) = (cnt P l + cnt P k)%nat.
Proof. unfold cnt. by rewrite List.filter_app, length_app. Qed.

Lemma cnt_cons P t l : cnt P (t :: l) = (bit (P t) + cnt P l)%nat.
Proof. unfold cnt, bit. cbn. by destruct (P t). Qed.

Lemma cnt_insert P ts i t t' : ts !! i = Some t ->
  (cnt P (<[i := t']> ts) + bit (P t) = cnt P ts + bit (P t'))%nat.
Proof.
  revert i; induction ts as [|u ts IH]; intros [|i] Hi; cbn in Hi; try done.
  - injection Hi as ->. change (<[0%nat := t']> (t :: ts)) with (t' :: ts). rewrite !cnt_cons. lia.
  - change (<[S i := t']> (u :: ts)) with (u :: <[i := t']> ts). rewrite !cnt_cons. specialize (IH _ Hi). lia.
Qed.

Lemma cnt_pos P ts : (0 < cnt P ts)%nat <-> exists i t, ts !! i = Some t /\ P t = true.
Proof.
  induction ts as [|u ts IH]; [cbn; split; [lia | intros (i & t & Hi & _); done]|].
  rewrite cnt_cons. split.
  - intros Hc. destruct (P u) eqn:E; [by exists 0%nat, u|].
    destruct IH as [IH _]. destruct IH as (i & t & Hi & Ht); [cbn in Hc; lia|]. by exists (S i), t.
  - intros ([|i] & t & Hi & Ht); cbn in Hi.
    + injection Hi as ->. rewrite Ht. cbn. lia.
    + assert (0 < cnt P ts)%nat by (apply IH; eauto). lia.
Qed.

(** Where a goroutine is with respect to a connection: its handler still owns it
    in [newPeer], or it is in front of or inside the [closeOnce]. *)
Inductive Place := AtBuilding | AtWaiting | AtRefused | AtInside | AtEnter | Elsewhere.
Definition place_eqb (a b : Place) : bool :=
  match a, b with
  | AtBuilding, AtBuilding | AtWaiting, AtWaiting | AtRefused, AtRefused | AtInside, AtInside | AtEnter, AtEnter
  | Elsewhere, Elsewhere => true
  | _, _ => false
  end.

Definition where_is (t : Thread) : option (nat * Place) :=
  match t with
  | NPTrack id | NPAddTrack id | NPArm id => Some (id, AtBuilding)
  | NPInsert id => Some (id, AtWaiting)
  | NPRefuse id | NPRefuseClose id => Some (id, AtRefused)
  | ClosePeer CEnter id _ => Some (id, AtEnter)
  | ClosePeer _ id _ => Some (id, AtInside)
  | _ => None
  end.
Definition place (id : nat) (t : Thread) : Place :=
  match where_is t with Some (j, pl) => if decide (j = id) then pl else Elsewhere | None => Elsewhere end.
Definition at_place (id : nat) (pl : Place) (t : Thread) : bool := place_eqb (place id t) pl.
Definition count (ts : list Thread) (id : nat) (pl : Place) : nat := cnt (at_place id pl) ts.
Definition reads (t : Thread) : bool := match t with Reader _ => true | _ => false end.

(** The connections a goroutine refers to. *)
Definition caller_ids (k : Caller) : list nat := match k with KClose rest _ => rest | _ => [] end.
Definition ids (t : Thread) : list nat :=
  match t with
  | NPTrack id | NPAddTrack id | NPArm id | NPInsert id | NPRefuse id | NPRefuseClose id | NPCallbacks id
  | NPStart id | SetRemote id | CreateAnswer id | SetLocal id | Gather id | Encode id | Reader id => [id]
  | ClosePeer _ id k => id :: caller_ids k
  | CloseLoop rest _ => rest
  | _ => []
  end.

(** What a [Close] that has read the map has still to close. *)
Definition to_close (t : Thread) : option (list nat) :=
  match t with
  | ClosePeer CEnter id (KClose rest _) => Some (id :: rest)
  | ClosePeer _ _ (KClose rest _) | CloseLoop rest _ => Some rest
  | CloseWait _ | CloseReturned _ => Some []
  | _ => None
  end.

Definition timer_running (t : Timer) : Prop := t = Armed \/ t = Fired.

(** One connection, with the goroutines counted by their place and whether it is
    in the map. *)
Record peer_ok (c : Place -> nat) (listed : bool) (p : Peer) : Prop := {
  p_building : c AtBuilding = bit (fate_eqb (fate p) Building);
  p_waiting : c AtWaiting = bit (fate_eqb (fate p) Waiting);
  p_refused : c AtRefused = bit (fate_eqb (fate p) Refused);
  p_once : c AtInside = bit (once_eqb (once p) Running);
  p_closes : closes p = (bit (once_eqb (once p) Finished) + bit (fate_eqb (fate p) Dropped))%nat;
  p_fired : timer p = Fired -> once p = Fresh -> (0 < c AtEnter)%nat;
  p_timer : fate p = Waiting \/ fate p = Registered -> once p = Fresh -> timer_running (timer p);
  p_listed : fate p = Registered -> once p = Fresh -> listed = true;
  p_map : listed = true -> fate p = Registered;
}.

Definition in_map (sh : shared) (id : nat) : bool := bool_decide (id ∈ peers sh).

Record inv (s : sys) : Prop := {
  i_peers : forall id p, conns s.1 !! id = Some p -> peer_ok (count s.2 id) (in_map s.1 id) p;
  i_ids : Forall (fun t => Forall (fun id => id < length (conns s.1))%nat (ids t)) s.2;
  i_map : forall id, id ∈ peers s.1 -> (id < length (conns s.1))%nat;
  i_size : Z.of_nat (size (peers s.1)) <= MaxPeers cfg;
  i_wg : wg s.1 = Z.of_nat (cnt reads s.2);
  i_close : forall t rest, t ∈ s.2 -> to_close t = Some rest ->
    closed s.1 = true /\
    forall id p, conns s.1 !! id = Some p -> fate p = Registered -> once p = Fresh -> id ∈ rest;
}.

Lemma cnt_step P ts i t t' new : ts !! i = Some t ->
  (cnt P (<[i := t']> ts ++ new) + bit (P t) = cnt P ts + bit (P t') + cnt P new)%nat.
Proof. intros Hi. rewrite cnt_app. pose proof (cnt_insert P ts i t t' Hi). lia. Qed.

Lemma cnt_at P ts i t : ts !! i = Some t -> P t = true -> (0 < cnt P ts)%nat.
Proof. intros Hi Ht. apply cnt_pos. eauto. Qed.

(** What one step of a goroutine can do to one connection: the goroutine's place
    before and after, the connection, and whether it is in the map. *)
Inductive move : Place -> Place -> Peer -> bool -> Peer -> bool -> Prop :=
| mv_stay pl p m : move pl pl p m p m
| mv_leave p m : once p = Finished -> move AtEnter Elsewhere p m p m
| mv_come p m : move Elsewhere AtEnter p m p m
| mv_fire p m : timer p = Armed -> move Elsewhere AtEnter p m (set_timer Fired p) m
| mv_get_in p m : once p = Fresh -> move AtEnter AtInside p m (set_once Running p) m
| mv_stop p m : move AtInside AtInside p m (timer_Stop p) m
| mv_delete p m : move AtInside AtInside p m p false
| mv_close p m : move AtInside Elsewhere p m (set_once Finished (connection_Close p)) m
| mv_drop pl p m : pl = AtBuilding \/ pl = AtRefused -> move pl Elsewhere p m (set_fate Dropped (connection_Close p)) m
| mv_arm p m : move AtBuilding AtWaiting p m (set_fate Waiting (set_timer Armed p)) m
| mv_insert p m : move AtWaiting Elsewhere p m (set_fate Registered p) true
| mv_refuse p m : move AtWaiting AtRefused p m (set_fate Refused p) m
| mv_refuse_stop p m : move AtRefused AtRefused p m (timer_Stop p) m
| mv_callbacks p m : move Elsewhere Elsewhere p m (set_callbacks p) m.

Definition one (pl a : Place) : nat := bit (place_eqb a pl).

(** The places of a goroutine that moves are those of the connection. *)
Lemma move_ok c c' a b p m p' m' : peer_ok c m p -> (0 < c a \/ a = Elsewhere)%nat ->
  (forall pl, pl <> Elsewhere -> c' pl + one pl a = c pl + one pl b)%nat -> move a b p m p' m' -> peer_ok c' m' p'.
Proof.
  intros Hok Ha Hc Hm.
  pose proof (Hc AtBuilding ltac:(done)) as C1. pose proof (Hc AtWaiting ltac:(done)) as C2.
  pose proof (Hc AtRefused ltac:(done)) as C3. pose proof (Hc AtInside ltac:(done)) as C4.
  pose proof (Hc AtEnter ltac:(done)) as C5. clear Hc. destruct Hok.
  destruct Hm; match goal with p : Peer |- _ => destruct p end;
    try match goal with pl : Place |- _ => destruct pl end;
    unfold one, timer_Stop, timer_running in *; cbn in *;
    repeat match goal with
    | H : _ \/ _ |- _ => destruct H; try discriminate; subst
    | x : Once |- _ => destruct x; cbn in *; try discriminate
    | x : Fate |- _ => destruct x; cbn in *; try lia
    end;
    try match goal with |- context [match ?tm with Unset => _ | _ => _ end] => destruct tm end;
    constructor; cbn; unfold timer_running; intros; try done; try lia; auto; try tauto;
    intuition (congruence || lia).
Qed.

Lemma upd_lookup id f sh j p : conns sh !! j = Some p ->
  conns (upd id f sh) !! j = Some (if decide (id = j) then f p else p).
Proof.
  intros Hp. cbn. destruct (decide (id = j)) as [->|Hne].
  - by rewrite list_lookup_alter_eq, Hp.
  - by rewrite list_lookup_alter_ne.
Qed.

Lemma check_offer_nowhere body : where_is (check_offer body) = None.
Proof. unfold check_offer. repeat case_any; done. Qed.
Lemma resume_nowhere k e : where_is (resume k e) = None.
Proof. by destruct k. Qed.

Lemma in_map_insert f j sh id :
  in_map (upd j f (set_peers ({[j]} ∪ peers sh) sh)) id = if decide (j = id) then true else in_map sh id.
Proof.
  unfold in_map. cbn. destruct (decide (j = id)) as [->|Hne]; [apply bool_decide_eq_true_2; set_solver|].
  apply bool_decide_ext. set_solver.
Qed.
Lemma in_map_delete j sh id : in_map (set_peers (peers sh ∖ {[j]}) sh) id = if decide (j = id) then false else in_map sh id.
Proof.
  unfold in_map. cbn. destruct (decide (j = id)) as [->|Hne]; [apply bool_decide_eq_false_2; set_solver|].
  apply bool_decide_ext. set_solver.
Qed.

(** Case analysis on the result of a step. *)
Ltac result_cases H :=
  repeat match type of H with
  | context [match ?x with _ => _ end] =>
      lazymatch x with context [match _ with _ => _ end] => fail | _ => destruct x eqn:? end
  end; simplify_eq.
Ltac step_cases H t := destruct t; try done; cbn in H; result_cases H.

(** The step leaves the connection alone, or changes the one the goroutine works on. *)
Ltac one_move Hp :=
  unfold place, abandon_offer; rewrite ?check_offer_nowhere, ?resume_nowhere; cbn [where_is];
  eexists; split; [first [exact Hp | apply upd_lookup; exact Hp]|];
  rewrite ?in_map_insert, ?in_map_delete; cbn;
  repeat match goal with |- context [decide (?x = ?y)] => destruct (decide (x = y)); subst end;
  auto using move.

Definition moves (sh : shared) (t : Thread) (sh' : shared) (t' : Thread) : Prop :=
  forall id p, conns sh !! id = Some p ->
  exists p', conns sh' !! id = Some p' /\ move (place id t) (place id t') p (in_map sh id) p' (in_map sh' id).

Lemma newPeer_moves o sh t sh' t' new : newPeer_step o sh t = Some (sh', t', new) -> moves sh t sh' t'.
Proof.
  intros Hs id p Hp. step_cases Hs t; try one_move Hp.
  apply lookup_lt_Some in Hp as Hlt. exists p. unfold place. cbn [where_is conns add_conn].
  rewrite lookup_app_l, decide_False by lia. split; [done | apply mv_stay].
Qed.

Lemma handleOffer_moves o sh t sh' t' new : handleOffer_step o sh t = Some (sh', t', new) -> moves sh t sh' t'.
Proof. intros Hs id p Hp. step_cases Hs t; one_move Hp. Qed.

Lemma closePeer_moves o sh st j k sh' t' new :
  closePeer_step o sh st j k = Some (sh', t', new) -> moves sh (ClosePeer st j k) sh' t'.
Proof.
  intros Hs id p Hp. step_cases Hs st; one_move Hp;
    match goal with Hq : conns _ !! id = Some ?q |- _ => assert (q = p) by congruence; subst q end; auto using move.
Qed.

Lemma Close_moves sh t sh' t' new : Close_step sh t = Some (sh', t', new) -> moves sh t sh' t'.
Proof. intros Hs id p Hp. step_cases Hs t; one_move Hp. Qed.

Lemma tstep_moves o sh t sh' t' new : tstep o sh t = Some (sh', t', new) -> moves sh t sh' t'.
Proof.
  intros Hs. destruct t; try discriminate Hs;
    try first [exact (newPeer_moves _ _ _ _ _ _ Hs) | exact (handleOffer_moves _ _ _ _ _ _ Hs)
              | exact (closePeer_moves _ _ _ _ _ _ _ _ Hs) | exact (Close_moves _ _ _ _ _ Hs)].
  cbn in Hs. destruct o; [|done]. simplify_eq. intros j p Hp. one_move Hp.
Qed.

(** The new connection, the started goroutines, the ids and the counter. *)
Lemma tstep_conns o sh t sh' t' new : tstep o sh t = Some (sh', t', new) ->
  length (conns sh') = length (conns sh) \/
  t = NPConnect /\ t' = NPTrack (length (conns sh)) /\ new = [] /\
  sh' = add_conn (mkPeer Unset Fresh 0 false Building) sh.
Proof.
  intros Hs. destruct t; cbn in Hs; try done; unfold closePeer_step in *; result_cases Hs;
    cbn; rewrite ?length_alter; auto.
Qed.

Lemma tstep_new o sh t sh' t' new : tstep o sh t = Some (sh', t', new) ->
  new = [] \/ exists j, t = NPStart j /\ new = [Reader j].
Proof. intros Hs. destruct t; cbn in Hs; try done; unfold closePeer_step in *; result_cases Hs; eauto. Qed.

Lemma move_back a b p m p' m' : move a b p m p' m' -> fate p' = Registered -> once p' = Fresh ->
  once p = Fresh /\ (fate p = Registered \/ a = AtWaiting /\ b = Elsewhere).
Proof. destruct 1; unfold timer_Stop; cbn; try (by auto); try done; destruct (timer p); auto. Qed.

Lemma insert_open o sh t sh' t' new id : tstep o sh t = Some (sh', t', new) ->
  place id t = AtWaiting -> place id t' = Elsewhere -> closed sh = false.
Proof.
  intros Hs Ht Ht'. assert (t = NPInsert id) as ->.
  { unfold place in Ht. destruct t; cbn in Ht; repeat case_match; naive_solver. }
  cbn in Hs. destruct (closed sh); [|done]. cbn in Hs. simplify_eq. unfold place in Ht'. cbn in Ht'. by case_match.
Qed.

(** Once the service is closed, no connection is added to those [Close] has to close. *)
Lemma tstep_closed o sh t sh' t' new : tstep o sh t = Some (sh', t', new) -> closed sh = true ->
  closed sh' = true /\
  forall id p', conns sh' !! id = Some p' -> fate p' = Registered -> once p' = Fresh ->
  exists p, conns sh !! id = Some p /\ fate p = Registered /\ once p = Fresh.
Proof.
  intros Hs Hc. split.
  - destruct t; cbn in Hs; try done; unfold closePeer_step in *; result_cases Hs; done.
  - intros id p' Hp' Hf Ho. destruct (conns sh !! id) as [p|] eqn:Hp.
    + destruct (tstep_moves _ _ _ _ _ _ Hs id p Hp) as (q & Hq & Hm). assert (q = p') by congruence; subst q.
      destruct (move_back _ _ _ _ _ _ Hm Hf Ho) as [? [?|[Ha Hb]]]; [eauto|].
      pose proof (insert_open _ _ _ _ _ _ _ Hs Ha Hb). congruence.
    + apply lookup_lt_Some in Hp' as Hlt. apply lookup_ge_None in Hp.
      destruct (tstep_conns _ _ _ _ _ _ Hs) as [Hl|(_ & _ & _ & ->)]; [lia|].
      cbn in Hp'. rewrite lookup_app_r in Hp' by lia. destruct (id - length (conns sh))%nat; cbn in Hp'; by simplify_eq.
Qed.

Lemma tstep_to_close o sh t sh' t' new rest' : tstep o sh t = Some (sh', t', new) -> to_close t' = Some rest' ->
  t = CloseCall /\ sh' = set_closed sh /\ rest' = order (peers sh) \/
  exists rest, to_close t = Some rest /\
    forall id p', conns sh' !! id = Some p' -> once p' = Fresh -> id ∈ rest -> id ∈ rest'.
Proof.
  intros Hs Ht'. destruct t as [body| | | | | | | | | | | | | | | | |st j k|j| | | | | |]; cbn in Hs; try done;
    unfold closePeer_step in *; result_cases Hs; cbn in *; simplify_eq; eauto.
  - unfold check_offer in Ht'. repeat case_match; done.
  - right. destruct k; simplify_eq. eexists; split; [done|]. intros id p' Hp' Ho [->|]%elem_of_cons; [|done].
    rewrite list_lookup_alter_eq in Hp'. apply fmap_Some in Hp' as (q & _ & ->). done.
  - right. destruct k; simplify_eq; cbn in *; simplify_eq. eexists; split; [done|].
    intros id p' Hp' Ho [->|]%elem_of_cons; [|done]. congruence.
  - right. destruct k; simplify_eq; cbn in *; simplify_eq. eauto.
Qed.

Lemma tstep_ids o sh t sh' t' new : tstep o sh t = Some (sh', t', new) ->
  Forall (fun id => id < length (conns sh))%nat (ids t) -> (forall id, id ∈ peers sh -> (id < length (conns sh))%nat) ->
  Forall (fun u => Forall (fun id => id < length (conns sh'))%nat (ids u)) (t' :: new) /\
  (forall id, id ∈ peers sh' -> (id < length (conns sh'))%nat).
Proof.
  intros Hs Hids Hm. destruct t as [body| | | | | | | | | | | | | | | | |st j k|j| | | | | |]; cbn in Hs; try done;
    unfold closePeer_step, abandon_offer in *; result_cases Hs; cbn in *; rewrite ?length_alter, ?length_app in *;
    repeat match goal with H : Forall _ (_ :: _) |- _ => apply Forall_cons in H as [? ?] end;
    (split; [repeat constructor; auto | try done]); try (cbn; lia).
  - unfold check_offer. repeat case_match; constructor.
  - intros id Hid. specialize (Hm id Hid). lia.
  - intros i [->%elem_of_singleton|]%elem_of_union; auto.
  - by destruct k.
  - intros i [? _]%elem_of_difference. auto.
  - by destruct k.
  - apply Forall_forall. intros i Hi%order_ok. auto.
Qed.

Lemma size_insert_le (m : gset nat) id : (size ({[id]} ∪ m) <= S (size m))%nat.
Proof. rewrite size_union_alt, size_singleton. pose proof (subseteq_size (m ∖ {[id]}) m ltac:(set_solver)). lia. Qed.

Lemma tstep_size_wg o sh t sh' t' new : tstep o sh t = Some (sh', t', new) -> Z.of_nat (size (peers sh)) <= MaxPeers cfg ->
  Z.of_nat (size (peers sh')) <= MaxPeers cfg /\
  wg sh' - wg sh = Z.of_nat (bit (reads t') + cnt reads new) - Z.of_nat (bit (reads t)).
Proof.
  intros Hs Hsz. destruct t as [body| | | | | | | | | | | | | | | | |st j k|j| | | | | |]; cbn in Hs; try done;
    unfold closePeer_step, abandon_offer in *; result_cases Hs; cbn; try (split; [done | lia]).
  - split; [done|]. unfold check_offer. repeat case_match; cbn; lia.
  - split; [|lia]. match goal with H : _ || _ = false |- _ => apply orb_false_iff in H as [_ Hf] end.
    unfold full in Hf. apply Z.leb_gt in Hf. pose proof (size_insert_le (peers sh) id). lia.
  - split; [done|]. destruct k; cbn; lia.
  - split; [|lia]. pose proof (subseteq_size (peers sh ∖ {[j]}) (peers sh) ltac:(set_solver)). lia.
  - split; [done|]. destruct k; cbn; lia.
Qed.

Lemma place_none id t : where_is t = None -> place id t = Elsewhere.
Proof. unfold place. by intros ->. Qed.

Lemma place_ids id t : place id t <> Elsewhere -> id ∈ ids t.
Proof. unfold place. destruct t as [| | | | | | | | | | | | | | | | |[]| | | | | | |]; cbn; try done; case_decide; set_solver. Qed.

Lemma count_step ts i t t' new id pl : ts !! i = Some t -> (forall u, u ∈ new -> where_is u = None) -> pl <> Elsewhere ->
  (count (<[i := t']> ts ++ new) id pl + one pl (place id t) = count ts id pl + one pl (place id t'))%nat.
Proof.
  intros Hi Hn Hpl. unfold count. pose proof (cnt_step (at_place id pl) ts i t t' new Hi) as C.
  assert (cnt (at_place id pl) new = 0%nat); [|unfold at_place, one in *; lia].
  destruct (decide (0 < cnt (at_place id pl) new)%nat) as [(j & u & Hu & Hp)%cnt_pos|]; [|lia].
  unfold at_place in Hp. rewrite place_none in Hp by (apply Hn; by eapply list_elem_of_lookup_2). by destruct pl.
Qed.

(** A connection that exists after the step is an old one or the new one. *)
Lemma tstep_peer_ok o sh ts i t sh' t' new : inv (sh, ts) -> ts !! i = Some t -> tstep o sh t = Some (sh', t', new) ->
  forall id p', conns sh' !! id = Some p' -> peer_ok (count (<[i := t']> ts ++ new) id) (in_map sh' id) p'.
Proof.
  intros Hi Ht Hs id p' Hp'.
  assert (Hn : forall u, u ∈ new -> where_is u = None).
  { destruct (tstep_new _ _ _ _ _ _ Hs) as [->|(j & _ & ->)]; intros u Hu; [by apply elem_of_nil in Hu|].
    apply list_elem_of_singleton in Hu as ->. done. }
  destruct (conns sh !! id) as [p|] eqn:Hp.
  - destruct (tstep_moves _ _ _ _ _ _ Hs id p Hp) as (q & Hq & Hm). assert (q = p') by congruence; subst q.
    eapply move_ok; [exact (i_peers _ Hi id p Hp) | | | exact Hm].
    + destruct (place id t) eqn:E; auto; left; apply cnt_pos; exists i, t; split; try done;
        unfold at_place; by rewrite E.
    + intros pl Hpl. by apply count_step.
  - apply lookup_ge_None in Hp as Hge. apply lookup_lt_Some in Hp' as Hlt.
    destruct (tstep_conns _ _ _ _ _ _ Hs) as [Hl|(-> & -> & -> & ->)]; [lia|].
    cbn in Hp', Hlt. rewrite length_app in Hlt. cbn in Hlt. assert (id = length (conns sh)) as -> by lia.
    rewrite lookup_app_r, Nat.sub_diag in Hp' by lia. cbn in Hp'. simplify_eq.
    assert (Hz : forall pl, pl <> Elsewhere -> count ts (length (conns sh)) pl = 0%nat).
    { intros pl Hpl. destruct (decide (0 < count ts (length (conns sh)) pl)%nat) as [(j & u & Hu & Hpu)%cnt_pos|]; [|lia].
      unfold at_place in Hpu. pose proof (i_ids _ Hi) as Hids. cbn in Hids. rewrite Forall_lookup in Hids.
      specialize (Hids _ _ Hu). rewrite Forall_forall in Hids.
      assert (place (length (conns sh)) u <> Elsewhere) as Hpi%place_ids by (intros E; rewrite E in Hpu; by destruct pl).
      specialize (Hids _ Hpi). cbn in Hids. lia. }
    assert (Hl : in_map (add_conn (mkPeer Unset Fresh 0 false Building) sh) (length (conns sh)) = false).
    { apply bool_decide_eq_false_2. cbn. intros Hin. pose proof (i_map _ Hi _ Hin). cbn in *. lia. }
    assert (Hpl : place (length (conns sh)) (NPTrack (length (conns sh))) = AtBuilding).
    { unfold place. cbn. by rewrite decide_True. }
    constructor; rewrite ?Hl; cbn; try done; try (by intros [|]);
      match goal with |- count _ _ ?pl = _ =>
        pose proof (count_step ts i NPConnect (NPTrack (length (conns sh))) [] (length (conns sh)) pl Ht Hn ltac:(done)) as C;
        rewrite Hz, Hpl in C by done; cbn in C; cbn; lia end.
Qed.
Lemma run_inv o sh ts i t sh' t' new : inv (sh, ts) -> ts !! i = Some t -> tstep o sh t = Some (sh', t', new) ->
  inv (sh', <[i := t']> ts ++ new).
Proof.
  intros Hi Ht Hs. pose proof (i_ids _ Hi) as Hids. pose proof (i_map _ Hi) as Hmap. cbn in Hids, Hmap.
  assert (Hil : (i < length ts)%nat) by by eapply lookup_lt_Some.
  assert (Hlen : (length (conns sh) <= length (conns sh'))%nat).
  { destruct (tstep_conns _ _ _ _ _ _ Hs) as [->|(_ & _ & _ & ->)]; [lia | cbn; rewrite length_app; lia]. }
  destruct (tstep_ids _ _ _ _ _ _ Hs) as [Hids' Hmap']; [by rewrite Forall_lookup in Hids; apply (Hids i) | done |].
  destruct (tstep_size_wg _ _ _ _ _ _ Hs (i_size _ Hi)) as [Hsz Hwg]. apply Forall_cons in Hids' as [Ht' Hnew].
  constructor; cbn [fst snd]; auto.
  - by eapply tstep_peer_ok.
  - apply Forall_app. split; [|done]. apply Forall_insert; [|done].
    eapply Forall_impl; [exact Hids|]. cbn. intros u Hu. eapply Forall_impl; [exact Hu|]. cbn. intros. lia.
  - pose proof (i_wg _ Hi) as Hw. cbn [fst snd] in Hw. pose proof (cnt_step reads ts i t t' new Ht). lia.
  - intros u rest Hu Hr.
    assert (u ∈ ts \/ u = t') as Hcase.
    { apply elem_of_app in Hu as [Hu|Hu].
      - apply list_elem_of_lookup in Hu as (j & Hj). destruct (decide (i = j)) as [->|Hne].
        + rewrite list_lookup_insert_eq in Hj by done. right. congruence.
        + rewrite list_lookup_insert_ne in Hj by done. left. by eapply list_elem_of_lookup_2.
      - destruct (tstep_new _ _ _ _ _ _ Hs) as [->|(j & _ & ->)]; [by apply elem_of_nil in Hu|].
        apply list_elem_of_singleton in Hu as ->. done. }
    destruct Hcase as [Hold| ->].
    + destruct (i_close _ Hi u rest Hold Hr) as [Hc Hall]. cbn in *.
      destruct (tstep_closed _ _ _ _ _ _ Hs Hc) as [Hc' Hback]. split; [done|].
      intros id p' Hp' Hf Ho. destruct (Hback id p' Hp' Hf Ho) as (p & ? & ? & ?). eauto.
    + destruct (tstep_to_close _ _ _ _ _ _ _ Hs Hr) as [(-> & -> & ->)|(rest0 & Hr0 & Hsub)].
      * split; [done|]. intros id p Hp Hf Ho. apply order_ok. cbn in Hp.
        destruct (i_peers _ Hi id p Hp). by eapply bool_decide_eq_true_1, p_listed0.
      * destruct (i_close _ Hi t rest0 ltac:(by eapply list_elem_of_lookup_2) Hr0) as [Hc Hall]. cbn in *.
        destruct (tstep_closed _ _ _ _ _ _ Hs Hc) as [Hc' Hback]. split; [done|].
        intros id p' Hp' Hf Ho. destruct (Hback id p' Hp' Hf Ho) as (p & ? & ? & ?). eauto.
Qed.
(** An event from outside starts a goroutine and may let a timer fire. *)
Lemma spawn_inv sh sh' ts t : inv (sh, ts) ->
  closed sh' = closed sh -> peers sh' = peers sh -> wg sh' = wg sh -> length (conns sh') = length (conns sh) ->
  (forall id p', conns sh' !! id = Some p' -> exists p, conns sh !! id = Some p /\
     move Elsewhere (place id t) p (in_map sh id) p' (in_map sh id)) ->
  Forall (fun id => id < length (conns sh))%nat (ids t) -> reads t = false -> to_close t = None ->
  inv (sh', ts ++ [t]).
Proof.
  intros Hi Hc Hp Hw Hl Hm Hids Hr Ht. destruct Hi. cbn [fst snd] in *.
  constructor; cbn [fst snd]; rewrite ?Hc, ?Hp, ?Hw, ?Hl; auto.
  - intros id p' Hp'. destruct (Hm id p' Hp') as (p & Hq & Hmv). unfold in_map. rewrite Hp.
    eapply move_ok; [exact (i_peers0 id p Hq) | by right | | exact Hmv].
    intros pl Hpl. assert (He : place_eqb Elsewhere pl = false) by by destruct pl. unfold count, one.
    rewrite cnt_app, cnt_cons, He. change (cnt (at_place id pl) []) with 0%nat. unfold at_place. cbn [bit]. lia.
  - apply Forall_app. auto.
  - rewrite cnt_app, cnt_cons, Hr. cbn. lia.
  - intros u rest [Hu|Hu%list_elem_of_singleton]%elem_of_app Hrest; [|congruence].
    destruct (i_close0 u rest Hu Hrest) as [? Hall]. split; [done|]. intros id p' Hp' Hf Ho.
    destruct (Hm id p' Hp') as (p & Hq & Hmv). destruct (move_back _ _ _ _ _ _ Hmv Hf Ho) as [? [?|[? _]]]; [eauto | done].
Qed.

Lemma pion_step_inv e s s' : inv s -> step e s s' -> inv s'.
Proof.
  destruct s as [sh ts]. intros Hi Hs. unfold step, sys_step in Hs. destruct e as [i o|body| |id|id st].
  - apply bind_Some in Hs as (t & Ht & Hs). apply bind_Some in Hs as ([[sh' t'] new] & Hs & [= <-]). by eapply run_inv.
  - injection Hs as <-. eapply spawn_inv; eauto. intros id p Hp. exists p. split; [done|]. rewrite place_none by done. constructor.
  - injection Hs as <-. eapply spawn_inv; eauto. intros id p Hp. exists p. split; [done|]. rewrite place_none by done. constructor.
  - destruct (conns sh !! id) as [p|] eqn:Hp; [|done]. cbn in Hs. destruct (timer p) eqn:Htm; try done.
    injection Hs as <-. eapply spawn_inv; eauto; [cbn; apply length_alter | | constructor; [by eapply lookup_lt_Some | constructor]].
    intros j p' Hp'. destruct (conns sh !! j) as [q|] eqn:Hq;
      [|apply lookup_ge_None in Hq; apply lookup_lt_Some in Hp'; cbn in Hp'; rewrite length_alter in Hp'; lia].
    exists q. split; [done|]. rewrite (upd_lookup _ _ _ _ _ Hq) in Hp'. unfold place. cbn.
    destruct (decide (id = j)) as [->|]; simplify_eq; by constructor.
  - destruct (conns sh !! id) as [p|] eqn:Hp; [|done]. cbn in Hs. destruct (callbacks p) eqn:Hcb; [|done]. injection Hs as <-.
    destruct st; cbn; rewrite ?app_nil_r; auto;
      (eapply spawn_inv; eauto; [|constructor; [by eapply lookup_lt_Some | constructor]];
       intros j q Hq; exists q; split; [done|]; unfold place; cbn; case_decide; constructor).
Qed.

Lemma pion_initial_inv : 0 <= MaxPeers cfg -> inv initial.
Proof.
  intros Hm. constructor; cbn; try done. intros t rest Ht. by apply elem_of_nil in Ht.
Qed.

Lemma peers_reachable_inv s : 0 <= MaxPeers cfg -> reachable s -> inv s.
Proof.
  intros Hm (es & Ht). pose proof (pion_initial_inv Hm) as Hi. revert Hi. induction Ht; eauto using pion_step_inv.
Qed.

(** ** What the service guarantees *)

(** The goroutine that still has to close a connection: its handler before the
    connection is in the map, or whoever is inside its [closeOnce]. *)
Definition responsible (id : nat) (t : Thread) : bool :=
  match place id t with AtBuilding | AtWaiting | AtRefused | AtInside => true | _ => false end.

Lemma count_responsible ts id pl : (0 < count ts id pl)%nat -> pl <> Elsewhere -> pl <> AtEnter ->
  exists i t, ts !! i = Some t /\ responsible id t = true.
Proof.
  intros (i & t & Ht & Hp)%cnt_pos He Hn. exists i, t. split; [done|].
  unfold at_place in Hp. unfold responsible. by destruct (place id t), pl.
Qed.

Lemma open_is_owned s id p : inv s -> conns s.1 !! id = Some p -> closes p = 0%nat ->
  (exists i t, s.2 !! i = Some t /\ responsible id t = true) \/
  fate p = Registered /\ once p = Fresh /\ id ∈ peers s.1 /\
  (timer p = Armed \/ exists i k, s.2 !! i = Some (ClosePeer CEnter id k)).
Proof.
  intros Hi Hp Hc. destruct (i_peers _ Hi id p Hp).
  destruct (fate p) eqn:Hf; cbn in *.
  1: left; apply (count_responsible _ _ AtBuilding); [lia | done | done].
  1: left; apply (count_responsible _ _ AtWaiting); [lia | done | done].
  2: left; apply (count_responsible _ _ AtRefused); [lia | done | done].
  2: lia.
  destruct (once p) eqn:Ho; cbn in *; [|left; eapply (count_responsible _ _ AtInside); [lia | done | done] | lia].
  right. split_and!; [done | done | by eapply bool_decide_eq_true_1, p_listed0 |].
  destruct (p_timer0 ltac:(auto) eq_refl) as [->|Ht]; [by left|]. right.
  specialize (p_fired0 Ht eq_refl). apply cnt_pos in p_fired0 as (i & t & Hi' & Hat).
  unfold at_place, place in Hat. exists i.
  destruct t as [| | | | | | | | | | | | | | | | |[]| | | | | | |]; cbn in Hat; try done; case_decide; subst; try done. eauto.
Qed.

(** Claim C32. The service never has more than [MaxPeers] connections in its map (those
    still being set up come on top), and it loses none: in every interleaving of handlers, timers, callbacks and [Close], a
    connection that has not been closed either has a goroutine that is on its way
    to close it or hand it over, or is in the map with its session timer running
    or already calling [closePeer].  A connection that was put in the map is
    closed at most once. *)
Theorem pion_no_connection_lost s :
  0 <= MaxPeers cfg -> reachable s ->
  Z.of_nat (size (peers s.1)) <= MaxPeers cfg /\
  forall id p, conns s.1 !! id = Some p ->
    (fate p = Registered -> (closes p <= 1)%nat) /\
    (closes p = 0%nat ->
       (exists i t, s.2 !! i = Some t /\ responsible id t = true) \/
       fate p = Registered /\ once p = Fresh /\ id ∈ peers s.1 /\
       (timer p = Armed \/ exists i k, s.2 !! i = Some (ClosePeer CEnter id k))).
Proof.
  intros Hm Hr. pose proof (peers_reachable_inv s Hm Hr) as Hi. split; [apply Hi|]. intros id p Hp. split.
  - intros Hf. destruct (i_peers _ Hi id p Hp). rewrite p_closes0, Hf. destruct (once p); cbn; lia.
  - by apply open_is_owned.
Qed.

(** [Close] releases every connection: once it has returned, a
    connection that is still open has a goroutine that closes it (a handler that
    was still setting it up and is refused, or a [closePeer] under way); and when
    no goroutine is left, every connection is closed. *)
Theorem pion_close_releases s e :
  0 <= MaxPeers cfg -> reachable s -> CloseReturned e ∈ s.2 ->
  closed s.1 = true /\
  forall id p, conns s.1 !! id = Some p ->
    (closes p = 0%nat -> exists i t, s.2 !! i = Some t /\ responsible id t = true) /\
    (Forall (fun t => finished t = true) s.2 -> (0 < closes p)%nat).
Proof.
  intros Hm Hr He. pose proof (peers_reachable_inv s Hm Hr) as Hi. destruct (i_close _ Hi _ [] He eq_refl) as [Hc Hall].
  split; [done|]. intros id p Hp.
  assert (Hopen : closes p = 0%nat -> exists i t, s.2 !! i = Some t /\ responsible id t = true).
  { intros Hz. destruct (open_is_owned s id p Hi Hp Hz) as [?|(Hf & Ho & _)]; [done|].
    by apply Hall in Hp as ?%elem_of_nil. }
  split; [done|]. intros Hfin. destruct (closes p) eqn:Hz; [|lia]. destruct Hopen as (i & t & Ht & Hres); [done|].
  rewrite Forall_lookup in Hfin. specialize (Hfin i t Ht). by destruct t.
Qed.

(** ** Termination *)

(** Steps a goroutine has left, at most. *)
Definition close_rank (rest : list nat) : nat := 2 + 5 * length rest.
Definition rank (t : Thread) : nat :=
  match t with
  | HandleOffer _ => 21 | NPEnter => 20 | NPConnect => 19 | NPTrack _ => 18 | NPAddTrack _ => 17 | NPArm _ => 16
  | NPInsert _ => 15 | NPRefuse _ => 3 | NPRefuseClose _ => 2 | NPRefused => 1 | NPCallbacks _ => 14 | NPStart _ => 13
  | SetRemote _ => 9 | CreateAnswer _ => 8 | SetLocal _ => 7 | Gather _ => 6 | Encode _ => 5
  | ClosePeer at_ _ k =>
      (match at_ with CEnter => 4 | CStop => 3 | CDelete => 2 | CConn => 1 end) +
      (match k with KClose rest _ => close_rank rest | _ => 0 end)
  | Reader _ => 1
  | CloseCall => 3 + 5 * Z.to_nat (MaxPeers cfg) | CloseLoop rest _ => close_rank rest | CloseWait _ => 1
  | CloseReturned _ | OfferDone _ | GoroutineDone => 0
  end.
Definition work (ts : list Thread) : nat := sum_list_with rank ts.

(** What an event from outside adds. *)
Definition weight (e : Event) : nat :=
  match e with
  | Run _ _ => 0 | Arrive _ => 21 | CallClose => 3 + 5 * Z.to_nat (MaxPeers cfg)
  | TimerFires _ | StateChange _ _ => 4
  end.
Definition is_run (e : Event) : bool := match e with Run _ _ => true | _ => false end.

Lemma tstep_rank o sh t sh' t' new : Z.of_nat (size (peers sh)) <= MaxPeers cfg -> tstep o sh t = Some (sh', t', new) ->
  (rank t' + work new < rank t)%nat.
Proof.
  intros Hm Hs. destruct t as [body| | | | | | | | | | | | | | | | |st j k|j| | | | | |]; cbn in Hs; try done;
    unfold closePeer_step, check_offer, abandon_offer in *; result_cases Hs; cbn; unfold close_rank; cbn; try lia;
    try (destruct k; cbn; unfold close_rank; lia).
  rewrite order_length. lia.
Qed.

Lemma work_step ts i t t' new : ts !! i = Some t ->
  (work (<[i := t']> ts ++ new) + rank t = work ts + rank t' + work new)%nat.
Proof.
  unfold work. intros Hi. rewrite sum_list_with_app.
  assert (sum_list_with rank (<[i := t']> ts) + rank t = sum_list_with rank ts + rank t')%nat; [|lia].
  revert i Hi; induction ts as [|u ts IH]; intros [|i] Hi; cbn in Hi; simplify_eq.
  - change (<[0%nat := t']> (t :: ts)) with (t' :: ts). cbn. lia.
  - change (<[S i := t']> (u :: ts)) with (u :: <[i := t']> ts). cbn. specialize (IH _ Hi). lia.
Qed.

Lemma sys_step_work e s s' : inv s -> step e s s' ->
  (bit (is_run e) + work s'.2 <= work s.2 + weight e)%nat.
Proof.
  destruct s as [sh ts]. intros Hi Hs. unfold step, sys_step in Hs. destruct e as [i o|body| |id|id st].
  - apply bind_Some in Hs as (t & Ht & Hs). apply bind_Some in Hs as ([[sh' t'] new] & Hs & [= <-]).
    pose proof (tstep_rank _ _ _ _ _ _ (i_size _ Hi) Hs). pose proof (work_step ts i t t' new Ht). cbn [snd bit is_run weight]. lia.
  - injection Hs as <-. unfold work. cbn [snd]. rewrite sum_list_with_app. cbn. lia.
  - injection Hs as <-. unfold work. cbn [snd]. rewrite sum_list_with_app. cbn. lia.
  - repeat case_match; simplify_eq. unfold work. cbn [snd]. rewrite sum_list_with_app. cbn. lia.
  - repeat case_match; simplify_eq. unfold work. cbn [snd]. rewrite sum_list_with_app. destruct st; cbn; lia.
Qed.

Lemma trace_work es s s' : inv s -> trace step es s s' ->
  (counted_steps is_run es + work s'.2 <= work s.2 + sum_list_with weight es)%nat.
Proof.
  intros Hi Ht. revert Hi. induction Ht as [s|e es s1 s2 s3 Hs _ IH]; intros Hi; [cbn; lia|].
  specialize (IH (pion_step_inv _ _ _ Hi Hs)). pose proof (sys_step_work _ _ _ Hi Hs).
  unfold counted_steps in *. cbn [List.filter sum_list_with]. destruct (is_run e); cbn [length bit] in *; lia.
Qed.

Lemma tstep_enabled sh t : (forall id k, t = ClosePeer CEnter id k -> exists p, conns sh !! id = Some p /\ once p <> Running) ->
  (forall e, t = CloseWait e -> wg sh = 0) -> finished t = false -> exists o r, tstep o sh t = Some r.
Proof.
  intros Hc Hw Hf.
  destruct t as [body| | | | | | | | | | | | | | | | |[] j k|j| |[]| e| | |]; try done;
    try (exists None; eexists; reflexivity).
  - exists None. cbn. case_match; eexists; reflexivity.
  - destruct (Hc _ _ eq_refl) as (p & Hp & Ho). exists None. cbn. rewrite Hp. destruct (once p); eauto; done.
  - exists (Some context_Canceled). cbn. eauto.
  - exists None. cbn. rewrite (Hw e eq_refl). eauto.
Qed.

Lemma run_step sh ts i t : ts !! i = Some t -> (exists o r, tstep o sh t = Some r) -> exists o s', step (Run i o) (sh, ts) s'.
Proof. intros Ht (o & [[sh' t'] new] & Hs). exists o. eexists. unfold step. cbn. rewrite Ht. cbn. rewrite Hs. reflexivity. Qed.

(** No deadlock: whoever waits for a [closeOnce] or the wait group waits for a
    goroutine that can go on. *)
Lemma no_deadlock s i t : inv s -> s.2 !! i = Some t -> finished t = false -> exists j o s', step (Run j o) s s'.
Proof.
  destruct s as [sh ts]. intros Hi Ht Hf. cbn in Ht.
  assert (Hgo : forall j u, ts !! j = Some u -> (exists o r, tstep o sh u = Some r) -> exists j o s', step (Run j o) (sh, ts) s').
  { intros j u Hu Hr. exists j. by eapply run_step. }
  assert (Hself : (exists id k, t = ClosePeer CEnter id k) \/ (exists e, t = CloseWait e) \/ exists o r, tstep o sh t = Some r).
  { destruct t as [| | | | | | | | | | | | | | | | |[]| | | | | | |];
      first [by left; eauto | by right; left; eauto | right; right; apply tstep_enabled; done]. }
  destruct Hself as [(id & k & ->)|[(e & ->)|?]]; [| |eauto].
  - pose proof (i_ids _ Hi) as Hids. rewrite Forall_lookup in Hids. specialize (Hids _ _ Ht).
    apply Forall_cons in Hids as [[p Hp]%lookup_lt_is_Some_2 _]. destruct (once p) eqn:Ho;
      try (eapply Hgo; [exact Ht|]; apply tstep_enabled; try done; intros j k' [= <- <-]; exists p; by rewrite Ho).
    destruct (i_peers _ Hi id p Hp). rewrite Ho in p_once0.
    assert (0 < count ts id AtInside)%nat as (j & u & Hu & Hat)%cnt_pos by (cbn [snd] in p_once0; rewrite p_once0; cbn; lia).
    eapply Hgo; [exact Hu|]. apply tstep_enabled; [| |by destruct u];
      intros; subst u; unfold at_place, place in Hat; cbn in Hat; try case_decide; done.
  - destruct (decide (wg sh = 0)) as [Hz|Hz].
    { eapply Hgo; [exact Ht|]. by apply tstep_enabled. }
    pose proof (i_wg _ Hi) as Hw. cbn [fst snd] in Hw. assert (0 < cnt reads ts)%nat as (j & u & Hu & Hr)%cnt_pos by lia.
    eapply Hgo; [exact Hu|]. apply tstep_enabled; by destruct u.
Qed.

(** Every goroutine of the service ends.  In every interleaving the
    goroutines take no more steps than they have left plus a bounded number for
    each event from outside (21 for a request, 4 for a timer or a state change, five
    for each possible peer and three more for [Close]); and as long as one has not
    ended, one of them can take a step, so nobody waits forever for a [closeOnce]
    or for the wait group. *)
Theorem pion_terminates s :
  0 <= MaxPeers cfg -> reachable s ->
  (forall es s', trace step es s s' -> (counted_steps is_run es <= work s.2 + sum_list_with weight es)%nat) /\
  (Exists (fun t => finished t = false) s.2 -> exists j o s', step (Run j o) s s').
Proof.
  intros Hm Hr. pose proof (peers_reachable_inv s Hm Hr) as Hi. split.
  - intros es s' Ht. pose proof (trace_work es s s' Hi Ht). lia.
  - intros (t & (i & Ht)%list_elem_of_lookup & Hf)%Exists_exists. by eapply no_deadlock.
Qed.

End Peers.
End Peers.

(** ** Sample runs *)

Module SamplePeers.
Import Peers.

Definition one_peer : Config := mkConfig 1 Second.
Definition accept_all (body : string) : result SessionDescription := Ok (mkDescription SDPTypeOffer body).
Definition in_order (m : gset nat) : list nat := elements m.

Lemma in_order_perm m : in_order m ≡ₚ elements m.
Proof. done. Qed.

Notation go es := (schedule (sys_step one_peer accept_all in_order) es initial).
Definition steps (i n : nat) : list Event := repeat (Run i None) n.
Definition fails (i : nat) : Event := Run i (Some context_Canceled).

(** A schedule that runs gives a reachable state. *)
Definition reached (es : list Event) : sys := default initial (go es).
Lemma reached_reachable es : is_Some (go es) -> reachable one_peer accept_all in_order (reached es).
Proof. intros [s Hs]. exists es. unfold reached. rewrite Hs. by apply schedule_trace. Qed.

(** An offer is answered, the service is closed, the reader ends. *)
Definition served : list Event := Arrive "v=0" :: steps 0 14.
Definition shut : list Event := served ++ CallClose :: steps 2 7 ++ [fails 1; Run 2 None].

Example served_answered : (reached served).2 = [OfferDone Answered; Reader 0] /\ peers (reached served).1 = {[0%nat]}.
Proof. by split; vm_compute. Qed.

Lemma pion_no_connection_lost_witness :
  closes <$> conns (reached served).1 !! 0%nat = Some 0%nat /\ Z.of_nat (size (peers (reached served).1)) <= 1.
Proof.
  split; [reflexivity|].
  apply (pion_no_connection_lost one_peer accept_all in_order in_order_perm (reached served));
    [by vm_compute | apply reached_reachable; vm_compute; eauto].
Defined.

Lemma pion_close_releases_witness : closed (reached shut).1 = true /\ CloseReturned None ∈ (reached shut).2.
Proof.
  assert (He : CloseReturned None ∈ (reached shut).2) by (vm_compute; set_solver).
  split; [|exact He].
  apply (pion_close_releases one_peer accept_all in_order in_order_perm (reached shut) None);
    [by vm_compute | apply reached_reachable; vm_compute; eauto | exact He].
Defined.

Lemma pion_terminates_witness : exists j o s', step one_peer accept_all in_order (Run j o) (reached served) s'.
Proof.
  apply (pion_terminates one_peer accept_all in_order in_order_perm (reached served));
    [by vm_compute | apply reached_reachable; vm_compute; eauto | by vm_compute; right; left].
Defined.

(** The session timer can fire before [newPeer] puts the connection in the map:
    [closePeer] deletes nothing, the closed connection is then added and, as its
    [closeOnce] is spent, stays; with one peer allowed every later offer is refused. *)
Definition early_timer : list Event :=
  Arrive "v=0" :: steps 0 6 ++ TimerFires 0 :: steps 1 4 ++ steps 0 3 ++ [fails 0; Run 0 None; fails 2].
Theorem closed_peer_keeps_slot :
  let s := reached early_timer in
  Forall (fun t => finished t = true) s.2 /\ peers s.1 = {[0%nat]} /\
  (once <$> conns s.1 !! 0%nat) = Some Finished /\ (closes <$> conns s.1 !! 0%nat) = Some 1%nat /\
  last (reached (early_timer ++ Arrive "v=0" :: steps 3 2)).2 = Some (OfferDone (Replied 503 "peer_capacity_unavailable")).
Proof. split_and!; try (by vm_compute). vm_compute. repeat constructor. Qed.

(** [Close] can return while [newPeer] is between putting the connection in the
    map and [wg.Add]: the reader goroutine starts after [Close] has returned. *)
Definition late_reader : list Event := Arrive "v=0" :: steps 0 7 ++ CallClose :: steps 1 8 ++ steps 0 2.
Theorem reader_outlives_close : (reached late_reader).2 = [SetRemote 0; CloseReturned None; Reader 0].
Proof. by vm_compute. Qed.

End SamplePeers.

(** ** The command *)

Module Command.

Definition default_config : Config := mkConfig 16 (5 * Minute).
Definition http_ErrServerClosed : string := "http: Server closed".

(** How the select of [main] ends: the server stopped, or a signal came and
    [Shutdown] was called. *)
Inductive Ending := ServeEnded (err : option error) | Interrupted (shutdownErr : option error).

(** The exit code, and whether [service.Close] was called before; errors of
    [Shutdown] and [Close] are only logged. *)
Definition main (cfg : Config) (e : Ending) : Z * bool :=
  match NewService cfg with
  | Err _ => (1, false)
  | Ok _ =>
      match e with
      | ServeEnded (Some err) => if errors_Is err http_ErrServerClosed then (0, true) else (1, false)
      | ServeEnded None | Interrupted _ => (0, true)
      end
  end.

Lemma NewService_accepts cfg : is_Ok (NewService cfg) = true <-> 0 < MaxPeers cfg /\ Second <= SessionTimeout cfg.
Proof.
  unfold NewService, guard_err. destruct (MaxPeers cfg <=? 0) eqn:E; cbn; bool_prop; [split; [done | lia]|].
  destruct (SessionTimeout cfg <? Second) eqn:F; cbn; bool_prop; split; try done; lia.
Qed.

Example main_default : main default_config (Interrupted None) = (0, true).
Proof. reflexivity. Qed.

(** Unless the configuration is refused or the listener fails, the peers are
    released before the process ends. *)
Lemma main_closes cfg e : (main cfg e).1 = 0 <-> (main cfg e).2 = true.
Proof. unfold main. repeat case_any; done. Qed.

End Command.

(** The echo loop hands on exactly the packets read before the first failure of
    a read, or of a write after the packet it failed on. *)
Lemma echo_packets_all {A} (packets : list A) rest :
  echo_packets ((fun p => (Ok p, None)) <$> packets) = packets /\
  echo_packets (((fun p => (Ok p, None)) <$> packets) ++ (Err context_Canceled, None) :: rest) = packets.
Proof. split; induction packets as [|p l IH]; cbn; congruence. Qed.
