(* ===== verification/TestServer.v ===== *)
(** * The test server

    Models [test/sipp/server/main.go], the in-memory application SIPp runs
    against: its configuration, its two users and its publishers. *)

From S2P Require Import Prelude GoStrings Netip Rtp MediaSession Auth App.

(** [discardPublisher.Publish] *)
Definition discard_Publish {A} (ctx : Context) (event : A) : option error := None.

(** [mediaEvidencePublisher.PublishMediaSummary]: what it logs, and its result. *)
Definition PublishMediaSummary (ctx : Context) (summary : Summary) : option (Z * Z) * option error :=
  let caller := st_Packets (ls_Inbound (sm_Caller summary)) in
  let callee := st_Packets (ls_Inbound (sm_Callee summary)) in
  (if (0 <? caller) && (0 <? callee) then Some (caller, callee) else None, None).

Definition realm : string := "pbx.example.invalid".
Definition users : list (string * string) := [("1001", "password-1001"); ("1002", "password-1002")]%string.
Definition credentials `{Crypto} : list Credential :=
  (fun '(name, password) => mkCredential "tenant-sipp" name realm (ComputeHA1 name realm password) 8) <$> users.

Definition loopback : Addr := Addr4 2130706433.

Definition server_config (port : Z) : Config :=
  {| BindHost := "127.0.0.1"; SIPPort := port; App.Realm := realm; cfg_TenantID := "tenant-sipp"; cfg_NodeID := "node-sipp";
     App.NonceSecret := bytes_of "phase1-sipp-only-secret-32-bytes!!"; App.NonceTTL := Minute; App.MaxReplayEntries := 4096;
     DefaultRegisterExpiry := 5 * Minute; MinRegisterExpiry := Second; MaxRegisterExpiry := 60 * Minute;
     RegisterCleanup := Second; TransactionTimeout := 3 * Second; InviteTimeout := 5 * Second;
     DispatchTimeout := 3 * Second; MaxActiveCalls := 64; CallMailboxSize := 64;
     MediaBindIP := loopback; MediaAdvertisedIP := loopback;
     RTPStartPort := 27000; RTPEndPort := 27511; RTPReadPoll := 20 * Millisecond;
     MediaInactivity := 2 * Second; RTCPInterval := 500 * Millisecond;
     MediaSummaryInterval := 500 * Millisecond; MediaSummaryTimeout := 20 * Millisecond |}.

(** Everything is given to [New]; sipgo's constructors succeed or not. *)
Definition server_env (ua server client : option error) : NewEnv := mkNewEnv true true true true true ua server client.

Lemma loopback_parsed : ParseAddr "127.0.0.1" = Ok loopback.
Proof. by vm_compute. Qed.

Lemma server_acceptable port : 0 < port <= 65535 -> acceptable (server_config port) (server_env None None None).
Proof.
  intros Hp. constructor; try done; vm_compute; repeat split; try done; try lia.
Qed.

(** The test server starts on every port a socket can have, and on no other;
    both of its users are known to it with the secret of their password. *)
Theorem test_server_starts `{Crypto} port :
  (0 < port <= 65535 <-> exists a, New (server_config port) (server_env None None None) = (Ok a, Opened)) /\
  (forall name password, (name, password) ∈ users ->
     exists c, memory_LookupCredential (NewCredentialStore credentials) None realm name = Ok c /\
       c_Username c = name /\ c_HA1 c = ComputeHA1 name realm password /\ c_TenantID c = cfg_TenantID (server_config port)).
Proof.
  assert (Hu : is_u16 (RTPStartPort (server_config port)) /\ is_u16 (RTPEndPort (server_config port))) by (cbn; unfold_words; lia).
  destruct Hu as [Hs He]. split; [split|].
  - intros Hp. by apply New_acceptable, server_acceptable.
  - intros [a Ha]. apply (New_Ok_acceptable _ _ a Hs He) in Ha. apply Ha.
  - intros name password Hin. unfold users in Hin. rewrite !elem_of_cons in Hin. destruct Hin as [[= -> ->]|[[= -> ->]|?%elem_of_nil]]; [| |done];
      (eexists; split; [vm_compute; reflexivity | done]).
Qed.

(** The exit code of [main]: [log.Fatal] exits with 1; [runErr] is what
    [application.Run] returns when it is called. *)
Definition exit_code (port : Z) (env : NewEnv) (runErr : option error) : Z :=
  match (New (server_config port) env).1, runErr with
  | Ok _, None => 0
  | _, _ => 1
  end.

Example default_port_starts : exit_code 15060 (server_env None None None) None = 0.
Proof. by vm_compute. Qed.
